(* ===== verification/_CoqProject ===== *)
-Q . S2P
Prelude.v
Types.v
BoardState.v
Zobrist.v
Board.v
MoveGen.v
Fen.v
Rules.v
Position.v
MakeMove.v
Hashing.v
Preservation.v
Legality.v
FenRoundTrip.v
Uci.v
Notation.v
San.v
RoomState.v
GameRoom.v
GameRoomSpec.v
RoomManager.v
Matchmaker.v
LobbySpec.v
TransTable.v
Evaluator.v
Engine.v
EngineSpec.v
EvaluatorSpec.v
AIPlayer.v
Swiss.v
SwissSpec.v
Storage.v
StorageSpec.v
TournamentRepo.v
TournamentManager.v
StandingsSpec.v
TournamentSpec.v
TournamentSteps.v
TournamentBalance.v
WebSocket.v
WebSocketSpec.v
Base64.v
Bytes.v
Sha2.v
Sha2Spec.v
Hmac.v
Credentials.v
Token.v
OAuth.v
AccountStore.v
Sessions.v
Accounts.v
EmailRecovery.v
AccountSpec.v
SessionSpec.v
AccountSteps.v
AccountContracts.v
LoginSpec.v
Aes.v
AesSpec.v
Aead.v
SealedEnvelope.v
KeyStore.v
Json.v
SealedRegistry.v
IdentityExtractor.v
RequestPipeline.v
GatewaySpec.v
ChessCorrectness.v
RoomCorrectness.v
EngineCorrectness.v
TournamentCorrectness.v
LobbyCorrectness.v
TransportCorrectness.v
CryptoCorrectness.v
AccountCorrectness.v
Binary64.v
RateLimiter.v
AuthHandler.v
GatewayCorrectness.v
