(* ===== verification/Prelude.v ===== *)
(** * Verification of the chess server

    This library models the core of a C++ chess server and proves it correct: the
    rules engine, its notations, the search engine, the game room that runs a game
    between two connections, the lobby around it (matchmaking, the registry of rooms),
    the tournaments and the database transactions they run in, the accounts, tokens and
    sessions of its users, the transport below it (WebSocket framing and the
    codecs), and the cryptography that protects credentials on it. Paths below are relative to [src/src/].

    ** Parts and files

    The program is layered. [core/types.h] and [chess/move.h] define values;
    [chess/board.cpp] is a mailbox board with incremental hashing ([chess/zobrist.cpp]);
    [chess/move_gen.cpp] generates moves by making and undoing them on that board;
    [chess/notation.cpp] prints and reads SAN and PGN over the generator;
    [chess/engine.cpp] searches with a transposition table and an evaluator;
    [game/game_room.cpp] owns a board, two seats and their clocks, and tells listeners
    when a game starts and ends; [game/room_manager.cpp] keeps the rooms, and
    [game/matchmaker.cpp] queues players by rating and opens rooms for those it pairs;
    [tournament/swiss.cpp] pairs a round; [tournament/tournament_manager.cpp] takes a
    tournament from registration to its end through the rows that
    [tournament/tournament_repo.cpp] keeps in the database
    ([storage/database.cpp], [storage/transaction.cpp]). [protocol/request_pipeline.cpp]
    opens sealed messages and identifies their senders before a handler sees them.
    [auth/] registers players, checks
    passwords and Google identities, issues access tokens and rotates refresh tokens, and
    recovers passwords by e-mail, over three tables of that database. [net/tcp_server.cpp] reads the sockets into the
    buffers of [net/connection.cpp], cuts them into frames with [net/websocket.cpp] and
    routes the messages. [crypto/] holds a hand-written stack: SHA-2, HMAC and HKDF over it,
    AES in counter mode, their combination into authenticated encryption, and on top the
    envelopes in which clients seal passwords to one-time keys of the server.

    Definitions translated from the code, one file per component:
    - [Types]: squares, pieces, colours, castling rights, moves, characters.
    - [BoardState], [Board]: the record of [Board]'s members; [make_move],
      [undo_move], [update_castling_rights] and the accessors.
    - [Zobrist]: the xorshift generator, the key tables, [compute_hash].
    - [MoveGen]: attack tables, [is_square_attacked], pseudo-legal and legal generation,
      [get_game_status], [perft].
    - [Fen], [Uci], [Notation]: FEN, UCI and SAN strings and PGN files, with the stream
      extraction ([>>], [getline]) the code uses.
    - [TransTable], [Evaluator], [Engine], [AIPlayer]: the table, every evaluation term,
      [quiescence], [alpha_beta], [search], the move selector, and [compute_move].
    - [RoomState], [GameRoom]: the members of [GameRoom] and each of its public
      operations.
    - [RoomManager], [Matchmaker]: the registry and the matchmaking queue.
    - [Swiss]: one round of Swiss pairing with its branch-and-bound search.
    - [Storage]: a program talking to the database, as a state and environment monad: each
      statement works, is refused or takes effect without an answer; transactions.
    - [TournamentRepo]: the tables of a tournament with the constraints of the migrations,
      and every function of the repository, the statements [sql_*] included.
    - [TournamentManager]: the operations of [TournamentManager], from [join] to the
      maintenance tick and the standings.
    - [Credentials], [Token]: user names and addresses ([auth/username.cpp] and
      the pure functions of [auth/email_recovery.cpp]) and password hashes
      ([auth/password.cpp]); access tokens and the claims in them ([auth/token.cpp]).
    - [OAuth]: the cached keys of the identity provider ([auth/jwks_verifier.cpp])
      and the verifier of its identity tokens ([auth/oauth_verify.cpp]).
    - [AccountStore]: the tables [players], [sessions] and [email_challenges] with their
      constraints, and the statements the components below send.
    - [Sessions], [Accounts], [EmailRecovery]: refresh tokens and their families
      ([auth/session.cpp]); registration, password login and the Google flows
      ([auth/service.cpp], [auth/oauth_verify.cpp]); confirmed addresses and password
      resets ([auth/email_recovery.cpp]), all as programs of [Storage].
    - [Binary64]: the type [double] as binary64 of the Standard Library's [SpecFloat], its
      rounding, and the exact value of a non-negative number in units of 2^-1074.
      [RateLimiter]: the token buckets ([auth/rate_limiter.cpp]) in it. [AuthHandler]: every route of [auth/auth_handler.cpp], from the
      text of a request to the frame that answers it; at its end, the lemmas on them.
    - [Json]: what the code asks of the JSON library, with its laws, and an instance.
    - [SealedRegistry], [IdentityExtractor], [RequestPipeline]: which messages must be
      sealed and how they are opened ([crypto/sealed_registry.cpp]); who is calling
      ([application/auth/identity_extractor.cpp]); the stages of a request, the routes of
      the handlers and the wiring of [main.cpp]. Calling a route is an outcome.
    - [WebSocket]: connection buffers, handshake, frames, routing, the read loop.
    - [Base64]: the two base64 codecs, with their proofs.
    - [Bytes]: arrays of bytes, big-endian words, constant-time comparison, and
      [HashFunction], what HMAC asks of a hash, a class with its laws; [Sha2] implements it
      three times, [Hmac] uses it.
    - [Sha2], [Hmac], [Aes], [Aead], [SealedEnvelope], [KeyStore]: one file of [crypto/]
      each ([Hmac] also [hkdf.h], [Aes] also [aes_ctr.cpp]). OpenSSL's key exchanges and
      signatures are the class [OpenSSL], with the laws of their standards.

    Specifications and the proofs that the code meets them:
    - [Rules] states the movement of the pieces declaratively (attacks, slides, castling,
      promotion) and proves attack detection and generation equivalent to it.
    - [Position] defines well-formed positions and a checker for them; [MakeMove],
      [Hashing] and [Preservation] show what one move does to the squares, the key and
      the invariant; [Legality] puts them together: legal moves, reachable positions,
      perft, game status.
    - [FenRoundTrip], [San], [EvaluatorSpec], [EngineSpec] carry the lemmas on strings,
      bounds and search.
    - [GameRoomSpec] is the abstract machine of a game ([Game], [game_step]), the
      refinement of the room's operations to it, the invariant of its runs, who wins when a
      player resigns or stays away, and the history behind a draw by agreement.
    - [LobbySpec]: the invariants of the registry and of the
      queue, and how a match is a run of calls on the registry.
    - [SwissSpec]: complete rounds, the admissible lower bound, exactness of the search.
    - [StorageSpec]: a program logic for [Storage] ([wp], [wp_tx] inside a transaction), with
      or without faults. [TournamentSpec]: the invariant of the tables ([coherent]) and what
      may change ([evolves]); [TournamentSteps]: every operation keeps both, whatever
      fails; [TournamentBalance]: what holds beyond that when nothing fails ([settled]).
      [StandingsSpec]: the table of standings as sums and an order.
    - [AccountSpec]: the invariant of the accounts ([orderly]) and what may change;
      [SessionSpec]: a refresh exchange as a relation on sessions; [AccountSteps]: every
      operation keeps the invariant, whatever fails; [AccountContracts]: what each
      operation does when it answers; [LoginSpec]: who a password and a Google identity
      are.
    - [GatewaySpec]: the envelope a message carries, what it means that it opens under a key
      of the store, whose token a message bears, and the routes.
    - [WebSocketSpec]: RFC 6455 frames as byte strings, and reading over segments.
    - [Sha2Spec]: the padding and chaining of FIPS 180-4, and the streaming object;
      [AesSpec]: FIPS 197 over GF(2^8), and counter mode. [Hmac], [Aead], [SealedEnvelope]
      and [KeyStore] carry their specifications after their definitions.
    - [ChessCorrectness], [RoomCorrectness], [EngineCorrectness], [LobbyCorrectness],
      [TournamentCorrectness], [AccountCorrectness],
      [GatewayCorrectness], [TransportCorrectness], [CryptoCorrectness] state the properties, each with an instance at a concrete
      position, game, search or queue where it has hypotheses.

    ** How the code is rendered

    Integers are [Z]. Hashes are 64-bit numbers, reduced where the code multiplies or
    shifts; [uint8_t] and [int] conversions that can lose bits are written out
    ([to_int8], [to_int]). The mailbox is a list of 64 pieces. A loop over one mutable
    board threads the board through: legal generation, perft and the search each return
    it, and that they return the one they were given is a theorem, not a convention.
    [set_from_fen] returns [FenOk], [FenFail] with the half-filled board, or [FenUB]
    where the code would write outside its array.

    A public operation of the room runs under the room's mutex, so it is one function
    from room to room, followed by the events [LockAndDrain]'s destructor fires: the
    type of [locked]. Interleavings of threads are then sequences of operations
    ([exec_all]). The second, short critical section in which [emit_started] copies the
    listeners is taken together with the operation that starts the game. Time is an argument: [Env] gives each reading of the steady clock
    within the call, the wall clock and the fresh UUID. In the search, [stopped] and
    [now] give the stop flag and the clock at each reading, and [std::sort], which
    leaves the order of equal scores open, is any function that permutes its input.

    The database is the record of its tables, and a statement a function on it that a
    violated constraint makes fail. Scores, multiples of one half in the code, are counted in
    half points; timestamps are whole seconds, of the server's clock or of the process; a
    sequence does not skip the numbers of failed insertions. The operations of
    [TournamentManager] run one after another, as the lock on the connection has them; a
    history of requests ([run_requests]) gives each its own environment. Lower case of names
    is a parameter ([normal]), and so is the order of rows a query does not sort
    ([arrange], any permutation).

    ** Fuel

    [ray_attacks] and [ray_moves] follow a ray for at most [ray_fuel] = 8 squares, and a
    ray leaves the board after 7. [quiescence] has fuel for 65 plies and stops by itself
    at ply 64; more fuel changes nothing ([quiescence_terminates]). [alpha_beta] and
    [perft] recurse on their depth. Reading loops (words, lines, tags) have the length
    of the string as fuel, and each round consumes a character. The loops over frames,
    hash blocks and cipher blocks have the length of their input as fuel.

    ** What the theorems show

    Rules: the generator yields exactly the legal moves; attack detection and
    pseudo-legal generation are the declarative rules; [undo_move] inverts [make_move];
    reachable positions stay well formed and correctly hashed; perft counts lines;
    game status; FEN, UCI and SAN round trips; what an imported FEN guarantees and when
    the import leaves its array.
    Room: refinement to the abstract machine; the invariant on history, status and
    result; one completion announcement, final results; the contract of an accepted move
    and that a legal move in time is accepted; who resigns or stays away loses; behind every
    draw by agreement stand the offer of one seat and its acceptance by the other.
    Engine: legal answers of the search and of the AI player whatever the clock and the
    table, and its time budget; termination of quiescence, evaluation bounds, soundness,
    round trip and indexing of the transposition table.
    Lobby: the queue's two indexes agree, matches are fair (in range of both players at a reading of the clock, White rated no
    higher) and lose nobody, the registry
    lists every room under its identifier and gives a pairing one room.
    Tournament: the round is complete, avoids forbidden meetings and is the cheapest.
    Over any history of requests, with any database faults, rounds are played in order,
    results are final but for overrides, and nothing goes back; without faults the totals
    are those of the results, every round that is over has a successor or ends the
    tournament, a due round seats everyone, and the standings are what their definition
    says; a second report of a result changes nothing.
    Accounts: an access token is accepted exactly while it lives, under the key that
    issued it; over any history with any database faults the accounts stay in order and
    a revoked session stays revoked; a refresh exchange is the declarative relation of
    rotation, grace and reuse; who a password lets in, when a reset code changes a
    password, and which account a Google identity opens.
    Gateway: what must be sealed reaches its handler only sealed to a live one-time key, once
    and as the client wrote it; a route that needs an identity is called exactly with the
    account of a valid token. The routes of [auth/] keep the accounts in order, whatever they
    are sent; a login answers tokens exactly for the account its credentials open. No token
    bucket that calls at any times can lead to is worth more than its capacity, so at an
    instant only so many guesses get through, whatever came before.
    Transport: base64 texts and bytes are in bijection; frames are read as they were
    written, whatever the segments they arrive in, and nothing is read past the buffer.
    Cryptography: each algorithm is that of its standard, on every input up to the sizes
    its length fields hold, and passes published test vectors; what is sealed opens and
    only what is sealed opens; a one-time key is handed out at most once.
    A few theorems and lemmas record where the code differs from its documentation: the fifty-move
    clock before mate, castling in SAN, the orientation of the piece-square tables, the
    clock after a flag fall, searches with zero limits, FEN placements that overflow.

    ** Not modelled

    The rest of the server: the application services that compose rooms, storage and
    messages, the codec of game messages, ratings and the cheat analysis (floating point), and the sockets themselves. Storage, mail and
    sockets are I/O around libpq, libcurl and epoll; SHA-1 and base64 of OpenSSL, used by the
    handshake, are parameters, and so are Argon2id and ECDSA where tokens and passwords are checked. The
    JSON library, third-party code, is the class [Json], and [ClaimsJson] for the claims of
    tokens. Of the storage layer, game and player repositories,
    migrations and the connection pool. That a bucket of [RateLimiter] refills
    at its rate is shown at times of one preset; in general only the bound by the capacity. The
    cryptography is verified as functions: timing, and the wiping of secrets from memory,
    are outside the model. Inside the modelled files, left out are one-line accessors,
    logging and the exceptions listeners throw. *)

(** ** Shared prelude: libraries, automation, notations *)
From Stdlib Require Export ZArith Lia Bool Btauto.
From stdpp Require Export base tactics list.
From Stdlib Require Export List Permutation Sorted.
From Stdlib Require Finite.
Export ListNotations.

#[export] Set Default Goal Selector "!".
#[export] Set Warnings "-clear-no-such-hyp,-notation-for-abbreviation".

Create HintDb chess.
Create Rewrite HintDb boards.

Declare Scope chess_scope.
Delimit Scope chess_scope with chess.

(** [x ^^ y] is the 64-bit [x ^ y] of the source. *)
Notation "x ^^ y" := (Z.lxor x y) (at level 50, left associativity) : chess_scope.

Open Scope Z_scope.
Open Scope chess_scope.

(** ** Automation *)

(** Splits every conjunction and existential among the hypotheses. *)
Ltac split_hyps :=
  repeat match goal with
  | H : _ /\ _ |- _ => destruct H
  | H : exists _, _ |- _ => destruct H
  end.

(** Turns the boolean tests of the source into propositions, everywhere. *)
Ltac bool_hyps :=
  repeat match goal with
  | H : (_ && _) = true |- _ => apply andb_true_iff in H; destruct H
  | H : (_ || _) = false |- _ => apply orb_false_iff in H; destruct H
  | H : negb _ = true |- _ => apply negb_true_iff in H
  | H : negb _ = false |- _ => apply negb_false_iff in H
  | H : bool_decide _ = true |- _ => apply bool_decide_eq_true in H
  | H : bool_decide _ = false |- _ => apply bool_decide_eq_false in H
  | H : (_ =? _) = true |- _ => apply Z.eqb_eq in H
  | H : (_ =? _) = false |- _ => apply Z.eqb_neq in H
  | H : (_ <? _) = true |- _ => apply Z.ltb_lt in H
  | H : (_ <? _) = false |- _ => apply Z.ltb_ge in H
  | H : (_ <=? _) = true |- _ => apply Z.leb_le in H
  | H : (_ <=? _) = false |- _ => apply Z.leb_gt in H
  end.

(** Equality of two exclusive-or expressions, bit by bit. *)
Ltac xor_solve :=
  apply Z.bits_inj'; intros ? ?;
  rewrite ?Z.lxor_spec, ?Z.bits_0; btauto.

(** Case analysis on the integer tests that the goal branches on. *)
Ltac case_z :=
  match goal with
  | |- context [?a =? ?b] => destruct (Z.eqb_spec a b)
  | |- context [?a <? ?b] => destruct (Z.ltb_spec a b)
  | |- context [?a <=? ?b] => destruct (Z.leb_spec a b)
  end.

(** ** Logic *)

Lemma or_iff_compat (A B C D : Prop) : (A <-> C) -> (B <-> D) -> A \/ B <-> C \/ D.
Proof. tauto. Qed.

Lemma exists_iff {A} (P Q : A -> Prop) : (forall x, P x <-> Q x) -> (exists x, P x) <-> exists x, Q x.
Proof. intros H. split; intros [x Hx]; exists x; by apply H. Qed.

(** ** Lists without repetition *)

Fixpoint distinct (l : list Z) : bool :=
  match l with
  | [] => true
  | x :: l => negb (existsb (Z.eqb x) l) && distinct l
  end.

Lemma distinct_sound l : distinct l = true -> List.NoDup l.
Proof.
  induction l as [|x l IH]; cbn [distinct]; [constructor|]. intros H. bool_hyps.
  constructor; [|by apply IH]. intros Hin.
  enough (existsb (Z.eqb x) l = true) by congruence.
  apply existsb_exists. exists x. split; [done|]. apply Z.eqb_refl.
Qed.

(** ** Bytes and bit fields *)

Definition byte_ok (b : Z) : Prop := 0 <= b < 256.

Lemma lor_add a d n : 0 <= n -> 0 <= d < 2 ^ n -> Z.lor (Z.shiftl a n) d = a * 2 ^ n + d.
Proof.
  intros Hn Hd. rewrite <- Z.shiftl_mul_pow2 by done. rewrite <- Z.add_lor_land.
  assert (Z.land (Z.shiftl a n) d = 0) as ->; [|lia].
  destruct (Z.eq_dec d 0) as [->|Hne]; [apply Z.land_0_r|].
  apply Z.bits_inj'. intros i Hi. rewrite Z.land_spec, Z.bits_0, Z.shiftl_spec by done.
  destruct (Z.ltb_spec i n); [by rewrite (Z.testbit_neg_r a) by lia|].
  rewrite (Z.bits_above_log2 d); [apply andb_false_r|lia|].
  apply Z.log2_lt_pow2; [lia|]. eapply Z.lt_le_trans; [apply Hd|]. apply Z.pow_le_mono_r; lia.
Qed.

Lemma shiftr_div a n : 0 <= n -> Z.shiftr a n = a / 2 ^ n.
Proof. apply Z.shiftr_div_pow2. Qed.
Lemma land_63 a : Z.land a 63 = a mod 64.
Proof. exact (Z.land_ones a 6 ltac:(lia)). Qed.
Lemma land_255 a : Z.land a 255 = a mod 256.
Proof. exact (Z.land_ones a 8 ltac:(lia)). Qed.

(** ** Prefixes *)

Lemma firstn_app_exact {A} (l s : list A) k : (length s = k)%nat -> firstn (length (l ++ s) - k) (l ++ s) = l.
Proof.
  intros Hk. rewrite length_app, Hk. replace (length l + k - k)%nat with (length l + 0)%nat by lia.
  rewrite firstn_app_2. cbn. by rewrite app_nil_r.
Qed.

Lemma window_app {A} n p (l more : list A) :
  (p + n <= length l)%nat -> firstn n (skipn p (l ++ more)) = firstn n (skipn p l).
Proof.
  intros H. rewrite skipn_app, firstn_app, length_skipn.
  replace (n - (length l - p))%nat with 0%nat by lia. by rewrite firstn_O, app_nil_r.
Qed.

(** ** Permutations *)

Lemma perm_in_iff {A} {l k : list A} : Permutation l k -> forall x, In x l <-> In x k.
Proof. intros H x. split; apply Permutation_in; [done|by symmetry]. Qed.

Lemma filter_none {A} (f : A -> bool) l : (forall x, In x l -> f x = false) -> List.filter f l = [].
Proof. induction l as [|x l IH]; cbn; [done|]. intros H. rewrite H by by left. apply IH. auto. Qed.

Lemma filter_perm {A} (f : A -> bool) l k : Permutation l k -> Permutation (List.filter f l) (List.filter f k).
Proof.
  induction 1 as [|x l k _ IH|x y l|? ? ? _ IH1 _ IH2]; cbn [List.filter]; [done|destruct (f x); auto| |].
  - destruct (f x), (f y); try done. apply perm_swap.
  - by rewrite IH1.
Qed.

(** ** Sorting

    [isort lt] stands for [std::sort] under a comparator that orders its elements
    totally, and for [std::stable_sort] under any: it is stable. *)

Section isort.
Context {A : Type} (lt : A -> A -> bool).

Fixpoint insert_sorted (x : A) (l : list A) : list A :=
  match l with
  | [] => [x]
  | y :: l' => if lt y x then y :: insert_sorted x l' else x :: l
  end.

Definition isort (l : list A) : list A := fold_right insert_sorted [] l.

Lemma insert_sorted_perm x l : Permutation (insert_sorted x l) (x :: l).
Proof.
  induction l as [|y l IH]; cbn [insert_sorted]; [done|]. destruct (lt y x); [|done].
  rewrite IH. apply perm_swap.
Qed.

Lemma isort_perm l : Permutation (isort l) l.
Proof.
  induction l as [|x l IH]; cbn [isort fold_right]; [done|]. rewrite insert_sorted_perm.
  by apply perm_skip.
Qed.

(** Sorted for the negation of the reversed order, when that is a total preorder. *)
Lemma isort_sorted l :
  (forall x y, lt x y = true -> lt y x = false) ->
  (forall x y z, lt y x = false -> lt z y = false -> lt z x = false) ->
  Sorted.StronglySorted (fun x y => lt y x = false) (isort l).
Proof.
  intros Ha Ht. induction l as [|x l IH]; cbn [isort fold_right]; [constructor|].
  fold (isort l). set (k := isort l) in *. clearbody k. clear l.
  induction IH as [|y k Hk IHk Hy]; cbn [insert_sorted]; [by repeat constructor|].
  destruct (lt y x) eqn:E.
  - constructor; [done|]. apply List.Forall_forall. intros z Hz.
    apply (Permutation_in z (insert_sorted_perm x k)) in Hz as [<-|Hz]; [by apply Ha|].
    rewrite List.Forall_forall in Hy. by apply Hy.
  - constructor; [by constructor|]. constructor; [done|].
    apply List.Forall_forall. intros z Hz. rewrite List.Forall_forall in Hy. eauto.
Qed.
End isort.
