(* ===== verification/Types.v ===== *)
(** * Fundamental types: src/src/core/types.h and src/src/chess/move.h

    Squares are [uint8_t] values, kept as [Z]; [make_square] writes out the
    narrowing cast.  Strings are lists of characters ([std::string] is an array
    of [char]); [char_val] is the (signed) integer value of a [char]. *)
From Stdlib Require Export Ascii.
From Stdlib Require String.
Export String.StringSyntax.
From S2P Require Import Prelude.

(** ** Squares *)

Definition NO_SQUARE : Z := 64.
Definition NUM_SQUARES : Z := 64.

Definition make_square (rank file : Z) : Z := (rank * 8 + file) mod 256.
Definition rank_of (sq : Z) : Z := sq / 8.
Definition file_of (sq : Z) : Z := sq mod 8.
Definition is_valid_square (sq : Z) : bool := (0 <=? sq) && (sq <? NUM_SQUARES).

Module Squares.
Definition A1 : Z := 0.
Definition B1 : Z := 1.
Definition C1 : Z := 2.
Definition D1 : Z := 3.
Definition E1 : Z := 4.
Definition F1 : Z := 5.
Definition G1 : Z := 6.
Definition H1 : Z := 7.
Definition A2 : Z := 8.
Definition B2 : Z := 9.
Definition C2 : Z := 10.
Definition D2 : Z := 11.
Definition E2 : Z := 12.
Definition F2 : Z := 13.
Definition G2 : Z := 14.
Definition H2 : Z := 15.
Definition A7 : Z := 48.
Definition B7 : Z := 49.
Definition C7 : Z := 50.
Definition D7 : Z := 51.
Definition E7 : Z := 52.
Definition F7 : Z := 53.
Definition G7 : Z := 54.
Definition H7 : Z := 55.
Definition A8 : Z := 56.
Definition B8 : Z := 57.
Definition C8 : Z := 58.
Definition D8 : Z := 59.
Definition E8 : Z := 60.
Definition F8 : Z := 61.
Definition G8 : Z := 62.
Definition H8 : Z := 63.
End Squares.

(** ** Pieces *)

Module PieceType.
Inductive t := PAWN | KNIGHT | BISHOP | ROOK | QUEEN | KING | NONE.
#[export] Instance eq_dec : EqDecision t.
Proof. solve_decision. Defined.
(** The [static_cast<int>] of the enumeration. *)
Definition index (p : t) : nat :=
  match p with
  | PAWN => 0 | KNIGHT => 1 | BISHOP => 2 | ROOK => 3 | QUEEN => 4 | KING => 5
  | NONE => 6
  end.
End PieceType.
#[export] Existing Instance PieceType.eq_dec.

Module Color.
Inductive t := WHITE | BLACK | NONE.
#[export] Instance eq_dec : EqDecision t.
Proof. solve_decision. Defined.
Definition index (c : t) : nat :=
  match c with WHITE => 0 | BLACK => 1 | NONE => 2 end.
End Color.
#[export] Existing Instance Color.eq_dec.

Definition opposite_color (c : Color.t) : Color.t :=
  if bool_decide (c = Color.WHITE) then Color.BLACK else Color.WHITE.

Record Piece := mkPiece { type : PieceType.t; color : Color.t }.

#[export] Instance Piece_eq_dec : EqDecision Piece.
Proof. solve_decision. Defined.

(** [Piece()], the empty square. *)
Definition no_piece : Piece := mkPiece PieceType.NONE Color.NONE.
#[export] Instance Piece_inhabited : Inhabited Piece := populate no_piece.

Definition is_none (p : Piece) : bool := bool_decide (type p = PieceType.NONE).

(** ** Castling rights, a 4-bit mask *)

Module CastlingRights.
Definition NONE : Z := 0.
Definition WHITE_KINGSIDE : Z := Z.shiftl 1 0.
Definition WHITE_QUEENSIDE : Z := Z.shiftl 1 1.
Definition BLACK_KINGSIDE : Z := Z.shiftl 1 2.
Definition BLACK_QUEENSIDE : Z := Z.shiftl 1 3.
Definition ALL : Z := 15.
End CastlingRights.

(** [mask & bit] used as a truth value. *)
Definition has_flag (mask bit : Z) : bool := negb (Z.land mask bit =? 0).

Module GameStatus.
Inductive t :=
  ONGOING | CHECKMATE | STALEMATE | DRAW_INSUFFICIENT_MATERIAL | DRAW_FIFTY_MOVE
| DRAW_THREEFOLD_REPETITION | DRAW_AGREEMENT | RESIGNATION | TIMEOUT | ABANDONMENT.
#[export] Instance eq_dec : EqDecision t.
Proof. solve_decision. Defined.
End GameStatus.
#[export] Existing Instance GameStatus.eq_dec.

(** ** Moves *)

Module MoveFlags.
Definition NONE : Z := 0.
Definition PROMOTION : Z := Z.shiftl 1 0.
Definition EN_PASSANT : Z := Z.shiftl 1 1.
Definition KINGSIDE_CASTLE : Z := Z.shiftl 1 2.
Definition QUEENSIDE_CASTLE : Z := Z.shiftl 1 3.
Definition DOUBLE_PAWN_PUSH : Z := Z.shiftl 1 4.
End MoveFlags.

Record Move := mkMove { from : Z; to : Z; flags : Z; promo_type : PieceType.t }.

#[export] Instance Move_eq_dec : EqDecision Move.
Proof. solve_decision. Defined.

(** [Move()]: the value every parser returns on failure. *)
Definition null_move : Move := mkMove 0 0 MoveFlags.NONE PieceType.NONE.
#[export] Instance Move_inhabited : Inhabited Move := populate null_move.

(** [Move(f, t)] and [Move(f, t, fl)]: the constructor's default arguments. *)
Definition quiet_move (f t : Z) : Move := mkMove f t MoveFlags.NONE PieceType.NONE.
Definition flag_move (f t fl : Z) : Move := mkMove f t fl PieceType.NONE.

Definition is_promotion (m : Move) : bool := has_flag (flags m) MoveFlags.PROMOTION.
Definition is_en_passant (m : Move) : bool := has_flag (flags m) MoveFlags.EN_PASSANT.
Definition is_kingside_castle (m : Move) : bool := has_flag (flags m) MoveFlags.KINGSIDE_CASTLE.
Definition is_queenside_castle (m : Move) : bool := has_flag (flags m) MoveFlags.QUEENSIDE_CASTLE.
Definition is_double_pawn_push (m : Move) : bool := has_flag (flags m) MoveFlags.DOUBLE_PAWN_PUSH.
Definition is_castle (m : Move) : bool := is_kingside_castle m || is_queenside_castle m.

(** ** Characters *)

#[export] Instance ascii_eq_decision : EqDecision ascii := ascii_dec.

Definition str := list ascii.
Definition lit (s : String.string) : str := String.list_ascii_of_string s.
Arguments lit _%_string_scope.

(** The integer a (signed, 8-bit) [char] promotes to. *)
Definition char_val (c : ascii) : Z :=
  let n := Z.of_N (N_of_ascii c) in if n <? 128 then n else n - 256.

(** [static_cast<char>] of an [int]. *)
Definition char_of (z : Z) : ascii := ascii_of_N (Z.to_N (z mod 256)).

(** <cctype> in the "C" locale. *)
Definition isupper (c : ascii) : bool := (65 <=? char_val c) && (char_val c <=? 90).
Definition isdigit (c : ascii) : bool := (48 <=? char_val c) && (char_val c <=? 57).
Definition tolower (c : ascii) : ascii :=
  if isupper c then char_of (char_val c + 32) else c.

(** [Piece::to_char] *)
Definition to_char (p : Piece) : ascii :=
  match type p with
  | PieceType.NONE => "."%char
  | t =>
      let c := match t with
               | PieceType.PAWN => "P" | PieceType.KNIGHT => "N" | PieceType.BISHOP => "B"
               | PieceType.ROOK => "R" | PieceType.QUEEN => "Q" | PieceType.KING => "K"
               | PieceType.NONE => "."
               end%char in
      if bool_decide (color p = Color.BLACK) then tolower c else c
  end.

(** [Piece::from_char] *)
Definition from_char (c : ascii) : Piece :=
  let col := if isupper c then Color.WHITE else Color.BLACK in
  match tolower c with
  | "p"%char => mkPiece PieceType.PAWN col
  | "n"%char => mkPiece PieceType.KNIGHT col
  | "b"%char => mkPiece PieceType.BISHOP col
  | "r"%char => mkPiece PieceType.ROOK col
  | "q"%char => mkPiece PieceType.QUEEN col
  | "k"%char => mkPiece PieceType.KING col
  | _ => no_piece
  end.

(** ** Elementary facts *)

Definition on_board (r f : Z) : Prop := 0 <= r < 8 /\ 0 <= f < 8.
Definition valid_sq (sq : Z) : Prop := 0 <= sq < 64.

#[export] Instance on_board_dec r f : Decision (on_board r f).
Proof. unfold on_board. apply _. Defined.

Lemma make_square_on_board r f : on_board r f -> make_square r f = 8 * r + f.
Proof. unfold on_board, make_square. intros. rewrite Z.mod_small; lia. Qed.

Lemma make_square_valid r f : on_board r f -> valid_sq (make_square r f).
Proof. intros H. rewrite make_square_on_board by done. unfold on_board, valid_sq in *. lia. Qed.

Lemma rank_make_square r f : on_board r f -> rank_of (make_square r f) = r.
Proof.
  intros H. rewrite make_square_on_board by done. unfold on_board, rank_of in *.
  Z.to_euclidean_division_equations. lia.
Qed.

Lemma file_make_square r f : on_board r f -> file_of (make_square r f) = f.
Proof.
  intros H. rewrite make_square_on_board by done. unfold on_board, file_of in *.
  Z.to_euclidean_division_equations. lia.
Qed.

Lemma square_on_board sq : valid_sq sq -> on_board (rank_of sq) (file_of sq).
Proof.
  unfold valid_sq, on_board, rank_of, file_of. intros.
  Z.to_euclidean_division_equations. lia.
Qed.

Lemma square_coords sq : valid_sq sq -> make_square (rank_of sq) (file_of sq) = sq.
Proof.
  intros H. rewrite make_square_on_board by by apply square_on_board.
  unfold rank_of, file_of. Z.to_euclidean_division_equations. lia.
Qed.

Lemma square_eq_iff s1 s2 :
  valid_sq s1 -> valid_sq s2 ->
  s1 = s2 <-> rank_of s1 = rank_of s2 /\ file_of s1 = file_of s2.
Proof.
  intros. split; [intros ->; done|]. intros [Hr Hf].
  rewrite <- (square_coords s1), <- (square_coords s2) by done. congruence.
Qed.

Lemma opposite_color_involutive c :
  c <> Color.NONE -> opposite_color (opposite_color c) = c.
Proof. by destruct c. Qed.

Lemma opposite_color_ne c : opposite_color c <> c.
Proof. by destruct c. Qed.

Lemma char_val_char_of z : 0 <= z < 128 -> char_val (char_of z) = z.
Proof.
  intros H. unfold char_val, char_of.
  rewrite Z.mod_small, N_ascii_embedding, Z2N.id by lia. by rewrite (proj2 (Z.ltb_lt _ _)) by lia.
Qed.

(** Reading back the FEN letter of a piece gives the piece. *)
Lemma from_char_to_char p :
  type p <> PieceType.NONE -> color p <> Color.NONE -> from_char (to_char p) = p.
Proof. destruct p as [[] []]; intros; try done; by vm_compute. Qed.

#[export] Hint Resolve make_square_valid square_on_board : chess.
