(* ===== verification/BoardState.v ===== *)
(** * The board's data: class [Board] of src/src/chess/board.h

    The record holds the class's private fields; reading and overwriting a
    square of the 64-element mailbox [squares_] are [piece_at] and [set_sq]. *)
From S2P Require Import Prelude Types.

Record Board := mkBoard {
  squares_ : list Piece;
  side_to_move_ : Color.t;
  castling_rights_ : Z;
  en_passant_sq_ : Z;
  halfmove_clock_ : Z;
  fullmove_number_ : Z;
  zobrist_key_ : Z
}.

(** [squares_[sq]] for the mailbox itself. *)
Definition get_sq (l : list Piece) (sq : Z) : Piece := l !!! Z.to_nat sq.
(** [squares_[sq] = p] *)
Definition set_sq (l : list Piece) (sq : Z) (p : Piece) : list Piece := <[Z.to_nat sq := p]> l.

Definition piece_at (b : Board) (sq : Z) : Piece := get_sq (squares_ b) sq.

(** [p.type == t && p.color == c] *)
Definition is_piece (p : Piece) (t : PieceType.t) (c : Color.t) : bool :=
  bool_decide (type p = t) && bool_decide (color p = c).

(** The squares in index order, the range of every [for] loop over the board. *)
Definition all_squares : list Z := map Z.of_nat (seq 0 64).

(** [Board::find_king]: the first square holding the king, else [NO_SQUARE]. *)
Definition find_king (b : Board) (c : Color.t) : Z :=
  match find (fun sq => is_piece (piece_at b sq) PieceType.KING c) all_squares with
  | Some sq => sq
  | None => NO_SQUARE
  end.

(** ** Reading and writing squares *)

Lemma length_set_sq l sq p : length (set_sq l sq p) = length l.
Proof. apply length_insert. Qed.

Lemma get_set_sq l i j p :
  length l = 64%nat -> valid_sq i -> valid_sq j ->
  get_sq (set_sq l i p) j = if j =? i then p else get_sq l j.
Proof.
  intros Hl Hi Hj. unfold get_sq, set_sq, valid_sq in *. case_z.
  - subst. apply list_lookup_total_insert_eq. lia.
  - apply list_lookup_total_insert_ne. lia.
Qed.

Lemma squares_ext (l1 l2 : list Piece) :
  length l1 = 64%nat -> length l2 = 64%nat ->
  (forall sq, valid_sq sq -> get_sq l1 sq = get_sq l2 sq) -> l1 = l2.
Proof.
  intros H1 H2 He. apply list_eq_same_length with 64%nat; [done..|].
  intros i p q Hi Hp Hq. specialize (He (Z.of_nat i)). unfold get_sq, valid_sq in He.
  rewrite Nat2Z.id in He.
  rewrite (list_lookup_total_correct l1 i p Hp), (list_lookup_total_correct l2 i q Hq) in He.
  apply He. lia.
Qed.

Lemma elem_all_squares sq : In sq all_squares <-> valid_sq sq.
Proof.
  unfold all_squares, valid_sq. rewrite in_map_iff. split.
  - intros (n & <- & Hn%in_seq). lia.
  - intros H. exists (Z.to_nat sq). rewrite in_seq. lia.
Qed.

Lemma NoDup_all_squares : List.NoDup all_squares.
Proof.
  unfold all_squares. apply Finite.Injective_map_NoDup; [|apply List.seq_NoDup].
  intros x y. lia.
Qed.

Lemma is_piece_true p t c : is_piece p t c = true <-> p = mkPiece t c.
Proof.
  unfold is_piece. destruct p as [t' c']. cbn.
  rewrite andb_true_iff, !bool_decide_eq_true. naive_solver.
Qed.

Lemma is_none_false p : is_none p = false <-> type p <> PieceType.NONE.
Proof. unfold is_none. by rewrite bool_decide_eq_false. Qed.

Lemma is_none_true p : is_none p = true <-> type p = PieceType.NONE.
Proof. unfold is_none. by rewrite bool_decide_eq_true. Qed.

(** A unique king is the one [find_king] returns. *)
Lemma find_king_some b c sq :
  valid_sq sq -> piece_at b sq = mkPiece PieceType.KING c ->
  (forall s, valid_sq s -> piece_at b s = mkPiece PieceType.KING c -> s = sq) ->
  find_king b c = sq.
Proof.
  intros Hv Hk Hu. unfold find_king.
  destruct (find _ all_squares) as [s|] eqn:E.
  - apply find_some in E as [Hs%elem_all_squares Hp%is_piece_true]. by apply Hu.
  - exfalso. pose proof (find_none _ _ E sq) as Hn. cbn beta in Hn.
    rewrite (proj2 (is_piece_true _ _ _) Hk) in Hn. by discriminate Hn; apply elem_all_squares.
Qed.

#[export] Hint Rewrite length_set_sq : boards.
