(* ===== verification/Zobrist.v ===== *)
(** * Zobrist hashing: src/src/chess/zobrist.cpp

    [init_keys] threads the SplitMix64 state through the key table in the
    source's loop order; [compute_hash] is the from-scratch hash of a board. *)
From S2P Require Import Prelude Types BoardState.

(** ** Key generation *)

Definition wrap64 (z : Z) : Z := z mod 2 ^ 64.

Lemma wrap64_id n : 0 <= n < 2 ^ 64 -> wrap64 n = n.
Proof. intros. unfold wrap64. by apply Z.mod_small. Qed.

Lemma wrap64_add n m : wrap64 (wrap64 n + m) = wrap64 (n + m).
Proof. unfold wrap64. apply Zplus_mod_idemp_l. Qed.

Lemma wrap64_add_r n m : wrap64 (n + wrap64 m) = wrap64 (n + m).
Proof. unfold wrap64. apply Zplus_mod_idemp_r. Qed.

(** [PRNG64::next]: the value drawn and the next state. *)
Definition prng_next (state : Z) : Z * Z :=
  let state := wrap64 (state + 0x9e3779b97f4a7c15) in
  let z := state in
  let z := wrap64 ((z ^^ Z.shiftr z 30) * 0xbf58476d1ce4e5b9) in
  let z := wrap64 ((z ^^ Z.shiftr z 27) * 0x94d049bb133111eb) in
  (z ^^ Z.shiftr z 31, state).

(** A counted loop drawing one entry per iteration. *)
Fixpoint gen_table {A} (n : nat) (g : Z -> A * Z) (state : Z) : list A * Z :=
  match n with
  | O => ([], state)
  | S n =>
      let (x, state) := g state in
      let (xs, state) := gen_table n g state in
      (x :: xs, state)
  end.

Record ZobristKeys := mkKeys {
  key_pieces : list (list (list Z));
  key_side_to_move : Z;
  key_castling : list Z;
  key_en_passant : list Z
}.

Definition init_keys : ZobristKeys :=
  let (pieces, s) := gen_table 2 (gen_table 6 (gen_table 64 prng_next)) 0x8A5CD7896342125 in
  let (side, s) := prng_next s in
  let (castling, s) := gen_table 16 prng_next s in
  let (ep, s) := gen_table 8 prng_next s in
  mkKeys pieces side castling ep.

(** The singleton table, evaluated once. *)
Definition get_keys : ZobristKeys := Eval vm_compute in init_keys.

(** [k.pieces[c][t][sq]], [k.castling[cr]] and [k.en_passant[f]]. *)
Definition piece_key (c : Color.t) (t : PieceType.t) (sq : Z) : Z :=
  nth (Z.to_nat sq) (nth (PieceType.index t) (nth (Color.index c) (key_pieces get_keys) []) []) 0.
Definition castling_key (cr : Z) : Z := nth (Z.to_nat cr) (key_castling get_keys) 0.
Definition en_passant_key (f : Z) : Z := nth (Z.to_nat f) (key_en_passant get_keys) 0.
Definition side_key : Z := key_side_to_move get_keys.

(** ** The hash of a board *)

(** What one square contributes, under the guards of the source's loop. *)
Definition square_hash (p : Piece) (sq : Z) : Z :=
  if negb (is_none p) && bool_decide (color p <> Color.NONE) && bool_decide (type p <> PieceType.NONE)
  then if (Color.index (color p) <? 2)%nat && (PieceType.index (type p) <? 6)%nat
       then piece_key (color p) (type p) sq else 0
  else 0.

Definition hash_squares (l : list Piece) : Z :=
  fold_left (fun h sq => h ^^ square_hash (get_sq l sq) sq) all_squares 0.

Definition ep_hash (ep : Z) : Z :=
  if negb (ep =? NO_SQUARE) && is_valid_square ep
  then let f := file_of ep in if (0 <=? f) && (f <? 8) then en_passant_key f else 0
  else 0.

Definition side_hash (c : Color.t) : Z :=
  if bool_decide (c = Color.BLACK) then side_key else 0.

Definition compute_hash (b : Board) : Z :=
  hash_squares (squares_ b) ^^ side_hash (side_to_move_ b)
    ^^ castling_key (Z.land (castling_rights_ b) CastlingRights.ALL)
    ^^ ep_hash (en_passant_sq_ b).

(** [Board::recompute_zobrist_key] *)
Definition recompute_zobrist_key (b : Board) : Board :=
  {| squares_ := squares_ b; side_to_move_ := side_to_move_ b;
     castling_rights_ := castling_rights_ b; en_passant_sq_ := en_passant_sq_ b;
     halfmove_clock_ := halfmove_clock_ b; fullmove_number_ := fullmove_number_ b;
     zobrist_key_ := compute_hash b |}.

(** ** Facts *)

(** A hash is maintained incrementally when the key it stores is the hash of the
    fields it stores. *)
Definition hash_ok (b : Board) : Prop := zobrist_key_ b = compute_hash b.

(** A square's state is a real piece or the empty square. *)
Definition piece_ok (p : Piece) : Prop :=
  (type p = PieceType.NONE <-> color p = Color.NONE).

Lemma square_hash_none sq : square_hash no_piece sq = 0.
Proof. done. Qed.

Lemma square_hash_piece t c sq :
  t <> PieceType.NONE -> c <> Color.NONE -> square_hash (mkPiece t c) sq = piece_key c t sq.
Proof. by destruct t, c. Qed.

Lemma fold_xor_acc {A} (g : A -> Z) l h :
  fold_left (fun h x => h ^^ g x) l h = h ^^ fold_left (fun h x => h ^^ g x) l 0.
Proof.
  revert h. induction l as [|x l IH]; intros h; cbn [fold_left]; [by rewrite Z.lxor_0_r|].
  rewrite IH, (IH (0 ^^ g x)). by rewrite Z.lxor_0_l, Z.lxor_assoc.
Qed.

Lemma fold_xor_ext {A} (g g' : A -> Z) l h :
  (forall x, In x l -> g x = g' x) ->
  fold_left (fun h x => h ^^ g x) l h = fold_left (fun h x => h ^^ g' x) l h.
Proof.
  revert h. induction l as [|x l IH]; intros h He; [done|]. cbn [fold_left].
  rewrite (He x) by by left. apply IH. intros y Hy. apply He. by right.
Qed.

(** Changing one term of an exclusive-or sum. *)
Lemma fold_xor_update {A} (g g' : A -> Z) l x :
  List.NoDup l -> In x l -> (forall y, In y l -> y <> x -> g' y = g y) ->
  fold_left (fun h x => h ^^ g' x) l 0 = fold_left (fun h x => h ^^ g x) l 0 ^^ g x ^^ g' x.
Proof.
  intros Hnd. induction Hnd as [|y l Hy Hnd IH]; [done|]. intros Hin He. cbn [fold_left].
  rewrite (fold_xor_acc g' l (0 ^^ g' y)), (fold_xor_acc g l (0 ^^ g y)), !Z.lxor_0_l.
  destruct Hin as [->|Hin].
  - rewrite (fold_xor_ext g' g l).
    + set (X := fold_left _ _ _). xor_solve.
    + intros z Hz. apply He; [by right|]. by intros ->.
  - assert (y <> x) by by intros ->.
    assert (forall z, In z l -> z <> x -> g' z = g z) as He' by (intros z Hz; apply He; by right).
    rewrite (He y), (IH Hin He') by first [done | by left].
    set (X := fold_left _ _ _). xor_solve.
Qed.

(** Overwriting a square changes the hash by that square's two contributions. *)
Lemma hash_set_sq l sq p :
  length l = 64%nat -> valid_sq sq ->
  hash_squares (set_sq l sq p) = hash_squares l ^^ square_hash (get_sq l sq) sq ^^ square_hash p sq.
Proof.
  intros Hl Hv. unfold hash_squares.
  rewrite (fold_xor_update (fun s => square_hash (get_sq l s) s)
             (fun s => square_hash (get_sq (set_sq l sq p) s) s) all_squares sq).
  - rewrite (get_set_sq l sq sq) by done. by rewrite Z.eqb_refl.
  - apply NoDup_all_squares.
  - by apply elem_all_squares.
  - intros y Hy%elem_all_squares Hne. rewrite get_set_sq by done.
    by rewrite (proj2 (Z.eqb_neq _ _)) by done.
Qed.

(** Every key of the table fits in 64 bits, is non-zero and occurs once. *)
Definition all_keys : list Z :=
  concat (concat (key_pieces get_keys)) ++ [side_key] ++ key_castling get_keys ++ key_en_passant get_keys.

#[global] Opaque get_keys.
