(* ===== verification/Board.v ===== *)
(** * Board mutation: src/src/chess/board.cpp (and the inline mutators of board.h)

    [make_move] and [undo_move] follow the source statement by statement: each
    [let] is one assignment to the mailbox or to the running Zobrist key.  [int]
    clocks are unbounded integers here (signed overflow is undefined in C++). *)
From S2P Require Import Prelude Types BoardState Zobrist.

(** ** Construction and the inline mutators *)

(** [Board::clear], which is also what the constructor runs. *)
Definition clear_board : Board :=
  recompute_zobrist_key
    (mkBoard (replicate 64 no_piece) Color.WHITE CastlingRights.NONE NO_SQUARE 0 1 0).

Definition with_squares (b : Board) (l : list Piece) : Board :=
  mkBoard l (side_to_move_ b) (castling_rights_ b) (en_passant_sq_ b)
          (halfmove_clock_ b) (fullmove_number_ b) (zobrist_key_ b).

Definition set_piece (b : Board) (sq : Z) (p : Piece) : Board :=
  recompute_zobrist_key (with_squares b (set_sq (squares_ b) sq p)).

Definition clear_square (b : Board) (sq : Z) : Board :=
  recompute_zobrist_key (with_squares b (set_sq (squares_ b) sq no_piece)).

Definition set_side_to_move (b : Board) (c : Color.t) : Board :=
  recompute_zobrist_key
    (mkBoard (squares_ b) c (castling_rights_ b) (en_passant_sq_ b)
             (halfmove_clock_ b) (fullmove_number_ b) (zobrist_key_ b)).

Definition set_castling_rights (b : Board) (cr : Z) : Board :=
  recompute_zobrist_key
    (mkBoard (squares_ b) (side_to_move_ b) cr (en_passant_sq_ b)
             (halfmove_clock_ b) (fullmove_number_ b) (zobrist_key_ b)).

Definition set_en_passant_square (b : Board) (sq : Z) : Board :=
  recompute_zobrist_key
    (mkBoard (squares_ b) (side_to_move_ b) (castling_rights_ b) sq
             (halfmove_clock_ b) (fullmove_number_ b) (zobrist_key_ b)).

(** ** Castling rights *)

(** [r &= ~m] *)
Definition clear_bits (r m : Z) : Z := Z.land r (Z.lnot m).

Definition update_castling_rights (r from to : Z) : Z :=
  let r := if from =? Squares.E1
           then clear_bits r (Z.lor CastlingRights.WHITE_KINGSIDE CastlingRights.WHITE_QUEENSIDE)
           else r in
  let r := if from =? Squares.E8
           then clear_bits r (Z.lor CastlingRights.BLACK_KINGSIDE CastlingRights.BLACK_QUEENSIDE)
           else r in
  let r := if (from =? Squares.H1) || (to =? Squares.H1)
           then clear_bits r CastlingRights.WHITE_KINGSIDE else r in
  let r := if (from =? Squares.A1) || (to =? Squares.A1)
           then clear_bits r CastlingRights.WHITE_QUEENSIDE else r in
  let r := if (from =? Squares.H8) || (to =? Squares.H8)
           then clear_bits r CastlingRights.BLACK_KINGSIDE else r in
  if (from =? Squares.A8) || (to =? Squares.A8)
  then clear_bits r CastlingRights.BLACK_QUEENSIDE else r.

(** ** Making a move *)

Record UndoInfo := mkUndo {
  captured : Piece;
  undo_castling_rights : Z;
  undo_en_passant_sq : Z;
  undo_halfmove_clock : Z;
  undo_zobrist_key : Z
}.

(** The rank step from the en-passant target back to the pawn, seen from the mover. *)
Definition behind (c : Color.t) : Z := if bool_decide (c = Color.WHITE) then -1 else 1.

(** Step 1 of [make_move]: the rook's part of a castling move. *)
Definition move_castling_rook (m : Move) (c : Color.t) (l : list Piece) (key : Z)
    : list Piece * Z :=
  let rook_hop (rook_from rook_to : Z) :=
    let l := set_sq l rook_to (get_sq l rook_from) in
    let l := set_sq l rook_from no_piece in
    (l, key ^^ (piece_key c PieceType.ROOK rook_from ^^ piece_key c PieceType.ROOK rook_to)) in
  let rank := rank_of (from m) in
  if is_kingside_castle m then rook_hop (make_square rank 7) (make_square rank 5)
  else if is_queenside_castle m then rook_hop (make_square rank 0) (make_square rank 3)
  else (l, key).

(** Step 2 of [make_move]: removing the captured piece.  [cap] is the piece that
    stood on the destination; the result also holds the piece really captured. *)
Definition remove_captured (m : Move) (c : Color.t) (cap : Piece) (l : list Piece) (key : Z)
    : Piece * list Piece * Z :=
  if is_en_passant m then
    let captured_sq := make_square (rank_of (to m) + behind c) (file_of (to m)) in
    let cap := get_sq l captured_sq in
    let l := set_sq l captured_sq no_piece in
    (cap, l, key ^^ piece_key (color cap) (type cap) captured_sq)
  else if negb (is_none cap) then
    (cap, l, key ^^ piece_key (color cap) (type cap) (to m))
  else (cap, l, key).

Definition make_move (b : Board) (m : Move) : Board * UndoInfo :=
  let l := squares_ b in
  let cap := get_sq l (to m) in
  let moving := get_sq l (from m) in
  let c := color moving in
  let t := type moving in
  let key := zobrist_key_ b ^^ piece_key c t (from m) in
  let '(l, key) := move_castling_rook m c l key in
  let '(cap, l, key) := remove_captured m c cap l key in
  let l := set_sq l (to m) moving in
  let l := set_sq l (from m) no_piece in
  let '(l, key) :=
    if is_promotion m
    then (set_sq l (to m) (mkPiece (promo_type m) c), key ^^ piece_key c (promo_type m) (to m))
    else (l, key ^^ piece_key c t (to m)) in
  let key := if negb (en_passant_sq_ b =? NO_SQUARE)
             then key ^^ en_passant_key (file_of (en_passant_sq_ b)) else key in
  let '(ep, key) :=
    if is_double_pawn_push m
    then let ep := make_square (rank_of (to m) + behind c) (file_of (to m)) in
         (ep, key ^^ en_passant_key (file_of ep))
    else (NO_SQUARE, key) in
  let rights := update_castling_rights (castling_rights_ b) (from m) (to m) in
  let key := key ^^ (castling_key (Z.land (castling_rights_ b) CastlingRights.ALL)
                     ^^ castling_key (Z.land rights CastlingRights.ALL)) in
  let halfmove := if bool_decide (t = PieceType.PAWN) || negb (is_none cap)
                  then 0 else halfmove_clock_ b + 1 in
  let fullmove := if bool_decide (side_to_move_ b = Color.BLACK)
                  then fullmove_number_ b + 1 else fullmove_number_ b in
  let side := opposite_color (side_to_move_ b) in
  let key := key ^^ side_key in
  (mkBoard l side rights ep halfmove fullmove key,
   mkUndo cap (castling_rights_ b) (en_passant_sq_ b) (halfmove_clock_ b) (zobrist_key_ b)).

(** The board after a move. *)
Definition after_move (b : Board) (m : Move) : Board := fst (make_move b m).

(** ** Undoing a move *)

(** Step 7 of [undo_move]: the rook of a castling move goes home. *)
Definition undo_castling_rook (m : Move) (l : list Piece) : list Piece :=
  let rook_hop (rook_from rook_to : Z) :=
    let l := set_sq l rook_to (get_sq l rook_from) in
    set_sq l rook_from no_piece in
  let rank := rank_of (from m) in
  if is_kingside_castle m then rook_hop (make_square rank 5) (make_square rank 7)
  else if is_queenside_castle m then rook_hop (make_square rank 3) (make_square rank 0)
  else l.

Definition undo_move (b : Board) (m : Move) (undo : UndoInfo) : Board :=
  let side := opposite_color (side_to_move_ b) in
  let fullmove := if bool_decide (side = Color.BLACK)
                  then fullmove_number_ b - 1 else fullmove_number_ b in
  let l := squares_ b in
  let moving := get_sq l (to m) in
  let moving := if is_promotion m then mkPiece PieceType.PAWN side else moving in
  let l := set_sq l (from m) moving in
  let l := set_sq l (to m) no_piece in
  let l := if is_en_passant m
           then let captured_sq := make_square (rank_of (to m) + behind side) (file_of (to m)) in
                set_sq l captured_sq (captured undo)
           else set_sq l (to m) (captured undo) in
  let l := undo_castling_rook m l in
  mkBoard l side (undo_castling_rights undo) (undo_en_passant_sq undo)
          (undo_halfmove_clock undo) fullmove (undo_zobrist_key undo).

(** ** Algebraic square names *)

Definition square_to_algebraic (sq : Z) : str :=
  if NUM_SQUARES <=? sq then lit "??"
  else [char_of (97 + file_of sq); char_of (49 + rank_of sq)].

Definition algebraic_to_square (alg : str) : Z :=
  match alg with
  | [c0; c1] =>
      let file := char_val c0 - 97 in
      let rank := char_val c1 - 49 in
      if (file <? 0) || (7 <? file) || (rank <? 0) || (7 <? rank) then NO_SQUARE
      else make_square rank file
  | _ => NO_SQUARE
  end.

(** [Board::to_string], the ASCII rendering. *)
Definition display_rank (b : Board) (rank : Z) : str :=
  [char_of (49 + rank); " "%char; "|"%char] ++
  flat_map (fun file => [" "%char; to_char (piece_at b (make_square rank file)); " "%char])
           (map Z.of_nat (seq 0 8)) ++ [char_of 10].
Definition board_to_string (b : Board) : str :=
  flat_map (display_rank b) [7; 6; 5; 4; 3; 2; 1; 0] ++
  lit "  +------------------------" ++ [char_of 10] ++
  lit "    a  b  c  d  e  f  g  h" ++ [char_of 10].
