(* ===== verification/MoveGen.v ===== *)
(** * Move generation: src/src/chess/move_gen.cpp

    Attack detection, pseudo-legal and legal generation, game status and perft,
    in the order in which the source emits moves.  A function that appends to a
    [std::vector<Move>&] returns the moves it appends.  The two [while] loops
    along a ray carry fuel 8; [Rules] shows that no ray is longer. *)
From S2P Require Import Prelude Types BoardState Zobrist Board.

(** [nr >= 0 && nr < 8 && nf >= 0 && nf < 8] *)
Definition in_bounds (r f : Z) : bool := (0 <=? r) && (r <? 8) && ((0 <=? f) && (f <? 8)).

(** ** Precomputed targets ([AttackTables]) *)

Definition knight_offsets : list (Z * Z) :=
  [(-2, -1); (-2, 1); (-1, -2); (-1, 2); (1, -2); (1, 2); (2, -1); (2, 1)].

(** The double loop over [dr] and [df] without [(0, 0)]. *)
Definition king_offsets : list (Z * Z) :=
  List.filter (fun d => negb ((fst d =? 0) && (snd d =? 0)))
         (list_prod [-1; 0; 1] [-1; 0; 1]).

Definition targets (offsets : list (Z * Z)) (sq : Z) : list Z :=
  flat_map (fun d => let nr := rank_of sq + fst d in
                     let nf := file_of sq + snd d in
                     if in_bounds nr nf then [make_square nr nf] else []) offsets.

Definition knight_targets : Z -> list Z := targets knight_offsets.
Definition king_targets : Z -> list Z := targets king_offsets.

(** The eight ray directions: four orthogonal, then four diagonal. *)
Definition ray_dirs : list (Z * Z) :=
  [(-1, 0); (1, 0); (0, -1); (0, 1); (-1, -1); (-1, 1); (1, -1); (1, 1)].

(** ** Attack detection *)

Definition pawn_attacks_square (b : Board) (sq : Z) (attacker : Color.t) : bool :=
  let f := file_of sq in
  let pawn_r := rank_of sq + (if bool_decide (attacker = Color.WHITE) then -1 else 1) in
  (0 <=? pawn_r) && (pawn_r <? 8) &&
  ((0 <? f) && is_piece (piece_at b (make_square pawn_r (f - 1))) PieceType.PAWN attacker
   || (f <? 7) && is_piece (piece_at b (make_square pawn_r (f + 1))) PieceType.PAWN attacker).

(** One ray of the slider loop: stops at the first piece met. *)
Fixpoint ray_attacks (fuel : nat) (b : Board) (attacker : Color.t) (is_diagonal : bool)
    (nr nf dr df : Z) : bool :=
  match fuel with
  | O => false
  | S fuel =>
      if in_bounds nr nf then
        let p := piece_at b (make_square nr nf) in
        if negb (is_none p) then
          bool_decide (color p = attacker) &&
          (bool_decide (type p = PieceType.QUEEN)
           || is_diagonal && bool_decide (type p = PieceType.BISHOP)
           || negb is_diagonal && bool_decide (type p = PieceType.ROOK))
        else ray_attacks fuel b attacker is_diagonal (nr + dr) (nf + df) dr df
      else false
  end.

Definition ray_fuel : nat := 8.

(** Directions with index at least 4 are the diagonals. *)
Definition slider_attacks_square (b : Board) (sq : Z) (attacker : Color.t) : bool :=
  existsb (fun '(i, (dr, df)) =>
             ray_attacks ray_fuel b attacker (4 <=? i)%nat (rank_of sq + dr) (file_of sq + df) dr df)
          (combine (seq 0 8) ray_dirs).

Definition is_square_attacked (b : Board) (sq : Z) (attacker : Color.t) : bool :=
  pawn_attacks_square b sq attacker
  || existsb (fun t => is_piece (piece_at b t) PieceType.KNIGHT attacker) (knight_targets sq)
  || existsb (fun t => is_piece (piece_at b t) PieceType.KING attacker) (king_targets sq)
  || slider_attacks_square b sq attacker.

Definition is_in_check (b : Board) (king_color : Color.t) : bool :=
  let king_sq := find_king b king_color in
  if king_sq =? NO_SQUARE then false
  else is_square_attacked b king_sq (opposite_color king_color).

(** ** Pseudo-legal generation *)

Definition pawn_dir (c : Color.t) : Z := if bool_decide (c = Color.WHITE) then 1 else -1.
Definition start_rank (c : Color.t) : Z := if bool_decide (c = Color.WHITE) then 1 else 6.
Definition promo_rank (c : Color.t) : Z := if bool_decide (c = Color.WHITE) then 7 else 0.

(** The lambda [add_pawn_move]. *)
Definition add_pawn_move (sq : Z) (c : Color.t) (to fl : Z) : list Move :=
  if rank_of to =? promo_rank c then
    map (mkMove sq to (Z.lor fl MoveFlags.PROMOTION))
        [PieceType.QUEEN; PieceType.ROOK; PieceType.BISHOP; PieceType.KNIGHT]
  else [flag_move sq to fl].

Definition pawn_pushes (b : Board) (sq : Z) (c : Color.t) : list Move :=
  let r := rank_of sq in let f := file_of sq in
  let forward_r := r + pawn_dir c in
  if (0 <=? forward_r) && (forward_r <? 8) then
    let forward_sq := make_square forward_r f in
    if is_none (piece_at b forward_sq) then
      add_pawn_move sq c forward_sq MoveFlags.NONE ++
      (if r =? start_rank c then
         let double_sq := make_square (r + 2 * pawn_dir c) f in
         if is_none (piece_at b double_sq)
         then [flag_move sq double_sq MoveFlags.DOUBLE_PAWN_PUSH] else []
       else [])
    else []
  else [].

Definition pawn_captures (b : Board) (sq : Z) (c : Color.t) (df : Z) : list Move :=
  let forward_r := rank_of sq + pawn_dir c in
  let cap_f := file_of sq + df in
  if (0 <=? cap_f) && (cap_f <? 8) && (0 <=? forward_r) && (forward_r <? 8) then
    let cap_sq := make_square forward_r cap_f in
    let target := piece_at b cap_sq in
    if negb (is_none target) && negb (bool_decide (color target = c))
    then add_pawn_move sq c cap_sq MoveFlags.NONE
    else if cap_sq =? en_passant_sq_ b
    then add_pawn_move sq c cap_sq MoveFlags.EN_PASSANT
    else []
  else [].

Definition generate_pawn_moves (b : Board) (sq : Z) (c : Color.t) : list Move :=
  pawn_pushes b sq c ++ flat_map (pawn_captures b sq c) [-1; 1].

(** The loop shared by the knight and the king: skip own pieces. *)
Definition step_moves (b : Board) (sq : Z) (c : Color.t) (tgts : list Z) : list Move :=
  flat_map (fun to_sq => let target := piece_at b to_sq in
                         if is_none target || negb (bool_decide (color target = c))
                         then [quiet_move sq to_sq] else []) tgts.

Definition generate_knight_moves (b : Board) (sq : Z) (c : Color.t) : list Move :=
  step_moves b sq c (knight_targets sq).

(** One ray of [generate_ray_moves]. *)
Fixpoint ray_moves (fuel : nat) (b : Board) (sq : Z) (c : Color.t) (nr nf dr df : Z) : list Move :=
  match fuel with
  | O => []
  | S fuel =>
      if in_bounds nr nf then
        let to_sq := make_square nr nf in
        let target := piece_at b to_sq in
        if is_none target
        then quiet_move sq to_sq :: ray_moves fuel b sq c (nr + dr) (nf + df) dr df
        else if negb (bool_decide (color target = c)) then [quiet_move sq to_sq] else []
      else []
  end.

Definition generate_ray_moves (b : Board) (sq : Z) (c : Color.t) (orthogonal diagonal : bool)
    : list Move :=
  let start_idx := if orthogonal then 0%nat else 4%nat in
  let end_idx := if diagonal then 8%nat else 4%nat in
  flat_map (fun '(dr, df) => ray_moves ray_fuel b sq c (rank_of sq + dr) (file_of sq + df) dr df)
           (firstn (end_idx - start_idx) (skipn start_idx ray_dirs)).

(** One castling clause: the right, the empty squares, the safe squares. *)
Definition castling_clause (b : Board) (opp : Color.t) (right : Z) (empty safe : list Z) (m : Move)
    : list Move :=
  if has_flag (castling_rights_ b) right && forallb (fun s => is_none (piece_at b s)) empty then
    if forallb (fun s => negb (is_square_attacked b s opp)) safe then [m] else []
  else [].

Definition castling_moves (b : Board) (c : Color.t) : list Move :=
  let opp := opposite_color c in
  if bool_decide (c = Color.WHITE) then
    castling_clause b opp CastlingRights.WHITE_KINGSIDE
      [Squares.F1; Squares.G1] [Squares.E1; Squares.F1]
      (flag_move Squares.E1 Squares.G1 MoveFlags.KINGSIDE_CASTLE) ++
    castling_clause b opp CastlingRights.WHITE_QUEENSIDE
      [Squares.D1; Squares.C1; Squares.B1] [Squares.E1; Squares.D1]
      (flag_move Squares.E1 Squares.C1 MoveFlags.QUEENSIDE_CASTLE)
  else
    castling_clause b opp CastlingRights.BLACK_KINGSIDE
      [Squares.F8; Squares.G8] [Squares.E8; Squares.F8]
      (flag_move Squares.E8 Squares.G8 MoveFlags.KINGSIDE_CASTLE) ++
    castling_clause b opp CastlingRights.BLACK_QUEENSIDE
      [Squares.D8; Squares.C8; Squares.B8] [Squares.E8; Squares.D8]
      (flag_move Squares.E8 Squares.C8 MoveFlags.QUEENSIDE_CASTLE).

Definition generate_king_moves (b : Board) (sq : Z) (c : Color.t) : list Move :=
  step_moves b sq c (king_targets sq) ++ castling_moves b c.

(** The [switch] on the piece type. *)
Definition generate_piece_moves (b : Board) (c : Color.t) (sq : Z) : list Move :=
  let p := piece_at b sq in
  if is_none p || negb (bool_decide (color p = c)) then [] else
  match type p with
  | PieceType.PAWN => generate_pawn_moves b sq c
  | PieceType.KNIGHT => generate_knight_moves b sq c
  | PieceType.BISHOP => generate_ray_moves b sq c false true
  | PieceType.ROOK => generate_ray_moves b sq c true false
  | PieceType.QUEEN => generate_ray_moves b sq c true true
  | PieceType.KING => generate_king_moves b sq c
  | PieceType.NONE => []
  end.

Definition generate_pseudo_legal_moves (b : Board) : list Move :=
  flat_map (generate_piece_moves b (side_to_move_ b)) all_squares.

(** ** Legal generation: make, test, undo on one mutable copy *)

Definition legal_loop_body (c : Color.t) (st : Board * list Move) (m : Move) : Board * list Move :=
  let '(mutable_board, legal) := st in
  let '(mutable_board, undo) := make_move mutable_board m in
  let legal := if negb (is_in_check mutable_board c) then legal ++ [m] else legal in
  (undo_move mutable_board m undo, legal).

Definition generate_legal_moves (b : Board) : list Move :=
  snd (fold_left (legal_loop_body (side_to_move_ b)) (generate_pseudo_legal_moves b) (b, [])).

Definition get_game_status (b : Board) : GameStatus.t :=
  if 100 <=? halfmove_clock_ b then GameStatus.DRAW_FIFTY_MOVE else
  match generate_legal_moves b with
  | [] => if is_in_check b (side_to_move_ b) then GameStatus.CHECKMATE else GameStatus.STALEMATE
  | _ => GameStatus.ONGOING
  end.

(** ** Perft: the node count (a [uint64_t]) and the board it leaves behind *)

Fixpoint perft (b : Board) (depth : nat) : Z * Board :=
  match depth with
  | O => (1, b)
  | 1%nat => (Z.of_nat (length (generate_legal_moves b)), b)
  | S depth =>
      fold_left (fun '(nodes, b) m =>
                   let '(b, undo) := make_move b m in
                   let '(n, b) := perft b depth in
                   (wrap64 (nodes + n), undo_move b m undo))
                (generate_legal_moves b) (0, b)
  end.

(** [divide]: the printed lines (move, nodes) and the total. *)
Definition divide (b : Board) (depth : nat) : list (Move * Z) * Z * Board :=
  match depth with
  | O => ([], 0, b)
  | S depth =>
      fold_left (fun '(lines, total, b) m =>
                   let '(b, undo) := make_move b m in
                   let '(n, b) := perft b depth in
                   (lines ++ [(m, n)], wrap64 (total + n), undo_move b m undo))
                (generate_legal_moves b) ([], 0, b)
  end.
