(* ===== verification/Fen.v ===== *)
(** * FEN import and export: [Board::set_from_fen], [Board::to_fen] (board.cpp)

    The [istringstream] extractions are modelled on the character list that is
    left to read.  A parse ends in [FenOk], in [FenFail] with the partially
    filled board the source leaves behind, or in [FenUB] when the source would
    write [squares_] out of bounds. *)
From S2P Require Import Prelude Types BoardState Zobrist Board.

(** ** Stream extraction *)

Definition isspace (c : ascii) : bool :=
  (char_val c =? 32) || ((9 <=? char_val c) && (char_val c <=? 13)).

Fixpoint skip_ws (s : str) : str :=
  match s with
  | c :: s' => if isspace c then skip_ws s' else s
  | [] => []
  end.

(** The longest prefix without white space, and the rest. *)
Fixpoint take_word (s : str) : str * str :=
  match s with
  | c :: s' => if isspace c then ([], s) else let (w, r) := take_word s' in (c :: w, r)
  | [] => ([], [])
  end.

(** [stream >> std::string]; [None] sets the fail bit. *)
Definition read_word (s : str) : option (str * str) :=
  match take_word (skip_ws s) with
  | ([], _) => None
  | wr => Some wr
  end.

(** Digits accumulated by [stream >> int]: value, whether any was seen, rest. *)
Fixpoint take_digits (acc : Z) (seen : bool) (s : str) : Z * bool * str :=
  match s with
  | c :: s' => if isdigit c then take_digits (acc * 10 + (char_val c - 48)) true s'
               else (acc, seen, s)
  | [] => (acc, seen, [])
  end.

Definition INT_MAX : Z := 2 ^ 31 - 1.

(** [stream >> int]: optional sign, decimal digits; out of range fails. *)
Definition read_int (s : str) : option (Z * str) :=
  let s := skip_ws s in
  let '(neg, s) := match s with
                   | "-"%char :: s' => (true, s')
                   | "+"%char :: s' => (false, s')
                   | _ => (false, s)
                   end in
  let '(n, seen, rest) := take_digits 0 false s in
  let v := if neg : bool then - n else n in
  if (seen : bool) && (- 2 ^ 31 <=? v) && (v <=? INT_MAX) then Some (v, rest) else None.

(** ** Piece placement *)

Inductive placement :=
| PlaceOk (l : list Piece) (rank file : Z)
| PlaceFail (l : list Piece)
| PlaceUB.

Fixpoint place (s : str) (rank file : Z) (l : list Piece) : placement :=
  match s with
  | [] => PlaceOk l rank file
  | c :: s' =>
      if bool_decide (c = "/"%char) then
        if negb (file =? 8) then PlaceFail l else place s' (rank - 1) 0 l
      else if isdigit c then
        let empty_count := char_val c - 48 in
        if (empty_count <? 1) || (8 <? empty_count) then PlaceFail l else
        if 8 <? file + empty_count then PlaceFail l
        else place s' rank (file + empty_count) l
      else
        let piece := from_char c in
        if is_none piece then PlaceFail l else
        if 8 <=? file then PlaceFail l else
        let sq := make_square rank file in
        if sq <? NUM_SQUARES then place s' rank (file + 1) (set_sq l sq piece)
        else PlaceUB
  end.

(** Field 3, character by character; [None] on an unknown letter.  The rights
    gathered before the failure stay in the board. *)
Fixpoint parse_castling (s : str) (cr : Z) : Z * bool :=
  match s with
  | [] => (cr, true)
  | c :: s' =>
      match c with
      | "K"%char => parse_castling s' (Z.lor cr CastlingRights.WHITE_KINGSIDE)
      | "Q"%char => parse_castling s' (Z.lor cr CastlingRights.WHITE_QUEENSIDE)
      | "k"%char => parse_castling s' (Z.lor cr CastlingRights.BLACK_KINGSIDE)
      | "q"%char => parse_castling s' (Z.lor cr CastlingRights.BLACK_QUEENSIDE)
      | _ => (cr, false)
      end
  end.

(** ** [set_from_fen] *)

Inductive fen_result :=
| FenOk (b : Board)
| FenFail (b : Board)
| FenUB.

(** The extraction of the six fields. *)
Definition read_fields (fen : str) : option (str * str * str * str * Z * Z) :=
  match read_word fen with None => None | Some (placement, s) =>
  match read_word s with None => None | Some (side, s) =>
  match read_word s with None => None | Some (castling, s) =>
  match read_word s with None => None | Some (ep, s) =>
  match read_int s with None => None | Some (half, s) =>
  match read_int s with None => None | Some (full, _) =>
    Some (placement, side, castling, ep, half, full)
  end end end end end end.

Definition parse_side (side : str) : option Color.t :=
  if bool_decide (side = lit "w") then Some Color.WHITE
  else if bool_decide (side = lit "b") then Some Color.BLACK else None.

(** Fields 2 to 6, once the pieces are placed. *)
Definition parse_state (l : list Piece) (side castling ep : str) (half full : Z) : fen_result :=
  let b0 := with_squares clear_board l in
  match parse_side side with
  | None => FenFail b0
  | Some c =>
      let mk cr sq hm fm := mkBoard l c cr sq hm fm (zobrist_key_ clear_board) in
      let '(cr, ok) := if bool_decide (castling = lit "-") then (CastlingRights.NONE, true)
                       else parse_castling castling CastlingRights.NONE in
      if negb ok then FenFail (mk cr NO_SQUARE 0 1) else
      let sq := if bool_decide (ep = lit "-") then NO_SQUARE else algebraic_to_square ep in
      if negb (bool_decide (ep = lit "-")) && (sq =? NO_SQUARE) then FenFail (mk cr sq 0 1) else
      if (half <? 0) || (full <? 1) then FenFail (mk cr sq 0 1) else
      FenOk (recompute_zobrist_key (mk cr sq half full))
  end.

Definition set_from_fen (fen : str) : fen_result :=
  match read_fields fen with
  | None => FenFail clear_board
  | Some (pieces, side, castling, ep, half, full) =>
      match place pieces 7 0 (squares_ clear_board) with
      | PlaceUB => FenUB
      | PlaceFail l => FenFail (with_squares clear_board l)
      | PlaceOk l rank file =>
          if negb (rank =? 0) || negb (file =? 8)
          then FenFail (with_squares clear_board l)
          else parse_state l side castling ep half full
      end
  end.

Definition STARTING_FEN : str := lit "rnbqkbnr/pppppppp/8/8/8/8/PPPPPPPP/RNBQKBNR w KQkq - 0 1".

(** [Board::starting_position], which ignores the parse result. *)
Definition starting_position : Board :=
  match set_from_fen STARTING_FEN with
  | FenOk b | FenFail b => b
  | FenUB => clear_board
  end.

(** ** [to_fen] *)

(** [std::to_string(int)] *)
Fixpoint digits (fuel : nat) (n : Z) (acc : str) : str :=
  match fuel with
  | O => acc
  | S fuel =>
      let acc := char_of (48 + n mod 10) :: acc in
      if n / 10 =? 0 then acc else digits fuel (n / 10) acc
  end.
Definition to_string (z : Z) : str :=
  let go n := digits (S (Z.to_nat (Z.log2 n))) n [] in
  if z <? 0 then "-"%char :: go (- z) else go z.

(** One rank, left to right, with the running count of empty squares. *)
Fixpoint rank_chars (ps : list Piece) (empty : Z) : str :=
  match ps with
  | [] => if 0 <? empty then to_string empty else []
  | p :: ps =>
      if is_none p then rank_chars ps (empty + 1)
      else (if 0 <? empty then to_string empty else []) ++ to_char p :: rank_chars ps 0
  end.

Definition rank_pieces (b : Board) (rank : Z) : list Piece :=
  map (fun file => piece_at b (make_square rank (Z.of_nat file))) (seq 0 8).

Definition placement_field (b : Board) : str :=
  flat_map (fun rank => rank_chars (rank_pieces b rank) 0 ++
                        (if 0 <? rank then ["/"%char] else []))
           [7; 6; 5; 4; 3; 2; 1; 0].

Definition castling_field (cr : Z) : str :=
  if cr =? CastlingRights.NONE then lit "-" else
  (if has_flag cr CastlingRights.WHITE_KINGSIDE then lit "K" else []) ++
  (if has_flag cr CastlingRights.WHITE_QUEENSIDE then lit "Q" else []) ++
  (if has_flag cr CastlingRights.BLACK_KINGSIDE then lit "k" else []) ++
  (if has_flag cr CastlingRights.BLACK_QUEENSIDE then lit "q" else []).

Definition ep_field (ep : Z) : str :=
  if ep =? NO_SQUARE then lit "-" else square_to_algebraic ep.

Definition to_fen (b : Board) : str :=
  placement_field b ++
  (if bool_decide (side_to_move_ b = Color.WHITE) then lit " w " else lit " b ") ++
  castling_field (castling_rights_ b) ++
  lit " " ++ ep_field (en_passant_sq_ b) ++
  lit " " ++ to_string (halfmove_clock_ b) ++
  lit " " ++ to_string (fullmove_number_ b).
