(* ===== verification/Rules.v ===== *)
(** * The rules of movement, and the generator against them

    A declarative account of how pieces attack and move, in rank and file
    coordinates, independent of the loops of [MoveGen]; then the proofs that
    attack detection and pseudo-legal generation decide exactly these relations. *)
From S2P Require Import Prelude Types BoardState Zobrist Board MoveGen.

(** ** Geometry *)

Definition orthogonal_dir (dr df : Z) : Prop := Z.abs dr + Z.abs df = 1.
Definition diagonal_dir (dr df : Z) : Prop := Z.abs dr = 1 /\ Z.abs df = 1.

(** The directions in which a piece type slides. *)
Definition slider_dir (t : PieceType.t) (dr df : Z) : Prop :=
  match t with
  | PieceType.BISHOP => diagonal_dir dr df
  | PieceType.ROOK => orthogonal_dir dr df
  | PieceType.QUEEN => orthogonal_dir dr df \/ diagonal_dir dr df
  | _ => False
  end.

Definition at_rf (b : Board) (r f : Z) : Piece := piece_at b (make_square r f).

(** Every square strictly between the origin and the [k]-th step is empty. *)
Definition clear_between (b : Board) (r f dr df k : Z) : Prop :=
  forall j, 0 < j < k -> is_none (at_rf b (r + j * dr) (f + j * df)) = true.

(** [t2] is [k] steps away from [t1] along [(dr, df)]. *)
Definition steps_to (t1 t2 dr df k : Z) : Prop :=
  rank_of t2 = rank_of t1 + k * dr /\ file_of t2 = file_of t1 + k * df.

Definition slides (b : Board) (t : PieceType.t) (s1 s2 : Z) : Prop :=
  exists dr df k, slider_dir t dr df /\ 0 < k /\ steps_to s1 s2 dr df k /\
    clear_between b (rank_of s1) (file_of s1) dr df k.

Definition knight_step (s1 s2 : Z) : Prop :=
  let a := Z.abs (rank_of s2 - rank_of s1) in
  let b := Z.abs (file_of s2 - file_of s1) in
  (a = 1 /\ b = 2) \/ (a = 2 /\ b = 1).

Definition king_step (s1 s2 : Z) : Prop :=
  s1 <> s2 /\ Z.abs (rank_of s2 - rank_of s1) <= 1 /\ Z.abs (file_of s2 - file_of s1) <= 1.

Definition pawn_takes (c : Color.t) (s1 s2 : Z) : Prop :=
  rank_of s2 = rank_of s1 + pawn_dir c /\ Z.abs (file_of s2 - file_of s1) = 1.

(** The piece standing on [s1] attacks [s2]. *)
Definition attacks (b : Board) (s1 s2 : Z) : Prop :=
  let p := piece_at b s1 in
  match type p with
  | PieceType.PAWN => pawn_takes (color p) s1 s2
  | PieceType.KNIGHT => knight_step s1 s2
  | PieceType.KING => king_step s1 s2
  | PieceType.NONE => False
  | t => slides b t s1 s2
  end.

(** [s] is attacked by a piece of colour [c]. *)
Definition attacked_by (b : Board) (c : Color.t) (s : Z) : Prop :=
  exists s1, valid_sq s1 /\ color (piece_at b s1) = c /\ attacks b s1 s.

(** ** Pseudo-legal moves *)

(** The flags and promotion piece of a pawn move arriving on [t]. *)
Definition promo_choice (c : Color.t) (t fl0 fl : Z) (pt : PieceType.t) : Prop :=
  if rank_of t =? promo_rank c
  then fl = Z.lor fl0 MoveFlags.PROMOTION /\
       In pt [PieceType.QUEEN; PieceType.ROOK; PieceType.BISHOP; PieceType.KNIGHT]
  else fl = fl0 /\ pt = PieceType.NONE.

Definition empty_at (b : Board) (s : Z) : Prop := is_none (piece_at b s) = true.
Definition enemy_at (b : Board) (c : Color.t) (s : Z) : Prop :=
  is_none (piece_at b s) = false /\ color (piece_at b s) <> c.

(** What castling needs: the right, empty squares, squares that are not attacked. *)
Definition castle_ok (b : Board) (c : Color.t) (right : Z) (empty safe : list Z) : Prop :=
  has_flag (castling_rights_ b) right = true /\ Forall (empty_at b) empty /\
  Forall (fun s => ~ attacked_by b (opposite_color c) s) safe.

Inductive castle_move (b : Board) : Color.t -> Move -> Prop :=
| castle_wk : castle_ok b Color.WHITE CastlingRights.WHITE_KINGSIDE
                [Squares.F1; Squares.G1] [Squares.E1; Squares.F1] ->
    castle_move b Color.WHITE (flag_move Squares.E1 Squares.G1 MoveFlags.KINGSIDE_CASTLE)
| castle_wq : castle_ok b Color.WHITE CastlingRights.WHITE_QUEENSIDE
                [Squares.D1; Squares.C1; Squares.B1] [Squares.E1; Squares.D1] ->
    castle_move b Color.WHITE (flag_move Squares.E1 Squares.C1 MoveFlags.QUEENSIDE_CASTLE)
| castle_bk : castle_ok b Color.BLACK CastlingRights.BLACK_KINGSIDE
                [Squares.F8; Squares.G8] [Squares.E8; Squares.F8] ->
    castle_move b Color.BLACK (flag_move Squares.E8 Squares.G8 MoveFlags.KINGSIDE_CASTLE)
| castle_bq : castle_ok b Color.BLACK CastlingRights.BLACK_QUEENSIDE
                [Squares.D8; Squares.C8; Squares.B8] [Squares.E8; Squares.D8] ->
    castle_move b Color.BLACK (flag_move Squares.E8 Squares.C8 MoveFlags.QUEENSIDE_CASTLE).

(** The moves of the side [c], for a piece standing on [s]. *)
Inductive piece_move (b : Board) (c : Color.t) (s : Z) : PieceType.t -> Move -> Prop :=
| pm_push t fl pt :
    valid_sq t -> rank_of t = rank_of s + pawn_dir c -> file_of t = file_of s ->
    empty_at b t -> promo_choice c t MoveFlags.NONE fl pt ->
    piece_move b c s PieceType.PAWN (mkMove s t fl pt)
| pm_double t mid :
    valid_sq t -> valid_sq mid -> rank_of s = start_rank c ->
    rank_of mid = rank_of s + pawn_dir c -> file_of mid = file_of s -> empty_at b mid ->
    rank_of t = rank_of s + 2 * pawn_dir c -> file_of t = file_of s -> empty_at b t ->
    piece_move b c s PieceType.PAWN (flag_move s t MoveFlags.DOUBLE_PAWN_PUSH)
| pm_capture t fl pt :
    valid_sq t -> pawn_takes c s t -> enemy_at b c t ->
    promo_choice c t MoveFlags.NONE fl pt ->
    piece_move b c s PieceType.PAWN (mkMove s t fl pt)
| pm_en_passant t fl pt :
    valid_sq t -> pawn_takes c s t -> ~ enemy_at b c t -> t = en_passant_sq_ b ->
    promo_choice c t MoveFlags.EN_PASSANT fl pt ->
    piece_move b c s PieceType.PAWN (mkMove s t fl pt)
| pm_knight t :
    valid_sq t -> knight_step s t -> empty_at b t \/ enemy_at b c t ->
    piece_move b c s PieceType.KNIGHT (quiet_move s t)
| pm_king t :
    valid_sq t -> king_step s t -> empty_at b t \/ enemy_at b c t ->
    piece_move b c s PieceType.KING (quiet_move s t)
| pm_slide pt t :
    valid_sq t -> slides b pt s t -> empty_at b t \/ enemy_at b c t ->
    piece_move b c s pt (quiet_move s t)
| pm_castle m : castle_move b c m -> piece_move b c s PieceType.KING m.

Definition pseudo_legal (b : Board) (m : Move) : Prop :=
  exists s, valid_sq s /\ color (piece_at b s) = side_to_move_ b /\
            piece_move b (side_to_move_ b) s (type (piece_at b s)) m.

(** ** Bounds and target lists *)

Lemma in_bounds_iff r f : in_bounds r f = true <-> on_board r f.
Proof. unfold in_bounds, on_board. lia. Qed.

Lemma not_in_bounds r f : in_bounds r f = false -> ~ on_board r f.
Proof. intros H. by rewrite <- in_bounds_iff, H. Qed.

Lemma in_targets offs sq t :
  In t (targets offs sq) <->
  exists dr df, In (dr, df) offs /\ on_board (rank_of sq + dr) (file_of sq + df) /\
                t = make_square (rank_of sq + dr) (file_of sq + df).
Proof.
  unfold targets. rewrite in_flat_map. split.
  - intros ([dr df] & Hin & Ht). cbn in Ht.
    destruct (in_bounds _ _) eqn:E; [|done]. apply in_bounds_iff in E.
    destruct Ht as [<-|[]]. eauto.
  - intros (dr & df & Hin & Hb & ->). exists (dr, df). split; [done|]. cbn.
    apply in_bounds_iff in Hb. rewrite Hb. by left.
Qed.

(** A target list is a relation once its offsets are. *)
Lemma in_targets_rel offs (R : Z -> Z -> Prop) sq t :
  (forall dr df, In (dr, df) offs <-> R dr df) ->
  In t (targets offs sq) <->
  valid_sq t /\ R (rank_of t - rank_of sq) (file_of t - file_of sq).
Proof.
  intros HR. rewrite in_targets. split.
  - intros (dr & df & Hin & Hb & ->). split; [by apply make_square_valid|].
    rewrite rank_make_square, file_make_square by done.
    replace (_ + dr - _) with dr by lia. replace (_ + df - _) with df by lia. by apply HR.
  - intros [Hv Ht]. exists (rank_of t - rank_of sq), (file_of t - file_of sq).
    replace (rank_of sq + _) with (rank_of t) by lia.
    replace (file_of sq + _) with (file_of t) by lia.
    rewrite square_coords by done. split; [by apply HR|]. by split; [apply square_on_board|].
Qed.

Lemma knight_targets_spec sq t :
  In t (knight_targets sq) <-> valid_sq t /\ knight_step sq t.
Proof.
  unfold knight_targets.
  rewrite (in_targets_rel _ (fun dr df => (Z.abs dr = 1 /\ Z.abs df = 2) \/ (Z.abs dr = 2 /\ Z.abs df = 1))); [done|].
  intros dr df. split.
  - cbn. intros H. repeat (destruct H as [H|H]; [injection H as <- <-; lia|]). contradiction.
  - intros H. assert (dr = -2 \/ dr = -1 \/ dr = 1 \/ dr = 2) as Hr by lia.
    assert (df = -2 \/ df = -1 \/ df = 1 \/ df = 2) as Hf by lia. cbn.
    destruct Hr as [->|[->|[->| ->]]], Hf as [->|[->|[->| ->]]]; try lia; tauto.
Qed.

Lemma king_targets_spec sq t :
  valid_sq sq -> In t (king_targets sq) <-> valid_sq t /\ king_step sq t.
Proof.
  intros Hsq. unfold king_targets.
  rewrite (in_targets_rel _ (fun dr df => (dr <> 0 \/ df <> 0) /\ Z.abs dr <= 1 /\ Z.abs df <= 1)).
  - split; intros [Hv H]; (split; [done|]); unfold king_step in *;
      pose proof (square_eq_iff sq t Hsq Hv); lia.
  - intros dr df. split.
    + vm_compute (king_offsets). cbn. intros H.
      repeat (destruct H as [H|H]; [injection H as <- <-; lia|]). contradiction.
    + intros H. assert (dr = -1 \/ dr = 0 \/ dr = 1) as Hr by lia.
      assert (df = -1 \/ df = 0 \/ df = 1) as Hf by lia. vm_compute (king_offsets). cbn.
      destruct Hr as [->|[->| ->]], Hf as [->|[->| ->]]; try lia; tauto.
Qed.

(** ** Rays *)

(** The [k]-th square of the walk from [(nr, nf)] is reached by the source's loop. *)
Definition ray_hit (b : Board) (fuel : nat) (nr nf dr df k : Z) : Prop :=
  0 <= k < Z.of_nat fuel /\
  (forall j, 0 <= j <= k -> on_board (nr + j * dr) (nf + j * df)) /\
  (forall j, 0 <= j < k -> is_none (at_rf b (nr + j * dr) (nf + j * df)) = true).

Lemma ray_hit_step b fuel nr nf dr df (P : Z -> Z -> Prop) :
  (exists k, ray_hit b (S fuel) nr nf dr df k /\ P (nr + k * dr) (nf + k * df)) <->
  on_board nr nf /\
  (P nr nf \/ is_none (at_rf b nr nf) = true /\
     exists k, ray_hit b fuel (nr + dr) (nf + df) dr df k /\
               P (nr + dr + k * dr) (nf + df + k * df)).
Proof.
  assert (forall x d j, x + d + j * d = x + (j + 1) * d) as Hs by (intros; ring).
  assert (forall x d, x + 0 * d = x) as H0 by (intros; ring).
  split.
  - intros (k & (Hk & Hb & He) & HP). split.
    + specialize (Hb 0). rewrite !H0 in Hb. apply Hb. lia.
    + destruct (decide (k = 0)) as [->|Hne]; [left; by rewrite !H0 in HP|].
      right. split; [specialize (He 0); rewrite !H0 in He; apply He; lia|].
      exists (k - 1). rewrite !Hs. replace (k - 1 + 1) with k by lia. split; [|done].
      split; [lia|]. split; intros j Hj; rewrite !Hs; [apply Hb|apply He]; lia.
  - intros (Hb & [HP | (He & k & (Hk & Hb' & He') & HP)]).
    + exists 0. rewrite !H0. split; [|done]. split; [lia|].
      split; intros j Hj; [|lia]. replace j with 0 by lia. by rewrite !H0.
    + exists (k + 1). rewrite !Hs in HP. split; [|done]. split; [lia|].
      split; intros j Hj; (destruct (decide (j = 0)) as [->|]; [by rewrite !H0|]);
        [specialize (Hb' (j - 1))|specialize (He' (j - 1))];
        rewrite !Hs in *; replace (j - 1 + 1) with j in * by lia; [apply Hb'|apply He']; lia.
Qed.

Definition unit_dir (dr df : Z) : Prop :=
  Z.abs dr <= 1 /\ Z.abs df <= 1 /\ (dr <> 0 \/ df <> 0).

(** Eight steps of fuel reach every square of a ray, so the loops never run dry. *)
Lemma ray_hit_from_origin b r f dr df (P : Z -> Z -> Prop) :
  on_board r f -> unit_dir dr df ->
  (exists k, ray_hit b ray_fuel (r + dr) (f + df) dr df k /\
             P (r + dr + k * dr) (f + df + k * df)) <->
  (exists k, 0 < k /\ on_board (r + k * dr) (f + k * df) /\
             clear_between b r f dr df k /\ P (r + k * dr) (f + k * df)).
Proof.
  intros Ho Hd.
  assert (forall x d j, x + d + j * d = x + (j + 1) * d) as Hs by (intros; ring).
  split.
  - intros (k & (Hk & Hb & He) & HP). exists (k + 1). rewrite !Hs in HP.
    split; [lia|]. split; [|split; [|done]].
    + specialize (Hb k). rewrite !Hs in Hb. apply Hb. lia.
    + intros j Hj. specialize (He (j - 1)). rewrite !Hs in He.
      replace (j - 1 + 1) with j in He by lia. apply He. lia.
  - intros (k & Hk & Hb & He & HP). exists (k - 1). rewrite !Hs.
    replace (k - 1 + 1) with k by lia. split; [|done].
    unfold ray_hit, ray_fuel, on_board, unit_dir in *.
    assert (dr = -1 \/ dr = 0 \/ dr = 1) as Hr by lia.
    assert (df = -1 \/ df = 0 \/ df = 1) as Hf by lia.
    split; [destruct Hr as [->|[->| ->]], Hf as [->|[->| ->]]; lia|].
    split; intros j Hj; rewrite !Hs; [|apply He; lia].
    destruct Hr as [->|[->| ->]], Hf as [->|[->| ->]]; lia.
Qed.

(** [m] is the quiet move from [sq] to the given square, which is not own. *)
Definition ray_target (b : Board) (sq : Z) (c : Color.t) (m : Move) (r f : Z) : Prop :=
  (empty_at b (make_square r f) \/ enemy_at b c (make_square r f)) /\
  m = quiet_move sq (make_square r f).

(** A slider of colour [c] that attacks along this kind of ray stands there. *)
Definition ray_slider (b : Board) (c : Color.t) (diag : bool) (r f : Z) : Prop :=
  color (at_rf b r f) = c /\
  (type (at_rf b r f) = PieceType.QUEEN \/
   diag = true /\ type (at_rf b r f) = PieceType.BISHOP \/
   diag = false /\ type (at_rf b r f) = PieceType.ROOK).

Lemma ray_moves_spec fuel b sq c nr nf dr df m :
  In m (ray_moves fuel b sq c nr nf dr df) <->
  exists k, ray_hit b fuel nr nf dr df k /\ ray_target b sq c m (nr + k * dr) (nf + k * df).
Proof.
  revert nr nf. induction fuel as [|fuel IH]; intros nr nf.
  { cbn. split; [done|]. intros (k & (Hk & _) & _). lia. }
  rewrite ray_hit_step. cbn [ray_moves].
  destruct (in_bounds nr nf) eqn:Eb.
  - apply in_bounds_iff in Eb. unfold ray_target at 1, empty_at, enemy_at, at_rf.
    destruct (is_none (piece_at b (make_square nr nf))) eqn:En.
    + cbn [In]. rewrite IH. naive_solver.
    + case_bool_decide; cbn; naive_solver.
  - apply not_in_bounds in Eb. cbn. naive_solver.
Qed.

Lemma ray_attacks_spec fuel b c diag nr nf dr df :
  ray_attacks fuel b c diag nr nf dr df = true <->
  exists k, ray_hit b fuel nr nf dr df k /\ ray_slider b c diag (nr + k * dr) (nf + k * df).
Proof.
  revert nr nf. induction fuel as [|fuel IH]; intros nr nf.
  { cbn. split; [done|]. intros (k & (Hk & _) & _). lia. }
  rewrite ray_hit_step. cbn [ray_attacks].
  destruct (in_bounds nr nf) eqn:Eb.
  - apply in_bounds_iff in Eb. unfold ray_slider at 1, at_rf.
    destruct (is_none (piece_at b (make_square nr nf))) eqn:En; cbn [negb].
    + rewrite IH. rewrite is_none_true in En. naive_solver congruence.
    + destruct diag; repeat case_bool_decide; naive_solver.
  - apply not_in_bounds in Eb. naive_solver.
Qed.

(** ** Attack detection decides [attacked_by] *)

Lemma ray_dirs_spec i dr df :
  In (i, (dr, df)) (combine (seq 0 8) ray_dirs) <->
  (0 <= i < 8)%nat /\ nth i ray_dirs (0, 0) = (dr, df).
Proof.
  cbn. split.
  - intros H. repeat (destruct H as [H|H]; [injection H as <- <- <-; split; [lia|done]|]). done.
  - intros [Hi He]. do 8 (destruct i as [|i]; [cbn in He; injection He as <- <-; tauto|]). lia.
Qed.

(** The split of the direction table into orthogonals and diagonals. *)
Lemma ray_dirs_orthogonal dr df :
  (exists i, In (i, (dr, df)) (combine (seq 0 8) ray_dirs) /\ (4 <=? i)%nat = false) <->
  orthogonal_dir dr df.
Proof.
  unfold orthogonal_dir. split.
  - intros (i & H & Hi). cbn in H.
    repeat (destruct H as [H|H]; [injection H as <- <- <-; first [done|lia]|]). done.
  - intros H. assert ((dr = -1 /\ df = 0) \/ (dr = 1 /\ df = 0) \/ (dr = 0 /\ df = -1) \/ (dr = 0 /\ df = 1)) as Hc by lia.
    cbn. destruct Hc as [[-> ->]|[[-> ->]|[[-> ->]|[-> ->]]]];
      [exists 0%nat|exists 1%nat|exists 2%nat|exists 3%nat]; (split; [tauto|done]).
Qed.

Lemma ray_dirs_diagonal dr df :
  (exists i, In (i, (dr, df)) (combine (seq 0 8) ray_dirs) /\ (4 <=? i)%nat = true) <->
  diagonal_dir dr df.
Proof.
  unfold diagonal_dir. split.
  - intros (i & H & Hi). cbn in H.
    repeat (destruct H as [H|H]; [injection H as <- <- <-; first [done|lia]|]). done.
  - intros H. assert ((dr = -1 /\ df = -1) \/ (dr = -1 /\ df = 1) \/ (dr = 1 /\ df = -1) \/ (dr = 1 /\ df = 1)) as Hc by lia.
    cbn. destruct Hc as [[-> ->]|[[-> ->]|[[-> ->]|[-> ->]]]];
      [exists 4%nat|exists 5%nat|exists 6%nat|exists 7%nat]; (split; [tauto|done]).
Qed.

Lemma slider_dir_unit t dr df : slider_dir t dr df -> unit_dir dr df.
Proof. unfold slider_dir, orthogonal_dir, diagonal_dir, unit_dir. destruct t; lia. Qed.

Lemma steps_to_valid s1 s2 dr df k :
  valid_sq s2 -> steps_to s1 s2 dr df k ->
  on_board (rank_of s1 + k * dr) (file_of s1 + k * df) /\
  s2 = make_square (rank_of s1 + k * dr) (file_of s1 + k * df).
Proof.
  intros Hv [<- <-]. split; [by apply square_on_board|]. symmetry. by apply square_coords.
Qed.

Lemma steps_to_make_square s r f dr df k :
  on_board (r + k * dr) (f + k * df) -> r = rank_of s -> f = file_of s ->
  steps_to s (make_square (r + k * dr) (f + k * df)) dr df k.
Proof. intros Hb -> ->. split; [by apply rank_make_square|by apply file_make_square]. Qed.

(** A path is as clear in one direction as in the other. *)
Lemma clear_between_reverse b s1 s2 dr df k :
  steps_to s1 s2 dr df k -> clear_between b (rank_of s1) (file_of s1) dr df k ->
  clear_between b (rank_of s2) (file_of s2) (- dr) (- df) k.
Proof.
  intros [Hr Hf] Hc j Hj. rewrite Hr, Hf. specialize (Hc (k - j)).
  replace (rank_of s1 + k * dr + j * - dr) with (rank_of s1 + (k - j) * dr) by ring.
  replace (file_of s1 + k * df + j * - df) with (file_of s1 + (k - j) * df) by ring.
  apply Hc. lia.
Qed.

Lemma slider_dir_neg t dr df : slider_dir t dr df -> slider_dir t (- dr) (- df).
Proof. unfold slider_dir, orthogonal_dir, diagonal_dir. destruct t; lia. Qed.

Lemma slides_sym b t s1 s2 : slides b t s1 s2 -> slides b t s2 s1.
Proof.
  intros (dr & df & k & Hd & Hk & Hs & Hc). exists (- dr), (- df), k.
  split; [by apply slider_dir_neg|]. split; [done|].
  split; [destruct Hs; split; lia|]. eauto using clear_between_reverse.
Qed.

Lemma slides_slider b t s1 s2 :
  slides b t s1 s2 -> t = PieceType.BISHOP \/ t = PieceType.ROOK \/ t = PieceType.QUEEN.
Proof. intros (? & ? & ? & H & _). destruct t; cbn in H; tauto. Qed.

Lemma slider_attacks_square_spec b sq c :
  valid_sq sq ->
  slider_attacks_square b sq c = true <->
  exists s, valid_sq s /\ color (piece_at b s) = c /\ slides b (type (piece_at b s)) s sq.
Proof.
  intros Hv. unfold slider_attacks_square. rewrite existsb_exists. split.
  - intros ((i & dr & df) & Hin & Hr). apply ray_attacks_spec in Hr.
    assert (unit_dir dr df /\ ((4 <=? i)%nat = true -> diagonal_dir dr df) /\
            ((4 <=? i)%nat = false -> orthogonal_dir dr df)) as (Hu & Hdg & Hog).
    { pose proof (ray_dirs_diagonal dr df) as [Hd _].
      pose proof (ray_dirs_orthogonal dr df) as [Ho _].
      split; [|split; eauto]. destruct (4 <=? i)%nat eqn:E.
      - assert (diagonal_dir dr df) by eauto. unfold diagonal_dir, unit_dir in *. lia.
      - assert (orthogonal_dir dr df) by eauto. unfold orthogonal_dir, unit_dir in *. lia. }
    apply ray_hit_from_origin in Hr as (k & Hk & Hb & Hc & Hcol & Ht);
      [|by apply square_on_board|done].
    eexists. split; [by apply make_square_valid|]. split; [exact Hcol|]. apply slides_sym.
    exists dr, df, k. split; [|split; [done|split; [by apply steps_to_make_square|done]]].
    fold (at_rf b (rank_of sq + k * dr) (file_of sq + k * df)).
    destruct Ht as [-> | [[Hd ->] | [Hd ->]]]; cbn; [|eauto..].
    destruct (4 <=? i)%nat; eauto.
  - intros (s & Hs & Hcol & Hsl). pose proof (slides_slider _ _ _ _ Hsl) as Ht.
    apply slides_sym in Hsl as (dr & df & k & Hd & Hk & Hst & Hc).
    apply steps_to_valid in Hst as [Hb ->]; [|done].
    assert (exists i, In (i, (dr, df)) (combine (seq 0 8) ray_dirs) /\
              ray_slider b c (4 <=? i)%nat (rank_of sq + k * dr) (file_of sq + k * df))
      as (i & Hin & Hsd).
    { unfold ray_slider, at_rf.
      pose proof (ray_dirs_diagonal dr df) as [_ Hdg].
      pose proof (ray_dirs_orthogonal dr df) as [_ Hog].
      destruct Ht as [Ht|[Ht|Ht]]; rewrite Ht in Hd |- *; cbn in Hd;
        [destruct (Hdg Hd) as (i & Hi & E)|destruct (Hog Hd) as (i & Hi & E)|
         destruct Hd as [Hd|Hd]; [destruct (Hog Hd) as (i & Hi & E)|destruct (Hdg Hd) as (i & Hi & E)]];
        exists i; rewrite E; tauto. }
    exists (i, (dr, df)). split; [done|]. apply ray_attacks_spec.
    apply ray_hit_from_origin; [by apply square_on_board|by eapply slider_dir_unit|]. eauto.
Qed.

Lemma pawn_attacks_square_spec b sq c :
  valid_sq sq ->
  pawn_attacks_square b sq c = true <->
  exists s, valid_sq s /\ piece_at b s = mkPiece PieceType.PAWN c /\ pawn_takes c s sq.
Proof.
  intros Hv. apply square_on_board in Hv. unfold pawn_attacks_square, pawn_takes, pawn_dir.
  set (d := if bool_decide (c = Color.WHITE) then -1 else 1).
  replace (if bool_decide (c = Color.WHITE) then 1 else -1) with (- d)
    by by unfold d; case_bool_decide.
  rewrite !andb_true_iff, orb_true_iff, !andb_true_iff, !is_piece_true. split.
  - intros [Hr [[Hf Hp]|[Hf Hp]]].
    all: assert (on_board (rank_of sq + d) (file_of sq - 1) \/ file_of sq = 0)
           by (unfold on_board in *; lia).
    all: assert (on_board (rank_of sq + d) (file_of sq + 1) \/ file_of sq = 7)
           by (unfold on_board in *; lia).
    all: eexists; split; [|split; [exact Hp|]]; [by apply make_square_valid; unfold on_board in *; lia|].
    all: rewrite rank_make_square, file_make_square by (unfold on_board in *; lia); lia.
  - intros (s & Hs & Hp & Hr & Hf).
    rewrite <- (square_coords s) in Hp by done. apply square_on_board in Hs.
    unfold on_board in *. split; [lia|].
    assert (file_of s = file_of sq - 1 \/ file_of s = file_of sq + 1) as [E|E] by lia;
      [left|right]; (split; [lia|]).
    all: rewrite <- E; by replace (rank_of sq + d) with (rank_of s) by lia.
Qed.

(** [is_square_attacked] decides whether a piece of the colour attacks the square. *)
Lemma is_square_attacked_iff b sq c :
  valid_sq sq -> is_square_attacked b sq c = true <-> attacked_by b c sq.
Proof.
  intros Hv. unfold is_square_attacked, attacked_by, attacks.
  rewrite !orb_true_iff, pawn_attacks_square_spec, slider_attacks_square_spec by done.
  rewrite !existsb_exists. setoid_rewrite is_piece_true.
  setoid_rewrite knight_targets_spec. setoid_rewrite king_targets_spec; [|done]. split.
  - intros [[[(s & Hs & Hp & Ht)|(s & [Hs Ht] & Hp)]|(s & [Hs Ht] & Hp)]|(s & Hs & Hc & Hsl)];
      exists s; (split; [done|]).
    + by rewrite Hp.
    + rewrite Hp. split; [done|]. cbn. unfold knight_step in *. lia.
    + rewrite Hp. split; [done|]. cbn. unfold king_step in *. lia.
    + split; [done|]. destruct (slides_slider _ _ _ _ Hsl) as [E|[E|E]]; by rewrite E in *.
  - intros (s & Hs & Hc & Ha). destruct (piece_at b s) as [t c'] eqn:E. cbn in Hc, Ha. subst c'.
    destruct t; try done.
    + left; left; left. eauto.
    + left; left; right. exists s. split; [split; [done|unfold knight_step in *; lia]|done].
    + right. exists s. by rewrite E.
    + right. exists s. by rewrite E.
    + right. exists s. by rewrite E.
    + left; right. exists s. split; [split; [done|unfold king_step in *; lia]|done].
Qed.

(** ** Pseudo-legal generation decides [pseudo_legal] *)

Lemma add_pawn_move_spec s c t fl0 m :
  In m (add_pawn_move s c t fl0) <->
  exists fl pt, promo_choice c t fl0 fl pt /\ m = mkMove s t fl pt.
Proof.
  unfold add_pawn_move, promo_choice. case_z.
  - rewrite in_map_iff. split.
    + intros (pt & <- & Hin). eauto.
    + intros (fl & pt & [-> Hin] & ->). eauto.
  - split.
    + intros [<-|[]]. unfold flag_move. eauto.
    + intros (fl & pt & [-> ->] & ->). by left.
Qed.

Lemma square_at_forward s dr df :
  valid_sq s -> forall t, valid_sq t ->
  rank_of t = rank_of s + dr -> file_of t = file_of s + df ->
  on_board (rank_of s + dr) (file_of s + df) /\ t = make_square (rank_of s + dr) (file_of s + df).
Proof.
  intros Hs t Ht Hr Hf. rewrite <- Hr, <- Hf.
  split; [by apply square_on_board|]. symmetry. by apply square_coords.
Qed.

Lemma pawn_pushes_spec b s c m :
  valid_sq s ->
  In m (pawn_pushes b s c) <->
  (exists t fl pt, valid_sq t /\ rank_of t = rank_of s + pawn_dir c /\ file_of t = file_of s /\
     empty_at b t /\ promo_choice c t MoveFlags.NONE fl pt /\ m = mkMove s t fl pt) \/
  (exists t mid, valid_sq t /\ valid_sq mid /\ rank_of s = start_rank c /\
     rank_of mid = rank_of s + pawn_dir c /\ file_of mid = file_of s /\ empty_at b mid /\
     rank_of t = rank_of s + 2 * pawn_dir c /\ file_of t = file_of s /\ empty_at b t /\
     m = flag_move s t MoveFlags.DOUBLE_PAWN_PUSH).
Proof.
  intros Hs. pose proof (square_on_board s Hs) as Hb. unfold pawn_pushes, empty_at.
  set (d := pawn_dir c). set (f := file_of s).
  destruct ((0 <=? rank_of s + d) && (rank_of s + d <? 8)) eqn:Er.
  2: { split; [done|]. intros [H|H]; split_hyps; unfold on_board in *.
       - pose proof (square_on_board x ltac:(done)) as Hx. unfold on_board in Hx. lia.
       - pose proof (square_on_board x0 ltac:(done)) as Hx. unfold on_board in Hx. lia. }
  assert (on_board (rank_of s + d) f) as Hbf by (unfold on_board in *; subst f; lia).
  assert (forall t, valid_sq t -> rank_of t = rank_of s + d -> file_of t = f ->
            t = make_square (rank_of s + d) f) as Hfw.
  { intros t Ht <- <-. symmetry. by apply square_coords. }
  destruct (is_none (piece_at b (make_square (rank_of s + d) f))) eqn:En.
  2: { split; [done|]. intros [H|H]; split_hyps.
       - rewrite (Hfw x) in * by done. congruence.
       - rewrite (Hfw x0) in * by done. congruence. }
  rewrite in_app_iff, add_pawn_move_spec. apply or_iff_compat.
  - split.
    + intros (fl & pt & Hp & ->). exists (make_square (rank_of s + d) f), fl, pt.
      rewrite rank_make_square, file_make_square by done. auto 15 using make_square_valid.
    + intros (t & fl & pt & Ht & Hr & Hf & He & Hp & ->). rewrite (Hfw t) in * by done. eauto.
  - destruct (Z.eqb_spec (rank_of s) (start_rank c)) as [E|E].
    2: { split; [done|]. intros H. split_hyps. done. }
    assert (on_board (rank_of s + 2 * d) f) as Hb2.
    { unfold start_rank, d, pawn_dir, on_board in *. case_bool_decide; subst f; lia. }
    split.
    + destruct (is_none (piece_at b (make_square (rank_of s + 2 * d) f))) eqn:E2; [|done].
      intros [<-|[]]. exists (make_square (rank_of s + 2 * d) f), (make_square (rank_of s + d) f).
      rewrite !rank_make_square, !file_make_square by done. auto 15 using make_square_valid.
    + intros (t & mid & Ht & _ & _ & _ & _ & _ & Hr & Hf & He & ->).
      assert (t = make_square (rank_of s + 2 * d) f) as ->.
      { rewrite <- Hr, <- Hf. symmetry. by apply square_coords. }
      rewrite He. by left.
Qed.

Lemma enemy_at_test b c t :
  negb (is_none (piece_at b t)) && negb (bool_decide (color (piece_at b t) = c)) = true <->
  enemy_at b c t.
Proof.
  unfold enemy_at. rewrite andb_true_iff, !negb_true_iff, bool_decide_eq_false. done.
Qed.

Lemma pawn_captures_spec b s c m :
  valid_sq s ->
  In m (flat_map (pawn_captures b s c) [-1; 1]) <->
  exists t fl pt, valid_sq t /\ pawn_takes c s t /\ m = mkMove s t fl pt /\
    (enemy_at b c t /\ promo_choice c t MoveFlags.NONE fl pt \/
     ~ enemy_at b c t /\ t = en_passant_sq_ b /\ promo_choice c t MoveFlags.EN_PASSANT fl pt).
Proof.
  intros Hs. rewrite in_flat_map. unfold pawn_captures, pawn_takes. set (d := pawn_dir c). split.
  - intros (df & Hdf & Hm).
    destruct (_ && _ && _ && _) eqn:Eb in Hm; [|done]. bool_hyps.
    assert (on_board (rank_of s + d) (file_of s + df)) as Hb by (unfold on_board; lia).
    assert (Z.abs df = 1) by (cbn in Hdf; lia).
    set (t := make_square (rank_of s + d) (file_of s + df)) in *.
    assert (rank_of t = rank_of s + d /\ Z.abs (file_of t - file_of s) = 1).
    { unfold t. rewrite rank_make_square, file_make_square by done. lia. }
    assert (valid_sq t) by by apply make_square_valid.
    destruct (negb _ && negb _) eqn:Ee in Hm.
    + apply enemy_at_test in Ee. apply add_pawn_move_spec in Hm as (fl & pt & Hp & ->). eauto 10.
    + assert (~ enemy_at b c t) by (by rewrite <- enemy_at_test, Ee).
      destruct (Z.eqb_spec t (en_passant_sq_ b)) as [E|E]; [|done].
      apply add_pawn_move_spec in Hm as (fl & pt & Hp & ->). eauto 12.
  - intros (t & fl & pt & Ht & [Hr Hf] & -> & He). exists (file_of t - file_of s).
    split; [cbn; lia|]. rewrite <- Hr. replace (file_of s + _) with (file_of t) by lia.
    pose proof (square_on_board t Ht) as Hb. rewrite square_coords by done.
    destruct (_ && _ && _ && _) eqn:Eb; [|unfold on_board in Hb; lia].
    destruct (negb _ && negb _) eqn:Ee.
    + apply enemy_at_test in Ee. apply add_pawn_move_spec. destruct He as [[_ Hp]|[Hn _]]; eauto. done.
    + assert (~ enemy_at b c t) as Hne by (by rewrite <- enemy_at_test, Ee).
      destruct He as [[He _]|(_ & -> & Hp)]; [done|]. rewrite Z.eqb_refl.
      apply add_pawn_move_spec. eauto.
Qed.

Lemma step_moves_spec b s c tgts m :
  In m (step_moves b s c tgts) <->
  exists t, In t tgts /\ (empty_at b t \/ enemy_at b c t) /\ m = quiet_move s t.
Proof.
  unfold step_moves. rewrite in_flat_map. unfold empty_at, enemy_at.
  apply exists_iff. intros t. apply and_iff_compat_l.
  destruct (is_none (piece_at b t)); cbn; [naive_solver|]. case_bool_decide; cbn; naive_solver.
Qed.

Lemma generate_ray_moves_spec b s c (orth diag : bool) pt m :
  valid_sq s ->
  (forall dr df : Z, In (dr, df) (firstn ((if diag then 8 else 4) - (if orth then 0 else 4))%nat
                                     (skipn (if orth then 0 else 4)%nat ray_dirs)) <->
                 slider_dir pt dr df) ->
  In m (generate_ray_moves b s c orth diag) <->
  exists t, valid_sq t /\ slides b pt s t /\ (empty_at b t \/ enemy_at b c t) /\ m = quiet_move s t.
Proof.
  intros Hs Hdirs. pose proof (square_on_board s Hs) as Hb.
  unfold generate_ray_moves. rewrite in_flat_map. split.
  - intros ([dr df] & Hin & Hm). apply Hdirs in Hin.
    apply ray_moves_spec in Hm.
    apply ray_hit_from_origin in Hm as (k & Hk & Hbk & Hc & He & ->);
      [|done|by eapply slider_dir_unit].
    eexists. split; [by apply make_square_valid|]. split; [|done].
    exists dr, df, k. eauto using steps_to_make_square.
  - intros (t & Ht & (dr & df & k & Hd & Hk & Hst & Hc) & He & ->).
    apply steps_to_valid in Hst as [Hbk ->]; [|done].
    exists (dr, df). split; [by apply Hdirs|]. apply ray_moves_spec.
    apply ray_hit_from_origin; [done|by eapply slider_dir_unit|].
    exists k. unfold ray_target. eauto.
Qed.

Ltac dirs_spec :=
  intros dr df; cbn; unfold orthogonal_dir, diagonal_dir; split;
  [ intros H; repeat (destruct H as [H|H]; [injection H as <- <-; lia|]); contradiction
  | intros H; assert (dr = -1 \/ dr = 0 \/ dr = 1) as Hr by lia;
    assert (df = -1 \/ df = 0 \/ df = 1) as Hf by lia;
    destruct Hr as [->|[->| ->]], Hf as [->|[->| ->]]; first [lia|tauto] ].

Lemma castling_clause_spec b c right empty safe mv m :
  Forall valid_sq safe ->
  In m (castling_clause b (opposite_color c) right empty safe mv) <->
  castle_ok b c right empty safe /\ m = mv.
Proof.
  intros Hv. unfold castling_clause, castle_ok, empty_at.
  assert (forallb (fun s => is_none (piece_at b s)) empty = true <->
          Forall (fun s => is_none (piece_at b s) = true) empty) as He.
  { by rewrite forallb_forall, List.Forall_forall. }
  assert (forallb (fun s => negb (is_square_attacked b s (opposite_color c))) safe = true <->
          Forall (fun s => ~ attacked_by b (opposite_color c) s) safe) as Hs.
  { rewrite forallb_forall, List.Forall_forall. rewrite List.Forall_forall in Hv.
    split; intros H s Hin; specialize (H s Hin).
    - apply negb_true_iff in H. rewrite <- is_square_attacked_iff by auto. by rewrite H.
    - apply negb_true_iff, not_true_iff_false. by rewrite is_square_attacked_iff by auto. }
  rewrite <- He, <- Hs.
  destruct (has_flag _ _), (forallb _ empty), (forallb _ safe); cbn; naive_solver.
Qed.

Lemma castling_moves_spec b c m :
  c <> Color.NONE -> In m (castling_moves b c) <-> castle_move b c m.
Proof.
  intros Hc.
  unfold castling_moves. destruct c; [| |done]; cbn [bool_decide]; case_bool_decide; try done.
  all: rewrite in_app_iff, !castling_clause_spec by (repeat constructor; vm_compute; done).
  all: split; [intros [[Hk ->]|[Hk ->]]; by constructor|].
  all: inversion 1; subst; auto.
Qed.

Lemma generate_piece_moves_spec b s m :
  valid_sq s -> side_to_move_ b <> Color.NONE ->
  In m (generate_piece_moves b (side_to_move_ b) s) <->
  color (piece_at b s) = side_to_move_ b /\
  piece_move b (side_to_move_ b) s (type (piece_at b s)) m.
Proof.
  intros Hs Hside. unfold generate_piece_moves. set (c := side_to_move_ b) in *.
  destruct (is_none (piece_at b s)) eqn:En.
  { apply is_none_true in En. split; [done|]. rewrite En. intros [_ Hm].
    inversion Hm; subst. by destruct (slides_slider _ _ _ _ H0) as [?|[?|?]]. }
  case_bool_decide as Ec; [|by split; [|intros [? _]]]. cbn [negb orb].
  apply is_none_false in En.
  destruct (type (piece_at b s)) eqn:Et; try done.
  - unfold generate_pawn_moves. rewrite in_app_iff, pawn_pushes_spec, pawn_captures_spec by done.
    split.
    + intros [[H|H]|H]; split_hyps; subst; (split; [done|]).
      * by apply pm_push.
      * by eapply pm_double.
      * destruct H2; split_hyps; [by apply pm_capture|by apply pm_en_passant].
    + intros [_ Hm]. inversion Hm; subst; [left; left; eauto 10|left; right; eauto 15|..];
        [right; eauto 10|right; eauto 12|].
      by destruct (slides_slider _ _ _ _ H0) as [?|[?|?]].
  - unfold generate_knight_moves. rewrite step_moves_spec. setoid_rewrite knight_targets_spec. split.
    + intros (t & [Ht Hk] & He & ->). split; [done|]. by apply pm_knight.
    + intros [_ Hm]. inversion Hm; subst; [eauto|].
      by destruct (slides_slider _ _ _ _ H0) as [?|[?|?]].
  - rewrite (generate_ray_moves_spec b s c false true PieceType.BISHOP) by first [done | dirs_spec].
    split.
    + intros (t & Ht & Hsl & He & ->). split; [done|]. by apply pm_slide.
    + intros [_ Hm]. inversion Hm; subst. eauto.
  - rewrite (generate_ray_moves_spec b s c true false PieceType.ROOK) by first [done | dirs_spec].
    split.
    + intros (t & Ht & Hsl & He & ->). split; [done|]. by apply pm_slide.
    + intros [_ Hm]. inversion Hm; subst. eauto.
  - rewrite (generate_ray_moves_spec b s c true true PieceType.QUEEN) by first [done | dirs_spec].
    split.
    + intros (t & Ht & Hsl & He & ->). split; [done|]. by apply pm_slide.
    + intros [_ Hm]. inversion Hm; subst. eauto.
  - unfold generate_king_moves. rewrite in_app_iff, step_moves_spec, castling_moves_spec by done.
    setoid_rewrite king_targets_spec; [|done]. split.
    + intros [(t & [Ht Hk] & He & ->)|H]; (split; [done|]); [by apply pm_king|by apply pm_castle].
    + intros [_ Hm]. inversion Hm; subst; [left; eauto|..|by right].
      by destruct (slides_slider _ _ _ _ H0) as [?|[?|?]].
Qed.

Lemma in_generate_pseudo_legal b m :
  side_to_move_ b <> Color.NONE ->
  In m (generate_pseudo_legal_moves b) <-> pseudo_legal b m.
Proof.
  intros Hside. unfold generate_pseudo_legal_moves, pseudo_legal. rewrite in_flat_map.
  apply exists_iff. intros s. rewrite elem_all_squares. split.
  - intros [Hs Hm]. split; [done|]. by apply generate_piece_moves_spec.
  - intros [Hs Hm]. split; [done|]. by apply generate_piece_moves_spec.
Qed.
