(* ===== verification/Position.v ===== *)
(** * Well-formed positions and the shape of their moves

    [position_ok] is the invariant of the boards a game goes through: what the
    mailbox, the castling mask, the en-passant square and the clocks promise to
    each other.  [shape] lists the five ways in which a pseudo-legal move of such
    a position changes the board; every later proof about [make_move] goes
    through it. *)
From S2P Require Import Prelude Types BoardState Zobrist Board MoveGen Rules.

(** ** The invariant *)

(** One row per castling right: colour, right, flag, king's path, rook's path. *)
Record CastleRow := mkRow {
  row_color : Color.t; row_right : Z; row_flag : Z;
  king_from : Z; king_to : Z; rook_from : Z; rook_to : Z
}.

Definition castle_table : list CastleRow :=
  [ mkRow Color.WHITE CastlingRights.WHITE_KINGSIDE MoveFlags.KINGSIDE_CASTLE
      Squares.E1 Squares.G1 Squares.H1 Squares.F1;
    mkRow Color.WHITE CastlingRights.WHITE_QUEENSIDE MoveFlags.QUEENSIDE_CASTLE
      Squares.E1 Squares.C1 Squares.A1 Squares.D1;
    mkRow Color.BLACK CastlingRights.BLACK_KINGSIDE MoveFlags.KINGSIDE_CASTLE
      Squares.E8 Squares.G8 Squares.H8 Squares.F8;
    mkRow Color.BLACK CastlingRights.BLACK_QUEENSIDE MoveFlags.QUEENSIDE_CASTLE
      Squares.E8 Squares.C8 Squares.A8 Squares.D8 ].

(** The rank on which the side [c] captures en passant. *)
Definition ep_rank (c : Color.t) : Z := if bool_decide (c = Color.WHITE) then 5 else 2.

(** The pawn captured en passant on [t], seen from the capturing side [c]. *)
Definition ep_victim (c : Color.t) (t : Z) : Z := make_square (rank_of t + behind c) (file_of t).

Definition king_at (b : Board) (c : Color.t) (k : Z) : Prop :=
  valid_sq k /\
  forall s, valid_sq s -> piece_at b s = mkPiece PieceType.KING c <-> s = k.

Record position_ok (b : Board) : Prop := {
  ok_len : length (squares_ b) = 64%nat;
  ok_side : side_to_move_ b <> Color.NONE;
  ok_pieces : forall s, valid_sq s -> piece_ok (piece_at b s);
  ok_king : forall c, c <> Color.NONE -> exists k, king_at b c k;
  ok_pawns : forall s, valid_sq s -> type (piece_at b s) = PieceType.PAWN -> 1 <= rank_of s <= 6;
  ok_rights : 0 <= castling_rights_ b < 16;
  ok_castle : forall row, In row castle_table -> has_flag (castling_rights_ b) (row_right row) = true ->
    piece_at b (king_from row) = mkPiece PieceType.KING (row_color row) /\
    piece_at b (rook_from row) = mkPiece PieceType.ROOK (row_color row);
  ok_ep : en_passant_sq_ b <> NO_SQUARE ->
    valid_sq (en_passant_sq_ b) /\ rank_of (en_passant_sq_ b) = ep_rank (side_to_move_ b) /\
    empty_at b (en_passant_sq_ b) /\
    piece_at b (ep_victim (side_to_move_ b) (en_passant_sq_ b)) =
      mkPiece PieceType.PAWN (opposite_color (side_to_move_ b));
  ok_clocks : 0 <= halfmove_clock_ b /\ 1 <= fullmove_number_ b;
  (** The side that is not to move is not in check. *)
  ok_safe : is_in_check b (opposite_color (side_to_move_ b)) = false
}.

(** ** An executable check of the invariant *)

Definition piece_okb (p : Piece) : bool :=
  Bool.eqb (bool_decide (type p = PieceType.NONE)) (bool_decide (color p = Color.NONE)).

Definition king_okb (b : Board) (c : Color.t) : bool :=
  let k := find_king b c in
  is_valid_square k &&
  forallb (fun s => Bool.eqb (is_piece (piece_at b s) PieceType.KING c) (s =? k)) all_squares.

Definition position_okb (b : Board) : bool :=
  (length (squares_ b) =? 64)%nat && negb (bool_decide (side_to_move_ b = Color.NONE)) &&
  forallb (fun s => piece_okb (piece_at b s)) all_squares &&
  king_okb b Color.WHITE && king_okb b Color.BLACK &&
  forallb (fun s => negb (bool_decide (type (piece_at b s) = PieceType.PAWN)) ||
                    ((1 <=? rank_of s) && (rank_of s <=? 6))) all_squares &&
  ((0 <=? castling_rights_ b) && (castling_rights_ b <? 16)) &&
  forallb (fun row => negb (has_flag (castling_rights_ b) (row_right row)) ||
             (is_piece (piece_at b (king_from row)) PieceType.KING (row_color row) &&
              is_piece (piece_at b (rook_from row)) PieceType.ROOK (row_color row))) castle_table &&
  ((en_passant_sq_ b =? NO_SQUARE) ||
   (is_valid_square (en_passant_sq_ b) && (rank_of (en_passant_sq_ b) =? ep_rank (side_to_move_ b)) &&
    is_none (piece_at b (en_passant_sq_ b)) &&
    is_piece (piece_at b (ep_victim (side_to_move_ b) (en_passant_sq_ b))) PieceType.PAWN
             (opposite_color (side_to_move_ b)))) &&
  ((0 <=? halfmove_clock_ b) && (1 <=? fullmove_number_ b)) &&
  negb (is_in_check b (opposite_color (side_to_move_ b))).

Lemma forall_squares (P : Z -> bool) :
  forallb P all_squares = true -> forall s, valid_sq s -> P s = true.
Proof. intros H s Hs. rewrite forallb_forall in H. apply H. by apply elem_all_squares. Qed.

Lemma is_valid_square_true s : is_valid_square s = true <-> valid_sq s.
Proof. unfold is_valid_square, valid_sq, NUM_SQUARES. lia. Qed.

Lemma piece_okb_true p : piece_okb p = true <-> piece_ok p.
Proof.
  unfold piece_okb, piece_ok. rewrite eqb_true_iff. split; [|apply bool_decide_ext].
  intros E. split; intros H.
  - apply (bool_decide_eq_true_2 (type p = PieceType.NONE)) in H. rewrite E in H.
    by apply bool_decide_eq_true_1 in H.
  - apply (bool_decide_eq_true_2 (color p = Color.NONE)) in H. rewrite <- E in H.
    by apply bool_decide_eq_true_1 in H.
Qed.

Lemma king_okb_sound b c : king_okb b c = true -> king_at b c (find_king b c).
Proof.
  unfold king_okb. intros H. bool_hyps. split; [by apply is_valid_square_true|].
  intros s Hs. pose proof (forall_squares _ H0 s Hs) as He. apply eqb_prop in He.
  rewrite <- is_piece_true, He. apply Z.eqb_eq.
Qed.

Lemma position_okb_sound b : position_okb b = true -> position_ok b.
Proof.
  unfold position_okb. rewrite !andb_true_iff.
  intros [[[[[[[[[[Hl Hs] Hp] Hw] Hb] Hpw] Hr] Hc] He] Hk] Hsafe].
  apply Nat.eqb_eq in Hl. split_hyps. bool_hyps. split; try assumption; try (split; assumption).
  - intros s Hsq. apply piece_okb_true. exact (forall_squares _ Hp s Hsq).
  - intros c Hcol. exists (find_king b c). destruct c;
      [exact (king_okb_sound _ _ Hw)|exact (king_okb_sound _ _ Hb)|contradiction].
  - intros s Hsq Ht. pose proof (forall_squares _ Hpw s Hsq) as H'. cbn beta in H'.
    rewrite (bool_decide_eq_true_2 _ Ht) in H'. cbn in H'. bool_hyps. done.
  - intros row Hin Hf. rewrite forallb_forall in Hc. specialize (Hc row Hin). rewrite Hf in Hc.
    cbn in Hc. bool_hyps. by rewrite <- !is_piece_true.
  - intros Hne. apply orb_true_iff in He as [He|He]; bool_hyps; [done|].
    rewrite <- is_piece_true, <- is_valid_square_true. unfold empty_at. split_hyps. auto.
Qed.

(** ** The shape of a pseudo-legal move *)

Definition promo_pieces : list PieceType.t :=
  [PieceType.QUEEN; PieceType.ROOK; PieceType.BISHOP; PieceType.KNIGHT].

Inductive shape (b : Board) : Move -> Prop :=
| sh_quiet s t :
    (type (piece_at b s) = PieceType.PAWN -> 1 <= rank_of t <= 6) -> shape b (quiet_move s t)
| sh_promotion s t pt :
    type (piece_at b s) = PieceType.PAWN -> In pt promo_pieces ->
    shape b (mkMove s t MoveFlags.PROMOTION pt)
| sh_double s t :
    type (piece_at b s) = PieceType.PAWN -> empty_at b t ->
    empty_at b (ep_victim (side_to_move_ b) t) -> valid_sq (ep_victim (side_to_move_ b) t) ->
    ep_victim (side_to_move_ b) t <> s ->
    rank_of t = start_rank (side_to_move_ b) + 2 * pawn_dir (side_to_move_ b) ->
    shape b (flag_move s t MoveFlags.DOUBLE_PAWN_PUSH)
| sh_en_passant s t :
    type (piece_at b s) = PieceType.PAWN -> pawn_takes (side_to_move_ b) s t ->
    t = en_passant_sq_ b -> shape b (flag_move s t MoveFlags.EN_PASSANT)
| sh_castle row :
    In row castle_table -> row_color row = side_to_move_ b ->
    has_flag (castling_rights_ b) (row_right row) = true ->
    empty_at b (king_to row) -> empty_at b (rook_to row) ->
    shape b (flag_move (king_from row) (king_to row) (row_flag row)).

(** What every pseudo-legal move of a well-formed position satisfies. *)
Record move_facts (b : Board) (m : Move) : Prop := {
  mf_from : valid_sq (from m);
  mf_to : valid_sq (to m);
  mf_ne : from m <> to m;
  mf_own : color (piece_at b (from m)) = side_to_move_ b;
  mf_target : color (piece_at b (to m)) <> side_to_move_ b;
  mf_no_king : type (piece_at b (to m)) <> PieceType.KING;
  mf_shape : shape b m
}.

(** A king is never left where the side to move could capture it. *)
Lemma no_king_capture b s t :
  position_ok b -> valid_sq s -> valid_sq t -> color (piece_at b s) = side_to_move_ b ->
  attacks b s t -> color (piece_at b t) <> side_to_move_ b ->
  type (piece_at b t) <> PieceType.KING.
Proof.
  intros Hok Hs Ht Hown Ha Hcol Hk. pose proof (ok_side b Hok) as Hside.
  set (c := side_to_move_ b) in *. pose proof (ok_pieces b Hok t Ht) as Hp.
  assert (piece_at b t = mkPiece PieceType.KING (opposite_color c)) as E.
  { destruct (piece_at b t) as [pt pc]. cbn in *. subst pt. unfold piece_ok in Hp. cbn in Hp.
    destruct c, pc; try done; try (by destruct Hp as [_ Hp]; specialize (Hp eq_refl)). }
  destruct (ok_king b Hok (opposite_color c) ltac:(by destruct c)) as (k & Hkv & Hku).
  assert (k = t) as -> by (symmetry; by apply Hku).
  pose proof (ok_safe b Hok) as Hsafe. unfold is_in_check in Hsafe. fold c in Hsafe.
  rewrite (find_king_some b _ t) in Hsafe by (try done; intros; by apply Hku).
  rewrite (proj2 (Z.eqb_neq t NO_SQUARE)) in Hsafe by (unfold valid_sq, NO_SQUARE in *; lia).
  rewrite opposite_color_involutive in Hsafe by done.
  assert (attacked_by b c t) as Hatt by by exists s.
  apply is_square_attacked_iff in Hatt; [|done]. congruence.
Qed.

Lemma empty_color b s : position_ok b -> valid_sq s -> empty_at b s -> color (piece_at b s) = Color.NONE.
Proof. intros Hok Hs He. apply is_none_true in He. by apply (ok_pieces b Hok s Hs). Qed.

Lemma empty_not_own b s : position_ok b -> valid_sq s -> empty_at b s -> color (piece_at b s) <> side_to_move_ b.
Proof. intros Hok Hs He. rewrite empty_color by done. pose proof (ok_side b Hok). congruence. Qed.

Lemma empty_not_king b s : empty_at b s -> type (piece_at b s) <> PieceType.KING.
Proof. intros He. apply is_none_true in He. congruence. Qed.

(** The promotion rule leaves a quiet pawn move off the last ranks. *)
Lemma promo_choice_shape b s t fl pt :
  position_ok b -> valid_sq s -> valid_sq t -> type (piece_at b s) = PieceType.PAWN ->
  rank_of t = rank_of s + pawn_dir (side_to_move_ b) ->
  promo_choice (side_to_move_ b) t MoveFlags.NONE fl pt -> shape b (mkMove s t fl pt).
Proof.
  intros Hok Hs Ht Hp Hr Hpc. unfold promo_choice in Hpc.
  destruct (Z.eqb_spec (rank_of t) (promo_rank (side_to_move_ b))).
  - destruct Hpc as [-> Hin]. by apply sh_promotion.
  - destruct Hpc as [-> ->]. apply sh_quiet. intros _.
    pose proof (ok_pawns b Hok s Hs Hp). pose proof (square_on_board t Ht) as [? ?].
    unfold promo_rank, pawn_dir in *. destruct (bool_decide _); lia.
Qed.

Lemma slides_ne b pt s t : slides b pt s t -> s <> t.
Proof.
  intros (dr & df & k & Hd & Hk & [Hr Hf] & _) ->. apply slider_dir_unit in Hd.
  unfold unit_dir in Hd. nia.
Qed.

Lemma castle_move_row b c m :
  castle_move b c m ->
  exists row empty safe, In row castle_table /\ row_color row = c /\
    castle_ok b c (row_right row) empty safe /\ In (king_to row) empty /\ In (rook_to row) empty /\
    m = flag_move (king_from row) (king_to row) (row_flag row).
Proof.
  intros Hm. inversion Hm as [H|H|H|H]; subst;
    [ exists (nth 0 castle_table (mkRow Color.NONE 0 0 0 0 0 0))
    | exists (nth 1 castle_table (mkRow Color.NONE 0 0 0 0 0 0))
    | exists (nth 2 castle_table (mkRow Color.NONE 0 0 0 0 0 0))
    | exists (nth 3 castle_table (mkRow Color.NONE 0 0 0 0 0 0)) ];
    (do 2 eexists; split; [cbn; tauto|split; [done|split; [exact H|cbn; tauto]]]).
Qed.

(** The rows of the table: squares are valid and distinct. *)
Record row_facts (row : CastleRow) : Prop := {
  rf_valid : valid_sq (king_from row) /\ valid_sq (king_to row) /\
             valid_sq (rook_from row) /\ valid_sq (rook_to row);
  rf_king_ne : king_from row <> king_to row;
  rf_rook_ne : rook_from row <> rook_to row;
  rf_kf : king_from row <> rook_from row /\ king_from row <> rook_to row;
  rf_kt : king_to row <> rook_from row /\ king_to row <> rook_to row;
  rf_color : row_color row <> Color.NONE
}.

Lemma castle_row_facts row : In row castle_table -> row_facts row.
Proof.
  intros H. cbn in H. unfold valid_sq.
  destruct H as [<-|[<-|[<-|[<-|[]]]]]; split; cbn; unfold valid_sq; vm_compute; intuition discriminate.
Qed.

Lemma castle_move_facts b m :
  position_ok b -> castle_move b (side_to_move_ b) m -> move_facts b m.
Proof.
  intros Hok Hm. apply castle_move_row in Hm as (row & empty & safe & Hin & Hc & Hco & Hkt & Hrt & ->).
  pose proof (castle_row_facts row Hin) as [(? & ? & ? & ?) ? ? ? ? ?].
  destruct Hco as (Hr & He & _). rewrite List.Forall_forall in He.
  destruct (ok_castle b Hok row Hin Hr) as [Hk _].
  assert (empty_at b (king_to row)) by by apply He.
  split; cbn [from to flag_move]; try done.
  - by rewrite Hk.
  - by apply empty_not_own.
  - by apply empty_not_king.
  - apply sh_castle; auto.
Qed.

(** Facts about a move that is not castling. *)
Lemma plain_move_facts b s t fl pt :
  position_ok b -> valid_sq s -> valid_sq t -> color (piece_at b s) = side_to_move_ b -> s <> t ->
  (empty_at b t \/ enemy_at b (side_to_move_ b) t /\ attacks b s t) ->
  shape b (mkMove s t fl pt) -> move_facts b (mkMove s t fl pt).
Proof.
  intros Hok Hs Ht Hown Hne Htgt Hsh. split; cbn [from to]; try done.
  - destruct Htgt as [He|[[_ He] _]]; [by apply empty_not_own|done].
  - destruct Htgt as [He|[[_ He] Ha]]; [by apply empty_not_king|].
    by apply (no_king_capture b s t).
Qed.

Lemma pawn_pushed_ne s t d : rank_of t = rank_of s + d -> d <> 0 -> s <> t.
Proof. intros H Hd ->. lia. Qed.

Lemma pawn_dir_ne c : pawn_dir c <> 0.
Proof. unfold pawn_dir. by case_bool_decide. Qed.

Lemma behind_dir c : behind c = - pawn_dir c.
Proof. unfold behind, pawn_dir. by case_bool_decide. Qed.

(** The square behind the destination of a pawn step is on the mover's rank. *)
Lemma ep_victim_spec c s t :
  valid_sq s -> valid_sq t -> rank_of t = rank_of s + pawn_dir c ->
  valid_sq (ep_victim c t) /\ rank_of (ep_victim c t) = rank_of s /\
  file_of (ep_victim c t) = file_of t.
Proof.
  intros Hs%square_on_board Ht%square_on_board Hr. unfold ep_victim. rewrite behind_dir.
  replace (rank_of t + - pawn_dir c) with (rank_of s) by lia.
  assert (on_board (rank_of s) (file_of t)) by (unfold on_board in *; lia).
  rewrite rank_make_square, file_make_square by done. auto using make_square_valid.
Qed.

Lemma pseudo_facts b m : position_ok b -> pseudo_legal b m -> move_facts b m.
Proof.
  intros Hok (s & Hs & Hown & Hm). set (c := side_to_move_ b) in *.
  pose proof (pawn_dir_ne c) as Hd. remember (type (piece_at b s)) as ty eqn:Et.
  assert (forall t, attacks b s t <-> match ty with
            | PieceType.PAWN => pawn_takes c s t | PieceType.KNIGHT => knight_step s t
            | PieceType.KING => king_step s t | PieceType.NONE => False
            | _ => slides b ty s t end) as Hatt.
  { intros t. unfold attacks. rewrite <- Et, Hown. by destruct ty. }
  destruct Hm.
  - apply plain_move_facts; try done.
    + by eapply pawn_pushed_ne.
    + by left.
    + by apply promo_choice_shape.
  - apply plain_move_facts; try done; [eapply pawn_pushed_ne; [eassumption|lia]|by left|].
    assert (ep_victim c t = mid) as Hv.
    { apply square_eq_iff; [..|split]; try done; unfold ep_victim; rewrite behind_dir.
      1: { apply make_square_valid. replace (rank_of t + _) with (rank_of mid) by lia.
           replace (file_of t) with (file_of mid) by lia. by apply square_on_board. }
      all: replace (rank_of t + _) with (rank_of mid) by lia;
           replace (file_of t) with (file_of mid) by lia;
           by rewrite square_coords. }
    apply sh_double; fold c; rewrite ?Hv; try done; [intros ->; lia|lia].
  - apply plain_move_facts; try done.
    + destruct H0 as [Hr _]. by eapply pawn_pushed_ne.
    + right. by rewrite Hatt.
    + destruct H0 as [Hr _]. by apply promo_choice_shape.
  - assert (en_passant_sq_ b <> NO_SQUARE) as Hep.
    { subst t. unfold valid_sq, NO_SQUARE in *. lia. }
    destruct (ok_ep b Hok Hep) as (_ & Hrank & Hempty & Hvictim). destruct H0 as [Hr Hf].
    assert (flag_move s t MoveFlags.EN_PASSANT = mkMove s t fl pt) as <-.
    { unfold promo_choice in H3.
      assert (rank_of t <> promo_rank c) as Hnp.
      { subst t. rewrite Hrank. unfold ep_rank, promo_rank. by destruct (bool_decide _). }
      apply Z.eqb_neq in Hnp. rewrite Hnp in H3. by destruct H3 as [-> ->]. }
    apply plain_move_facts; try done.
    + by eapply pawn_pushed_ne.
    + left. by subst t.
    + by apply sh_en_passant.
  - apply plain_move_facts; try done.
    + intros ->. unfold knight_step in *. lia.
    + rewrite Hatt. tauto.
    + apply sh_quiet. congruence.
  - apply plain_move_facts; try done.
    + by destruct H0.
    + rewrite Hatt. tauto.
    + apply sh_quiet. congruence.
  - pose proof (slides_slider _ _ _ _ H0) as Hsl.
    apply plain_move_facts; try done.
    + by eapply slides_ne.
    + rewrite Hatt. destruct Hsl as [->|[->| ->]]; tauto.
    + apply sh_quiet. rewrite <- Et. by destruct Hsl as [->|[->| ->]].
  - by apply castle_move_facts.
Qed.
