(* ===== verification/MakeMove.v ===== *)
(** * What making a move does to the squares and to the scalars

    [make_move] taken apart: the mailbox after a move, square by square, for each
    [shape]; the other fields; and the exactness of [undo_move]. *)
From S2P Require Import Prelude Types BoardState Zobrist Board MoveGen Rules Position.

(** ** The mailbox, separated from the running key *)

Definition hop (l : list Piece) (rook_from rook_to : Z) : list Piece :=
  set_sq (set_sq l rook_to (get_sq l rook_from)) rook_from no_piece.

Definition rook_squares (m : Move) (l : list Piece) : list Piece :=
  let rank := rank_of (from m) in
  if is_kingside_castle m then hop l (make_square rank 7) (make_square rank 5)
  else if is_queenside_castle m then hop l (make_square rank 0) (make_square rank 3)
  else l.

Definition capture_squares (m : Move) (c : Color.t) (l : list Piece) : list Piece :=
  if is_en_passant m then set_sq l (ep_victim c (to m)) no_piece else l.

(** The piece that stands on the destination afterwards. *)
Definition placed (b : Board) (m : Move) : Piece :=
  let mv := piece_at b (from m) in
  if is_promotion m then mkPiece (promo_type m) (color mv) else mv.

Lemma after_move_squares b m :
  squares_ (after_move b m) =
  let mv := piece_at b (from m) in
  let l := capture_squares m (color mv) (rook_squares m (squares_ b)) in
  let l := set_sq (set_sq l (to m) mv) (from m) no_piece in
  if is_promotion m then set_sq l (to m) (mkPiece (promo_type m) (color mv)) else l.
Proof.
  unfold after_move, make_move, move_castling_rook, remove_captured, rook_squares, capture_squares.
  destruct (is_kingside_castle m), (is_queenside_castle m), (is_en_passant m),
    (is_promotion m), (is_double_pawn_push m);
    cbn [fst]; try destruct (negb (is_none _)); reflexivity.
Qed.

Lemma length_rook_squares m l : length (rook_squares m l) = length l.
Proof.
  unfold rook_squares, hop. by destruct (is_kingside_castle m), (is_queenside_castle m);
    rewrite ?length_set_sq.
Qed.

Lemma length_after_move b m : length (squares_ (after_move b m)) = length (squares_ b).
Proof.
  rewrite after_move_squares. cbv zeta. unfold capture_squares.
  destruct (is_promotion m), (is_en_passant m); by rewrite ?length_set_sq, length_rook_squares.
Qed.

(** The fields that do not depend on the squares. *)
Lemma after_move_side b m : side_to_move_ (after_move b m) = opposite_color (side_to_move_ b).
Proof.
  unfold after_move, make_move, move_castling_rook, remove_captured.
  by destruct (is_kingside_castle m), (is_queenside_castle m), (is_en_passant m),
    (is_promotion m), (is_double_pawn_push m); cbn [fst]; try destruct (negb (is_none _)).
Qed.

Lemma after_move_rights b m :
  castling_rights_ (after_move b m) = update_castling_rights (castling_rights_ b) (from m) (to m).
Proof.
  unfold after_move, make_move, move_castling_rook, remove_captured.
  by destruct (is_kingside_castle m), (is_queenside_castle m), (is_en_passant m),
    (is_promotion m), (is_double_pawn_push m); cbn [fst]; try destruct (negb (is_none _)).
Qed.

Lemma after_move_ep b m :
  en_passant_sq_ (after_move b m) =
  if is_double_pawn_push m then ep_victim (color (piece_at b (from m))) (to m) else NO_SQUARE.
Proof.
  unfold after_move, make_move, move_castling_rook, remove_captured.
  by destruct (is_kingside_castle m), (is_queenside_castle m), (is_en_passant m),
    (is_promotion m), (is_double_pawn_push m); cbn [fst]; try destruct (negb (is_none _)).
Qed.

Lemma after_move_fullmove b m :
  fullmove_number_ (after_move b m) =
  if bool_decide (side_to_move_ b = Color.BLACK) then fullmove_number_ b + 1 else fullmove_number_ b.
Proof.
  unfold after_move, make_move, move_castling_rook, remove_captured.
  by destruct (is_kingside_castle m), (is_queenside_castle m), (is_en_passant m),
    (is_promotion m), (is_double_pawn_push m); cbn [fst]; try destruct (negb (is_none _)).
Qed.

(** The piece a move captures, as recorded for [undo_move]. *)
Definition captured_piece (b : Board) (m : Move) : Piece :=
  if is_en_passant m
  then get_sq (rook_squares m (squares_ b)) (ep_victim (color (piece_at b (from m))) (to m))
  else piece_at b (to m).

Lemma after_move_halfmove b m :
  halfmove_clock_ (after_move b m) =
  if bool_decide (type (piece_at b (from m)) = PieceType.PAWN) || negb (is_none (captured_piece b m))
  then 0 else halfmove_clock_ b + 1.
Proof.
  unfold after_move, make_move, move_castling_rook, remove_captured, captured_piece, rook_squares.
  destruct (is_kingside_castle m), (is_queenside_castle m), (is_en_passant m),
    (is_promotion m), (is_double_pawn_push m); cbn [fst]; try reflexivity.
  all: unfold piece_at; destruct (negb (is_none (get_sq (squares_ b) (to m)))) eqn:E;
    cbn [halfmove_clock_]; rewrite ?E; reflexivity.
Qed.

Lemma make_move_undo b m :
  snd (make_move b m) =
  mkUndo (captured_piece b m) (castling_rights_ b) (en_passant_sq_ b) (halfmove_clock_ b)
         (zobrist_key_ b).
Proof.
  unfold make_move, move_castling_rook, remove_captured, captured_piece, rook_squares.
  destruct (is_kingside_castle m), (is_queenside_castle m), (is_en_passant m),
    (is_promotion m), (is_double_pawn_push m); cbn [snd]; try reflexivity.
  all: unfold piece_at; destruct (negb (is_none (get_sq (squares_ b) (to m)))); reflexivity.
Qed.

(** ** Square by square *)

Ltac sq_side := first [ assumption | by rewrite ?length_set_sq | done ].
Ltac read_squares := rewrite !get_set_sq by sq_side.

Section Squares.
Context (b : Board) (m : Move).
Hypothesis Hlen : length (squares_ b) = 64%nat.
Hypothesis Hfrom : valid_sq (from m).
Hypothesis Hto : valid_sq (to m).
Hypothesis Hne : from m <> to m.

Lemma after_squares_plain sq :
  is_kingside_castle m = false -> is_queenside_castle m = false -> is_en_passant m = false ->
  valid_sq sq ->
  piece_at (after_move b m) sq =
  if sq =? to m then placed b m else if sq =? from m then no_piece else piece_at b sq.
Proof using Hlen Hfrom Hto Hne.
  intros Hk Hq He Hs. unfold piece_at at 1. rewrite after_move_squares. cbv zeta.
  unfold placed, capture_squares, rook_squares. rewrite Hk, Hq, He.
  destruct (is_promotion m); read_squares; unfold piece_at; repeat case_z; congruence.
Qed.

Lemma after_squares_en_passant sq :
  is_kingside_castle m = false -> is_queenside_castle m = false -> is_en_passant m = true ->
  is_promotion m = false ->
  let victim := ep_victim (color (piece_at b (from m))) (to m) in
  valid_sq victim -> victim <> to m ->
  valid_sq sq ->
  piece_at (after_move b m) sq =
  if sq =? to m then piece_at b (from m) else
  if (sq =? from m) || (sq =? victim) then no_piece else piece_at b sq.
Proof using Hlen Hfrom Hto Hne.
  intros Hk Hq He Hp victim Hv Hvt Hs. unfold piece_at at 1. rewrite after_move_squares. cbv zeta.
  unfold capture_squares, rook_squares. rewrite Hk, Hq, He, Hp. fold victim.
  read_squares. unfold piece_at. repeat case_z; cbn [orb]; congruence.
Qed.
End Squares.

(** The flags of a castling move select the rook's hop of its row. *)
Lemma rook_squares_row row l :
  In row castle_table ->
  rook_squares (flag_move (king_from row) (king_to row) (row_flag row)) l =
  hop l (rook_from row) (rook_to row).
Proof. intros H. cbn in H. by destruct H as [<-|[<-|[<-|[<-|[]]]]]. Qed.

Lemma row_flags row f t :
  In row castle_table ->
  is_promotion (flag_move f t (row_flag row)) = false /\
  is_en_passant (flag_move f t (row_flag row)) = false /\
  is_double_pawn_push (flag_move f t (row_flag row)) = false.
Proof. intros H. cbn in H. by destruct H as [<-|[<-|[<-|[<-|[]]]]]. Qed.

Lemma after_squares_castle b row sq :
  length (squares_ b) = 64%nat -> In row castle_table -> valid_sq sq ->
  piece_at (after_move b (flag_move (king_from row) (king_to row) (row_flag row))) sq =
  if sq =? king_to row then piece_at b (king_from row) else
  if sq =? rook_to row then piece_at b (rook_from row) else
  if (sq =? king_from row) || (sq =? rook_from row) then no_piece else piece_at b sq.
Proof.
  intros Hlen Hin Hs. destruct (castle_row_facts row Hin) as [(? & ? & ? & ?) ? ? [? ?] [? ?] ?].
  unfold piece_at at 1. rewrite after_move_squares. cbv zeta.
  destruct (row_flags row (king_from row) (king_to row) Hin) as (Hp & He & _).
  unfold capture_squares. rewrite Hp, He, rook_squares_row by done. cbn [from to flag_move].
  unfold hop. read_squares. unfold piece_at. repeat case_z; cbn [orb]; congruence.
Qed.

(** ** Undoing *)

Definition undo_squares (m : Move) (side : Color.t) (cap : Piece) (l : list Piece) : list Piece :=
  let moving := if is_promotion m then mkPiece PieceType.PAWN side else get_sq l (to m) in
  let l := set_sq (set_sq l (from m) moving) (to m) no_piece in
  let l := if is_en_passant m then set_sq l (ep_victim side (to m)) cap else set_sq l (to m) cap in
  undo_castling_rook m l.

Lemma undo_move_unfold b m :
  side_to_move_ b <> Color.NONE ->
  undo_move (after_move b m) m (snd (make_move b m)) =
  mkBoard (undo_squares m (side_to_move_ b) (captured_piece b m) (squares_ (after_move b m)))
    (side_to_move_ b) (castling_rights_ b) (en_passant_sq_ b) (halfmove_clock_ b)
    (fullmove_number_ b) (zobrist_key_ b).
Proof.
  intros Hside. rewrite make_move_undo. unfold undo_move. cbn [captured undo_castling_rights
    undo_en_passant_sq undo_halfmove_clock undo_zobrist_key].
  rewrite after_move_side, opposite_color_involutive, after_move_fullmove by done.
  f_equal. case_bool_decide; lia.
Qed.

Lemma length_undo_squares m c cap l : length (undo_squares m c cap l) = length l.
Proof.
  unfold undo_squares, undo_castling_rook. cbv zeta.
  destruct (is_kingside_castle m), (is_queenside_castle m), (is_en_passant m);
    by rewrite ?length_set_sq.
Qed.

Lemma undo_castling_rook_row row l :
  In row castle_table ->
  undo_castling_rook (flag_move (king_from row) (king_to row) (row_flag row)) l =
  hop l (rook_to row) (rook_from row).
Proof. intros H. cbn in H. by destruct H as [<-|[<-|[<-|[<-|[]]]]]. Qed.

Lemma undo_squares_plain b m sq :
  length (squares_ b) = 64%nat -> valid_sq (from m) -> valid_sq (to m) -> from m <> to m ->
  is_kingside_castle m = false -> is_queenside_castle m = false -> is_en_passant m = false ->
  (is_promotion m = true -> piece_at b (from m) = mkPiece PieceType.PAWN (side_to_move_ b)) ->
  valid_sq sq ->
  get_sq (undo_squares m (side_to_move_ b) (captured_piece b m) (squares_ (after_move b m))) sq =
  piece_at b sq.
Proof.
  intros Hlen Hf Ht Hne Hk Hq He Hp Hs. pose proof (length_after_move b m) as Hl. rewrite Hlen in Hl.
  unfold undo_squares, undo_castling_rook, captured_piece. rewrite Hk, Hq, He. read_squares.
  fold (piece_at (after_move b m) sq) (piece_at (after_move b m) (to m)).
  rewrite !after_squares_plain, Z.eqb_refl by done. unfold placed.
  repeat case_z; subst; try done. destruct (is_promotion m); [|done]. by rewrite Hp.
Qed.

Lemma undo_squares_en_passant b m sq :
  length (squares_ b) = 64%nat -> valid_sq (from m) -> valid_sq (to m) -> from m <> to m ->
  is_kingside_castle m = false -> is_queenside_castle m = false -> is_en_passant m = true ->
  is_promotion m = false -> color (piece_at b (from m)) = side_to_move_ b ->
  empty_at b (to m) -> piece_at b (to m) = no_piece ->
  let victim := ep_victim (side_to_move_ b) (to m) in
  valid_sq victim -> victim <> to m -> victim <> from m ->
  valid_sq sq ->
  get_sq (undo_squares m (side_to_move_ b) (captured_piece b m) (squares_ (after_move b m))) sq =
  piece_at b sq.
Proof.
  intros Hlen Hf Ht Hne Hk Hq He Hp Hown Hemp Htn victim Hv Hvt Hvf Hs.
  pose proof (length_after_move b m) as Hl. rewrite Hlen in Hl.
  unfold undo_squares, undo_castling_rook, captured_piece, rook_squares.
  rewrite Hk, Hq, He, Hp, Hown. fold victim. read_squares.
  fold (piece_at (after_move b m) sq) (piece_at (after_move b m) (to m)) (piece_at b victim).
  rewrite !after_squares_en_passant by (rewrite ?Hown; done). rewrite Hown, Z.eqb_refl. fold victim.
  repeat case_z; subst; cbn [orb]; congruence.
Qed.

Lemma undo_squares_castle b row sq :
  length (squares_ b) = 64%nat -> In row castle_table -> valid_sq sq ->
  piece_at b (king_to row) = no_piece -> piece_at b (rook_to row) = no_piece ->
  let m := flag_move (king_from row) (king_to row) (row_flag row) in
  get_sq (undo_squares m (side_to_move_ b) (captured_piece b m) (squares_ (after_move b m))) sq =
  piece_at b sq.
Proof.
  intros Hlen Hin Hs Hkt Hrt m. pose proof (length_after_move b m) as Hl. rewrite Hlen in Hl.
  destruct (castle_row_facts row Hin) as [(? & ? & ? & ?) ? ? [? ?] [? ?] ?].
  destruct (row_flags row (king_from row) (king_to row) Hin) as (Hp & He & _). fold m in Hp, He.
  unfold undo_squares, captured_piece. rewrite Hp, He. unfold m at 1.
  rewrite undo_castling_rook_row by done. cbn [from to m flag_move]. unfold hop. read_squares.
  fold (piece_at (after_move b m) sq) (piece_at (after_move b m) (king_to row))
    (piece_at (after_move b m) (rook_to row)). unfold m.
  rewrite !after_squares_castle by done. rewrite ?Z.eqb_refl.
  repeat case_z; subst; cbn [orb]; congruence.
Qed.

Lemma empty_no_piece b s : position_ok b -> valid_sq s -> empty_at b s -> piece_at b s = no_piece.
Proof.
  intros Hok Hs He. pose proof (empty_color b s Hok Hs He) as Hc. apply is_none_true in He.
  destruct (piece_at b s). cbn in *. by subst.
Qed.

Lemma piece_eq p t c : type p = t -> color p = c -> p = mkPiece t c.
Proof. by destruct p; cbn; intros -> ->. Qed.

(** The facts of an en-passant capture of a well-formed position. *)
Lemma en_passant_facts b s t :
  position_ok b -> valid_sq s -> valid_sq t -> pawn_takes (side_to_move_ b) s t ->
  t = en_passant_sq_ b ->
  let victim := ep_victim (side_to_move_ b) t in
  valid_sq victim /\ victim <> t /\ victim <> s /\ empty_at b t /\
  piece_at b victim = mkPiece PieceType.PAWN (opposite_color (side_to_move_ b)) /\
  rank_of t = ep_rank (side_to_move_ b).
Proof.
  intros Hok Hs Ht [Hr Hf] Het victim.
  destruct (ok_ep b Hok) as (_ & Hrank & Hemp & Hvic).
  { rewrite <- Het. unfold valid_sq, NO_SQUARE in *. lia. }
  rewrite <- Het in *. destruct (ep_victim_spec (side_to_move_ b) s t Hs Ht Hr) as (Hv & Hvr & Hvf).
  pose proof (pawn_dir_ne (side_to_move_ b)). fold victim in Hv, Hvr, Hvf, Hvic.
  assert (victim <> t) by (intros E; rewrite E in Hvr; lia).
  assert (victim <> s) by (intros E; rewrite E in Hvf; lia).
  auto 10.
Qed.

(** Making and undoing a pseudo-legal move of a well-formed position gives back
    the very same board, Zobrist key and clocks included. *)
Lemma undo_after_make b m :
  position_ok b -> pseudo_legal b m -> undo_move (after_move b m) m (snd (make_move b m)) = b.
Proof.
  intros Hok Hm. pose proof (ok_len b Hok) as Hlen. pose proof (ok_side b Hok) as Hside.
  destruct (pseudo_facts b m Hok Hm) as [Hf Ht Hne Hown Htgt Hnk Hsh].
  rewrite undo_move_unfold by done.
  enough (undo_squares m (side_to_move_ b) (captured_piece b m) (squares_ (after_move b m)) =
          squares_ b) as -> by by destruct b.
  apply squares_ext; [by rewrite length_undo_squares, length_after_move|done|].
  intros sq Hsq. fold (piece_at b sq). destruct Hsh.
  - by apply undo_squares_plain.
  - apply undo_squares_plain; try done. intros _. by apply piece_eq.
  - by apply undo_squares_plain.
  - cbn [from to flag_move] in *.
    destruct (en_passant_facts b s t) as (? & ? & ? & ? & _); try done.
    apply undo_squares_en_passant; try done. by apply empty_no_piece.
  - cbn [from to flag_move] in *. destruct (castle_row_facts row) as [(? & ? & ? & ?) ? ? ? ? ?]; [done|].
    by apply undo_squares_castle; try done; apply empty_no_piece.
Qed.
