(* ===== verification/Hashing.v ===== *)
(** * Incremental Zobrist hashing agrees with hashing from scratch

    [make_move] updates the stored key by a chain of exclusive-ors; for every
    pseudo-legal move of a well-formed position the result is [compute_hash] of
    the new board. *)
From S2P Require Import Prelude Types BoardState Zobrist Board MoveGen Rules Position MakeMove.

(** ** The key after a move, as one exclusive-or of its parts *)

Definition rook_key (m : Move) (c : Color.t) : Z :=
  let rank := rank_of (from m) in
  let hop_key f t := piece_key c PieceType.ROOK (make_square rank f) ^^
                     piece_key c PieceType.ROOK (make_square rank t) in
  if is_kingside_castle m then hop_key 7 5 else if is_queenside_castle m then hop_key 0 3 else 0.

Definition capture_key (b : Board) (m : Move) : Z :=
  let cap := captured_piece b m in
  if is_en_passant m
  then piece_key (color cap) (type cap) (ep_victim (color (piece_at b (from m))) (to m))
  else if negb (is_none cap) then piece_key (color cap) (type cap) (to m) else 0.

Definition old_ep_key (b : Board) : Z :=
  if negb (en_passant_sq_ b =? NO_SQUARE) then en_passant_key (file_of (en_passant_sq_ b)) else 0.

Definition new_ep_key (b : Board) (m : Move) : Z :=
  if is_double_pawn_push m
  then en_passant_key (file_of (ep_victim (color (piece_at b (from m))) (to m))) else 0.

Definition rights_key (r : Z) : Z := castling_key (Z.land r CastlingRights.ALL).

Lemma if_xor (c : bool) (k x : Z) : (if c then k ^^ x else k) = k ^^ (if c then x else 0).
Proof. destruct c; by rewrite ?Z.lxor_0_r. Qed.

Lemma move_castling_rook_key m c l key :
  move_castling_rook m c l key = (rook_squares m l, key ^^ rook_key m c).
Proof.
  unfold move_castling_rook, rook_squares, rook_key.
  by destruct (is_kingside_castle m), (is_queenside_castle m); rewrite ?Z.lxor_0_r.
Qed.

(** The key removed by step 2, for a list of squares [l] and a piece [cap] on the
    destination. *)
Definition removed_key (m : Move) (c : Color.t) (cap : Piece) (l : list Piece) : Z :=
  if is_en_passant m
  then piece_key (color (get_sq l (ep_victim c (to m)))) (type (get_sq l (ep_victim c (to m))))
         (ep_victim c (to m))
  else if negb (is_none cap) then piece_key (color cap) (type cap) (to m) else 0.

Lemma remove_captured_key m c cap l key :
  remove_captured m c cap l key =
  (if is_en_passant m then get_sq l (ep_victim c (to m)) else cap,
   capture_squares m c l, key ^^ removed_key m c cap l).
Proof.
  unfold remove_captured, capture_squares, removed_key.
  destruct (is_en_passant m); [done|]. destruct (negb (is_none cap)); by rewrite ?Z.lxor_0_r.
Qed.

Lemma removed_key_capture b m :
  removed_key m (color (piece_at b (from m))) (piece_at b (to m)) (rook_squares m (squares_ b)) =
  capture_key b m.
Proof. unfold removed_key, capture_key, captured_piece. by destruct (is_en_passant m). Qed.

Lemma after_move_key b m :
  zobrist_key_ (after_move b m) =
  zobrist_key_ b
  ^^ (piece_key (color (piece_at b (from m))) (type (piece_at b (from m))) (from m)
      ^^ rook_key m (color (piece_at b (from m))) ^^ capture_key b m
      ^^ piece_key (color (placed b m)) (type (placed b m)) (to m))
  ^^ old_ep_key b ^^ new_ep_key b m
  ^^ (rights_key (castling_rights_ b) ^^ rights_key (castling_rights_ (after_move b m)))
  ^^ side_key.
Proof.
  rewrite after_move_rights. unfold after_move, make_move.
  rewrite move_castling_rook_key, remove_captured_key. cbv zeta.
  fold (piece_at b (from m)) (piece_at b (to m)). rewrite removed_key_capture.
  unfold placed, old_ep_key, new_ep_key, rights_key.
  destruct (is_promotion m), (is_double_pawn_push m); cbn [fst zobrist_key_ color type];
    fold (ep_victim (color (piece_at b (from m))) (to m)); rewrite !if_xor; xor_solve.
Qed.

(** ** The parts of the hash of the new board *)

Lemma side_hash_opposite c :
  c <> Color.NONE -> side_hash (opposite_color c) = side_hash c ^^ side_key.
Proof. destruct c; [| |done]; intros _; unfold side_hash; cbn; by rewrite ?Z.lxor_0_l, ?Z.lxor_nilpotent. Qed.

Lemma ep_hash_valid sq : valid_sq sq -> ep_hash sq = en_passant_key (file_of sq).
Proof.
  intros Hs. unfold ep_hash. rewrite (proj2 (is_valid_square_true sq) Hs).
  rewrite (proj2 (Z.eqb_neq sq NO_SQUARE)) by (unfold valid_sq, NO_SQUARE in *; lia).
  apply square_on_board in Hs as [_ Hf]. cbn.
  by rewrite (proj2 (Z.leb_le _ _)), (proj2 (Z.ltb_lt _ _)) by lia.
Qed.

Lemma old_ep_hash b : position_ok b -> ep_hash (en_passant_sq_ b) = old_ep_key b.
Proof.
  intros Hok. unfold old_ep_key. destruct (Z.eqb_spec (en_passant_sq_ b) NO_SQUARE) as [->|Hne]; [done|].
  destruct (ok_ep b Hok Hne) as [Hv _]. by apply ep_hash_valid.
Qed.

Lemma new_ep_hash b m :
  move_facts b m -> ep_hash (en_passant_sq_ (after_move b m)) = new_ep_key b m.
Proof.
  intros [Hf Ht Hne Hown _ _ Hsh]. rewrite after_move_ep. unfold new_ep_key.
  destruct Hsh; try done.
  - cbn [from to flag_move] in *. change (is_double_pawn_push _) with true. cbn.
    rewrite Hown. by apply ep_hash_valid.
  - cbn [from to flag_move] in *.
    by destruct (row_flags row (king_from row) (king_to row)) as (_ & _ & ->).
Qed.

Lemma square_hash_ok p sq :
  piece_ok p -> square_hash p sq = if is_none p then 0 else piece_key (color p) (type p) sq.
Proof. destruct p as [[] []]; unfold piece_ok; cbn; intuition discriminate. Qed.

Lemma own_square_hash b s sq :
  position_ok b -> valid_sq s -> color (piece_at b s) = side_to_move_ b ->
  square_hash (piece_at b s) sq = piece_key (color (piece_at b s)) (type (piece_at b s)) sq.
Proof.
  intros Hok Hs Hown. pose proof (ok_pieces b Hok s Hs) as Hp. rewrite square_hash_ok by done.
  destruct (is_none (piece_at b s)) eqn:E; [|done]. apply is_none_true in E.
  apply Hp in E. by destruct (ok_side b Hok); congruence.
Qed.

(** Overwriting a list of squares one by one, each a set of valid squares. *)
Ltac hash_sets :=
  repeat rewrite hash_set_sq by sq_side;
  rewrite ?get_set_sq by sq_side;
  rewrite ?Z.eqb_refl, ?square_hash_none, ?Z.lxor_0_r.

Lemma hash_after_plain b m :
  position_ok b -> move_facts b m ->
  is_kingside_castle m = false -> is_queenside_castle m = false -> is_en_passant m = false ->
  (is_promotion m = true -> In (promo_type m) promo_pieces) ->
  hash_squares (squares_ (after_move b m)) =
  hash_squares (squares_ b)
  ^^ (piece_key (color (piece_at b (from m))) (type (piece_at b (from m))) (from m)
      ^^ rook_key m (color (piece_at b (from m))) ^^ capture_key b m
      ^^ piece_key (color (placed b m)) (type (placed b m)) (to m)).
Proof.
  intros Hok [Hf Ht Hne Hown _ _ _] Hk Hq He Hpr. pose proof (ok_len b Hok) as Hlen.
  rewrite after_move_squares. cbv zeta.
  unfold rook_key, capture_key, captured_piece, placed, capture_squares, rook_squares.
  rewrite Hk, Hq, He. set (mv := piece_at b (from m)) in *.
  assert (forall sq, square_hash mv sq = piece_key (color mv) (type mv) sq) as Hmv
    by (intros; by apply own_square_hash).
  assert ((from m =? to m) = false) as Hn1 by by apply Z.eqb_neq.
  assert ((to m =? from m) = false) as Hn2 by by apply Z.eqb_neq.
  assert (square_hash (piece_at b (to m)) (to m) =
          if negb (is_none (piece_at b (to m)))
          then piece_key (color (piece_at b (to m))) (type (piece_at b (to m))) (to m) else 0) as Hcap.
  { rewrite square_hash_ok by by apply (ok_pieces b Hok). by destruct (is_none _). }
  rewrite <- Hcap.
  destruct (is_promotion m); hash_sets; rewrite ?Hn1, ?Hn2; fold (piece_at b (to m)) mv;
    rewrite !Hmv; cbn [color type].
  - rewrite square_hash_piece.
    + xor_solve.
    + intros E. rewrite E in Hpr. specialize (Hpr eq_refl). cbn in Hpr. intuition discriminate.
    + rewrite Hown. apply (ok_side b Hok).
  - xor_solve.
Qed.

Lemma hash_after_en_passant b m :
  position_ok b -> move_facts b m ->
  is_kingside_castle m = false -> is_queenside_castle m = false -> is_en_passant m = true ->
  is_promotion m = false -> empty_at b (to m) ->
  let victim := ep_victim (side_to_move_ b) (to m) in
  valid_sq victim -> victim <> to m -> victim <> from m ->
  piece_at b victim = mkPiece PieceType.PAWN (opposite_color (side_to_move_ b)) ->
  hash_squares (squares_ (after_move b m)) =
  hash_squares (squares_ b)
  ^^ (piece_key (color (piece_at b (from m))) (type (piece_at b (from m))) (from m)
      ^^ rook_key m (color (piece_at b (from m))) ^^ capture_key b m
      ^^ piece_key (color (placed b m)) (type (placed b m)) (to m)).
Proof.
  intros Hok [Hf Ht Hne Hown _ _ _] Hk Hq He Hpr Hemp victim Hv Hvt Hvf Hpv.
  pose proof (ok_len b Hok) as Hlen. rewrite after_move_squares. cbv zeta.
  unfold rook_key, capture_key, captured_piece, placed, capture_squares, rook_squares.
  rewrite Hk, Hq, He, Hpr, Hown. fold victim. set (mv := piece_at b (from m)) in *.
  assert (forall sq, square_hash mv sq = piece_key (color mv) (type mv) sq) as Hmv
    by (intros; by apply own_square_hash).
  hash_sets. rewrite (proj2 (Z.eqb_neq _ _) Hne), (proj2 (Z.eqb_neq (from m) victim)),
    (proj2 (Z.eqb_neq (to m) victim)) by congruence.
  fold (piece_at b victim) (piece_at b (to m)) mv.
  rewrite !Hmv, (empty_no_piece b (to m)), square_hash_none, Hpv by done.
  rewrite square_hash_piece by (try done; by destruct (side_to_move_ b)).
  rewrite Hown. cbn [color type]. xor_solve.
Qed.

(** The rook's part of the key, on the squares of the castling row. *)
Lemma rook_key_row row c :
  In row castle_table ->
  rook_key (flag_move (king_from row) (king_to row) (row_flag row)) c =
  piece_key c PieceType.ROOK (rook_from row) ^^ piece_key c PieceType.ROOK (rook_to row).
Proof. intros H. cbn in H. by destruct H as [<-|[<-|[<-|[<-|[]]]]]. Qed.

Lemma hash_after_castle b row :
  position_ok b -> In row castle_table -> row_color row = side_to_move_ b ->
  has_flag (castling_rights_ b) (row_right row) = true ->
  empty_at b (king_to row) -> empty_at b (rook_to row) ->
  let m := flag_move (king_from row) (king_to row) (row_flag row) in
  hash_squares (squares_ (after_move b m)) =
  hash_squares (squares_ b)
  ^^ (piece_key (color (piece_at b (from m))) (type (piece_at b (from m))) (from m)
      ^^ rook_key m (color (piece_at b (from m))) ^^ capture_key b m
      ^^ piece_key (color (placed b m)) (type (placed b m)) (to m)).
Proof.
  intros Hok Hin Hc Hr Hkt Hrt m. pose proof (ok_len b Hok) as Hlen.
  destruct (castle_row_facts row Hin) as [(? & ? & ? & ?) ? ? [? ?] [? ?] Hcol].
  destruct (row_flags row (king_from row) (king_to row) Hin) as (Hp & He & _). fold m in Hp, He.
  destruct (ok_castle b Hok row Hin Hr) as [Hking Hrook].
  rewrite after_move_squares. cbv zeta.
  unfold capture_key, captured_piece, placed, capture_squares. rewrite He, Hp.
  unfold m. rewrite rook_squares_row, rook_key_row by done. cbn [from to flag_move]. unfold hop.
  hash_sets.
  repeat match goal with |- context [?x =? ?y] =>
    rewrite (proj2 (Z.eqb_neq x y)) by congruence end.
  fold (piece_at b (rook_from row)) (piece_at b (king_from row)) (piece_at b (king_to row))
    (piece_at b (rook_to row)).
  rewrite Hking, Hrook, (empty_no_piece b (king_to row)), (empty_no_piece b (rook_to row)) by done.
  rewrite !square_hash_none, !square_hash_piece by done.
  change (is_none no_piece) with true. cbn [negb color type]. xor_solve.
Qed.

(** The bookkeeping of [hash_after_move], on plain integers. *)
Lemma key_update S D side rights ep ep' rights' k :
  (S ^^ side ^^ rights ^^ ep) ^^ D ^^ ep ^^ ep' ^^ (rights ^^ rights') ^^ k =
  (S ^^ D) ^^ (side ^^ k) ^^ rights' ^^ ep'.
Proof. xor_solve. Qed.

(** How the squares' part of the hash changes, whatever the shape of the move. *)
Lemma hash_squares_after b m :
  position_ok b -> move_facts b m ->
  hash_squares (squares_ (after_move b m)) =
  hash_squares (squares_ b)
  ^^ (piece_key (color (piece_at b (from m))) (type (piece_at b (from m))) (from m)
      ^^ rook_key m (color (piece_at b (from m))) ^^ capture_key b m
      ^^ piece_key (color (placed b m)) (type (placed b m)) (to m)).
Proof.
  intros Hok Hmf. destruct (mf_shape b m Hmf).
  - apply hash_after_plain; [done|done|reflexivity..|discriminate].
  - apply hash_after_plain; [done|done|reflexivity..|]. intros _. assumption.
  - apply hash_after_plain; [done|done|reflexivity..|discriminate].
  - pose proof (mf_from _ _ Hmf) as Hf. pose proof (mf_to _ _ Hmf) as Ht.
    cbn [from to flag_move] in Hf, Ht.
    destruct (en_passant_facts b s t) as (? & ? & ? & ? & ? & _); [assumption..|].
    apply hash_after_en_passant; first [assumption | reflexivity].
  - apply hash_after_castle; assumption.
Qed.

(** The incremental key of [make_move] is the hash of the new board. *)
Lemma hash_after_move b m :
  position_ok b -> hash_ok b -> pseudo_legal b m -> hash_ok (after_move b m).
Proof.
  intros Hok Hh Hm. pose proof (pseudo_facts b m Hok Hm) as Hmf.
  unfold hash_ok. unfold compute_hash at 1.
  rewrite after_move_key, Hh, hash_squares_after, after_move_side by assumption.
  rewrite side_hash_opposite by apply (ok_side b Hok).
  rewrite (new_ep_hash b m Hmf). unfold compute_hash. rewrite (old_ep_hash b Hok).
  apply key_update.
Qed.
