(* ===== verification/Preservation.v ===== *)
(** * Legal moves keep positions well formed *)
From S2P Require Import Prelude Types BoardState Zobrist Board MoveGen Rules Position MakeMove.

(** ** Castling rights *)

Lemma has_flag_testbit r i : 0 <= i -> has_flag r (Z.shiftl 1 i) = Z.testbit r i.
Proof.
  intros Hi. unfold has_flag. rewrite Z.shiftl_1_l.
  destruct (Z.testbit r i) eqn:E.
  - apply negb_true_iff, Z.eqb_neq. intros H0. apply (f_equal (fun z => Z.testbit z i)) in H0.
    by rewrite Z.land_spec, Z.pow2_bits_true, E, Z.bits_0 in H0 by done.
  - apply negb_false_iff, Z.eqb_eq. apply Z.bits_inj'. intros n Hn.
    rewrite Z.land_spec, Z.pow2_bits_eqb, Z.bits_0 by done.
    destruct (Z.eqb_spec i n) as [<-|]; [by rewrite E|by rewrite andb_false_r].
Qed.

Lemma has_flag_clear r mk i :
  0 <= i -> has_flag (clear_bits r mk) (Z.shiftl 1 i) = has_flag r (Z.shiftl 1 i) && negb (Z.testbit mk i).
Proof.
  intros Hi. rewrite !has_flag_testbit by done. unfold clear_bits.
  by rewrite Z.land_spec, Z.lnot_spec.
Qed.

Lemma has_flag_if (c : bool) r mk i :
  0 <= i ->
  has_flag (if c then clear_bits r mk else r) (Z.shiftl 1 i) =
  has_flag r (Z.shiftl 1 i) && negb (c && Z.testbit mk i).
Proof. intros Hi. destruct c; [by rewrite has_flag_clear|by rewrite andb_true_r]. Qed.

(** A right survives only while its king and rook squares are left alone. *)
Lemma rights_after row r f t :
  In row castle_table ->
  has_flag (update_castling_rights r f t) (row_right row) = true ->
  has_flag r (row_right row) = true /\ f <> king_from row /\ f <> rook_from row /\ t <> rook_from row.
Proof.
  intros Hin. unfold update_castling_rights. cbv zeta.
  unfold castle_table in Hin. destruct Hin as [<-|[<-|[<-|[<-|[]]]]];
    cbn [row_right king_from rook_from];
    unfold CastlingRights.WHITE_KINGSIDE, CastlingRights.WHITE_QUEENSIDE,
      CastlingRights.BLACK_KINGSIDE, CastlingRights.BLACK_QUEENSIDE;
    rewrite !has_flag_if by lia; rewrite !andb_true_iff; intros H; split_hyps;
    repeat match goal with
    | H : context [Z.testbit ?x ?i] |- _ =>
        let v := eval vm_compute in (Z.testbit x i) in change (Z.testbit x i) with v in H
    end;
    bool_hyps; repeat match goal with
    | H : _ && true = false |- _ => rewrite andb_true_r in H
    | H : _ && false = false |- _ => clear H
    end; bool_hyps; tauto.
Qed.

Lemma clear_bits_range r mk :
  0 <= r < 16 -> In mk [1; 2; 4; 8; 3; 12] -> 0 <= clear_bits r mk < 16.
Proof.
  intros Hr Hmk.
  assert (In r [0;1;2;3;4;5;6;7;8;9;10;11;12;13;14;15]) as Hin.
  { cbn. lia. }
  cbn in Hin, Hmk.
  repeat destruct Hmk as [<-|Hmk]; try contradiction;
  repeat destruct Hin as [<-|Hin]; try contradiction; vm_compute; intuition discriminate.
Qed.

Lemma update_castling_rights_range r f t : 0 <= r < 16 -> 0 <= update_castling_rights r f t < 16.
Proof.
  intros Hr. unfold update_castling_rights. cbv zeta.
  repeat match goal with |- context [if ?c then clear_bits ?x ?k else ?x] =>
    lazymatch x with context [if _ then _ else _] => fail | _ =>
      let y := fresh "y" in
      assert (0 <= (if c then clear_bits x k else x) < 16)
        by (destruct c; [apply clear_bits_range; [assumption|cbn; tauto]|assumption]);
      set (y := if c then clear_bits x k else x) in *; clearbody y
    end end.
  assumption.
Qed.

(** ** Where the pieces of the new board come from *)

Definition is_castle_row (m : Move) (row : CastleRow) : Prop :=
  In row castle_table /\ m = flag_move (king_from row) (king_to row) (row_flag row).

Inductive origin (b : Board) (m : Move) (sq : Z) : Piece -> Prop :=
| or_kept : sq <> from m -> sq <> to m -> origin b m sq (piece_at b sq)
| or_gone : origin b m sq no_piece
| or_placed : sq = to m -> origin b m sq (placed b m)
| or_rook : origin b m sq (mkPiece PieceType.ROOK (side_to_move_ b)).

Lemma placed_castle b row :
  In row castle_table ->
  placed b (flag_move (king_from row) (king_to row) (row_flag row)) = piece_at b (king_from row).
Proof.
  intros H. unfold placed. by destruct (row_flags row (king_from row) (king_to row) H) as (-> & _).
Qed.

Lemma after_origin b m sq :
  position_ok b -> move_facts b m -> valid_sq sq -> origin b m sq (piece_at (after_move b m) sq).
Proof.
  intros Hok Hmf Hs. pose proof (ok_len b Hok) as Hlen. destruct Hmf as [Hf Ht Hne Hown _ _ Hsh].
  destruct Hsh.
  1-3: rewrite after_squares_plain by (assumption || reflexivity);
    repeat case_z; auto using origin.
  - cbn [from to flag_move] in *.
    destruct (en_passant_facts b s t) as (? & ? & ? & ? & ? & _); [assumption..|].
    rewrite after_squares_en_passant
      by first [assumption | reflexivity | cbn [from to flag_move]; rewrite Hown; assumption].
    cbn [from to flag_move]. repeat case_z; cbn [orb]; auto using origin.
  - destruct (ok_castle b Hok row) as [Hking Hrook]; [assumption..|].
    rewrite after_squares_castle by assumption. rewrite H0 in Hrook.
    cbn [from to flag_move] in *.
    repeat case_z; cbn [orb]; auto using origin.
    + rewrite <- placed_castle by assumption. by apply or_placed.
    + rewrite Hrook. apply or_rook.
Qed.

Lemma after_to b m :
  position_ok b -> move_facts b m -> piece_at (after_move b m) (to m) = placed b m.
Proof.
  intros Hok Hmf. pose proof (ok_len b Hok) as Hlen. destruct Hmf as [Hf Ht Hne Hown _ _ Hsh]. destruct Hsh.
  1-3: rewrite after_squares_plain, Z.eqb_refl by (assumption || reflexivity); reflexivity.
  - cbn [from to flag_move] in *.
    destruct (en_passant_facts b s t) as (? & ? & ? & ? & ? & _); [assumption..|].
    rewrite (after_squares_en_passant b (flag_move s t _))
      by first [assumption | reflexivity | cbn [from to flag_move]; rewrite Hown; assumption].
    cbn [from to flag_move]. by rewrite Z.eqb_refl.
  - cbn [from to flag_move] in *. rewrite after_squares_castle, Z.eqb_refl, placed_castle by assumption. done.
Qed.

(** Pieces other than pawns and castling rooks stay where they are unless they
    move or are captured. *)
Lemma after_kept b m sq :
  position_ok b -> move_facts b m ->
  valid_sq sq -> sq <> from m -> sq <> to m -> type (piece_at b sq) <> PieceType.NONE ->
  type (piece_at b sq) <> PieceType.PAWN ->
  (forall row, is_castle_row m row -> sq <> rook_from row) ->
  piece_at (after_move b m) sq = piece_at b sq.
Proof.
  intros Hok Hmf Hs Hnf Hnt Hnn Hnp Hnr. pose proof (ok_len b Hok) as Hlen.
  destruct Hmf as [Hf Ht Hne Hown _ _ Hsh]. apply Z.eqb_neq in Hnf as Ef, Hnt as Et.
  destruct Hsh.
  1-3: rewrite after_squares_plain, Ef, Et by (assumption || reflexivity); reflexivity.
  - cbn [from to flag_move] in *.
    destruct (en_passant_facts b s t) as (? & ? & ? & ? & Hv & _); [assumption..|].
    rewrite (after_squares_en_passant b (flag_move s t _))
      by first [assumption | reflexivity | cbn [from to flag_move]; rewrite Hown; assumption].
    cbn [from to flag_move]. rewrite Ef, Et, Hown. cbn [orb].
    case_z; [|done]. subst sq. by rewrite Hv in Hnp.
  - rewrite after_squares_castle by assumption. cbn [from to flag_move] in *.
    rewrite Ef, Et. cbn [orb]. specialize (Hnr row (conj H eq_refl)).
    apply Z.eqb_neq in Hnr. rewrite Hnr. case_z; [|done].
    subst sq. apply is_none_true in H3. congruence.
Qed.

Lemma placed_color b m :
  position_ok b -> move_facts b m -> color (placed b m) = side_to_move_ b.
Proof. intros Hok Hmf. unfold placed. rewrite <- (mf_own _ _ Hmf). by destruct (is_promotion m). Qed.

Lemma own_not_none b m :
  position_ok b -> move_facts b m -> type (piece_at b (from m)) <> PieceType.NONE.
Proof.
  intros Hok Hmf E. apply (ok_pieces b Hok _ (mf_from _ _ Hmf)) in E.
  rewrite (mf_own _ _ Hmf) in E. by apply (ok_side b Hok).
Qed.

Lemma promotion_shape b m :
  position_ok b -> move_facts b m ->
  is_promotion m = true ->
  type (piece_at b (from m)) = PieceType.PAWN /\ In (promo_type m) promo_pieces.
Proof.
  intros Hok Hmf Hp. destruct (mf_shape _ _ Hmf); try done.
  by destruct (row_flags row (king_from row) (king_to row)) as (Hp' & _); [|rewrite Hp' in Hp].
Qed.

Lemma placed_king b m :
  position_ok b -> move_facts b m -> type (placed b m) = PieceType.KING <-> type (piece_at b (from m)) = PieceType.KING.
Proof.
  intros Hok Hmf. unfold placed. destruct (is_promotion m) eqn:E; [|done].
  destruct (promotion_shape b m Hok Hmf E) as [-> Hin]. cbn [type]. cbn in Hin.
  split; [|done]. intros Hk. rewrite Hk in Hin. intuition discriminate.
Qed.

Lemma placed_not_none b m :
  position_ok b -> move_facts b m -> type (placed b m) <> PieceType.NONE.
Proof.
  intros Hok Hmf. unfold placed. destruct (is_promotion m) eqn:E; [|by apply own_not_none].
  destruct (promotion_shape b m Hok Hmf E) as [_ Hin]. cbn [type]. cbn in Hin.
  intros Hk. rewrite Hk in Hin. intuition discriminate.
Qed.

Lemma placed_pawn b m :
  position_ok b -> move_facts b m -> type (placed b m) = PieceType.PAWN -> 1 <= rank_of (to m) <= 6.
Proof.
  intros Hok Hmf. unfold placed. destruct (is_promotion m) eqn:E.
  { destruct (promotion_shape b m Hok Hmf E) as [_ Hin]. cbn [type]. cbn in Hin.
    intros Hk. rewrite Hk in Hin. intuition discriminate. }
  pose proof (mf_from _ _ Hmf) as Hf. pose proof (mf_to _ _ Hmf) as Ht. intros Hp.
  destruct (mf_shape _ _ Hmf); cbn [from to flag_move quiet_move] in *.
  - by apply H.
  - done.
  - unfold start_rank, pawn_dir in *. destruct (bool_decide _); lia.
  - destruct (en_passant_facts b s t) as (_ & _ & _ & _ & _ & ->); [assumption..|].
    unfold ep_rank. destruct (bool_decide _); lia.
  - destruct (ok_castle b Hok row) as [Hking _]; [assumption..|]. by rewrite Hking in Hp.
Qed.

(** The castling clause of [shape], inverted. *)
Lemma castle_shape b row :
  In row castle_table ->
  shape b (flag_move (king_from row) (king_to row) (row_flag row)) ->
  row_color row = side_to_move_ b /\ has_flag (castling_rights_ b) (row_right row) = true /\
  empty_at b (king_to row) /\ empty_at b (rook_to row).
Proof.
  intros Hin Hsh.
  remember (flag_move (king_from row) (king_to row) (row_flag row)) as m eqn:Em.
  assert (flags m = row_flag row /\ from m = king_from row /\ to m = king_to row) as (Efl & Efr & Eto)
    by by rewrite Em.
  unfold castle_table in Hin. destruct Hsh as [| | | |row' Hin' Hc Hr Hk Hrk].
  1-4: destruct Hin as [<-|[<-|[<-|[<-|[]]]]]; discriminate.
  cbn [flags from to flag_move] in Efl, Efr, Eto.
  unfold castle_table in Hin'.
  destruct Hin as [<-|[<-|[<-|[<-|[]]]]], Hin' as [<-|[<-|[<-|[<-|[]]]]];
    first [discriminate | done].
Qed.

(** ** The invariant, field by field *)

Lemma pieces_after b m sq :
  position_ok b -> move_facts b m -> valid_sq sq -> piece_ok (piece_at (after_move b m) sq).
Proof.
  intros Hok Hmf Hs. destruct (after_origin b m sq Hok Hmf Hs).
  - by apply (ok_pieces b Hok).
  - done.
  - unfold piece_ok. rewrite placed_color by done. pose proof (placed_not_none b m Hok Hmf).
    pose proof (ok_side b Hok). tauto.
  - unfold piece_ok. cbn. pose proof (ok_side b Hok). intuition discriminate.
Qed.

Lemma pawns_after b m sq :
  position_ok b -> move_facts b m -> valid_sq sq ->
  type (piece_at (after_move b m) sq) = PieceType.PAWN -> 1 <= rank_of sq <= 6.
Proof.
  intros Hok Hmf Hs. destruct (after_origin b m sq Hok Hmf Hs); try done.
  - by apply (ok_pawns b Hok).
  - subst sq. by apply placed_pawn.
Qed.

(** The square of each king after the move. *)
Definition king_after (m : Move) (k : Z) : Z := if k =? from m then to m else k.

Lemma king_at_after b m c k :
  position_ok b -> move_facts b m -> c <> Color.NONE -> king_at b c k ->
  king_at (after_move b m) c (king_after m k).
Proof.
  intros Hok Hmf Hc [Hkv Hk]. pose proof (mf_from _ _ Hmf) as Hf. pose proof (mf_to _ _ Hmf) as Ht.
  pose proof (proj2 (Hk k Hkv) eq_refl) as Hkk.
  assert (placed b m = mkPiece PieceType.KING c -> k = from m) as Hpl.
  { intros E. symmetry. apply Hk; [done|]. apply piece_eq.
    - apply placed_king; [done..|]. by rewrite E.
    - rewrite (mf_own _ _ Hmf). by rewrite <- (placed_color b m), E. }
  unfold king_after. case_z; (split; [done|]); intros sq Hs; split.
  - destruct (after_origin b m sq Hok Hmf Hs); try done. intros E%Hk; [congruence|done].
  - intros ->. rewrite after_to by done. subst k. apply piece_eq.
    + apply placed_king; [done..|]. by rewrite Hkk.
    + rewrite placed_color, <- (mf_own _ _ Hmf) by done. by rewrite Hkk.
  - destruct (after_origin b m sq Hok Hmf Hs); try done; [by apply Hk|]. by intros ->%Hpl.
  - intros ->. rewrite after_kept; rewrite ?Hkk; try done.
    + intros ->. by apply (mf_no_king _ _ Hmf); rewrite Hkk.
    + intros row [Hin ->] E. cbn [from flag_move] in *. pose proof (mf_shape _ _ Hmf) as Hsh.
      apply castle_shape in Hsh; [|done]. destruct Hsh as (Hcol & Hr & _).
      destruct (ok_castle b Hok row Hin Hr) as [_ Hrook]. congruence.
Qed.

(** Two rows of the table that share the king's square share the colour. *)
Lemma rows_disjoint row row' :
  In row castle_table -> In row' castle_table ->
  king_from row' <> king_from row ->
  king_from row' <> rook_from row /\ rook_from row' <> rook_from row.
Proof.
  intros Hin Hin'. unfold castle_table in Hin, Hin'.
  destruct Hin as [<-|[<-|[<-|[<-|[]]]]], Hin' as [<-|[<-|[<-|[<-|[]]]]]; cbn; by vm_compute.
Qed.

Lemma king_ne_rook row row' :
  In row castle_table -> In row' castle_table -> king_from row' <> rook_from row.
Proof.
  intros Hin Hin'. unfold castle_table in Hin, Hin'.
  destruct Hin as [<-|[<-|[<-|[<-|[]]]]], Hin' as [<-|[<-|[<-|[<-|[]]]]]; by vm_compute.
Qed.

Lemma castle_after b m row :
  position_ok b -> move_facts b m -> In row castle_table ->
  has_flag (castling_rights_ (after_move b m)) (row_right row) = true ->
  piece_at (after_move b m) (king_from row) = mkPiece PieceType.KING (row_color row) /\
  piece_at (after_move b m) (rook_from row) = mkPiece PieceType.ROOK (row_color row).
Proof.
  intros Hok Hmf Hin Hr. rewrite after_move_rights in Hr.
  apply rights_after in Hr as (Hr & Hfk & Hfr & Htr); [|done].
  destruct (ok_castle b Hok row Hin Hr) as [Hking Hrook].
  destruct (castle_row_facts row Hin) as [(? & ? & ? & ?) _ _ _ _ _].
  assert (king_from row <> to m) as Hkt.
  { intros E. pose proof (mf_no_king _ _ Hmf) as Hnk. by rewrite <- E, Hking in Hnk. }
  rewrite !after_kept; rewrite ?Hking, ?Hrook; try done; try congruence.
  - intros row' [Hin' ->]. cbn [from flag_move] in *.
    apply (rows_disjoint row' row); [done..|congruence].
  - intros row' [Hin' ->]. by apply king_ne_rook.
Qed.

Lemma behind_opposite c : c <> Color.NONE -> behind (opposite_color c) = - behind c.
Proof. by destruct c. Qed.

Lemma ep_after b m :
  position_ok b -> move_facts b m -> en_passant_sq_ (after_move b m) <> NO_SQUARE ->
  let ep := en_passant_sq_ (after_move b m) in
  let side := opposite_color (side_to_move_ b) in
  valid_sq ep /\ rank_of ep = ep_rank side /\ empty_at (after_move b m) ep /\
  piece_at (after_move b m) (ep_victim side ep) = mkPiece PieceType.PAWN (side_to_move_ b).
Proof.
  intros Hok Hmf. rewrite after_move_ep. destruct (is_double_pawn_push m) eqn:Ed; [|done].
  intros _. rewrite (mf_own _ _ Hmf). pose proof (ok_side b Hok) as Hside.
  pose proof (ok_len b Hok) as Hlen. pose proof (after_to b m Hok Hmf) as Hto.
  destruct Hmf as [Hf Ht Hne Hown _ _ Hsh].
  destruct Hsh as [| |s t Hp Het Hem Hv Hvs Hrt|s t|row Hin]; try done.
  2: { by destruct (row_flags row (king_from row) (king_to row) Hin) as (_ & _ & Hd); rewrite Hd in Ed. }
  cbn [from to flag_move] in *. set (c := side_to_move_ b) in *. set (v := ep_victim c t) in *.
  pose proof (square_on_board t Ht) as Hbt.
  assert (rank_of v = rank_of t + behind c /\ file_of v = file_of t) as [Hvr Hvf].
  { unfold v, ep_victim. rewrite rank_make_square, file_make_square; [done|..];
      rewrite behind_dir, Hrt; unfold on_board, start_rank, pawn_dir in *;
      destruct (bool_decide _); lia. }
  assert (v <> t) as Hvt.
  { intros E. rewrite E, behind_dir in Hvr. pose proof (pawn_dir_ne c). lia. }
  split; [done|]. split.
  { rewrite Hvr, behind_dir, Hrt. destruct c; [done|done|done]. }
  split.
  - unfold empty_at. rewrite after_squares_plain by (assumption || reflexivity).
    apply Z.eqb_neq in Hvt, Hvs. cbn [from to flag_move]. by rewrite Hvt, Hvs.
  - assert (ep_victim (opposite_color c) v = t) as ->.
    { unfold ep_victim. rewrite Hvr, Hvf.
      replace (rank_of t + behind c + behind (opposite_color c)) with (rank_of t)
        by (rewrite behind_opposite by done; lia). by apply square_coords. }
    rewrite Hto. unfold placed. cbn. by apply piece_eq.
Qed.

(** A pseudo-legal move that does not leave the mover in check preserves the
    whole invariant. *)
Lemma position_after b m :
  position_ok b -> pseudo_legal b m -> is_in_check (after_move b m) (side_to_move_ b) = false ->
  position_ok (after_move b m).
Proof.
  intros Hok Hm Hsafe. pose proof (pseudo_facts b m Hok Hm) as Hmf.
  pose proof (ok_side b Hok) as Hside. split.
  - rewrite length_after_move. apply (ok_len b Hok).
  - rewrite after_move_side. by destruct (side_to_move_ b).
  - intros s Hs. by apply pieces_after.
  - intros c Hc. destruct (ok_king b Hok c Hc) as [k Hk]. exists (king_after m k).
    by apply king_at_after.
  - intros s Hs. by apply pawns_after.
  - rewrite after_move_rights. apply update_castling_rights_range, (ok_rights b Hok).
  - intros row Hin. by apply castle_after.
  - intros Hep. rewrite after_move_side, opposite_color_involutive by done.
    by apply ep_after.
  - destruct (ok_clocks b Hok). rewrite after_move_halfmove, after_move_fullmove.
    destruct (_ || _), (bool_decide _); lia.
  - by rewrite after_move_side, opposite_color_involutive.
Qed.
