(* ===== verification/Legality.v ===== *)
(** * Legal moves, game status, perft

    The make/test/undo loop of [generate_legal_moves] filters the pseudo-legal
    moves; on well-formed positions it decides [legal], the declarative notion.
    Boards reachable in a game stay well formed. *)
From S2P Require Import Prelude Types BoardState Zobrist Board MoveGen Fen Rules Position MakeMove Hashing Preservation.

(** ** The specification *)

(** The king of colour [c] stands attacked. *)
Definition king_attacked (b : Board) (c : Color.t) : Prop :=
  exists k, king_at b c k /\ attacked_by b (opposite_color c) k.

(** A legal move is a pseudo-legal move after which the mover's king is safe. *)
Definition legal (b : Board) (m : Move) : Prop :=
  pseudo_legal b m /\ ~ king_attacked (after_move b m) (side_to_move_ b).

(** Boards reachable by legal play. *)
Inductive reachable (b0 : Board) : Board -> Prop :=
| reach_start : reachable b0 b0
| reach_move b m : reachable b0 b -> In m (generate_legal_moves b) ->
    reachable b0 (after_move b m).

(** The number of legal lines of play of length [depth]. *)
Fixpoint count_lines (b : Board) (depth : nat) : Z :=
  match depth with
  | O => 1
  | S depth => fold_right (fun m n => count_lines (after_move b m) depth + n) 0
                          (generate_legal_moves b)
  end.

(** The invariant of a board during play. *)
Definition game_board (b : Board) : Prop := position_ok b /\ hash_ok b.

(** ** Check *)

Lemma is_in_check_iff b c k :
  c <> Color.NONE -> king_at b c k ->
  is_in_check b c = true <-> attacked_by b (opposite_color c) k.
Proof.
  intros Hc [Hk Hu]. unfold is_in_check.
  rewrite (find_king_some b c k) by (try done; intros; by apply Hu).
  rewrite (proj2 (Z.eqb_neq k NO_SQUARE)) by (unfold valid_sq, NO_SQUARE in *; lia).
  by apply is_square_attacked_iff.
Qed.

Lemma king_at_unique b c k1 k2 : king_at b c k1 -> king_at b c k2 -> k1 = k2.
Proof. intros [H1 U1] [H2 U2]. apply U2; [done|]. by apply U1. Qed.

Lemma king_attacked_iff b c k :
  c <> Color.NONE -> king_at b c k -> is_in_check b c = true <-> king_attacked b c.
Proof.
  intros Hc Hk. rewrite (is_in_check_iff b c k) by done. split; [by exists k|].
  intros (k' & Hk' & Ha). by rewrite (king_at_unique _ _ _ _ Hk Hk').
Qed.

(** ** The loop *)

Definition leaves_king_safe (b : Board) (m : Move) : bool :=
  negb (is_in_check (after_move b m) (side_to_move_ b)).

Lemma legal_loop b ms acc :
  position_ok b -> (forall m, In m ms -> pseudo_legal b m) ->
  fold_left (legal_loop_body (side_to_move_ b)) ms (b, acc) =
  (b, acc ++ List.filter (leaves_king_safe b) ms).
Proof.
  intros Hok. revert acc. induction ms as [|m ms IH]; intros acc Hms; cbn [fold_left List.filter].
  { by rewrite app_nil_r. }
  assert (legal_loop_body (side_to_move_ b) (b, acc) m =
          (b, if leaves_king_safe b m then acc ++ [m] else acc)) as ->.
  { unfold legal_loop_body. pose proof (undo_after_make b m Hok (Hms m (or_introl eq_refl))) as Hu.
    unfold leaves_king_safe, after_move in *. destruct (make_move b m) as [b' u]. cbn in *. by rewrite Hu. }
  rewrite IH by (intros; apply Hms; by right).
  destruct (leaves_king_safe b m); [|done]. by rewrite <- app_assoc.
Qed.

(** The legal moves are the safe pseudo-legal moves, in generation order. *)
Lemma generate_legal_moves_filter b :
  position_ok b ->
  generate_legal_moves b = List.filter (leaves_king_safe b) (generate_pseudo_legal_moves b).
Proof.
  intros Hok. unfold generate_legal_moves. rewrite legal_loop; [done..|].
  intros m Hm. apply in_generate_pseudo_legal; [by apply ok_side|done].
Qed.

Lemma in_generate_legal b m :
  position_ok b ->
  In m (generate_legal_moves b) <->
  pseudo_legal b m /\ is_in_check (after_move b m) (side_to_move_ b) = false.
Proof.
  intros Hok. rewrite generate_legal_moves_filter, filter_In, in_generate_pseudo_legal
    by (done || by apply ok_side).
  unfold leaves_king_safe. by rewrite negb_true_iff.
Qed.

Lemma after_king_attacked b m :
  position_ok b -> pseudo_legal b m ->
  is_in_check (after_move b m) (side_to_move_ b) = true <->
  king_attacked (after_move b m) (side_to_move_ b).
Proof.
  intros Hok Hm. pose proof (ok_side b Hok) as Hside.
  destruct (ok_king b Hok _ Hside) as [k Hk].
  apply (king_attacked_iff _ _ (king_after m k)); [done|].
  apply king_at_after; try done. by apply pseudo_facts.
Qed.

Lemma legal_spec b m : position_ok b -> In m (generate_legal_moves b) <-> legal b m.
Proof.
  intros Hok. rewrite in_generate_legal by done. unfold legal. split; intros [Hp Hs]; (split; [done|]).
  - rewrite <- after_king_attacked by done. by rewrite Hs.
  - apply not_true_iff_false. by rewrite after_king_attacked.
Qed.

Lemma game_board_after b m :
  game_board b -> In m (generate_legal_moves b) -> game_board (after_move b m).
Proof.
  intros [Hok Hh] Hm. apply in_generate_legal in Hm as [Hp Hs]; [|done].
  split; [by apply position_after|by apply hash_after_move].
Qed.

Lemma reachable_game_board b0 b : game_board b0 -> reachable b0 b -> game_board b.
Proof. intros H0. induction 1; [done|]. by apply game_board_after. Qed.

Lemma undo_legal b m :
  position_ok b -> In m (generate_legal_moves b) ->
  undo_move (after_move b m) m (snd (make_move b m)) = b.
Proof. intros Hok Hm. apply undo_after_make; [done|]. by apply in_generate_legal in Hm as [? _]. Qed.

(** ** How many moves a position can have *)

Lemma length_flat_map_le {A B} (f : A -> list B) l n :
  (forall x, In x l -> (length (f x) <= n)%nat) -> (length (flat_map f l) <= n * length l)%nat.
Proof.
  intros H. induction l as [|x l IH]; [cbn; lia|]. cbn [flat_map length]. rewrite length_app.
  pose proof (H x (or_introl eq_refl)). assert (length (flat_map f l) <= n * length l)%nat by
    (apply IH; intros; apply H; by right). lia.
Qed.

Lemma length_ray_moves fuel b s c nr nf dr df : (length (ray_moves fuel b s c nr nf dr df) <= fuel)%nat.
Proof.
  revert nr nf. induction fuel as [|fuel IH]; intros nr nf; cbn [ray_moves]; [done|].
  destruct (in_bounds _ _); [|cbn; lia]. destruct (is_none _); [cbn [length]; specialize (IH (nr + dr) (nf + df)); lia|].
  destruct (negb _); cbn; lia.
Qed.

Lemma length_step_moves b s c tgts : (length (step_moves b s c tgts) <= length tgts)%nat.
Proof.
  unfold step_moves. rewrite <- (Nat.mul_1_l (length tgts)). apply length_flat_map_le.
  intros x _. destruct (_ || _); cbn; lia.
Qed.

Lemma length_targets offs s : (length (targets offs s) <= length offs)%nat.
Proof.
  unfold targets. rewrite <- (Nat.mul_1_l (length offs)). apply length_flat_map_le.
  intros x _. destruct (in_bounds _ _); cbn; lia.
Qed.

Lemma length_add_pawn_move s c t fl : (length (add_pawn_move s c t fl) <= 4)%nat.
Proof. unfold add_pawn_move. destruct (_ =? _); cbn; lia. Qed.

Lemma length_castling_moves b c : (length (castling_moves b c) <= 2)%nat.
Proof.
  assert (forall o r e s m, (length (castling_clause b o r e s m) <= 1)%nat) as H.
  { intros. unfold castling_clause. destruct (_ && _); [|cbn; lia]. destruct (forallb _ _); cbn; lia. }
  unfold castling_moves. destruct (bool_decide _); rewrite length_app;
    (match goal with |- (length ?x + length ?y <= 2)%nat =>
       assert (length x <= 1)%nat by apply H; assert (length y <= 1)%nat by apply H end); lia.
Qed.

Lemma length_pawn_pushes b s c : (length (pawn_pushes b s c) <= 5)%nat.
Proof.
  unfold pawn_pushes. destruct (_ && _); [|cbn; lia]. destruct (is_none _); [|cbn; lia].
  rewrite length_app.
  assert (forall (p q : bool) m, length (if p then if q then [m] else [] else [] : list Move) <= 1)%nat as H1
    by (intros [] []; cbn; lia).
  etransitivity; [apply Nat.add_le_mono; [apply length_add_pawn_move|apply H1]|]. lia.
Qed.

Lemma length_generate_pawn_moves b s c : (length (generate_pawn_moves b s c) <= 13)%nat.
Proof.
  unfold generate_pawn_moves. rewrite length_app.
  assert (length (flat_map (pawn_captures b s c) [-1; 1]%Z) <= 4 * 2)%nat.
  { apply length_flat_map_le. intros df _.
    unfold pawn_captures. destruct (_ && _); [|cbn; lia].
    destruct (_ && _); [apply length_add_pawn_move|].
    destruct (_ =? _); [apply length_add_pawn_move|cbn; lia]. }
  pose proof (length_pawn_pushes b s c). lia.
Qed.

Lemma length_generate_piece_moves b c s : (length (generate_piece_moves b c s) <= 64)%nat.
Proof.
  unfold generate_piece_moves. destruct (_ || _); [cbn; lia|].
  assert (forall o d, (length (generate_ray_moves b s c o d) <= 64)%nat) as Hray.
  { intros o d. unfold generate_ray_moves. etransitivity.
    - apply (length_flat_map_le _ _ 8). intros [dr df] _. apply length_ray_moves.
    - rewrite length_firstn, length_skipn. cbn. destruct o, d; cbn; lia. }
  destruct (type _); try apply Hray; [| | |cbn; lia].
  - pose proof (length_generate_pawn_moves b s c). lia.
  - unfold generate_knight_moves. etransitivity; [apply length_step_moves|].
    etransitivity; [apply length_targets|]. cbn. lia.
  - unfold generate_king_moves. rewrite length_app.
    pose proof (length_step_moves b s c (king_targets s)). pose proof (length_targets king_offsets s).
    pose proof (length_castling_moves b c). unfold king_targets in *.
    change (length king_offsets) with 8%nat in *. lia.
Qed.

Lemma length_pseudo_legal b : (length (generate_pseudo_legal_moves b) <= 64 * 64)%nat.
Proof.
  unfold generate_pseudo_legal_moves.
  change (64 * 64)%nat with (64 * length all_squares)%nat. apply length_flat_map_le.
  intros s _. apply length_generate_piece_moves.
Qed.

Lemma length_legal b : position_ok b -> (length (generate_legal_moves b) <= 64 * 64)%nat.
Proof.
  intros Hok. rewrite generate_legal_moves_filter by done.
  etransitivity; [|apply length_pseudo_legal]. apply filter_length_le.
Qed.

(** ** Perft *)

Lemma count_lines_one b : count_lines b 1 = Z.of_nat (length (generate_legal_moves b)).
Proof. cbn [count_lines]. induction (generate_legal_moves b) as [|m ms IH]; cbn [fold_right length]; lia. Qed.

Lemma sum_lines_loop (b : Board) (f : Board -> Z) (g : Board -> Z * Board) ms acc :
  (forall m, In m ms -> g (after_move b m) = (wrap64 (f (after_move b m)), after_move b m) /\
                        undo_move (after_move b m) m (snd (make_move b m)) = b) ->
  0 <= acc < 2 ^ 64 ->
  fold_left (fun '(nodes, b) m =>
     let '(b, undo) := make_move b m in
     let '(n, b) := g b in (wrap64 (nodes + n), undo_move b m undo)) ms (acc, b) =
  (wrap64 (acc + fold_right (fun m n => f (after_move b m) + n) 0 ms), b).
Proof.
  revert acc. induction ms as [|m ms IH]; intros acc Hms Hacc; cbn [fold_left fold_right].
  { by rewrite Z.add_0_r, wrap64_id. }
  destruct (Hms m (or_introl eq_refl)) as [Hg Hu]. unfold after_move in Hg, Hu |- *.
  destruct (make_move b m) as [b' u] eqn:E. cbn [fst snd] in *. rewrite Hg, Hu.
  rewrite IH.
  - rewrite wrap64_add, <- Z.add_assoc. f_equal.
    rewrite (Z.add_comm (wrap64 _)), Z.add_assoc, wrap64_add_r. f_equal. unfold after_move. lia.
  - intros m' Hm'. apply Hms. by right.
  - apply Z.mod_pos_bound. lia.
Qed.

Lemma perft_SS b d :
  perft b (S (S d)) =
  fold_left (fun '(nodes, b) m =>
     let '(b, undo) := make_move b m in
     let '(n, b) := perft b (S d) in (wrap64 (nodes + n), undo_move b m undo))
    (generate_legal_moves b) (0, b).
Proof. reflexivity. Qed.

Lemma perft_count b d :
  game_board b -> perft b d = (wrap64 (count_lines b d), b).
Proof.
  destruct d as [|d]; [done|]. revert b. induction d as [|d IH]; intros b Hb.
  { change (perft b 1) with (Z.of_nat (length (generate_legal_moves b)), b).
    rewrite count_lines_one, wrap64_id; [done|].
    pose proof (length_legal b (proj1 Hb)). lia. }
  rewrite perft_SS, (sum_lines_loop b (fun b => count_lines b (S d))).
  - done.
  - intros m Hm. split; [|by apply undo_legal; [apply Hb|]]. by apply IH, game_board_after.
  - lia.
Qed.

(** ** Game status *)

Definition checkmated (b : Board) : Prop :=
  king_attacked b (side_to_move_ b) /\ forall m, ~ legal b m.

Definition stalemated (b : Board) : Prop :=
  ~ king_attacked b (side_to_move_ b) /\ forall m, ~ legal b m.

Lemma side_in_check_iff b :
  position_ok b -> is_in_check b (side_to_move_ b) = true <-> king_attacked b (side_to_move_ b).
Proof.
  intros Hok. pose proof (ok_side b Hok) as Hs. destruct (ok_king b Hok _ Hs) as [k Hk].
  by apply (king_attacked_iff b _ k).
Qed.

Lemma no_legal_iff b :
  position_ok b -> generate_legal_moves b = [] <-> forall m, ~ legal b m.
Proof.
  intros Hok. split.
  - intros E m Hm. apply legal_spec in Hm; [|done]. by rewrite E in Hm.
  - intros H. destruct (generate_legal_moves b) as [|m ms] eqn:E; [done|].
    destruct (H m). apply legal_spec; [done|]. rewrite E. by left.
Qed.

Lemma game_status_cases b :
  position_ok b ->
  match get_game_status b with
  | GameStatus.DRAW_FIFTY_MOVE => 100 <= halfmove_clock_ b
  | GameStatus.CHECKMATE => halfmove_clock_ b < 100 /\ checkmated b
  | GameStatus.STALEMATE => halfmove_clock_ b < 100 /\ stalemated b
  | GameStatus.ONGOING => halfmove_clock_ b < 100 /\ exists m, legal b m
  | _ => False
  end.
Proof.
  intros Hok. unfold get_game_status. destruct (Z.leb_spec 100 (halfmove_clock_ b)); [done|].
  pose proof (no_legal_iff b Hok) as Hn. pose proof (side_in_check_iff b Hok) as Hc.
  pose proof (fun m => legal_spec b m Hok) as Hl.
  destruct (generate_legal_moves b) as [|m ms].
  - destruct (is_in_check b (side_to_move_ b)); split; try done; split; try (by apply Hn).
    + by apply Hc. + by rewrite <- Hc.
  - split; [done|]. exists m. apply Hl. by left.
Qed.

(** ** The starting position *)

Lemma start_board : game_board starting_position.
Proof.
  split; [apply position_okb_sound; by vm_compute|]. unfold hash_ok. by vm_compute.
Qed.

Lemma start_ongoing : get_game_status starting_position = GameStatus.ONGOING.
Proof. by vm_compute. Qed.
