(* ===== verification/FenRoundTrip.v ===== *)
(** * Reading back what [to_fen] writes

    Every field that [Board::to_fen] prints is parsed back by
    [Board::set_from_fen], so exporting and importing a board is the identity. *)
From S2P Require Import Prelude Types BoardState Zobrist Board Fen.

(** The boards that FEN can represent: [int] clocks, whole pieces, known squares. *)
Record encodable (b : Board) : Prop := {
  en_len : length (squares_ b) = 64%nat;
  en_side : side_to_move_ b <> Color.NONE;
  en_pieces : forall s, valid_sq s -> piece_ok (piece_at b s);
  en_rights : 0 <= castling_rights_ b < 16;
  en_ep : en_passant_sq_ b = NO_SQUARE \/ valid_sq (en_passant_sq_ b);
  en_half : 0 <= halfmove_clock_ b <= INT_MAX;
  en_full : 1 <= fullmove_number_ b <= INT_MAX;
  en_hash : hash_ok b
}.

(** ** Words *)

Definition nonspace (c : ascii) : Prop := isspace c = false.

Lemma take_word_app w s :
  List.Forall nonspace w -> take_word (w ++ " "%char :: s) = (w, " "%char :: s).
Proof.
  induction 1 as [|c w Hc _ IH]; [done|]. cbn [take_word app]. unfold nonspace in Hc.
  by rewrite Hc, IH.
Qed.

Lemma skip_ws_nonspace c s : nonspace c -> skip_ws (c :: s) = c :: s.
Proof. unfold nonspace. cbn [skip_ws]. by intros ->. Qed.

Lemma read_word_app w s :
  w <> [] -> List.Forall nonspace w -> read_word (w ++ " "%char :: s) = Some (w, " "%char :: s).
Proof.
  intros Hne Hw. destruct w as [|c w]; [done|]. unfold read_word.
  change ((c :: w) ++ " "%char :: s) with (c :: (w ++ " "%char :: s)).
  rewrite skip_ws_nonspace by by inversion Hw.
  change (c :: (w ++ " "%char :: s)) with ((c :: w) ++ " "%char :: s).
  by rewrite take_word_app.
Qed.

Lemma read_word_space s : read_word (" "%char :: s) = read_word s.
Proof. reflexivity. Qed.

Lemma read_int_space s : read_int (" "%char :: s) = read_int s.
Proof. reflexivity. Qed.

(** ** Decimal numbers *)

Lemma isdigit_char n : 0 <= n < 10 -> isdigit (char_of (48 + n)) = true.
Proof. intros H. unfold isdigit. rewrite char_val_char_of by lia. lia. Qed.

Lemma digit_value n : 0 <= n < 10 -> char_val (char_of (48 + n)) - 48 = n.
Proof. intros H. rewrite char_val_char_of; lia. Qed.

Lemma take_digits_digits fuel n tail :
  0 <= n < 2 ^ Z.of_nat fuel -> fuel <> O ->
  exists k, 0 <= k /\ forall a seen,
    take_digits a seen (digits fuel n tail) = take_digits (a * 10 ^ k + n) true tail.
Proof.
  revert n tail. induction fuel as [|fuel IH]; intros n tail Hn Hf; [done|]. cbn [digits].
  assert (0 <= n mod 10 < 10) as Hm by (apply Z.mod_pos_bound; lia).
  pose proof (Z.div_mod n 10 ltac:(lia)) as Hd.
  destruct (Z.eqb_spec (n / 10) 0) as [E|E].
  - exists 1. split; [lia|]. intros a seen. cbn [take_digits]. rewrite isdigit_char, digit_value by done.
    f_equal. lia.
  - assert (fuel <> O) as Hf' by (intros ->; cbn in Hn; Z.to_euclidean_division_equations; lia).
    assert (0 <= n / 10 < 2 ^ Z.of_nat fuel) as Hn'.
    { rewrite Nat2Z.inj_succ, Z.pow_succ_r in Hn by lia. Z.to_euclidean_division_equations. lia. }
    destruct (IH (n / 10) (char_of (48 + n mod 10) :: tail) Hn' Hf') as (k & Hk & IHk).
    exists (k + 1). split; [lia|]. intros a seen. rewrite IHk. cbn [take_digits].
    rewrite isdigit_char, digit_value by done. f_equal. rewrite Z.pow_add_r by lia. lia.
Qed.

Lemma digits_head fuel n tail :
  0 <= n -> fuel <> O ->
  exists d l, 0 <= d < 10 /\ digits fuel n tail = char_of (48 + d) :: l.
Proof.
  revert n tail. induction fuel as [|fuel IH]; intros n tail Hn Hf; [done|]. cbn [digits].
  assert (0 <= n mod 10 < 10) as Hm by (apply Z.mod_pos_bound; lia).
  destruct (n / 10 =? 0); [by eauto|]. destruct fuel; [by eauto|].
  apply IH; [|done]. apply Z.div_pos; lia.
Qed.

Lemma to_string_eq n : 0 <= n -> to_string n = digits (S (Z.to_nat (Z.log2 n))) n [].
Proof. intros H. unfold to_string. by rewrite (proj2 (Z.ltb_ge n 0)). Qed.

Lemma digits_app fuel n t1 t2 : digits fuel n t1 ++ t2 = digits fuel n (t1 ++ t2).
Proof.
  revert n t1. induction fuel as [|fuel IH]; intros n t1; [done|]. cbn [digits].
  destruct (_ =? _); [done|]. by rewrite IH.
Qed.

Lemma log2_fuel n : 0 <= n -> 0 <= n < 2 ^ Z.of_nat (S (Z.to_nat (Z.log2 n))).
Proof.
  intros H. pose proof (Z.log2_nonneg n). rewrite Nat2Z.inj_succ, Z2Nat.id by done.
  destruct (Z.eqb_spec n 0) as [->|]; [cbn; lia|]. split; [done|]. apply Z.log2_spec. lia.
Qed.

Lemma char_of_digit_sign d :
  0 <= d < 10 -> nonspace (char_of (48 + d)) /\
  char_of (48 + d) <> "-"%char /\ char_of (48 + d) <> "+"%char.
Proof.
  intros H. assert (d = 0 \/ d = 1 \/ d = 2 \/ d = 3 \/ d = 4 \/ d = 5 \/ d = 6 \/ d = 7 \/ d = 8 \/ d = 9)
    as Hd by lia.
  by destruct Hd as [->|[->|[->|[->|[->|[->|[->|[->|[->| ->]]]]]]]]]; vm_compute.
Qed.

(** What may follow a printed number: nothing or a blank. *)
Definition stops (s : str) : Prop := s = [] \/ exists s', s = " "%char :: s'.

Lemma take_digits_stops a seen s : stops s -> take_digits a seen s = (a, seen, s).
Proof. by intros [->|[s' ->]]. Qed.

Lemma read_int_unsigned c s :
  nonspace c -> c <> "-"%char -> c <> "+"%char ->
  read_int (c :: s) =
  let '(n, seen, rest) := take_digits 0 false (c :: s) in
  if (seen : bool) && (- 2 ^ 31 <=? n) && (n <=? INT_MAX) then Some (n, rest) else None.
Proof.
  intros Hs Hm Hp. unfold read_int. rewrite skip_ws_nonspace by done.
  destruct c as [[] [] [] [] [] [] [] []]; reflexivity || congruence.
Qed.

Lemma read_int_to_string n s :
  0 <= n <= INT_MAX -> stops s -> read_int (to_string n ++ s) = Some (n, s).
Proof.
  intros Hn Hs. rewrite to_string_eq, digits_app by lia.
  set (fuel := S (Z.to_nat (Z.log2 n))).
  destruct (take_digits_digits fuel n ([] ++ s) (log2_fuel n ltac:(lia)) ltac:(done)) as (k & Hk & Ht).
  destruct (digits_head fuel n ([] ++ s) ltac:(lia) ltac:(done)) as (d & l & Hd & E).
  destruct (char_of_digit_sign d Hd) as (? & ? & ?).
  rewrite E, read_int_unsigned, <- E, Ht, take_digits_stops by done.
  rewrite Z.mul_0_l, Z.add_0_l. cbn beta iota.
  rewrite (proj2 (Z.leb_le (- 2 ^ 31) n)), (proj2 (Z.leb_le n INT_MAX)) by lia. done.
Qed.

(** ** The other fields *)

Lemma parse_castling_field r :
  0 <= r < 16 ->
  (if bool_decide (castling_field r = lit "-") then (CastlingRights.NONE, true)
   else parse_castling (castling_field r) CastlingRights.NONE) = (r, true) /\
  castling_field r <> [] /\ List.Forall nonspace (castling_field r).
Proof.
  intros H. assert (In r (map Z.of_nat (seq 0 16))) as Hin.
  { rewrite in_map_iff. exists (Z.to_nat r). rewrite in_seq. lia. }
  revert r H Hin. cut (List.Forall (fun r => (if bool_decide (castling_field r = lit "-") then (CastlingRights.NONE, true)
   else parse_castling (castling_field r) CastlingRights.NONE) = (r, true) /\
  castling_field r <> [] /\ List.Forall nonspace (castling_field r)) (map Z.of_nat (seq 0 16))).
  { intros Ha r _ Hin. rewrite List.Forall_forall in Ha. by apply Ha. }
  repeat constructor; vm_compute; (reflexivity || discriminate).
Qed.

Lemma square_to_algebraic_valid sq :
  valid_sq sq -> square_to_algebraic sq = [char_of (97 + file_of sq); char_of (49 + rank_of sq)].
Proof.
  intros H. unfold square_to_algebraic, NUM_SQUARES. by rewrite (proj2 (Z.leb_gt 64 sq)) by apply H.
Qed.

Lemma algebraic_square sq : valid_sq sq -> algebraic_to_square (square_to_algebraic sq) = sq.
Proof.
  intros H. rewrite square_to_algebraic_valid by done. pose proof (square_on_board sq H) as [Hr Hf].
  unfold algebraic_to_square. rewrite !char_val_char_of by lia.
  replace (97 + file_of sq - 97) with (file_of sq) by lia.
  replace (49 + rank_of sq - 49) with (rank_of sq) by lia.
  do 4 (rewrite (proj2 (Z.ltb_ge _ _)) by lia). by apply square_coords.
Qed.

Lemma nonspace_char_of z : 33 <= z < 127 -> nonspace (char_of z).
Proof. intros H. unfold nonspace, isspace. rewrite char_val_char_of by lia. lia. Qed.

Lemma ep_field_spec ep :
  ep = NO_SQUARE \/ valid_sq ep ->
  (if bool_decide (ep_field ep = lit "-") then NO_SQUARE else algebraic_to_square (ep_field ep)) = ep /\
  (ep_field ep <> lit "-" -> ep <> NO_SQUARE) /\
  ep_field ep <> [] /\ List.Forall nonspace (ep_field ep).
Proof.
  intros [->|H].
  - by vm_compute; repeat split; try done; repeat constructor.
  - assert (ep <> NO_SQUARE) as Hne by (unfold valid_sq, NO_SQUARE in *; lia).
    unfold ep_field. rewrite (proj2 (Z.eqb_neq ep NO_SQUARE) Hne).
    pose proof (square_on_board ep H) as [Hr Hf].
    rewrite bool_decide_eq_false_2.
    + rewrite algebraic_square, square_to_algebraic_valid by done. repeat split; try done.
      repeat constructor; apply nonspace_char_of; lia.
    + rewrite square_to_algebraic_valid by done. discriminate.
Qed.

(** ** Piece placement *)

(** The mailbox while rank [r] has been read up to file [g]. *)
Definition filled (b : Board) (r g : Z) (l : list Piece) : Prop :=
  length l = 64%nat /\
  forall sq, valid_sq sq ->
    get_sq l sq = if (r <? rank_of sq) || ((rank_of sq =? r) && (file_of sq <? g))
                  then piece_at b sq else no_piece.

(** The pieces of rank [r] from file [g] on. *)
Definition rank_tail (b : Board) (r : Z) (g : nat) : list Piece :=
  map (fun file => piece_at b (make_square r (Z.of_nat file))) (seq g (8 - g)).

Lemma empty_piece p : piece_ok p -> is_none p = true -> p = no_piece.
Proof.
  unfold piece_ok. rewrite is_none_true. destruct p as [t c]. cbn. intros H ->.
  unfold no_piece. by rewrite (proj1 H).
Qed.

Lemma place_count n s r f l :
  1 <= n <= 8 -> f + n <= 8 -> place (char_of (48 + n) :: s) r f l = place s r (f + n) l.
Proof.
  intros Hn Hf. cbn [place]. rewrite bool_decide_eq_false_2.
  - rewrite isdigit_char, digit_value by lia. by repeat case_z; try lia.
  - intros E. apply (f_equal char_val) in E. rewrite char_val_char_of in E by lia.
    change (char_val "/"%char) with 47 in E. lia.
Qed.

Lemma to_string_digit n : 1 <= n <= 8 -> to_string n = [char_of (48 + n)].
Proof.
  intros Hn. assert (n = 1 \/ n = 2 \/ n = 3 \/ n = 4 \/ n = 5 \/ n = 6 \/ n = 7 \/ n = 8) as Hd by lia.
  by destruct Hd as [->|[->|[->|[->|[->|[->|[->| ->]]]]]]].
Qed.

(** The pending count of empty squares, flushed. *)
Definition flush (e : Z) : list ascii := if 0 <? e then to_string e else [].

Lemma place_flush e s r g l :
  0 <= e <= g -> g <= 8 -> place (flush e ++ s) r (g - e) l = place s r g l.
Proof.
  intros He Hg. unfold flush. destruct (Z.ltb_spec 0 e).
  - rewrite to_string_digit by lia. cbn [app]. rewrite place_count by lia. f_equal. lia.
  - cbn [app]. f_equal. lia.
Qed.

Lemma to_char_facts p :
  piece_ok p -> is_none p = false ->
  to_char p <> "/"%char /\ isdigit (to_char p) = false /\ from_char (to_char p) = p /\ nonspace (to_char p).
Proof.
  rewrite is_none_false. unfold piece_ok. intros H Ht. destruct p as [[] []]; cbn in *;
    try (exfalso; by intuition congruence); by vm_compute.
Qed.

Lemma place_piece p s r f l :
  piece_ok p -> is_none p = false -> on_board r f ->
  place (to_char p :: s) r f l = place s r (f + 1) (set_sq l (make_square r f) p).
Proof.
  intros Hp Hn Hb. destruct (to_char_facts p Hp Hn) as (Hs & Hd & Hf & _).
  cbn [place]. rewrite bool_decide_eq_false_2, Hd, Hf, Hn by done.
  rewrite (proj2 (Z.leb_gt 8 f)) by apply Hb.
  pose proof (make_square_valid r f Hb) as [_ Hv]. apply Z.ltb_lt in Hv. unfold NUM_SQUARES.
  by rewrite Hv.
Qed.

Lemma seq_tail (g : nat) : (g < 8)%nat -> seq g (8 - g) = g :: seq (S g) (8 - S g).
Proof. intros. by replace (8 - g)%nat with (S (8 - S g)) by lia. Qed.

Lemma filled_step b r g l l' :
  filled b r g l -> on_board r g -> length l' = 64%nat ->
  (forall sq, valid_sq sq -> get_sq l' sq =
     if sq =? make_square r g then piece_at b sq else get_sq l sq) ->
  filled b r (g + 1) l'.
Proof.
  intros [Hl Hf] Hb Hl' Hg. split; [done|]. intros sq Hsq. rewrite Hg, Hf by done.
  pose proof (square_on_board sq Hsq) as [? ?].
  destruct (Z.eqb_spec sq (make_square r g)) as [->|Hne].
  - rewrite rank_make_square, file_make_square, Z.eqb_refl by done.
    rewrite (proj2 (Z.ltb_lt g (g + 1))) by lia. cbn. by rewrite orb_true_r.
  - assert (~ (rank_of sq = r /\ file_of sq = g)) as Hn.
    { intros [<- <-]. by rewrite square_coords in Hne. }
    repeat case_z; try done; lia.
Qed.

(** Reading one printed rank. *)
Lemma place_rank b r (g : nat) e s l :
  (forall sq, valid_sq sq -> piece_ok (piece_at b sq)) ->
  0 <= r < 8 -> (g <= 8)%nat -> 0 <= e <= Z.of_nat g -> filled b r (Z.of_nat g) l ->
  exists l', filled b r 8 l' /\
    place (rank_chars (rank_tail b r g) e ++ s) r (Z.of_nat g - e) l = place s r 8 l'.
Proof.
  intros Hp Hr Hg. remember (8 - g)%nat as n eqn:En. revert g En Hg e l.
  induction n as [|n IH]; intros g En Hg e l He Hl.
  - assert (g = 8%nat) as -> by lia. exists l. split; [done|]. cbn [rank_tail seq Nat.sub map rank_chars].
    by apply (place_flush e s r 8 l).
  - assert (on_board r (Z.of_nat g)) as Hb by (unfold on_board; lia).
    pose proof (make_square_valid _ _ Hb) as Hv. pose proof (Hp _ Hv) as Hpo.
    unfold rank_tail. rewrite seq_tail by lia. cbn [map rank_chars]. fold (rank_tail b r (S g)).
    destruct (is_none _) eqn:E.
    + replace (Z.of_nat g - e) with (Z.of_nat (S g) - (e + 1)) by lia.
      apply IH; [lia..|]. replace (Z.of_nat (S g)) with (Z.of_nat g + 1) by lia.
      apply (filled_step b r _ l l Hl Hb (proj1 Hl)). intros sq Hsq.
      destruct (Z.eqb_spec sq (make_square r (Z.of_nat g))) as [->|]; [|done].
      rewrite (proj2 Hl) by done. rewrite (empty_piece _ Hpo E). by destruct (_ || _).
    + fold (flush e). rewrite <- app_assoc, place_flush by lia. cbn [app].
      rewrite place_piece by done.
      replace (Z.of_nat g + 1) with (Z.of_nat (S g) - 0) by lia.
      apply IH; [lia..|]. replace (Z.of_nat (S g)) with (Z.of_nat g + 1) by lia.
      apply (filled_step b r _ l); [done|done|by rewrite length_set_sq; apply Hl|].
      intros sq Hsq. rewrite get_set_sq by (done || apply Hl).
      by destruct (Z.eqb_spec sq (make_square r (Z.of_nat g))) as [->|].
Qed.

(** Reading the ranks from [n] down to the first. *)
Definition ranks_down (n : nat) : list Z := map Z.of_nat (rev (seq 0 (S n))).

Definition rank_field (b : Board) (rank : Z) : str :=
  rank_chars (rank_pieces b rank) 0 ++ (if 0 <? rank then ["/"%char] else []).

Lemma ranks_down_S n : ranks_down (S n) = Z.of_nat (S n) :: ranks_down n.
Proof. unfold ranks_down. rewrite seq_S, rev_app_distr. reflexivity. Qed.

Lemma place_ranks b n l :
  (forall sq, valid_sq sq -> piece_ok (piece_at b sq)) -> (n < 8)%nat ->
  filled b (Z.of_nat n) 0 l ->
  exists l', filled b 0 8 l' /\
    place (flat_map (rank_field b) (ranks_down n)) (Z.of_nat n) 0 l = PlaceOk l' 0 8.
Proof.
  intros Hp. revert l. induction n as [|n IH]; intros l Hn Hl.
  - destruct (place_rank b 0 0 0 [] l Hp ltac:(lia) ltac:(lia) ltac:(lia) Hl) as (l' & Hl' & E).
    exists l'. split; [done|]. cbn [ranks_down seq rev map flat_map app]. unfold rank_field.
    rewrite app_nil_r. etransitivity; [exact E|done].
  - rewrite ranks_down_S. cbn [flat_map].
    destruct (place_rank b (Z.of_nat (S n)) 0 0
                ("/"%char :: flat_map (rank_field b) (ranks_down n)) l
                Hp ltac:(lia) ltac:(lia) ltac:(lia) Hl) as (l1 & Hl1 & E).
    destruct (IH l1) as (l2 & Hl2 & E2); [lia| |].
    + destruct Hl1 as [Hlen Hf]. split; [done|]. intros sq Hsq. rewrite Hf by done.
      pose proof (square_on_board sq Hsq) as [? ?]. by repeat case_z; try lia.
    + exists l2. split; [done|]. rewrite <- E2. unfold rank_field at 1.
      rewrite (proj2 (Z.ltb_lt 0 _)) by lia. rewrite <- app_assoc. etransitivity; [exact E|].
      cbn [place]. rewrite bool_decide_eq_true_2 by done. change (negb (8 =? 8)) with false. cbn iota.
      f_equal. lia.
Qed.

Lemma placement_field_eq b : placement_field b = flat_map (rank_field b) (ranks_down 7).
Proof. reflexivity. Qed.

Lemma place_placement b :
  encodable b -> place (placement_field b) 7 0 (squares_ clear_board) = PlaceOk (squares_ b) 0 8.
Proof.
  intros [Hlen _ Hp _ _ _ _ _]. rewrite placement_field_eq.
  destruct (place_ranks b 7 (squares_ clear_board) Hp ltac:(lia)) as (l' & [Hl' Hf] & E).
  - split; [done|]. intros sq Hsq. pose proof (square_on_board sq Hsq) as [? ?].
    change (Z.of_nat 7) with 7. rewrite (proj2 (Z.ltb_ge 7 _)), (proj2 (Z.ltb_ge _ 0)) by lia.
    rewrite andb_false_r. cbn [orb]. unfold clear_board, get_sq. cbn [squares_ recompute_zobrist_key].
    by apply lookup_total_replicate_2; unfold valid_sq in *; lia.
  - change (Z.of_nat 7) with 7 in E. rewrite E. f_equal.
    apply squares_ext; [done..|]. intros sq Hsq. rewrite Hf by done.
    pose proof (square_on_board sq Hsq) as [? ?]. unfold piece_at. by repeat case_z; try lia.
Qed.

(** The printed placement is one word. *)
Lemma rank_chars_word b r g e :
  (forall sq, valid_sq sq -> piece_ok (piece_at b sq)) ->
  0 <= r < 8 -> (g <= 8)%nat -> 0 <= e <= Z.of_nat g ->
  List.Forall nonspace (rank_chars (rank_tail b r g) e) /\
  (0 < e \/ (g < 8)%nat -> rank_chars (rank_tail b r g) e <> []).
Proof.
  intros Hp Hr Hg. remember (8 - g)%nat as n eqn:En. revert g En Hg e.
  assert (forall e, 0 <= e <= 8 -> List.Forall nonspace (flush e) /\ (0 < e -> flush e <> [])) as Hfl.
  { intros e He. unfold flush. destruct (Z.ltb_spec 0 e); [|by split; [constructor|lia]].
    rewrite to_string_digit by lia. split; [|done]. repeat constructor. by apply nonspace_char_of; lia. }
  induction n as [|n IH]; intros g En Hg e He.
  - assert (g = 8%nat) as -> by lia. cbn [rank_tail seq Nat.sub map rank_chars].
    fold (flush e).
    destruct (Hfl e ltac:(lia)) as [H1 H2]. split; [done|]. intros [?|?]; [by apply H2|lia].
  - assert (on_board r (Z.of_nat g)) as Hb by (unfold on_board; lia).
    pose proof (Hp _ (make_square_valid _ _ Hb)) as Hpo.
    unfold rank_tail. rewrite seq_tail by lia. cbn [map rank_chars]. fold (rank_tail b r (S g)).
    destruct (is_none _) eqn:E.
    + destruct (IH (S g) ltac:(lia) ltac:(lia) (e + 1) ltac:(lia)) as [H1 H2].
      split; [done|]. intros _. apply H2. lia.
    + fold (flush e).
      destruct (IH (S g) ltac:(lia) ltac:(lia) 0 ltac:(lia)) as [H1 _].
      destruct (to_char_facts _ Hpo E) as (_ & _ & _ & Hn).
      split; [|by intros _; destruct (flush e)].
      apply List.Forall_app. split; [apply Hfl; lia|by constructor].
Qed.

Lemma placement_word b :
  (forall sq, valid_sq sq -> piece_ok (piece_at b sq)) ->
  placement_field b <> [] /\ List.Forall nonspace (placement_field b).
Proof.
  intros Hp. rewrite placement_field_eq.
  assert (forall r, 0 <= r < 8 -> rank_field b r <> [] /\ List.Forall nonspace (rank_field b r)) as Hr.
  { intros r Hr. destruct (rank_chars_word b r 0 0 Hp Hr ltac:(lia) ltac:(lia)) as [H1 H2].
    unfold rank_field. change (rank_pieces b r) with (rank_tail b r 0). split.
    - intros [E _]%app_eq_nil. apply H2 in E; [done|lia].
    - apply List.Forall_app. split; [done|]. destruct (0 <? r); by repeat constructor. }
  split.
  - rewrite ranks_down_S. cbn [flat_map]. intros [E _]%app_eq_nil. by apply (Hr 7 ltac:(lia)) in E.
  - apply List.Forall_flat_map, List.Forall_forall. intros r Hin. apply Hr.
    unfold ranks_down in Hin. apply in_map_iff in Hin as (i & <- & Hi).
    apply in_rev, in_seq in Hi. lia.
Qed.

(** ** The whole string *)

Lemma side_field_word (c : Color.t) :
  (if bool_decide (c = Color.WHITE) then lit " w " else lit " b ") =
  " "%char :: (if bool_decide (c = Color.WHITE) then lit "w" else lit "b") ++ [" "%char].
Proof. by case_bool_decide. Qed.

Lemma read_fields_to_fen b :
  encodable b ->
  read_fields (to_fen b) =
  Some (placement_field b, if bool_decide (side_to_move_ b = Color.WHITE) then lit "w" else lit "b",
        castling_field (castling_rights_ b), ep_field (en_passant_sq_ b),
        halfmove_clock_ b, fullmove_number_ b).
Proof.
  intros [_ _ Hp Hr He Hh Hf _]. destruct (placement_word b Hp) as [P1 P2].
  destruct (parse_castling_field _ Hr) as (_ & C1 & C2).
  destruct (ep_field_spec _ He) as (_ & _ & E1 & E2).
  unfold read_fields, to_fen. rewrite side_field_word.
  change (lit " ") with [" "%char].
  rewrite <- ?app_assoc. cbn [app]. rewrite <- ?app_assoc. cbn [app].
  rewrite read_word_app by done. rewrite read_word_space.
  rewrite read_word_app; [|by case_bool_decide|by case_bool_decide; repeat constructor].
  rewrite read_word_space, read_word_app by done.
  rewrite read_word_space, read_word_app by done.
  rewrite read_int_space, read_int_to_string by (lia || right; by eexists).
  rewrite read_int_space. rewrite <- (app_nil_r (to_string (fullmove_number_ b))).
  by rewrite read_int_to_string by (lia || by left).
Qed.

Lemma compute_hash_ext b1 b2 :
  squares_ b1 = squares_ b2 -> side_to_move_ b1 = side_to_move_ b2 ->
  castling_rights_ b1 = castling_rights_ b2 -> en_passant_sq_ b1 = en_passant_sq_ b2 ->
  compute_hash b1 = compute_hash b2.
Proof. unfold compute_hash. by intros -> -> -> ->. Qed.

(** The stored key does not enter the hash, so recomputing it restores the board. *)
Lemma recompute_fields b k :
  hash_ok b ->
  recompute_zobrist_key (mkBoard (squares_ b) (side_to_move_ b) (castling_rights_ b)
    (en_passant_sq_ b) (halfmove_clock_ b) (fullmove_number_ b) k) = b.
Proof.
  unfold hash_ok, recompute_zobrist_key. intros H.
  rewrite (compute_hash_ext _ b) by reflexivity. rewrite <- H. by destruct b.
Qed.

Lemma set_from_fen_to_fen b : encodable b -> set_from_fen (to_fen b) = FenOk b.
Proof.
  intros Hb. pose proof Hb as [_ Hs _ Hr He Hh Hf Hk]. unfold set_from_fen.
  rewrite (read_fields_to_fen b Hb), (place_placement b Hb). cbn [negb Z.eqb orb].
  destruct (parse_castling_field _ Hr) as (C & _ & _). destruct (ep_field_spec _ He) as (E & E' & _ & _).
  unfold parse_state.
  assert (parse_side (if bool_decide (side_to_move_ b = Color.WHITE) then lit "w" else lit "b")
          = Some (side_to_move_ b)) as -> by (by destruct (side_to_move_ b)).
  rewrite C, E. cbn [negb].
  assert (negb (bool_decide (ep_field (en_passant_sq_ b) = lit "-")) && (en_passant_sq_ b =? NO_SQUARE)
          = false) as ->.
  { case_bool_decide as D; [done|]. apply Z.eqb_neq. by apply E'. }
  rewrite (proj2 (Z.ltb_ge _ 0)), (proj2 (Z.ltb_ge _ 1)) by lia. cbn [orb].
  f_equal. by apply recompute_fields.
Qed.

(** ** What a successful import guarantees *)

Lemma from_char_ok c : piece_ok (from_char c).
Proof.
  unfold from_char, piece_ok.
  assert (forall col, col <> Color.NONE -> forall t, t <> PieceType.NONE ->
    (type (mkPiece t col) = PieceType.NONE <-> color (mkPiece t col) = Color.NONE)) as H.
  { cbn. intuition congruence. }
  assert ((if isupper c then Color.WHITE else Color.BLACK) <> Color.NONE) as Hc by by destruct (isupper c).
  set (col := if isupper c then _ else _) in *.
  destruct (tolower c) as [[] [] [] [] [] [] [] []]; (by apply H) || done.
Qed.

Definition mailbox_ok (l : list Piece) : Prop := length l = 64%nat /\ List.Forall piece_ok l.

Lemma set_sq_ok l sq p : mailbox_ok l -> piece_ok p -> mailbox_ok (set_sq l sq p).
Proof.
  intros [Hl Hf] Hp. split; [by rewrite length_set_sq|]. unfold set_sq.
  by apply Forall_insert.
Qed.

Lemma place_ok s : forall r f l l' r' f',
  mailbox_ok l -> place s r f l = PlaceOk l' r' f' -> mailbox_ok l'.
Proof.
  induction s as [|c s IH]; intros r f l l' r' f' Hl; cbn [place]; [by injection 1 as -> _ _|].
  destruct (bool_decide _); [destruct (negb _); [done|by apply IH]|].
  destruct (isdigit c); [destruct (_ || _); [done|]; destruct (_ <? _); [done|by apply IH]|].
  destruct (is_none _); [done|]. destruct (_ <=? _); [done|]. destruct (_ <? _); [|done].
  apply IH. apply set_sq_ok; [done|apply from_char_ok].
Qed.

Definition count_slashes (s : str) : Z :=
  Z.of_nat (length (List.filter (fun c => bool_decide (c = "/"%char)) s)).

(** The out-of-bounds write needs more ranks than the board has. *)
Lemma place_ub s : forall r f l,
  0 <= r < 8 -> 0 <= f -> place s r f l = PlaceUB -> r < count_slashes s.
Proof.
  unfold count_slashes.
  induction s as [|c s IH]; intros r f l Hr Hf; cbn [place List.filter]; [done|].
  destruct (bool_decide _).
  - destruct (negb _); [done|]. intros H. cbn [length].
    destruct (Z.eq_dec r 0) as [->|Hr0]; [lia|]. apply IH in H; lia.
  - destruct (isdigit c).
    + destruct (Z.ltb_spec (char_val c - 48) 1); [done|]. cbn [orb].
      destruct (_ <? _); [done|]. destruct (_ <? _); [done|]. apply IH; lia.
    + destruct (is_none _); [done|]. destruct (Z.leb_spec 8 f); [done|].
      assert (on_board r f) as Hb by (unfold on_board; lia).
      pose proof (make_square_valid r f Hb) as [_ Hv]. apply Z.ltb_lt in Hv.
      unfold NUM_SQUARES. rewrite Hv. apply IH; lia.
Qed.

Lemma read_int_bound s n r : read_int s = Some (n, r) -> n <= INT_MAX.
Proof.
  unfold read_int. destruct (match skip_ws s with [] => _ | _ => _ end) as [neg s'].
  destruct (take_digits 0 false s') as [[v seen] rest].
  destruct (_ && _) eqn:E; [|done]. intros [= <- _]. by bool_hyps.
Qed.

Lemma algebraic_to_square_range s :
  algebraic_to_square s = NO_SQUARE \/ valid_sq (algebraic_to_square s).
Proof.
  unfold algebraic_to_square. destruct s as [|a [|b [|]]]; try (by left).
  destruct (_ || _) eqn:E; [by left|]. right. apply make_square_valid. bool_hyps. unfold on_board. lia.
Qed.

Lemma parse_castling_range s : forall cr r, 0 <= cr < 16 -> parse_castling s cr = (r, true) -> 0 <= r < 16.
Proof.
  assert (forall a b, 0 <= a < 16 -> 0 <= b < 16 -> 0 <= Z.lor a b < 16) as Hlor.
  { intros a b Ha Hb. split; [apply Z.lor_nonneg; lia|].
    assert (Z.lor a b = Z.lor a b mod 2 ^ 4) as ->; [|by apply Z.mod_pos_bound].
    rewrite <- Z.land_ones, Z.land_lor_distr_l, !Z.land_ones by lia.
    by rewrite !Z.mod_small. }
  induction s as [|c s IH]; intros cr r Hcr; cbn [parse_castling]; [by injection 1 as <-|].
  destruct c as [[] [] [] [] [] [] [] []]; try done; apply IH, Hlor; done.
Qed.

Lemma parse_side_some s c : parse_side s = Some c -> c <> Color.NONE.
Proof. unfold parse_side. by repeat case_bool_decide; intros [= <-]. Qed.

Lemma clear_mailbox_ok : mailbox_ok (squares_ clear_board).
Proof. split; [done|]. change (squares_ clear_board) with (replicate 64 no_piece). by repeat constructor. Qed.

Lemma encodable_recompute l c cr ep h f k :
  mailbox_ok l -> c <> Color.NONE -> 0 <= cr < 16 -> ep = NO_SQUARE \/ valid_sq ep ->
  0 <= h <= INT_MAX -> 1 <= f <= INT_MAX ->
  encodable (recompute_zobrist_key (mkBoard l c cr ep h f k)).
Proof.
  intros [Hl Hp] Hc Hcr Hep Hh Hf. split; [exact Hl|exact Hc| |exact Hcr|exact Hep|exact Hh|exact Hf|].
  - intros q Hq. change (piece_ok (get_sq l q)). unfold get_sq. rewrite List.Forall_forall in Hp.
    apply Hp, list_elem_of_In, list_elem_of_lookup_total_2. unfold valid_sq in Hq. lia.
  - unfold hash_ok. cbn [recompute_zobrist_key zobrist_key_]. by apply compute_hash_ext.
Qed.

Lemma import_encodable s b : set_from_fen s = FenOk b -> encodable b.
Proof.
  unfold set_from_fen. destruct (read_fields s) as [[[[[[pl sd] ca] ep] hm] fm]|] eqn:Er; [|done].
  assert (hm <= INT_MAX /\ fm <= INT_MAX) as [Hh Hf].
  { unfold read_fields in Er. repeat case_match; simplify_eq. split; by eapply read_int_bound. }
  destruct (place pl 7 0 _) as [l r f| |] eqn:Ep; [|done|done].
  apply place_ok in Ep as [Hl Hp]; [|exact clear_mailbox_ok].
  destruct (_ || _); [done|]. unfold parse_state.
  destruct (parse_side sd) as [c|] eqn:Es; [|done]. apply parse_side_some in Es.
  destruct (if bool_decide (ca = lit "-") then _ else _) as [cr ok] eqn:Ec.
  destruct ok; [|done]. cbn [negb].
  destruct (_ && _) eqn:Ee; [done|]. destruct (_ || _) eqn:Ek; [done|]. intros [= <-].
  apply orb_false_iff in Ek as [K1%Z.ltb_ge K2%Z.ltb_ge].
  apply encodable_recompute; try assumption; try (split; assumption).
  - destruct (bool_decide (ca = _)); [by injection Ec as <-|]. by eapply parse_castling_range in Ec.
  - destruct (bool_decide (ep = _)); [by left|]. apply algebraic_to_square_range.
Qed.

(** ** When the import goes out of bounds *)

Lemma parse_state_defined l sd ca ep hm fm : parse_state l sd ca ep hm fm <> FenUB.
Proof.
  unfold parse_state. destruct (parse_side sd); [|done].
  destruct (if bool_decide (ca = lit "-") then _ else _) as [cr ok]. cbv zeta.
  destruct (negb ok); [done|]. destruct (_ && _); [done|]. by destruct (_ || _).
Qed.

Lemma read_fields_first s pl sd ca ep hm fm :
  read_fields s = Some (pl, sd, ca, ep, hm, fm) -> exists rest, read_word s = Some (pl, rest).
Proof. unfold read_fields. intros H. repeat case_match; simplify_eq. by eexists. Qed.

Lemma set_from_fen_ub s :
  set_from_fen s = FenUB ->
  exists pieces rest, read_word s = Some (pieces, rest) /\ 7 < count_slashes pieces.
Proof.
  unfold set_from_fen. destruct (read_fields s) as [[[[[[pl sd] ca] ep] hm] fm]|] eqn:Er; [|done].
  apply read_fields_first in Er as [rest Er]. intros H. exists pl, rest. split; [done|].
  destruct (place pl 7 0 _) as [l r f| |] eqn:Ep; [|done|].
  - destruct (_ || _); [done|]. by destruct (parse_state_defined l sd ca ep hm fm).
  - by apply (place_ub pl 7 0) in Ep.
Qed.
