(* ===== verification/Uci.v ===== *)
(** * UCI move strings: [Move::to_uci] and [Move::from_uci] (board.cpp)

    A legal move is determined by its squares and its promotion piece, which is
    what the four or five characters of a UCI string carry. *)
From S2P Require Import Prelude Types BoardState Zobrist Board MoveGen Fen FenRoundTrip Rules Position.

(** ** Printing and parsing *)

Definition promo_letter (p : PieceType.t) : str :=
  match p with
  | PieceType.QUEEN => lit "q"
  | PieceType.ROOK => lit "r"
  | PieceType.BISHOP => lit "b"
  | PieceType.KNIGHT => lit "n"
  | _ => []
  end.

Definition uci_suffix (m : Move) : str :=
  if is_promotion m then promo_letter (promo_type m) else [].

Definition to_uci (m : Move) : str :=
  [char_of (97 + file_of (from m)); char_of (49 + rank_of (from m));
   char_of (97 + file_of (to m)); char_of (49 + rank_of (to m))] ++
  uci_suffix m.

(** The optional fifth character; [None] when it is not a promotion letter. *)
Definition parse_promo (rest : str) : option (Z * PieceType.t) :=
  match rest with
  | [] => Some (MoveFlags.NONE, PieceType.NONE)
  | c :: _ =>
      let promo p := Some (Z.lor MoveFlags.NONE MoveFlags.PROMOTION, p) in
      match tolower c with
      | "q"%char => promo PieceType.QUEEN
      | "r"%char => promo PieceType.ROOK
      | "b"%char => promo PieceType.BISHOP
      | "n"%char => promo PieceType.KNIGHT
      | _ => None
      end
  end.

Definition from_uci (uci : str) : Move :=
  match uci with
  | c0 :: c1 :: c2 :: c3 :: rest =>
      if (5 <? length uci)%nat then null_move else
      let from_file := char_val c0 - 97 in
      let from_rank := char_val c1 - 49 in
      let to_file := char_val c2 - 97 in
      let to_rank := char_val c3 - 49 in
      if (from_file <? 0) || (7 <? from_file) || (from_rank <? 0) || (7 <? from_rank) ||
         (to_file <? 0) || (7 <? to_file) || (to_rank <? 0) || (7 <? to_rank)
      then null_move else
      match parse_promo rest with
      | Some (fl, promo) =>
          mkMove (make_square from_rank from_file) (make_square to_rank to_file) fl promo
      | None => null_move
      end
  | _ => null_move
  end.

(** ** A legal move is determined by its squares and promotion piece *)

Lemma promo_choice_unique c t fl0 f1 f2 p :
  promo_choice c t fl0 f1 p -> promo_choice c t fl0 f2 p -> f1 = f2.
Proof. unfold promo_choice. destruct (_ =? _); intros [-> _] [-> _]; done. Qed.

Lemma castle_move_span b c m :
  castle_move b c m ->
  rank_of (to m) = rank_of (from m) /\ Z.abs (file_of (to m) - file_of (from m)) = 2.
Proof. by inversion 1. Qed.

Lemma castle_move_unique b c m1 m2 :
  castle_move b c m1 -> castle_move b c m2 -> to m1 = to m2 -> m1 = m2.
Proof. by inversion 1; inversion 1. Qed.

Lemma piece_move_unique b c s pt m1 m2 :
  piece_move b c s pt m1 -> piece_move b c s pt m2 ->
  from m1 = s -> from m2 = s -> to m1 = to m2 -> promo_type m1 = promo_type m2 -> m1 = m2.
Proof.
  intros H1 H2 F1 F2. pose proof (pawn_dir_ne c).
  assert (forall t m, castle_move b c m -> from m = s -> to m = t -> king_step s t -> False) as Hck.
  { intros t m Hm <- <- (_ & _ & ?). apply castle_move_span in Hm. lia. }
  destruct H1; inversion H2; subst; cbn [from to promo_type quiet_move flag_move] in *;
    intros; subst; try done;
    unfold pawn_takes in *; split_hyps; try lia; try (exfalso; tauto);
    try (f_equal; eapply promo_choice_unique; eassumption);
    try (exfalso; by eapply Hck); try (by eapply castle_move_unique);
    try (match goal with H : slides _ _ _ _ |- _ => apply slides_slider in H; naive_solver end).
Qed.

Lemma pseudo_from b m s :
  position_ok b -> piece_move b (side_to_move_ b) s (type (piece_at b s)) m -> valid_sq s ->
  color (piece_at b s) = side_to_move_ b -> from m = s.
Proof.
  intros Hok Hm Hs Hc. inversion Hm as [| | | | | | |m' Hcm]; subst; try reflexivity.
  apply castle_move_row in Hcm as (row & e & sf & Hin & Hrc & (Hr & _) & _ & _ & ->).
  cbn [from flag_move]. destruct (ok_castle b Hok row Hin Hr) as [Hk _].
  destruct (ok_king b Hok (side_to_move_ b) (ok_side b Hok)) as (k & Hkv & Hu).
  pose proof (castle_row_facts row Hin) as [(Hv & _) _ _ _ _ _].
  transitivity k; [apply Hu; [done|]; by rewrite Hk, Hrc|]. symmetry. apply Hu; [done|].
  destruct (piece_at b s); cbn in *. congruence.
Qed.

Lemma move_unique b m1 m2 :
  position_ok b -> pseudo_legal b m1 -> pseudo_legal b m2 ->
  from m1 = from m2 -> to m1 = to m2 -> promo_type m1 = promo_type m2 -> m1 = m2.
Proof.
  intros Hok (s1 & V1 & C1 & P1) (s2 & V2 & C2 & P2) Hf Ht Hp.
  pose proof (pseudo_from b m1 s1 Hok P1 V1 C1) as F1.
  pose proof (pseudo_from b m2 s2 Hok P2 V2 C2) as F2.
  assert (s1 = s2) as -> by congruence. by eapply piece_move_unique.
Qed.

(** ** Round trip *)

(** The promotion flag and the promotion piece go together. *)
Definition promo_coherent (m : Move) : Prop :=
  if is_promotion m then In (promo_type m) promo_pieces else promo_type m = PieceType.NONE.

Lemma shape_promo b m : shape b m -> promo_coherent m.
Proof.
  destruct 1 as [| | | |row Hin]; try done. cbn in Hin.
  by destruct Hin as [<-|[<-|[<-|[<-|[]]]]].
Qed.

Lemma parse_promo_letter m :
  promo_coherent m ->
  parse_promo (uci_suffix m) =
  Some (if is_promotion m then MoveFlags.PROMOTION else MoveFlags.NONE, promo_type m) /\
  (length (uci_suffix m) <= 1)%nat.
Proof.
  unfold promo_coherent, uci_suffix. destruct (is_promotion m); [|intros ->; by split; [|cbn; lia]].
  intros [<-|[<-|[<-|[<-|[]]]]]; split; try reflexivity; cbn; lia.
Qed.

Lemma from_uci_to_uci m :
  valid_sq (from m) -> valid_sq (to m) -> promo_coherent m ->
  from_uci (to_uci m) =
  mkMove (from m) (to m) (if is_promotion m then MoveFlags.PROMOTION else MoveFlags.NONE) (promo_type m).
Proof.
  intros Hf Ht Hp. destruct (parse_promo_letter m Hp) as [E L].
  pose proof (square_on_board _ Hf) as [? ?]. pose proof (square_on_board _ Ht) as [? ?].
  unfold to_uci. cbn [app from_uci]. rewrite (proj2 (Nat.ltb_ge 5 _)) by (cbn [length]; lia).
  rewrite !char_val_char_of by lia.
  replace (97 + file_of (from m) - 97) with (file_of (from m)) by lia.
  replace (49 + rank_of (from m) - 49) with (rank_of (from m)) by lia.
  replace (97 + file_of (to m) - 97) with (file_of (to m)) by lia.
  replace (49 + rank_of (to m) - 49) with (rank_of (to m)) by lia.
  do 8 (rewrite (proj2 (Z.ltb_ge _ _)) by lia). cbn [orb].
  by rewrite E, !square_coords by done.
Qed.

Lemma to_uci_injective b m1 m2 :
  position_ok b -> pseudo_legal b m1 -> pseudo_legal b m2 -> to_uci m1 = to_uci m2 -> m1 = m2.
Proof.
  intros Hok H1 H2 E. pose proof (pseudo_facts b m1 Hok H1) as [F1 T1 _ _ _ _ S1].
  pose proof (pseudo_facts b m2 Hok H2) as [F2 T2 _ _ _ _ S2].
  apply (f_equal from_uci) in E. rewrite !from_uci_to_uci in E by eauto using shape_promo.
  injection E as Ef Et _ Ep. by apply (move_unique b).
Qed.
