(* ===== verification/Notation.v ===== *)
(** * SAN and PGN: src/src/chess/notation.cpp

    [move_to_san] and [san_to_move] on character lists; [export_pgn] and
    [import_pgn], whose result is [None] where the C++ would index the mailbox
    out of bounds (a FEN tag or a castling token the board cannot carry). *)
From S2P Require Import Prelude Types BoardState Zobrist Board MoveGen Fen.

(** ** [move_to_san] *)

(** Pawns have no prefix: the default case is the character 0. *)
Definition piece_to_san_char (pt : PieceType.t) : ascii :=
  match pt with
  | PieceType.KNIGHT => "N"
  | PieceType.BISHOP => "B"
  | PieceType.ROOK => "R"
  | PieceType.QUEEN => "Q"
  | PieceType.KING => "K"
  | _ => Ascii.zero
  end%char.

Definition file_char (sq : Z) : ascii := char_of (97 + file_of sq).
Definition rank_char (sq : Z) : ascii := char_of (49 + rank_of sq).

(** Another piece of the same type that can reach the same square. *)
Definition conflicts (b : Board) (m other : Move) : bool :=
  negb (from other =? from m) && (to other =? to m) &&
  bool_decide (type (piece_at b (from other)) = type (piece_at b (from m))).

Definition need_rank (b : Board) (m : Move) : bool :=
  existsb (fun other => conflicts b m other && (file_of (from other) =? file_of (from m)))
          (generate_legal_moves b).
Definition need_file (b : Board) (m : Move) : bool :=
  existsb (fun other => conflicts b m other && negb (file_of (from other) =? file_of (from m)))
          (generate_legal_moves b).

Definition is_capture (b : Board) (m : Move) : bool :=
  negb (is_none (piece_at b (to m))) || is_en_passant m.

(** Everything before the destination: letter, disambiguation, capture sign. *)
Definition san_letter (b : Board) (m : Move) : str :=
  if bool_decide (type (piece_at b (from m)) = PieceType.PAWN) then []
  else [piece_to_san_char (type (piece_at b (from m)))].

Definition san_origin (b : Board) (m : Move) : str :=
  if bool_decide (type (piece_at b (from m)) = PieceType.PAWN)
  then if is_capture b m then [file_char (from m)] else []
  else (if need_file b m then [file_char (from m)] else []) ++
       (if need_rank b m then [rank_char (from m)] else []).

Definition san_promo (m : Move) : str :=
  if is_promotion m then ["="%char; piece_to_san_char (promo_type m)] else [].

Definition san_check (b : Board) (m : Move) : str :=
  let after := after_move b m in
  let opponent := if bool_decide (side_to_move_ b = Color.WHITE) then Color.BLACK else Color.WHITE in
  if is_in_check after opponent
  then match generate_legal_moves after with [] => lit "#" | _ => lit "+" end
  else [].

Definition move_to_san (b : Board) (m : Move) : str :=
  if is_kingside_castle m then lit "O-O"
  else if is_queenside_castle m then lit "O-O-O"
  else san_letter b m ++ san_origin b m ++ (if is_capture b m then lit "x" else []) ++
       square_to_algebraic (to m) ++ san_promo m ++ san_check b m.

(** ** [san_to_move] *)

Definition is_suffix_char (c : ascii) : bool :=
  bool_decide (c = "+"%char) || bool_decide (c = "#"%char) ||
  bool_decide (c = "!"%char) || bool_decide (c = "?"%char).

(** [while (!s.empty() && ...) s.pop_back();], on the reversed string. *)
Fixpoint drop_suffix (r : str) : str :=
  match r with
  | c :: r' => if is_suffix_char c then drop_suffix r' else r
  | [] => []
  end.
Definition strip_check (s : str) : str := rev (drop_suffix (rev s)).

Definition san_piece (c : ascii) : option PieceType.t :=
  match c with
  | "N"%char => Some PieceType.KNIGHT
  | "B"%char => Some PieceType.BISHOP
  | "R"%char => Some PieceType.ROOK
  | "Q"%char => Some PieceType.QUEEN
  | "K"%char => Some PieceType.KING
  | _ => None
  end.

(** The leading piece letter: its type and [pos]; [None] for an unknown letter. *)
Definition parse_letter (s : str) : option (PieceType.t * nat) :=
  match s with
  | c :: _ =>
      if isupper c && negb (bool_decide (c = "O"%char))
      then match san_piece c with Some pt => Some (pt, 1%nat) | None => None end
      else Some (PieceType.PAWN, 0%nat)
  | [] => Some (PieceType.PAWN, 0%nat)
  end.

(** [s[s.size() - k]] *)
Definition from_end (s : str) (k : nat) : ascii := nth (length s - k) s Ascii.zero.

(** The promotion suffix, and the string without it. *)
Definition parse_promotion (s : str) : option (PieceType.t * str) :=
  if (2 <=? length s)%nat && bool_decide (from_end s 2 = "="%char) then
    match san_piece (from_end s 1) with
    | Some PieceType.KING | None => None
    | Some pt => Some (pt, firstn (length s - 2) s)
    end
  else Some (PieceType.NONE, s).

(** One character of the middle part. *)
Definition disambig_step (d : Z * Z) (c : ascii) : Z * Z :=
  let '(file, rank) := d in
  if (97 <=? char_val c) && (char_val c <=? 104) then (char_val c - 97, rank)
  else if (49 <=? char_val c) && (char_val c <=? 56) then (file, char_val c - 49)
  else (file, rank).

Definition disambiguation (middle : str) : Z * Z :=
  fold_left disambig_step
    (List.filter (fun c => negb (bool_decide (c = "x"%char))) middle) (-1, -1).

(** The [continue] chain of the matching loop. *)
Definition san_matches (b : Board) (pt promo : PieceType.t) (to_sq file rank : Z) (c : Move) : bool :=
  (to c =? to_sq) && bool_decide (type (piece_at b (from c)) = pt) &&
  negb ((0 <=? file) && negb (file_of (from c) =? file)) &&
  negb ((0 <=? rank) && negb (rank_of (from c) =? rank)) &&
  (if bool_decide (promo = PieceType.NONE) then negb (is_promotion c)
   else is_promotion c && bool_decide (promo_type c = promo)).

(** The fallback for "e8Q"-style promotions. *)
Definition queen_default (b : Board) (to_sq file : Z) (c : Move) : bool :=
  (to c =? to_sq) && bool_decide (type (piece_at b (from c)) = PieceType.PAWN) &&
  negb ((0 <=? file) && negb (file_of (from c) =? file)) &&
  is_promotion c && bool_decide (promo_type c = PieceType.QUEEN).

Definition castle_san (b : Board) (file fl : Z) : Move :=
  let king_sq := find_king b (side_to_move_ b) in
  flag_move king_sq (make_square (rank_of king_sq) file) fl.

Definition match_legal (b : Board) (pt promo : PieceType.t) (dest_rank dest_file file rank : Z) : Move :=
  let to_sq := make_square dest_rank dest_file in
  let legal_moves := generate_legal_moves b in
  match find (san_matches b pt promo to_sq file rank) legal_moves with
  | Some candidate => candidate
  | None =>
      if bool_decide (promo = PieceType.NONE) && bool_decide (pt = PieceType.PAWN) &&
         (dest_rank =? (if bool_decide (side_to_move_ b = Color.WHITE) then 7 else 0))
      then match find (queen_default b to_sq file) legal_moves with
           | Some candidate => candidate
           | None => null_move
           end
      else null_move
  end.

(** The part after the castling tests. *)
Definition parse_piece_move (b : Board) (san : str) : Move :=
  match strip_check san with
  | [] => null_move
  | s =>
      match parse_letter s with
      | None => null_move
      | Some (pt, pos) =>
          match parse_promotion s with
          | None => null_move
          | Some (promo, s) =>
              if (length s <? pos + 2)%nat then null_move else
              let dest_file := char_val (from_end s 2) - 97 in
              let dest_rank := char_val (from_end s 1) - 49 in
              if (dest_file <? 0) || (7 <? dest_file) || (dest_rank <? 0) || (7 <? dest_rank)
              then null_move else
              let middle := firstn (length s - 2 - pos) (skipn pos s) in
              let '(file, rank) := disambiguation middle in
              match_legal b pt promo dest_rank dest_file file rank
          end
      end
  end.

Definition san_to_move (b : Board) (san : str) : Move :=
  if bool_decide (san = []) then null_move
  else if bool_decide (san = lit "O-O") || bool_decide (san = lit "O-O+") ||
          bool_decide (san = lit "O-O#")
  then castle_san b 6 MoveFlags.KINGSIDE_CASTLE
  else if bool_decide (san = lit "O-O-O") || bool_decide (san = lit "O-O-O+") ||
          bool_decide (san = lit "O-O-O#")
  then castle_san b 2 MoveFlags.QUEENSIDE_CASTLE
  else parse_piece_move b san.

(** ** PGN export *)

Record PgnTag := mkTag { tag_name : str; tag_value : str }.
Record PgnGame := mkGame { game_tags : list PgnTag; game_moves : list Move; game_result : str }.

Definition newline : ascii := char_of 10.
Definition quote : ascii := char_of 34.

Definition pgn_header (tags : list PgnTag) : str :=
  flat_map (fun tag => "["%char :: tag_name tag ++ " "%char :: quote :: tag_value tag ++
                       [quote; "]"%char; newline]) tags ++
  match tags with [] => [] | _ => [newline] end.

Definition move_number (i : nat) : str :=
  if (i mod 2 =? 0)%nat then to_string (Z.of_nat (i / 2 + 1)) ++ lit ". " else [].

Fixpoint pgn_moves (b : Board) (i : nat) (moves : list Move) : str :=
  match moves with
  | [] => []
  | m :: moves =>
      move_number i ++ move_to_san b m ++ lit " " ++ pgn_moves (after_move b m) (S i) moves
  end.

Definition export_pgn (tags : list PgnTag) (moves : list Move) (result : str) : str :=
  pgn_header tags ++ pgn_moves starting_position 0 moves ++ result ++ [newline].

(** ** PGN import *)

(** [std::getline]: the line, whether a newline ended it, the rest. *)
Fixpoint take_line (s : str) : str * bool * str :=
  match s with
  | [] => ([], false, [])
  | c :: s' => if bool_decide (c = newline) then ([], true, s')
               else let '(l, ended, r) := take_line s' in (c :: l, ended, r)
  end.
(** [None] at the end of the stream. *)
Definition getline (s : str) : option (str * bool * str) :=
  match s with [] => None | _ => Some (take_line s) end.

Definition is_trimmed (c : ascii) : bool :=
  bool_decide (c = " "%char) || bool_decide (c = char_of 9) || bool_decide (c = char_of 13) ||
  bool_decide (c = newline).
Fixpoint trim_left (s : str) : str :=
  match s with c :: s' => if is_trimmed c then trim_left s' else s | [] => [] end.
Definition trim (s : str) : str := rev (trim_left (rev (trim_left s))).

(** Index of the first (from [i]) and of the last occurrence of a character. *)
Fixpoint find_char (c : ascii) (s : str) (i : nat) : option nat :=
  match s with
  | [] => None
  | d :: s' => if bool_decide (c = d) then Some i else find_char c s' (S i)
  end.
Definition find_from (c : ascii) (s : str) (i : nat) : option nat := find_char c (skipn i s) i.
Fixpoint rfind_from (c : ascii) (s : str) (i : nat) (acc : option nat) : option nat :=
  match s with
  | [] => acc
  | d :: s' => rfind_from c s' (S i) (if bool_decide (c = d) then Some i else acc)
  end.
Definition rfind (c : ascii) (s : str) : option nat := rfind_from c s 0 None.

(** [Name "Value"], without the opening bracket test. *)
Definition parse_tag (line : str) : option PgnTag :=
  match find_from " "%char line 1 with
  | None => None
  | Some name_end =>
      match find_from quote line name_end, rfind quote line with
      | Some val_start, Some val_end =>
          if (val_start =? val_end)%nat then None
          else Some (mkTag (firstn (name_end - 1) (skipn 1 line))
                           (firstn (val_end - val_start - 1) (skipn (val_start + 1) line)))
      | _, _ => None
      end
  end.

(** Phase 1: the tags, the line left in the variable, the rest of the stream.
    A last line without a newline sets [eofbit], so the failing [getline] leaves
    that line in place; otherwise it erases it. *)
Fixpoint read_tags (fuel : nat) (s : str) (tags : list PgnTag) (line : str) : list PgnTag * str * str :=
  match fuel with
  | O => (tags, line, s)
  | S fuel =>
      match getline s with
      | None => (tags, line, s)
      | Some (l, ended, rest) =>
          let line := trim l in
          let left_over := if ended : bool then [] else line in
          match line with
          | [] => read_tags fuel rest tags left_over
          | c :: _ =>
              if negb (bool_decide (c = "["%char)) then (tags, line, rest)
              else match parse_tag line with
                   | Some tag => read_tags fuel rest (tags ++ [tag]) left_over
                   | None => read_tags fuel rest tags left_over
                   end
          end
      end
  end.

(** [movetext += " " + line], to the end of the stream. *)
Fixpoint join_lines (fuel : nat) (s : str) (acc : str) : str :=
  match fuel with
  | O => acc
  | S fuel =>
      match getline s with
      | None => acc
      | Some (l, _, rest) => join_lines fuel rest (acc ++ " "%char :: l)
      end
  end.

(** All the words of a stream. *)
Fixpoint words (fuel : nat) (s : str) : list str :=
  match fuel with
  | O => []
  | S fuel => match read_word s with Some (w, rest) => w :: words fuel rest | None => [] end
  end.

Definition last_char (w : str) : ascii := last w Ascii.zero.
Definition first_char (w : str) : ascii := hd Ascii.zero w.

(** Parentheses of one token. *)
Definition paren_depth (w : str) (depth : Z) : Z :=
  fold_left (fun d c => if bool_decide (c = "("%char) then d + 1
                        else if bool_decide (c = ")"%char) then d - 1 else d) w depth.

Fixpoint skip_comment (ws : list str) : list str :=
  match ws with
  | [] => []
  | w :: ws => if bool_decide (last_char w = "}"%char) then ws else skip_comment ws
  end.

Fixpoint skip_variation (depth : Z) (ws : list str) : list str :=
  if 0 <? depth
  then match ws with [] => [] | w :: ws => skip_variation (paren_depth w depth) ws end
  else ws.

Definition is_move_number (w : str) : bool :=
  isdigit (first_char w) && existsb (fun c => bool_decide (c = "."%char)) w.

Definition is_result (w : str) : bool :=
  bool_decide (w = lit "1-0") || bool_decide (w = lit "0-1") ||
  bool_decide (w = lit "1/2-1/2") || bool_decide (w = lit "*").

(** Phase 2: the move text.  [fuel] bounds the tokens. *)
Fixpoint read_moves (fuel : nat) (b : Board) (ws : list str) (g : PgnGame) : option PgnGame :=
  match fuel, ws with
  | O, _ | _, [] => Some g
  | S fuel, w :: ws =>
      if is_move_number w then read_moves fuel b ws g
      else if is_result w then Some (mkGame (game_tags g) (game_moves g) w)
      else if bool_decide (first_char w = "{"%char) then
        read_moves fuel b (if bool_decide (last_char w = "}"%char) then ws else skip_comment ws) g
      else if bool_decide (first_char w = "$"%char) then read_moves fuel b ws g
      else if bool_decide (first_char w = "("%char) then
        read_moves fuel b (skip_variation (paren_depth w 1 - 1) ws) g
      else
        let m := san_to_move b w in
        if (from m =? 0) && (to m =? 0) && (flags m =? 0) then Some g
        else if is_valid_square (from m) && is_valid_square (to m)
        then read_moves fuel (after_move b m) ws
               (mkGame (game_tags g) (game_moves g ++ [m]) (game_result g))
        else None
  end.

(** The starting board of a game: the first FEN tag, parsed whatever it yields. *)
Definition pgn_board (tags : list PgnTag) : option Board :=
  match find (fun tag => bool_decide (tag_name tag = lit "FEN")) tags with
  | None => Some starting_position
  | Some tag => match set_from_fen (tag_value tag) with
                | FenOk b | FenFail b => Some b
                | FenUB => None
                end
  end.

Definition import_pgn (pgn : str) : option PgnGame :=
  let fuel := S (length pgn) in
  let '(tags, line, rest) := read_tags fuel pgn [] [] in
  match pgn_board tags with
  | None => None
  | Some b =>
      let movetext := join_lines fuel rest line in
      let ws := words (S (length movetext)) movetext in
      read_moves (S (length ws)) b ws (mkGame tags [] [])
  end.
