(* ===== verification/San.v ===== *)
(** * SAN round trip: the SAN of a legal move names that move

    [move_to_san] disambiguates enough, and [san_to_move] reads enough, for every
    legal move of a well-formed position to be read back from its own SAN. *)
From S2P Require Import Prelude Types BoardState Zobrist Board MoveGen Fen FenRoundTrip Rules Position MakeMove Hashing Preservation Legality Uci Notation.

(** ** What a pawn move looks like *)

Definition pawn_push_shape (b : Board) (m : Move) : Prop :=
  let c := side_to_move_ b in
  file_of (to m) = file_of (from m) /\ empty_at b (to m) /\ is_en_passant m = false /\
  (rank_of (to m) = rank_of (from m) + pawn_dir c \/
   rank_of (to m) = rank_of (from m) + 2 * pawn_dir c /\ rank_of (from m) = start_rank c /\
   exists mid, valid_sq mid /\ rank_of mid = rank_of (from m) + pawn_dir c /\
               file_of mid = file_of (from m) /\ empty_at b mid).

Definition pawn_capture_shape (b : Board) (m : Move) : Prop :=
  pawn_takes (side_to_move_ b) (from m) (to m) /\
  (is_none (piece_at b (to m)) = false \/ is_en_passant m = true /\ to m = en_passant_sq_ b).

Lemma promo_flag_not_ep c t fl pt :
  promo_choice c t MoveFlags.NONE fl pt -> is_en_passant (mkMove 0 t fl pt) = false.
Proof. unfold promo_choice, is_en_passant. cbn [flags]. by destruct (_ =? _); intros [-> _]. Qed.

Lemma promo_flag_ep c t fl pt :
  promo_choice c t MoveFlags.EN_PASSANT fl pt -> is_en_passant (mkMove 0 t fl pt) = true.
Proof. unfold promo_choice, is_en_passant. cbn [flags]. by destruct (_ =? _); intros [-> _]. Qed.

Lemma pawn_move_shape b m :
  position_ok b -> pseudo_legal b m -> type (piece_at b (from m)) = PieceType.PAWN ->
  pawn_push_shape b m \/ pawn_capture_shape b m.
Proof.
  intros Hok (s & Hs & Hc & Hm) Hp.
  pose proof (pseudo_from b m s Hok Hm Hs Hc) as Hf. rewrite Hf in Hp. rewrite Hp in Hm.
  unfold pawn_push_shape, pawn_capture_shape. rewrite Hf.
  inversion Hm as [t fl pt Ht Hr Hfi He Hpc|t mid Ht Hmid Hs0 Hrm Hfm Hem Hr Hfi He
                  |t fl pt Ht Hta Hen Hpc|t fl pt Ht Hta Hen Het Hpc| | |ty t Ht Hsl|];
    subst; cbn [to flags flag_move quiet_move] in *.
  - left. repeat split; try done; [by apply promo_flag_not_ep in Hpc|by left].
  - left. repeat split; try done. right. repeat split; try done. by exists mid.
  - right. split; [done|]. left. apply Hen.
  - right. split; [done|]. right. split; [by apply promo_flag_ep in Hpc|done].
  - apply slides_slider in Hsl. naive_solver.
Qed.

(** [is_capture] tells the two shapes apart. *)
Lemma push_not_capture b m : pawn_push_shape b m -> is_capture b m = false.
Proof. intros (_ & He & Hep & _). unfold is_capture. unfold empty_at in He. by rewrite He, Hep. Qed.

Lemma capture_is_capture b m : pawn_capture_shape b m -> is_capture b m = true.
Proof.
  intros [_ [He|[He _]]]; unfold is_capture; rewrite He; [done|]. by destruct (is_none _).
Qed.

Lemma same_square s1 s2 :
  valid_sq s1 -> valid_sq s2 -> rank_of s1 = rank_of s2 -> file_of s1 = file_of s2 -> s1 = s2.
Proof. intros. by apply square_eq_iff. Qed.

(** Two pawns that capture on one square stand on different files. *)
Lemma capture_origin b m1 m2 :
  valid_sq (from m1) -> valid_sq (from m2) ->
  pawn_capture_shape b m1 -> pawn_capture_shape b m2 -> to m1 = to m2 ->
  file_of (from m1) = file_of (from m2) -> from m1 = from m2.
Proof.
  intros V1 V2 [[H1 _] _] [[H2 _] _] Ht Hf. apply same_square; [done|done| |done]. rewrite Ht in H1. lia.
Qed.

(** The square a double push crosses is empty, so a single push cannot start there. *)
Lemma mid_is_single b m1 mid :
  valid_sq (from m1) -> valid_sq mid -> type (piece_at b (from m1)) = PieceType.PAWN ->
  rank_of mid = rank_of (from m1) -> file_of mid = file_of (from m1) -> ~ empty_at b mid.
Proof.
  intros V1 Vm Hp Hr Hf He. rewrite (same_square mid (from m1)) in He by done.
  unfold empty_at in He. rewrite is_none_true in He. congruence.
Qed.

Lemma push_origin b m1 m2 :
  valid_sq (from m1) -> valid_sq (from m2) ->
  type (piece_at b (from m1)) = PieceType.PAWN -> type (piece_at b (from m2)) = PieceType.PAWN ->
  pawn_push_shape b m1 -> pawn_push_shape b m2 -> to m1 = to m2 -> from m1 = from m2.
Proof.
  intros V1 V2 P1 P2 (F1 & _ & _ & R1) (F2 & _ & _ & R2) Ht. rewrite Ht in F1, R1.
  destruct R1 as [R1|(R1 & _ & mid & Vm & Rm & Fm & Em)], R2 as [R2|(R2 & _ & mid' & Vm' & Rm' & Fm' & Em')].
  - apply same_square; lia || done.
  - destruct (mid_is_single b m1 mid'); try done; lia.
  - destruct (mid_is_single b m2 mid); try done; lia.
  - apply same_square; lia || done.
Qed.

(** A push never arrives where an en-passant capture would. *)
Lemma push_not_ep_target b m1 m2 :
  position_ok b -> pseudo_legal b m1 -> type (piece_at b (from m1)) = PieceType.PAWN ->
  pawn_push_shape b m1 -> pawn_capture_shape b m2 -> to m1 = to m2 -> False.
Proof.
  intros Hok H1 P1 (F1 & E1 & _ & R1) [T2 C2] Ht. pose proof (pseudo_facts b m1 Hok H1) as [V1 W1 _ O1 _ _ _].
  destruct C2 as [C2|[_ C2]]; [unfold empty_at in E1; congruence|]. rewrite <- Ht in C2.
  assert (en_passant_sq_ b <> NO_SQUARE) as Hne by (rewrite <- C2; unfold valid_sq, NO_SQUARE in *; lia).
  destruct (ok_ep b Hok Hne) as (_ & _ & _ & Hv). rewrite <- C2 in Hv.
  set (c := side_to_move_ b) in *.
  assert (forall s, valid_sq s -> rank_of s = rank_of (to m1) - pawn_dir c -> file_of s = file_of (to m1) ->
            ep_victim c (to m1) = s) as Hvs.
  { intros s Hs Hr Hf. unfold ep_victim. rewrite behind_dir.
    replace (rank_of (to m1) + - pawn_dir c) with (rank_of s) by lia. rewrite <- Hf.
    by apply square_coords. }
  destruct R1 as [R1|(R1 & _ & mid & Vm & Rm & Fm & Em)].
  - rewrite (Hvs (from m1)) in Hv by (done || lia). rewrite Hv in O1. cbn in O1.
    by apply (opposite_color_ne c).
  - rewrite (Hvs mid) in Hv by (done || lia). unfold empty_at in Em. rewrite Hv in Em. done.
Qed.

(** ** The SAN of a move identifies its origin *)

Lemma conflicts_true b m o :
  conflicts b m o = true <->
  from o <> from m /\ to o = to m /\ type (piece_at b (from o)) = type (piece_at b (from m)).
Proof.
  unfold conflicts. rewrite !andb_true_iff, negb_true_iff, bool_decide_eq_true, Z.eqb_neq, Z.eqb_eq. tauto.
Qed.

Lemma need_file_spec b m o :
  In o (generate_legal_moves b) -> conflicts b m o = true -> file_of (from o) <> file_of (from m) ->
  need_file b m = true.
Proof.
  intros Hin Hc Hf. unfold need_file. apply existsb_exists. exists o. split; [done|].
  rewrite Hc. by apply Z.eqb_neq in Hf as ->.
Qed.

Lemma need_rank_spec b m o :
  In o (generate_legal_moves b) -> conflicts b m o = true -> file_of (from o) = file_of (from m) ->
  need_rank b m = true.
Proof.
  intros Hin Hc Hf. unfold need_rank. apply existsb_exists. exists o. split; [done|].
  by rewrite Hc, Hf, Z.eqb_refl.
Qed.

(** The disambiguation [move_to_san] writes, as numbers: -1 for none. *)
Definition san_file (b : Board) (m : Move) : Z :=
  if bool_decide (type (piece_at b (from m)) = PieceType.PAWN)
  then if is_capture b m then file_of (from m) else -1
  else if need_file b m then file_of (from m) else -1.
Definition san_rank (b : Board) (m : Move) : Z :=
  if bool_decide (type (piece_at b (from m)) = PieceType.PAWN) then -1
  else if need_rank b m then rank_of (from m) else -1.

Lemma san_origin_unique b m o :
  position_ok b -> In m (generate_legal_moves b) -> In o (generate_legal_moves b) ->
  to o = to m -> type (piece_at b (from o)) = type (piece_at b (from m)) ->
  (0 <= san_file b m -> file_of (from o) = san_file b m) ->
  (0 <= san_rank b m -> rank_of (from o) = san_rank b m) ->
  from o = from m.
Proof.
  intros Hok Hm Ho Ht Hty. pose proof Hm as Hlm. pose proof Ho as Hlo.
  apply in_generate_legal in Hlm as [Hpm _]; [|done]. apply in_generate_legal in Hlo as [Hpo _]; [|done].
  pose proof (pseudo_facts b m Hok Hpm) as [Vm _ _ _ _ _ _].
  pose proof (pseudo_facts b o Hok Hpo) as [Vo _ _ _ _ _ _].
  pose proof (square_on_board _ Vm) as [Rm Fm].
  unfold san_file, san_rank. case_bool_decide as Hp.
  - intros Hfile _. pose proof (pawn_move_shape b m Hok Hpm Hp) as Sm.
    rewrite <- Hty in Hp. pose proof (pawn_move_shape b o Hok Hpo Hp) as So. rewrite Hty in Hp.
    destruct Sm as [Sm|Sm], So as [So|So].
    + apply (push_origin b); congruence.
    + destruct (push_not_ep_target b m o); congruence.
    + destruct (push_not_ep_target b o m); congruence.
    + rewrite (capture_is_capture b m Sm) in Hfile. apply (capture_origin b); try done.
      apply Hfile. lia.
  - intros Hfile Hrank. destruct (Z.eq_dec (from o) (from m)) as [|Hne]; [done|].
    assert (conflicts b m o = true) as Hc by by apply conflicts_true.
    destruct (Z.eq_dec (file_of (from o)) (file_of (from m))) as [Hf|Hf].
    + rewrite (need_rank_spec b m o) in Hrank by done. apply same_square; try done. apply Hrank. lia.
    + rewrite (need_file_spec b m o) in Hfile by done. destruct Hf. apply Hfile. lia.
Qed.

Lemma find_unique {A} (p : A -> bool) l x :
  In x l -> p x = true -> (forall y, In y l -> p y = true -> y = x) -> find p l = Some x.
Proof.
  intros Hin Hp Hu. destruct (find p l) as [y|] eqn:E.
  - apply find_some in E as [Hy Hpy]. by rewrite (Hu y).
  - by rewrite (find_none _ _ E x Hin) in Hp.
Qed.

Lemma legal_promo b m :
  position_ok b -> In m (generate_legal_moves b) -> promo_coherent m.
Proof.
  intros Hok Hm. apply in_generate_legal in Hm as [Hp _]; [|done].
  pose proof (pseudo_facts b m Hok Hp) as [_ _ _ _ _ _ S]. by eapply shape_promo.
Qed.

Lemma match_legal_self b m :
  position_ok b -> In m (generate_legal_moves b) ->
  match_legal b (type (piece_at b (from m))) (promo_type m) (rank_of (to m)) (file_of (to m))
    (san_file b m) (san_rank b m) = m.
Proof.
  intros Hok Hm. pose proof Hm as Hlm. apply in_generate_legal in Hlm as [Hpm _]; [|done].
  pose proof (pseudo_facts b m Hok Hpm) as [Vm Wm _ _ _ _ _].
  unfold match_legal. rewrite square_coords by done. rewrite (find_unique _ _ m); [done|done| |].
  - unfold san_matches. rewrite Z.eqb_refl, bool_decide_eq_true_2 by done.
    assert (forall (p q : bool) (x : Z), negb ((0 <=? (if p then if q then x else -1 else -1)) &&
              negb (x =? (if p then if q then x else -1 else -1))) = true) as H1.
    { intros [] [] x; rewrite ?Z.eqb_refl, ?andb_false_r; reflexivity. }
    assert (forall p, negb ((0 <=? (if p : bool then -1 else if need_rank b m then rank_of (from m) else -1)) &&
              negb (rank_of (from m) =? (if p then -1 else if need_rank b m then rank_of (from m) else -1))) = true) as H2.
    { intros []; [done|]. by apply (H1 true). }
    unfold san_rank, san_file. rewrite H2.
    assert (negb ((0 <=? (if bool_decide (type (piece_at b (from m)) = PieceType.PAWN)
        then if is_capture b m then file_of (from m) else -1
        else if need_file b m then file_of (from m) else -1)) &&
        negb (file_of (from m) =? (if bool_decide (type (piece_at b (from m)) = PieceType.PAWN)
        then if is_capture b m then file_of (from m) else -1
        else if need_file b m then file_of (from m) else -1))) = true) as ->.
    { destruct (bool_decide _); [by apply (H1 true)|by apply (H1 true)]. }
    cbn [andb]. pose proof (legal_promo b m Hok Hm) as Hc. unfold promo_coherent in Hc.
    destruct (is_promotion m).
    + rewrite bool_decide_eq_false_2, bool_decide_eq_true_2; [done|done|].
      by destruct Hc as [<-|[<-|[<-|[<-|[]]]]].
    + by rewrite bool_decide_eq_true_2.
  - intros o Ho Hmatch. unfold san_matches in Hmatch. rewrite !andb_true_iff in Hmatch.
    destruct Hmatch as [[[[Ht%Z.eqb_eq Hty%bool_decide_eq_true] Hf] Hr] Hpr].
    pose proof Ho as Hlo. apply in_generate_legal in Hlo as [Hpo _]; [|done].
    apply (move_unique b); try done.
    + apply (san_origin_unique b); try done; intros H0; [clear Hr|clear Hf];
        apply Z.leb_le in H0; rewrite ?H0 in *; cbn [andb] in *; bool_hyps; done.
    + pose proof (legal_promo b o Hok Ho) as Hc. unfold promo_coherent in Hc.
      case_bool_decide as Hn.
      * apply negb_true_iff in Hpr. rewrite Hpr in Hc. congruence.
      * by bool_hyps.
Qed.

(** ** Reading the text back *)

Lemma file_char_facts sq :
  valid_sq sq -> char_val (file_char sq) = 97 + file_of sq /\ isupper (file_char sq) = false /\
  file_char sq <> "x"%char /\ file_char sq <> "="%char /\ file_char sq <> "O"%char.
Proof.
  intros [_ Hf]%square_on_board. unfold file_char, isupper. rewrite char_val_char_of by lia.
  repeat split; [lia|..]; intros E; apply (f_equal char_val) in E; rewrite char_val_char_of in E by lia.
  - change (char_val "x"%char) with 120 in E. lia.
  - change (char_val "="%char) with 61 in E. lia.
  - change (char_val "O"%char) with 79 in E. lia.
Qed.

Lemma rank_char_facts sq :
  valid_sq sq -> char_val (rank_char sq) = 49 + rank_of sq /\
  rank_char sq <> "x"%char /\ is_suffix_char (rank_char sq) = false.
Proof.
  intros [Hr _]%square_on_board. unfold rank_char. rewrite char_val_char_of by lia.
  assert (forall c, char_val c < 49 \/ 57 < char_val c -> char_of (49 + rank_of sq) <> c) as Hne.
  { intros c Hc E. apply (f_equal char_val) in E. rewrite char_val_char_of in E by lia. lia. }
  repeat split; [apply Hne; by right|]. unfold is_suffix_char.
  by rewrite !bool_decide_eq_false_2 by (apply Hne; (by left) || (by right)).
Qed.

Definition san_check_ok (chk : str) : Prop := chk = [] \/ chk = lit "#" \/ chk = lit "+".

Lemma san_check_cases b m : san_check_ok (san_check b m).
Proof.
  unfold san_check_ok, san_check. destruct (is_in_check _ _); [|by left].
  destruct (generate_legal_moves _); auto.
Qed.

Lemma strip_check_app l c chk :
  is_suffix_char c = false -> san_check_ok chk -> strip_check (l ++ c :: chk) = l ++ [c].
Proof.
  intros Hc Hk. unfold strip_check. rewrite rev_app_distr. cbn [rev]. rewrite <- app_assoc.
  assert (forall r, drop_suffix (rev chk ++ r) = drop_suffix r) as Hd by (by destruct Hk as [->|[->| ->]]).
  rewrite Hd. cbn [app drop_suffix]. rewrite Hc. cbn [rev]. by rewrite rev_involutive.
Qed.

Lemma from_end_app l s k : (length s = k)%nat -> (0 < k)%nat -> from_end (l ++ s) k = hd Ascii.zero s.
Proof.
  intros Hk H0. unfold from_end. rewrite length_app, Hk, app_nth2 by lia.
  replace (length l + k - k - length l)%nat with O by lia. by destruct s.
Qed.

Lemma from_end_last l x y : from_end (l ++ [x; y]) 1 = y.
Proof.
  change (l ++ [x; y]) with (l ++ ([x] ++ [y])). rewrite app_assoc. by apply from_end_app; cbn; lia.
Qed.

Lemma parse_promotion_app l x y m :
  promo_coherent m -> x <> "="%char ->
  parse_promotion ((l ++ [x; y]) ++ san_promo m) = Some (promo_type m, l ++ [x; y]).
Proof.
  intros Hc Hx. unfold promo_coherent in Hc. unfold parse_promotion, san_promo. destruct (is_promotion m).
  - rewrite (from_end_app (l ++ [x; y]) _ 2), from_end_last, firstn_app_exact by (done || cbn; lia).
    rewrite (proj2 (Nat.leb_le 2 _)) by (rewrite length_app; cbn; lia). cbn [hd andb].
    rewrite bool_decide_eq_true_2 by done. by destruct Hc as [<-|[<-|[<-|[<-|[]]]]].
  - rewrite app_nil_r, (from_end_app l [x; y] 2) by (done || cbn; lia). cbn [hd].
    rewrite (bool_decide_eq_false_2 (x = _)), andb_false_r by done. by rewrite Hc.
Qed.

Lemma middle_app (a mid : str) x y :
  firstn (length (a ++ mid ++ [x; y]) - 2 - length a) (skipn (length a) (a ++ mid ++ [x; y])) = mid.
Proof.
  rewrite skipn_app, skipn_all, Nat.sub_diag. cbn [app skipn]. rewrite !length_app. cbn [length].
  replace (length a + (length mid + 2) - 2 - length a)%nat with (length mid + 0)%nat by lia.
  rewrite drop_0, firstn_app_2. cbn. by rewrite app_nil_r.
Qed.

Lemma disambig_file sq f r : valid_sq sq -> disambig_step (f, r) (file_char sq) = (file_of sq, r).
Proof.
  intros H. destruct (file_char_facts sq H) as (E & _). pose proof (square_on_board sq H) as [? ?].
  unfold disambig_step. rewrite E. rewrite (proj2 (Z.leb_le 97 _)), (proj2 (Z.leb_le _ 104)) by lia.
  cbn [andb]. f_equal. lia.
Qed.

Lemma disambig_rank sq f r : valid_sq sq -> disambig_step (f, r) (rank_char sq) = (f, rank_of sq).
Proof.
  intros H. destruct (rank_char_facts sq H) as (E & _). pose proof (square_on_board sq H) as [? ?].
  unfold disambig_step. rewrite E. rewrite (proj2 (Z.leb_gt 97 _)) by lia. cbn [andb].
  rewrite (proj2 (Z.leb_le 49 _)), (proj2 (Z.leb_le _ 56)) by lia. cbn [andb]. f_equal. lia.
Qed.

Lemma disambiguation_origin b m :
  valid_sq (from m) ->
  disambiguation (san_origin b m ++ (if is_capture b m then lit "x" else [])) = (san_file b m, san_rank b m).
Proof.
  intros V. pose proof (file_char_facts _ V) as (_ & _ & Fx & _).
  pose proof (rank_char_facts _ V) as (_ & Rx & _).
  unfold disambiguation, san_origin, san_file, san_rank.
  assert (forall l (p : bool), List.filter (fun c => negb (bool_decide (c = "x"%char)))
            (l ++ (if p then lit "x" else [])) =
          List.filter (fun c => negb (bool_decide (c = "x"%char))) l) as Hx.
  { intros l p. rewrite filter_app. destruct p; cbn; by rewrite app_nil_r. }
  assert (forall c, c <> "x"%char -> negb (bool_decide (c = "x"%char)) = true) as Hkeep.
  { intros c Hc. by rewrite bool_decide_eq_false_2. }
  rewrite Hx. destruct (bool_decide _).
  - destruct (is_capture b m); cbn [List.filter fold_left]; [|done].
    rewrite Hkeep by done. cbn [fold_left]. by apply disambig_file.
  - destruct (need_file b m), (need_rank b m); cbn [app List.filter]; rewrite ?Hkeep by done;
      cbn [fold_left]; rewrite ?disambig_file, ?disambig_rank by done; done.
Qed.

(** The letter in front names the piece. *)
Lemma parse_letter_app b m s :
  type (piece_at b (from m)) <> PieceType.NONE -> valid_sq (from m) -> valid_sq (to m) ->
  parse_letter (san_letter b m ++ (san_origin b m ++ (if is_capture b m then lit "x" else [])) ++
                file_char (to m) :: s) =
  Some (type (piece_at b (from m)), length (san_letter b m)).
Proof.
  intros Hn Vf Vt. unfold san_letter, san_origin. case_bool_decide as Hp.
  - cbn [app length]. rewrite Hp. destruct (file_char_facts _ Vf) as (_ & Uf & _).
    destruct (file_char_facts _ Vt) as (_ & Ut & _).
    destruct (is_capture b m); cbn [app parse_letter]; [by rewrite Uf|by rewrite Ut].
  - cbn [app parse_letter length]. destruct (type (piece_at b (from m))); try done.
Qed.

Lemma san_head b m s :
  valid_sq (from m) -> valid_sq (to m) -> type (piece_at b (from m)) <> PieceType.NONE ->
  exists c l, san_letter b m ++ (san_origin b m ++ (if is_capture b m then lit "x" else [])) ++
              file_char (to m) :: s = c :: l /\ c <> "O"%char.
Proof.
  intros Vf Vt Hn. unfold san_letter, san_origin.
  destruct (file_char_facts _ Vf) as (_ & _ & _ & _ & Hf). destruct (file_char_facts _ Vt) as (_ & _ & _ & _ & Ht).
  case_bool_decide.
  - destruct (is_capture b m); cbn [app]; by do 2 eexists.
  - cbn [app]. do 2 eexists. split; [done|]. by destruct (type _).
Qed.

Lemma parse_piece_move_san b m :
  position_ok b -> In m (generate_legal_moves b) ->
  parse_piece_move b (san_letter b m ++ san_origin b m ++ (if is_capture b m then lit "x" else []) ++
                      square_to_algebraic (to m) ++ san_promo m ++ san_check b m) = m.
Proof.
  intros Hok Hm. pose proof Hm as Hlm. apply in_generate_legal in Hlm as [Hpm _]; [|done].
  pose proof (pseudo_facts b m Hok Hpm) as [Vm Wm _ Om _ _ _].
  pose proof (legal_promo b m Hok Hm) as Hc.
  assert (type (piece_at b (from m)) <> PieceType.NONE) as Hn.
  { intros E. apply (ok_pieces b Hok _ Vm) in E. pose proof (ok_side b Hok). congruence. }
  set (mid := san_origin b m ++ (if is_capture b m then lit "x" else [])).
  set (body := (san_letter b m ++ mid) ++ [file_char (to m); rank_char (to m)]).
  assert (strip_check (san_letter b m ++ san_origin b m ++ (if is_capture b m then lit "x" else []) ++
            square_to_algebraic (to m) ++ san_promo m ++ san_check b m) = body ++ san_promo m) as E.
  { destruct (rank_char_facts _ Wm) as (_ & _ & Hs). pose proof (san_check_cases b m) as Hk.
    rewrite square_to_algebraic_valid by done. unfold body, san_promo. destruct (is_promotion m) eqn:Ep.
    - unfold promo_coherent in Hc. rewrite Ep in Hc.
      transitivity (strip_check ((body ++ ["="%char]) ++ piece_to_san_char (promo_type m) :: san_check b m)).
      + f_equal. unfold body, mid. rewrite <- !app_assoc. reflexivity.
      + rewrite strip_check_app; [by rewrite <- app_assoc| |done].
        by destruct Hc as [<-|[<-|[<-|[<-|[]]]]].
    - transitivity (strip_check (((san_letter b m ++ mid) ++ [file_char (to m)]) ++
                                 rank_char (to m) :: san_check b m)).
      + f_equal. unfold mid. rewrite <- !app_assoc. reflexivity.
      + rewrite strip_check_app by done. rewrite app_nil_r, <- app_assoc. reflexivity. }
  unfold parse_piece_move. rewrite E.
  destruct (body ++ san_promo m) as [|c0 l0] eqn:Eb.
  { exfalso. unfold body in Eb. apply app_eq_nil in Eb as [Eb _]. by apply app_eq_nil in Eb as [_ ?]. }
  rewrite <- Eb. clear E.
  assert (parse_letter (body ++ san_promo m) =
          Some (type (piece_at b (from m)), length (san_letter b m))) as ->.
  { unfold body, mid. rewrite <- !app_assoc. rewrite <- parse_letter_app with (s := rank_char (to m) :: san_promo m)
      by done. by rewrite <- !app_assoc. }
  destruct (file_char_facts _ Wm) as (Fv & _ & _ & Fe & _). destruct (rank_char_facts _ Wm) as (Rv & _).
  unfold body. rewrite parse_promotion_app by done.
  rewrite (proj2 (Nat.ltb_ge _ _)) by (rewrite !length_app; cbn; lia).
  rewrite (from_end_app _ _ 2), from_end_last by (done || cbn; lia). cbn [hd].
  rewrite Fv, Rv. pose proof (square_on_board _ Wm) as [? ?].
  replace (97 + file_of (to m) - 97) with (file_of (to m)) by lia.
  replace (49 + rank_of (to m) - 49) with (rank_of (to m)) by lia.
  do 4 (rewrite (proj2 (Z.ltb_ge _ _)) by lia). cbn [orb].
  rewrite <- app_assoc, middle_app. unfold mid. rewrite disambiguation_origin by done.
  by apply match_legal_self.
Qed.

Lemma castle_san_row b row fl :
  position_ok b -> In row castle_table -> row_color row = side_to_move_ b ->
  has_flag (castling_rights_ b) (row_right row) = true ->
  castle_san b (file_of (king_to row)) fl = flag_move (king_from row) (king_to row) fl.
Proof.
  intros Hok Hin Hc Hr. destruct (ok_castle b Hok row Hin Hr) as [Hk _].
  destruct (ok_king b Hok (side_to_move_ b) (ok_side b Hok)) as (k & Hv & Hu).
  pose proof (castle_row_facts row Hin) as [(V & _) _ _ _ _ _].
  unfold castle_san. rewrite (find_king_some b _ (king_from row)).
  - f_equal. cbn in Hin. by destruct Hin as [<-|[<-|[<-|[<-|[]]]]].
  - done.
  - by rewrite Hk, Hc.
  - intros s Hs Hks. transitivity k; [by apply Hu|]. symmetry. apply Hu; [done|]. by rewrite Hk, Hc.
Qed.

Lemma san_to_move_san b m :
  position_ok b -> In m (generate_legal_moves b) -> san_to_move b (move_to_san b m) = m.
Proof.
  intros Hok Hm. pose proof Hm as Hlm. apply in_generate_legal in Hlm as [Hpm _]; [|done].
  pose proof (pseudo_facts b m Hok Hpm) as [Vm Wm _ Om _ _ Sh].
  destruct (is_castle m) eqn:Ec.
  - inversion Sh as [s t|s t pt|s t|s t|row Hin Hcol Hr _ _ E]; subst; try done.
    assert (row_flag row = MoveFlags.KINGSIDE_CASTLE /\ file_of (king_to row) = 6 \/
            row_flag row = MoveFlags.QUEENSIDE_CASTLE /\ file_of (king_to row) = 2) as [[F6 F]|[F6 F]]
      by (cbn in Hin; destruct Hin as [<-|[<-|[<-|[<-|[]]]]]; auto);
      pose proof (castle_san_row b row (row_flag row) Hok Hin Hcol Hr) as Hs; rewrite F, F6 in Hs;
      unfold move_to_san, is_kingside_castle, is_queenside_castle; cbn [flags flag_move]; rewrite F6;
      exact Hs.
  - assert (type (piece_at b (from m)) <> PieceType.NONE) as Hn.
    { intros E. apply (ok_pieces b Hok _ Vm) in E. pose proof (ok_side b Hok). congruence. }
    unfold is_castle in Ec. apply orb_false_iff in Ec as [Ek Eq].
    unfold move_to_san. rewrite Ek, Eq. unfold san_to_move.
    pose proof (parse_piece_move_san b m Hok Hm) as Hparse.
    destruct (san_head b m (rank_char (to m) :: san_promo m ++ san_check b m) Vm Wm Hn) as (c & l & Eh & Hc).
    assert (san_letter b m ++ san_origin b m ++ (if is_capture b m then lit "x" else []) ++
            square_to_algebraic (to m) ++ san_promo m ++ san_check b m = c :: l) as E.
    { rewrite <- Eh, square_to_algebraic_valid by done. by rewrite <- !app_assoc. }
    rewrite E in *. rewrite !bool_decide_eq_false_2 by (cbn; congruence). done.
Qed.
