(* ===== verification/RoomState.v ===== *)
(** * The data of a game room: src/src/game/game_room.h, game_snapshot.h, game_events.h

    Time points are nanoseconds ([steady_clock], [system_clock]); durations read
    by the code are [int] milliseconds, obtained by the truncating
    [duration_cast] and the narrowing cast of the source. *)
From coqutil Require Export Datatypes.RecordSetters.
From S2P Require Import Prelude Types BoardState Zobrist Board MoveGen Fen Notation.
Export TriangleBracketNotations.

Module RoomState.
Inductive t := WAITING | IN_PROGRESS | FINISHED.
#[export] Instance eq_dec : EqDecision t.
Proof. solve_decision. Defined.
End RoomState.
#[export] Existing Instance RoomState.eq_dec.

Module AIDifficulty.
Inductive t := EASY | MEDIUM | HARD | MAX.
End AIDifficulty.

(** [difficulty_name] (ai_player.cpp) *)
Definition difficulty_name (d : AIDifficulty.t) : str :=
  match d with
  | AIDifficulty.EASY => lit "Easy" | AIDifficulty.MEDIUM => lit "Medium"
  | AIDifficulty.HARD => lit "Hard" | AIDifficulty.MAX => lit "Max"
  end.

Definition parse_difficulty (s : str) : AIDifficulty.t :=
  if bool_decide (s = lit "easy") then AIDifficulty.EASY
  else if bool_decide (s = lit "medium") then AIDifficulty.MEDIUM
  else if bool_decide (s = lit "hard") then AIDifficulty.HARD
  else if bool_decide (s = lit "max") then AIDifficulty.MAX
  else AIDifficulty.MEDIUM.

Record TimeControl := mkTimeControl { base_time_ms : Z; increment_ms : Z }.

(** [TimeControl::to_string]: [int] division truncates. *)
Definition time_control_string (tc : TimeControl) : str :=
  to_string (Z.quot (base_time_ms tc) 1000) ++ lit "+" ++ to_string (Z.quot (increment_ms tc) 1000).

Record PlayerSlot := mkSlot {
  connection_fd : Z;
  connection_generation : Z;
  player_id : Z;
  db_player_id : Z;
  username : str;
  elo : Z;
  remaining_ms : Z;
  connected : bool;
  tournament_checked_in : bool;
  disconnected_at : Z;
  clock_start : Z
}.

(** The default member initializers. *)
Definition empty_slot : PlayerSlot := mkSlot (-1) 0 0 0 [] 1200 0 false false 0 0.
Definition slot_is_empty (s : PlayerSlot) : bool := connection_fd s =? -1.

Record MoveRecord := mkRecord { rec_move : Move; rec_san : str; think_time_ms : Z }.

(** ** Snapshots and events *)

Record PlayerSnapshot := mkPlayerSnapshot {
  ps_db_player_id : Z; ps_player_id : Z; ps_username : str; ps_elo : Z; ps_remaining_ms : Z
}.

Record GameSnapshot := mkSnapshot {
  room_id : Z;
  completion_uuid : str;
  snap_is_ai_game : bool;
  snap_tournament_id : Z;
  snap_pairing_id : Z;
  snap_revision : Z;
  status : GameStatus.t;
  result : str;
  termination_reason : str;
  snap_white : PlayerSnapshot;
  snap_black : PlayerSnapshot;
  snap_time_control : TimeControl;
  started_at_iso : str;
  ended_at_iso : str;
  history : list MoveRecord;
  move_count : Z
}.

Record GameStarted := mkStarted {
  ev_room_id : Z; ev_white_db_id : Z; ev_black_db_id : Z; ev_is_ai_game : bool;
  ev_tournament_id : Z; ev_pairing_id : Z
}.

(** What a room operation makes happen once its lock is released: callbacks of
    listeners (identified by pointer) and the pre-completion callback. *)
Inductive Event :=
| OnStarted (listener : Z) (ev : GameStarted)
| BeforeCompletion (callback : Z)
| OnCompleted (listener : Z) (ev : GameSnapshot).

(** ** The room *)

(** Fields fixed by the constructors. *)
Record RoomConfig := mkConfig {
  id_ : Z;
  time_control_ : TimeControl;
  is_ai_ : bool;
  is_tournament_reserved_ : bool;
  tournament_id_ : Z;
  pairing_id_ : Z;
  ai_difficulty_ : AIDifficulty.t;
  ai_color_ : Color.t
}.

Record Room := mkRoom {
  config : RoomConfig;
  state_ : RoomState.t;
  board_ : Board;
  result_ : str;
  game_status_ : GameStatus.t;
  reserved_open_ : bool;
  white_ : PlayerSlot;
  black_ : PlayerSlot;
  move_history_ : list MoveRecord;
  draw_offer_from_ : option Color.t;
  draw_offer_created_at_ : Z;
  rematch_offer_from_ : option Color.t;
  rematch_offer_created_at_ : Z;
  spectator_fds_ : list Z;
  game_start_time_ : Z;
  wall_start_ : Z;
  wall_end_ : Z;
  revision_ : Z;
  listeners_ : list Z;
  pending_completed_ : option GameSnapshot;
  pending_listeners_snapshot_ : list Z;
  pending_before_completion_ : option Z
}.

(** The clock and the UUID source seen by one operation: the successive readings
    of [steady_now], the reading of [system_now], the next UUID. *)
Record Env := mkEnv { steady : nat -> Z; system : Z; uuid : str }.

(** ** Formatting *)

(** Proleptic Gregorian date of a day number counted from 1970-01-01
    ([gmtime_r] of the C library). *)
Definition civil_from_days (days : Z) : Z * Z * Z :=
  let z := days + 719468 in
  let era := z / 146097 in
  let doe := z mod 146097 in
  let yoe := (doe - doe / 1460 + doe / 36524 - doe / 146096) / 365 in
  let doy := doe - (365 * yoe + yoe / 4 - yoe / 100) in
  let mp := (5 * doy + 2) / 153 in
  let d := doy - (153 * mp + 2) / 5 + 1 in
  let m := if mp <? 10 then mp + 3 else mp - 9 in
  (yoe + era * 400 + (if m <=? 2 then 1 else 0), m, d).

Definition pad2 (n : Z) : str := (if n <? 10 then lit "0" else []) ++ to_string n.

(** [format_iso8601]: [to_time_t], [gmtime_r], [strftime "%Y-%m-%dT%H:%M:%SZ"]. *)
Definition format_iso8601 (tp : Z) : str :=
  let secs := Z.quot tp 1000000000 in
  let '(y, m, d) := civil_from_days (secs / 86400) in
  let s := secs mod 86400 in
  to_string y ++ lit "-" ++ pad2 m ++ lit "-" ++ pad2 d ++ lit "T" ++
  pad2 (s / 3600) ++ lit ":" ++ pad2 (s / 60 mod 60) ++ lit ":" ++ pad2 (s mod 60) ++ lit "Z".

Definition snapshot_termination_reason (s : GameStatus.t) : str :=
  match s with
  | GameStatus.CHECKMATE => lit "checkmate"
  | GameStatus.STALEMATE => lit "stalemate"
  | GameStatus.DRAW_FIFTY_MOVE => lit "fifty_move_rule"
  | GameStatus.DRAW_INSUFFICIENT_MATERIAL => lit "insufficient_material"
  | GameStatus.DRAW_THREEFOLD_REPETITION => lit "threefold_repetition"
  | GameStatus.DRAW_AGREEMENT => lit "draw_agreement"
  | GameStatus.RESIGNATION => lit "resignation"
  | GameStatus.TIMEOUT => lit "timeout"
  | GameStatus.ABANDONMENT => lit "abandonment"
  | GameStatus.ONGOING => lit "unknown"
  end.

(** [static_cast<int>] of a wider integer. *)
Definition to_int (z : Z) : Z := (z + 2 ^ 31) mod 2 ^ 32 - 2 ^ 31.

(** [static_cast<int>(duration_cast<milliseconds>(now - start).count())] *)
Definition elapsed_ms (now start : Z) : Z := to_int (Z.quot (now - start) 1000000).

(** A [milliseconds] duration in clock ticks. *)
Definition ms_ticks (ms : Z) : Z := ms * 1000000.
