(* ===== verification/GameRoom.v ===== *)
(** * Operations of a game room: src/src/game/game_room.cpp

    One definition per public method.  [locked] is the [LockAndDrain] guard: a
    method body runs on the room, then the completion event it may have queued is
    drained to the listeners.  Methods that emit [GameStarted] append those events
    afterwards, as the source does once the guard is gone. *)
From S2P Require Import Prelude Types BoardState Zobrist Board MoveGen Fen Uci Notation RoomState.

(** ** Internal helpers *)

Definition color_of (r : Room) (fd : Z) : Color.t :=
  if connection_fd (white_ r) =? fd then Color.WHITE
  else if connection_fd (black_ r) =? fd then Color.BLACK
  else Color.NONE.

(** [c == Color::WHITE ? white_ : black_] *)
Definition seat (r : Room) (c : Color.t) : PlayerSlot :=
  if bool_decide (c = Color.WHITE) then white_ r else black_ r.
Definition set_seat (r : Room) (c : Color.t) (s : PlayerSlot) : Room :=
  if bool_decide (c = Color.WHITE) then r <| white_ := s |> else r <| black_ := s |>.

Definition bump (r : Room) : Room := r <| revision_ ::= fun v => wrap64 (v + 1) |>.

Definition player_snapshot (s : PlayerSlot) : PlayerSnapshot :=
  mkPlayerSnapshot (db_player_id s) (player_id s) (username s) (elo s) (remaining_ms s).

Definition build_snapshot_locked (env : Env) (r : Room) : GameSnapshot :=
  let cfg := config r in
  mkSnapshot (id_ cfg) (uuid env) (is_ai_ cfg) (tournament_id_ cfg) (pairing_id_ cfg) (revision_ r)
    (game_status_ r) (result_ r) (snapshot_termination_reason (game_status_ r))
    (player_snapshot (white_ r)) (player_snapshot (black_ r)) (time_control_ cfg)
    (format_iso8601 (wall_start_ r)) (format_iso8601 (wall_end_ r))
    (move_history_ r) (to_int (Z.of_nat (length (move_history_ r)))).

Definition finish_game (env : Env) (r : Room) (st : GameStatus.t) (res : str) : Room :=
  let r := r <| state_ := RoomState.FINISHED |> <| game_status_ := st |> <| result_ := res |>
             <| wall_end_ := system env |> in
  let snap := build_snapshot_locked env r in
  r <| pending_completed_ := Some snap |> <| pending_listeners_snapshot_ := listeners_ r |>.

Definition active (r : Room) : PlayerSlot := seat r (side_to_move_ (board_ r)).

Definition check_flag (now : Z) (r : Room) : bool :=
  bool_decide (state_ r = RoomState.IN_PROGRESS) &&
  (remaining_ms (active r) - elapsed_ms now (clock_start (active r)) <=? 0).

Definition switch_clock (now : Z) (r : Room) : Room :=
  let just_moved := opposite_color (side_to_move_ (board_ r)) in
  let next := if bool_decide (just_moved = Color.WHITE) then Color.BLACK else Color.WHITE in
  let mover := seat r just_moved in
  let left_ms := remaining_ms mover - elapsed_ms now (clock_start mover)
                 + increment_ms (time_control_ (config r)) in
  let left_ms := if left_ms <? 0 then 0 else left_ms in
  let r := set_seat r just_moved (mover <| remaining_ms := left_ms |>) in
  set_seat r next ((seat r next) <| clock_start := now |>).

(** ** The guard *)

Definition drain (r : Room) : Room * list Event :=
  match pending_completed_ r with
  | None => (r, [])
  | Some ev =>
      (r <| pending_completed_ := None |> <| pending_listeners_snapshot_ := [] |>
         <| pending_before_completion_ := None |>,
       match pending_before_completion_ r with Some cb => [BeforeCompletion cb] | None => [] end ++
       map (fun l => OnCompleted l ev) (pending_listeners_snapshot_ r))
  end.

Definition locked {A} (body : Room -> Room * A) (r : Room) : Room * A * list Event :=
  let '(r, a) := body r in
  let '(r, evs) := drain r in
  (r, a, evs).

(** [emit_started] *)
Definition emit_started (r : Room) (ev : GameStarted) : list Event :=
  map (fun l => OnStarted l ev) (listeners_ r).

(** A locked body that may ask for [GameStarted] once the lock is released. *)
Definition locked_start {A} (body : Room -> Room * A * option GameStarted) (r : Room)
    : Room * A * list Event :=
  let '(r, (a, started), evs) := locked (fun r => let '(r, a, s) := body r in (r, (a, s))) r in
  (r, a, evs ++ match started with Some ev => emit_started r ev | None => [] end).

(** ** Construction *)

Definition creator_slot (creator_id : Z) (creator_name : str) (fd : Z) (tc : TimeControl)
    (db_id elo0 : Z) : PlayerSlot :=
  empty_slot <| connection_fd := fd |> <| player_id := creator_id |> <| db_player_id := db_id |>
    <| username := creator_name |> <| elo := elo0 |> <| remaining_ms := base_time_ms tc |>
    <| connected := true |>.

Definition fresh_room (cfg : RoomConfig) (st : RoomState.t) (w b : PlayerSlot) : Room :=
  mkRoom cfg st starting_position (lit "*") GameStatus.ONGOING false w b [] None 0 None 0 [] 0 0 0 0 []
    None [] None.

Definition new_room (id creator_id : Z) (creator_name : str) (fd : Z) (tc : TimeControl)
    (db_id elo0 : Z) : Room :=
  fresh_room (mkConfig id tc false false 0 0 AIDifficulty.MEDIUM Color.BLACK) RoomState.WAITING
    (creator_slot creator_id creator_name fd tc db_id elo0) empty_slot.

Definition new_ai_room (env : Env) (id creator_id : Z) (creator_name : str) (fd : Z)
    (tc : TimeControl) (difficulty : AIDifficulty.t) (db_id elo0 : Z) : Room :=
  let now := steady env 0 in
  let ai := empty_slot <| connection_fd := -2 |> <| player_id := 0 |>
              <| username := lit "AI (" ++ difficulty_name difficulty ++ lit ")" |>
              <| remaining_ms := base_time_ms tc |> <| connected := true |> in
  (fresh_room (mkConfig id tc true false 0 0 difficulty Color.BLACK) RoomState.IN_PROGRESS
    ((creator_slot creator_id creator_name fd tc db_id elo0) <| clock_start := now |>) ai)
  <| game_start_time_ := now |> <| wall_start_ := system env |>.

Definition reserved_slot (db_id : Z) (name : str) (elo0 : Z) (tc : TimeControl) : PlayerSlot :=
  empty_slot <| db_player_id := db_id |> <| username := name |> <| elo := elo0 |>
    <| remaining_ms := base_time_ms tc |>.

Definition new_reserved_room (id tournament pairing white_db : Z) (white_name : str)
    (white_elo black_db : Z) (black_name : str) (black_elo : Z) (tc : TimeControl) : Room :=
  fresh_room (mkConfig id tc false true tournament pairing AIDifficulty.MEDIUM Color.BLACK)
    RoomState.WAITING (reserved_slot white_db white_name white_elo tc)
    (reserved_slot black_db black_name black_elo tc).

(** ** Listeners *)

Definition add_listener (l : Z) (r : Room) : Room * unit * list Event :=
  if l =? 0 (* the null pointer *) then (r, tt, []) else
  locked (fun r => (r <| listeners_ ::= fun ls => ls ++ [l] |>, tt)) r.

(** Erases the first occurrence. *)
Fixpoint erase_first (x : Z) (l : list Z) : option (list Z) :=
  match l with
  | [] => None
  | y :: l => if y =? x then Some l
              else match erase_first x l with Some l => Some (y :: l) | None => None end
  end.

Definition remove_listener (l : Z) : Room -> Room * bool * list Event :=
  locked (fun r => match erase_first l (listeners_ r) with
                   | Some ls => (r <| listeners_ := ls |>, true)
                   | None => (r, false)
                   end).

(** ** Seating *)

Definition start_game (env : Env) (r : Room) : Room :=
  let now := steady env 0 in
  r <| state_ := RoomState.IN_PROGRESS |> <| game_start_time_ := now |>
    <| wall_start_ := system env |> <| white_ := (white_ r) <| clock_start := now |> |>.

Definition join (env : Env) (pid : Z) (name : str) (fd db_id elo0 : Z)
    : Room -> Room * bool * list Event :=
  locked_start (fun r =>
    if negb (bool_decide (state_ r = RoomState.WAITING)) || is_tournament_reserved_ (config r)
    then (r, false, None)
    else if negb (slot_is_empty (black_ r)) then (r, false, None)
    else
      let r := bump r in
      let r := r <| black_ := (black_ r) <| connection_fd := fd |> <| player_id := pid |>
                     <| db_player_id := db_id |> <| username := name |> <| elo := elo0 |>
                     <| remaining_ms := base_time_ms (time_control_ (config r)) |>
                     <| connected := true |> |> in
      let r := start_game env r in
      (r, true, Some (mkStarted (id_ (config r)) (db_player_id (white_ r)) (db_player_id (black_ r))
                                false 0 0))).

Record ReservedBindResult := mkBind { bind_ok : bool; bind_color : Color.t; bind_started : bool;
                                      bind_error : str }.

Definition tournament_started (r : Room) : GameStarted :=
  mkStarted (id_ (config r)) (db_player_id (white_ r)) (db_player_id (black_ r)) false
            (tournament_id_ (config r)) (pairing_id_ (config r)).

(** Starts a reserved room whose two seats are connected. *)
Definition ready_to_start (r : Room) : bool :=
  bool_decide (state_ r = RoomState.WAITING) && connected (white_ r) && connected (black_ r).

Definition attach (s : PlayerSlot) (pid fd : Z) : PlayerSlot :=
  s <| player_id := pid |> <| connection_fd := fd |> <| connected := true |> <| disconnected_at := 0 |>.

Definition bind_body (env : Env) (db_id pid fd : Z) (replace_existing : bool) (generation : Z)
    (r : Room) : Room * ReservedBindResult * option GameStarted :=
  let err c e := (r, mkBind false c false e, None) in
  if negb (is_tournament_reserved_ (config r)) then err Color.NONE (lit "not_tournament_room") else
  if bool_decide (state_ r = RoomState.FINISHED) then err Color.NONE (lit "game_finished") else
  let c := if db_player_id (white_ r) =? db_id then Color.WHITE
           else if db_player_id (black_ r) =? db_id then Color.BLACK else Color.NONE in
  if bool_decide (c = Color.NONE) then err c (lit "not_reserved_player") else
  let s := seat r c in
  if negb (tournament_checked_in s) then err c (lit "round_check_in_required") else
  if generation <? connection_generation s then err c (lit "connection_replaced") else
  if connected s && negb (connection_fd s =? fd) && negb replace_existing
  then err c (lit "seat_already_connected") else
  let '(r, s) := if negb (connected s) || negb (connection_fd s =? fd)
                 then (bump r, attach s pid fd) else (r, s) in
  let r := set_seat r c (s <| connection_generation := generation |>) in
  if reserved_open_ r && ready_to_start r
  then let r := start_game env r in
       (r, mkBind true c true [], Some (tournament_started r))
  else (r, mkBind true c false [], None).

Definition bind_reserved_player (env : Env) (db_id pid fd : Z) (replace_existing : bool)
    (generation : Z) : Room -> Room * ReservedBindResult * list Event :=
  locked_start (bind_body env db_id pid fd replace_existing generation).

Definition allow_reserved_player (db_id : Z) : Room -> Room * bool * list Event :=
  locked (fun r =>
    if negb (is_tournament_reserved_ (config r)) || bool_decide (state_ r = RoomState.FINISHED)
    then (r, false)
    else if db_player_id (white_ r) =? db_id
    then (r <| white_ := (white_ r) <| tournament_checked_in := true |> |>, true)
    else if db_player_id (black_ r) =? db_id
    then (r <| black_ := (black_ r) <| tournament_checked_in := true |> |>, true)
    else (r, false)).

Definition open_reserved (env : Env) : Room -> Room * bool * list Event :=
  locked_start (fun r =>
    if negb (is_tournament_reserved_ (config r)) || bool_decide (state_ r = RoomState.FINISHED)
    then (r, false, None)
    else
      let r := r <| reserved_open_ := true |> in
      if ready_to_start r
      then let r := start_game env (bump r) in (r, true, Some (tournament_started r))
      else (r, true, None)).

(** ** Moves *)

(** A failed [MoveResult] carries no clocks: the source leaves them unset. *)
Inductive MoveResult :=
| Rejected (st : GameStatus.t) (error : str)
| Accepted (san : str) (st : GameStatus.t) (white_time_ms black_time_ms : Z) (fen : str)
           (legal_moves : list str) (draw_offer_declined : bool).

(** The loop that looks for the submitted move among the legal ones. *)
Definition move_requested (f t : Z) (promo : PieceType.t) (c : Move) : bool :=
  (from c =? f) && (to c =? t) &&
  (negb (is_promotion c) ||
   bool_decide (promo_type c =
                if bool_decide (promo = PieceType.NONE) then PieceType.QUEEN else promo)).

Definition find_move (b : Board) (f t : Z) (promo : PieceType.t) : option Move :=
  find (move_requested f t promo) (generate_legal_moves b).

(** The [switch] on the status after a move. *)
Definition result_of_status (st : GameStatus.t) (side : Color.t) : str :=
  match st with
  | GameStatus.CHECKMATE => if bool_decide (side = Color.WHITE) then lit "0-1" else lit "1-0"
  | GameStatus.STALEMATE | GameStatus.DRAW_FIFTY_MOVE
  | GameStatus.DRAW_INSUFFICIENT_MATERIAL | GameStatus.DRAW_THREEFOLD_REPETITION => lit "1/2-1/2"
  | _ => lit "*"
  end.

(** From the switched clock to the end of the method: status, result, reply. *)
Definition conclude_move (env : Env) (san : str) (declined : bool) (r : Room) : Room * MoveResult :=
  let st := get_game_status (board_ r) in
  let ongoing := bool_decide (st = GameStatus.ONGOING) in
  let r := if ongoing then r
           else finish_game env r st (result_of_status st (side_to_move_ (board_ r))) in
  (r, Accepted san st (remaining_ms (white_ r)) (remaining_ms (black_ r)) (to_fen (board_ r))
        (if ongoing then map to_uci (generate_legal_moves (board_ r)) else []) declined).

Definition loses (c : Color.t) : str := if bool_decide (c = Color.WHITE) then lit "0-1" else lit "1-0".

Definition submit_body (env : Env) (fd f t : Z) (promo : PieceType.t) (r : Room) : Room * MoveResult :=
  let r := bump r in
  let fail e := (r, Rejected (game_status_ r) e) in
  if negb (bool_decide (state_ r = RoomState.IN_PROGRESS)) then fail (lit "Game is not in progress") else
  let c := color_of r fd in
  if bool_decide (c = Color.NONE) then fail (lit "You are not a player in this game") else
  if negb (bool_decide (c = side_to_move_ (board_ r))) then fail (lit "It is not your turn") else
  if check_flag (steady env 0) r then
    (finish_game env r GameStatus.TIMEOUT (loses c),
     Rejected GameStatus.TIMEOUT (lit "You have run out of time")) else
  match find_move (board_ r) f t promo with
  | None => fail (lit "Illegal move")
  | Some m =>
      let san := move_to_san (board_ r) m in
      let think := elapsed_ms (steady env 1) (clock_start (seat r c)) in
      let r := r <| board_ := after_move (board_ r) m |> in
      let declined := match draw_offer_from_ r with
                      | Some o => negb (bool_decide (o = c)) | None => false end in
      let r := if declined then r <| draw_offer_from_ := None |> <| draw_offer_created_at_ := 0 |>
               else r in
      let r := r <| move_history_ ::= fun h => h ++ [mkRecord m san think] |> in
      conclude_move env san declined (switch_clock (steady env 2) r)
  end.

Definition submit_move (env : Env) (fd f t : Z) (promo : PieceType.t)
    : Room -> Room * MoveResult * list Event := locked (submit_body env fd f t promo).

Definition submit_ai_body (env : Env) (f t : Z) (promo : PieceType.t) (r : Room) : Room * MoveResult :=
  let r := bump r in
  let fail e := (r, Rejected (game_status_ r) e) in
  let c := ai_color_ (config r) in
  if negb (bool_decide (state_ r = RoomState.IN_PROGRESS)) then fail (lit "Game is not in progress") else
  if negb (is_ai_ (config r)) then fail (lit "Not an AI game") else
  if negb (bool_decide (side_to_move_ (board_ r) = c)) then fail (lit "It is not the AI's turn") else
  if check_flag (steady env 0) r then
    (finish_game env (set_seat r c ((seat r c) <| remaining_ms := 0 |>)) GameStatus.TIMEOUT (loses c),
     Rejected GameStatus.TIMEOUT (lit "AI clock expired")) else
  match find_move (board_ r) f t promo with
  | None => fail (lit "AI produced illegal move")
  | Some m =>
      let san := move_to_san (board_ r) m in
      let think := elapsed_ms (steady env 1) (clock_start (seat r c)) in
      let r := r <| board_ := after_move (board_ r) m |> in
      let r := r <| move_history_ ::= fun h => h ++ [mkRecord m san think] |> in
      conclude_move env san false (switch_clock (steady env 2) r)
  end.

Definition submit_move_ai (env : Env) (f t : Z) (promo : PieceType.t)
    : Room -> Room * MoveResult * list Event := locked (submit_ai_body env f t promo).

(** ** Resignation and draw offers *)

(** [bool] results with an [error] out-parameter. *)
Inductive Outcome := Done | Failed (error : str).

Definition resign (env : Env) (fd : Z) (on_committed : option Z) : Room -> Room * bool * list Event :=
  locked (fun r =>
    let r := bump r in
    if negb (bool_decide (state_ r = RoomState.IN_PROGRESS)) then (r, false) else
    let c := color_of r fd in
    if bool_decide (c = Color.NONE) then (r, false) else
    (finish_game env (r <| pending_before_completion_ := on_committed |>)
       GameStatus.RESIGNATION (loses c), true)).

Definition offer_draw (env : Env) (fd : Z) : Room -> Room * Outcome * list Event :=
  locked (fun r =>
    let fail e := (r, Failed e) in
    if negb (bool_decide (state_ r = RoomState.IN_PROGRESS)) then fail (lit "Game is not in progress") else
    if is_ai_ (config r) then fail (lit "Draw offers are only available in human games") else
    let offerer := color_of r fd in
    if bool_decide (offerer = Color.NONE) then fail (lit "You are not a player in this game") else
    let opponent := if bool_decide (offerer = Color.WHITE) then black_ r else white_ r in
    if negb (connected opponent) then fail (lit "Your opponent is currently disconnected") else
    match draw_offer_from_ r with
    | Some o => if bool_decide (o = offerer) then fail (lit "You already offered a draw")
                else fail (lit "Respond to your opponent's draw offer first")
    | None => ((bump r) <| draw_offer_from_ := Some offerer |>
                 <| draw_offer_created_at_ := steady env 0 |>, Done)
    end).

Definition respond_to_draw (env : Env) (fd : Z) (accept : bool) : Room -> Room * Outcome * list Event :=
  locked (fun r =>
    let fail e := (r, Failed e) in
    match (if bool_decide (state_ r = RoomState.IN_PROGRESS) then draw_offer_from_ r else None) with
    | None => fail (lit "There is no pending draw offer")
    | Some offerer =>
        let responder := color_of r fd in
        if bool_decide (responder = Color.NONE) then fail (lit "You are not a player in this game") else
        if bool_decide (responder = offerer)
        then fail (lit "Only your opponent can respond to this draw offer") else
        let r := (bump r) <| draw_offer_from_ := None |> <| draw_offer_created_at_ := 0 |> in
        (if accept then finish_game env r GameStatus.DRAW_AGREEMENT (lit "1/2-1/2") else r, Done)
    end).

Definition expire_draw_offer (env : Env) (ttl : Z) : Room -> Room * Color.t * list Event :=
  locked (fun r =>
    match (if bool_decide (state_ r = RoomState.IN_PROGRESS) then draw_offer_from_ r else None) with
    | None => (r, Color.NONE)
    | Some offerer =>
        if steady env 0 - draw_offer_created_at_ r <? ms_ticks ttl then (r, Color.NONE)
        else ((bump r) <| draw_offer_from_ := None |> <| draw_offer_created_at_ := 0 |>, offerer)
    end).

(** ** Rematch offers *)

Definition offer_rematch (env : Env) (fd : Z) : Room -> Room * Outcome * list Event :=
  locked (fun r =>
    let fail e := (r, Failed e) in
    if negb (bool_decide (state_ r = RoomState.FINISHED)) then fail (lit "The current game has not finished") else
    if is_ai_ (config r) then fail (lit "AI rematches start immediately") else
    if is_tournament_reserved_ (config r) then fail (lit "Tournament games do not support rematches") else
    let offerer := color_of r fd in
    if bool_decide (offerer = Color.NONE) then fail (lit "You are not a player in this game") else
    let opponent := if bool_decide (offerer = Color.WHITE) then black_ r else white_ r in
    if negb (connected opponent) || (connection_fd opponent <? 0)
    then fail (lit "Your opponent is no longer connected") else
    match rematch_offer_from_ r with
    | Some o => if bool_decide (o = offerer) then fail (lit "You already offered a rematch")
                else fail (lit "Respond to your opponent's rematch offer first")
    | None => ((bump r) <| rematch_offer_from_ := Some offerer |>
                 <| rematch_offer_created_at_ := steady env 0 |>, Done)
    end).

(** The result also holds the [offerer] out-parameter. *)
Definition respond_to_rematch (fd : Z) (accept : bool)
    : Room -> Room * (Outcome * Color.t) * list Event :=
  locked (fun r =>
    let fail e := (r, (Failed e, Color.NONE)) in
    match (if bool_decide (state_ r = RoomState.FINISHED) then rematch_offer_from_ r else None) with
    | None => fail (lit "There is no pending rematch offer")
    | Some offerer =>
        let responder := color_of r fd in
        if bool_decide (responder = Color.NONE) then fail (lit "You are not a player in this game") else
        if bool_decide (responder = offerer)
        then fail (lit "Only your opponent can respond to this rematch offer") else
        ((bump r) <| rematch_offer_from_ := None |> <| rematch_offer_created_at_ := 0 |>, (Done, offerer))
    end).

Definition expire_rematch_offer (env : Env) (ttl : Z) : Room -> Room * Color.t * list Event :=
  locked (fun r =>
    match (if bool_decide (state_ r = RoomState.FINISHED) then rematch_offer_from_ r else None) with
    | None => (r, Color.NONE)
    | Some offerer =>
        if steady env 0 - rematch_offer_created_at_ r <? ms_ticks ttl then (r, Color.NONE)
        else ((bump r) <| rematch_offer_from_ := None |> <| rematch_offer_created_at_ := 0 |>, offerer)
    end).

(** ** Clock expiry and connections *)

Definition expire_on_time (env : Env) : Room -> Room * bool * list Event :=
  locked (fun r =>
    if negb (bool_decide (state_ r = RoomState.IN_PROGRESS)) || negb (check_flag (steady env 0) r)
    then (r, false)
    else
      let flagged := side_to_move_ (board_ r) in
      let r := set_seat r flagged ((seat r flagged) <| remaining_ms := 0 |>) in
      (finish_game env (bump r) GameStatus.TIMEOUT (loses flagged), true)).

Definition detach (now : Z) (s : PlayerSlot) : PlayerSlot :=
  s <| connected := false |> <| disconnected_at := now |> <| connection_fd := -1 |>.

Definition on_disconnect (env : Env) (fd : Z) : Room -> Room * unit * list Event :=
  locked (fun r =>
    let c := color_of r fd in
    if bool_decide (c = Color.NONE) || negb (connected (seat r c)) then (r, tt) else
    let r := set_seat (bump r) c (detach (steady env 0) (seat r c)) in
    if bool_decide (state_ r = RoomState.FINISHED) then (r, tt) else
    if bool_decide (state_ r = RoomState.WAITING) && negb (is_tournament_reserved_ (config r))
    then (finish_game env r GameStatus.RESIGNATION (lit "*"), tt)
    else (r, tt)).

Definition reattach (s : PlayerSlot) (fd : Z) : PlayerSlot :=
  s <| connection_fd := fd |> <| connected := true |> <| disconnected_at := 0 |>.

Definition on_reconnect (pid fd : Z) : Room -> Room * bool * list Event :=
  locked (fun r =>
    let r := bump r in
    if bool_decide (state_ r = RoomState.FINISHED) then (r, false) else
    if player_id (white_ r) =? pid then (r <| white_ := reattach (white_ r) fd |>, true) else
    if player_id (black_ r) =? pid then (r <| black_ := reattach (black_ r) fd |>, true) else
    (r, false)).

(** [static_cast<PlayerId>] of a 64-bit identifier. *)
Definition to_player_id (db_id : Z) : Z := db_id mod 2 ^ 64.

Definition on_reconnect_db_player (env : Env) (db_id fd generation : Z) (r0 : Room)
    : Room * bool * list Event :=
  if is_tournament_reserved_ (config r0) then
    let '(r, res, evs) := bind_reserved_player env db_id (to_player_id db_id) fd true generation r0 in
    (r, bind_ok res, evs)
  else
    locked (fun r =>
      if db_id <=? 0 then (r, false) else
      let c := if db_player_id (white_ r) =? db_id then Color.WHITE
               else if db_player_id (black_ r) =? db_id then Color.BLACK else Color.NONE in
      if bool_decide (c = Color.NONE) then (r, false) else
      let s := seat r c in
      if generation <? connection_generation s then (r, false) else
      if connected s && (connection_fd s =? fd)
      then (set_seat r c (s <| connection_generation := generation |>), true) else
      (set_seat (bump r) c ((reattach s fd) <| connection_generation := generation |>), true)) r0.

Definition expire_disconnected (env : Env) (grace : Z) : Room -> Room * bool * list Event :=
  locked (fun r =>
    if negb (bool_decide (state_ r = RoomState.IN_PROGRESS)) then (r, false) else
    let now := steady env 0 in
    let expired s := negb (connected s) && (ms_ticks grace <=? now - disconnected_at s) in
    let white_expired := expired (white_ r) in
    let black_expired := expired (black_ r) in
    if negb white_expired && negb black_expired then (r, false) else
    let result :=
      if white_expired && black_expired &&
         (disconnected_at (white_ r) =? disconnected_at (black_ r))
      then lit "1/2-1/2"
      else if white_expired && (negb black_expired ||
                                (disconnected_at (white_ r) <? disconnected_at (black_ r)))
      then lit "0-1" else lit "1-0" in
    (finish_game env (bump r) GameStatus.ABANDONMENT result, true)).

(** ** Spectators *)

Definition add_spectator (fd : Z) : Room -> Room * bool * list Event :=
  locked (fun r =>
    let r := bump r in
    if negb (bool_decide (state_ r = RoomState.IN_PROGRESS)) then (r, false) else
    if fd =? connection_fd (white_ r) then (r, false) else
    if fd =? connection_fd (black_ r) then (r, false) else
    if existsb (fun x => x =? fd) (spectator_fds_ r) then (r, true) else
    (r <| spectator_fds_ ::= fun l => l ++ [fd] |>, true)).

Definition remove_spectator (fd : Z) : Room -> Room * bool * list Event :=
  locked (fun r =>
    let r := bump r in
    match erase_first fd (spectator_fds_ r) with
    | Some l => (r <| spectator_fds_ := l |>, true)
    | None => (r, false)
    end).

(** ** Accessors with a computation of their own *)

Definition get_opponent_fd (fd : Z) (r : Room) : Z :=
  if connection_fd (white_ r) =? fd then connection_fd (black_ r)
  else if connection_fd (black_ r) =? fd then connection_fd (white_ r) else -1.

Definition current_turn_fd (r : Room) : Z :=
  if negb (bool_decide (state_ r = RoomState.IN_PROGRESS)) then -1 else connection_fd (active r).

Definition get_remaining_times (now : Z) (r : Room) : Z * Z :=
  let white_ms := remaining_ms (white_ r) in
  let black_ms := remaining_ms (black_ r) in
  if bool_decide (state_ r = RoomState.IN_PROGRESS) then
    let elapsed := elapsed_ms now (clock_start (active r)) in
    if bool_decide (side_to_move_ (board_ r) = Color.WHITE)
    then (Z.max 0 (white_ms - elapsed), black_ms)
    else (white_ms, Z.max 0 (black_ms - elapsed))
  else (white_ms, black_ms).

Definition get_legal_moves_uci (r : Room) : list str :=
  if bool_decide (state_ r = RoomState.IN_PROGRESS)
  then map to_uci (generate_legal_moves (board_ r)) else [].

Definition or_default (name default : str) : str := match name with [] => default | _ => name end.

Definition to_pgn (r : Room) : str :=
  export_pgn
    [mkTag (lit "Event") (lit "Online Game");
     mkTag (lit "White") (or_default (username (white_ r)) (lit "Player 1"));
     mkTag (lit "Black") (or_default (username (black_ r)) (lit "Player 2"));
     mkTag (lit "Result") (result_ r);
     mkTag (lit "TimeControl") (time_control_string (time_control_ (config r)))]
    (map rec_move (move_history_ r)) (result_ r).
