(* ===== verification/GameRoomSpec.v ===== *)
(** * The game room as a state machine

    [Game] keeps what a result depends on: phase, board, history, status, result.
    [game_step] is the abstract machine of a chess game between two seats.  Every
    operation of [GameRoom] is one abstract step or none, and the completion event
    goes out exactly when the step enters [FINISHED]. *)
From S2P Require Import Prelude Types BoardState Zobrist Board MoveGen Fen Rules Position MakeMove Hashing Preservation Legality Uci Notation San RoomState GameRoom.

(** ** The abstract machine *)

Record Game := mkG {
  g_state : RoomState.t; g_board : Board; g_history : list MoveRecord;
  g_status : GameStatus.t; g_result : str
}.

Definition abs (r : Room) : Game :=
  mkG (state_ r) (board_ r) (move_history_ r) (game_status_ r) (result_ r).

(** A recorded move is legal on the board it was played on, and its SAN is right. *)
Definition records (b : Board) (x : MoveRecord) : Prop :=
  In (rec_move x) (generate_legal_moves b) /\ rec_san x = move_to_san b (rec_move x).

Inductive game_step : Game -> Game -> Prop :=
| gs_start b h st res :
    game_step (mkG RoomState.WAITING b h st res) (mkG RoomState.IN_PROGRESS b h st res)
| gs_move b h st res x :
    records b x -> get_game_status (after_move b (rec_move x)) = GameStatus.ONGOING ->
    game_step (mkG RoomState.IN_PROGRESS b h st res)
              (mkG RoomState.IN_PROGRESS (after_move b (rec_move x)) (h ++ [x]) st res)
| gs_final b h st res x st' :
    records b x -> get_game_status (after_move b (rec_move x)) = st' -> st' <> GameStatus.ONGOING ->
    game_step (mkG RoomState.IN_PROGRESS b h st res)
              (mkG RoomState.FINISHED (after_move b (rec_move x)) (h ++ [x]) st'
                   (result_of_status st' (side_to_move_ (after_move b (rec_move x)))))
| gs_resign b h st res c :
    c <> Color.NONE ->
    game_step (mkG RoomState.IN_PROGRESS b h st res)
              (mkG RoomState.FINISHED b h GameStatus.RESIGNATION (loses c))
| gs_cancel b h st res :
    game_step (mkG RoomState.WAITING b h st res)
              (mkG RoomState.FINISHED b h GameStatus.RESIGNATION (lit "*"))
| gs_timeout b h st res :
    game_step (mkG RoomState.IN_PROGRESS b h st res)
              (mkG RoomState.FINISHED b h GameStatus.TIMEOUT (loses (side_to_move_ b)))
| gs_agree b h st res :
    game_step (mkG RoomState.IN_PROGRESS b h st res)
              (mkG RoomState.FINISHED b h GameStatus.DRAW_AGREEMENT (lit "1/2-1/2"))
| gs_abandon b h st res res' :
    In res' [lit "1-0"; lit "0-1"; lit "1/2-1/2"] ->
    game_step (mkG RoomState.IN_PROGRESS b h st res)
              (mkG RoomState.FINISHED b h GameStatus.ABANDONMENT res').

(** ** What one operation may do *)

Section effects.
Context (env : Env).

Inductive effect (r : Room) : Room -> Prop :=
| eff_quiet r' :
    abs r' = abs r -> pending_completed_ r' = pending_completed_ r ->
    pending_before_completion_ r' = pending_before_completion_ r -> effect r r'
| eff_step r' :
    game_step (abs r) (abs r') -> state_ r' <> RoomState.FINISHED ->
    pending_completed_ r' = pending_completed_ r ->
    pending_before_completion_ r' = pending_before_completion_ r -> effect r r'
| eff_finish r1 st res :
    game_step (abs r) (abs (finish_game env r1 st res)) ->
    listeners_ r1 = listeners_ r -> effect r (finish_game env r1 st res).
End effects.

Ltac quiet := by apply eff_quiet; try reflexivity.

Lemma abs_set_seat r c s : abs (set_seat r c s) = abs r.
Proof. unfold set_seat. by destruct (bool_decide _). Qed.

Lemma pending_set_seat r c s :
  pending_completed_ (set_seat r c s) = pending_completed_ r /\
  pending_before_completion_ (set_seat r c s) = pending_before_completion_ r /\
  listeners_ (set_seat r c s) = listeners_ r /\ config (set_seat r c s) = config r.
Proof. unfold set_seat. by destruct (bool_decide _). Qed.

Lemma abs_finish env r st res :
  abs (finish_game env r st res) = mkG RoomState.FINISHED (board_ r) (move_history_ r) st res.
Proof. reflexivity. Qed.

Lemma abs_in_progress r :
  state_ r = RoomState.IN_PROGRESS ->
  abs r = mkG RoomState.IN_PROGRESS (board_ r) (move_history_ r) (game_status_ r) (result_ r).
Proof. unfold abs. by intros ->. Qed.

Lemma abs_waiting r :
  state_ r = RoomState.WAITING ->
  abs r = mkG RoomState.WAITING (board_ r) (move_history_ r) (game_status_ r) (result_ r).
Proof. unfold abs. by intros ->. Qed.

(** An ending that leaves the board alone, from a room that only differs in seats,
    clocks and counters. *)
Lemma finish_effect env r r1 st res :
  abs r1 = abs r -> listeners_ r1 = listeners_ r ->
  game_step (abs r) (mkG RoomState.FINISHED (board_ r) (move_history_ r) st res) ->
  effect env r (finish_game env r1 st res).
Proof.
  intros Ha Hl Hs. apply eff_finish; [|done]. rewrite abs_finish. unfold abs in Ha.
  injection Ha as _ -> -> _ _. exact Hs.
Qed.

Lemma loses_in c : In (loses c) [lit "1-0"; lit "0-1"; lit "1/2-1/2"].
Proof. unfold loses. destruct (bool_decide _); cbn; auto. Qed.

Lemma find_move_legal b f t p m :
  find_move b f t p = Some m -> In m (generate_legal_moves b) /\ move_requested f t p m = true.
Proof. apply find_some. Qed.

Lemma switch_clock_keeps now r :
  abs (switch_clock now r) = abs r /\
  pending_completed_ (switch_clock now r) = pending_completed_ r /\
  pending_before_completion_ (switch_clock now r) = pending_before_completion_ r /\
  listeners_ (switch_clock now r) = listeners_ r.
Proof.
  unfold switch_clock. rewrite !abs_set_seat.
  by repeat match goal with |- context [set_seat ?r ?c ?s] =>
    destruct (pending_set_seat r c s) as (-> & -> & -> & _) end.
Qed.

(** The common end of [submit_move] and [submit_move_ai]. *)
Lemma conclude_effect env r r1 m san think declined now :
  state_ r = RoomState.IN_PROGRESS -> In m (generate_legal_moves (board_ r)) ->
  san = move_to_san (board_ r) m ->
  abs r1 = mkG RoomState.IN_PROGRESS (after_move (board_ r) m)
               (move_history_ r ++ [mkRecord m san think]) (game_status_ r) (result_ r) ->
  pending_completed_ r1 = pending_completed_ r ->
  pending_before_completion_ r1 = pending_before_completion_ r -> listeners_ r1 = listeners_ r ->
  effect env r (fst (conclude_move env san declined (switch_clock now r1))).
Proof.
  intros Hs Hm Hsan Ha Hp Hb Hl. destruct (switch_clock_keeps now r1) as (A & P & B & L).
  set (r2 := switch_clock now r1) in *. rewrite Ha in A.
  assert (records (board_ r) (mkRecord m san think)) as Hrec by (split; done).
  pose proof A as A'. unfold abs in A'. injection A' as S2 B2 H2 _ _.
  unfold conclude_move. rewrite B2. case_bool_decide as Ho; cbn [fst].
  - apply eff_step; [|by rewrite S2|by rewrite P|by rewrite B].
    rewrite A, (abs_in_progress r Hs). by apply (gs_move _ _ _ _ (mkRecord m san think)).
  - apply eff_finish; [|by rewrite L]. rewrite abs_finish, B2, H2, (abs_in_progress r Hs).
    by apply (gs_final _ _ _ _ (mkRecord m san think)).
Qed.

(** ** Every method body has one of these effects *)

(** Case analysis on the guard the method tests next. *)
Ltac cond :=
  lazymatch goal with |- effect _ _ (fst (if ?c then _ else _)) => destruct c eqn:?; bool_hyps end.

Lemma submit_effect env fd f t promo r : effect env r (fst (submit_body env fd f t promo r)).
Proof.
  unfold submit_body. cbv zeta. change (state_ (bump r)) with (state_ r).
  change (board_ (bump r)) with (board_ r).
  cond; [quiet|]. cond; [quiet|]. cond; [quiet|]. cond.
  - apply finish_effect; [done|done|]. rewrite (abs_in_progress r) by done.
    rewrite Heqb1. apply gs_timeout.
  - destruct (find_move _ _ _ _) as [m|] eqn:Em; [|quiet]. apply find_move_legal in Em as [Hm _].
    eapply (conclude_effect env r _ m _ _); try done; destruct (draw_offer_from_ _) as [o|];
      try (destruct (negb (bool_decide (o = _)))); try done; unfold abs;
      match goal with H : state_ r = _ |- _ => by rewrite <- H end.
Qed.

Lemma submit_ai_effect env f t promo r : effect env r (fst (submit_ai_body env f t promo r)).
Proof.
  unfold submit_ai_body. cbv zeta. change (state_ (bump r)) with (state_ r).
  change (board_ (bump r)) with (board_ r). change (config (bump r)) with (config r).
  cond; [quiet|]. cond; [quiet|]. cond; [quiet|]. cond.
  - destruct (pending_set_seat (bump r) (ai_color_ (config r))
      ((seat (bump r) (ai_color_ (config r))) <| remaining_ms := 0 |>)) as (_ & _ & L & _).
    apply finish_effect; [by rewrite abs_set_seat|by rewrite L|]. rewrite (abs_in_progress r) by done.
    match goal with H : side_to_move_ _ = _ |- _ => rewrite <- H end. apply gs_timeout.
  - destruct (find_move _ _ _ _) as [m|] eqn:Em; [|quiet]. apply find_move_legal in Em as [Hm _].
    eapply (conclude_effect env r _ m _ _); try done. unfold abs.
    match goal with H : state_ r = _ |- _ => by rewrite <- H end.
Qed.

Lemma seat_effect env r c s : effect env r (set_seat r c s).
Proof.
  destruct (pending_set_seat r c s) as (P & B & _). apply eff_quiet; [by rewrite abs_set_seat|done|done].
Qed.

Lemma bump_seat_effect env r c s : effect env r (set_seat (bump r) c s).
Proof.
  destruct (pending_set_seat (bump r) c s) as (P & B & _).
  apply eff_quiet; [by rewrite abs_set_seat|by rewrite P|by rewrite B].
Qed.

(** Seating the second player of a room that waits starts the game. *)
Lemma start_effect env r r1 :
  abs r1 = abs r -> pending_completed_ r1 = pending_completed_ r ->
  pending_before_completion_ r1 = pending_before_completion_ r -> state_ r = RoomState.WAITING ->
  effect env r (start_game env r1).
Proof.
  intros Ha Hp Hb Hs. apply eff_step; [|done|done|done].
  change (abs (start_game env r1)) with
    (mkG RoomState.IN_PROGRESS (board_ r1) (move_history_ r1) (game_status_ r1) (result_ r1)).
  pose proof Ha as Ha'. unfold abs in Ha'. injection Ha' as _ -> -> -> ->.
  rewrite (abs_waiting r Hs). apply gs_start.
Qed.

(** The optional start at the end of [bind_reserved_player]. *)
Lemma maybe_start_effect env r r1 c :
  abs r1 = abs r -> pending_completed_ r1 = pending_completed_ r ->
  pending_before_completion_ r1 = pending_before_completion_ r ->
  effect env r (fst (fst (if reserved_open_ r1 && ready_to_start r1
                          then (start_game env r1, mkBind true c true [], Some (tournament_started (start_game env r1)))
                          else (r1, mkBind true c false [], None)))).
Proof.
  intros Ha Hp Hb. destruct (_ && _) eqn:E; cbn [fst]; [|by apply eff_quiet].
  apply start_effect; try done. unfold ready_to_start in E. bool_hyps.
  unfold abs in Ha. injection Ha as Hs _ _ _ _. congruence.
Qed.

Lemma bind_effect env db pid fd rep gen r :
  effect env r (fst (fst (bind_body env db pid fd rep gen r))).
Proof.
  unfold bind_body. cbv zeta.
  destruct (negb (is_tournament_reserved_ _)); [quiet|]. destruct (bool_decide _); [quiet|].
  set (c := if db_player_id (white_ r) =? db then _ else _).
  destruct (bool_decide _); [quiet|]. destruct (negb _); [quiet|]. destruct (_ <? _); [quiet|].
  destruct (_ && _ && _); [quiet|].
  destruct (negb (connected (seat r c)) || _).
  - destruct (pending_set_seat (bump r) c
      ((attach (seat r c) pid fd) <| connection_generation := gen |>)) as (P & B & _).
    apply maybe_start_effect; [by rewrite abs_set_seat|by rewrite P|by rewrite B].
  - destruct (pending_set_seat r c ((seat r c) <| connection_generation := gen |>)) as (P & B & _).
    apply maybe_start_effect; [by rewrite abs_set_seat|by rewrite P|by rewrite B].
Qed.

(** ** One operation of the public interface *)

Inductive Op :=
| AddListener (l : Z) | RemoveListener (l : Z)
| Join (pid : Z) (name : str) (fd db_id elo0 : Z)
| Bind (db_id pid fd : Z) (replace_existing : bool) (generation : Z)
| Allow (db_id : Z) | Open
| Submit (fd f t : Z) (promo : PieceType.t) | SubmitAI (f t : Z) (promo : PieceType.t)
| Resign (fd : Z) (on_committed : option Z)
| OfferDraw (fd : Z) | RespondDraw (fd : Z) (accept : bool) | ExpireDraw (ttl : Z)
| OfferRematch (fd : Z) | RespondRematch (fd : Z) (accept : bool) | ExpireRematch (ttl : Z)
| ExpireOnTime | OnDisconnect (fd : Z) | OnReconnect (pid fd : Z)
| OnReconnectDb (db_id fd generation : Z) | ExpireDisconnected (grace : Z)
| AddSpectator (fd : Z) | RemoveSpectator (fd : Z).

(** The room and the events of a call, its result dropped. *)
Definition outcome {A} (x : Room * A * list Event) : Room * list Event :=
  let '(r, _, evs) := x in (r, evs).

Definition exec (env : Env) (o : Op) (r : Room) : Room * list Event :=
  match o with
  | AddListener l => outcome (add_listener l r)
  | RemoveListener l => outcome (remove_listener l r)
  | Join pid name fd db e => outcome (join env pid name fd db e r)
  | Bind db pid fd rep gen => outcome (bind_reserved_player env db pid fd rep gen r)
  | Allow db => outcome (allow_reserved_player db r)
  | Open => outcome (open_reserved env r)
  | Submit fd f t p => outcome (submit_move env fd f t p r)
  | SubmitAI f t p => outcome (submit_move_ai env f t p r)
  | Resign fd cb => outcome (resign env fd cb r)
  | OfferDraw fd => outcome (offer_draw env fd r)
  | RespondDraw fd a => outcome (respond_to_draw env fd a r)
  | ExpireDraw ttl => outcome (expire_draw_offer env ttl r)
  | OfferRematch fd => outcome (offer_rematch env fd r)
  | RespondRematch fd a => outcome (respond_to_rematch fd a r)
  | ExpireRematch ttl => outcome (expire_rematch_offer env ttl r)
  | ExpireOnTime => outcome (expire_on_time env r)
  | OnDisconnect fd => outcome (on_disconnect env fd r)
  | OnReconnect pid fd => outcome (on_reconnect pid fd r)
  | OnReconnectDb db fd gen => outcome (on_reconnect_db_player env db fd gen r)
  | ExpireDisconnected g => outcome (expire_disconnected env g r)
  | AddSpectator fd => outcome (add_spectator fd r)
  | RemoveSpectator fd => outcome (remove_spectator fd r)
  end.

(** The completion callbacks among some events. *)
Definition completions (evs : list Event) : list (Z * GameSnapshot) :=
  flat_map (fun e => match e with OnCompleted l s => [(l, s)] | _ => [] end) evs.

(** No event is left queued between two calls. *)
Definition settled (r : Room) : Prop :=
  pending_completed_ r = None /\ pending_before_completion_ r = None.

(** A snapshot shows the final state of a room. *)
Definition snapshot_of (r : Room) (s : GameSnapshot) : Prop :=
  status s = game_status_ r /\ result s = result_ r /\ history s = move_history_ r /\
  termination_reason s = snapshot_termination_reason (game_status_ r).

Inductive outcome_ok (r : Room) : Room * list Event -> Prop :=
| ok_quiet r' evs : abs r' = abs r -> completions evs = [] -> settled r' -> outcome_ok r (r', evs)
| ok_step r' evs : game_step (abs r) (abs r') -> state_ r' <> RoomState.FINISHED ->
    completions evs = [] -> settled r' -> outcome_ok r (r', evs)
| ok_finish r' evs snap : game_step (abs r) (abs r') -> state_ r' = RoomState.FINISHED ->
    snapshot_of r' snap -> completions evs = map (fun l => (l, snap)) (listeners_ r) ->
    settled r' -> outcome_ok r (r', evs).

Lemma completions_app e1 e2 : completions (e1 ++ e2) = completions e1 ++ completions e2.
Proof. apply flat_map_app. Qed.

Lemma completions_started r ev : completions (emit_started r ev) = [].
Proof. unfold completions, emit_started. by induction (listeners_ r). Qed.

Lemma completions_completed ls s : completions (map (fun l => OnCompleted l s) ls) = map (fun l => (l, s)) ls.
Proof. unfold completions. induction ls as [|l ls IH]; [done|]. cbn. by rewrite IH. Qed.

(** A locked method whose body has an effect satisfies the contract. *)
Lemma drain_ok env r r1 tail :
  settled r -> effect env r r1 -> completions tail = [] ->
  outcome_ok r (let '(r', evs) := drain r1 in (r', evs ++ tail)).
Proof.
  intros [Hp Hb] He Ht. destruct He as [r1 Ha P B|r1 Hs Hn P B|r1 st res Hs Hl].
  - unfold drain. rewrite P, Hp. apply ok_quiet; [done|done|]. split; congruence.
  - unfold drain. rewrite P, Hp. apply ok_step; [done|done|done|]. split; congruence.
  - unfold drain. cbn [pending_completed_ finish_game].
    apply (ok_finish r _ _ (build_snapshot_locked env (finish_game env r1 st res))); try done.
    rewrite !completions_app, Ht, app_nil_r.
    assert (forall o : option Z, completions match o with Some cb => [BeforeCompletion cb] | None => [] end = [])
      as -> by by intros [].
    change (pending_listeners_snapshot_ (finish_game env r1 st res)) with (listeners_ r1).
    rewrite Hl. cbn [app]. etransitivity; [apply completions_completed|done].
Qed.

Lemma locked_ok {A} env (body : Room -> Room * A) r :
  settled r -> effect env r (fst (body r)) -> outcome_ok r (outcome (locked body r)).
Proof.
  intros Hs He. unfold outcome, locked. destruct (body r) as [r1 a]. cbn [fst] in He.
  pose proof (drain_ok env r r1 [] Hs He eq_refl) as H. destruct (drain r1) as [r2 evs].
  by rewrite app_nil_r in H.
Qed.

Lemma locked_start_ok {A} env (body : Room -> Room * A * option GameStarted) r :
  settled r -> effect env r (fst (fst (body r))) -> outcome_ok r (outcome (locked_start body r)).
Proof.
  intros Hs He. unfold outcome, locked_start, locked. destruct (body r) as [[r1 a] st]. cbn [fst] in He.
  set (tail := fun r2 => match st with Some ev => emit_started r2 ev | None => [] end).
  pose proof (drain_ok env r r1 (tail (fst (drain r1))) Hs He) as H.
  destruct (drain r1) as [r2 evs]. cbn [fst] in H. apply H. unfold tail. destruct st; [|done].
  apply completions_started.
Qed.

(** ** Every operation refines the abstract machine *)

Ltac running :=
  match goal with H : state_ ?r = RoomState.IN_PROGRESS |- _ => rewrite (abs_in_progress r H) end.

Lemma set_seat_finish env r c s st res :
  game_step (abs r) (mkG RoomState.FINISHED (board_ r) (move_history_ r) st res) ->
  effect env r (finish_game env (set_seat (bump r) c s) st res).
Proof.
  intros H. destruct (pending_set_seat (bump r) c s) as (_ & _ & L & _).
  apply finish_effect; [by rewrite abs_set_seat|by rewrite L|done].
Qed.

Lemma expire_on_time_effect env r :
  effect env r (fst ((fun r =>
    if negb (bool_decide (state_ r = RoomState.IN_PROGRESS)) || negb (check_flag (steady env 0) r)
    then (r, false)
    else (finish_game env (bump (set_seat r (side_to_move_ (board_ r))
            ((seat r (side_to_move_ (board_ r))) <| remaining_ms := 0 |>))) GameStatus.TIMEOUT
            (loses (side_to_move_ (board_ r))), true)) r)).
Proof.
  cbv beta. destruct (_ || _) eqn:E; bool_hyps; [quiet|]. cbn [fst].
  destruct (pending_set_seat r (side_to_move_ (board_ r))
    ((seat r (side_to_move_ (board_ r))) <| remaining_ms := 0 |>)) as (_ & _ & L & _).
  apply finish_effect; [|by rewrite <- L|running; apply gs_timeout].
  etransitivity; [|apply (abs_set_seat r (side_to_move_ (board_ r)))]. reflexivity.
Qed.

Lemma on_disconnect_effect env r c :
  effect env r (fst (
    if bool_decide (state_ (set_seat (bump r) c (detach (steady env 0) (seat r c))) = RoomState.FINISHED)
    then (set_seat (bump r) c (detach (steady env 0) (seat r c)), tt)
    else if bool_decide (state_ (set_seat (bump r) c (detach (steady env 0) (seat r c))) = RoomState.WAITING) &&
            negb (is_tournament_reserved_ (config (set_seat (bump r) c (detach (steady env 0) (seat r c)))))
    then (finish_game env (set_seat (bump r) c (detach (steady env 0) (seat r c))) GameStatus.RESIGNATION (lit "*"), tt)
    else (set_seat (bump r) c (detach (steady env 0) (seat r c)), tt))).
Proof.
  assert (state_ (set_seat (bump r) c (detach (steady env 0) (seat r c))) = state_ r) as ->
    by exact (f_equal g_state (abs_set_seat (bump r) c (detach (steady env 0) (seat r c)))).
  cond; [apply bump_seat_effect|]. cond; [|apply bump_seat_effect].
  apply set_seat_finish. rewrite (abs_waiting r) by done. apply gs_cancel.
Qed.

Lemma exec_ok env o r : settled r -> outcome_ok r (exec env o r).
Proof.
  intros Hs. destruct o; cbn [exec].
  - unfold add_listener. destruct (_ =? _); [by apply ok_quiet|].
    apply (locked_ok env); [done|quiet].
  - apply (locked_ok env); [done|]. destruct (erase_first _ _); quiet.
  - apply (locked_start_ok env); [done|]. destruct (_ || _) eqn:E; bool_hyps; [quiet|].
    destruct (negb _); [quiet|]. by apply start_effect.
  - apply (locked_start_ok env); [done|]. apply bind_effect.
  - apply (locked_ok env); [done|]. destruct (_ || _); [quiet|].
    destruct (_ =? _); [quiet|]. destruct (_ =? _); quiet.
  - apply (locked_start_ok env); [done|]. destruct (_ || _); [quiet|]. cbv zeta.
    destruct (ready_to_start _) eqn:E; [|quiet].
    apply start_effect; try done. unfold ready_to_start in E. by bool_hyps.
  - apply (locked_ok env); [done|apply submit_effect].
  - apply (locked_ok env); [done|apply submit_ai_effect].
  - apply (locked_ok env); [done|]. cbv zeta. cond; [quiet|]. cond; [quiet|].
    apply finish_effect; [done|done|].
    rewrite (abs_in_progress r) by done. by apply gs_resign.
  - apply (locked_ok env); [done|]. cbv zeta. cond; [quiet|]. cond; [quiet|]. cond; [quiet|].
    cond; [quiet|]. destruct (draw_offer_from_ r); [cond; quiet|quiet].
  - apply (locked_ok env); [done|]. cbv zeta. destruct (bool_decide (state_ r = _)) eqn:E; [|quiet].
    bool_hyps. destruct (draw_offer_from_ r); [|quiet]. cond; [quiet|]. cond; [quiet|]. cbn [fst].
    destruct accept; [|quiet]. apply finish_effect; [done|done|]. running. apply gs_agree.
  - apply (locked_ok env); [done|]. destruct (if bool_decide _ then _ else _); [|quiet]. cond; quiet.
  - apply (locked_ok env); [done|]. cbv zeta. cond; [quiet|]. cond; [quiet|]. cond; [quiet|].
    cond; [quiet|]. cond; [quiet|]. destruct (rematch_offer_from_ r); [cond; quiet|quiet].
  - apply (locked_ok env); [done|]. cbv zeta. destruct (if bool_decide _ then _ else _); [|quiet].
    cond; [quiet|]. cond; quiet.
  - apply (locked_ok env); [done|]. destruct (if bool_decide _ then _ else _); [|quiet]. cond; quiet.
  - apply (locked_ok env); [done|]. apply expire_on_time_effect.
  - apply (locked_ok env); [done|]. cbv zeta. destruct (_ || _); [quiet|]. apply on_disconnect_effect.
  - apply (locked_ok env); [done|]. cbv zeta. cond; [quiet|]. cond; [quiet|]. cond; quiet.
  - unfold on_reconnect_db_player. destruct (is_tournament_reserved_ _).
    + pose proof (locked_start_ok env (bind_body env db_id (to_player_id db_id) fd true generation) r Hs
                    (bind_effect env db_id (to_player_id db_id) fd true generation r)) as H.
      unfold bind_reserved_player. unfold outcome in *. by destruct (locked_start _ r) as [[? ?] ?].
    + apply (locked_ok env); [done|]. cbv zeta.
      set (c := if db_player_id (white_ r) =? db_id then _ else _).
      destruct (_ <=? _); [quiet|]. destruct (bool_decide _); [quiet|]. destruct (_ <? _); [quiet|].
      destruct (_ && _); [apply seat_effect|apply bump_seat_effect].
  - apply (locked_ok env); [done|]. cbv zeta. cond; [quiet|]. destruct (_ && _); [quiet|].
    apply finish_effect; [done|done|]. running. apply gs_abandon. cbn.
    destruct (_ && _ && _); [tauto|]. destruct (_ && _); tauto.
  - apply (locked_ok env); [done|]. cbv zeta. cond; [quiet|]. cond; [quiet|]. cond; [quiet|]. cond; quiet.
  - apply (locked_ok env); [done|]. cbv zeta. destruct (erase_first _ _); quiet.
Qed.

(** ** The invariant of the abstract machine *)

(** [played h b]: the recorded moves lead from the starting position to [b]. *)
Inductive played : list MoveRecord -> Board -> Prop :=
| played_nil : played [] starting_position
| played_snoc h b x : played h b -> records b x -> played (h ++ [x]) (after_move b (rec_move x)).

(** The result of a game that the side [c] has won. *)
Definition won_by (c : Color.t) : str :=
  match c with Color.WHITE => lit "1-0" | Color.BLACK => lit "0-1" | Color.NONE => lit "*" end.

Lemma loses_won c : c <> Color.NONE -> loses c = won_by (opposite_color c).
Proof. by destruct c. Qed.

(** What a final status promises about the final board and the result. *)
Definition verdict (b : Board) (h : list MoveRecord) (st : GameStatus.t) (res : str) : Prop :=
  match st with
  | GameStatus.CHECKMATE => checkmated b /\ res = won_by (opposite_color (side_to_move_ b))
  | GameStatus.STALEMATE => stalemated b /\ res = lit "1/2-1/2"
  | GameStatus.DRAW_FIFTY_MOVE => 100 <= halfmove_clock_ b /\ res = lit "1/2-1/2"
  | GameStatus.DRAW_AGREEMENT => res = lit "1/2-1/2"
  | GameStatus.TIMEOUT => res = won_by (opposite_color (side_to_move_ b))
  | GameStatus.RESIGNATION => res = lit "1-0" \/ res = lit "0-1" \/ res = lit "*" /\ h = []
  | GameStatus.ABANDONMENT => In res [lit "1-0"; lit "0-1"; lit "1/2-1/2"]
  | _ => False
  end.

Record game_ok (g : Game) : Prop := {
  go_board : game_board (g_board g);
  go_played : played (g_history g) (g_board g);
  go_waiting : g_state g = RoomState.WAITING -> g_history g = [];
  go_live : g_state g <> RoomState.FINISHED ->
            g_status g = GameStatus.ONGOING /\ g_result g = lit "*" /\
            get_game_status (g_board g) = GameStatus.ONGOING;
  go_final : g_state g = RoomState.FINISHED -> verdict (g_board g) (g_history g) (g_status g) (g_result g)
}.

Lemma game_board_records b x : game_board b -> records b x -> game_board (after_move b (rec_move x)).
Proof. intros Hb [Hm _]. by apply game_board_after. Qed.

Lemma verdict_of_status b h st :
  position_ok b -> get_game_status b = st -> st <> GameStatus.ONGOING ->
  verdict b h st (result_of_status st (side_to_move_ b)).
Proof.
  intros Hok Hst Hne. pose proof (game_status_cases b Hok) as Hc. rewrite Hst in Hc.
  pose proof (ok_side b Hok). destruct st; try done; cbn [verdict result_of_status]; try by intuition.
  split; [by apply Hc|]. by apply (loses_won (side_to_move_ b)).
Qed.

Lemma loses_cases c : loses c = lit "1-0" \/ loses c = lit "0-1".
Proof. unfold loses. destruct (bool_decide _); auto. Qed.

Lemma game_step_ok g g' : game_ok g -> game_step g g' -> game_ok g'.
Proof.
  intros [Hb Hp Hw Hl Hf] Hs. destruct Hs; cbn [g_state g_board g_history g_status g_result] in *.
  - split; try done. intros _. by apply Hl.
  - pose proof (game_board_records b x Hb H). destruct (Hl ltac:(done)) as (-> & -> & _).
    split; try done. by constructor.
  - pose proof (game_board_records b x Hb H) as Hb'. split; try done; [by constructor|].
    intros _. apply verdict_of_status; [apply Hb'|done|done].
  - split; try done. intros _. destruct (loses_cases c) as [-> | ->]; cbn; auto.
  - split; try done. intros _. cbn. auto.
  - split; try done. intros _. by apply loses_won, ok_side, Hb.
  - by split.
  - by split.
Qed.

(** Runs of the abstract machine. *)
Inductive game_run : Game -> Game -> Prop :=
| run_nil g : game_run g g
| run_cons g1 g2 g3 : game_step g1 g2 -> game_run g2 g3 -> game_run g1 g3.

Lemma finished_stuck g g' : g_state g = RoomState.FINISHED -> ~ game_step g g'.
Proof. intros Hf Hs. by destruct Hs. Qed.

(** ** Sequences of operations *)

Fixpoint exec_all (ops : list (Env * Op)) (r : Room) : Room * list Event :=
  match ops with
  | [] => (r, [])
  | (env, o) :: ops =>
      let '(r, evs) := exec env o r in
      let '(r, evs') := exec_all ops r in
      (r, evs ++ evs')
  end.

Definition room_ok (r : Room) : Prop := settled r /\ game_ok (abs r).

Lemma exec_room_ok env o r : room_ok r -> room_ok (fst (exec env o r)).
Proof.
  intros [Hs Hg]. destruct (exec_ok env o r Hs) as [r' evs Ha _ S|r' evs Hst _ _ S|r' evs sn Hst _ _ _ S];
    (split; [done|]); cbn [fst].
  - by rewrite Ha.
  - by eapply game_step_ok.
  - by eapply game_step_ok.
Qed.

Lemma exec_all_room_ok ops r : room_ok r -> room_ok (fst (exec_all ops r)).
Proof.
  revert r. induction ops as [|[env o] ops IH]; intros r Hr; cbn [exec_all]; [done|].
  pose proof (exec_room_ok env o r Hr) as H1. destruct (exec env o r) as [r1 e1]. cbn [fst] in H1.
  specialize (IH r1 H1). by destruct (exec_all ops r1).
Qed.

Lemma exec_all_refines ops r :
  settled r -> game_run (abs r) (abs (fst (exec_all ops r))).
Proof.
  revert r. induction ops as [|[env o] ops IH]; intros r Hr; cbn [exec_all]; [constructor|].
  destruct (exec_ok env o r Hr) as [r' evs Ha _ S|r' evs Hst _ _ S|r' evs sn Hst _ _ _ S];
    specialize (IH r' S); destruct (exec_all ops r') as [r2 e2]; cbn [fst] in *.
  - by rewrite <- Ha.
  - by econstructor.
  - by econstructor.
Qed.

(** A finished game no longer changes and completes no more. *)
Lemma finished_final ops r :
  settled r -> state_ r = RoomState.FINISHED ->
  abs (fst (exec_all ops r)) = abs r /\ completions (snd (exec_all ops r)) = [].
Proof.
  revert r. induction ops as [|[env o] ops IH]; intros r Hr Hf; cbn [exec_all]; [done|].
  destruct (exec_ok env o r Hr) as [r' evs Ha Hc S|r' evs Hst _ _ S|r' evs sn Hst _ _ _ S];
    try (exfalso; by eapply finished_stuck; [|exact Hst]).
  specialize (IH r' S). pose proof (f_equal g_state Ha) as Hstate. cbn [g_state abs] in Hstate.
  destruct IH as [IH1 IH2]; [congruence|]. destruct (exec_all ops r') as [r2 e2]. cbn [fst snd] in *.
  rewrite completions_app, Hc, IH2, IH1. done.
Qed.

(** The completion event goes out once, to the listeners of that moment, with the
    final state; before that moment there is none. *)
Lemma completion_once ops r :
  settled r -> state_ r <> RoomState.FINISHED ->
  let '(r', evs) := exec_all ops r in
  if bool_decide (state_ r' = RoomState.FINISHED)
  then exists snap ls, snapshot_of r' snap /\ completions evs = map (fun l => (l, snap)) ls
  else completions evs = [].
Proof.
  revert r. induction ops as [|[env o] ops IH]; intros r Hr Hn; cbn [exec_all].
  { by rewrite bool_decide_eq_false_2. }
  destruct (exec_ok env o r Hr) as [r' evs Ha Hc S|r' evs Hst Hn' Hc S|r' evs sn Hst Hf Hsn Hc S].
  - assert (state_ r' = state_ r) as E by exact (f_equal g_state Ha).
    specialize (IH r' S ltac:(congruence)). destruct (exec_all ops r') as [r2 e2].
    by rewrite completions_app, Hc.
  - specialize (IH r' S Hn'). destruct (exec_all ops r') as [r2 e2].
    by rewrite completions_app, Hc.
  - destruct (finished_final ops r' S Hf) as [Ha2 Hc2]. destruct (exec_all ops r') as [r2 e2].
    cbn [fst snd] in *. rewrite completions_app, Hc, Hc2, app_nil_r.
    injection Ha2 as E1 E2 E3 E4 E5. rewrite bool_decide_eq_true_2 by congruence.
    exists sn, (listeners_ r). split; [|done]. unfold snapshot_of in *. by rewrite E3, E4, E5.
Qed.

(** ** Submitting moves *)

(** A pawn promotes exactly on the last rank. *)
Lemma promotion_rank b m :
  position_ok b -> pseudo_legal b m -> type (piece_at b (from m)) = PieceType.PAWN ->
  is_promotion m = true <-> rank_of (to m) = promo_rank (side_to_move_ b).
Proof.
  intros Hok (s & Hs & Hc & Hm) Hp.
  pose proof (pseudo_from b m s Hok Hm Hs Hc) as Hf. rewrite Hf in Hp. rewrite Hp in Hm.
  assert (forall fl0 fl pt t, fl0 = MoveFlags.NONE \/ fl0 = MoveFlags.EN_PASSANT ->
            promo_choice (side_to_move_ b) t fl0 fl pt ->
            is_promotion (mkMove s t fl pt) = true <-> rank_of t = promo_rank (side_to_move_ b)) as Hpc.
  { intros fl0 fl pt t H0 H. unfold promo_choice in H.
    destruct (Z.eqb_spec (rank_of t) (promo_rank (side_to_move_ b))); destruct H as [-> _];
      destruct H0 as [-> | ->]; split; intros; done. }
  inversion Hm as [t fl pt Ht Hr Hfi He Hch|t mid Ht Hmid Hs0 Hrm Hfm Hem Hr Hfi He
                  |t fl pt Ht Hta Hen Hch|t fl pt Ht Hta Hen Het Hch| | |ty t Ht Hsl|];
    subst; cbn [to].
  - eapply Hpc; [|exact Hch]. by left.
  - split; [done|]. cbn [flag_move to]. unfold start_rank, promo_rank, pawn_dir in *. case_bool_decide; lia.
  - eapply Hpc; [|exact Hch]. by left.
  - eapply Hpc; [|exact Hch]. by right.
  - apply slides_slider in Hsl. naive_solver.
Qed.

Lemma is_promotion_pawn b m :
  position_ok b -> pseudo_legal b m -> is_promotion m = true -> type (piece_at b (from m)) = PieceType.PAWN.
Proof.
  intros Hok Hm Hp. pose proof (pseudo_facts b m Hok Hm) as [_ _ _ _ _ _ Sh].
  inversion Sh as [| | | |row Hin]; subst; try done. cbn in Hin.
  by destruct Hin as [<-|[<-|[<-|[<-|[]]]]].
Qed.

Lemma is_promotion_squares b m1 m2 :
  position_ok b -> pseudo_legal b m1 -> pseudo_legal b m2 ->
  from m1 = from m2 -> to m1 = to m2 -> is_promotion m1 = is_promotion m2.
Proof.
  intros Hok H1 H2 Hf Ht. apply eq_true_iff_eq. split; intros Hp.
  - pose proof (is_promotion_pawn b m1 Hok H1 Hp) as Ty.
    apply (promotion_rank b m1) in Hp; [|done..]. apply (promotion_rank b m2); congruence.
  - pose proof (is_promotion_pawn b m2 Hok H2 Hp) as Ty.
    apply (promotion_rank b m2) in Hp; [|done..]. apply (promotion_rank b m1); congruence.
Qed.

(** The squares and the promotion piece of a legal move select that move. *)
Lemma find_move_self b m :
  position_ok b -> In m (generate_legal_moves b) ->
  find_move b (from m) (to m) (promo_type m) = Some m.
Proof.
  intros Hok Hm. pose proof Hm as Hl. apply in_generate_legal in Hl as [Hp _]; [|done].
  pose proof (pseudo_facts b m Hok Hp) as [_ _ _ _ _ _ Sh]. apply shape_promo in Sh.
  assert (is_promotion m = true -> promo_type m <> PieceType.NONE) as Hne.
  { intros E. unfold promo_coherent in Sh. rewrite E in Sh. by destruct Sh as [<-|[<-|[<-|[<-|[]]]]]. }
  apply find_unique; [done| |].
  - unfold move_requested. rewrite !Z.eqb_refl. destruct (is_promotion m); [|done].
    rewrite (bool_decide_eq_false_2 (promo_type m = PieceType.NONE)) by by apply Hne.
    by rewrite bool_decide_eq_true_2.
  - intros c Hc Hreq. unfold move_requested in Hreq. rewrite !andb_true_iff, orb_true_iff, !Z.eqb_eq in Hreq.
    destruct Hreq as [[Hf Ht] Hpr]. pose proof Hc as Hlc. apply in_generate_legal in Hlc as [Hpc _]; [|done].
    pose proof (is_promotion_squares b c m Hok Hpc Hp Hf Ht) as Epr.
    apply (move_unique b); try done.
    pose proof (pseudo_facts b c Hok Hpc) as [_ _ _ _ _ _ Shc]. apply shape_promo in Shc.
    unfold promo_coherent in Sh, Shc. rewrite Epr in *. destruct (is_promotion m).
    + destruct Hpr as [|Hpr]; [done|]. rewrite (bool_decide_eq_false_2 (promo_type m = _)) in Hpr by by apply Hne.
      by apply bool_decide_eq_true in Hpr.
    + congruence.
Qed.

Lemma seat_set_seat r c s : seat (set_seat r c s) c = s.
Proof. unfold seat, set_seat. by destruct (bool_decide _). Qed.

Lemma seat_set_seat_ne r c s d :
  c <> d -> c <> Color.NONE -> d <> Color.NONE -> seat (set_seat r c s) d = seat r d.
Proof. unfold seat, set_seat. by destruct c, d. Qed.

(** The Fischer clock of one move: the mover's time, the other clock. *)
Lemma switch_clock_seats now r c :
  opposite_color (side_to_move_ (board_ r)) = c -> c <> Color.NONE ->
  remaining_ms (seat (switch_clock now r) c) =
    Z.max 0 (remaining_ms (seat r c) - elapsed_ms now (clock_start (seat r c))
             + increment_ms (time_control_ (config r))) /\
  remaining_ms (seat (switch_clock now r) (opposite_color c)) = remaining_ms (seat r (opposite_color c)) /\
  clock_start (seat (switch_clock now r) (opposite_color c)) = now.
Proof.
  intros <- Hc. unfold switch_clock. set (j := opposite_color _) in *.
  assert ((if bool_decide (j = Color.WHITE) then Color.BLACK else Color.WHITE) = opposite_color j) as ->
    by done.
  pose proof (opposite_color_ne j) as Hne.
  assert (opposite_color j <> Color.NONE) as Hnn by by destruct j.
  rewrite (seat_set_seat_ne _ (opposite_color j) _ j), !seat_set_seat by done.
  rewrite (seat_set_seat_ne r j _ (opposite_color j)) by done.
  split; [|by split]. cbn [remaining_ms apply_update constant]. unfold constant, apply_update. cbn.
  case_z; lia.
Qed.

Lemma drain_keeps r :
  abs (fst (drain r)) = abs r /\ white_ (fst (drain r)) = white_ r /\ black_ (fst (drain r)) = black_ r.
Proof. unfold drain. by destruct (pending_completed_ r). Qed.

Lemma locked_fst {A} (body : Room -> Room * A) r :
  fst (locked body r) = (fst (drain (fst (body r))), snd (body r)).
Proof. unfold locked. destruct (body r) as [r1 a]. cbn [fst snd]. by destruct (drain r1). Qed.

Lemma conclude_keeps env san dec r :
  board_ (fst (conclude_move env san dec r)) = board_ r /\
  white_ (fst (conclude_move env san dec r)) = white_ r /\
  black_ (fst (conclude_move env san dec r)) = black_ r /\
  move_history_ (fst (conclude_move env san dec r)) = move_history_ r.
Proof. unfold conclude_move. by destruct (bool_decide _). Qed.

(** The clocks of the two seats of a room after the side [c] moved at [now]. *)
Record clocks_after (r r' : Room) (c : Color.t) (now : Z) : Prop := {
  ca_mover : remaining_ms (seat r' c) =
    Z.max 0 (remaining_ms (seat r c) - elapsed_ms now (clock_start (seat r c))
             + increment_ms (time_control_ (config r)));
  ca_other : remaining_ms (seat r' (opposite_color c)) = remaining_ms (seat r (opposite_color c));
  ca_start : clock_start (seat r' (opposite_color c)) = now
}.

(** What an accepted submission says about the room before and after. *)
Record accepted_spec (env : Env) (r r' : Room) (fd f t : Z) (promo : PieceType.t)
    (san : str) (st : GameStatus.t) (w bl : Z) (fen : str) (moves : list str) : Prop := {
  as_live : state_ r = RoomState.IN_PROGRESS;
  as_turn : color_of r fd = side_to_move_ (board_ r) /\ color_of r fd <> Color.NONE;
  as_flag : check_flag (steady env 0) r = false;
  as_move : exists m, find_move (board_ r) f t promo = Some m /\ san = move_to_san (board_ r) m /\
              board_ r' = after_move (board_ r) m /\
              exists think, move_history_ r' = move_history_ r ++ [mkRecord m san think];
  as_status : st = get_game_status (board_ r');
  as_fen : fen = to_fen (board_ r');
  as_moves : moves = if bool_decide (st = GameStatus.ONGOING)
                     then map to_uci (generate_legal_moves (board_ r')) else [];
  as_times : w = remaining_ms (white_ r') /\ bl = remaining_ms (black_ r');
  as_clock : clocks_after r r' (side_to_move_ (board_ r)) (steady env 2)
}.

Lemma seat_eq r r' c : white_ r' = white_ r -> black_ r' = black_ r -> seat r' c = seat r c.
Proof. unfold seat. by intros -> ->. Qed.

Lemma submit_accepted env fd f t promo r r' evs san st w bl fen moves dec :
  side_to_move_ (board_ r) <> Color.NONE ->
  submit_move env fd f t promo r = (r', Accepted san st w bl fen moves dec, evs) ->
  accepted_spec env r r' fd f t promo san st w bl fen moves.
Proof.
  intros Hside H. pose proof (f_equal fst H) as H'. unfold submit_move in H'. rewrite locked_fst in H'.
  cbn [fst] in H'. clear H evs. injection H' as Hr Ha.
  destruct (drain_keeps (fst (submit_body env fd f t promo r))) as (Da & Dw & Db).
  rewrite Hr in Da, Dw, Db. clear Hr. revert Ha Da Dw Db. unfold submit_body. cbv zeta.
  change (state_ (bump r)) with (state_ r). change (board_ (bump r)) with (board_ r).
  destruct (bool_decide (state_ r = _)) eqn:E1; cbn [negb]; [|done].
  destruct (bool_decide (color_of (bump r) fd = Color.NONE)) eqn:E2; [done|].
  destruct (bool_decide (color_of (bump r) fd = side_to_move_ _)) eqn:E3; cbn [negb]; [|done].
  destruct (check_flag (steady env 0) (bump r)) eqn:E4; [done|].
  destruct (find_move (board_ r) f t promo) as [m|] eqn:E5; [|done]. intros Ha Da Dw Db.
  apply bool_decide_eq_true in E1, E3. apply bool_decide_eq_false in E2.
  set (dec' := match draw_offer_from_ _ with Some _ => _ | None => false end) in *. clearbody dec'.
  set (think := elapsed_ms _ _) in *. clearbody think.
  set (r1 := (if dec' then _ else _) <| move_history_ ::= _ |>) in *.
  assert (board_ r1 = after_move (board_ r) m /\ move_history_ r1 =
            move_history_ r ++ [mkRecord m (move_to_san (board_ r) m) think] /\
          white_ r1 = white_ r /\ black_ r1 = black_ r /\ config r1 = config r) as (B1 & H1 & W1 & K1 & C1)
    by (unfold r1; by destruct dec').
  clearbody r1. set (r2 := switch_clock (steady env 2) r1) in *.
  destruct (switch_clock_keeps (steady env 2) r1) as (A2 & _).
  assert (board_ r2 = board_ r1) as B2 by exact (f_equal g_board A2).
  assert (move_history_ r2 = move_history_ r1) as H2 by exact (f_equal g_history A2).
  destruct (conclude_keeps env (move_to_san (board_ r) m) dec' r2) as (B3 & W3 & K3 & H3).
  assert (board_ r' = after_move (board_ r) m) as Br.
  { transitivity (board_ r2); [|congruence]. rewrite <- B3. exact (f_equal g_board Da). }
  assert (move_history_ r' = move_history_ r ++ [mkRecord m (move_to_san (board_ r) m) think]) as Hh.
  { rewrite <- H1, <- H2, <- H3. exact (f_equal g_history Da). }
  rewrite W3 in Dw. rewrite K3 in Db.
  unfold conclude_move in Ha. cbn [snd] in Ha.
  assert (forall b, white_ (if b : bool then r2 else finish_game env r2 (get_game_status (board_ r2))
             (result_of_status (get_game_status (board_ r2)) (side_to_move_ (board_ r2)))) = white_ r2 /\
           black_ (if b then r2 else finish_game env r2 (get_game_status (board_ r2))
             (result_of_status (get_game_status (board_ r2)) (side_to_move_ (board_ r2)))) = black_ r2 /\
           board_ (if b then r2 else finish_game env r2 (get_game_status (board_ r2))
             (result_of_status (get_game_status (board_ r2)) (side_to_move_ (board_ r2)))) = board_ r2) as Hif
    by by intros [].
  destruct (Hif (bool_decide (get_game_status (board_ r2) = GameStatus.ONGOING))) as (I1 & I2 & I3).
  rewrite I1, I2, I3, B2, B1 in Ha. injection Ha as <- <- <- <- <- <- <-.
  split; try done.
  - by exists m; eauto.
  - by rewrite Br.
  - by rewrite Br.
  - by rewrite Br.
  - by rewrite Dw, Db.
  - set (c := side_to_move_ (board_ r)) in *.
    assert (opposite_color (side_to_move_ (board_ r1)) = c) as Hc.
    { rewrite B1, after_move_side. by apply opposite_color_involutive. }
    destruct (switch_clock_seats (steady env 2) r1 c Hc Hside) as (S1 & S2 & S3). fold r2 in S1, S2, S3.
    assert (forall d, seat r1 d = seat r d) as Hs1 by (intros d; by apply seat_eq).
    assert (forall d, seat r' d = seat r2 d) as Hs2 by (intros d; by apply seat_eq).
    split; rewrite Hs2; [by rewrite S1, Hs1, C1|by rewrite S2, Hs1|done].
Qed.

(** ** New rooms *)

Lemma start_game_ok st : st <> RoomState.FINISHED ->
  game_ok (mkG st starting_position [] GameStatus.ONGOING (lit "*")).
Proof.
  intros Hst. split; cbn [g_state g_board g_history g_status g_result].
  - exact start_board.
  - exact played_nil.
  - reflexivity.
  - intros _. exact (conj eq_refl (conj eq_refl start_ongoing)).
  - intros E. destruct (Hst E).
Qed.

Lemma new_room_ok id cid name fd tc db e : room_ok (new_room id cid name fd tc db e).
Proof. split; [by split|]. apply start_game_ok. discriminate. Qed.

Lemma new_ai_room_ok env id cid name fd tc d db e : room_ok (new_ai_room env id cid name fd tc d db e).
Proof. split; [by split|]. apply start_game_ok. discriminate. Qed.

Lemma new_reserved_room_ok id t p w wn we b bn be tc :
  room_ok (new_reserved_room id t p w wn we b bn be tc).
Proof. split; [by split|]. apply start_game_ok. discriminate. Qed.

(** A room as the server may hold it: made by a constructor, driven by operations. *)
Inductive room_reachable : Room -> Prop :=
| rr_new id cid name fd tc db e : room_reachable (new_room id cid name fd tc db e)
| rr_ai env id cid name fd tc d db e : room_reachable (new_ai_room env id cid name fd tc d db e)
| rr_reserved id t p w wn we b bn be tc : room_reachable (new_reserved_room id t p w wn we b bn be tc)
| rr_exec env o r : room_reachable r -> room_reachable (fst (exec env o r)).

Lemma room_reachable_ok r : room_reachable r -> room_ok r.
Proof.
  induction 1; [apply new_room_ok|apply new_ai_room_ok|apply new_reserved_room_ok|by apply exec_room_ok].
Qed.

Lemma room_reachable_all ops r : room_reachable r -> room_reachable (fst (exec_all ops r)).
Proof.
  revert r. induction ops as [|[env o] ops IH]; intros r Hr; cbn [exec_all]; [done|].
  pose proof (rr_exec env o r Hr) as H1. destruct (exec env o r) as [r1 e1]. cbn [fst] in H1.
  specialize (IH r1 H1). by destruct (exec_all ops r1).
Qed.

(** ** Who owns a seat, and who wins *)

(** The connection [fd] sits on the side [c]. *)
Definition owns (c : Color.t) (fd : Z) (r : Room) : Prop :=
  match c with
  | Color.WHITE => connection_fd (white_ r) = fd
  | Color.BLACK => connection_fd (black_ r) = fd
  | Color.NONE => False
  end.

Lemma color_owns r fd : color_of r fd <> Color.NONE -> owns (color_of r fd) fd r.
Proof. unfold color_of. destruct (Z.eqb_spec (connection_fd (white_ r)) fd); [done|]. by destruct (Z.eqb_spec (connection_fd (black_ r)) fd). Qed.

(** The game of [r], ended where it stands. *)
Definition ended (r : Room) (st : GameStatus.t) (res : str) : Game :=
  mkG RoomState.FINISHED (board_ r) (move_history_ r) st res.

Lemma abs_locked {A} (body : Room -> Room * A) r : abs (fst (outcome (locked body r))) = abs (fst (body r)).
Proof. unfold outcome, locked. destruct (body r) as [r1 a]. cbn [fst]. pose proof (proj1 (drain_keeps r1)). by destruct (drain r1). Qed.

(** Who resigns loses. *)
Lemma resign_ends env fd cb r : state_ r = RoomState.IN_PROGRESS ->
  abs (fst (exec env (Resign fd cb) r)) =
  if decide (connection_fd (white_ r) = fd) then ended r GameStatus.RESIGNATION (lit "0-1")
  else if decide (connection_fd (black_ r) = fd) then ended r GameStatus.RESIGNATION (lit "1-0") else abs r.
Proof.
  intros Hs. cbn [exec]. unfold resign. rewrite abs_locked. cbv zeta. change (state_ (bump r)) with (state_ r).
  change (color_of (bump r) fd) with (color_of r fd). rewrite bool_decide_eq_true_2 by done. cbn [negb]. unfold color_of.
  destruct (Z.eqb_spec (connection_fd (white_ r)) fd); [by rewrite decide_True|]. rewrite decide_False by done.
  destruct (Z.eqb_spec (connection_fd (black_ r)) fd); [by rewrite decide_True|by rewrite decide_False].
Qed.

(** The player of a seat has been away for [grace]. *)
Definition gone (env : Env) (grace : Z) (s : PlayerSlot) : Prop :=
  connected s = false /\ ms_ticks grace <= steady env 0 - disconnected_at s.

Lemma gone_spec env grace s :
  negb (connected s) && (ms_ticks grace <=? steady env 0 - disconnected_at s) = true <-> gone env grace s.
Proof. unfold gone. by rewrite andb_true_iff, negb_true_iff, Z.leb_le. Qed.

(** Who stays away loses, the one who left first if both do. *)
Inductive abandoned (env : Env) (grace : Z) (r : Room) : Game -> Prop :=
| ab_nobody : ~ gone env grace (white_ r) -> ~ gone env grace (black_ r) -> abandoned env grace r (abs r)
| ab_white : gone env grace (white_ r) ->
    ~ gone env grace (black_ r) \/ disconnected_at (white_ r) < disconnected_at (black_ r) ->
    abandoned env grace r (ended r GameStatus.ABANDONMENT (lit "0-1"))
| ab_black : gone env grace (black_ r) ->
    ~ gone env grace (white_ r) \/ disconnected_at (black_ r) < disconnected_at (white_ r) ->
    abandoned env grace r (ended r GameStatus.ABANDONMENT (lit "1-0"))
| ab_both : gone env grace (white_ r) -> gone env grace (black_ r) -> disconnected_at (white_ r) = disconnected_at (black_ r) ->
    abandoned env grace r (ended r GameStatus.ABANDONMENT (lit "1/2-1/2")).

Lemma abandoned_by_black env grace r g : abandoned env grace r g -> gone env grace (black_ r) -> ~ gone env grace (white_ r) ->
  g = ended r GameStatus.ABANDONMENT (lit "1-0").
Proof. by intros []. Qed.

Lemma expire_abandoned env grace r : state_ r = RoomState.IN_PROGRESS ->
  abandoned env grace r (abs (fst (exec env (ExpireDisconnected grace) r))).
Proof.
  intros Hs. cbn [exec]. unfold expire_disconnected. rewrite abs_locked, bool_decide_eq_true_2 by done. cbn [negb]. cbv zeta.
  destruct (negb (connected (white_ r)) && _) eqn:Ew; destruct (negb (connected (black_ r)) && _) eqn:Eb; cbn [negb andb orb];
    rewrite <- ?not_true_iff_false, ?gone_spec in *; cbn [fst].
  - destruct (Z.eqb_spec (disconnected_at (white_ r)) (disconnected_at (black_ r))) as [E|Hne]; cbn [fst]; [by apply ab_both|].
    destruct (Z.ltb_spec (disconnected_at (white_ r)) (disconnected_at (black_ r))); cbn [fst].
    + apply ab_white; [done|by right].
    + apply ab_black; [done|]. right. lia.
  - apply ab_white; auto.
  - apply ab_black; auto.
  - by apply ab_nobody.
Qed.

(** ** Agreeing on a draw *)

Definition run (ops : list (Env * Op)) (r : Room) : Room := fst (exec_all ops r).

Lemma run_app ops1 ops2 r : run (ops1 ++ ops2) r = run ops2 (run ops1 r).
Proof.
  unfold run. revert r. induction ops1 as [|[env o] ops IH]; intros r; [done|]. cbn [app exec_all].
  destruct (exec env o r) as [r1 e1]. specialize (IH r1).
  destruct (exec_all (ops ++ ops2) r1), (exec_all ops r1). exact IH.
Qed.

Lemma run_one env o r : run [(env, o)] r = fst (exec env o r).
Proof. unfold run. cbn [exec_all]. by destruct (exec env o r). Qed.

Lemma offer_locked {A} (body : Room -> Room * A) r :
  draw_offer_from_ (fst (outcome (locked body r))) = draw_offer_from_ (fst (body r)).
Proof. unfold outcome, locked, drain. destruct (body r) as [r1 a]. cbn [fst]. by destruct (pending_completed_ r1). Qed.

Lemma offer_locked_start {A} (body : Room -> Room * A * option GameStarted) r :
  draw_offer_from_ (fst (outcome (locked_start body r))) = draw_offer_from_ (fst (fst (body r))).
Proof.
  unfold locked_start. pose proof (offer_locked (fun r => let '(r, a, s) := body r in (r, (a, s))) r) as H.
  destruct (locked _ r) as [[r1 [a st]] evs]. cbn [outcome fst] in *. rewrite H. by destruct (body r) as [[? ?] ?].
Qed.

Lemma offer_set_seat r c s : draw_offer_from_ (set_seat r c s) = draw_offer_from_ r.
Proof. unfold set_seat. by destruct (bool_decide _). Qed.

Lemma offer_concluded env san dec now r :
  draw_offer_from_ (fst (conclude_move env san dec (switch_clock now r))) = draw_offer_from_ r.
Proof. unfold conclude_move, switch_clock. destruct (bool_decide (get_game_status _ = _)); cbn [fst]; apply (eq_trans (offer_set_seat _ _ _)), offer_set_seat. Qed.

Lemma offer_bind env db pid fd rep gen r : draw_offer_from_ (fst (fst (bind_body env db pid fd rep gen r))) = draw_offer_from_ r.
Proof.
  unfold bind_body. cbv zeta. set (c := if db_player_id (white_ r) =? db then _ else _).
  destruct (negb (is_tournament_reserved_ _)); [done|]. destruct (bool_decide _); [done|]. destruct (bool_decide _); [done|].
  destruct (negb _); [done|]. destruct (_ <? _); [done|]. destruct (_ && _ && _); [done|].
  destruct (negb (connected (seat r c)) || _); destruct (_ && _); cbn [fst];
    first [apply (offer_set_seat (bump r)) | apply (offer_set_seat r)].
Qed.

Lemma offer_disconnected env r c :
  draw_offer_from_ (fst (
    let r := set_seat (bump r) c (detach (steady env 0) (seat r c)) in
    if bool_decide (state_ r = RoomState.FINISHED) then (r, tt) else
    if bool_decide (state_ r = RoomState.WAITING) && negb (is_tournament_reserved_ (config r))
    then (finish_game env r GameStatus.RESIGNATION (lit "*"), tt) else (r, tt))) = draw_offer_from_ r.
Proof. cbv zeta. destruct (bool_decide _); [apply (offer_set_seat (bump r))|]. destruct (_ && _); apply (offer_set_seat (bump r)). Qed.

(** An offer that stands after a call stood before it, or the call has made it. *)
Definition offer_made (o : Op) (c : Color.t) (r : Room) : Prop :=
  exists fd, o = OfferDraw fd /\ state_ r = RoomState.IN_PROGRESS /\ is_ai_ (config r) = false /\
    draw_offer_from_ r = None /\ c <> Color.NONE /\ owns c fd r /\ connected (seat r (opposite_color c)) = true.

Lemma offer_draw_offers env fd r c :
  draw_offer_from_ (fst (exec env (OfferDraw fd) r)) = Some c ->
  draw_offer_from_ r = Some c \/ offer_made (OfferDraw fd) c r.
Proof.
  cbn [exec]. unfold offer_draw. rewrite offer_locked. cbv zeta. destruct (bool_decide (state_ r = _)) eqn:Es; cbn [negb]; [|by left].
  destruct (is_ai_ (config r)) eqn:Eai; [by left|]. destruct (bool_decide (color_of r fd = _)) eqn:En; [by left|].
  destruct (negb _) eqn:Ec; [by left|]. destruct (draw_offer_from_ r) as [o|] eqn:Eo; [destruct (bool_decide (o = _)); intros E; left; rewrite <- Eo; exact E|].
  cbn. intros [= <-]. apply bool_decide_eq_true in Es. apply bool_decide_eq_false in En. apply negb_false_iff in Ec.
  right. exists fd. split_and!; try done; [by apply color_owns|]. revert Ec En. by destruct (color_of r fd).
Qed.

Lemma exec_offer env o r c :
  draw_offer_from_ (fst (exec env o r)) = Some c -> draw_offer_from_ r = Some c \/ offer_made o c r.
Proof.
  destruct o; try apply offer_draw_offers; cbn [exec]; left; revert H.
  - unfold add_listener. destruct (_ =? _); [done|]. by rewrite offer_locked.
  - unfold remove_listener. rewrite offer_locked. by destruct (erase_first _ _).
  - unfold join. rewrite offer_locked_start. destruct (_ || _); [done|]. by destruct (negb _).
  - unfold bind_reserved_player. by rewrite offer_locked_start, offer_bind.
  - unfold allow_reserved_player. rewrite offer_locked. destruct (_ || _); [done|]. destruct (_ =? _); [done|]. by destruct (_ =? _).
  - unfold open_reserved. rewrite offer_locked_start. destruct (_ || _); [done|]. cbv zeta. by destruct (ready_to_start _).
  - unfold submit_move. rewrite offer_locked. unfold submit_body. cbv zeta. destruct (negb _); [done|]. destruct (bool_decide _); [done|].
    destruct (negb _); [done|]. destruct (check_flag _ _); [done|]. destruct (find_move _ _ _ _); [|done].
    rewrite offer_concluded. set (dec := match draw_offer_from_ _ with Some _ => _ | None => false end). clearbody dec.
    destruct dec; [done|exact (fun E => E)].
  - unfold submit_move_ai. rewrite offer_locked. unfold submit_ai_body. cbv zeta. destruct (negb _); [done|]. destruct (negb _); [done|].
    destruct (negb _); [done|]. destruct (check_flag _ _); [intros <-; symmetry; apply (offer_set_seat (bump r))|].
    destruct (find_move _ _ _ _); [|done]. by rewrite offer_concluded.
  - unfold resign. rewrite offer_locked. cbv zeta. destruct (negb _); [done|]. by destruct (bool_decide _).
  - unfold respond_to_draw. rewrite offer_locked. cbv zeta. destruct (if bool_decide _ then _ else _); [|done].
    destruct (bool_decide _); [done|]. destruct (bool_decide _); [done|]. by destruct accept.
  - unfold expire_draw_offer. rewrite offer_locked. destruct (if bool_decide _ then _ else _); [|done]. by destruct (_ <? _).
  - unfold offer_rematch. rewrite offer_locked. cbv zeta. destruct (negb _); [done|]. destruct (is_ai_ _); [done|].
    destruct (is_tournament_reserved_ _); [done|]. destruct (bool_decide _); [done|]. destruct (_ || _); [done|].
    destruct (rematch_offer_from_ r); [by destruct (bool_decide _)|done].
  - unfold respond_to_rematch. rewrite offer_locked. cbv zeta. destruct (if bool_decide _ then _ else _); [|done].
    destruct (bool_decide _); [done|]. by destruct (bool_decide _).
  - unfold expire_rematch_offer. rewrite offer_locked. destruct (if bool_decide _ then _ else _); [|done]. by destruct (_ <? _).
  - unfold expire_on_time. rewrite offer_locked. destruct (_ || _); [done|]. cbn [fst]. intros <-. symmetry. apply offer_set_seat.
  - unfold on_disconnect. rewrite offer_locked. cbv zeta. destruct (_ || _); [done|]. intros <-. symmetry. apply offer_disconnected.
  - unfold on_reconnect. rewrite offer_locked. cbv zeta. destruct (bool_decide _); [done|]. destruct (_ =? _); [done|]. by destruct (_ =? _).
  - unfold on_reconnect_db_player. destruct (is_tournament_reserved_ _).
    + pose proof (offer_locked_start (bind_body env db_id (to_player_id db_id) fd true generation) r) as E. unfold bind_reserved_player.
      rewrite offer_bind in E. destruct (locked_start _ r) as [[? ?] ?]. cbn [outcome fst] in *. by rewrite E.
    + rewrite offer_locked. cbv zeta. destruct (_ <=? _); [done|]. destruct (bool_decide (_ = Color.NONE)); [done|]. destruct (_ <? _); [done|].
      destruct (_ && _); intros <-; symmetry; [apply offer_set_seat|apply (offer_set_seat (bump r))].
  - unfold expire_disconnected. rewrite offer_locked. cbv zeta. destruct (negb _); [done|]. by destruct (_ && _).
  - unfold add_spectator. rewrite offer_locked. cbv zeta. destruct (negb _); [done|]. destruct (_ =? _); [done|]. destruct (_ =? _); [done|].
    by destruct (existsb _ _).
  - unfold remove_spectator. rewrite offer_locked. cbv zeta. by destruct (erase_first _ _).
Qed.

Lemma status_locked {A} (body : Room -> Room * A) r :
  game_status_ (fst (outcome (locked body r))) = game_status_ (fst (body r)).
Proof. exact (f_equal g_status (abs_locked body r)). Qed.

Lemma status_locked_start {A} (body : Room -> Room * A * option GameStarted) r :
  game_status_ (fst (outcome (locked_start body r))) = game_status_ (fst (fst (body r))).
Proof.
  unfold locked_start. pose proof (status_locked (fun r => let '(r, a, s) := body r in (r, (a, s))) r) as H.
  destruct (locked _ r) as [[r1 [a st]] evs]. cbn [outcome fst] in *. rewrite H. by destruct (body r) as [[? ?] ?].
Qed.

Lemma status_set_seat r c s : game_status_ (set_seat r c s) = game_status_ r.
Proof. exact (f_equal g_status (abs_set_seat r c s)). Qed.

Lemma status_of_position b : get_game_status b <> GameStatus.DRAW_AGREEMENT.
Proof.
  unfold get_game_status. destruct (_ <=? _); [done|]. destruct (generate_legal_moves b); [|done]. by destruct (is_in_check _ _).
Qed.

Lemma status_concluded env san dec now r :
  game_status_ (fst (conclude_move env san dec (switch_clock now r))) = GameStatus.DRAW_AGREEMENT -> game_status_ r = GameStatus.DRAW_AGREEMENT.
Proof.
  unfold conclude_move. destruct (switch_clock_keeps now r) as (H & _). destruct (bool_decide (get_game_status _ = _)); cbn [fst].
  - intros E. exact (eq_trans (eq_sym (f_equal g_status H)) E).
  - intros E. destruct (status_of_position _ E).
Qed.

Lemma status_bind env db pid fd rep gen r : game_status_ (fst (fst (bind_body env db pid fd rep gen r))) = game_status_ r.
Proof.
  unfold bind_body. cbv zeta. set (c := if db_player_id (white_ r) =? db then _ else _).
  destruct (negb (is_tournament_reserved_ _)); [done|]. destruct (bool_decide _); [done|]. destruct (bool_decide _); [done|].
  destruct (negb _); [done|]. destruct (_ <? _); [done|]. destruct (_ && _ && _); [done|].
  destruct (negb (connected (seat r c)) || _); destruct (_ && _); cbn [fst];
    first [apply (status_set_seat (bump r)) | apply (status_set_seat r)].
Qed.

(** Only an acceptance brings an agreement about. *)
Definition agreement_made (o : Op) (c : Color.t) (r : Room) : Prop :=
  exists fd, o = RespondDraw fd true /\ state_ r = RoomState.IN_PROGRESS /\ draw_offer_from_ r = Some c /\
    color_of r fd <> Color.NONE /\ color_of r fd <> c.

Lemma respond_agreement env fd accept r :
  game_status_ (fst (exec env (RespondDraw fd accept) r)) = GameStatus.DRAW_AGREEMENT ->
  game_status_ r = GameStatus.DRAW_AGREEMENT \/ exists c, agreement_made (RespondDraw fd accept) c r.
Proof.
  cbn [exec]. unfold respond_to_draw. rewrite status_locked. cbv zeta.
  destruct (bool_decide (state_ r = _)) eqn:Es; [|by left]. destruct (draw_offer_from_ r) as [c|] eqn:Eo; [|by left].
  destruct (bool_decide (color_of r fd = Color.NONE)) eqn:En; [by left|]. destruct (bool_decide (color_of r fd = c)) eqn:Ec; [by left|].
  destruct accept; [|by left]. intros _. right. exists c, fd.
  apply bool_decide_eq_true in Es. apply bool_decide_eq_false in En, Ec. done.
Qed.

Lemma exec_agreement env o r :
  game_status_ (fst (exec env o r)) = GameStatus.DRAW_AGREEMENT ->
  game_status_ r = GameStatus.DRAW_AGREEMENT \/ exists c, agreement_made o c r.
Proof.
  destruct o; try apply respond_agreement; cbn [exec]; left; revert H.
  - unfold add_listener. destruct (_ =? _); [done|]. by rewrite status_locked.
  - unfold remove_listener. rewrite status_locked. by destruct (erase_first _ _).
  - unfold join. rewrite status_locked_start. destruct (_ || _); [done|]. by destruct (negb _).
  - unfold bind_reserved_player. by rewrite status_locked_start, status_bind.
  - unfold allow_reserved_player. rewrite status_locked. destruct (_ || _); [done|]. destruct (_ =? _); [done|]. by destruct (_ =? _).
  - unfold open_reserved. rewrite status_locked_start. destruct (_ || _); [done|]. cbv zeta. by destruct (ready_to_start _).
  - unfold submit_move. rewrite status_locked. unfold submit_body. cbv zeta. destruct (negb _); [done|]. destruct (bool_decide _); [done|].
    destruct (negb _); [done|]. destruct (check_flag _ _); [done|]. destruct (find_move _ _ _ _); [|done].
    set (dec := match draw_offer_from_ _ with Some _ => _ | None => false end). clearbody dec.
    intros E. apply status_concluded in E. by destruct dec.
  - unfold submit_move_ai. rewrite status_locked. unfold submit_ai_body. cbv zeta. destruct (negb _); [done|]. destruct (negb _); [done|].
    destruct (negb _); [done|]. destruct (check_flag _ _); [done|]. destruct (find_move _ _ _ _); [|done].
    intros E. by apply status_concluded in E.
  - unfold resign. rewrite status_locked. cbv zeta. destruct (negb _); [done|]. by destruct (bool_decide _).
  - unfold offer_draw. rewrite status_locked. cbv zeta. destruct (negb _); [done|]. destruct (is_ai_ _); [done|].
    destruct (bool_decide _); [done|]. destruct (negb _); [done|]. destruct (draw_offer_from_ r); [by destruct (bool_decide _)|done].
  - unfold expire_draw_offer. rewrite status_locked. destruct (if bool_decide _ then _ else _); [|done]. by destruct (_ <? _).
  - unfold offer_rematch. rewrite status_locked. cbv zeta. destruct (negb _); [done|]. destruct (is_ai_ _); [done|].
    destruct (is_tournament_reserved_ _); [done|]. destruct (bool_decide _); [done|]. destruct (_ || _); [done|].
    destruct (rematch_offer_from_ r); [by destruct (bool_decide _)|done].
  - unfold respond_to_rematch. rewrite status_locked. cbv zeta. destruct (if bool_decide _ then _ else _); [|done].
    destruct (bool_decide _); [done|]. by destruct (bool_decide _).
  - unfold expire_rematch_offer. rewrite status_locked. destruct (if bool_decide _ then _ else _); [|done]. by destruct (_ <? _).
  - unfold expire_on_time. rewrite status_locked. by destruct (_ || _).
  - unfold on_disconnect. rewrite status_locked. cbv zeta. destruct (_ || _); [done|]. destruct (bool_decide _); [exact (fun E => eq_trans (eq_sym (status_set_seat (bump r) _ _)) E)|].
    destruct (_ && _); [done|exact (fun E => eq_trans (eq_sym (status_set_seat (bump r) _ _)) E)].
  - unfold on_reconnect. rewrite status_locked. cbv zeta. destruct (bool_decide _); [done|]. destruct (_ =? _); [done|]. by destruct (_ =? _).
  - unfold on_reconnect_db_player. destruct (is_tournament_reserved_ _).
    + pose proof (status_locked_start (bind_body env db_id (to_player_id db_id) fd true generation) r) as E. unfold bind_reserved_player.
      rewrite status_bind in E. destruct (locked_start _ r) as [[? ?] ?]. cbn [outcome fst] in *. by rewrite E.
    + rewrite status_locked. cbv zeta. destruct (_ <=? _); [done|]. destruct (bool_decide (_ = Color.NONE)); [done|]. destruct (_ <? _); [done|].
      destruct (_ && _); cbn [fst]; [exact (fun E => eq_trans (eq_sym (status_set_seat r _ _)) E)|exact (fun E => eq_trans (eq_sym (status_set_seat (bump r) _ _)) E)].
  - unfold expire_disconnected. rewrite status_locked. cbv zeta. destruct (negb _); [done|]. by destruct (_ && _).
  - unfold add_spectator. rewrite status_locked. cbv zeta. destruct (negb _); [done|]. destruct (_ =? _); [done|]. destruct (_ =? _); [done|].
    by destruct (existsb _ _).
  - unfold remove_spectator. rewrite status_locked. cbv zeta. by destruct (erase_first _ _).
Qed.

(** The standing offer was made in the history, and has stood ever since. *)
Record offer_history (r0 : Room) (ops : list (Env * Op)) (c : Color.t) (before : list (Env * Op))
    (e : Env) (o : Op) (after : list (Env * Op)) : Prop := {
  oh_calls : ops = before ++ (e, o) :: after;
  oh_made : offer_made o c (run before r0);
  oh_stands : forall p, p `prefix_of` after -> draw_offer_from_ (run (before ++ (e, o) :: p) r0) = Some c
}.

Lemma run_snoc ops e o r : run (ops ++ [(e, o)]) r = fst (exec e o (run ops r)).
Proof. by rewrite run_app, run_one. Qed.

Lemma prefix_snoc {A} (p l : list A) x : p `prefix_of` l ++ [x] -> p `prefix_of` l \/ p = l ++ [x].
Proof.
  intros [k Hk]. destruct k as [|y k _] using rev_ind; [rewrite app_nil_r in Hk; by right|].
  rewrite app_assoc in Hk. apply app_inj_tail in Hk as [-> _]. left. by exists k.
Qed.

Lemma offer_has_history r0 ops c : draw_offer_from_ r0 = None -> draw_offer_from_ (run ops r0) = Some c ->
  exists before e o after, offer_history r0 ops c before e o after.
Proof.
  intros H0. revert c. induction ops as [|[e o] ops IH] using rev_ind; intros c H; [unfold run in H; cbn in H; congruence|].
  pose proof H as Hall. rewrite run_snoc in H. apply exec_offer in H as [H|Hm].
  - destruct (IH c H) as (b & e1 & o1 & a & [Hops Hm Hst]). exists b, e1, o1, (a ++ [(e, o)]). split; [by rewrite Hops, <- app_assoc|done|].
    intros p [Hp| ->]%prefix_snoc; [by apply Hst|]. by rewrite Hops, <- app_assoc in Hall.
  - exists ops, e, o, []. split; [done|done|]. intros p ->%prefix_nil_inv. done.
Qed.

(** An agreement has a moment: the call before which there was none. *)
Lemma agreement_has_moment r0 ops : game_status_ r0 <> GameStatus.DRAW_AGREEMENT ->
  game_status_ (run ops r0) = GameStatus.DRAW_AGREEMENT ->
  exists before e o after c, ops = before ++ (e, o) :: after /\ agreement_made o c (run before r0).
Proof.
  intros H0. induction ops as [|[e o] ops IH] using rev_ind; intros H; [done|].
  rewrite run_snoc in H. apply exec_agreement in H as [H|[c Hm]].
  - destruct (IH H) as (b & e1 & o1 & a & c & -> & Hm). exists b, e1, o1, (a ++ [(e, o)]), c. by rewrite <- app_assoc.
  - by exists ops, e, o, [], c.
Qed.

(** What the answer to a standing offer does: the other player settles it. *)
Lemma respond_settles env fd accept r c : state_ r = RoomState.IN_PROGRESS -> draw_offer_from_ r = Some c ->
  color_of r fd <> Color.NONE -> color_of r fd <> c ->
  let r' := fst (exec env (RespondDraw fd accept) r) in
  draw_offer_from_ r' = None /\
  abs r' = if accept then ended r GameStatus.DRAW_AGREEMENT (lit "1/2-1/2") else abs r.
Proof.
  intros Hs Ho Hn Hc. cbv zeta. cbn [exec]. unfold respond_to_draw. rewrite offer_locked, abs_locked. cbv zeta.
  rewrite bool_decide_eq_true_2, Ho, !bool_decide_eq_false_2 by done. by destruct accept.
Qed.

Lemma color_of_opposite r fd c : color_of r fd <> Color.NONE -> color_of r fd <> c -> c <> Color.NONE ->
  color_of r fd = opposite_color c.
Proof. by destruct (color_of r fd), c. Qed.

Lemma run_settled ops r : settled r -> settled (run ops r).
Proof.
  induction ops as [|[e o] ops IH] using rev_ind; [done|]. intros H. rewrite run_snoc.
  by destruct (exec_ok e o _ (IH H)).
Qed.

(** An offer is recorded as the offer of the seat that makes it. *)
Lemma offer_recorded env fd r : state_ r = RoomState.IN_PROGRESS -> is_ai_ (config r) = false ->
  color_of r fd <> Color.NONE -> connected (seat r (opposite_color (color_of r fd))) = true -> draw_offer_from_ r = None ->
  draw_offer_from_ (fst (exec env (OfferDraw fd) r)) = Some (color_of r fd).
Proof.
  intros Hs Hai Hn Hc Ho. cbn [exec]. unfold offer_draw. rewrite offer_locked. cbv zeta.
  rewrite bool_decide_eq_true_2, Hai, bool_decide_eq_false_2, Ho by done. cbn [negb].
  assert ((if bool_decide (color_of r fd = Color.WHITE) then black_ r else white_ r) = seat r (opposite_color (color_of r fd))) as ->
    by (revert Hn; by destruct (color_of r fd)). by rewrite Hc.
Qed.

(** How a game comes to be drawn by agreement: the owner of the seat [c] offers, to an
    opponent who is there; the offer stands through every call that follows; then the
    owner of the other seat accepts it, and that ends the game. *)
Record draw_agreed (r0 : Room) (ops before between rest : list (Env * Op)) (e1 e2 : Env) (fd1 fd2 : Z)
    (c : Color.t) : Prop := {
  da_calls : ops = before ++ (e1, OfferDraw fd1) :: between ++ (e2, RespondDraw fd2 true) :: rest;
  da_live : state_ (run before r0) = RoomState.IN_PROGRESS /\ is_ai_ (config (run before r0)) = false;
  da_offerer : owns c fd1 (run before r0) /\ connected (seat (run before r0) (opposite_color c)) = true;
  da_first : draw_offer_from_ (run before r0) = None;
  da_stands : forall p, p `prefix_of` between ->
    draw_offer_from_ (run (before ++ (e1, OfferDraw fd1) :: p) r0) = Some c;
  da_accepted : let r := run (before ++ (e1, OfferDraw fd1) :: between) r0 in
    state_ r = RoomState.IN_PROGRESS /\ owns (opposite_color c) fd2 r /\
    abs (run ops r0) = ended r GameStatus.DRAW_AGREEMENT (lit "1/2-1/2")
}.

Lemma agreement_history r0 ops : settled r0 -> draw_offer_from_ r0 = None ->
  game_status_ r0 <> GameStatus.DRAW_AGREEMENT -> game_status_ (run ops r0) = GameStatus.DRAW_AGREEMENT ->
  exists before between rest e1 e2 fd1 fd2 c, draw_agreed r0 ops before between rest e1 e2 fd1 fd2 c.
Proof.
  intros Hr H0 H1 H. destruct (agreement_has_moment r0 ops H1 H) as (b & e2 & o2 & rest & c & Hops & (fd2 & -> & Hs & Ho & Hn & Hc)).
  destruct (offer_has_history r0 b c H0 Ho) as (a & e1 & o1 & m & [-> (fd1 & -> & M1 & M2 & M3 & M4 & M5 & M6) Hst]).
  exists a, m, rest, e1, e2, fd1, fd2, c. rewrite <- app_assoc in Hops.
  pose proof (color_of_opposite _ _ _ Hn Hc M4) as Hopp. split; try done. cbv zeta. split; [done|]. split.
  - rewrite <- Hopp. by apply color_owns.
  - assert (ops = ((a ++ (e1, OfferDraw fd1) :: m) ++ [(e2, RespondDraw fd2 true)]) ++ rest) as -> by (rewrite Hops; by rewrite <- !app_assoc).
    rewrite run_app.
    pose proof (proj2 (respond_settles e2 fd2 true _ c Hs Ho Hn Hc)) as Hend. rewrite <- run_snoc in Hend. rewrite <- Hend.
    apply finished_final; [by apply run_settled|exact (f_equal g_state Hend)].
Qed.
