(* ===== verification/RoomManager.v ===== *)
(** * The registry of rooms: src/src/game/room_manager.{h,cpp}

    A [shared_ptr<GameRoom>] in [rooms_] is the room itself: whoever holds the pointer
    works on the room the registry lists, so the calls on rooms update the map.  The
    iteration order of [unordered_map] is not specified; [order] stands for it. *)
From S2P Require Import Prelude Types BoardState Zobrist Board MoveGen Fen Uci Notation RoomState GameRoom.
From stdpp Require Import gmap.
Open Scope Z_scope.

Record RoomManager := mkManager {
  rooms_ : gmap Z Room;
  tournament_pairing_rooms_ : gmap Z Z;
  reserved_tournament_players_ : gset Z;
  next_id_ : Z;
  default_listener_ : Z
}.

Definition new_manager : RoomManager := mkManager ∅ ∅ ∅ 1 0.

(** [next_id_.fetch_add(1)] on an [atomic<uint32_t>]. *)
Definition fetch_id (rm : RoomManager) : Z * RoomManager :=
  (next_id_ rm, rm <| next_id_ := (next_id_ rm + 1) mod 2 ^ 32 |>).

Definition attach_default (rm : RoomManager) (r : Room) : Room :=
  fst (fst (add_listener (default_listener_ rm) r)).

Definition register (rm : RoomManager) (id : Z) (r : Room) : RoomManager :=
  rm <| rooms_ ::= fun m => <[id := attach_default rm r]> m |>.

Definition create_room (creator_id : Z) (name : str) (fd : Z) (tc : TimeControl) (db_id elo0 : Z)
    (rm : RoomManager) : Z * RoomManager :=
  let '(id, rm) := fetch_id rm in
  (id, register rm id (new_room id creator_id name fd tc db_id elo0)).

Definition create_ai_room (env : Env) (creator_id : Z) (name : str) (fd : Z) (tc : TimeControl)
    (difficulty : AIDifficulty.t) (db_id elo0 : Z) (rm : RoomManager) : Z * RoomManager :=
  let '(id, rm) := fetch_id rm in
  (id, register rm id (new_ai_room env id creator_id name fd tc difficulty db_id elo0)).

(** The room of a pairing, when the registry still has it. *)
Definition find_room_by_pairing (pairing : Z) (rm : RoomManager) : option Z :=
  match tournament_pairing_rooms_ rm !! pairing with
  | None => None
  | Some id => match rooms_ rm !! id with None => None | Some _ => Some id end
  end.

Definition create_reserved_tournament_room (tournament pairing white_db : Z) (white_name : str)
    (white_elo black_db : Z) (black_name : str) (black_elo : Z) (tc : TimeControl) (rm : RoomManager)
    : Z * RoomManager :=
  match find_room_by_pairing pairing rm with
  | Some id => (id, rm)
  | None =>
      let rm := rm <| tournament_pairing_rooms_ ::= delete pairing |> in
      let '(id, rm) := fetch_id rm in
      let rm := register rm id (new_reserved_room id tournament pairing white_db white_name white_elo
                                  black_db black_name black_elo tc) in
      (id, rm <| tournament_pairing_rooms_ ::= <[pairing := id]> |>)
  end.

Definition ensure_next_id_above (existing : Z) (rm : RoomManager) : RoomManager :=
  let desired := (existing + 1) mod 2 ^ 32 in
  if next_id_ rm <? desired then rm <| next_id_ := desired |> else rm.

Definition reserve_tournament_player (db_id : Z) (rm : RoomManager) : RoomManager :=
  if db_id <=? 0 then rm else rm <| reserved_tournament_players_ ::= fun s => {[db_id]} ∪ s |>.
Definition release_tournament_player (db_id : Z) (rm : RoomManager) : RoomManager :=
  rm <| reserved_tournament_players_ ::= fun s => s ∖ {[db_id]} |>.
Definition is_tournament_player_reserved (db_id : Z) (rm : RoomManager) : bool :=
  bool_decide (db_id ∈ reserved_tournament_players_ rm).

Definition set_default_listener (l : Z) (rm : RoomManager) : RoomManager :=
  rm <| default_listener_ := l |>.

Definition find_room (id : Z) (rm : RoomManager) : option Room := rooms_ rm !! id.

(** [GameRoom::has_player] and its kin. *)
Definition has_player (fd : Z) (r : Room) : bool :=
  (connection_fd (white_ r) =? fd) || (connection_fd (black_ r) =? fd).
Definition has_player_id (pid : Z) (r : Room) : bool :=
  (player_id (white_ r) =? pid) || (player_id (black_ r) =? pid).
Definition has_db_player_id (db_id : Z) (r : Room) : bool :=
  (0 <? db_id) && ((db_player_id (white_ r) =? db_id) || (db_player_id (black_ r) =? db_id)).
Definition is_finished (r : Room) : bool := bool_decide (state_ r = RoomState.FINISHED).

(** Removing a room also removes the pairings that lead to it. *)
Definition forget_pairings (id : Z) (rm : RoomManager) : RoomManager :=
  rm <| tournament_pairing_rooms_ ::= filter (fun p => p.2 <> id) |>.

Definition remove_room (id : Z) (rm : RoomManager) : RoomManager :=
  (forget_pairings id rm) <| rooms_ ::= delete id |>.

Definition room_count (rm : RoomManager) : Z := Z.of_nat (size (rooms_ rm)).

Section order.
Context (order : list (Z * Room) -> list (Z * Room)).

Definition rooms_snapshot (rm : RoomManager) : list (Z * Room) := order (map_to_list (rooms_ rm)).

(** The first live room of the connection, else the last finished one. *)
Definition find_room_by_fd (fd : Z) (rm : RoomManager) : option Z :=
  let fix go (l : list (Z * Room)) (finished : option Z) : option Z :=
    match l with
    | [] => finished
    | (id, r) :: l =>
        if has_player fd r
        then if negb (is_finished r) then Some id else go l (Some id)
        else go l finished
    end in
  go (rooms_snapshot rm) None.

Definition find_room_by_player (pid : Z) (rm : RoomManager) : option Z :=
  option_map fst (find (fun p => has_player_id pid (snd p)) (rooms_snapshot rm)).

Definition find_room_by_db_player (db_id : Z) (rm : RoomManager) : option Z :=
  option_map fst (find (fun p => negb (is_finished (snd p)) && has_db_player_id db_id (snd p))
                       (rooms_snapshot rm)).

Record RoomInfo := mkInfo {
  info_id : Z; info_state : RoomState.t; info_white_name : str; info_black_name : str;
  info_time_control : str; info_move_count : Z; info_spectator_count : Z
}.

Definition room_info (st : RoomState.t) (black_name : Room -> str) (p : Z * Room) : RoomInfo :=
  let '(id, r) := p in
  mkInfo id st (username (white_ r)) (black_name r) (time_control_string (time_control_ (config r)))
    (to_int (Z.of_nat (length (move_history_ r)))) (to_int (Z.of_nat (length (spectator_fds_ r)))).

Definition in_state (st : RoomState.t) (p : Z * Room) : bool := bool_decide (state_ (snd p) = st).

Definition list_open_rooms (rm : RoomManager) : list RoomInfo :=
  map (room_info RoomState.WAITING (fun _ => [])) (List.filter (in_state RoomState.WAITING) (rooms_snapshot rm)).
Definition list_active_rooms (rm : RoomManager) : list RoomInfo :=
  map (room_info RoomState.IN_PROGRESS (fun r => username (black_ r)))
      (List.filter (in_state RoomState.IN_PROGRESS) (rooms_snapshot rm)).

(** Every room forgets the spectator; the result counts those that had it. *)
Definition remove_spectator_everywhere (fd : Z) (rm : RoomManager) : Z * RoomManager :=
  fold_left (fun '(removed, rm) '(id, r) =>
      let '(r, b, _) := remove_spectator fd r in
      ((if b then removed + 1 else removed), rm <| rooms_ ::= <[id := r]> |>))
    (rooms_snapshot rm) (0, rm).

Definition cleanup_finished_rooms (rm : RoomManager) : Z * RoomManager :=
  fold_left (fun '(removed, rm) '(id, r) =>
      if is_finished r then (removed + 1, remove_room id rm) else (removed, rm))
    (rooms_snapshot rm) (0, rm).
End order.
