(* ===== verification/Matchmaker.v ===== *)
(** * The matchmaking queue: src/src/game/matchmaker.{h,cpp}

    A bucket is the [std::multimap] of one time control: its entries in order of
    rating, later arrivals after earlier ones of the same rating.  An iterator is the
    identity of its node, a number never used again.  [order] stands for the order in
    which [unordered_map] visits the buckets. *)
From S2P Require Import Prelude Types BoardState Zobrist Board MoveGen Fen Uci Notation RoomState GameRoom RoomManager.
From stdpp Require Import gmap.
Open Scope Z_scope.

#[export] Instance TimeControl_eq_dec : EqDecision TimeControl.
Proof. solve_decision. Defined.

#[export] Program Instance TimeControl_countable : Countable TimeControl :=
  inj_countable' (fun tc => (base_time_ms tc, increment_ms tc))
                 (fun p => mkTimeControl p.1 p.2) _.
Next Obligation. by intros []. Qed.

Record QueueEntry := mkQueueEntry {
  q_connection_fd : Z;
  q_player_id : Z;
  q_db_player_id : Z;
  q_username : str;
  q_elo : Z;
  q_time_control : TimeControl;
  q_enqueue_time : Z
}.

(** [acceptable_range] with its default base of 200. *)
Definition acceptable_range (e : QueueEntry) (now : Z) : Z :=
  let seconds_waiting := to_int (Z.quot (now - q_enqueue_time e) 1000000000) in
  200 + Z.quot seconds_waiting 10 * 50.

Record MatchResult := mkMatch {
  white_fd : Z; black_fd : Z; white_id : Z; black_id : Z; white_name : str; black_name : str;
  game_id : Z; match_time_control : TimeControl
}.

Definition Node : Type := nat * QueueEntry.
Definition Bucket : Type := list Node.

Record Matchmaker := mkMatchmaker {
  buckets_ : gmap TimeControl Bucket;
  fd_index_ : gmap Z (TimeControl * nat);
  total_size_ : Z;
  next_node : nat
}.

Definition new_matchmaker : Matchmaker := mkMatchmaker ∅ ∅ 0 0.

(** [multimap::insert]: after the entries that are not rated higher. *)
Fixpoint insert_by_elo (n : Node) (b : Bucket) : Bucket :=
  match b with
  | [] => [n]
  | x :: b' => if q_elo (snd n) <? q_elo (snd x) then n :: b else x :: insert_by_elo n b'
  end.

(** [multimap::erase] of one node. *)
Definition erase_node (k : nat) (b : Bucket) : Bucket :=
  List.filter (fun x => negb (fst x =? k)%nat) b.

Definition bucket (mm : Matchmaker) (tc : TimeControl) : Bucket := default [] (buckets_ mm !! tc).

Definition enqueue (now : Z) (fd pid : Z) (name : str) (elo0 : Z) (tc : TimeControl) (db_id : Z)
    (mm : Matchmaker) : bool * Matchmaker :=
  match fd_index_ mm !! fd with
  | Some _ => (false, mm)
  | None =>
      let entry := mkQueueEntry fd pid db_id name elo0 tc now in
      let node := next_node mm in
      (true,
       mkMatchmaker (<[tc := insert_by_elo (node, entry) (bucket mm tc)]> (buckets_ mm))
                    (<[fd := (tc, node)]> (fd_index_ mm))
                    (wrap64 (total_size_ mm + 1)) (S node))
  end.

(** Takes one node out of a bucket, of the reverse index and of the count. *)
Definition erase_entry (tc : TimeControl) (k : nat) (fd : Z) (mm : Matchmaker) : Matchmaker :=
  mkMatchmaker (<[tc := erase_node k (bucket mm tc)]> (buckets_ mm)) (delete fd (fd_index_ mm))
               (wrap64 (total_size_ mm - 1)) (next_node mm).

(** An empty bucket is dropped. *)
Definition drop_empty (tc : TimeControl) (mm : Matchmaker) : Matchmaker :=
  match bucket mm tc with
  | [] => mkMatchmaker (delete tc (buckets_ mm)) (fd_index_ mm) (total_size_ mm) (next_node mm)
  | _ => mm
  end.

Definition dequeue (fd : Z) (mm : Matchmaker) : bool * Matchmaker :=
  match fd_index_ mm !! fd with
  | None => (false, mm)
  | Some (tc, k) =>
      (true, match buckets_ mm !! tc with
             | Some _ => drop_empty tc (erase_entry tc k fd mm)
             | None => mkMatchmaker (buckets_ mm) (delete fd (fd_index_ mm))
                                    (wrap64 (total_size_ mm - 1)) (next_node mm)
             end)
  end.

(** ** Matching *)

Definition compatible (now : Z) (a b : QueueEntry) : bool :=
  let elo_diff := Z.abs (q_elo a - q_elo b) in
  (elo_diff <=? acceptable_range a now) && (elo_diff <=? acceptable_range b now).

(** What a sweep works on: the queue, the registry, the results so far, the events of
    the rooms, the number of clock readings and of rooms made. *)
Record Sweep := mkSweep {
  sw_queue : Matchmaker; sw_rooms : RoomManager; sw_results : list MatchResult;
  sw_events : list Event; sw_tick : nat
}.

Section matching.
Context (now : nat -> Z) (envs : nat -> Env).

(** A match: a room with both players, which starts at once. *)
Definition make_match (tc : TimeControl) (a b : Node) (sw : Sweep) : Sweep :=
  let ea := snd a in
  let eb := snd b in
  let '(id, rm) := create_room (q_player_id ea) (q_username ea) (q_connection_fd ea)
                     (q_time_control ea) (q_db_player_id ea) (q_elo ea) (sw_rooms sw) in
  let '(rm, evs) :=
    match rooms_ rm !! id with
    | Some r =>
        let '(r, _, evs) := GameRoom.join (envs (length (sw_results sw))) (q_player_id eb) (q_username eb)
                              (q_connection_fd eb) (q_db_player_id eb) (q_elo eb) r in
        (rm <| rooms_ ::= <[id := r]> |>, evs)
    | None => (rm, [])
    end in
  let result := mkMatch (q_connection_fd ea) (q_connection_fd eb) (q_player_id ea) (q_player_id eb)
                  (q_username ea) (q_username eb) id (q_time_control ea) in
  let mm := erase_entry tc (fst a) (q_connection_fd ea) (sw_queue sw) in
  let mm := erase_entry tc (fst b) (q_connection_fd eb) mm in
  mkSweep mm rm (sw_results sw ++ [result]) (sw_events sw ++ evs) (sw_tick sw).

(** The walk over one bucket from the node the iterator stands on. *)
Fixpoint sweep_bucket (fuel : nat) (tc : TimeControl) (rest : Bucket) (sw : Sweep) : Sweep :=
  match fuel, rest with
  | S fuel, a :: (b :: rest') as tail =>
      let t := now (sw_tick sw) in
      let sw := mkSweep (sw_queue sw) (sw_rooms sw) (sw_results sw) (sw_events sw) (S (sw_tick sw)) in
      if compatible t (snd a) (snd b)
      then sweep_bucket fuel tc rest' (make_match tc a b sw)
      else sweep_bucket fuel tc tail sw
  | _, _ => sw
  end.

Definition try_match (order : list (TimeControl * Bucket) -> list (TimeControl * Bucket))
    (mm : Matchmaker) (rm : RoomManager) : Sweep :=
  fold_left (fun sw '(tc, b) => if (length b <? 2)%nat then sw else sweep_bucket (length b) tc b sw)
    (order (map_to_list (buckets_ mm))) (mkSweep mm rm [] [] 0).
End matching.

Definition is_queued (fd : Z) (mm : Matchmaker) : bool := bool_decide (is_Some (fd_index_ mm !! fd)).
Definition queue_size (mm : Matchmaker) : Z := total_size_ mm.
