(* ===== verification/LobbySpec.v ===== *)
(** * The registry of rooms and the matchmaking queue are sound

    Whatever is called on the registry and on its rooms, each room is listed under its
    own identifier, was reached by the operations of [GameRoom], and a tournament
    pairing leads to one live room at most. The second part is the matchmaker's. *)
From Stdlib Require Import Permutation Sorted.
From S2P Require Import Prelude Types BoardState Zobrist Board MoveGen Fen Uci Notation RoomState GameRoom GameRoomSpec RoomManager Matchmaker.
From stdpp Require Import gmap.
Open Scope Z_scope.

(** ** No call changes what a room was made for *)

Lemma config_set_seat r c s : config (set_seat r c s) = config r.
Proof. unfold set_seat. by case_match. Qed.

Lemma config_start env r : config (start_game env r) = config r.
Proof. done. Qed.

Lemma config_bump r : config (bump r) = config r.
Proof. done. Qed.

Lemma config_finish env r st res : config (finish_game env r st res) = config r.
Proof. done. Qed.

Lemma config_switch_clock now r : config (switch_clock now r) = config r.
Proof. unfold switch_clock. by rewrite !config_set_seat. Qed.

Lemma config_drain r : config (fst (drain r)) = config r.
Proof. unfold drain. by case_match. Qed.

Lemma config_locked {A} (body : Room -> Room * A) r :
  config (fst (body r)) = config r -> config (fst (fst (locked body r))) = config r.
Proof.
  unfold locked. destruct (body r) as [r1 a]. cbn [fst]. intros <-. rewrite <- (config_drain r1).
  by destruct (drain r1).
Qed.

Lemma config_locked_start {A} (body : Room -> Room * A * option GameStarted) r :
  config (fst (fst (body r))) = config r -> config (fst (fst (locked_start body r))) = config r.
Proof.
  intros H. unfold locked_start.
  pose proof (config_locked (fun r => let '(r, a, s) := body r in (r, (a, s))) r) as Hl.
  cbv beta in Hl. destruct (body r) as [[r1 a] s]. specialize (Hl H).
  destruct (locked _ r) as [[r2 [a2 s2]] e]. exact Hl.
Qed.

Lemma config_conclude env san declined r : config (fst (conclude_move env san declined r)) = config r.
Proof. unfold conclude_move. cbv zeta. by destruct (bool_decide _). Qed.

(** Works through the tests of a body, each outcome leaving [config] alone. *)
Ltac same_config :=
  cbv beta zeta;
  repeat first
    [ reflexivity
    | progress cbn [fst] | rewrite config_start | rewrite config_bump | rewrite config_finish | rewrite config_conclude | rewrite config_switch_clock | rewrite config_set_seat
    | match goal with |- context [match ?x with _ => _ end] => destruct x end ].

Ltac locked_config := first [apply config_locked | apply config_locked_start].

Lemma config_submit env fd f t p r : config (fst (submit_body env fd f t p r)) = config r.
Proof. unfold submit_body. same_config. Qed.

Lemma config_submit_ai env f t p r : config (fst (submit_ai_body env f t p r)) = config r.
Proof. unfold submit_ai_body. same_config. Qed.

Lemma config_bind env db pid fd rep gen r : config (fst (fst (bind_body env db pid fd rep gen r))) = config r.
Proof.
  unfold bind_body. cbv zeta.
  match goal with |- context [let '(_, _) := if ?b then _ else _ in _] => destruct b end; same_config.
Qed.

Lemma fst_outcome {A} (x : Room * A * list Event) : fst (outcome x) = fst (fst x).
Proof. by destruct x as [[? ?] ?]. Qed.

Lemma config_reconnect_db env db fd gen r :
  config (fst (fst (on_reconnect_db_player env db fd gen r))) = config r.
Proof.
  unfold on_reconnect_db_player. destruct (is_tournament_reserved_ _).
  - pose proof (config_locked_start (bind_body env db (to_player_id db) fd true gen) r
      (config_bind _ _ _ _ _ _ _)) as H. unfold bind_reserved_player.
    by destruct (locked_start _ r) as [[? ?] ?].
  - locked_config. same_config.
Qed.

Lemma config_exec env o r : config (fst (exec env o r)) = config r.
Proof.
  destruct o; cbn [exec]; rewrite fst_outcome.
  1: unfold add_listener; destruct (_ =? _); [done|].
  4: locked_config; apply config_bind.
  6: locked_config; apply config_submit.
  6: locked_config; apply config_submit_ai.
  16: apply config_reconnect_db.
  all: locked_config; same_config.
Qed.

(** ** The state of the registry *)

Record registry_ok (rm : RoomManager) : Prop := {
  ro_next : 0 <= next_id_ rm < 2 ^ 32;
  ro_room id r : rooms_ rm !! id = Some r ->
    id_ (config r) = id /\ 0 <= id < next_id_ rm /\ room_reachable r;
  ro_pairing p id : tournament_pairing_rooms_ rm !! p = Some id ->
    exists r, rooms_ rm !! id = Some r /\ pairing_id_ (config r) = p /\ is_tournament_reserved_ (config r) = true
}.

Lemma new_manager_ok : registry_ok new_manager.
Proof. split; cbn [new_manager next_id_ rooms_ tournament_pairing_rooms_]; [done|intros *; by rewrite lookup_empty..]. Qed.

(** [attach_default] is a call on the new room. *)
Lemma attach_default_exec rm r :
  room_reachable r -> room_reachable (attach_default rm r) /\ config (attach_default rm r) = config r.
Proof.
  intros Hr. pose (env := mkEnv (fun _ => 0) 0 []).
  replace (attach_default rm r) with (fst (exec env (AddListener (default_listener_ rm)) r))
    by (cbn [exec]; apply fst_outcome).
  split; [by apply rr_exec|apply config_exec].
Qed.

Lemma rooms_register rm id r : rooms_ (register rm id r) = <[id := attach_default rm r]> (rooms_ rm).
Proof. done. Qed.

(** A new room under the next identifier, which is not used yet. *)
Lemma register_ok rm id r :
  registry_ok rm -> next_id_ rm = id + 1 -> rooms_ rm !! id = None -> 0 <= id -> room_reachable r ->
  id_ (config r) = id -> registry_ok (register rm id r).
Proof.
  intros [Hn Hr Hp] Hid Hfree Hid0 Hreach Hcfg. destruct (attach_default_exec rm r Hreach) as [Ha Hc].
  split; rewrite ?rooms_register; change (next_id_ (register rm id r)) with (next_id_ rm);
    change (tournament_pairing_rooms_ (register rm id r)) with (tournament_pairing_rooms_ rm).
  - done.
  - intros i x H. apply lookup_insert_Some in H as [[<- <-]|[Hne H]].
    + split; [congruence|]. split; [lia|done].
    + by apply Hr.
  - intros p i H. destruct (Hp p i H) as (x & Hx & ?). exists x.
    rewrite lookup_insert_ne by congruence. done.
Qed.

Lemma next_id_ok rm n : registry_ok rm -> next_id_ rm <= n < 2 ^ 32 -> registry_ok (rm <| next_id_ := n |>).
Proof.
  intros [Hn Hr Hp] Hb. split; [change (0 <= n < 2 ^ 32); lia| |exact Hp].
  intros id r H. destruct (Hr id r H) as (? & ? & ?). split; [done|].
  split; [change (0 <= id < n); lia|done].
Qed.

Lemma next_free rm : registry_ok rm -> rooms_ rm !! next_id_ rm = None.
Proof.
  intros H. destruct (rooms_ rm !! next_id_ rm) as [r|] eqn:E; [|done].
  apply (ro_room _ H) in E. lia.
Qed.

(** Creating a room: the identifier is taken, the room registered under it. *)
Lemma create_ok rm r :
  registry_ok rm -> next_id_ rm + 1 < 2 ^ 32 -> room_reachable r -> id_ (config r) = next_id_ rm ->
  let '(id, rm1) := fetch_id rm in id = next_id_ rm /\ registry_ok (register rm1 id r).
Proof.
  intros H Hb Hr Hid. unfold fetch_id. pose proof (ro_next _ H). rewrite Z.mod_small by lia.
  split; [done|]. apply register_ok; [apply next_id_ok; [done|lia]|done|exact (next_free rm H)|lia|done|done].
Qed.

Lemma update_room_ok rm id r r' :
  registry_ok rm -> rooms_ rm !! id = Some r -> room_reachable r' -> config r' = config r ->
  registry_ok (rm <| rooms_ ::= <[id := r']> |>).
Proof.
  intros [Hn Hr Hp] Hid Hreach Hc. split; [done|intros i x H|intros p i H].
  - change (<[id := r']> (rooms_ rm) !! i = Some x) in H. apply lookup_insert_Some in H as [[<- <-]|[Hne H]].
    + rewrite Hc. destruct (Hr id r Hid) as (? & ? & _). done.
    + by apply Hr.
  - destruct (Hp p i H) as (x & Hx & Hx2). change (exists y, <[id := r']> (rooms_ rm) !! i = Some y /\
      pairing_id_ (config y) = p /\ is_tournament_reserved_ (config y) = true).
    destruct (decide (id = i)) as [->|Hne].
    + exists r'. rewrite lookup_insert_eq, Hc. rewrite Hid in Hx. by injection Hx as ->.
    + exists x. by rewrite lookup_insert_ne.
Qed.

Lemma remove_room_ok id rm : registry_ok rm -> registry_ok (remove_room id rm).
Proof.
  intros [Hn Hr Hp]. split; [done|intros i x H|intros p i H].
  - change (delete id (rooms_ rm) !! i = Some x) in H. apply lookup_delete_Some in H as [_ H]. by apply Hr.
  - change (filter (fun q : Z * Z => q.2 <> id) (tournament_pairing_rooms_ rm) !! p = Some i) in H.
    apply map_lookup_filter_Some in H as [H Hne]. destruct (Hp p i H) as (x & Hx & ?). exists x.
    change (delete id (rooms_ rm) !! i = Some x /\ pairing_id_ (config x) = p /\
            is_tournament_reserved_ (config x) = true). by rewrite lookup_delete_ne.
Qed.

Lemma find_room_by_pairing_spec rm p :
  registry_ok rm -> find_room_by_pairing p rm = tournament_pairing_rooms_ rm !! p.
Proof.
  intros H. unfold find_room_by_pairing. destruct (tournament_pairing_rooms_ rm !! p) as [id|] eqn:E; [|done].
  destruct (ro_pairing _ H p id E) as (r & -> & _). done.
Qed.

Lemma create_reserved_ok t p w wn we b bn be tc rm :
  registry_ok rm -> next_id_ rm + 1 < 2 ^ 32 ->
  let '(id, rm') := create_reserved_tournament_room t p w wn we b bn be tc rm in
  registry_ok rm' /\ find_room_by_pairing p rm' = Some id /\
  (forall q, q <> p -> find_room_by_pairing q rm' = find_room_by_pairing q rm).
Proof.
  intros H Hb. unfold create_reserved_tournament_room.
  destruct (find_room_by_pairing p rm) as [id|] eqn:Ef; [done|].
  pose proof (find_room_by_pairing_spec rm p H) as Hf. rewrite Ef in Hf. symmetry in Hf.
  set (rm0 := rm <| tournament_pairing_rooms_ ::= delete p |>).
  assert (registry_ok rm0) as H0.
  { destruct H as [Hn Hr Hp]. split; [done|exact Hr|]. intros q i Hq.
    change (delete p (tournament_pairing_rooms_ rm) !! q = Some i) in Hq.
    apply lookup_delete_Some in Hq as [_ Hq]. exact (Hp q i Hq). }
  set (new := fun id => new_reserved_room id t p w wn we b bn be tc).
  assert (forall id, config (new id) = mkConfig id tc false true t p AIDifficulty.MEDIUM Color.BLACK) as Hcfg by done.
  pose proof (create_ok rm0 (new (next_id_ rm0)) H0 Hb (rr_reserved _ _ _ _ _ _ _ _ _ _) eq_refl) as Hc.
  unfold fetch_id in *. destruct Hc as [_ Hc]. set (rm1 := register _ _ _) in Hc.
  change (register _ _ _) with rm1. set (id := next_id_ rm0) in *.
  assert (registry_ok (rm1 <| tournament_pairing_rooms_ ::= <[p := id]> |>)) as Hok.
  { destruct Hc as [Hn Hr Hp]. split; [done|exact Hr|]. intros q i Hq.
    change (<[p := id]> (tournament_pairing_rooms_ rm1) !! q = Some i) in Hq.
    apply lookup_insert_Some in Hq as [[<- <-]|[_ Hq]]; [|exact (Hp q i Hq)].
    set (x := attach_default (rm0 <| next_id_ := (id + 1) mod 2 ^ 32 |>) (new id)). exists x.
    assert (config x = config (new id)) as -> by apply attach_default_exec, rr_reserved.
    rewrite Hcfg. change (<[id := x]> (rooms_ rm0) !! id = Some x /\ p = p /\ true = true).
    by rewrite lookup_insert_eq. }
  split; [exact Hok|]. split.
  - rewrite find_room_by_pairing_spec by done. apply lookup_insert_eq.
  - intros q Hq. rewrite !find_room_by_pairing_spec by done.
    change (<[p := id]> (delete p (tournament_pairing_rooms_ rm)) !! q = tournament_pairing_rooms_ rm !! q).
    by rewrite lookup_insert_ne, lookup_delete_ne by congruence.
Qed.

(** ** Sweeps over the rooms *)

Definition cleanup_step : Z * RoomManager -> Z * Room -> Z * RoomManager := fun '(removed, rm) '(id, r) =>
  if is_finished r then (removed + 1, remove_room id rm) else (removed, rm).

Definition finished_in (l : list (Z * Room)) : list (Z * Room) :=
  List.filter (fun p => is_finished (snd p)) l.

Lemma cleanup_fold l : forall removed rm,
  registry_ok rm ->
  let '(removed', rm') := fold_left cleanup_step l (removed, rm) in
  registry_ok rm' /\ removed' = removed + Z.of_nat (length (finished_in l)) /\
  (forall id r, rooms_ rm' !! id = Some r <-> rooms_ rm !! id = Some r /\ ~ In id (map fst (finished_in l))).
Proof.
  induction l as [|[id r] l IH]; intros removed rm H.
  { split; [done|]. split; [cbn; lia|]. cbn. tauto. }
  cbn [fold_left cleanup_step]. unfold finished_in in *. cbn [List.filter snd].
  destruct (is_finished r); [|by apply IH].
  specialize (IH (removed + 1) (remove_room id rm) (remove_room_ok id rm H)).
  destruct (fold_left _ _ _) as [n rm']. destruct IH as (H1 & -> & H3). split; [done|]. split.
  - cbn [length]. lia.
  - intros i x. rewrite H3. change (rooms_ (remove_room id rm)) with (delete id (rooms_ rm)).
    rewrite lookup_delete_Some. cbn [map In fst]. tauto.
Qed.

(** What a cleanup leaves: the rooms that are not finished; its count is right. *)
Lemma cleanup_ok order rm :
  registry_ok rm -> (forall l, Permutation (order l) l) ->
  let '(removed, rm') := cleanup_finished_rooms order rm in
  registry_ok rm' /\
  (forall id r, rooms_ rm' !! id = Some r <-> rooms_ rm !! id = Some r /\ is_finished r = false) /\
  removed = Z.of_nat (length (finished_in (map_to_list (rooms_ rm)))).
Proof.
  intros H Ho. set (l := order (map_to_list (rooms_ rm))).
  change (cleanup_finished_rooms order rm) with (fold_left cleanup_step l (0, rm)). assert (Permutation l (map_to_list (rooms_ rm))) as Hl by apply Ho.
  pose proof (cleanup_fold l 0 rm H) as Hf. destruct (fold_left _ l _) as [n rm']. destruct Hf as (H1 & Hn & H3).
  pose proof (filter_perm (fun p => is_finished (snd p)) _ _ Hl) as Hp. change (Permutation (finished_in l) (finished_in (map_to_list (rooms_ rm)))) in Hp.
  split; [done|]. split; [|by rewrite Hn, (Permutation_length Hp)].
  intros id r. rewrite H3, (perm_in_iff (Permutation_map fst Hp)), in_map_iff.
  assert (forall x, In (id, x) (map_to_list (rooms_ rm)) <-> rooms_ rm !! id = Some x) as Hin
    by (intros x; rewrite <- list_elem_of_In; apply elem_of_map_to_list).
  split; intros [Hr Hno]; (split; [done|]).
  - destruct (is_finished r) eqn:E; [|done]. exfalso. apply Hno. exists (id, r). split; [done|].
    apply filter_In. split; [by apply Hin|done].
  - intros ([i x] & E & Hx). cbn in E. subst i. apply filter_In in Hx as [Hx E]. cbn in E.
    apply Hin in Hx. congruence.
Qed.

Lemma remove_spectator_exec env fd r : fst (fst (remove_spectator fd r)) = fst (exec env (RemoveSpectator fd) r).
Proof. cbn [exec]. by rewrite fst_outcome. Qed.

Definition spectator_step (fd : Z) : Z * RoomManager -> Z * Room -> Z * RoomManager := fun '(removed, rm) '(id, r) =>
  let '(r, b, _) := remove_spectator fd r in
  ((if b then removed + 1 else removed), rm <| rooms_ ::= <[id := r]> |>).

Lemma spectator_fold fd l : forall n rm,
  List.NoDup (map fst l) -> (forall id r, In (id, r) l -> rooms_ rm !! id = Some r) -> registry_ok rm ->
  registry_ok (snd (fold_left (spectator_step fd) l (n, rm))).
Proof.
  induction l as [|[id r] l IH]; intros n rm Hd Hl H; [done|]. cbn [fold_left spectator_step].
  inversion_clear Hd as [|? ? Hx Hd']. cbn [fst] in Hx. pose (env := mkEnv (fun _ => 0) 0 []).
  assert (rooms_ rm !! id = Some r) as Hid by (apply Hl; by left).
  pose proof (remove_spectator_exec env fd r) as He.
  destruct (remove_spectator fd r) as [[r' b] e]. cbn [fst] in He. subst r'.
  apply IH; [done| |].
  - intros i x Hi. change (<[id := fst (exec env (RemoveSpectator fd) r)]> (rooms_ rm) !! i = Some x).
    rewrite lookup_insert_ne; [apply Hl; by right|]. intros ->. apply Hx, in_map_iff. by exists (i, x).
  - eapply update_room_ok; [done|exact Hid|by apply rr_exec, (ro_room _ H id r)|apply config_exec].
Qed.

Lemma remove_spectator_everywhere_ok order fd rm :
  registry_ok rm -> (forall l, Permutation (order l) l) ->
  registry_ok (snd (remove_spectator_everywhere order fd rm)).
Proof.
  intros H Ho.
  change (remove_spectator_everywhere order fd rm)
    with (fold_left (spectator_step fd) (order (map_to_list (rooms_ rm))) (0, rm)).
  apply spectator_fold; [| |done].
  - rewrite (Permutation_map fst (Ho _)). apply NoDup_ListNoDup, NoDup_fst_map_to_list.
  - intros id r Hin. rewrite (perm_in_iff (Ho _)) in Hin. by apply list_elem_of_In, elem_of_map_to_list in Hin.
Qed.

(** ** Every call on the registry or on one of its rooms *)

Inductive manager_step (rm : RoomManager) : RoomManager -> Prop :=
| ms_create c name fd tc db e :
    next_id_ rm + 1 < 2 ^ 32 -> manager_step rm (snd (create_room c name fd tc db e rm))
| ms_create_ai env c name fd tc d db e :
    next_id_ rm + 1 < 2 ^ 32 -> manager_step rm (snd (create_ai_room env c name fd tc d db e rm))
| ms_create_reserved t p w wn we b bn be tc :
    next_id_ rm + 1 < 2 ^ 32 ->
    manager_step rm (snd (create_reserved_tournament_room t p w wn we b bn be tc rm))
| ms_ensure id : 0 <= id < 2 ^ 32 -> manager_step rm (ensure_next_id_above id rm)
| ms_reserve db : manager_step rm (reserve_tournament_player db rm)
| ms_release db : manager_step rm (release_tournament_player db rm)
| ms_listener l : manager_step rm (set_default_listener l rm)
| ms_remove id : manager_step rm (remove_room id rm)
| ms_spectators order fd : (forall l, Permutation (order l) l) ->
    manager_step rm (snd (remove_spectator_everywhere order fd rm))
| ms_cleanup order : (forall l, Permutation (order l) l) ->
    manager_step rm (snd (cleanup_finished_rooms order rm))
| ms_room env o id r : rooms_ rm !! id = Some r ->
    manager_step rm (rm <| rooms_ ::= <[id := fst (exec env o r)]> |>).

Lemma manager_step_ok rm rm' : registry_ok rm -> manager_step rm rm' -> registry_ok rm'.
Proof.
  intros H Hs. destruct Hs as [c name fd tc db e Hb|env c name fd tc d db e Hb|t p w wn we b bn be tc Hb|id Hid|db|db|l|id|order fd Ho|order Ho|env o id r Hr].
  - unfold create_room. pose proof (create_ok rm (new_room (next_id_ rm) c name fd tc db e) H Hb (rr_new _ _ _ _ _ _ _) eq_refl) as Hc.
    unfold fetch_id in *. apply Hc.
  - unfold create_ai_room. pose proof (create_ok rm (new_ai_room env (next_id_ rm) c name fd tc d db e) H Hb (rr_ai _ _ _ _ _ _ _ _ _) eq_refl) as Hc.
    unfold fetch_id in *. apply Hc.
  - pose proof (create_reserved_ok t p w wn we b bn be tc rm H Hb) as Hc.
    destruct (create_reserved_tournament_room _ _ _ _ _ _ _ _ _ _). apply Hc.
  - unfold ensure_next_id_above. destruct (Z.ltb_spec (next_id_ rm) ((id + 1) mod 2 ^ 32)); [|done].
    apply next_id_ok; [done|]. pose proof (Z.mod_pos_bound (id + 1) (2 ^ 32)). lia.
  - unfold reserve_tournament_player. destruct (_ <=? _); [done|]. destruct H as [? ? ?]. by split.
  - destruct H as [? ? ?]. by split.
  - destruct H as [? ? ?]. by split.
  - by apply remove_room_ok.
  - by apply remove_spectator_everywhere_ok.
  - pose proof (cleanup_ok order rm H Ho) as Hc. destruct (cleanup_finished_rooms order rm). apply Hc.
  - eapply update_room_ok; [done|exact Hr|by apply rr_exec, (ro_room _ H id r)|apply config_exec].
Qed.

Inductive manager_run : RoomManager -> RoomManager -> Prop :=
| mr_refl rm : manager_run rm rm
| mr_step rm1 rm2 rm3 : manager_run rm1 rm2 -> manager_step rm2 rm3 -> manager_run rm1 rm3.

Lemma manager_run_ok rm rm' : manager_run rm rm' -> registry_ok rm -> registry_ok rm'.
Proof. induction 1; [done|]. intros. eapply manager_step_ok; [by apply IHmanager_run|done]. Qed.

(** ** The matchmaking queue is consistent and its matches are fair

    The two indexes of [Matchmaker] describe the same queue, and [try_match] moves
    pairs of compatible players from it into running games. *)
(** [e] waits in the bucket of [tc] as node [k]. *)
Definition waits (mm : Matchmaker) (tc : TimeControl) (k : nat) (e : QueueEntry) : Prop :=
  In (k, e) (bucket mm tc).

Definition queued (mm : Matchmaker) (e : QueueEntry) : Prop := exists tc k, waits mm tc k e.

Definition by_elo (x y : Node) : Prop := q_elo (snd x) <= q_elo (snd y).

Record consistent (mm : Matchmaker) : Prop := {
  c_index fd tc k :
    fd_index_ mm !! fd = Some (tc, k) <-> exists e, waits mm tc k e /\ q_connection_fd e = fd;
  c_nodes tc : List.NoDup (map fst (bucket mm tc));
  c_entry tc k e : waits mm tc k e -> q_time_control e = tc /\ (k < next_node mm)%nat;
  c_sorted tc : StronglySorted by_elo (bucket mm tc);
  c_size : total_size_ mm = wrap64 (Z.of_nat (size (fd_index_ mm)))
}.

(** ** Buckets *)

Lemma bucket_none mm tc : buckets_ mm !! tc = None -> bucket mm tc = [].
Proof. intros H. exact (f_equal (default []) H). Qed.

Lemma bucket_insert mm tc b f t n tc' :
  bucket (mkMatchmaker (<[tc := b]> (buckets_ mm)) f t n) tc' = if decide (tc' = tc) then b else bucket mm tc'.
Proof.
  unfold bucket. cbn [buckets_]. destruct (decide (tc' = tc)) as [->|];
    [by rewrite lookup_insert_eq|by rewrite lookup_insert_ne by congruence].
Qed.

Lemma insert_by_elo_perm n b : Permutation (insert_by_elo n b) (n :: b).
Proof.
  induction b as [|x b IH]; cbn [insert_by_elo]; [done|]. destruct (_ <? _); [done|].
  rewrite IH. apply perm_swap.
Qed.

Lemma insert_by_elo_sorted n b : StronglySorted by_elo b -> StronglySorted by_elo (insert_by_elo n b).
Proof.
  induction 1 as [|x b Hb IH Hx]; cbn [insert_by_elo]; [by repeat constructor|].
  destruct (Z.ltb_spec (q_elo (snd n)) (q_elo (snd x))).
  - constructor; [by constructor|]. constructor; [unfold by_elo; lia|].
    eapply List.Forall_impl; [|exact Hx]. unfold by_elo. intros. lia.
  - constructor; [done|]. apply List.Forall_forall. intros y Hy.
    apply (Permutation_in y (insert_by_elo_perm n b)) in Hy as [<-|Hy]; [done|].
    rewrite List.Forall_forall in Hx. by apply Hx.
Qed.

Lemma filter_sorted {A} (R : A -> A -> Prop) f l : StronglySorted R l -> StronglySorted R (List.filter f l).
Proof.
  induction 1 as [|x l Hl IH Hx]; cbn [List.filter]; [constructor|]. destruct (f x); [|done].
  constructor; [done|]. apply List.Forall_forall. intros y Hy. apply filter_In in Hy as [Hy _].
  rewrite List.Forall_forall in Hx. by apply Hx.
Qed.

Lemma filter_map_nodup (f : Node -> bool) b : List.NoDup (map fst b) -> List.NoDup (map fst (List.filter f b)).
Proof.
  induction b as [|x b IH]; cbn [map List.filter]; [done|]. intros H. inversion_clear H as [|? ? Hx Hb].
  destruct (f x); [|by apply IH]. cbn [map]. constructor; [|by apply IH].
  intros Hin. apply Hx. apply in_map_iff in Hin as (y & E & Hy). apply filter_In in Hy as [Hy _].
  apply in_map_iff. by exists y.
Qed.

Lemma in_erase_node k b x : In x (erase_node k b) <-> In x b /\ fst x <> k.
Proof.
  unfold erase_node. rewrite filter_In, negb_true_iff, Nat.eqb_neq. done.
Qed.

Lemma nodup_node (b : Bucket) k (e e' : QueueEntry) :
  List.NoDup (map fst b) -> In (k, e) b -> In (k, e') b -> e = e'.
Proof.
  induction b as [|[k0 e0] b IH]; cbn [map fst]; [done|]. intros H. inversion_clear H as [|? ? Hx Hb].
  intros [E1|H1] [E2|H2]; [congruence| | |by apply IH]; exfalso; apply Hx, in_map_iff.
  - injection E1 as -> ->. by exists (k, e').
  - injection E2 as -> ->. by exists (k, e).
Qed.

(** A connection waits at most once. *)
Lemma waits_unique mm tc k e tc' k' e' :
  consistent mm -> waits mm tc k e -> waits mm tc' k' e' -> q_connection_fd e = q_connection_fd e' ->
  tc = tc' /\ k = k' /\ e = e'.
Proof.
  intros Hc H H' E.
  assert (fd_index_ mm !! q_connection_fd e = Some (tc, k)) as I by (apply c_index; [done|]; by exists e).
  assert (fd_index_ mm !! q_connection_fd e = Some (tc', k')) as I' by (apply c_index; [done|]; by exists e').
  rewrite I in I'. injection I' as <- <-. repeat split; try done.
  by apply (nodup_node (bucket mm tc) k e e' (c_nodes mm Hc tc)).
Qed.

Lemma queued_index mm fd :
  consistent mm -> is_queued fd mm = true <-> exists e, queued mm e /\ q_connection_fd e = fd.
Proof.
  intros Hc. unfold is_queued. rewrite bool_decide_eq_true. split.
  - intros [[tc k] H]. apply (c_index mm Hc) in H as (e & ? & ?). exists e. split; [by exists tc, k|done].
  - intros (e & (tc & k & H) & <-). exists (tc, k). apply c_index; [done|]. by exists e.
Qed.

(** ** The operations *)

Lemma consistent_new : consistent new_matchmaker.
Proof.
  split; unfold waits, bucket; cbn [new_matchmaker buckets_ fd_index_ total_size_]; intros *;
    rewrite ?lookup_empty; cbn [default map]; try constructor; try done.
  intros (e & [] & _).
Qed.

Lemma waits_enqueue now fd pid name elo0 tc db_id mm tc' k' e' :
  let '(ok, mm') := enqueue now fd pid name elo0 tc db_id mm in
  waits mm' tc' k' e' <->
  waits mm tc' k' e' \/ (ok = true /\ tc' = tc /\ k' = next_node mm /\
                         e' = mkQueueEntry fd pid db_id name elo0 tc now).
Proof.
  unfold enqueue. destruct (fd_index_ mm !! fd); [intuition done|]. unfold waits. rewrite bucket_insert.
  destruct (decide (tc' = tc)) as [->|Hne]; [|tauto]. rewrite (perm_in_iff (insert_by_elo_perm _ _)). cbn [In].
  split; [intros [E|?]; [injection E as <- <-|]; tauto|intros [?|(_ & _ & -> & ->)]; tauto].
Qed.

Lemma enqueue_spec now fd pid name elo0 tc db_id mm :
  consistent mm ->
  let '(ok, mm') := enqueue now fd pid name elo0 tc db_id mm in
  ok = negb (is_queued fd mm) /\
  forall e, queued mm' e <-> queued mm e \/ ok = true /\ e = mkQueueEntry fd pid db_id name elo0 tc now.
Proof.
  intros Hc. pose proof (waits_enqueue now fd pid name elo0 tc db_id mm) as Hw.
  assert (fst (enqueue now fd pid name elo0 tc db_id mm) = negb (is_queued fd mm)) as Hok.
  { unfold enqueue, is_queued. by destruct (fd_index_ mm !! fd). }
  destruct (enqueue _ _ _ _ _ _ _ _) as [ok mm']. split; [done|]. intros e. unfold queued. split.
  - intros (tc' & k' & H). apply Hw in H as [H|H]; [left; by exists tc', k'|tauto].
  - intros [(tc' & k' & H)|[-> ->]]; [exists tc', k'; apply Hw; by left|]. exists tc, (next_node mm). apply Hw. tauto.
Qed.

Lemma enqueue_consistent now fd pid name elo0 tc db_id mm :
  consistent mm -> consistent (snd (enqueue now fd pid name elo0 tc db_id mm)).
Proof.
  intros Hc. pose proof (waits_enqueue now fd pid name elo0 tc db_id mm) as Hw.
  unfold enqueue in *. destruct (fd_index_ mm !! fd) eqn:Hfd; [done|]. cbn [snd].
  set (e := mkQueueEntry _ _ _ _ _ _ _) in *. set (b := insert_by_elo _ _) in *.
  split.
  - intros fd' tc' k'. cbn [fd_index_]. destruct (decide (fd' = fd)) as [->|Hne].
    + rewrite lookup_insert_eq. split.
      * intros H. injection H as <- <-. exists e. split; [apply Hw; tauto|done].
      * intros (e' & H & E). apply Hw in H as [H|(_ & -> & -> & ->)]; [|done].
        assert (fd_index_ mm !! fd = Some (tc', k')) by (apply c_index; [done|]; by exists e'). congruence.
    + rewrite lookup_insert_ne by congruence. rewrite (c_index mm Hc). split; intros (e' & H & E); exists e'.
      * split; [apply Hw; tauto|done].
      * split; [|done]. apply Hw in H as [H|(_ & _ & _ & ->)]; [done|]. cbn in E. congruence.
  - intros tc'. rewrite bucket_insert. destruct (decide (tc' = tc)) as [->|]; [|apply (c_nodes mm Hc)].
    unfold b. rewrite (Permutation_map fst (insert_by_elo_perm _ _)). cbn [map fst].
    constructor; [|apply (c_nodes mm Hc)]. intros H. apply in_map_iff in H as ([k' e'] & E & H).
    cbn in E. subst k'. apply (c_entry mm Hc) in H. lia.
  - intros tc' k' e' H. cbn [next_node]. apply Hw in H as [H|(_ & -> & -> & ->)]; [|split; [done|lia]].
    apply (c_entry mm Hc) in H. split; [tauto|lia].
  - intros tc'. rewrite bucket_insert. destruct (decide (tc' = tc)) as [->|]; [|apply (c_sorted mm Hc)].
    apply insert_by_elo_sorted, (c_sorted mm Hc).
  - cbn [total_size_ fd_index_]. rewrite map_size_insert_None by done. rewrite (c_size mm Hc), wrap64_add.
    f_equal. lia.
Qed.

Lemma waits_erase mm tc k fd tc' k' e' :
  waits (erase_entry tc k fd mm) tc' k' e' <-> waits mm tc' k' e' /\ ~ (tc' = tc /\ k' = k).
Proof.
  unfold waits, erase_entry. rewrite bucket_insert. destruct (decide (tc' = tc)) as [->|Hne]; [|tauto].
  rewrite in_erase_node. cbn [fst]. tauto.
Qed.

Lemma erase_entry_consistent mm tc k e :
  consistent mm -> waits mm tc k e -> consistent (erase_entry tc k (q_connection_fd e) mm).
Proof.
  intros Hc Hw. assert (fd_index_ mm !! q_connection_fd e = Some (tc, k)) as Hi
    by (apply c_index; [done|]; by exists e).
  split.
  - intros fd' tc' k'. cbn [erase_entry fd_index_]. destruct (decide (fd' = q_connection_fd e)) as [->|Hne].
    + rewrite lookup_delete_eq. split; [done|]. intros (e' & H & E). apply waits_erase in H as [H Hno].
      exfalso. apply Hno. by destruct (waits_unique mm tc k e tc' k' e' Hc Hw H) as (-> & -> & _).
    + rewrite lookup_delete_ne by congruence. rewrite (c_index mm Hc).
      split; intros (e' & H & E); exists e'; (split; [|done]).
      * apply waits_erase. split; [done|]. intros [-> ->].
        apply Hne. rewrite <- E. f_equal. by apply (nodup_node (bucket mm tc) k e' e (c_nodes mm Hc tc)).
      * by apply waits_erase in H as [H _].
  - intros tc'. unfold erase_entry. rewrite bucket_insert.
    destruct (decide (tc' = tc)); [apply filter_map_nodup|]; apply (c_nodes mm Hc).
  - intros tc' k' e' H. apply waits_erase in H as [H _]. by apply (c_entry mm Hc).
  - intros tc'. unfold erase_entry. rewrite bucket_insert.
    destruct (decide (tc' = tc)); [apply filter_sorted|]; apply (c_sorted mm Hc).
  - cbn [erase_entry total_size_ fd_index_]. rewrite map_size_delete, Hi, (c_size mm Hc), <- Z.add_opp_r.
    rewrite wrap64_add. f_equal.
    assert (size (fd_index_ mm) <> 0%nat); [|lia]. intros E. apply map_size_empty_inv in E. rewrite E in Hi.
    by rewrite lookup_empty in Hi.
Qed.

Lemma waits_erase_fd mm tc k e tc' k' e' :
  consistent mm -> waits mm tc k e ->
  waits (erase_entry tc k (q_connection_fd e) mm) tc' k' e' <->
  waits mm tc' k' e' /\ q_connection_fd e' <> q_connection_fd e.
Proof.
  intros Hc Hw. rewrite waits_erase. split; intros [H Hne]; (split; [done|]).
  - intros E. apply Hne. by destruct (waits_unique mm tc k e tc' k' e' Hc Hw H) as (-> & -> & _).
  - intros [-> ->]. apply Hne. f_equal. by apply (nodup_node (bucket mm tc) k e' e (c_nodes mm Hc tc)).
Qed.

Lemma erase_entry_size mm tc k e :
  consistent mm -> waits mm tc k e ->
  S (size (fd_index_ (erase_entry tc k (q_connection_fd e) mm))) = size (fd_index_ mm).
Proof.
  intros Hc Hw. assert (fd_index_ mm !! q_connection_fd e = Some (tc, k)) as Hi
    by (apply c_index; [done|]; by exists e).
  cbn [erase_entry fd_index_]. rewrite map_size_delete, Hi.
  assert (size (fd_index_ mm) <> 0%nat); [|lia]. intros E. apply map_size_empty_inv in E.
  rewrite E in Hi. by rewrite lookup_empty in Hi.
Qed.

Lemma bucket_drop_empty tc mm tc' : bucket (drop_empty tc mm) tc' = bucket mm tc'.
Proof.
  unfold drop_empty. destruct (bucket mm tc) eqn:E; [|done]. unfold bucket in *. cbn [buckets_].
  destruct (decide (tc' = tc)) as [->|]; [by rewrite lookup_delete_eq|by rewrite lookup_delete_ne by congruence].
Qed.

Lemma drop_empty_consistent tc mm : consistent mm -> consistent (drop_empty tc mm).
Proof.
  intros Hc. assert (fd_index_ (drop_empty tc mm) = fd_index_ mm /\ total_size_ (drop_empty tc mm) = total_size_ mm /\
    next_node (drop_empty tc mm) = next_node mm) as (E1 & E2 & E3) by (unfold drop_empty; by destruct (bucket mm tc)).
  split; intros *; unfold waits; rewrite ?E1, ?E2, ?E3; try setoid_rewrite bucket_drop_empty;
    rewrite ?bucket_drop_empty; apply Hc.
Qed.

Lemma dequeue_spec fd mm :
  consistent mm ->
  let '(b, mm') := dequeue fd mm in
  consistent mm' /\ b = is_queued fd mm /\ is_queued fd mm' = false /\
  forall tc k e, waits mm' tc k e <-> waits mm tc k e /\ q_connection_fd e <> fd.
Proof.
  intros Hc. unfold dequeue, is_queued.
  destruct (fd_index_ mm !! fd) as [[tc k]|] eqn:Hi.
  - pose proof Hi as Hw. apply (c_index mm Hc) in Hw as (e & Hw & <-).
    destruct (buckets_ mm !! tc) as [b|] eqn:Hb.
    2: { exfalso. unfold waits in Hw. by rewrite (bucket_none mm tc Hb) in Hw. }
    split; [by apply drop_empty_consistent, erase_entry_consistent|]. split; [by rewrite bool_decide_eq_true_2|].
    split.
    + apply bool_decide_eq_false. intros [? H]. unfold drop_empty, erase_entry in H.
      destruct (bucket _ _); cbn [fd_index_] in H; by rewrite lookup_delete_eq in H.
    + intros tc' k' e'. unfold waits. rewrite bucket_drop_empty. fold (waits (erase_entry tc k (q_connection_fd e) mm) tc' k' e').
      by apply waits_erase_fd.
  - split; [done|]. split; [by rewrite bool_decide_eq_false_2 by (by intros [])|].
    split; [apply bool_decide_eq_false; rewrite Hi; by intros []|].
    intros tc k e. split; [|tauto]. intros H. split; [done|]. intros <-.
    assert (fd_index_ mm !! q_connection_fd e = Some (tc, k)) by (apply c_index; [done|]; by exists e). congruence.
Qed.

(** ** Matches *)

Definition matched (rs : list MatchResult) : list Z := flat_map (fun r => [white_fd r; black_fd r]) rs.

Definition result_of (id : Z) (a b : QueueEntry) : MatchResult :=
  mkMatch (q_connection_fd a) (q_connection_fd b) (q_player_id a) (q_player_id b)
          (q_username a) (q_username b) id (q_time_control a).

(** The room of a match: under way, White the lower rated of the two. *)
Record seats (r : Room) (a b : QueueEntry) : Prop := {
  s_state : state_ r = RoomState.IN_PROGRESS;
  s_white : connection_fd (white_ r) = q_connection_fd a /\ player_id (white_ r) = q_player_id a /\
            db_player_id (white_ r) = q_db_player_id a /\ connected (white_ r) = true;
  s_black : connection_fd (black_ r) = q_connection_fd b /\ player_id (black_ r) = q_player_id b /\
            db_player_id (black_ r) = q_db_player_id b /\ connected (black_ r) = true;
  s_clocks : remaining_ms (white_ r) = base_time_ms (q_time_control a) /\
             remaining_ms (black_ r) = base_time_ms (q_time_control a)
}.

(** Two players whose ratings are no further apart than either of them accepts. *)
Definition in_range (t : Z) (a b : QueueEntry) : Prop :=
  Z.abs (q_elo a - q_elo b) <= acceptable_range a t /\ Z.abs (q_elo a - q_elo b) <= acceptable_range b t.

Lemma compatible_spec t a b : compatible t a b = true <-> in_range t a b.
Proof. unfold compatible, in_range. cbv zeta. by rewrite andb_true_iff, !Z.leb_le. Qed.

(** A player accepts 200 points at first and 50 more with every full ten seconds of waiting. *)
Lemma acceptable_range_spec e t : 0 <= t - q_enqueue_time e < 2 ^ 31 * 1000000000 ->
  acceptable_range e t = 200 + 50 * ((t - q_enqueue_time e) / 10000000000).
Proof.
  intros H. unfold acceptable_range. set (w := t - q_enqueue_time e) in *. cbv zeta. clearbody w. change (2 ^ 31) with 2147483648 in *.
  rewrite (Z.quot_div_nonneg w) by lia.
  assert (0 <= w / 1000000000 < 2147483648) as Hs by (split; [apply Z.div_pos|apply Z.div_lt_upper_bound]; lia).
  assert (to_int (w / 1000000000) = w / 1000000000) as -> by (unfold to_int; change (2 ^ 31) with 2147483648; change (2 ^ 32) with 4294967296; rewrite Z.mod_small; lia).
  rewrite Z.quot_div_nonneg, Z.div_div by lia. change (1000000000 * 10) with 10000000000. lia.
Qed.

(** A fair match: two who waited for the same time control, in each other's range at a
    reading of the clock, White rated no higher than Black. *)
Record fair (now : nat -> Z) (mm : Matchmaker) (rm : RoomManager) (r : MatchResult) (a b : QueueEntry) : Prop := {
  fr_queued : queued mm a /\ queued mm b;
  fr_control : q_time_control a = q_time_control b;
  fr_range : exists i, in_range (now i) a b;
  fr_white : q_elo a <= q_elo b;
  fr_result : r = result_of (game_id r) a b;
  fr_room : exists room, rooms_ rm !! game_id r = Some room /\ seats room a b
}.

Definition fair_match (now : nat -> Z) (mm : Matchmaker) (rm : RoomManager) (r : MatchResult) : Prop :=
  exists a b, fair now mm rm r a b.

Definition nth_id (rm : RoomManager) (n : nat) : Z := (next_id_ rm + Z.of_nat n) mod 2 ^ 32.

Record progress (now : nat -> Z) (mm0 : Matchmaker) (rm0 : RoomManager) (sw : Sweep) : Prop := {
  p_queue : consistent (sw_queue sw);
  p_waits tc k e : waits (sw_queue sw) tc k e <->
                   waits mm0 tc k e /\ ~ In (q_connection_fd e) (matched (sw_results sw));
  p_matched : List.NoDup (matched (sw_results sw));
  p_size : (size (fd_index_ (sw_queue sw)) + 2 * length (sw_results sw) = size (fd_index_ mm0))%nat;
  p_next : next_id_ (sw_rooms sw) = nth_id rm0 (length (sw_results sw));
  p_ids i r : sw_results sw !! i = Some r -> game_id r = nth_id rm0 i;
  p_fair : List.Forall (fair_match now mm0 (sw_rooms sw)) (sw_results sw);
  p_run : 0 <= next_id_ rm0 -> next_id_ rm0 + Z.of_nat (size (fd_index_ mm0)) < 2 ^ 32 -> manager_run rm0 (sw_rooms sw)
}.

(** [create_room] and [join] seat both players in a room that is then under way. *)
Lemma created_and_joined env rm id a b :
  let r := attach_default rm (new_room id (q_player_id a) (q_username a) (q_connection_fd a) (q_time_control a)
             (q_db_player_id a) (q_elo a)) in
  let '(r', _, _) := GameRoom.join env (q_player_id b) (q_username b) (q_connection_fd b)
                       (q_db_player_id b) (q_elo b) r in
  seats r' a b.
Proof.
  unfold attach_default, add_listener. destruct (default_listener_ rm =? 0); by split.
Qed.

Lemma nth_id_inj rm i j :
  Z.of_nat i < 2 ^ 32 -> Z.of_nat j < 2 ^ 32 -> nth_id rm i = nth_id rm j -> i = j.
Proof.
  unfold nth_id. intros Hi Hj E.
  assert ((Z.of_nat i - Z.of_nat j) mod 2 ^ 32 = 0) as Hd.
  { replace (Z.of_nat i - Z.of_nat j) with ((next_id_ rm + Z.of_nat i) - (next_id_ rm + Z.of_nat j)) by lia.
    rewrite Zminus_mod, E, Z.sub_diag. done. }
  apply Z.mod_divide in Hd as [q Hq]; [|done]. lia.
Qed.

Lemma nth_id_succ rm i : (nth_id rm i + 1) mod 2 ^ 32 = nth_id rm (S i).
Proof. unfold nth_id. rewrite Zplus_mod_idemp_l. f_equal. lia. Qed.

(** What [make_match] does to the registry. *)
Lemma make_match_rooms envs tc a b sw :
  let sw' := make_match envs tc a b sw in
  exists room, rooms_ (sw_rooms sw') = <[next_id_ (sw_rooms sw) := room]> (rooms_ (sw_rooms sw)) /\
    next_id_ (sw_rooms sw') = (next_id_ (sw_rooms sw) + 1) mod 2 ^ 32 /\ seats room (snd a) (snd b) /\
    sw_results sw' = sw_results sw ++ [result_of (next_id_ (sw_rooms sw)) (snd a) (snd b)] /\
    sw_queue sw' = erase_entry tc (fst b) (q_connection_fd (snd b))
                     (erase_entry tc (fst a) (q_connection_fd (snd a)) (sw_queue sw)).
Proof.
  cbv zeta. unfold make_match, create_room, fetch_id, register. cbn -[GameRoom.join new_room attach_default].
  rewrite lookup_insert_eq.
  pose proof (created_and_joined (envs (length (sw_results sw)))
    ((sw_rooms sw) <| next_id_ := (next_id_ (sw_rooms sw) + 1) mod 2 ^ 32 |>) (next_id_ (sw_rooms sw)) (snd a) (snd b)) as Hs.
  cbv zeta in Hs. destruct (GameRoom.join _ _ _ _ _ _ _) as [[r' ok] evs].
  exists r'. cbn [sw_rooms sw_results sw_queue]. repeat split; try apply Hs. cbn. by rewrite insert_insert_eq.
Qed.

(** To the registry a match is two calls: [create_room], and [join] on the new room. *)
Lemma make_match_run envs tc a b sw :
  next_id_ (sw_rooms sw) + 1 < 2 ^ 32 -> manager_run (sw_rooms sw) (sw_rooms (make_match envs tc a b sw)).
Proof.
  intros Hb. pose proof (ms_create (sw_rooms sw) (q_player_id (snd a)) (q_username (snd a)) (q_connection_fd (snd a))
    (q_time_control (snd a)) (q_db_player_id (snd a)) (q_elo (snd a)) Hb) as Hs.
  unfold make_match. destruct (create_room _ _ _ _ _ _ _) as [id rm] eqn:E. cbn [snd] in Hs.
  assert (exists r, rooms_ rm !! id = Some r) as [r Hr].
  { unfold create_room, fetch_id in E. injection E as <- <-. eexists. apply lookup_insert_eq. }
  rewrite Hr. set (env := envs _).
  pose proof (fst_outcome (GameRoom.join env (q_player_id (snd b)) (q_username (snd b)) (q_connection_fd (snd b))
    (q_db_player_id (snd b)) (q_elo (snd b)) r)) as Hj.
  pose proof (ms_room rm env (GameRoomSpec.Join (q_player_id (snd b)) (q_username (snd b)) (q_connection_fd (snd b))
    (q_db_player_id (snd b)) (q_elo (snd b))) id r Hr) as Hs2. cbn [exec] in Hs2. rewrite Hj in Hs2.
  destruct (GameRoom.join _ _ _ _ _ _ r) as [[r' ok] evs]. cbn [fst sw_rooms] in *.
  eapply mr_step; [eapply mr_step; [apply mr_refl|exact Hs]|exact Hs2].
Qed.

Lemma manager_run_trans rm1 rm2 rm3 : manager_run rm1 rm2 -> manager_run rm2 rm3 -> manager_run rm1 rm3.
Proof. intros H. induction 1; [done|]. eapply mr_step; [by apply IHmanager_run|done]. Qed.

Lemma fair_mono now mm0 rm id room rm' r :
  rooms_ rm' = <[id := room]> (rooms_ rm) -> game_id r <> id -> fair_match now mm0 rm r -> fair_match now mm0 rm' r.
Proof.
  intros E Hne (a & b & [? ? ? ? ? (room' & Hr & ?)]). exists a, b. split; try done. exists room'.
  by rewrite E, lookup_insert_ne by congruence.
Qed.

Lemma matched_app rs r : matched (rs ++ [r]) = matched rs ++ [white_fd r; black_fd r].
Proof. unfold matched. by rewrite flat_map_app. Qed.

Section sweep.
Context (mm0 : Matchmaker) (rm0 : RoomManager) (now : nat -> Z) (envs : nat -> Env).
Context (Hbound : Z.of_nat (size (fd_index_ mm0)) < 2 ^ 32).

Lemma make_match_progress tc ka ea kb eb i sw :
  progress now mm0 rm0 sw -> waits (sw_queue sw) tc ka ea -> waits (sw_queue sw) tc kb eb -> ka <> kb ->
  compatible (now i) ea eb = true -> q_elo ea <= q_elo eb -> progress now mm0 rm0 (make_match envs tc (ka, ea) (kb, eb) sw).
Proof.
  intros [Hc Hw Hm Hs Hn Hi Hf Hrun] Ha Hb Hk Ht Helo.
  destruct (make_match_rooms envs tc (ka, ea) (kb, eb) sw) as (room & Er & En & Hroom & Ers & Eq).
  cbn [fst snd] in *. set (sw' := make_match _ _ _ _ _) in *.
  assert (q_connection_fd eb <> q_connection_fd ea) as Hne.
  { intros E. apply Hk. by destruct (waits_unique (sw_queue sw) tc kb eb tc ka ea Hc Hb Ha E) as (_ & -> & _). }
  set (mm1 := erase_entry tc ka (q_connection_fd ea) (sw_queue sw)) in *.
  assert (consistent mm1) as Hc1 by by apply erase_entry_consistent.
  assert (waits mm1 tc kb eb) as Hb1 by by apply waits_erase_fd.
  pose proof (proj1 (Hw _ _ _) Ha) as [Ha0 Ham]. pose proof (proj1 (Hw _ _ _) Hb) as [Hb0 Hbm].
  assert (length (sw_results sw') = S (length (sw_results sw))) as El by (rewrite Ers, length_app; cbn; lia).
  split; rewrite ?El, ?Eq.
  - by apply erase_entry_consistent.
  - intros tc' k' e'. rewrite waits_erase_fd by done. unfold mm1. rewrite waits_erase_fd by done.
    rewrite Hw, Ers, matched_app, in_app_iff. cbn [In white_fd black_fd result_of]. intuition congruence.
  - rewrite Ers, matched_app. cbn [white_fd black_fd result_of]. apply List.NoDup_app; [done| |].
    + repeat constructor; cbn [In]; intuition congruence.
    + intros x Hx. cbn [In]. intuition congruence.
  - pose proof (erase_entry_size _ _ _ _ Hc Ha). pose proof (erase_entry_size _ _ _ _ Hc1 Hb1).
    fold mm1 in H. lia.
  - by rewrite En, Hn, nth_id_succ.
  - intros j r. rewrite Ers. intros H. apply lookup_app_Some in H as [H|[Hlen H]]; [by apply Hi|].
    apply list_lookup_singleton_Some in H as [Hz <-]. cbn [game_id result_of].
    rewrite Hn. f_equal. lia.
  - rewrite Ers. apply Forall_app. split.
    + apply Forall_lookup. intros j r H. apply (fair_mono now mm0 _ _ room _ r Er).
      * rewrite (Hi j r H), Hn. apply lookup_lt_Some in H. intros E. apply nth_id_inj in E; lia.
      * by apply (proj1 (Forall_lookup _ _) Hf j).
    + constructor; [|constructor]. exists ea, eb. split; cbn [game_id result_of]; try done.
      * split; [by exists tc, ka|by exists tc, kb].
      * transitivity tc; [exact (proj1 (c_entry _ Hc _ _ _ Ha))|exact (eq_sym (proj1 (c_entry _ Hc _ _ _ Hb)))].
      * exists i. by apply compatible_spec.
      * exists room. by rewrite Er, lookup_insert_eq.
  - intros Hpos Hfit. specialize (Hrun Hpos Hfit). eapply manager_run_trans; [exact Hrun|]. apply make_match_run.
    pose proof (erase_entry_size _ _ _ _ Hc Ha). rewrite Hn. unfold nth_id. rewrite Z.mod_small; lia.
Qed.

Definition tick (sw : Sweep) : Sweep :=
  mkSweep (sw_queue sw) (sw_rooms sw) (sw_results sw) (sw_events sw) (S (sw_tick sw)).

Lemma sweep_bucket_step fuel tc a b rest sw :
  sweep_bucket now envs (S fuel) tc (a :: b :: rest) sw =
  if compatible (now (sw_tick sw)) (snd a) (snd b)
  then sweep_bucket now envs fuel tc rest (make_match envs tc a b (tick sw))
  else sweep_bucket now envs fuel tc (b :: rest) (tick sw).
Proof. done. Qed.

(** The nodes the walk has before it are distinct, in order and still in the queue. *)
Definition ahead (sw : Sweep) (tc : TimeControl) (b : Bucket) : Prop :=
  List.NoDup (map fst b) /\ StronglySorted by_elo b /\ forall k e, In (k, e) b -> waits (sw_queue sw) tc k e.

Lemma sweep_bucket_progress fuel : forall tc b sw,
  progress now mm0 rm0 sw -> ahead sw tc b ->
  let sw' := sweep_bucket now envs fuel tc b sw in
  progress now mm0 rm0 sw' /\
  forall tc' k e, tc' <> tc -> waits (sw_queue sw') tc' k e <-> waits (sw_queue sw) tc' k e.
Proof.
  induction fuel as [|fuel IH]; intros tc b sw Hp (Hd & Hso & Ha); [done|].
  destruct b as [|[ka ea] [|[kb eb] rest]]; [done..|]. rewrite sweep_bucket_step. cbn [snd].
  inversion_clear Hso as [|? ? Hso1 Hle]. pose proof (Forall_inv Hle) as Helo. unfold by_elo in Helo. cbn [snd] in Helo.
  inversion_clear Hd as [|? ? Hk1 Hd1]. inversion_clear Hd1 as [|? ? Hk2 Hd2]. cbn [map fst In] in *.
  destruct (compatible _ ea eb) eqn:Hcomp.
  - destruct (make_match_rooms envs tc (ka, ea) (kb, eb) (tick sw)) as (_ & _ & _ & _ & _ & Eq).
    cbn [fst snd] in Eq. change (sw_queue (tick sw)) with (sw_queue sw) in Eq.
    assert (progress now mm0 rm0 (make_match envs tc (ka, ea) (kb, eb) (tick sw))) as Hp'
      by (eapply make_match_progress; [destruct Hp; by split|apply Ha; tauto|apply Ha; tauto|intros ->; tauto|exact Hcomp|done]).
    destruct (IH tc rest (make_match envs tc (ka, ea) (kb, eb) (tick sw)) Hp') as [H1 H2].
    + split; [done|]. split; [by inversion_clear Hso1|]. intros k e H. rewrite Eq. rewrite !waits_erase.
      assert (In k (map fst rest)) by (apply in_map_iff; by exists (k, e)).
      repeat split; [apply Ha; tauto| |]; intros [_ E]; cbn [fst] in E; subst k; tauto.
    + split; [done|]. intros tc' k e Hne. rewrite H2 by done. rewrite Eq, !waits_erase. tauto.
  - destruct (IH tc ((kb, eb) :: rest) (tick sw)) as [H1 H2].
    + destruct Hp; by split.
    + split; [by constructor|]. split; [done|]. intros k e H. apply Ha. by right.
    + by split.
Qed.

Lemma try_match_fold l : forall sw,
  progress now mm0 rm0 sw -> List.NoDup (map fst l) -> (forall tc b, In (tc, b) l -> ahead sw tc b) ->
  progress now mm0 rm0
    (fold_left (fun sw '(tc, b) => if (length b <? 2)%nat then sw else sweep_bucket now envs (length b) tc b sw) l sw).
Proof.
  induction l as [|[tc b] l IH]; intros sw Hp Hd Ha; [done|]. cbn [fold_left].
  inversion_clear Hd as [|? ? Hk Hd1]. destruct (length b <? 2)%nat.
  { apply IH; [done..|]. intros tc' b' H. apply Ha. by right. }
  destruct (sweep_bucket_progress (length b) tc b sw Hp (Ha tc b (or_introl eq_refl))) as [H1 H2].
  apply IH; [done..|]. intros tc' b' H. destruct (Ha tc' b' (or_intror H)) as (Hn & Hso & Hw).
  split; [done|]. split; [done|]. intros k e Hin. apply H2; [|by apply Hw]. intros ->. apply Hk, in_map_iff. by exists (tc, b').
Qed.

Lemma progress_start :
  consistent mm0 -> 0 <= next_id_ rm0 < 2 ^ 32 -> progress now mm0 rm0 (mkSweep mm0 rm0 [] [] 0).
Proof.
  intros Hc Hn. split; cbn [sw_queue sw_rooms sw_results matched flat_map]; try done.
  - cbn [In]. tauto.
  - constructor.
  - unfold nth_id. change (Z.of_nat (length [])) with 0. by rewrite Z.add_0_r, Z.mod_small.
  - intros _ _. apply mr_refl.
Qed.

Lemma try_match_progress order :
  consistent mm0 -> 0 <= next_id_ rm0 < 2 ^ 32 -> (forall l, Permutation (order l) l) ->
  progress now mm0 rm0 (try_match now envs order mm0 rm0).
Proof.
  intros Hc Hn Ho. apply try_match_fold; [by apply progress_start| |].
  - rewrite (Permutation_map fst (Ho _)). apply NoDup_ListNoDup, NoDup_fst_map_to_list.
  - intros tc b H. rewrite (perm_in_iff (Ho _)) in H. apply list_elem_of_In, elem_of_map_to_list in H.
    assert (bucket mm0 tc = b) as <- by exact (f_equal (default []) H).
    split; [apply (c_nodes _ Hc)|]. split; [apply (c_sorted _ Hc)|done].
Qed.
End sweep.

(** ** The walk finds a pair where there is one *)

(** Two neighbours of a bucket that every clock reading finds compatible. *)
Definition neighbours (now : nat -> Z) (b : Bucket) : Prop :=
  exists l x y r, b = l ++ x :: y :: r /\ forall i, in_range (now i) (snd x) (snd y).

Lemma sweep_bucket_grows now envs fuel : forall tc b sw,
  (length (sw_results sw) <= length (sw_results (sweep_bucket now envs fuel tc b sw)))%nat.
Proof.
  induction fuel as [|fuel IH]; intros tc b sw; [done|].
  destruct b as [|x [|y b]]; [done..|]. rewrite sweep_bucket_step. destruct (compatible _ _ _).
  - etransitivity; [|apply IH]. destruct (make_match_rooms envs tc x y (tick sw)) as (_ & _ & _ & _ & -> & _).
    rewrite length_app. cbn. lia.
  - etransitivity; [|apply IH]. done.
Qed.

Lemma sweep_bucket_finds now envs fuel : forall tc b sw,
  (length b <= fuel)%nat -> neighbours now b ->
  (length (sw_results sw) < length (sw_results (sweep_bucket now envs fuel tc b sw)))%nat.
Proof.
  induction fuel as [|fuel IH]; intros tc b sw Hl (l & x & y & r & -> & Hc).
  { rewrite length_app in Hl. cbn in Hl. lia. }
  destruct l as [|u l].
  - cbn [app]. rewrite sweep_bucket_step, (proj2 (compatible_spec _ _ _) (Hc _)). eapply Nat.lt_le_trans; [|apply sweep_bucket_grows].
    destruct (make_match_rooms envs tc x y (tick sw)) as (_ & _ & _ & _ & -> & _).
    rewrite length_app. cbn. lia.
  - assert (exists v l', l ++ x :: y :: r = v :: l') as (v & l' & E) by (destruct l; cbn; eauto).
    cbn [app]. rewrite E, sweep_bucket_step. destruct (compatible _ _ _).
    + eapply Nat.lt_le_trans; [|apply sweep_bucket_grows].
      destruct (make_match_rooms envs tc u v (tick sw)) as (_ & _ & _ & _ & -> & _).
      rewrite length_app. cbn. lia.
    + eapply Nat.le_lt_trans; [|apply IH; [|rewrite <- E; by exists l, x, y, r]]; [done|].
      rewrite <- E. cbn in Hl. rewrite length_app in *. cbn in *. lia.
Qed.

Lemma try_match_finds now envs order mm rm tc :
  (forall l, Permutation (order l) l) -> neighbours now (bucket mm tc) ->
  sw_results (try_match now envs order mm rm) <> [].
Proof.
  intros Ho Hn. assert (exists b, In (tc, b) (order (map_to_list (buckets_ mm))) /\ neighbours now b) as (b & Hin & Hb).
  { exists (bucket mm tc). split; [|done]. apply (perm_in_iff (Ho _)), list_elem_of_In, elem_of_map_to_list.
    destruct (buckets_ mm !! tc) as [b|] eqn:E; [f_equal; symmetry; exact (f_equal (default []) E)|].
    rewrite (bucket_none _ _ E) in Hn. destruct Hn as ([|? ?] & ? & ? & ? & ? & _); done. }
  apply in_split in Hin as (l1 & l2 & E). unfold try_match. rewrite E, fold_left_app. cbn [fold_left].
  match goal with |- context [fold_left ?g l1 ?s] => set (f := g); set (sw0 := fold_left f l1 s) end.
  assert (forall l sw, (length (sw_results sw) <= length (sw_results (fold_left f l sw)))%nat) as Hg.
  { induction l as [|[tc' b'] l IH]; intros sw; [done|]. cbn [fold_left]. etransitivity; [|apply IH].
    unfold f. destruct (_ <? _)%nat; [done|apply sweep_bucket_grows]. }
  assert (2 <= length b)%nat as Hl.
  { destruct Hb as (? & ? & ? & ? & -> & _). rewrite length_app. cbn. lia. }
  destruct (Nat.ltb_spec (length b) 2); [lia|]. intros E0.
  pose proof (Hg l2 (sweep_bucket now envs (length b) tc b sw0)) as H1.
  apply (f_equal length) in E0. cbn [length] in E0.
  pose proof (sweep_bucket_finds now envs (length b) tc b sw0 (le_n _) Hb) as H2.
  apply (Nat.nlt_0_r _ (Nat.lt_le_trans _ _ _ H2 (Nat.le_trans _ _ _ H1 (Nat.eq_le_incl _ _ E0)))).
Qed.

(** ** Reachable queues *)

Inductive reachable : Matchmaker -> Prop :=
| r_new : reachable new_matchmaker
| r_enqueue now fd pid name elo tc db_id mm :
    reachable mm -> reachable (snd (enqueue now fd pid name elo tc db_id mm))
| r_dequeue fd mm : reachable mm -> reachable (snd (dequeue fd mm))
| r_match now envs order mm rm :
    reachable mm -> Z.of_nat (size (fd_index_ mm)) < 2 ^ 32 -> 0 <= next_id_ rm < 2 ^ 32 ->
    (forall l, Permutation (order l) l) -> reachable (sw_queue (try_match now envs order mm rm)).

Lemma reachable_consistent mm : reachable mm -> consistent mm.
Proof.
  induction 1 as [| |fd mm _ IH|].
  - apply consistent_new.
  - by apply enqueue_consistent.
  - pose proof (dequeue_spec fd mm IH) as H. destruct (dequeue fd mm). apply H.
  - by eapply p_queue, try_match_progress.
Qed.
