(* ===== verification/TransTable.v ===== *)
(** * Transposition table: src/src/chess/transposition_table.{h,cpp}

    [entries_] is the vector of slots; the slot of a key is [key & mask_].
    [probe] returns whether it cuts off, the score and the move it outputs. *)
From S2P Require Import Prelude Types BoardState Zobrist.

Module TTNodeType.
Inductive t := NONE | EXACT | LOWER_BOUND | UPPER_BOUND.
#[export] Instance eq_dec : EqDecision t.
Proof. solve_decision. Defined.
End TTNodeType.
#[export] Existing Instance TTNodeType.eq_dec.

Record TTEntry := mkEntry {
  key : Z; best_move : Move; score : Z; depth : Z; node_type : TTNodeType.t; age : Z
}.

Definition empty_entry : TTEntry := mkEntry 0 null_move 0 0 TTNodeType.NONE 0.
#[export] Instance TTEntry_inhabited : Inhabited TTEntry := populate empty_entry.

Record TransTable := mkTT { entries_ : list TTEntry; mask_ : Z; age_ : Z }.

(** ** Size *)

(** [sizeof(TTEntry)]: 19 bytes of fields, aligned to 8. *)
Definition entry_bytes : Z := 24.

(** [while ((p << 1) <= n && (p << 1) != 0) p <<= 1;] on [size_t]. *)
Fixpoint power_loop (fuel : nat) (n p : Z) : Z :=
  match fuel with
  | O => p
  | S fuel =>
      let q := wrap64 (Z.shiftl p 1) in
      if (q <=? n) && negb (q =? 0) then power_loop fuel n q else p
  end.

Definition resize (size_mb : Z) : TransTable :=
  let size_mb := if size_mb =? 0 then 1 else size_mb in
  let target_bytes := wrap64 (size_mb * 1024 * 1024) in
  let power_of_two := power_loop 64 (target_bytes / entry_bytes) 1 in
  mkTT (replicate (Z.to_nat power_of_two) empty_entry) (power_of_two - 1) 0.

Definition clear (t : TransTable) : TransTable :=
  mkTT (replicate (length (entries_ t)) empty_entry) (mask_ t) 0.

(** [++age_] on a [uint8_t]. *)
Definition new_search (t : TransTable) : TransTable :=
  mkTT (entries_ t) (mask_ t) ((age_ t + 1) mod 256).

(** ** Mate scores *)

Definition TT_MATE_BOUND : Z := 800000.

Definition score_to_tt (s ply : Z) : Z :=
  if TT_MATE_BOUND <=? s then s + ply
  else if s <=? - TT_MATE_BOUND then s - ply else s.

Definition score_from_tt (s ply : Z) : Z :=
  if TT_MATE_BOUND <=? s then s - ply
  else if s <=? - TT_MATE_BOUND then s + ply else s.

(** ** Store and probe *)

Definition slot (t : TransTable) (k : Z) : nat := Z.to_nat (Z.land k (mask_ t)).
Definition entry_at (t : TransTable) (k : Z) : TTEntry := entries_ t !!! slot t k.

(** [static_cast<int8_t>] *)
Definition to_int8 (z : Z) : Z := (z + 128) mod 256 - 128.

Definition replaces (t : TransTable) (e : TTEntry) (k d : Z) (ty : TTNodeType.t) : bool :=
  if key e =? 0 then true
  else if key e =? k then (depth e <=? d) || bool_decide (ty = TTNodeType.EXACT)
  else if negb (age e =? age_ t) then true
  else depth e <=? d.

Definition new_entry (t : TransTable) (e : TTEntry) (k d ply s : Z) (ty : TTNodeType.t) (m : Move) : TTEntry :=
  let m := if (from m =? to m) && (key e =? k) then best_move e else m in
  mkEntry k m (score_to_tt s ply) (to_int8 d) ty (age_ t).

Definition store (t : TransTable) (k d ply s : Z) (ty : TTNodeType.t) (m : Move) : TransTable :=
  match entries_ t with
  | [] => t
  | _ =>
      let e := entry_at t k in
      if replaces t e k d ty
      then mkTT (<[slot t k := new_entry t e k d ply s ty m]> (entries_ t)) (mask_ t) (age_ t)
      else t
  end.

Definition cutoff (e : TTEntry) (s alpha beta : Z) : bool :=
  match node_type e with
  | TTNodeType.EXACT => true
  | TTNodeType.LOWER_BOUND => beta <=? s
  | TTNodeType.UPPER_BOUND => s <=? alpha
  | TTNodeType.NONE => false
  end.

(** The result, and the out-parameters: untouched ones keep their value. *)
Definition probe (t : TransTable) (k d ply alpha beta out_score : Z) (out_move : Move) : bool * Z * Move :=
  match entries_ t with
  | [] => (false, out_score, out_move)
  | _ =>
      let e := entry_at t k in
      if negb (key e =? k) || bool_decide (node_type e = TTNodeType.NONE)
      then (false, out_score, out_move)
      else if (d <=? depth e) && cutoff e (score_from_tt (score e) ply) alpha beta
      then (true, score_from_tt (score e) ply, best_move e)
      else (false, out_score, best_move e)
  end.

Definition probe_move (t : TransTable) (k : Z) (out_move : Move) : bool * Move :=
  match entries_ t with
  | [] => (false, out_move)
  | _ =>
      let e := entry_at t k in
      if (key e =? k) && negb (bool_decide (node_type e = TTNodeType.NONE))
      then (true, best_move e) else (false, out_move)
  end.

Definition hashfull (t : TransTable) : Z :=
  match entries_ t with
  | [] => 0
  | _ =>
      let sample_size := Nat.min (length (entries_ t)) (10 * 100) in
      let occupied := length (List.filter (fun e => negb (key e =? 0) && (age e =? age_ t))
                                          (firstn sample_size (entries_ t))) in
      Z.of_nat occupied * 1000 / Z.of_nat sample_size
  end.

(** ** Well-formed tables *)

(** The capacity is a power of two and the mask selects exactly the slots. *)
Definition table_ok (t : TransTable) : Prop :=
  exists n, 0 <= n < 64 /\ Z.of_nat (length (entries_ t)) = 2 ^ n /\ mask_ t = 2 ^ n - 1.

Lemma wrap64_shift n : 0 <= n < 63 -> wrap64 (Z.shiftl (2 ^ n) 1) = 2 ^ (n + 1).
Proof.
  intros H. rewrite Z.shiftl_mul_pow2 by lia. change (2 ^ 1) with 2.
  rewrite Z.pow_add_r by lia. change (2 ^ 1) with 2. unfold wrap64. apply Z.mod_small.
  pose proof (Z.pow_pos_nonneg 2 n ltac:(lia) ltac:(lia)).
  pose proof (Z.pow_lt_mono_r 2 n 63 ltac:(lia) ltac:(lia) ltac:(lia)).
  change (2 ^ 64) with (2 ^ 63 * 2). lia.
Qed.

Lemma power_loop_spec fuel n k :
  0 <= k -> k + Z.of_nat fuel = 64 -> 2 ^ k <= n < 2 ^ 63 ->
  exists j, k <= j < 64 /\ power_loop fuel n (2 ^ k) = 2 ^ j /\ 2 ^ j <= n < 2 ^ (j + 1).
Proof.
  revert k. induction fuel as [|fuel IH]; intros k Hk Hf Hn.
  { assert (k = 64) as -> by lia. pose proof (Z.pow_lt_mono_r 2 63 64). lia. }
  assert (k < 63) as Hk63.
  { destruct (Z.lt_ge_cases k 63) as [|Hge]; [done|]. pose proof (Z.pow_le_mono_r 2 63 k ltac:(lia) Hge). lia. }
  cbn [power_loop]. rewrite wrap64_shift by lia.
  pose proof (Z.pow_pos_nonneg 2 (k + 1) ltac:(lia) ltac:(lia)).
  destruct (Z.leb_spec (2 ^ (k + 1)) n); cbn [andb].
  - rewrite (proj2 (Z.eqb_neq _ 0)) by lia. cbn [negb].
    destruct (IH (k + 1)) as (j & Hj & E & Hb); [lia..|]. exists j. split; [lia|done].
  - exists k. split; [lia|]. split; [done|lia].
Qed.

Lemma resize_spec size_mb :
  0 <= size_mb < 2 ^ 40 ->
  table_ok (resize size_mb) /\ age_ (resize size_mb) = 0 /\
  List.Forall (fun e => e = empty_entry) (entries_ (resize size_mb)) /\
  Z.of_nat (length (entries_ (resize size_mb))) * entry_bytes <= Z.max 1 size_mb * 2 ^ 20
    < 2 * (Z.of_nat (length (entries_ (resize size_mb))) + 1) * entry_bytes.
Proof.
  intros H. unfold resize. set (mb := if size_mb =? 0 then 1 else size_mb).
  assert (mb = Z.max 1 size_mb /\ 1 <= mb < 2 ^ 40) as [Emb Hmb].
  { unfold mb. destruct (Z.eqb_spec size_mb 0); lia. }
  assert (wrap64 (mb * 1024 * 1024) = mb * 2 ^ 20) as ->.
  { unfold wrap64. rewrite Z.mod_small; lia. }
  set (n := mb * 2 ^ 20 / entry_bytes).
  assert (entry_bytes * n <= mb * 2 ^ 20 < entry_bytes * n + entry_bytes) as Hn.
  { unfold n. pose proof (Z.div_mod (mb * 2 ^ 20) entry_bytes ltac:(done)).
    pose proof (Z.mod_pos_bound (mb * 2 ^ 20) entry_bytes ltac:(done)). lia. }
  unfold entry_bytes in Hn.
  destruct (power_loop_spec 64 n 0) as (j & Hj & E & Hb); [lia..|].
  change (2 ^ 0) with 1 in E. rewrite E.
  pose proof (Z.pow_pos_nonneg 2 j ltac:(lia) ltac:(lia)).
  cbn [entries_ mask_ age_]. rewrite length_replicate, Z2Nat.id by lia. rewrite <- Emb. unfold entry_bytes.
  rewrite Z.pow_add_r in Hb by lia. change (2 ^ 1) with 2 in Hb.
  split; [|split; [done|split; [|lia]]].
  - exists j. cbn [entries_ mask_]. rewrite length_replicate, Z2Nat.id by lia. done.
  - by apply Forall_replicate.
Qed.

(** A slot index never leaves the vector. *)
Lemma slot_bound t k : table_ok t -> 0 <= k -> (slot t k < length (entries_ t))%nat.
Proof.
  intros (n & Hn & Hl & Hm) Hk. unfold slot. rewrite Hm.
  replace (2 ^ n - 1) with (Z.ones n) by (rewrite Z.ones_equiv; lia).
  rewrite Z.land_ones by lia. pose proof (Z.mod_pos_bound k (2 ^ n) ltac:(lia)). lia.
Qed.

Lemma table_ok_nonempty t : table_ok t -> entries_ t <> [].
Proof. intros (n & Hn & Hl & _) E. rewrite E in Hl. cbn in Hl. pose proof (Z.pow_pos_nonneg 2 n). lia. Qed.

Lemma table_ok_store t k d ply s ty m : table_ok t -> table_ok (store t k d ply s ty m).
Proof.
  intros H. unfold store. destruct (entries_ t) eqn:E; [done|]. rewrite <- E.
  destruct (replaces _ _ _ _ _); [|done]. destruct H as (n & ? & Hl & ?).
  exists n. cbn [entries_ mask_]. by rewrite length_insert.
Qed.

(** ** Mate distances *)

Lemma score_tt_shift s p q :
  0 <= p -> 0 <= q ->
  score_from_tt (score_to_tt s p) q =
  if TT_MATE_BOUND <=? s then s + p - q
  else if s <=? - TT_MATE_BOUND then s - p + q else s.
Proof. intros. unfold score_from_tt, score_to_tt, TT_MATE_BOUND. repeat case_z; lia. Qed.

(** ** What a store leaves behind *)

Lemma entry_at_store t k k' d ply s ty m :
  table_ok t -> 0 <= k -> 0 <= k' ->
  entry_at (store t k d ply s ty m) k' =
  if decide (slot t k' = slot t k) then
    if replaces t (entry_at t k) k d ty then new_entry t (entry_at t k) k d ply s ty m else entry_at t k
  else entry_at t k'.
Proof.
  intros Ht Hk Hk'. unfold store. pose proof (table_ok_nonempty t Ht).
  destruct (entries_ t) eqn:E; [done|]. rewrite <- E.
  destruct (replaces _ _ _ _ _).
  - unfold entry_at, slot. cbn [entries_ mask_]. fold (slot t k) (slot t k'). case_decide as Hs.
    + rewrite Hs. apply list_lookup_total_insert_eq. by apply slot_bound.
    + by apply list_lookup_total_insert_ne.
  - case_decide as Hs; [|done]. unfold entry_at. by rewrite Hs.
Qed.

Lemma probe_spec t k d ply a b s0 m0 :
  entries_ t <> [] ->
  probe t k d ply a b s0 m0 =
  if negb (key (entry_at t k) =? k) || bool_decide (node_type (entry_at t k) = TTNodeType.NONE)
  then (false, s0, m0)
  else if (d <=? depth (entry_at t k)) && cutoff (entry_at t k) (score_from_tt (score (entry_at t k)) ply) a b
  then (true, score_from_tt (score (entry_at t k)) ply, best_move (entry_at t k))
  else (false, s0, best_move (entry_at t k)).
Proof. intros H. unfold probe. by destruct (entries_ t) eqn:E. Qed.

Lemma to_int8_id d : -128 <= d < 128 -> to_int8 d = d.
Proof. intros H. unfold to_int8. rewrite Z.mod_small; lia. Qed.

(** An exact score that was written is found again, at any ply, as deep as it was. *)
Lemma probe_after_store t k d p q s m a b s0 m0 :
  table_ok t -> 0 <= k -> 0 <= d < 128 -> 0 <= p -> 0 <= q -> from m <> to m ->
  replaces t (entry_at t k) k d TTNodeType.EXACT = true ->
  probe (store t k d p s TTNodeType.EXACT m) k d q a b s0 m0 =
  (true, score_from_tt (score_to_tt s p) q, m).
Proof.
  intros Ht Hk Hd Hp Hq Hm Hr.
  rewrite probe_spec by by apply table_ok_nonempty, table_ok_store.
  rewrite entry_at_store, decide_True, Hr by done. unfold new_entry. cbn [key node_type depth score best_move].
  rewrite Z.eqb_refl, to_int8_id, Z.leb_refl by lia.
  apply Z.eqb_neq in Hm. by rewrite Hm.
Qed.

(** ** Soundness: what is probed was stored

    [valid k e]: the contents of an entry are justified for the position [k]. *)
Section soundness.
Context (valid : Z -> TTEntry -> Prop).

Definition table_sound (t : TransTable) : Prop :=
  forall e, In e (entries_ t) -> node_type e <> TTNodeType.NONE -> valid (key e) e.

Lemma entry_sound t k :
  table_ok t -> table_sound t -> 0 <= k -> node_type (entry_at t k) <> TTNodeType.NONE ->
  valid (key (entry_at t k)) (entry_at t k).
Proof.
  intros Ht Hs Hk Hn. apply Hs; [|done]. unfold entry_at.
  apply list_elem_of_In, list_elem_of_lookup_total_2. by apply slot_bound.
Qed.

Lemma store_sound t k d ply s ty m :
  table_sound t -> valid k (new_entry t (entry_at t k) k d ply s ty m) ->
  table_sound (store t k d ply s ty m).
Proof.
  intros Hs Hv e He Hn. unfold store in He. destruct (entries_ t) eqn:E; [rewrite E in He; done|].
  rewrite <- E in He. destruct (replaces _ _ _ _ _); [|by apply Hs].
  cbn [entries_] in He. apply list_elem_of_In in He.
  apply list_elem_of_lookup in He as [i Hi].
  rewrite list_lookup_insert_Some in Hi. destruct Hi as [(<- & <- & _)|(_ & Hi)]; [exact Hv|].
  apply Hs; [|done]. apply list_elem_of_In, list_elem_of_lookup. eauto.
Qed.

Lemma probe_sound t k d ply a b s0 m0 s m :
  table_ok t -> table_sound t -> 0 <= k -> probe t k d ply a b s0 m0 = (true, s, m) ->
  exists e, valid k e /\ key e = k /\ node_type e <> TTNodeType.NONE /\ d <= depth e /\
    m = best_move e /\ s = score_from_tt (score e) ply /\ cutoff e s a b = true.
Proof.
  intros Ht Hs Hk Hp. rewrite probe_spec in Hp by by apply table_ok_nonempty.
  destruct (_ || _) eqn:E1; [done|]. apply orb_false_iff in E1 as [E1%negb_false_iff%Z.eqb_eq E2%bool_decide_eq_false].
  destruct (_ && _) eqn:E3; [|done]. injection Hp as <- <-. bool_hyps.
  pose proof (entry_sound t k Ht Hs Hk E2) as Hv. rewrite E1 in Hv.
  by exists (entry_at t k).
Qed.
End soundness.

Lemma hashfull_range t : 0 <= hashfull t <= 1000.
Proof.
  unfold hashfull. destruct (entries_ t) as [|e l] eqn:E; [lia|]. rewrite <- E.
  set (n := Nat.min (length (entries_ t)) (10 * 100)).
  assert (length (firstn n (entries_ t)) = n) as Hn by (rewrite length_firstn; unfold n; lia).
  pose proof (filter_length_le (fun e => negb (key e =? 0) && (age e =? age_ t)) (firstn n (entries_ t))).
  assert (0 < n)%nat by (unfold n; rewrite E; cbn [length]; lia).
  split; [apply Z.div_pos; lia|]. apply Z.div_le_upper_bound; lia.
Qed.
