(* ===== verification/Evaluator.v ===== *)
(** * Static evaluation: src/src/chess/evaluator.cpp

    The six components of the score, as sums over the mailbox.  The tables are
    indexed exactly as the source indexes them. *)
From S2P Require Import Prelude Types BoardState Zobrist Board MoveGen.

(** ** Tables *)

Definition PIECE_VALUE : list Z := [100; 320; 330; 500; 900; 20000; 0].

Definition PST_PAWN : list Z :=
  [ 0; 0; 0; 0; 0; 0; 0; 0;
    50; 50; 50; 50; 50; 50; 50; 50;
    10; 10; 20; 30; 30; 20; 10; 10;
    5; 5; 10; 25; 25; 10; 5; 5;
    0; 0; 0; 20; 20; 0; 0; 0;
    5; -5; -10; 0; 0; -10; -5; 5;
    5; 10; 10; -20; -20; 10; 10; 5;
    0; 0; 0; 0; 0; 0; 0; 0 ].

Definition PST_KNIGHT : list Z :=
  [ -50; -40; -30; -30; -30; -30; -40; -50;
    -40; -20; 0; 0; 0; 0; -20; -40;
    -30; 0; 10; 15; 15; 10; 0; -30;
    -30; 5; 15; 20; 20; 15; 5; -30;
    -30; 0; 15; 20; 20; 15; 0; -30;
    -30; 5; 10; 15; 15; 10; 5; -30;
    -40; -20; 0; 5; 5; 0; -20; -40;
    -50; -40; -30; -30; -30; -30; -40; -50 ].

Definition PST_BISHOP : list Z :=
  [ -20; -10; -10; -10; -10; -10; -10; -20;
    -10; 0; 0; 0; 0; 0; 0; -10;
    -10; 0; 5; 10; 10; 5; 0; -10;
    -10; 5; 5; 10; 10; 5; 5; -10;
    -10; 0; 10; 10; 10; 10; 0; -10;
    -10; 10; 10; 10; 10; 10; 10; -10;
    -10; 5; 0; 0; 0; 0; 5; -10;
    -20; -10; -10; -10; -10; -10; -10; -20 ].

Definition PST_ROOK : list Z :=
  [ 0; 0; 0; 0; 0; 0; 0; 0;
    5; 10; 10; 10; 10; 10; 10; 5;
    -5; 0; 0; 0; 0; 0; 0; -5;
    -5; 0; 0; 0; 0; 0; 0; -5;
    -5; 0; 0; 0; 0; 0; 0; -5;
    -5; 0; 0; 0; 0; 0; 0; -5;
    -5; 0; 0; 0; 0; 0; 0; -5;
    0; 0; 0; 5; 5; 0; 0; 0 ].

Definition PST_QUEEN : list Z :=
  [ -20; -10; -10; -5; -5; -10; -10; -20;
    -10; 0; 0; 0; 0; 0; 0; -10;
    -10; 0; 5; 5; 5; 5; 0; -10;
    -5; 0; 5; 5; 5; 5; 0; -5;
    0; 0; 5; 5; 5; 5; 0; -5;
    -10; 5; 5; 5; 5; 5; 0; -10;
    -10; 0; 5; 0; 0; 0; 0; -10;
    -20; -10; -10; -5; -5; -10; -10; -20 ].

Definition PST_KING_MG : list Z :=
  [ -30; -40; -40; -50; -50; -40; -40; -30;
    -30; -40; -40; -50; -50; -40; -40; -30;
    -30; -40; -40; -50; -50; -40; -40; -30;
    -30; -40; -40; -50; -50; -40; -40; -30;
    -20; -30; -30; -40; -40; -30; -30; -20;
    -10; -20; -20; -20; -20; -20; -20; -10;
    20; 20; 0; 0; 0; 0; 20; 20;
    20; 30; 10; 0; 0; 10; 30; 20 ].

Definition PAWN_SHIELD_BONUS : Z := 10.
Definition KING_OPEN_FILE_PENALTY : Z := -25.
Definition DOUBLED_PAWN_PENALTY : Z := -15.
Definition ISOLATED_PAWN_PENALTY : Z := -20.
Definition PASSED_PAWN_BONUS : list Z := [0; 10; 15; 25; 40; 60; 90; 0].
Definition MOBILITY_WEIGHT : Z := 4.
Definition BISHOP_PAIR_BONUS : Z := 30.

(** [table[i]] *)
Definition tab (l : list Z) (i : Z) : Z := nth (Z.to_nat i) l 0.

Definition sumZ {A} (f : A -> Z) (l : list A) : Z := fold_right (fun x n => f x + n) 0 l.

(** [for (int i = a; i <= b; ++i)] *)
Definition zrange (a b : Z) : list Z := map (fun i => a + Z.of_nat i) (seq 0 (Z.to_nat (b - a + 1))).

(** ** Piece-square tables *)

Definition pst_bonus (t : PieceType.t) (c : Color.t) (sq : Z) : Z :=
  let idx := if bool_decide (c = Color.BLACK) then sq ^^ 56 else sq in
  match t with
  | PieceType.PAWN => tab PST_PAWN idx
  | PieceType.KNIGHT => tab PST_KNIGHT idx
  | PieceType.BISHOP => tab PST_BISHOP idx
  | PieceType.ROOK => tab PST_ROOK idx
  | PieceType.QUEEN => tab PST_QUEEN idx
  | PieceType.KING => tab PST_KING_MG idx
  | PieceType.NONE => 0
  end.

(** ** King safety *)

Definition own_pawn (b : Board) (c : Color.t) (r f : Z) : bool :=
  is_piece (piece_at b (make_square r f)) PieceType.PAWN c.

Definition evaluate_king_safety (b : Board) (c : Color.t) (king_sq : Z) : Z :=
  let king_file := file_of king_sq in
  let king_rank := rank_of king_sq in
  let white := bool_decide (c = Color.WHITE) in
  let shield_rank := if white then king_rank + 1 else king_rank - 1 in
  let king_is_home := if white then king_rank <=? 1 else 6 <=? king_rank in
  let shield :=
    if king_is_home && (0 <=? shield_rank) && (shield_rank <=? 7)
    then sumZ (fun f => if own_pawn b c shield_rank f then PAWN_SHIELD_BONUS else 0)
              (zrange (Z.max 0 (king_file - 1)) (Z.min 7 (king_file + 1)))
    else 0 in
  let has_pawn_on_file := existsb (fun r => own_pawn b c r king_file) (zrange 0 7) in
  shield + (if negb has_pawn_on_file then KING_OPEN_FILE_PENALTY else 0).

(** ** Pawn structure *)

Definition own_pawns_on_file (b : Board) (c : Color.t) (f : Z) : Z :=
  sumZ (fun sq => if is_piece (piece_at b sq) PieceType.PAWN c && (file_of sq =? f) then 1 else 0)
       all_squares.

Definition is_passed (b : Board) (c : Color.t) (r f : Z) : bool :=
  let opp_color := opposite_color c in
  let ahead := if bool_decide (c = Color.WHITE) then zrange (r + 1) 7 else rev (zrange 0 (r - 1)) in
  forallb (fun cf => forallb (fun cr => negb (own_pawn b opp_color cr cf)) ahead)
          (zrange (Z.max 0 (f - 1)) (Z.min 7 (f + 1))).

(** The contribution of the pawn of colour [c] on [sq]. *)
Definition pawn_score (b : Board) (c : Color.t) (sq : Z) : Z :=
  let f := file_of sq in
  let r := rank_of sq in
  let has_left := (0 <? f) && (0 <? own_pawns_on_file b c (f - 1)) in
  let has_right := (f <? 7) && (0 <? own_pawns_on_file b c (f + 1)) in
  (if 1 <? own_pawns_on_file b c f then DOUBLED_PAWN_PENALTY else 0) +
  (if negb has_left && negb has_right then ISOLATED_PAWN_PENALTY else 0) +
  (if is_passed b c r f
   then tab PASSED_PAWN_BONUS (if bool_decide (c = Color.WHITE) then r else 7 - r) else 0).

Definition evaluate_pawn_structure (b : Board) (c : Color.t) : Z :=
  sumZ (fun sq => if is_piece (piece_at b sq) PieceType.PAWN c then pawn_score b c sq else 0)
       all_squares.

(** ** Mobility and bishop pair *)

(** The count, and the board after the side to move was set and restored. *)
Definition count_mobility (b : Board) (c : Color.t) : Z * Board :=
  let original := side_to_move_ b in
  let b := set_side_to_move b c in
  let count := Z.of_nat (length (generate_pseudo_legal_moves b)) in
  (count, set_side_to_move b original).

Definition count_bishops (b : Board) (c : Color.t) : Z :=
  sumZ (fun sq => if is_piece (piece_at b sq) PieceType.BISHOP c then 1 else 0) all_squares.

(** ** The total *)

Record EvalBreakdown := mkEval {
  material : Z; pst : Z; king_safety : Z; pawn_structure : Z; mobility : Z; bishop_pair : Z; total : Z
}.

(** Pass 1: [f] summed over the white pieces minus over the others. *)
Definition balance (b : Board) (f : Piece -> Z -> Z) : Z :=
  sumZ (fun sq => let p := piece_at b sq in
                  if is_none p then 0
                  else if bool_decide (color p = Color.WHITE) then f p sq else 0) all_squares -
  sumZ (fun sq => let p := piece_at b sq in
                  if is_none p then 0
                  else if bool_decide (color p = Color.WHITE) then 0 else f p sq) all_squares.

Definition safety_of (b : Board) (c : Color.t) : Z :=
  let k := find_king b c in
  if negb (k =? NO_SQUARE) then evaluate_king_safety b c k else 0.

Definition pair_bonus (b : Board) (c : Color.t) : Z :=
  if 2 <=? count_bishops b c then BISHOP_PAIR_BONUS else 0.

Definition evaluate_detailed (b : Board) : EvalBreakdown :=
  let material := balance b (fun p _ => tab PIECE_VALUE (Z.of_nat (PieceType.index (type p)))) in
  let pst := balance b (fun p sq => pst_bonus (type p) (color p) sq) in
  let king_safety := safety_of b Color.WHITE - safety_of b Color.BLACK in
  let pawn_structure := evaluate_pawn_structure b Color.WHITE - evaluate_pawn_structure b Color.BLACK in
  let '(white_mobility, board_copy) := count_mobility b Color.WHITE in
  let '(black_mobility, _) := count_mobility board_copy Color.BLACK in
  let mobility := (white_mobility - black_mobility) * MOBILITY_WEIGHT in
  let bishop_pair := pair_bonus b Color.WHITE - pair_bonus b Color.BLACK in
  mkEval material pst king_safety pawn_structure mobility bishop_pair
    (material + pst + king_safety + pawn_structure + mobility + bishop_pair).

Definition evaluate (b : Board) : Z :=
  if bool_decide (side_to_move_ b = Color.WHITE) then total (evaluate_detailed b)
  else - total (evaluate_detailed b).
