(* ===== verification/Engine.v ===== *)
(** * The search engine: src/src/chess/engine.cpp

    Alpha-beta with quiescence and a transposition table.  The board is mutated
    and restored in place, so every search function also returns the board it
    leaves.  What the code reads from outside is a parameter: [stopped] and [now]
    are the successive readings of the stop flag and of [steady_clock], [sort] is
    [std::sort] with the comparator [a.first > b.first], whose order among equal
    scores the C++ standard leaves open. *)
From S2P Require Import Prelude Types BoardState Zobrist Board MoveGen Fen Evaluator TransTable.

Definition SCORE_INFINITY : Z := 1000000.
Definition SCORE_MATE : Z := 900000.
Definition SCORE_DRAW : Z := 0.

Definition MVV_LVA_VICTIM : list Z := [100; 320; 330; 500; 900; 20000; 0].
Definition MVV_LVA_ATTACKER : list Z := [100; 320; 330; 500; 900; 20000; 0].

Definition mvv_lva_score (victim attacker : PieceType.t) : Z :=
  tab MVV_LVA_VICTIM (Z.of_nat (PieceType.index victim)) * 10 -
  tab MVV_LVA_ATTACKER (Z.of_nat (PieceType.index attacker)).

(** The score of one move for ordering. *)
Definition order_score (b : Board) (tt_move m : Move) : Z :=
  let has_tt_move := negb (from tt_move =? to tt_move) || negb (flags tt_move =? 0) in
  if has_tt_move && (from m =? from tt_move) && (to m =? to tt_move) &&
     bool_decide (promo_type m = promo_type tt_move) then 30000
  else
    let victim := piece_at b (to m) in
    if negb (is_none victim)
    then 10000 + mvv_lva_score (type victim) (type (piece_at b (from m)))
    else if is_en_passant m then 10000 + mvv_lva_score PieceType.PAWN PieceType.PAWN
    else 0.

(** Statistics, table and the count of readings made so far. *)
Record SearchState := mkSearch { ss_tt : TransTable; ss_nodes : Z; ss_tick : nat }.

Record SearchResult := mkResult {
  sr_best_move : Move; sr_score : Z; sr_depth : Z; sr_nodes : Z; sr_elapsed_ms : Z
}.

Record Engine := mkEngine { eng_board : Board; eng_tt : TransTable }.

Definition new_engine (tt_size_mb : Z) : Engine := mkEngine starting_position (resize tt_size_mb).
Definition set_position (e : Engine) (b : Board) : Engine := mkEngine b (eng_tt e).

Section search.
Context (stopped : nat -> bool) (now : nat -> Z) (sort : list (Z * nat) -> list (Z * nat)).

Definition order_moves (moves : list Move) (b : Board) (tt_move : Move) : list Move :=
  let scores := zip (map (order_score b tt_move) moves) (seq 0 (length moves)) in
  map (fun '(_, idx) => nth idx moves null_move) (sort scores).

Section deadline.
Context (deadline : Z).

(** [time_up]: one reading of the flag and of the clock. *)
Definition time_up (st : SearchState) : bool * SearchState :=
  (stopped (ss_tick st) || (deadline <=? now (ss_tick st)),
   mkSearch (ss_tt st) (ss_nodes st) (S (ss_tick st))).

Definition count_node (st : SearchState) : SearchState :=
  mkSearch (ss_tt st) (ss_nodes st + 1) (ss_tick st).

(** A search of a child position within a window. *)
Definition Child : Type := Board -> Z -> Z -> SearchState -> Z * Board * SearchState.

(** The loop of [quiescence]. *)
Fixpoint q_loop (rec : Child) (checked : bool) (beta : Z) (moves : list Move) (b : Board)
    (alpha : Z) (st : SearchState) : Z * Board * SearchState :=
  match moves with
  | [] => (alpha, b, st)
  | m :: moves =>
      if negb checked && is_none (piece_at b (to m)) && negb (is_en_passant m) &&
         negb (is_promotion m)
      then q_loop rec checked beta moves b alpha st
      else
        let '(b, undo) := make_move b m in
        let '(s, b, st) := rec b (- beta) (- alpha) st in
        let score := - s in
        let b := undo_move b m undo in
        let '(up, st) := time_up st in
        if up then (0, b, st)
        else if beta <=? score then (score, b, st)
        else q_loop rec checked beta moves b (Z.max alpha score) st
  end.

(** [quiescence]: the recursion ends at ply 64. *)
Fixpoint quiescence (fuel : nat) (ply : Z) (b : Board) (alpha beta : Z) (st : SearchState)
    : Z * Board * SearchState :=
  match fuel with
  | O => (0, b, st)
  | S fuel =>
      let st := count_node st in
      let '(up, st) := time_up st in
      if up then (0, b, st) else
      let moves := generate_legal_moves b in
      let checked := is_in_check b (side_to_move_ b) in
      match moves with
      | [] => (if checked then - (SCORE_MATE - ply) else SCORE_DRAW, b, st)
      | _ =>
          if 100 <=? halfmove_clock_ b then (SCORE_DRAW, b, st) else
          if 64 <=? ply then (evaluate b, b, st) else
          let stand_pat := evaluate b in
          if negb checked && (beta <=? stand_pat) then (stand_pat, b, st) else
          let alpha := if checked then alpha else Z.max alpha stand_pat in
          q_loop (quiescence fuel (ply + 1)) checked beta (order_moves moves b null_move) b alpha st
      end
  end.

(** Plies a quiescence search can still go down. *)
Definition q_fuel (ply : Z) : nat := Z.to_nat (65 - ply) + 1.

(** The move loop of [alpha_beta]; the flag tells whether time ran out. *)
Fixpoint ab_loop (rec : Child) (beta : Z) (moves : list Move) (b : Board) (alpha best_score : Z)
    (best : Move) (st : SearchState) : Z * Move * bool * Board * SearchState :=
  match moves with
  | [] => (best_score, best, false, b, st)
  | m :: moves =>
      let '(b, undo) := make_move b m in
      let '(s, b, st) := rec b (- beta) (- alpha) st in
      let score := - s in
      let b := undo_move b m undo in
      let '(up, st) := time_up st in
      if up then (best_score, best, true, b, st) else
      let '(best_score, best) := if best_score <? score then (score, m) else (best_score, best) in
      let alpha := if alpha <? score then score else alpha in
      if beta <=? alpha then (best_score, best, false, b, st)
      else ab_loop rec beta moves b alpha best_score best st
  end.

Definition node_bound (best_score orig_alpha beta : Z) : TTNodeType.t :=
  if beta <=? best_score then TTNodeType.LOWER_BOUND
  else if orig_alpha <? best_score then TTNodeType.EXACT else TTNodeType.UPPER_BOUND.

Definition with_tt (st : SearchState) (t : TransTable) : SearchState :=
  mkSearch t (ss_nodes st) (ss_tick st).

Fixpoint alpha_beta (depth : nat) (ply : Z) (b : Board) (alpha beta : Z) (st : SearchState)
    : Z * Board * SearchState :=
  let st := count_node st in
  let '(up, st) := time_up st in
  if up then (0, b, st) else
  if 100 <=? halfmove_clock_ b then (SCORE_DRAW, b, st) else
  let k := zobrist_key_ b in
  let '(hit, tt_score, tt_move) :=
    if 0 <? ply then probe (ss_tt st) k (Z.of_nat depth) ply alpha beta 0 null_move
    else (false, 0, snd (probe_move (ss_tt st) k null_move)) in
  if hit then (tt_score, b, st) else
  match depth with
  | O => quiescence (q_fuel ply) ply b alpha beta st
  | S depth' =>
      match generate_legal_moves b with
      | [] => (if is_in_check b (side_to_move_ b) then - (SCORE_MATE - ply) else SCORE_DRAW, b, st)
      | legal =>
          let moves := order_moves legal b tt_move in
          let '(best_score, best, aborted, b, st) :=
            ab_loop (alpha_beta depth' (ply + 1)) beta moves b alpha (- SCORE_INFINITY)
              (hd null_move moves) st in
          if aborted then (best_score, b, st) else
          let '(up, st) := time_up st in
          if up then (best_score, b, st) else
          (best_score, b,
           with_tt st (store (ss_tt st) k (Z.of_nat depth) ply best_score
                         (node_bound best_score alpha beta) best))
      end
  end.

(** The root loop of one iteration: best score, best move, board, state. *)
Fixpoint root_loop (depth' : nat) (moves : list Move) (b : Board) (alpha best_score : Z)
    (best : Move) (st : SearchState) : Z * Move * Board * SearchState :=
  match moves with
  | [] => (best_score, best, b, st)
  | m :: moves =>
      let '(up, st) := time_up st in
      if up then (best_score, best, b, st) else
      let '(b, undo) := make_move b m in
      let '(s, b, st) := alpha_beta depth' 1 b (- SCORE_INFINITY) (- alpha) st in
      let score := - s in
      let b := undo_move b m undo in
      let '(best_score, best) := if best_score <? score then (score, m) else (best_score, best) in
      let alpha := if alpha <? score then score else alpha in
      root_loop depth' moves b alpha best_score best st
  end.

(** The iterative deepening loop, with [n] iterations left before [max_depth]. *)
Fixpoint deepen (n : nat) (depth : nat) (b : Board) (root_moves : list Move) (res : SearchResult)
    (st : SearchState) : SearchResult * Board * SearchState :=
  match n with
  | O => (res, b, st)
  | S n =>
      let '(up, st) := time_up st in
      if up then (res, b, st) else
      let first := hd null_move root_moves in
      let tt_root_move := snd (probe_move (ss_tt st) (zobrist_key_ b) (sr_best_move res)) in
      let root_moves := order_moves root_moves b tt_root_move in
      let '(best_score, best, b, st) :=
        root_loop (depth - 1) root_moves b (- SCORE_INFINITY) (- SCORE_INFINITY) first st in
      let '(up, st) := time_up st in
      let '(res, st) :=
        if negb up then
          (mkResult best best_score (Z.of_nat depth) (sr_nodes res) (sr_elapsed_ms res),
           with_tt st (store (ss_tt st) (zobrist_key_ b) (Z.of_nat depth) 0 best_score
                         TTNodeType.EXACT best))
        else (res, st) in
      if SCORE_MATE - 100 <=? Z.abs (sr_score res) then (res, b, st)
      else deepen n (S depth) b root_moves res st
  end.
End deadline.

(** [Engine::search]: the result and the engine afterwards. *)
Definition search (e : Engine) (time_limit_ms max_depth : Z) : SearchResult * Engine :=
  let start := now 0 in
  let deadline := start + time_limit_ms * 1000000 in
  let st := mkSearch (new_search (eng_tt e)) 0 1 in
  match generate_legal_moves (eng_board e) with
  | [] => (mkResult null_move 0 0 0 0, mkEngine (eng_board e) (ss_tt st))
  | m :: root =>
      let '(res, b, st) :=
        deepen deadline (Z.to_nat max_depth) 1 (eng_board e) (m :: root)
          (mkResult m 0 0 0 0) st in
      let elapsed := Z.quot (now (ss_tick st) - start) 1000000 in
      (mkResult (sr_best_move res) (sr_score res) (sr_depth res) (ss_nodes st)
                ((elapsed + 2 ^ 31) mod 2 ^ 32 - 2 ^ 31),
       mkEngine b (ss_tt st))
  end.
End search.

(** ** A concrete stable sort *)

Fixpoint insert_score (x : Z * nat) (l : list (Z * nat)) : list (Z * nat) :=
  match l with
  | [] => [x]
  | y :: l' => if fst x <? fst y then y :: insert_score x l' else x :: l
  end.
Definition sort_scores (l : list (Z * nat)) : list (Z * nat) := fold_right insert_score [] l.

(** ** The callers: [EngineMoveSelector::select] and [AIPlayer::compute_move] *)

Record SearchLimits := mkLimits { max_depth : Z; time_ms : Z }.

Record MoveChoice := mkChoice { mc_from : Z; mc_to : Z; mc_promotion : PieceType.t; mc_nodes : Z;
                                mc_elapsed_ms : Z }.

Definition select (stopped : nat -> bool) (now : nat -> Z) (sort : list (Z * nat) -> list (Z * nat))
    (e : Engine) (b : Board) (limits : SearchLimits) : MoveChoice * Engine :=
  let '(r, e) := search stopped now sort (set_position e b) (time_ms limits) (max_depth limits) in
  (mkChoice (from (sr_best_move r)) (to (sr_best_move r)) (promo_type (sr_best_move r))
            (sr_nodes r) (sr_elapsed_ms r), e).
