(* ===== verification/EngineSpec.v ===== *)
(** * What a search guarantees, whatever the clock and the table say

    For any readings of the stop flag and of the clock and any contents of the
    transposition table, a search restores the board it was given, answers with a
    legal move, and its quiescence recursion never runs out of plies. *)
From Stdlib Require Import Permutation.
From S2P Require Import Prelude Types BoardState Zobrist Board MoveGen Fen Rules Position MakeMove Hashing Preservation Legality Evaluator TransTable Engine.

Section search.
Context (stopped : nat -> bool) (now : nat -> Z) (sort : list (Z * nat) -> list (Z * nat)).
(** [std::sort] rearranges its range. *)
Context (sort_perm : forall l, Permutation (sort l) l).

Notation order_moves := (order_moves sort).

Lemma map_nth_seq {A} (l : list A) d : map (fun i => nth i l d) (seq 0 (length l)) = l.
Proof.
  induction l as [|x l IH]; [done|]. cbn [length seq map nth]. rewrite <- seq_shift, map_map.
  by rewrite IH.
Qed.

Lemma map_snd_zip {A B} (l : list A) (k : list B) : length l = length k -> map snd (zip l k) = k.
Proof. revert k. induction l as [|x l IH]; intros [|y k]; cbn; try done. intros [= H]. by rewrite IH. Qed.

(** Ordering neither loses, invents nor repeats moves. *)
Lemma order_moves_perm moves b tt : Permutation (order_moves moves b tt) moves.
Proof.
  unfold Engine.order_moves. set (scores := zip _ _).
  transitivity (map (fun '(_, idx) => nth idx moves null_move) scores).
  { by apply Permutation_map. }
  assert (map snd scores = seq 0 (length moves)) as Hs
    by (apply map_snd_zip; rewrite length_map, length_seq; done).
  assert (map (fun '(_, idx) => nth idx moves null_move) scores = moves) as ->; [|done].
  etransitivity; [|apply (map_nth_seq moves null_move)]. rewrite <- Hs, map_map.
  by apply map_ext; intros [? ?].
Qed.

Lemma in_order_moves moves b tt m : In m (order_moves moves b tt) <-> In m moves.
Proof.
  split; apply Permutation_in; [|symmetry]; apply order_moves_perm.
Qed.

Section deadline.
Context (deadline : Z).
Notation time_up := (time_up stopped now deadline).
Notation quiescence := (quiescence stopped now sort deadline).
Notation q_loop := (q_loop stopped now deadline).
Notation alpha_beta := (alpha_beta stopped now sort deadline).
Notation ab_loop := (ab_loop stopped now deadline).
Notation root_loop := (root_loop stopped now sort deadline).
Notation deepen := (deepen stopped now sort deadline).

(** ** The board is restored *)

(** A child search leaves a well-formed board as it found it. *)
Definition restores (rec : Child) : Prop :=
  forall b alpha beta st, game_board b -> snd (fst (rec b alpha beta st)) = b.

Lemma child_restores rec b m alpha beta st :
  restores rec -> game_board b -> In m (generate_legal_moves b) ->
  let '(b1, undo) := make_move b m in
  let '(s, b2, st') := rec b1 alpha beta st in undo_move b2 m undo = b.
Proof.
  intros Hr Hb Hm. pose proof (undo_legal b m (proj1 Hb) Hm) as Hu.
  pose proof (Hr (after_move b m) alpha beta st (game_board_after b m Hb Hm)) as H.
  unfold after_move in *. destruct (make_move b m) as [b1 u]. cbn [fst snd] in *.
  destruct (rec b1 alpha beta st) as [[s b2] st']. cbn [fst snd] in H. by subst b2.
Qed.

Lemma q_loop_restores rec checked beta moves b alpha st :
  restores rec -> game_board b -> (forall m, In m moves -> In m (generate_legal_moves b)) ->
  snd (fst (q_loop rec checked beta moves b alpha st)) = b.
Proof.
  intros Hr Hb. revert alpha st. induction moves as [|m moves IH]; intros alpha st Hm;
    cbn [Engine.q_loop]; [done|].
  destruct (_ && _ && _ && _); [apply IH; intros; apply Hm; by right|].
  pose proof (child_restores rec b m (- beta) (- alpha) st Hr Hb (Hm m (or_introl eq_refl))) as Hc.
  destruct (make_move b m) as [b1 u]. destruct (rec b1 _ _ st) as [[s b2] st']. rewrite Hc.
  destruct (time_up st') as [[] st2]; [done|]. destruct (_ <=? _); [done|].
  apply IH. intros. apply Hm. by right.
Qed.

Lemma quiescence_restores fuel ply : restores (quiescence fuel ply).
Proof.
  revert ply. induction fuel as [|fuel IH]; intros ply b alpha beta st Hb;
    cbn [Engine.quiescence]; [done|].
  destruct (time_up _) as [[] st']; [done|].
  destruct (generate_legal_moves b) as [|m ms] eqn:E; [done|].
  destruct (100 <=? _); [done|]. destruct (64 <=? ply); [done|]. cbv zeta.
  destruct (_ && _); [done|]. apply q_loop_restores; [apply IH|done|].
  intros x Hx. by rewrite in_order_moves, <- E in Hx.
Qed.

Lemma ab_loop_restores rec beta moves b alpha bs bm st :
  restores rec -> game_board b -> (forall m, In m moves -> In m (generate_legal_moves b)) ->
  snd (fst (ab_loop rec beta moves b alpha bs bm st)) = b.
Proof.
  intros Hr Hb. revert alpha bs bm st. induction moves as [|m moves IH]; intros alpha bs bm st Hm;
    cbn [Engine.ab_loop]; [done|].
  pose proof (child_restores rec b m (- beta) (- alpha) st Hr Hb (Hm m (or_introl eq_refl))) as Hc.
  destruct (make_move b m) as [b1 u]. destruct (rec b1 _ _ st) as [[s b2] st']. rewrite Hc.
  destruct (time_up st') as [[] st2]; [done|].
  destruct (if bs <? - s then _ else _) as [bs' bm']. destruct (beta <=? _); [done|].
  apply IH. intros. apply Hm. by right.
Qed.

Lemma alpha_beta_restores depth ply : restores (alpha_beta depth ply).
Proof.
  revert ply. induction depth as [|depth IH]; intros ply b alpha beta st Hb;
    cbn [Engine.alpha_beta]; destruct (time_up _) as [[] st']; try done;
    (destruct (100 <=? _); [done|]); cbv zeta;
    (destruct (if 0 <? ply then _ else _) as [[hit tts] ttm]); (destruct hit; [done|]).
  - by apply quiescence_restores.
  - destruct (generate_legal_moves b) as [|m ms] eqn:E; [done|].
    pose proof (ab_loop_restores (alpha_beta depth (ply + 1)) beta
      (order_moves (m :: ms) b ttm) b alpha (- SCORE_INFINITY)
      (hd null_move (order_moves (m :: ms) b ttm)) st' (IH (ply + 1)) Hb) as Hl.
    destruct (ab_loop _ _ _ _ _ _ _ _) as [[[[bs bm] ab] b2] st2]. cbn [fst snd] in Hl.
    rewrite Hl by (intros x Hx; by rewrite in_order_moves, <- E in Hx).
    destruct ab; [done|]. by destruct (time_up st2) as [[] st3].
Qed.

Lemma root_loop_spec depth moves b alpha bs bm st :
  game_board b -> (forall m, In m moves -> In m (generate_legal_moves b)) ->
  let '(_, bm', b', _) := root_loop depth moves b alpha bs bm st in
  b' = b /\ (bm' = bm \/ In bm' moves).
Proof.
  intros Hb. revert alpha bs bm st. induction moves as [|m moves IH]; intros alpha bs bm st Hm;
    cbn [Engine.root_loop]; [by auto|].
  destruct (time_up st) as [[] st1]; [by auto|].
  pose proof (child_restores _ b m (- SCORE_INFINITY) (- alpha) st1 (alpha_beta_restores depth 1) Hb
                (Hm m (or_introl eq_refl))) as Hc.
  destruct (make_move b m) as [b1 u]. destruct (alpha_beta depth 1 b1 _ _ st1) as [[s b2] st'].
  rewrite Hc. destruct (if bs <? - s then (- s, m) else (bs, bm)) as [bs' bm'] eqn:E.
  specialize (IH (if alpha <? - s then - s else alpha) bs' bm' st'
                (fun m' H => Hm m' (or_intror H))).
  destruct (root_loop depth moves b _ bs' bm' st') as [[[s2 bm2] b3] st3].
  destruct IH as [-> Hbm]. split; [done|].
  destruct (bs <? - s); injection E as _ <-; destruct Hbm as [->|?]; cbn; auto.
Qed.

Lemma deepen_spec n depth b root res st :
  game_board b -> root <> [] -> (forall m, In m root -> In m (generate_legal_moves b)) ->
  In (sr_best_move res) (generate_legal_moves b) ->
  let '(res', b', _) := deepen n depth b root res st in
  b' = b /\ In (sr_best_move res') (generate_legal_moves b).
Proof.
  intros Hb. revert depth root res st. induction n as [|n IH]; intros depth root res st Hne Hroot Hres;
    cbn [Engine.deepen]; [done|].
  destruct (time_up st) as [[] st1]; [done|]. cbv zeta.
  set (tt := snd (probe_move _ _ _)). set (ordered := order_moves root b tt).
  assert (forall m, In m ordered -> In m (generate_legal_moves b)) as Hord.
  { intros m Hm. apply Hroot. by apply in_order_moves in Hm. }
  assert (In (hd null_move root) (generate_legal_moves b)) as Hfirst.
  { apply Hroot. destruct root; [done|]. by left. }
  assert (ordered <> []) as Hone.
  { intros E. apply Hne, Permutation_nil. unfold ordered in E. rewrite <- E. apply order_moves_perm. }
  pose proof (root_loop_spec (depth - 1) ordered b (- SCORE_INFINITY) (- SCORE_INFINITY)
                (hd null_move root) st1 Hb Hord) as Hrl.
  destruct (root_loop _ ordered b _ _ _ st1) as [[[bs bm] b2] st2].
  destruct Hrl as [-> Hbm].
  assert (In bm (generate_legal_moves b)) as Hlegal by (destruct Hbm as [->|?]; auto).
  destruct (time_up st2) as [up st3]. destruct up; cbn [negb].
  - destruct (_ <=? _); [done|]. by apply IH.
  - destruct (_ <=? _); [done|]. by apply IH.
Qed.

(** ** Fuel: the quiescence recursion ends by itself *)

Lemma q_loop_ext rec1 rec2 checked beta moves b alpha st :
  (forall b a be st, rec1 b a be st = rec2 b a be st) ->
  q_loop rec1 checked beta moves b alpha st = q_loop rec2 checked beta moves b alpha st.
Proof.
  intros He. revert b alpha st. induction moves as [|m moves IH]; intros b alpha st;
    cbn [Engine.q_loop]; [done|].
  destruct (_ && _ && _ && _); [apply IH|]. destruct (make_move b m) as [b1 u]. rewrite He.
  destruct (rec2 b1 _ _ st) as [[s b2] st']. destruct (time_up st') as [[] st2]; [done|].
  destruct (_ <=? _); [done|apply IH].
Qed.

Lemma quiescence_fuel f1 f2 ply b alpha beta st :
  64 - ply < Z.of_nat f1 -> 64 - ply < Z.of_nat f2 -> (0 < f1)%nat -> (0 < f2)%nat ->
  quiescence f1 ply b alpha beta st = quiescence f2 ply b alpha beta st.
Proof.
  revert f2 ply b alpha beta st. induction f1 as [|f1 IH]; intros [|f2] ply b alpha beta st H1 H2 P1 P2;
    try lia.
  cbn [Engine.quiescence]. destruct (time_up _) as [[] st']; [done|].
  destruct (generate_legal_moves b) as [|m ms]; [done|].
  destruct (100 <=? _); [done|]. destruct (Z.leb_spec 64 ply); [done|]. cbv zeta.
  destruct (_ && _); [done|]. apply q_loop_ext. intros. apply IH; lia.
Qed.
End deadline.

(** ** The public function *)

Lemma search_spec e limit depth :
  game_board (eng_board e) -> generate_legal_moves (eng_board e) <> [] ->
  eng_board (snd (search stopped now sort e limit depth)) = eng_board e /\
  In (sr_best_move (fst (search stopped now sort e limit depth))) (generate_legal_moves (eng_board e)).
Proof.
  intros Hb Hne. unfold search. destruct (generate_legal_moves (eng_board e)) as [|m root] eqn:E; [done|].
  pose proof (deepen_spec (now 0 + limit * 1000000) (Z.to_nat depth) 1 (eng_board e) (m :: root)
                (mkResult m 0 0 0 0) (mkSearch (new_search (eng_tt e)) 0 1) Hb) as H.
  rewrite E in H. specialize (H ltac:(done) (fun m H => H) ltac:(by left)).
  destruct (deepen _ _ _ _ _ _ _ _ _ _) as [[res b] st]. destruct H as [-> Hin]. by split.
Qed.

(** Without a legal move the answer is the null move. *)
Lemma search_none e limit depth :
  generate_legal_moves (eng_board e) = [] ->
  sr_best_move (fst (search stopped now sort e limit depth)) = null_move.
Proof. unfold search. by intros ->. Qed.

(** A zero depth or a zero time limit searches nothing. *)
Lemma search_degenerate e limit depth m root :
  generate_legal_moves (eng_board e) = m :: root ->
  depth = 0 \/ limit = 0 /\ now 0 <= now 1%nat ->
  sr_best_move (fst (search stopped now sort e limit depth)) = m /\
  sr_depth (fst (search stopped now sort e limit depth)) = 0 /\
  sr_nodes (fst (search stopped now sort e limit depth)) = 0.
Proof.
  intros E Hz. unfold search. rewrite E.
  assert (deepen stopped now sort (now 0 + limit * 1000000) (Z.to_nat depth) 1 (eng_board e) (m :: root)
            (mkResult m 0 0 0 0) (mkSearch (new_search (eng_tt e)) 0 1) =
          (mkResult m 0 0 0 0, eng_board e, mkSearch (new_search (eng_tt e)) 0 1) \/
          deepen stopped now sort (now 0 + limit * 1000000) (Z.to_nat depth) 1 (eng_board e) (m :: root)
            (mkResult m 0 0 0 0) (mkSearch (new_search (eng_tt e)) 0 1) =
          (mkResult m 0 0 0 0, eng_board e, mkSearch (new_search (eng_tt e)) 0 2)) as H.
  { destruct Hz as [->|[-> Hmono]]; [by left|]. destruct (Z.to_nat depth) as [|n]; [by left|]. right.
    cbn [deepen]. unfold time_up. cbn [ss_tick ss_tt ss_nodes].
    rewrite (proj2 (Z.leb_le _ _)) by lia. by rewrite orb_true_r. }
  by destruct H as [-> | ->].
Qed.
End search.
