(* ===== verification/EvaluatorSpec.v ===== *)
(** * Bounds and facts about the static evaluation

    A static score never reaches the range that encodes mates, the mobility count
    leaves the board it works on unchanged, and the piece-square tables are read
    with the ranks reversed. *)
From S2P Require Import Prelude Types BoardState Zobrist Board MoveGen Fen FenRoundTrip Rules Position MakeMove Hashing Preservation Legality Evaluator TransTable.

(** ** Sums *)

Lemma sumZ_bound {A} (f : A -> Z) l lo hi :
  (forall x, In x l -> lo <= f x <= hi) ->
  lo * Z.of_nat (length l) <= sumZ f l <= hi * Z.of_nat (length l).
Proof.
  induction l as [|x l IH]; intros H; [cbn; lia|]. unfold sumZ in *. cbn [fold_right length].
  pose proof (H x (or_introl eq_refl)). specialize (IH (fun y Hy => H y (or_intror Hy))). lia.
Qed.

Lemma sumZ_add {A} (f g : A -> Z) l : sumZ (fun x => f x + g x) l = sumZ f l + sumZ g l.
Proof. unfold sumZ. induction l as [|x l IH]; cbn [fold_right]; lia. Qed.

Lemma sumZ_ext {A} (f g : A -> Z) l : (forall x, In x l -> f x = g x) -> sumZ f l = sumZ g l.
Proof.
  unfold sumZ. induction l as [|x l IH]; intros H; [done|]. cbn [fold_right].
  rewrite (H x) by by left. f_equal. apply IH. intros y Hy. apply H. by right.
Qed.

Lemma sumZ_single k v l :
  List.NoDup l -> In k l -> sumZ (fun x => if x =? k then v else 0) l = v.
Proof.
  unfold sumZ. induction 1 as [|x l Hx Hnd IH]; [done|]. intros Hin. cbn [fold_right].
  destruct (Z.eqb_spec x k) as [->|Hne].
  - assert (fold_right (fun x n => (if x =? k then v else 0) + n) 0 l = 0) as ->; [|lia].
    clear IH Hin Hnd. induction l as [|y l IH]; [done|]. cbn [fold_right].
    rewrite (proj2 (Z.eqb_neq y k)) by (intros ->; apply Hx; by left). rewrite IH; [done|].
    intros H. apply Hx. by right.
  - destruct Hin as [->|Hin]; [done|]. rewrite IH by done. lia.
Qed.

Lemma length_all_squares : Z.of_nat (length all_squares) = 64.
Proof. reflexivity. Qed.

Lemma tab_bound l lo hi i : List.Forall (fun x => lo <= x <= hi) l -> lo <= 0 <= hi -> lo <= tab l i <= hi.
Proof.
  intros H H0. unfold tab. destruct (Nat.lt_ge_cases (Z.to_nat i) (length l)).
  - rewrite List.Forall_forall in H. by apply H, nth_In.
  - by rewrite nth_overflow.
Qed.

Ltac table_bound :=
  apply tab_bound; [repeat (constructor; [by vm_compute; split|]); constructor|lia].

(** ** Components *)

Lemma pst_bonus_bound t c sq : -50 <= pst_bonus t c sq <= 50.
Proof. unfold pst_bonus. destruct t; try lia; table_bound. Qed.

Lemma balance_bound b f B :
  0 <= B -> (forall p sq, - B <= f p sq <= B) -> Z.abs (balance b f) <= 2 * 64 * B.
Proof.
  intros HB Hf. unfold balance.
  match goal with |- Z.abs (sumZ ?g1 ?l - sumZ ?g2 _) <= _ =>
    pose proof (sumZ_bound g1 l (- B) B); pose proof (sumZ_bound g2 l (- B) B) end.
  rewrite length_all_squares in *.
  assert (forall (p q : bool) (x : Z), - B <= x <= B -> - B <= (if p then 0 else if q then x else 0) <= B /\
                                          - B <= (if p then 0 else if q then 0 else x) <= B) as Hif
    by (intros [] [] x; lia).
  pose proof (H (fun sq _ => proj1 (Hif _ _ _ (Hf _ _)))).
  pose proof (H0 (fun sq _ => proj2 (Hif _ _ _ (Hf _ _)))). lia.
Qed.

(** The value of a piece that is not a king. *)
Definition light_value (p : Piece) : Z :=
  match type p with PieceType.KING => 0 | t => tab PIECE_VALUE (Z.of_nat (PieceType.index t)) end.

Lemma light_value_bound p : 0 <= light_value p <= 900.
Proof. unfold light_value. destruct (type p); vm_compute; split; discriminate. Qed.

(** One side's material: its king, and at most a queen on every other square. *)
Lemma side_material b (keep : Piece -> bool) k :
  valid_sq k -> (forall s, valid_sq s -> keep (piece_at b s) = true ->
                   type (piece_at b s) = PieceType.KING <-> s = k) ->
  keep (piece_at b k) = true ->
  20000 <= sumZ (fun sq => if keep (piece_at b sq)
                  then tab PIECE_VALUE (Z.of_nat (PieceType.index (type (piece_at b sq)))) else 0) all_squares
        <= 20000 + 64 * 900.
Proof.
  intros Hk Hu Hkeep.
  rewrite (sumZ_ext _ (fun sq => (if keep (piece_at b sq) then light_value (piece_at b sq) else 0) +
                                 (if sq =? k then 20000 else 0))).
  - rewrite sumZ_add, sumZ_single by (apply NoDup_all_squares || by apply elem_all_squares).
    match goal with |- _ <= sumZ ?g ?l + _ <= _ => pose proof (sumZ_bound g l 0 900) as H end.
    rewrite length_all_squares in H. lapply H; [intros; lia|]. intros x _.
    pose proof (light_value_bound (piece_at b x)). destruct (keep (piece_at b x)); lia.
  - intros sq Hsq%elem_all_squares. specialize (Hu sq Hsq). unfold light_value.
    destruct (keep (piece_at b sq)) eqn:E.
    + destruct (Z.eqb_spec sq k) as [->|Hne].
      * rewrite (proj2 (Hu eq_refl) eq_refl). reflexivity.
      * destruct (type (piece_at b sq)); try (rewrite Z.add_0_r; reflexivity).
        destruct Hne. by apply Hu.
    + destruct (Z.eqb_spec sq k) as [->|]; [congruence|done].
Qed.

Definition piece_value (p : Piece) (_ : Z) : Z := tab PIECE_VALUE (Z.of_nat (PieceType.index (type p))).

Lemma material_bound b : position_ok b -> Z.abs (balance b piece_value) <= 64 * 900.
Proof.
  intros Hok. unfold balance, piece_value.
  assert (forall c, c <> Color.NONE -> forall s k, king_at b c k -> valid_sq s -> color (piece_at b s) = c ->
            type (piece_at b s) = PieceType.KING <-> s = k) as Hking.
  { intros c Hc s k [Hk Hu] Hs Hcol. rewrite <- (Hu s Hs). split; [|by intros ->].
    destruct (piece_at b s); cbn in *. by intros ->; subst. }
  destruct (ok_king b Hok Color.WHITE ltac:(done)) as [kw Hw].
  destruct (ok_king b Hok Color.BLACK ltac:(done)) as [kb Hb].
  pose proof (proj2 (proj2 Hw kw (proj1 Hw)) eq_refl) as Pw.
  pose proof (proj2 (proj2 Hb kb (proj1 Hb)) eq_refl) as Pb.
  pose proof (side_material b (fun p => bool_decide (color p = Color.WHITE)) kw (proj1 Hw)) as Sw.
  pose proof (side_material b (fun p => bool_decide (color p = Color.BLACK)) kb (proj1 Hb)) as Sb.
  cbn beta in Sw, Sb.
  rewrite (sumZ_ext (fun sq => if is_none (piece_at b sq) then 0
              else if bool_decide (color (piece_at b sq) = Color.WHITE) then _ else 0)
            (fun sq => if bool_decide (color (piece_at b sq) = Color.WHITE)
                       then tab PIECE_VALUE (Z.of_nat (PieceType.index (type (piece_at b sq)))) else 0)).
  - rewrite (sumZ_ext (fun sq => if is_none (piece_at b sq) then 0
              else if bool_decide (color (piece_at b sq) = Color.WHITE) then 0 else _)
            (fun sq => if bool_decide (color (piece_at b sq) = Color.BLACK)
                       then tab PIECE_VALUE (Z.of_nat (PieceType.index (type (piece_at b sq)))) else 0)).
    + lapply Sw; [clear Sw; intros Sw; lapply Sw; [|by rewrite Pw]|].
      * lapply Sb; [clear Sb; intros Sb; lapply Sb; [lia|by rewrite Pb]|].
        intros s Hs Hc%bool_decide_eq_true. by apply (Hking Color.BLACK).
      * intros s Hs Hc%bool_decide_eq_true. by apply (Hking Color.WHITE).
    + intros s Hs%elem_all_squares. pose proof (ok_pieces b Hok s Hs) as Hp.
      destruct (piece_at b s) as [[] []]; unfold piece_ok in Hp; cbn in *; intuition congruence.
  - intros s Hs%elem_all_squares. pose proof (ok_pieces b Hok s Hs) as Hp.
    destruct (piece_at b s) as [[] []]; unfold piece_ok in Hp; cbn in *; intuition congruence.
Qed.

Lemma length_zrange a b : Z.of_nat (length (zrange a b)) = Z.max 0 (b - a + 1).
Proof. unfold zrange. rewrite length_map, length_seq. lia. Qed.

Lemma king_safety_bound b c k : -25 <= evaluate_king_safety b c k <= 30.
Proof.
  unfold evaluate_king_safety, KING_OPEN_FILE_PENALTY.
  match goal with |- context [sumZ ?g ?l] => pose proof (sumZ_bound g l 0 10) as H end.
  rewrite length_zrange in H. lapply H; [clear H; intros H|].
  - set (s := sumZ _ _) in *. destruct (_ && _ && _), (negb _); lia.
  - intros f _. unfold PAWN_SHIELD_BONUS. destruct (own_pawn _ _ _ _); lia.
Qed.

Lemma safety_of_bound b c : -25 <= safety_of b c <= 30.
Proof. unfold safety_of. destruct (negb _); [apply king_safety_bound|lia]. Qed.

Lemma pawn_score_bound b c sq : -35 <= pawn_score b c sq <= 90.
Proof.
  unfold pawn_score, DOUBLED_PAWN_PENALTY, ISOLATED_PAWN_PENALTY.
  match goal with |- context [tab PASSED_PAWN_BONUS ?i] =>
    assert (0 <= tab PASSED_PAWN_BONUS i <= 90) by table_bound; set (t := tab PASSED_PAWN_BONUS i) in * end.
  destruct (1 <? _), (negb _ && negb _), (is_passed _ _ _ _); lia.
Qed.

Lemma pawn_structure_bound b c : -35 * 64 <= evaluate_pawn_structure b c <= 90 * 64.
Proof.
  unfold evaluate_pawn_structure.
  match goal with |- _ <= sumZ ?g ?l <= _ => pose proof (sumZ_bound g l (-35) 90) as H end.
  rewrite length_all_squares in H. lapply H; [intros; lia|]. intros s _.
  pose proof (pawn_score_bound b c s). destruct (is_piece _ _ _); lia.
Qed.

Lemma pair_bonus_bound b c : 0 <= pair_bonus b c <= 30.
Proof. unfold pair_bonus, BISHOP_PAIR_BONUS. destruct (_ <=? _); lia. Qed.

Lemma mobility_count b c : 0 <= fst (count_mobility b c) <= 64 * 64.
Proof.
  unfold count_mobility. cbn [fst]. pose proof (length_pseudo_legal (set_side_to_move b c)). lia.
Qed.

Lemma total_eq b :
  total (evaluate_detailed b) =
  balance b piece_value + balance b (fun p sq => pst_bonus (type p) (color p) sq) +
  (safety_of b Color.WHITE - safety_of b Color.BLACK) +
  (evaluate_pawn_structure b Color.WHITE - evaluate_pawn_structure b Color.BLACK) +
  (fst (count_mobility b Color.WHITE) -
   fst (count_mobility (snd (count_mobility b Color.WHITE)) Color.BLACK)) * MOBILITY_WEIGHT +
  (pair_bonus b Color.WHITE - pair_bonus b Color.BLACK).
Proof. reflexivity. Qed.

Lemma evaluate_bound b : position_ok b -> Z.abs (evaluate b) < TT_MATE_BOUND.
Proof.
  intros Hok. assert (Z.abs (total (evaluate_detailed b)) < TT_MATE_BOUND) as H.
  { rewrite total_eq. pose proof (material_bound b Hok).
    pose proof (balance_bound b (fun p sq => pst_bonus (type p) (color p) sq) 50 ltac:(lia)
                  (fun p sq => pst_bonus_bound (type p) (color p) sq)).
    pose proof (safety_of_bound b Color.WHITE). pose proof (safety_of_bound b Color.BLACK).
    pose proof (pawn_structure_bound b Color.WHITE). pose proof (pawn_structure_bound b Color.BLACK).
    pose proof (pair_bonus_bound b Color.WHITE). pose proof (pair_bonus_bound b Color.BLACK).
    pose proof (mobility_count b Color.WHITE).
    pose proof (mobility_count (snd (count_mobility b Color.WHITE)) Color.BLACK).
    unfold TT_MATE_BOUND, MOBILITY_WEIGHT. lia. }
  unfold evaluate. destruct (bool_decide _); lia.
Qed.

(** ** Mobility works on the board in place *)

Lemma count_mobility_restores b c : hash_ok b -> snd (count_mobility b c) = b.
Proof.
  intros Hh. unfold count_mobility. cbn [snd]. set (b1 := set_side_to_move b c).
  exact (recompute_fields b (zobrist_key_ b1) Hh).
Qed.

(** ** The tables are read upside down *)

Lemma pawn_table_reversed f :
  0 <= f < 8 ->
  pst_bonus PieceType.PAWN Color.WHITE (make_square 6 f) < 50 /\
  pst_bonus PieceType.PAWN Color.WHITE (make_square 1 f) = 50.
Proof.
  intros H. assert (f = 0 \/ f = 1 \/ f = 2 \/ f = 3 \/ f = 4 \/ f = 5 \/ f = 6 \/ f = 7) as Hf by lia.
  by destruct Hf as [->|[->|[->|[->|[->|[->|[->| ->]]]]]]]; vm_compute.
Qed.
