(* ===== verification/AIPlayer.v ===== *)
(** * The AI player of game rooms ([game/ai_player.cpp])

    Difficulty presets as search limits, and [AIPlayer::compute_move]: the time
    budget taken from the game clock and the search it starts. The engine it owns is
    passed in and handed back. *)
From Stdlib Require Import Permutation.
From S2P Require Import Prelude Types BoardState Zobrist Board MoveGen Rules Position MakeMove Hashing Preservation Legality RoomState TransTable Engine EngineSpec.

(** [limits_for]. *)
Definition limits_for (d : AIDifficulty.t) : SearchLimits :=
  match d with
  | AIDifficulty.EASY => mkLimits 2 200
  | AIDifficulty.MEDIUM => mkLimits 4 1000
  | AIDifficulty.HARD => mkLimits 6 3000
  | AIDifficulty.MAX => mkLimits 64 5000
  end.

Record AIMove := mkAIMove {
  ai_from : Z; ai_to : Z; ai_promotion : PieceType.t; ai_score : Z; ai_depth : Z;
  ai_nodes : Z; ai_elapsed_ms : Z
}.

(** The limits of one move: the preset, cut down by the clock when there is one. *)
Definition move_limits (d : AIDifficulty.t) (remaining_ms increment_ms : Z) : SearchLimits :=
  let lim := limits_for d in
  if 0 <=? remaining_ms then
    let safe := Z.max 1 (remaining_ms - 50) in
    let budget := Z.max 1 (Z.quot remaining_ms 25 + Z.quot increment_ms 2) in
    mkLimits (max_depth lim) (Z.min (time_ms lim) (Z.min safe budget))
  else lim.

(** The constructor: an engine with a table of 16 MB. *)
Definition new_ai_player : Engine := new_engine 16.

Definition compute_move (stopped : nat -> bool) (now : nat -> Z)
    (sort : list (Z * nat) -> list (Z * nat)) (e : Engine) (b : Board) (d : AIDifficulty.t)
    (remaining_ms increment_ms : Z) : AIMove * Engine :=
  let lim := move_limits d remaining_ms increment_ms in
  let '(r, e) := search stopped now sort (set_position e b) (time_ms lim) (max_depth lim) in
  (mkAIMove (from (sr_best_move r)) (to (sr_best_move r)) (promo_type (sr_best_move r))
            (sr_score r) (sr_depth r) (sr_nodes r) (sr_elapsed_ms r), e).

(** ** The budget *)

Lemma limits_positive d : 0 < time_ms (limits_for d) /\ 0 < max_depth (limits_for d) <= 64.
Proof. by destruct d. Qed.

(** A search never gets more than the clock has left, less the reserve of 50 ms, and
    always gets at least a millisecond. *)
Lemma move_limits_bound d rem inc :
  let lim := move_limits d rem inc in
  1 <= time_ms lim <= time_ms (limits_for d) /\ max_depth lim = max_depth (limits_for d) /\
  (0 <= rem -> time_ms lim <= Z.max 1 (rem - 50)).
Proof.
  cbv zeta. pose proof (limits_positive d). unfold move_limits.
  destruct (Z.leb_spec 0 rem); cbn [time_ms max_depth]; lia.
Qed.

(** Whatever [int] values the clock and the increment have, the budget of
    the source does not overflow. *)
Lemma move_budget_int rem inc :
  0 <= rem < 2 ^ 31 -> - 2 ^ 31 <= inc < 2 ^ 31 ->
  - 2 ^ 31 <= Z.quot rem 25 + Z.quot inc 2 < 2 ^ 31.
Proof. intros. pose proof (Z.quot_rem' rem 25). pose proof (Z.quot_rem' inc 2).
  pose proof (Z.rem_bound_abs rem 25). pose proof (Z.rem_bound_abs inc 2). lia. Qed.

Lemma compute_move_spec stopped now sort e b d rem inc :
  (forall l, Permutation (sort l) l) -> game_board b -> generate_legal_moves b <> [] ->
  let '(mv, e') := compute_move stopped now sort e b d rem inc in
  (exists m, legal b m /\ ai_from mv = from m /\ ai_to mv = to m /\ ai_promotion mv = promo_type m) /\
  eng_board e' = b.
Proof.
  intros Hsort Hb Hne. unfold compute_move.
  pose proof (search_spec stopped now sort Hsort (set_position e b)
    (time_ms (move_limits d rem inc)) (max_depth (move_limits d rem inc)) Hb Hne) as [H1 H2].
  destruct (search _ _ _ _ _ _) as [r e']. cbn [fst snd eng_board set_position] in *.
  split; [|done]. exists (sr_best_move r). split; [|done]. apply legal_spec; [apply Hb|done].
Qed.
