(* ===== verification/Swiss.v ===== *)
(** * Swiss pairing: src/src/tournament/swiss.{h,cpp}

    [pair_swiss_round] and its branch-and-bound search.  A [double] score is kept in
    half points, the only values a tournament produces, so that [llround(2 * score)]
    is exact.  [std::set<PlayerPair>] is only tested for membership and emptiness.
    The vectors [taken] and [chosen], which the search changes before a recursive call
    and restores after it, are arguments of that call; the best round and the table of
    prefixes are threaded through. *)
From S2P Require Import Prelude.
From stdpp Require Import gmap.
Open Scope Z_scope.

(** ** Data *)

Record PlayerStanding := mkStanding {
  player_id : Z; elo : Z; score : Z; whites_played : Z; received_bye : bool; withdrawn : bool
}.
#[export] Instance PlayerStanding_inhabited : Inhabited PlayerStanding :=
  populate (mkStanding 0 1200 0 0 false false).

Record Pairing := mkPairing { white_id : Z; black_id : Z; is_bye : bool }.

(** [PlayerPair]: the identifiers in order. *)
Definition player_pair (a b : Z) : Z * Z := if a <=? b then (a, b) else (b, a).

Definition have_played (played : gset (Z * Z)) (a b : Z) : bool :=
  bool_decide (player_pair a b ∈ played).

Definition higher_seed (a b : PlayerStanding) : bool :=
  if negb (score a =? score b) then score b <? score a
  else if negb (elo a =? elo b) then elo b <? elo a
  else player_id a <? player_id b.

Definition assign_colors (a b : PlayerStanding) : Z * Z :=
  if whites_played a <? whites_played b then (player_id a, player_id b)
  else if whites_played b <? whites_played a then (player_id b, player_id a)
  else if higher_seed a b then (player_id a, player_id b)
  else (player_id b, player_id a).

(** ** Costs *)

Record Cost := mkCost {
  rematches : Z; rating_gap : Z; score_gap : Z; byes : Z; repeated_byes : Z; bye_rank : Z
}.

Definition zero_cost : Cost := mkCost 0 0 0 0 0 0.

(** [Cost::operator<]: the lexicographic order of [std::tie]. *)
Definition cost_lt (c d : Cost) : bool :=
  let lex x y rest := (x <? y) || ((x =? y) && rest) in
  lex (byes c) (byes d) (lex (repeated_byes c) (repeated_byes d) (lex (bye_rank c) (bye_rank d)
    (lex (rematches c) (rematches d) (lex (rating_gap c) (rating_gap d)
      (score_gap c <? score_gap d))))).

Definition cost_add (c d : Cost) : Cost :=
  mkCost (rematches c + rematches d) (rating_gap c + rating_gap d) (score_gap c + score_gap d)
         (byes c + byes d) (repeated_byes c + repeated_byes d) (bye_rank c + bye_rank d).

(** ** The search *)

Record PairingSearch := mkPairingSearch {
  best : option (Cost * list (nat * nat));
  prefixes : gmap (list bool) Cost
}.

Section search.
Context (pool : list PlayerStanding) (played forbidden : gset (Z * Z)).

Definition player (i : nat) : PlayerStanding := pool !!! i.

(** The matrix [edge]; its diagonal is not used. *)
Definition edge (i j : nat) : Cost :=
  mkCost (if have_played played (player_id (player i)) (player_id (player j)) then 1 else 0)
         (Z.abs (elo (player i) - elo (player j)))
         (Z.abs (score (player i) - score (player j))) 0 0 0.

Definition bye_cost (i : nat) : Cost :=
  mkCost 0 0 0 1 (if received_bye (player i) then 1 else 0) (Z.of_nat (length pool - i)).

Definition is_free (taken : list bool) (i : nat) : bool := negb (nth i taken true).
Definition free_seats (taken : list bool) : list nat :=
  List.filter (is_free taken) (seq 0 (length taken)).

(** [while (i < n && taken[i]) ++i;] *)
Fixpoint first_free (taken : list bool) : nat :=
  match taken with true :: taken => S (first_free taken) | _ => 0 end.

Definition mark (i : nat) (taken : list bool) : list bool := <[i := true]> taken.

(** [fresh]: some free opponent has not been met. *)
Definition has_fresh (taken : list bool) (a : nat) : bool :=
  existsb (fun b => negb (a =? b)%nat && is_free taken b && (rematches (edge a b) =? 0))
          (seq 0 (length taken)).

Fixpoint adjacent_gaps (l : list Z) : Z :=
  match l with x :: y :: l => (y - x) + adjacent_gaps l | _ => 0 end.

Definition lower_bound (taken : list bool) : Cost :=
  if negb (bool_decide (forbidden = ∅)) then zero_cost else
  let free := free_seats taken in
  let forced := Z.of_nat (length (List.filter (fun a => negb (has_fresh taken a)) free)) in
  mkCost ((forced + 1) / 2)
         (adjacent_gaps (isort Z.ltb (map (fun a => elo (player a)) free)))
         (adjacent_gaps (isort Z.ltb (map (fun a => score (player a)) free))) 0 0 0.

Definition candidates (taken : list bool) (i : nat) : list nat :=
  isort (fun a b => cost_lt (edge i a) (edge i b))
    (List.filter (fun j => is_free taken j &&
        negb (bool_decide (player_pair (player_id (player i)) (player_id (player j)) ∈ forbidden)))
      (seq (S i) (length taken - S i))).

(** [have_best && !(cost < best)] *)
Definition not_better (st : PairingSearch) (c : Cost) : bool :=
  match best st with Some (b, _) => negb (cost_lt c b) | None => false end.

(** The two early returns before the candidates are tried. *)
Definition pruned (st : PairingSearch) (taken : list bool) (cost : Cost) : bool :=
  not_better st (cost_add cost (lower_bound taken)) ||
  match prefixes st !! taken with Some prior => negb (cost_lt cost prior) | None => false end.

Fixpoint search (fuel : nat) (taken : list bool) (chosen : list (nat * nat)) (cost : Cost)
    (st : PairingSearch) : PairingSearch :=
  match fuel with
  | O => st
  | S fuel =>
      let i := first_free taken in
      if (i =? length taken)%nat then
        if not_better st cost then st else mkPairingSearch (Some (cost, chosen)) (prefixes st)
      else if pruned st taken cost then st
      else
        let st := mkPairingSearch (best st) (<[taken := cost]> (prefixes st)) in
        let st := fold_left (fun st j =>
                    search fuel (mark j (mark i taken)) (chosen ++ [(i, j)]) (cost_add cost (edge i j)) st)
                    (candidates taken i) st in
        if negb (bool_decide (forbidden = ∅))
        then search fuel (mark i taken) (chosen ++ [(i, i)]) (cost_add cost (bye_cost i)) st
        else st
  end.

(** [search({})]: each call takes at least one of the [n] players. *)
Definition best_round : list (nat * nat) :=
  let n := length pool in
  match best (search (S n) (repeat false n) [] zero_cost (mkPairingSearch None ∅)) with
  | Some (_, chosen) => chosen
  | None => []
  end.

Definition emit_meetings (chosen : list (nat * nat)) : list Pairing :=
  flat_map (fun '(a, b) =>
    if (a =? b)%nat then []
    else let '(w, k) := assign_colors (player a) (player b) in [mkPairing w k false]) chosen.

Definition emit_byes (chosen : list (nat * nat)) : list Pairing :=
  flat_map (fun '(a, b) => if (a =? b)%nat then [mkPairing (player_id (player a)) 0 true] else []) chosen.
End search.

(** ** The round *)

(** The search from the end for a player without a bye, else the last player. *)
Fixpoint last_without_bye (pool : list PlayerStanding) (i : nat) : option nat :=
  match pool with
  | [] => None
  | p :: pool =>
      match last_without_bye pool (S i) with
      | Some k => Some k
      | None => if received_bye p then None else Some i
      end
  end.

Definition bye_index (pool : list PlayerStanding) : nat :=
  match last_without_bye pool 0 with Some i => i | None => (length pool - 1)%nat end.

(** Step 3: the player who sits out, and the rest of the pool. *)
Definition carve_bye (pool : list PlayerStanding) (forbidden : gset (Z * Z))
    : list PlayerStanding * list PlayerStanding :=
  if Nat.odd (length pool) && bool_decide (forbidden = ∅)
  then ([pool !!! bye_index pool], delete (bye_index pool) pool)
  else ([], pool).

Definition active_players (standings : list PlayerStanding) : list PlayerStanding :=
  List.filter (fun p => negb (withdrawn p)) standings.

(** [bye_p] *)
Definition bye_pairing (p : PlayerStanding) : Pairing := mkPairing (player_id p) 0 true.

Definition pair_swiss_round (standings : list PlayerStanding) (played forbidden : gset (Z * Z))
    : list Pairing :=
  match active_players standings with
  | [] => []
  | active =>
      let '(bye, pool) := carve_bye (isort higher_seed active) forbidden in
      let chosen := best_round pool played forbidden in
      emit_meetings pool chosen ++
      map bye_pairing bye ++ emit_byes pool chosen
  end.
