(* ===== verification/SwissSpec.v ===== *)
(** * Optimality of Swiss pairing

    A round is a list of index pairs, a pair (i, i) being a bye.  The search of
    [Swiss] returns a complete round of least cost among all of them: its lower bound
    is admissible and its table of prefixes never hides a better round. *)
From S2P Require Import Prelude Swiss.
From stdpp Require Import gmap.
Open Scope Z_scope.

(** ** The order of costs *)

Definition cost_le (c d : Cost) : Prop := cost_lt d c = false.

Definition lex (x y : Z) (P : Prop) : Prop := x < y \/ (x = y /\ P).

Lemma cost_lt_spec c d :
  cost_lt c d = true <->
  lex (byes c) (byes d) (lex (repeated_byes c) (repeated_byes d) (lex (bye_rank c) (bye_rank d)
    (lex (rematches c) (rematches d) (lex (rating_gap c) (rating_gap d)
      (score_gap c < score_gap d))))).
Proof.
  unfold cost_lt, lex. rewrite !orb_true_iff, !andb_true_iff, !orb_true_iff, !andb_true_iff,
    !orb_true_iff, !andb_true_iff, !orb_true_iff, !andb_true_iff, !orb_true_iff, !andb_true_iff.
  rewrite !Z.ltb_lt, !Z.eqb_eq. reflexivity.
Qed.

Ltac cost_solve :=
  repeat match goal with
  | H : cost_le _ _ |- _ => unfold cost_le in H
  | H : cost_lt _ _ = false |- _ => apply not_true_iff_false in H; rewrite cost_lt_spec in H
  | H : cost_lt _ _ = true |- _ => rewrite cost_lt_spec in H
  | |- cost_le _ _ => unfold cost_le
  | |- cost_lt _ _ = false => apply not_true_iff_false; rewrite cost_lt_spec
  | |- cost_lt _ _ = true => rewrite cost_lt_spec
  end; unfold lex in *; cbn [cost_add zero_cost byes repeated_byes bye_rank rematches rating_gap score_gap] in *; lia.

Lemma cost_le_refl c : cost_le c c.
Proof. cost_solve. Qed.

Lemma cost_le_trans c d e : cost_le c d -> cost_le d e -> cost_le c e.
Proof. intros. cost_solve. Qed.

Lemma cost_lt_le c d : cost_lt c d = true -> cost_le c d.
Proof. intros. cost_solve. Qed.

Lemma cost_add_le_l c d e : cost_le c d -> cost_le (cost_add e c) (cost_add e d).
Proof. intros. cost_solve. Qed.

Lemma cost_add_le_r c d e : cost_le c d -> cost_le (cost_add c e) (cost_add d e).
Proof. intros. cost_solve. Qed.

Lemma cost_eq c d :
  rematches c = rematches d -> rating_gap c = rating_gap d -> score_gap c = score_gap d ->
  byes c = byes d -> repeated_byes c = repeated_byes d -> bye_rank c = bye_rank d -> c = d.
Proof. destruct c, d. cbn. by intros -> -> -> -> -> ->. Qed.

Lemma cost_add_comm c d : cost_add c d = cost_add d c.
Proof. apply cost_eq; cbn; lia. Qed.

Lemma cost_add_assoc c d e : cost_add c (cost_add d e) = cost_add (cost_add c d) e.
Proof. apply cost_eq; cbn; lia. Qed.

Lemma cost_add_0 c : cost_add c zero_cost = c.
Proof. apply cost_eq; cbn; lia. Qed.

Lemma cost_0_add c : cost_add zero_cost c = c.
Proof. apply cost_eq; cbn; lia. Qed.

(** ** Permutations of flattened lists *)

(** An element of a flattened permutation sits in one of the pieces. *)
Lemma flat_map_piece {A B} (f : B -> list A) ps x rest :
  Permutation (flat_map f ps) (x :: rest) ->
  exists p ps' l1 l2, Permutation ps (p :: ps') /\ f p = l1 ++ x :: l2 /\
    Permutation rest (l1 ++ l2 ++ flat_map f ps').
Proof.
  intros H.
  assert (In x (flat_map f ps)) as Hx by (eapply Permutation_in; [by symmetry|]; by left).
  apply in_flat_map in Hx as (p & Hp & Hx). apply in_split in Hp as (a & b & ->).
  apply in_split in Hx as (l1 & l2 & E). exists p, (a ++ b), l1, l2.
  assert (Permutation (a ++ p :: b) (p :: a ++ b)) as Hab by (symmetry; apply Permutation_middle).
  split; [done|]. split; [done|]. apply (Permutation_cons_inv (a := x)). rewrite <- H.
  rewrite (Permutation_flat_map f Hab). cbn [flat_map]. rewrite E, <- app_assoc.
  symmetry. apply (Permutation_middle l1 (l2 ++ flat_map f (a ++ b)) x).
Qed.

Lemma flat_map_nonempty {A B} (f : B -> list A) ps :
  (forall p, f p <> []) -> Permutation (flat_map f ps) [] -> ps = [].
Proof.
  intros Hf H. destruct ps as [|p ps]; [done|]. exfalso. apply Permutation_sym, Permutation_nil in H.
  cbn [flat_map] in H. apply app_eq_nil in H as [H _]. by apply (Hf p).
Qed.

(** ** Neighbours in sorted order are the cheapest matching on a line *)

Definition both {A} (p : A * A) : list A := [fst p; snd p].
Definition gap (p : Z * Z) : Z := Z.abs (fst p - snd p).
Definition sum (l : list Z) : Z := fold_right Z.add 0 l.

Lemma sum_perm l k : Permutation l k -> sum l = sum k.
Proof. induction 1; cbn [sum fold_right] in *; unfold sum in *; cbn [fold_right]; lia. Qed.

Lemma sum_gap_nonneg vs : 0 <= sum (map gap vs).
Proof.
  induction vs as [|v vs IH]; [done|]. cbn [map sum fold_right]. fold (sum (map gap vs)). unfold gap at 1. lia.
Qed.

(** The partner of a value in a matching. *)
Lemma both_piece x rest vs :
  Permutation (flat_map both vs) (x :: rest) ->
  exists y vs', Permutation rest (y :: flat_map both vs') /\
    sum (map gap vs) = Z.abs (x - y) + sum (map gap vs').
Proof.
  intros H. apply flat_map_piece in H as ([a b] & vs' & l1 & l2 & Hp & E & Hr).
  rewrite (sum_perm _ _ (Permutation_map gap Hp)). unfold both in E. cbn [fst snd] in E.
  destruct l1 as [|a' [|b' [|]]]; try discriminate.
  - injection E as -> <-. by exists b, vs'.
  - injection E as <- -> <-. exists a, vs'. split; [done|].
    cbn [map sum fold_right]. unfold gap at 1. cbn [fst snd]. unfold sum. lia.
Qed.

Lemma adjacent_min n l vs :
  (length l <= n)%nat -> Sorted.StronglySorted Z.le l -> Permutation (flat_map both vs) l ->
  adjacent_gaps l <= sum (map gap vs).
Proof.
  revert l vs. induction n as [|n IH]; intros l vs Hn Hs Hp.
  - destruct l; [|cbn in Hn; lia]. apply sum_gap_nonneg.
  - destruct l as [|x1 [|x2 l]]; try apply sum_gap_nonneg.
    inversion_clear Hs as [|? ? Hs1 H1]. inversion_clear Hs1 as [|? ? Hs2 H2].
    inversion_clear H1 as [|? ? H12 H1l]. cbn [adjacent_gaps length] in *.
    apply both_piece in Hp as (y & vs1 & Hr & ->).
    assert (In x2 (y :: flat_map both vs1)) as Hx2 by (eapply Permutation_in; [exact Hr|]; by left).
    destruct (Z.eq_dec y x2) as [->|Hne].
    { apply Permutation_cons_inv in Hr. specialize (IH l vs1 ltac:(lia) Hs2 (Permutation_sym Hr)). lia. }
    destruct Hx2 as [?|Hx2]; [done|]. apply in_split in Hx2 as (k1 & k2 & Ek).
    assert (Permutation (flat_map both vs1) (x2 :: k1 ++ k2)) as Hv
      by (rewrite Ek; symmetry; apply Permutation_middle).
    apply both_piece in Hv as (z & vs2 & Hz & ->).
    assert (Permutation (flat_map both ((y, z) :: vs2)) l) as Hl.
    { cbn [flat_map both fst snd app]. apply (Permutation_cons_inv (a := x2)). rewrite Hr.
      rewrite perm_swap. apply perm_skip. by rewrite Ek, <- Permutation_middle, Hz. }
    specialize (IH l _ ltac:(lia) Hs2 Hl). cbn [map sum fold_right] in IH. fold (sum (map gap vs2)) in IH.
    unfold gap in IH at 1. cbn [fst snd] in IH.
    rewrite List.Forall_forall in H2.
    assert (x2 <= y) by (apply H2; eapply Permutation_in; [exact Hl|]; by left).
    assert (x2 <= z) by (apply H2; eapply Permutation_in; [exact Hl|]; right; by left). lia.
Qed.

Lemma isort_Z_sorted l : Sorted.StronglySorted Z.le (isort Z.ltb l).
Proof.
  assert (Sorted.StronglySorted (fun x y => (y <? x) = false) (isort Z.ltb l)) as H
    by (apply isort_sorted; intros *; rewrite ?Z.ltb_lt, ?Z.ltb_ge; lia).
  induction H as [|x k _ IH Hx]; constructor; [done|].
  eapply List.Forall_impl; [|exact Hx]. intros y. cbn. rewrite Z.ltb_ge. lia.
Qed.

(** ** Rounds *)

Section rounds.
Context (pool : list PlayerStanding) (played forbidden : gset (Z * Z)).

Definition seats (p : nat * nat) : list nat :=
  let '(a, b) := p in if (a =? b)%nat then [a] else [a; b].

Definition may_pair (p : nat * nat) : Prop :=
  if (fst p =? snd p)%nat then forbidden <> ∅
  else player_pair (player_id (player pool (fst p))) (player_id (player pool (snd p))) ∉ forbidden.

Definition pair_cost (p : nat * nat) : Cost :=
  if (fst p =? snd p)%nat then bye_cost pool (fst p) else edge pool played (fst p) (snd p).

Definition round_cost (ps : list (nat * nat)) : Cost :=
  fold_right (fun p c => cost_add (pair_cost p) c) zero_cost ps.

(** Every index of [l] once, no forbidden pair. *)
Definition covers (ps : list (nat * nat)) (l : list nat) : Prop :=
  Permutation (flat_map seats ps) l /\ List.Forall may_pair ps.

Lemma player_pair_sym a b : player_pair a b = player_pair b a.
Proof. unfold player_pair. repeat case_z; try done; try lia. f_equal; lia. Qed.

Lemma edge_sym i j : edge pool played i j = edge pool played j i.
Proof.
  unfold edge, have_played. rewrite player_pair_sym. f_equal; lia.
Qed.

Lemma round_cost_perm ps qs : Permutation ps qs -> round_cost ps = round_cost qs.
Proof.
  unfold round_cost. induction 1 as [|p k l _ IH|p q l|? ? ? _ IH1 _ IH2]; cbn [fold_right];
    [done|by rewrite IH| |by rewrite IH1].
  rewrite !cost_add_assoc. f_equal. apply cost_add_comm.
Qed.

Lemma round_cost_snoc ps p : round_cost (ps ++ [p]) = cost_add (round_cost ps) (pair_cost p).
Proof.
  rewrite (round_cost_perm (ps ++ [p]) (p :: ps)) by (symmetry; apply Permutation_cons_append).
  apply cost_add_comm.
Qed.

Lemma covers_nil ps : covers ps [] -> ps = [].
Proof.
  intros [H _]. eapply flat_map_nonempty; [|exact H]. intros [a b]. cbn. by destruct (_ =? _)%nat.
Qed.

(** The first index is a bye or meets some other index. *)
Lemma covers_cons ps i rest :
  covers ps (i :: rest) -> ~ In i rest ->
  exists ps', 
    (covers ps' rest /\ may_pair (i, i) /\ round_cost ps = cost_add (bye_cost pool i) (round_cost ps')) \/
    (exists j rest', i <> j /\ Permutation rest (j :: rest') /\ covers ps' rest' /\ may_pair (i, j) /\
       round_cost ps = cost_add (edge pool played i j) (round_cost ps')).
Proof.
  intros [H Hm] Hi. apply flat_map_piece in H as ([a b] & ps' & l1 & l2 & Hp & E & Hr).
  rewrite (round_cost_perm _ _ Hp). rewrite Hp in Hm. inversion_clear Hm as [|? ? Hab Hm'].
  exists ps'. cbn [seats] in E. destruct (Nat.eqb_spec a b) as [->|Hne].
  - destruct l1 as [|? [|]]; try discriminate. injection E as -> <-. left.
    split; [by split|]. split; [done|].
    cbn [round_cost fold_right]. unfold pair_cost. cbn [fst snd]. by rewrite Nat.eqb_refl.
  - right. cbn [round_cost fold_right]. unfold pair_cost. cbn [fst snd].
    rewrite (proj2 (Nat.eqb_neq a b) Hne).
    destruct l1 as [|? [|? [|]]]; try discriminate.
    + injection E as -> <-. exists b, (flat_map seats ps'). by repeat split.
    + injection E as <- -> <-. exists a, (flat_map seats ps'). rewrite edge_sym. repeat split; try done.
      unfold may_pair in *. cbn [fst snd] in *.
      rewrite (proj2 (Nat.eqb_neq _ _) Hne) in Hab. rewrite (proj2 (Nat.eqb_neq i a) (not_eq_sym Hne)).
      by rewrite player_pair_sym.
Qed.

(** ** Free seats *)

Lemma is_free_mark taken i k :
  (i < length taken)%nat -> is_free (mark i taken) k = is_free taken k && negb (k =? i)%nat.
Proof.
  intros Hi. unfold is_free, mark. rewrite !nth_lookup.
  destruct (Nat.eqb_spec k i) as [->|Hne].
  - rewrite list_lookup_insert_eq by done. by rewrite andb_false_r.
  - rewrite list_lookup_insert_ne by congruence. by rewrite andb_true_r.
Qed.

Lemma in_free_seats taken k : In k (free_seats taken) <-> (k < length taken)%nat /\ is_free taken k = true.
Proof. unfold free_seats. rewrite filter_In, in_seq. split; intros [? ?]; split; try done; lia. Qed.

Lemma is_free_lt taken k : is_free taken k = true -> (k < length taken)%nat.
Proof.
  unfold is_free. intros H. destruct (Nat.lt_ge_cases k (length taken)); [done|].
  by rewrite nth_overflow in H.
Qed.

Lemma free_seats_nodup taken : List.NoDup (free_seats taken).
Proof. apply List.NoDup_filter, seq_NoDup. Qed.

Lemma length_mark i taken : length (mark i taken) = length taken.
Proof. apply length_insert. Qed.

Lemma free_seats_mark taken i :
  is_free taken i = true -> Permutation (free_seats taken) (i :: free_seats (mark i taken)).
Proof.
  intros Hi. pose proof (is_free_lt taken i Hi) as Hl.
  apply Permutation.NoDup_Permutation; [apply free_seats_nodup| |].
  - constructor; [|apply free_seats_nodup]. rewrite in_free_seats, is_free_mark by done.
    rewrite Nat.eqb_refl, andb_false_r. by intros [_ ?].
  - intros k. cbn [In]. rewrite !in_free_seats, length_mark, is_free_mark, andb_true_iff, negb_true_iff,
      Nat.eqb_neq by done.
    destruct (Nat.eq_dec i k) as [->|]; [tauto|]. split; [|intuition congruence]. intros [? ?]. right. auto.
Qed.

Lemma first_free_spec taken :
  (first_free taken = length taken /\ free_seats taken = []) \/
  ((first_free taken < length taken)%nat /\ is_free taken (first_free taken) = true /\
   forall k, is_free taken k = true -> (first_free taken <= k)%nat).
Proof.
  assert ((forall k, (k < first_free taken)%nat -> is_free taken k = false) /\
          (first_free taken <= length taken)%nat /\
          ((first_free taken < length taken)%nat -> is_free taken (first_free taken) = true)) as (H1 & H2 & H3).
  { induction taken as [|[] taken (H1 & H2 & H3)]; cbn [first_free length].
    - repeat split; intros; lia.
    - split; [|split; [lia|intros; apply H3; lia]]. intros [|k] Hk; [done|]. apply (H1 k). lia.
    - split; [intros; lia|]. split; [lia|done]. }
  destruct (Nat.eq_dec (first_free taken) (length taken)) as [E|Hne].
  - left. split; [done|]. destruct (free_seats taken) as [|k l] eqn:Ef; [done|]. exfalso.
    assert (In k (free_seats taken)) as Hk by (rewrite Ef; by left).
    apply in_free_seats in Hk as [Hk Hf]. rewrite H1 in Hf by lia. discriminate.
  - right. split; [lia|]. split; [apply H3; lia|]. intros k Hk.
    destruct (Nat.le_gt_cases (first_free taken) k); [done|]. rewrite H1 in Hk by lia. discriminate.
Qed.

Lemma in_candidates taken i j :
  i <> j -> In j (candidates pool played forbidden taken i) <->
  (i < j)%nat /\ is_free taken j = true /\ may_pair (i, j).
Proof.
  intros Hne. unfold candidates. rewrite (perm_in_iff (isort_perm _ _)).
  rewrite filter_In, in_seq, andb_true_iff, negb_true_iff, bool_decide_eq_false.
  unfold may_pair. cbn [fst snd]. rewrite (proj2 (Nat.eqb_neq i j) Hne).
  split; [intros (? & ? & ?); repeat split; try done; lia|].
  intros (? & Hf & ?). pose proof (is_free_lt taken j Hf). repeat split; try done; lia.
Qed.

(** ** The lower bound is admissible *)

Definition cost_nonneg (c : Cost) : Prop :=
  0 <= rematches c /\ 0 <= rating_gap c /\ 0 <= score_gap c /\
  0 <= byes c /\ 0 <= repeated_byes c /\ 0 <= bye_rank c.

Lemma pair_cost_nonneg p : cost_nonneg (pair_cost p).
Proof.
  unfold pair_cost, bye_cost, edge, cost_nonneg.
  destruct (_ =? _)%nat; cbn [rematches rating_gap score_gap byes repeated_byes bye_rank];
    [destruct (received_bye _)|destruct (have_played _ _ _)]; repeat split; lia.
Qed.

Lemma round_cost_nonneg ps : cost_nonneg (round_cost ps).
Proof.
  induction ps as [|p ps IH]; [by repeat split|]. cbn [round_cost fold_right]. fold (round_cost ps).
  pose proof (pair_cost_nonneg p). unfold cost_nonneg in *. cbn [cost_add rematches rating_gap score_gap byes
    repeated_byes bye_rank]. lia.
Qed.

Definition meeting (p : nat * nat) : Prop := fst p <> snd p.

Lemma meetings_only ps : forbidden = ∅ -> List.Forall may_pair ps -> List.Forall meeting ps.
Proof.
  intros Hf. apply List.Forall_impl. intros [a b]. unfold may_pair, meeting. cbn [fst snd].
  by destruct (Nat.eqb_spec a b).
Qed.

(** A round of meetings seen through a number of each player. *)
Lemma meetings_values (f : PlayerStanding -> Z) ps :
  List.Forall meeting ps ->
  flat_map both (map (fun p => (f (player pool (fst p)), f (player pool (snd p)))) ps) =
  map (fun a => f (player pool a)) (flat_map seats ps).
Proof.
  induction 1 as [|[a b] ps Hab _ IH]; [done|]. unfold meeting in Hab. cbn [fst snd] in Hab.
  cbn [map flat_map seats]. rewrite (proj2 (Nat.eqb_neq a b) Hab). rewrite map_app, IH. reflexivity.
Qed.

Lemma meetings_cost ps :
  List.Forall meeting ps ->
  rating_gap (round_cost ps) =
    sum (map gap (map (fun p => (elo (player pool (fst p)), elo (player pool (snd p)))) ps)) /\
  score_gap (round_cost ps) =
    sum (map gap (map (fun p => (score (player pool (fst p)), score (player pool (snd p)))) ps)) /\
  byes (round_cost ps) = 0 /\ repeated_byes (round_cost ps) = 0 /\ bye_rank (round_cost ps) = 0.
Proof.
  induction 1 as [|[a b] ps Hab _ (IH1 & IH2 & IH3 & IH4 & IH5)]; [done|].
  unfold meeting in Hab. cbn [fst snd] in Hab. cbn [round_cost fold_right map sum]. fold (round_cost ps).
  unfold pair_cost at 1 2 3 4 5. cbn [fst snd]. rewrite (proj2 (Nat.eqb_neq a b) Hab).
  cbn [cost_add rating_gap score_gap byes repeated_byes bye_rank edge].
  rewrite IH1, IH2, IH3, IH4, IH5. unfold gap at 1 3. cbn [fst snd]. unfold sum. by repeat split.
Qed.

Lemma gaps_admissible (f : PlayerStanding -> Z) ps l :
  List.Forall meeting ps -> Permutation (flat_map seats ps) l ->
  adjacent_gaps (isort Z.ltb (map (fun a => f (player pool a)) l)) <=
  sum (map gap (map (fun p => (f (player pool (fst p)), f (player pool (snd p)))) ps)).
Proof.
  intros Hm Hp. eapply (adjacent_min _ _ _ (Nat.le_refl _)); [apply isort_Z_sorted|].
  rewrite (meetings_values f ps Hm), isort_perm. by apply Permutation_map.
Qed.

Lemma rematches_01 i j : rematches (edge pool played i j) = 0 \/ rematches (edge pool played i j) = 1.
Proof. cbn [edge rematches]. destruct (have_played _ _ _); tauto. Qed.

Lemma not_fresh taken a b :
  has_fresh pool played taken a = false -> a <> b -> is_free taken b = true ->
  rematches (edge pool played a b) = 1.
Proof.
  intros Hf Hne Hb. destruct (rematches_01 a b) as [E|]; [|done]. exfalso.
  enough (has_fresh pool played taken a = true) by congruence. apply existsb_exists. exists b. split.
  - apply in_seq. pose proof (is_free_lt taken b Hb). lia.
  - rewrite Hb, E, (proj2 (Nat.eqb_neq a b) Hne). done.
Qed.

(** Each forced player costs half a rematch. *)
Lemma forced_admissible taken ps :
  List.Forall meeting ps -> (forall k, In k (flat_map seats ps) -> is_free taken k = true) ->
  Z.of_nat (length (List.filter (fun a => negb (has_fresh pool played taken a)) (flat_map seats ps))) <=
  2 * rematches (round_cost ps).
Proof.
  induction 1 as [|[a b] ps Hab _ IH]; intros Hfree; [done|].
  unfold meeting in Hab. cbn [fst snd] in Hab.
  cbn [flat_map round_cost fold_right] in *. fold (round_cost ps). unfold pair_cost. cbn [fst snd seats] in *.
  rewrite (proj2 (Nat.eqb_neq a b) Hab) in *. cbn [app] in Hfree.
  rewrite List.filter_app, length_app. specialize (IH (fun k Hk => Hfree k (or_intror (or_intror Hk)))).
  pose proof (Hfree a (or_introl eq_refl)) as Ha. pose proof (Hfree b (or_intror (or_introl eq_refl))) as Hb.
  cbn [cost_add rematches]. pose proof (rematches_01 a b).
  pose proof (fun E => not_fresh taken a b E Hab Hb) as H1.
  pose proof (fun E => not_fresh taken b a E (not_eq_sym Hab) Ha) as H2. rewrite edge_sym in H2.
  cbn [List.filter]. destruct (has_fresh pool played taken a), (has_fresh pool played taken b);
    cbn [negb length]; try specialize (H1 eq_refl); try specialize (H2 eq_refl); lia.
Qed.

Lemma lower_admissible taken ps :
  covers ps (free_seats taken) -> cost_le (lower_bound pool played forbidden taken) (round_cost ps).
Proof.
  intros [Hp Hm]. unfold lower_bound. pose proof (round_cost_nonneg ps) as Hn. unfold cost_nonneg in Hn.
  destruct (bool_decide_reflect (forbidden = ∅)) as [He|He]; cbn [negb]; [|cost_solve].
  pose proof (meetings_only ps He Hm) as Hmeet.
  destruct (meetings_cost ps Hmeet) as (H1 & H2 & H3 & H4 & H5).
  pose proof (gaps_admissible elo ps _ Hmeet Hp) as G1. rewrite <- H1 in G1.
  pose proof (gaps_admissible score ps _ Hmeet Hp) as G2. rewrite <- H2 in G2.
  assert (forall k, In k (flat_map seats ps) -> is_free taken k = true) as Hfree
    by (intros k Hk; apply (in_free_seats taken k); by eapply Permutation_in).
  pose proof (forced_admissible taken ps Hmeet Hfree) as G3.
  rewrite (Permutation_length (filter_perm _ _ _ Hp)) in G3.
  set (forced := Z.of_nat _) in *.
  assert ((forced + 1) / 2 <= rematches (round_cost ps)) by (pose proof (Z_div_mod_eq_full (forced + 1) 2); pose proof (Z.mod_pos_bound (forced + 1) 2); lia).
  cost_solve.
Qed.

(** ** The search finds the best completion *)

Notation search := (search pool played forbidden).
Notation candidates := (candidates pool played forbidden).

(** The best round found costs no more than [c] plus any completion of [taken]. *)
Definition beats (st : PairingSearch) (c : Cost) (taken : list bool) : Prop :=
  forall ps, covers ps (free_seats taken) ->
  exists b r, best st = Some (b, r) /\ cost_le b (cost_add c (round_cost ps)).

(** Every closed prefix has been searched to the end. *)
Definition prefixes_ok (opened : list bool -> Prop) (st : PairingSearch) : Prop :=
  forall k c, prefixes st !! k = Some c -> ~ opened k -> beats st c k.

Definition best_ok (st : PairingSearch) : Prop :=
  forall b r, best st = Some (b, r) -> covers r (seq 0 (length pool)) /\ b = round_cost r.

Definition improves (st st' : PairingSearch) : Prop :=
  forall b r, best st = Some (b, r) -> exists b' r', best st' = Some (b', r') /\ cost_le b' b.

Record node_ok (taken : list bool) (chosen : list (nat * nat)) (cost : Cost) : Prop := {
  node_length : length taken = length pool;
  node_covers : Permutation (flat_map seats chosen ++ free_seats taken) (seq 0 (length pool));
  node_pairs : List.Forall may_pair chosen;
  node_cost : cost = round_cost chosen
}.

Record search_ok (opened : list bool -> Prop) (st st' : PairingSearch) : Prop := {
  ok_best : best_ok st';
  ok_improves : improves st st';
  ok_prefixes : prefixes_ok opened st';
  ok_open : forall k, opened k -> prefixes st' !! k = prefixes st !! k
}.

Lemma improves_refl st : improves st st.
Proof. intros b r H. exists b, r. split; [done|apply cost_le_refl]. Qed.

Lemma improves_trans st1 st2 st3 : improves st1 st2 -> improves st2 st3 -> improves st1 st3.
Proof.
  intros H1 H2 b r H. destruct (H1 b r H) as (b' & r' & H' & ?). destruct (H2 b' r' H') as (b'' & r'' & ? & ?).
  exists b'', r''. split; [done|]. by eapply cost_le_trans.
Qed.

Lemma beats_mono st st' c taken : improves st st' -> beats st c taken -> beats st' c taken.
Proof.
  intros Hi Hb ps Hps. destruct (Hb ps Hps) as (b & r & E & ?). destruct (Hi b r E) as (b' & r' & ? & ?).
  exists b', r'. split; [done|]. by eapply cost_le_trans.
Qed.

Lemma beats_weaken st c d taken : cost_le c d -> beats st c taken -> beats st d taken.
Proof.
  intros Hc Hb ps Hps. destruct (Hb ps Hps) as (b & r & E & ?). exists b, r. split; [done|].
  eapply cost_le_trans; [done|]. by apply cost_add_le_r.
Qed.

Lemma not_better_spec st c :
  not_better st c = true -> exists b r, best st = Some (b, r) /\ cost_le b c.
Proof. unfold not_better. destruct (best st) as [[b r]|]; [|done]. intros H. exists b, r. by apply negb_true_iff in H. Qed.

(** A pruned node has nothing better to offer. *)
Lemma pruned_beats opened st taken cost :
  prefixes_ok opened st -> ~ opened taken -> pruned pool played forbidden st taken cost = true ->
  beats st cost taken.
Proof.
  intros Hp Ho H. apply orb_true_iff in H as [H|H].
  - apply not_better_spec in H as (b & r & E & Hb). intros ps Hps. exists b, r. split; [done|].
    eapply cost_le_trans; [exact Hb|]. apply cost_add_le_l. by apply lower_admissible.
  - destruct (prefixes st !! taken) as [prior|] eqn:E; [|done]. apply negb_true_iff in H.
    eapply beats_weaken; [exact H|]. by apply (Hp taken).
Qed.

Lemma node_step taken chosen cost i j :
  node_ok taken chosen cost -> is_free taken i = true -> is_free (mark i taken) j = true -> i <> j ->
  may_pair (i, j) ->
  node_ok (mark j (mark i taken)) (chosen ++ [(i, j)]) (cost_add cost (edge pool played i j)).
Proof.
  intros [H1 H2 H3 ->] Hi Hj Hne Hm. split.
  - by rewrite !length_mark.
  - rewrite flat_map_app. cbn [flat_map seats app]. rewrite (proj2 (Nat.eqb_neq i j) Hne).
    rewrite <- app_assoc. cbn [app]. rewrite <- H2. apply Permutation_app_head.
    by rewrite (free_seats_mark taken i Hi), (free_seats_mark (mark i taken) j Hj).
  - apply List.Forall_app. split; [done|]. by constructor.
  - rewrite round_cost_snoc. unfold pair_cost. cbn [fst snd]. by rewrite (proj2 (Nat.eqb_neq i j) Hne).
Qed.

Lemma node_bye taken chosen cost i :
  node_ok taken chosen cost -> is_free taken i = true -> forbidden <> ∅ ->
  node_ok (mark i taken) (chosen ++ [(i, i)]) (cost_add cost (bye_cost pool i)).
Proof.
  intros [H1 H2 H3 ->] Hi Hf. split.
  - by rewrite !length_mark.
  - rewrite flat_map_app. cbn [flat_map seats app]. rewrite Nat.eqb_refl.
    rewrite <- app_assoc. cbn [app]. rewrite <- H2. apply Permutation_app_head.
    by rewrite (free_seats_mark taken i Hi).
  - apply List.Forall_app. split; [done|]. constructor; [|done]. unfold may_pair. cbn [fst snd].
    by rewrite Nat.eqb_refl.
  - rewrite round_cost_snoc. unfold pair_cost. cbn [fst snd]. by rewrite Nat.eqb_refl.
Qed.

(** What one recursive call guarantees. *)
Definition explores (go : list bool -> list (nat * nat) -> Cost -> PairingSearch -> PairingSearch)
    (size : nat) : Prop :=
  forall opened taken chosen cost st,
    node_ok taken chosen cost -> (length (free_seats taken) < size)%nat ->
    (forall k, opened k -> (length (free_seats taken) < length (free_seats k))%nat) ->
    best_ok st -> prefixes_ok opened st ->
    search_ok opened st (go taken chosen cost st) /\ beats (go taken chosen cost st) cost taken.

Lemma candidates_explored go size opened taken chosen cost i js st :
  explores go size -> node_ok taken chosen cost -> is_free taken i = true ->
  (length (free_seats taken) <= size)%nat ->
  (forall k, opened k -> (length (free_seats taken) <= length (free_seats k))%nat) ->
  (forall j, In j js -> i <> j /\ is_free taken j = true /\ may_pair (i, j)) ->
  best_ok st -> prefixes_ok opened st ->
  let st' := fold_left (fun st j => go (mark j (mark i taken)) (chosen ++ [(i, j)])
                                       (cost_add cost (edge pool played i j)) st) js st in
  search_ok opened st st' /\
  forall j, In j js -> beats st' (cost_add cost (edge pool played i j)) (mark j (mark i taken)).
Proof.
  intros Hgo Hn Hi Hs Ho. revert st. induction js as [|j js IH]; intros st Hjs Hb Hp; cbn [fold_left].
  { split; [|by intros]. split; [done|apply improves_refl|done|done]. }
  destruct (Hjs j (or_introl eq_refl)) as (Hne & Hj & Hm).
  assert (is_free (mark i taken) j = true) as Hj'.
  { rewrite is_free_mark by (by apply is_free_lt). rewrite Hj. cbn. apply negb_true_iff, Nat.eqb_neq. congruence. }
  pose proof (Permutation_length (free_seats_mark taken i Hi)) as L1.
  pose proof (Permutation_length (free_seats_mark (mark i taken) j Hj')) as L2. cbn [length] in L1, L2.
  destruct (Hgo opened (mark j (mark i taken)) (chosen ++ [(i, j)]) (cost_add cost (edge pool played i j)) st)
    as [[B1 I1 P1 O1] Bj]; [by apply node_step|lia|intros k Hk; specialize (Ho k Hk); lia|done|done|].
  destruct (IH _ (fun j' Hj' => Hjs j' (or_intror Hj')) B1 P1) as [[B2 I2 P2 O2] Bjs].
  split; [split; [done|by eapply improves_trans|done|intros k Hk; by rewrite O2, O1]|].
  intros j' [<-|Hj'']; [by eapply beats_mono|by apply Bjs].
Qed.

Lemma leaf_ok opened taken chosen cost st :
  node_ok taken chosen cost -> free_seats taken = [] -> best_ok st -> prefixes_ok opened st ->
  let st' := if not_better st cost then st else mkPairingSearch (Some (cost, chosen)) (prefixes st) in
  search_ok opened st st' /\ beats st' cost taken.
Proof.
  intros [_ Hc Hm ->] Hf Hb Hp. cbv zeta. rewrite Hf, app_nil_r in Hc.
  assert (forall ps, covers ps (free_seats taken) -> ps = []) as Hnil by (rewrite Hf; apply covers_nil).
  destruct (not_better st (round_cost chosen)) eqn:E.
  - split; [split; [done|apply improves_refl|done|done]|].
    apply not_better_spec in E as (b & r & E & Hle). intros ps Hps. rewrite (Hnil ps Hps). exists b, r.
    split; [done|]. cbn [round_cost fold_right]. by rewrite cost_add_0.
  - assert (improves st (mkPairingSearch (Some (round_cost chosen, chosen)) (prefixes st))) as Hi.
    { intros b r Hbr. do 2 eexists. split; [reflexivity|]. unfold not_better in E. rewrite Hbr in E.
      apply negb_false_iff in E. by apply cost_lt_le. }
    split; [split; [|done| |done]|].
    + intros b r H. injection H as <- <-. by split.
    + intros k c Hk Ho. eapply beats_mono; [exact Hi|]. by apply Hp.
    + intros ps Hps. rewrite (Hnil ps Hps). do 2 eexists. split; [reflexivity|].
      cbn [round_cost fold_right]. rewrite cost_add_0. apply cost_le_refl.
Qed.

(** A node is explored once its candidates and its bye are. *)
Lemma children_beat st taken cost i :
  is_free taken i = true -> (forall k, is_free taken k = true -> (i <= k)%nat) ->
  (forall j, In j (candidates taken i) ->
     beats st (cost_add cost (edge pool played i j)) (mark j (mark i taken))) ->
  (forbidden <> ∅ -> beats st (cost_add cost (bye_cost pool i)) (mark i taken)) ->
  beats st cost taken.
Proof.
  intros Hi Hmin Hc Hbye ps [Hp Hm]. pose proof (free_seats_mark taken i Hi) as Hf.
  assert (covers ps (i :: free_seats (mark i taken))) as Hcov by (split; [by rewrite <- Hf|done]).
  assert (~ In i (free_seats (mark i taken))) as Hni.
  { rewrite in_free_seats, is_free_mark, Nat.eqb_refl, andb_false_r by (by apply is_free_lt). by intros [_ ?]. }
  apply covers_cons in Hcov as (ps' & [(Hps & Hmp & ->)|(j & rest & Hne & Hr & Hps & Hmp & ->)]); [| |done].
  - unfold may_pair in Hmp. cbn [fst snd] in Hmp. rewrite Nat.eqb_refl in Hmp.
    rewrite cost_add_assoc. by apply (Hbye Hmp).
  - assert (In j (free_seats (mark i taken))) as Hj by (eapply Permutation_in; [by symmetry|]; by left).
    apply in_free_seats in Hj as [_ Hj].
    assert (is_free taken j = true) as Hj' by
      (rewrite is_free_mark in Hj by (by apply is_free_lt); bool_hyps; done).
    rewrite cost_add_assoc. apply (Hc j).
    + apply in_candidates; [done|]. specialize (Hmin j Hj'). repeat split; try done. lia.
    + destruct Hps as [Hps ?]. split; [|done]. rewrite Hps.
      apply (Permutation_cons_inv (a := j)). by rewrite <- Hr, <- free_seats_mark.
Qed.

Lemma open_node opened taken cost st :
  best_ok st -> prefixes_ok opened st ->
  let st' := mkPairingSearch (best st) (<[taken := cost]> (prefixes st)) in
  best_ok st' /\ improves st st' /\ prefixes_ok (fun k => opened k \/ k = taken) st'.
Proof.
  intros Hb Hp st'. assert (improves st st') as Hi by (intros b r H; exists b, r; split; [exact H|apply cost_le_refl]).
  split; [exact Hb|]. split; [done|]. intros k c Hk Ho. cbn [prefixes st'] in Hk.
  rewrite lookup_insert_ne in Hk by (intros ->; tauto). eapply beats_mono; [exact Hi|]. apply Hp; tauto.
Qed.

(** Closing the node: its own prefix becomes a searched one. *)
Lemma close_node opened taken cost st st1 st' :
  improves st st1 -> ~ opened taken -> prefixes st1 = <[taken := cost]> (prefixes st) ->
  search_ok (fun k => opened k \/ k = taken) st1 st' -> beats st' cost taken ->
  search_ok opened st st'.
Proof.
  intros Hi Hno Hl [B I P O] Ht. split; [done|by eapply improves_trans| |].
  - intros k c Hk Ho. destruct (decide (k = taken)) as [->|Hne]; [|apply P; tauto].
    rewrite O, Hl, lookup_insert_eq in Hk by tauto. injection Hk as <-. done.
  - intros k Hk. rewrite O, Hl, lookup_insert_ne by (tauto || congruence). done.
Qed.

Lemma search_explores fuel : explores (search fuel) fuel.
Proof.
  induction fuel as [|fuel IH]; intros opened taken chosen cost st Hn Hs Ho Hb Hp; [lia|].
  cbn [Swiss.search].
  destruct (first_free_spec taken) as [[-> Hf]|(Hlt & Hi & Hmin)].
  { rewrite Nat.eqb_refl. by apply leaf_ok. }
  rewrite (proj2 (Nat.eqb_neq _ _)) by lia. set (i := first_free taken) in *.
  assert (~ opened taken) as Hno by (intros Hk; specialize (Ho taken Hk); lia).
  destruct (pruned _ _ _ _ _ _) eqn:Ep.
  { split; [split; [done|apply improves_refl|done|done]|]. by eapply pruned_beats. }
  destruct (open_node opened taken cost st Hb Hp) as (B1 & I1 & P1).
  set (st1 := mkPairingSearch _ _) in *. set (opened' := fun k => opened k \/ k = taken) in *.
  pose proof (Permutation_length (free_seats_mark taken i Hi)) as L1. cbn [length] in L1.
  assert (forall k, opened' k -> (length (free_seats taken) <= length (free_seats k))%nat) as Ho'
    by (intros k [Hk| ->]; [specialize (Ho k Hk)|]; lia).
  destruct (candidates_explored (search fuel) fuel opened' taken chosen cost i (candidates taken i) st1)
    as [[B2 I2 P2 O2] Hc]; try done; [lia| |].
  { intros j Hj. assert (i <> j) as Hne.
    { intros <-. unfold Swiss.candidates in Hj. rewrite (perm_in_iff (isort_perm _ _)) in Hj.
      apply filter_In in Hj as [Hj _]. apply in_seq in Hj. lia. }
    apply in_candidates in Hj as (_ & ? & ?); done. }
  set (st2 := fold_left _ _ _) in *.
  destruct (bool_decide_reflect (forbidden = ∅)) as [He|He]; cbn [negb].
  - assert (beats st2 cost taken) by by eapply children_beat.
    split; [|done]. by eapply (close_node opened taken cost st st1).
  - destruct (IH opened' (mark i taken) (chosen ++ [(i, i)]) (cost_add cost (bye_cost pool i)) st2)
      as [[B3 I3 P3 O3] Hbye]; try done; [by apply node_bye|lia|intros k Hk; specialize (Ho' k Hk); lia|].
    set (st3 := search fuel _ _ _ st2) in *.
    assert (beats st3 cost taken).
    { eapply children_beat; [exact Hi|exact Hmin| |done]. intros j Hj. eapply beats_mono; [exact I3|]. by apply Hc. }
    split; [|done]. apply (close_node opened taken cost st st1); try done.
    split; [done|by eapply improves_trans|done|intros k Hk; by rewrite O3, O2].
Qed.

Lemma free_seats_root : free_seats (repeat false (length pool)) = seq 0 (length pool).
Proof.
  unfold free_seats. rewrite repeat_length. apply forallb_filter_id, forallb_forall. intros k Hk.
  apply in_seq in Hk. unfold is_free. by rewrite nth_repeat_lt by lia.
Qed.

Lemma best_round_spec :
  (exists ps, covers ps (seq 0 (length pool))) ->
  covers (best_round pool played forbidden) (seq 0 (length pool)) /\
  forall ps, covers ps (seq 0 (length pool)) ->
    cost_le (round_cost (best_round pool played forbidden)) (round_cost ps).
Proof.
  intros [ps0 Hps0].
  destruct (search_explores (S (length pool)) (fun _ => False) (repeat false (length pool)) [] zero_cost
    (mkPairingSearch None ∅)) as [[B _ _ _] H].
  - split; [apply repeat_length| |done|done]. by rewrite free_seats_root.
  - rewrite free_seats_root, length_seq. lia.
  - done.
  - intros b r E. discriminate.
  - intros k c E. cbn [prefixes] in E. by rewrite lookup_empty in E.
  - unfold best_round. unfold beats in H. rewrite free_seats_root in H.
    destruct (H ps0 Hps0) as (b & r & E & _). rewrite E in *. destruct (B b r E) as [Hr ->].
    split; [done|]. intros ps Hps. destruct (H ps Hps) as (b' & r' & E' & Hle).
    injection E' as <- <-. by rewrite cost_0_add in Hle.
Qed.

(** There is a round: byes for all, or neighbours when the number is even. *)
Lemma covers_byes l : forbidden <> ∅ -> covers (map (fun i => (i, i)) l) l.
Proof.
  intros Hf. induction l as [|i l [IH1 IH2]]; [by split|]. split.
  - cbn [map flat_map seats]. rewrite Nat.eqb_refl. cbn [app]. by apply perm_skip.
  - constructor; [|done]. unfold may_pair. cbn [fst snd]. by rewrite Nat.eqb_refl.
Qed.

Lemma covers_neighbours n i :
  forbidden = ∅ -> exists ps, covers ps (seq i (n * 2)).
Proof.
  intros Hf. revert i. induction n as [|n IH]; intros i; [by exists []|].
  destruct (IH (S (S i))) as (ps & H1 & H2). exists ((i, S i) :: ps).
  assert ((i =? S i)%nat = false) as E by (apply Nat.eqb_neq; lia). split.
  - cbn [flat_map seats Nat.mul Nat.add seq]. rewrite E. cbn [app]. by do 2 apply perm_skip.
  - constructor; [|done]. unfold may_pair. cbn [fst snd]. rewrite E, Hf. set_solver.
Qed.

Lemma round_exists :
  (forbidden = ∅ -> Nat.even (length pool) = true) -> exists ps, covers ps (seq 0 (length pool)).
Proof.
  intros He. destruct (decide (forbidden = ∅)) as [Hf|Hf].
  - specialize (He Hf). apply Nat.even_spec in He as [n ->]. rewrite Nat.mul_comm. by apply covers_neighbours.
  - eexists. by apply covers_byes.
Qed.

(** ** What is emitted *)

Definition pairing_ids (p : Pairing) : list Z :=
  if is_bye p then [white_id p] else [white_id p; black_id p].

Lemma assign_colors_cases a b :
  (assign_colors a b = (player_id a, player_id b) /\ whites_played a <= whites_played b) \/
  (assign_colors a b = (player_id b, player_id a) /\ whites_played b <= whites_played a).
Proof.
  unfold assign_colors. repeat case_z; [left|right|]; try (split; [done|lia]).
  destruct (higher_seed a b); [left|right]; (split; [done|lia]).
Qed.

Lemma emitted_ids ps :
  Permutation (flat_map pairing_ids (emit_meetings pool ps ++ emit_byes pool ps))
              (map (fun i => player_id (player pool i)) (flat_map seats ps)).
Proof.
  induction ps as [|[a b] ps IH]; [done|]. rewrite flat_map_app in IH. rewrite flat_map_app.
  cbn [emit_meetings emit_byes flat_map seats]. fold (emit_meetings pool ps). fold (emit_byes pool ps).
  destruct (Nat.eqb_spec a b) as [->|Hne]; rewrite map_app, <- IH.
  - cbn [app map flat_map]. unfold pairing_ids at 2. cbn [is_bye white_id]. symmetry. apply Permutation_middle.
  - destruct (assign_colors_cases (player pool a) (player pool b)) as [[-> _]|[-> _]];
      cbn [app map flat_map pairing_ids is_bye white_id black_id]; [done|apply perm_swap].
Qed.

Lemma emitted_meeting ps p :
  List.Forall may_pair ps -> (forall i, In i (flat_map seats ps) -> (i < length pool)%nat) ->
  In p (emit_meetings pool ps) ->
  is_bye p = false /\ exists a b, In a pool /\ In b pool /\ white_id p = player_id a /\
    black_id p = player_id b /\ whites_played a <= whites_played b /\
    player_pair (player_id a) (player_id b) ∉ forbidden.
Proof.
  intros Hm Hlt Hp. apply in_flat_map in Hp as ([i j] & Hij & Hp).
  rewrite List.Forall_forall in Hm. specialize (Hm _ Hij). unfold may_pair in Hm. cbn [fst snd] in Hm.
  assert (forall k, In k (seats (i, j)) -> In (player pool k) pool) as Hin.
  { intros k Hk. unfold player. apply list_elem_of_In. apply list_elem_of_lookup_total_2.
    apply Hlt, in_flat_map. by exists (i, j). }
  cbn [seats] in Hin. destruct (i =? j)%nat; [done|].
  pose proof (Hin i (or_introl eq_refl)). pose proof (Hin j (or_intror (or_introl eq_refl))).
  destruct (assign_colors_cases (player pool i) (player pool j)) as [[E ?]|[E ?]]; rewrite E in Hp;
    destruct Hp as [<-|[]]; (split; [done|]).
  - by exists (player pool i), (player pool j).
  - exists (player pool j), (player pool i). by rewrite player_pair_sym.
Qed.

Lemma emitted_no_byes ps : List.Forall meeting ps -> emit_byes pool ps = [].
Proof.
  induction 1 as [|[a b] ps Hab _ IH]; [done|]. unfold meeting in Hab. cbn [fst snd] in Hab.
  cbn [emit_byes flat_map]. rewrite (proj2 (Nat.eqb_neq a b) Hab). exact IH.
Qed.
End rounds.

(** ** The bye *)

Lemma last_without_bye_spec pool i :
  match last_without_bye pool i with
  | Some k => exists l1 p l2, pool = l1 ++ p :: l2 /\ k = (i + length l1)%nat /\
                received_bye p = false /\ List.Forall (fun q => received_bye q = true) l2
  | None => List.Forall (fun q => received_bye q = true) pool
  end.
Proof.
  revert i. induction pool as [|p pool IH]; intros i; cbn [last_without_bye]; [constructor|].
  specialize (IH (S i)). destruct (last_without_bye pool (S i)) as [k|].
  - destruct IH as (l1 & q & l2 & -> & -> & ? & ?). exists (p :: l1), q, l2. cbn. by repeat split.
  - destruct (received_bye p) eqn:E; [by constructor|]. exists [], p, pool. cbn. by repeat split.
Qed.

(** The bye of an odd field: the lowest seed without one, or the lowest of all. *)
Definition bye_choice (seeds : list PlayerStanding) (p : PlayerStanding) (rest : list PlayerStanding) : Prop :=
  exists l1 l2, seeds = l1 ++ p :: l2 /\ rest = l1 ++ l2 /\
    List.Forall (fun q => received_bye q = true) l2 /\
    (received_bye p = true -> l2 = [] /\ List.Forall (fun q => received_bye q = true) seeds).

Lemma carve_bye_spec seeds forbidden :
  let '(bye, pool) := carve_bye seeds forbidden in
  if Nat.odd (length seeds) && bool_decide (forbidden = ∅)
  then exists p, bye = [p] /\ bye_choice seeds p pool
  else bye = [] /\ pool = seeds.
Proof.
  unfold carve_bye. destruct (_ && _) eqn:E; [|done]. apply andb_true_iff in E as [Ho _].
  assert (forall l1 (p : PlayerStanding) l2, (l1 ++ p :: l2) !!! length l1 = p /\
            delete (length l1) (l1 ++ p :: l2) = l1 ++ l2) as Hsplit.
  { intros l1 p l2. split; [by apply list_lookup_total_middle|by apply delete_middle]. }
  unfold bye_index. pose proof (last_without_bye_spec seeds 0) as H.
  destruct (last_without_bye seeds 0) as [k|].
  - destruct H as (l1 & p & l2 & -> & -> & Hp & Hl). cbn [Nat.add]. destruct (Hsplit l1 p l2) as [-> ->].
    exists p. split; [done|]. exists l1, l2. rewrite Hp. by repeat split.
  - destruct (exists_last (l := seeds)) as (l1 & p & ->); [by intros ->|].
    rewrite length_app. cbn [length]. replace (length l1 + 1 - 1)%nat with (length l1) by lia.
    destruct (Hsplit l1 p []) as [-> ->]. exists p. split; [done|]. exists l1, []. by repeat split.
Qed.

Lemma carve_bye_perm seeds forbidden :
  Permutation (fst (carve_bye seeds forbidden) ++ snd (carve_bye seeds forbidden)) seeds.
Proof.
  pose proof (carve_bye_spec seeds forbidden) as H. destruct (carve_bye seeds forbidden) as [bye pool].
  cbn [fst snd]. destruct (_ && _); [|by destruct H as [-> ->]].
  destruct H as (p & -> & l1 & l2 & -> & -> & _). apply (Permutation_middle l1 l2 p).
Qed.

Lemma carve_bye_even seeds forbidden :
  forbidden = ∅ -> Nat.even (length (snd (carve_bye seeds forbidden))) = true.
Proof.
  intros Hf. pose proof (Permutation_length (carve_bye_perm seeds forbidden)) as Hl.
  pose proof (carve_bye_spec seeds forbidden) as H. destruct (carve_bye seeds forbidden) as [bye pool].
  cbn [fst snd] in *. rewrite (bool_decide_eq_true_2 _ Hf), andb_true_r in H.
  destruct (Nat.odd (length seeds)) eqn:Ho.
  - destruct H as (p & -> & _). cbn [app length] in Hl. rewrite <- Hl, Nat.odd_succ in Ho. done.
  - destruct H as [-> ->]. unfold Nat.odd in Ho. by apply negb_false_iff in Ho.
Qed.

(** [pair_swiss_round] on any field, the empty one included. *)
Lemma pair_swiss_round_eq standings played forbidden :
  pair_swiss_round standings played forbidden =
  let '(bye, pool) := carve_bye (isort higher_seed (active_players standings)) forbidden in
  let chosen := best_round pool played forbidden in
  emit_meetings pool chosen ++ map bye_pairing bye ++ emit_byes pool chosen.
Proof. unfold pair_swiss_round. by destruct (active_players standings). Qed.

Lemma players_listed pool : map (player pool) (seq 0 (length pool)) = pool.
Proof.
  apply list_eq. intros i. rewrite list_lookup_fmap. destruct (Nat.lt_ge_cases i (length pool)) as [Hi|Hi].
  - rewrite lookup_seq_lt by done. cbn. symmetry. by apply list_lookup_lookup_total_lt.
  - rewrite lookup_seq_ge by done. cbn. symmetry. by apply lookup_ge_None_2.
Qed.

Lemma everyone_listed pool r bye active :
  Permutation (flat_map seats r) (seq 0 (length pool)) -> Permutation (bye ++ pool) active ->
  Permutation (flat_map pairing_ids (emit_meetings pool r ++ map bye_pairing bye ++ emit_byes pool r))
              (map player_id active).
Proof.
  intros Hr <-. rewrite app_assoc, (Permutation_app_comm (emit_meetings pool r)), <- app_assoc.
  rewrite flat_map_app, map_app. apply Permutation_app.
  - induction bye as [|p bye IH]; [done|]. cbn. by apply perm_skip.
  - rewrite emitted_ids, Hr. rewrite <- (map_map (player pool) player_id), players_listed. done.
Qed.

Lemma byes_filter pool forbidden r bye :
  forbidden = ∅ -> List.Forall (may_pair pool forbidden) r ->
  List.filter is_bye (emit_meetings pool r ++ map bye_pairing bye ++ emit_byes pool r) = map bye_pairing bye.
Proof.
  intros Hf Hm. rewrite (emitted_no_byes pool r (meetings_only pool forbidden r Hf Hm)), app_nil_r.
  rewrite List.filter_app. replace (List.filter is_bye (emit_meetings pool r)) with (@nil Pairing).
  - apply forallb_filter_id, forallb_forall. intros p Hp. by apply in_map_iff in Hp as (q & <- & _).
  - clear Hm. induction r as [|[a b] r IH]; [done|]. cbn [emit_meetings flat_map].
    rewrite List.filter_app. fold (emit_meetings pool r). rewrite <- IH, app_nil_r.
    destruct (a =? b)%nat; [done|]. by destruct (assign_colors _ _).
Qed.

(** Everyone active sits exactly once, and nobody else does. *)
Lemma round_seats_everyone standings played forbidden :
  Permutation (flat_map pairing_ids (pair_swiss_round standings played forbidden))
              (map player_id (active_players standings)).
Proof.
  rewrite pair_swiss_round_eq. set (seeds := isort higher_seed (active_players standings)).
  pose proof (carve_bye_even seeds forbidden) as He. pose proof (carve_bye_perm seeds forbidden) as Hperm.
  destruct (carve_bye seeds forbidden) as [bye pool]. cbn [fst snd] in *.
  destruct (best_round_spec pool played forbidden (round_exists pool forbidden He)) as [[Hr _] _].
  apply everyone_listed; [done|]. rewrite Hperm. apply isort_perm.
Qed.
