(* ===== verification/Storage.v ===== *)
(** * Sessions with the database: src/src/storage/database.cpp, transaction.{h,cpp}

    A program that talks to the database runs in [IO T]: it threads a [Session], the
    tables of type [T] together with the transaction that is open on the connection, and
    reads an [Environment], which decides how each statement fares and what the clocks
    say.  A statement is a function on the tables; it answers [None] when it violates a
    constraint of the schema.  [Lost] is the case the caller cannot tell from [Refused]:
    the statement took effect and the reply did not arrive.  A statement that fails
    inside a transaction spoils it: the following ones fail too, and whatever ends the
    transaction then restores the tables it began with. *)
From stdpp Require Import strings.
From S2P Require Import Prelude.
Open Scope Z_scope.

Inductive Fate := Works | Refused | Lost.

(** [complaint] is the text of [QueryResult::error] should the statement fail, and
    [server_time] the server's [now()], in seconds. *)
Record Outcome := mkOutcome { fate : Fate; complaint : string; server_time : Z }.

(** How the n-th statement fares, and the n-th reading of [Clock::unix_seconds]. *)
Record Environment := mkEnvironment { outcome : nat -> Outcome; clock : nat -> Z }.

Record Session (T : Type) := mkSession {
  tables : T; saved : option T; aborted : bool; statements : nat; readings : nat
}.
Arguments mkSession {T}. Arguments tables {T}. Arguments saved {T}. Arguments aborted {T}.
Arguments statements {T}. Arguments readings {T}.

Definition IO (T A : Type) : Type := Environment -> Session T -> A * Session T.

#[export] Instance IO_ret T : MRet (IO T) := fun A a env w => (a, w).
#[export] Instance IO_bind T : MBind (IO T) :=
  fun A B k m env w => let '(a, w) := m env w in k a env w.

(** ** Statements *)

Section statements.
Context {T : Type}.
Implicit Types w : Session T.

Definition next_statement w : Session T :=
  mkSession (tables w) (saved w) (aborted w) (S (statements w)) (readings w).
Definition with_tables (db : T) w : Session T :=
  mkSession db (saved w) (aborted w) (statements w) (readings w).
Definition spoil w : Session T :=
  mkSession (tables w) (saved w) (aborted w || bool_decide (is_Some (saved w))) (statements w) (readings w).

(** [Database::exec]: [inl] of the error text, or [inr] of what the statement returns. *)
Definition exec {R} (statement : Z -> T -> option (T * R)) : IO T (string + R) := fun env w =>
  let o := outcome env (statements w) in
  let w := next_statement w in
  if aborted w then (inl (complaint o), w) else
  match fate o, statement (server_time o) (tables w) with
  | Works, Some (db, r) => (inr r, with_tables db w)
  | Lost, Some (db, _) => (inl (complaint o), spoil (with_tables db w))
  | _, _ => (inl (complaint o), spoil w)
  end.

(** The same for a caller who looks at the SQLSTATE: [inl] of it. A statement that violates
    a constraint says which; on any other failure the state is arbitrary. *)
Definition exec_checked {R} (statement : Z -> T -> string + (T * R)) : IO T (string + R) := fun env w =>
  let o := outcome env (statements w) in
  let w := next_statement w in
  if aborted w then (inl (complaint o), w) else
  match fate o, statement (server_time o) (tables w) with
  | Works, inr (db, r) => (inr r, with_tables db w)
  | Works, inl sqlstate => (inl sqlstate, spoil w)
  | Lost, inr (db, _) => (inl (complaint o), spoil (with_tables db w))
  | _, _ => (inl (complaint o), spoil w)
  end.

(** A statement that only reads. *)
Definition select {R} (query : T -> R) : Z -> T -> option (T * R) := fun _ db => Some (db, query db).

(** ** Transactions *)

(** The session after the transaction, which [kept] or dropped its effects. *)
Definition end_transaction (kept : bool) w : Session T :=
  mkSession (if kept && negb (aborted w) then tables w else default (tables w) (saved w))
    None false (statements w) (readings w).

(** The constructor of [Transaction]. *)
Definition begin_transaction : IO T (string + unit) := fun env w =>
  let o := outcome env (statements w) in
  let w := next_statement w in
  match fate o with
  | Works => (inr tt, mkSession (tables w) (Some (tables w)) false (statements w) (readings w))
  | _ => (inl (complaint o), w)
  end.

(** [Transaction::commit]. Ending a spoilt transaction succeeds and rolls it back. *)
Definition commit_transaction : IO T bool := fun env w =>
  let o := outcome env (statements w) in
  let w := next_statement w in
  match fate o with
  | Works => (true, end_transaction true w)
  | Refused => (false, end_transaction false w)
  | Lost => (false, end_transaction true w)
  end.

(** The destructor of [Transaction], while it is open. *)
Definition rollback_transaction : IO T unit := fun env w =>
  (tt, end_transaction false (next_statement w)).

(** An early return with [a] while the transaction is open: its destructor runs. *)
Definition abandon {A} (a : A) : IO T A := rollback_transaction ≫= fun _ => mret a.

(** ** The clock of the process *)

Definition unix_seconds : IO T Z := fun env w =>
  (clock env (readings w),
   mkSession (tables w) (saved w) (aborted w) (statements w) (S (readings w))).
End statements.

(** An environment in which nothing fails. *)
Definition no_fault (env : Environment) : Prop := forall n, fate (outcome env n) = Works.

(** ** Tables as lists of rows *)

(** [UPDATE ... SET f WHERE cond], and the number of rows it affects. *)
Definition update {R} (cond : R -> bool) (f : R -> R) (rows : list R) : list R :=
  map (fun r => if cond r then f r else r) rows.
Definition affected {R} (cond : R -> bool) (rows : list R) : nat := length (List.filter cond rows).
(** The new versions of those rows, which the constraints are checked on. *)
Definition updated {R} (cond : R -> bool) (f : R -> R) (rows : list R) : list R :=
  map f (List.filter cond rows).
