(* ===== verification/StorageSpec.v ===== *)
(** * A program logic for database programs

    [wp calm o m Q db]: started on the tables [db], inside a transaction that began with
    [o] (or in none), [m] ends with an answer and tables that satisfy [Q], in the same
    transaction.  With [calm] the environment does not fail any statement; without it
    every statement may fail, take effect or not. *)
From stdpp Require Import strings.
From S2P Require Import Prelude Storage.
Open Scope Z_scope.

Definition wp {T A} (calm : bool) (o : option T) (m : IO T A) (Q : A -> T -> Prop) (db : T) : Prop :=
  forall env w, tables w = db -> saved w = o ->
    (calm = true -> no_fault env /\ aborted w = false) ->
    let '(a, w') := m env w in
    Q a (tables w') /\ saved w' = o /\ (calm = true -> aborted w' = false).

Section rules.
Context {T : Type} (calm : bool) (o : option T).
Implicit Types db : T.

Lemma wp_ret {A} (a : A) Q db : Q a db -> wp calm o (mret a) Q db.
Proof. intros H env w <- Ho Hc. cbn. split; [done|]. split; [done|]. intros Hcalm. by apply Hc. Qed.

Lemma wp_bind {A B} (m : IO T A) (k : A -> IO T B) Q db :
  wp calm o m (fun a db => wp calm o (k a) Q db) db -> wp calm o (m ≫= k) Q db.
Proof.
  intros H env w Hdb Ho Hc. specialize (H env w Hdb Ho Hc).
  change ((m ≫= k) env w) with (let '(a, w') := m env w in k a env w').
  destruct (m env w) as [a w']. destruct H as (H & Ho' & Ha). apply (H env w' eq_refl Ho').
  intros Hcalm. split; [by apply Hc|by apply Ha].
Qed.

Lemma wp_mono {A} (m : IO T A) (P Q : A -> T -> Prop) db :
  wp calm o m P db -> (forall a db', P a db' -> Q a db') -> wp calm o m Q db.
Proof.
  intros H HPQ env w Hdb Ho Hc. specialize (H env w Hdb Ho Hc).
  destruct (m env w) as [a w']. destruct H as (H & ? & ?). auto.
Qed.

(** Two postconditions at once, the second whatever fails. *)
Lemma wp_conj {A} (m : IO T A) (P Q : A -> T -> Prop) db :
  wp calm o m P db -> wp false o m Q db -> wp calm o m (fun a db' => P a db' /\ Q a db') db.
Proof.
  intros HP HQ env w Hdb Ho Hc. specialize (HP env w Hdb Ho Hc).
  assert (false = true -> no_fault env /\ aborted w = false) as Hf by done. specialize (HQ env w Hdb Ho Hf).
  destruct (m env w) as [a w']. destruct HP as (H1 & H2 & H3), HQ as (H4 & _ & _). auto.
Qed.

(** What a statement may lead to. *)
Lemma wp_exec {R} (statement : Z -> T -> option (T * R)) Q db :
  (calm = false -> forall e, Q (inl e) db) ->
  (forall now, statement now db = None -> (calm = true -> o = None) /\ forall e, Q (inl e) db) ->
  (forall now db' r, statement now db = Some (db', r) ->
     Q (inr r) db' /\ (calm = false -> forall e, Q (inl e) db')) ->
  wp calm o (exec statement) Q db.
Proof.
  intros Hfail Hnone Hsome env w <- Ho Hc. unfold exec. cbn [next_statement aborted tables].
  specialize (Hnone (server_time (outcome env (statements w)))).
  specialize (Hsome (server_time (outcome env (statements w)))).
  destruct calm.
  - destruct (Hc eq_refl) as [Hcalm Ha]. rewrite Ha, (Hcalm (statements w)).
    destruct (statement _ (tables w)) as [[db' r]|]; cbn.
    + destruct (Hsome db' r eq_refl) as [HQ _]. by repeat split.
    + destruct (Hnone eq_refl) as [Hn HQ]. split; [apply HQ|]. split; [done|]. intros _.
      rewrite Ha, Ho, Hn by done. by rewrite bool_decide_eq_false_2 by (by intros []).
  - destruct (aborted w); cbn; [split; [by apply Hfail|by split]|].
    destruct (fate (outcome env (statements w))), (statement _ (tables w)) as [[db' r]|]; cbn;
      (split; [|by split]); try (by apply Hfail); destruct (Hsome db' r eq_refl); auto.
Qed.

(** The same of a statement whose caller looks at the SQLSTATE. *)
Lemma wp_exec_checked {R} (statement : Z -> T -> string + (T * R)) Q db :
  (calm = false -> forall e, Q (inl e) db) ->
  (forall now e, statement now db = inl e -> (calm = true -> o = None) /\ Q (inl e) db) ->
  (forall now db' r, statement now db = inr (db', r) ->
     Q (inr r) db' /\ (calm = false -> forall e, Q (inl e) db')) ->
  wp calm o (exec_checked statement) Q db.
Proof.
  intros Hfail Hnone Hsome env w <- Ho Hc. unfold exec_checked. cbn [next_statement aborted tables].
  specialize (Hnone (server_time (outcome env (statements w)))).
  specialize (Hsome (server_time (outcome env (statements w)))).
  destruct calm.
  - destruct (Hc eq_refl) as [Hcalm Ha]. rewrite Ha, (Hcalm (statements w)).
    destruct (statement _ (tables w)) as [e|[db' r]]; cbn.
    + destruct (Hnone e eq_refl) as [Hn HQ]. split; [done|]. split; [done|]. intros _.
      rewrite Ha, Ho, Hn by done. by rewrite bool_decide_eq_false_2 by (by intros []).
    + destruct (Hsome db' r eq_refl) as [HQ _]. by repeat split.
  - destruct (aborted w); cbn; [split; [by apply Hfail|by split]|].
    destruct (fate (outcome env (statements w))), (statement _ (tables w)) as [e|[db' r]]; cbn;
      (split; [|by split]); try (by apply Hfail); destruct (Hsome db' r eq_refl); auto.
Qed.

Lemma wp_select {R} (query : T -> R) Q db :
  Q (inr (query db)) db -> (calm = false -> forall e, Q (inl e) db) ->
  wp calm o (exec (select query)) Q db.
Proof.
  intros HQ Hfail. apply wp_exec; [done|done|]. intros now db' r [= <- <-]. by split.
Qed.

Lemma wp_clock Q db : (forall now, Q now db) -> wp calm o (unix_seconds (T := T)) Q db.
Proof. intros H env w <- Ho Hc. cbn. split; [done|]. split; [done|]. intros Hcalm. by apply Hc. Qed.

(** A SELECT whose failure reads like the empty answer. *)
Lemma wp_rows {R B} (query : T -> list R) (f : list R -> B) Q db :
  Q (f (query db)) db -> (calm = false -> Q (f []) db) ->
  wp calm o (exec (select query) ≫= fun r => mret (f (match r with inr l => l | inl _ => [] end))) Q db.
Proof. intros H1 H2. apply wp_bind, wp_select; [by apply wp_ret|]. intros Hc e. by apply wp_ret, H2. Qed.
End rules.

(** ** Inside a transaction

    [wp_tx calm d m Q db]: [m] runs on [db] inside the transaction that began with [d],
    and ends it. *)
Definition wp_tx {T A} (calm : bool) (d : T) (m : IO T A) (Q : A -> T -> Prop) (db : T) : Prop :=
  forall env w, tables w = db -> saved w = Some d ->
    (calm = true -> no_fault env /\ aborted w = false) ->
    let '(a, w') := m env w in
    Q a (tables w') /\ saved w' = None /\ (calm = true -> aborted w' = false).

Section transactions.
Context {T : Type} (calm : bool).
Implicit Types db d : T.

Lemma wp_tx_bind {A B} d (m : IO T A) (k : A -> IO T B) Q db :
  wp calm (Some d) m (fun a db => wp_tx calm d (k a) Q db) db -> wp_tx calm d (m ≫= k) Q db.
Proof.
  intros H env w Hdb Ho Hc. specialize (H env w Hdb Ho Hc).
  change ((m ≫= k) env w) with (let '(a, w') := m env w in k a env w').
  destruct (m env w) as [a w']. destruct H as (H & Ho' & Ha). apply (H env w' eq_refl Ho').
  intros Hcalm. split; [by apply Hc|by apply Ha].
Qed.

Lemma wp_begin {A} (k : string + unit -> IO T A) Q db :
  (calm = false -> forall e, wp calm None (k (inl e)) Q db) -> wp_tx calm db (k (inr tt)) Q db ->
  wp calm None (begin_transaction ≫= k) Q db.
Proof.
  intros Hfail Hk env w <- Ho Hc.
  change ((begin_transaction ≫= k) env w)
    with (let '(a, w') := begin_transaction env w in k a env w').
  unfold begin_transaction. destruct calm.
  - destruct (Hc eq_refl) as [Hn _]. rewrite Hn. by apply Hk.
  - destruct (fate _); cbn [next_statement tables saved aborted statements readings];
      [by apply Hk|by apply Hfail|by apply Hfail].
Qed.

Lemma wp_tx_rollback {A} d (k : unit -> IO T A) Q db :
  wp calm None (k tt) Q d -> wp_tx calm d (rollback_transaction ≫= k) Q db.
Proof.
  intros Hk env w Hdb Ho Hc.
  change ((rollback_transaction ≫= k) env w)
    with (let '(a, w') := rollback_transaction env w in k a env w').
  unfold rollback_transaction, end_transaction. cbn. rewrite Ho. apply Hk; [done|done|]. intros Hcalm. split; [by apply Hc|done].
Qed.

Lemma wp_tx_commit {A} d (k : bool -> IO T A) Q db :
  wp calm None (k true) Q db ->
  (calm = false -> wp calm None (k true) Q d /\ wp calm None (k false) Q d /\ wp calm None (k false) Q db) ->
  wp_tx calm d (commit_transaction ≫= k) Q db.
Proof.
  intros Hdone Hother env w <- Ho Hc.
  change ((commit_transaction ≫= k) env w)
    with (let '(a, w') := commit_transaction env w in k a env w').
  unfold commit_transaction, end_transaction. destruct calm.
  - destruct (Hc eq_refl) as [Hn Ha]. rewrite Hn. cbn. rewrite Ha. by apply Hdone.
  - destruct (Hother eq_refl) as (H1 & H2 & H3).
    cbn. rewrite Ho. destruct (fate _), (aborted w); cbn;
      first [by apply Hdone|by apply H1|by apply H2|by apply H3].
Qed.
End transactions.


(** [wp_live]: the same of a transaction no statement has failed in, so that what is
    committed is kept. *)
Definition wp_live {T A} (calm : bool) (d : T) (m : IO T A) (Q : A -> T -> Prop) (db : T) : Prop :=
  forall env w, tables w = db -> saved w = Some d -> aborted w = false -> (calm = true -> no_fault env) ->
    let '(a, w') := m env w in
    Q a (tables w') /\ saved w' = None /\ (calm = true -> aborted w' = false).

(** What remains to do once a statement has failed: whatever the tables, [m] ends the
    transaction and restores [d]. *)
Definition wp_dead {T A} (calm : bool) (d : T) (m : IO T A) (Q : A -> T -> Prop) : Prop :=
  forall env w, saved w = Some d -> (calm = true -> no_fault env) ->
    let '(a, w') := m env w in
    Q a (tables w') /\ saved w' = None /\ (calm = true -> aborted w' = false).

Section live.
Context {T : Type} (calm : bool).
Implicit Types db d : T.

Lemma live_begin {A} (k : string + unit -> IO T A) Q db :
  (calm = false -> forall e, wp calm None (k (inl e)) Q db) -> wp_live calm db (k (inr tt)) Q db ->
  wp calm None (begin_transaction ≫= k) Q db.
Proof.
  intros Hfail Hk env w <- Ho Hc.
  change ((begin_transaction ≫= k) env w)
    with (let '(a, w') := begin_transaction env w in k a env w').
  unfold begin_transaction. destruct calm.
  - destruct (Hc eq_refl) as [Hn _]. rewrite Hn. by apply Hk.
  - destruct (fate _); cbn [next_statement tables saved aborted statements readings];
      [by apply Hk|by apply Hfail|by apply Hfail].
Qed.

Lemma dead_rollback {A} d (k : unit -> IO T A) Q :
  wp calm None (k tt) Q d -> wp_dead calm d (rollback_transaction ≫= k) Q.
Proof.
  intros Hk env w Ho Hc.
  change ((rollback_transaction ≫= k) env w)
    with (let '(a, w') := rollback_transaction env w in k a env w').
  unfold rollback_transaction, end_transaction. cbn. rewrite Ho. apply Hk; [done|done|].
  intros Hcalm. split; [by apply Hc|done].
Qed.

Lemma live_rollback {A} d (k : unit -> IO T A) Q db :
  wp calm None (k tt) Q d -> wp_live calm d (rollback_transaction ≫= k) Q db.
Proof. intros Hk env w _ Ho _ Hc. by apply (dead_rollback _ _ _ Hk). Qed.

Lemma live_commit {A} d (k : bool -> IO T A) Q db :
  wp calm None (k true) Q db ->
  (calm = false -> wp calm None (k false) Q d /\ wp calm None (k false) Q db) ->
  wp_live calm d (commit_transaction ≫= k) Q db.
Proof.
  intros Hdone Hother env w <- Ho Ha Hc.
  change ((commit_transaction ≫= k) env w)
    with (let '(a, w') := commit_transaction env w in k a env w').
  unfold commit_transaction, end_transaction. cbn. rewrite Ho, Ha. cbn. destruct calm.
  - rewrite Hc by done. apply Hdone; cbn; auto.
  - destruct (Hother eq_refl) as (H1 & H2).
    destruct (fate _); cbn; [by apply Hdone|by apply H1|by apply H2].
Qed.

Lemma live_exec {R A} d (statement : Z -> T -> option (T * R)) (k : string + R -> IO T A) Q db :
  (calm = false -> forall e, wp_dead calm d (k (inl e)) Q) ->
  (forall now, statement now db = None -> forall e, wp_dead calm d (k (inl e)) Q) ->
  (forall now db' r, statement now db = Some (db', r) -> wp_live calm d (k (inr r)) Q db') ->
  wp_live calm d (exec statement ≫= k) Q db.
Proof.
  intros Hfail Hnone Hsome env w <- Ho Ha Hc.
  change ((exec statement ≫= k) env w) with (let '(a, w') := exec statement env w in k a env w').
  unfold exec. cbn [next_statement aborted tables]. rewrite Ha.
  specialize (Hsome (server_time (outcome env (statements w)))).
  specialize (Hnone (server_time (outcome env (statements w)))).
  destruct calm.
  - rewrite Hc by done. destruct (statement _ (tables w)) as [[db' r]|];
      [by apply (Hsome db' r)|by apply (Hnone eq_refl _ env)].
  - destruct (fate _), (statement _ (tables w)) as [[db' r]|];
      first [by apply (Hsome db' r)|by apply (Hfail eq_refl _ env)].
Qed.

Lemma live_exec_checked {R A} d (statement : Z -> T -> string + (T * R)) (k : string + R -> IO T A) Q db :
  (calm = false -> forall e, wp_dead calm d (k (inl e)) Q) ->
  (forall now e, statement now db = inl e -> wp_dead calm d (k (inl e)) Q) ->
  (forall now db' r, statement now db = inr (db', r) -> wp_live calm d (k (inr r)) Q db') ->
  wp_live calm d (exec_checked statement ≫= k) Q db.
Proof.
  intros Hfail Hnone Hsome env w <- Ho Ha Hc.
  change ((exec_checked statement ≫= k) env w)
    with (let '(a, w') := exec_checked statement env w in k a env w').
  unfold exec_checked. cbn [next_statement aborted tables]. rewrite Ha.
  specialize (Hsome (server_time (outcome env (statements w)))).
  specialize (Hnone (server_time (outcome env (statements w)))).
  destruct calm.
  - rewrite Hc by done. destruct (statement _ (tables w)) as [e|[db' r]];
      [by apply (Hnone e eq_refl env)|by apply (Hsome db' r)].
  - destruct (fate _), (statement _ (tables w)) as [e|[db' r]];
      first [by apply (Hsome db' r)|by apply (Hfail eq_refl _ env)].
Qed.

Lemma live_select {R A} d (query : T -> R) (k : string + R -> IO T A) Q db :
  (calm = false -> forall e, wp_dead calm d (k (inl e)) Q) -> wp_live calm d (k (inr (query db))) Q db ->
  wp_live calm d (exec (select query) ≫= k) Q db.
Proof. intros Hfail Hk. apply live_exec; [done|done|]. by intros now db' r [= <- <-]. Qed.

(** ** Contracts

    A program keeps to a contract [R] on its answer and the tables it leaves, but when
    statements may fail it may also answer [failed], with the tables it began with or those
    the contract has. *)
Definition kept_or_failed {A} (R : A -> T -> Prop) (failed : A) (db : T) (a : A) (db' : T) : Prop :=
  R a db' \/ calm = false /\ a = failed /\ (db' = db \/ exists a', R a' db').

Section contract.
Context {A : Type} (R : A -> T -> Prop) (failed : A) (db : T).
Notation Q := (kept_or_failed R failed db).

Lemma kept_wp a db' : R a db' -> wp calm None (mret a) Q db'.
Proof. intros H. apply wp_ret. by left. Qed.

Lemma failed_wp : calm = false -> wp calm None (mret failed) Q db.
Proof. intros H. apply wp_ret. right. split; [done|]. split; [done|by left]. Qed.

Lemma abandon_kept a : R a db -> wp_dead calm db (abandon a) Q.
Proof. intros H. by apply dead_rollback, kept_wp. Qed.

Lemma abandon_failed : calm = false -> wp_dead calm db (abandon failed) Q.
Proof. intros H. by apply dead_rollback, failed_wp. Qed.

Lemma live_abandon_kept a db' : R a db -> wp_live calm db (abandon a) Q db'.
Proof. intros H. by apply live_rollback, kept_wp. Qed.

(** A commit that decides between an answer and [failed]. *)
Lemma commit_kept a db' :
  R a db' -> wp_live calm db (commit_transaction ≫= fun ok => mret (if (ok : bool) then a else failed)) Q db'.
Proof.
  intros HR. apply live_commit; [by apply kept_wp|]. intros Hc.
  split; apply wp_ret; right; (split; [done|]; split; [done|]); eauto.
Qed.
End contract.
End live.

(** Steps through a program: one tactic per construct. *)
Ltac wp_step :=
  cbn beta iota;
  match goal with
  | |- wp _ _ (mret _) _ _ => apply wp_ret
  | |- wp _ _ (_ ≫= _) _ _ => apply wp_bind
  | |- wp _ _ (exec (select _)) _ _ => apply wp_select; [|intros ? ?]
  | |- wp _ _ unix_seconds _ _ => apply wp_clock; intros ?
  end; cbn beta iota.

(** ** Rows *)

Lemma in_update {R} (cond : R -> bool) f rows r :
  In r (update cond f rows) <-> exists r0, In r0 rows /\ r = if cond r0 then f r0 else r0.
Proof.
  unfold update. rewrite in_map_iff. split; intros (x & H1 & H2); exists x; split; auto.
Qed.

Lemma map_update {R K} (key : R -> K) cond f rows :
  (forall r, key (f r) = key r) -> map key (update cond f rows) = map key rows.
Proof.
  intros Hk. unfold update. rewrite map_map. apply map_ext. intros r. destruct (cond r); auto.
Qed.

(** Rows that neither the selection nor the update concerns are the same before and after. *)
Lemma filter_update_other {R} (other cond : R -> bool) f rows :
  (forall r, In r rows -> cond r = true -> other r = false /\ other (f r) = false) ->
  List.filter other (update cond f rows) = List.filter other rows.
Proof.
  induction rows as [|r rows IH]; cbn; [done|]. intros H. fold (update cond f rows).
  rewrite IH by (intros r' Hr'; apply H; by right).
  destruct (cond r) eqn:E; [|done]. destruct (H r (or_introl eq_refl) E) as [-> ->]. done.
Qed.

Lemma filter_filter {A} (f g : A -> bool) l :
  List.filter f (List.filter g l) = List.filter (fun x => f x && g x) l.
Proof.
  induction l as [|x l IH]; cbn; [done|]. destruct (g x) eqn:E; cbn; rewrite IH, E || rewrite IH.
  - by rewrite andb_true_r.
  - by rewrite andb_false_r.
Qed.
