(* ===== verification/TournamentRepo.v ===== *)
(** * Tournament storage: src/src/tournament/tournament_repo.{h,cpp}

    The tables of migrations 0003, 0010, 0012 and 0013 as lists of rows, each SQL
    statement as a function on them that answers [None] where it breaks a constraint, and
    the repository's functions as programs in [IO Tables].  Times are in seconds; scores
    are in half points.  Columns that are only displayed (the creation time of a pairing,
    the registration time of a player) are left out, and so is the rendering of rows as
    text between the server and the program. *)
From stdpp Require Import strings.
From S2P Require Import Prelude Storage.
Open Scope string_scope.
Open Scope list_scope.
Open Scope Z_scope.

(** ** Rows *)

Record StoredTournament := mkTournament {
  t_id : Z; t_name : string; t_format : string; t_rounds : Z; t_current_round : Z;
  t_initial_ms : Z; t_increment_ms : Z; t_status : string; t_created_by : Z;
  t_deadline : Z; t_first_round : Z; t_duration : Z; t_open : bool;
  t_closed_at : option Z; t_created_at : Z; t_started_at : option Z; t_completed_at : option Z
}.

Record StoredTournamentPlayer := mkPlayer {
  tp_tournament : Z; tp_player : Z; tp_elo : Z; tp_score : Z; tp_whites : Z;
  tp_bye : bool; tp_withdrawn : bool
}.

Record StoredPairing := mkStoredPairing {
  pr_id : Z; pr_tournament : Z; pr_round : Z; pr_white : Z; pr_black : option Z;
  pr_game : option Z; pr_replay : option Z; pr_result : string;
  pr_source : option string; pr_recorded_at : option Z
}.

Record StoredTournamentRound := mkRound {
  tr_tournament : Z; tr_round : Z; tr_earliest : Z; tr_started_at : option Z;
  tr_check_in_closes : Z; tr_completed_at : option Z; tr_status : string
}.

(** A row of [tournament_round_checkins]: tournament, round, player, time. *)
Record CheckIn := mkCheckIn { ci_tournament : Z; ci_round : Z; ci_player : Z; ci_at : Z }.

Record Override := mkOverride {
  ov_pairing : Z; ov_actor : Z; ov_old : string; ov_new : string; ov_reason : string
}.

(** [accounts] are the rows of the table [players] (identifier and username), [games] the
    identifiers of the table [games]; the last two are the sequences behind BIGSERIAL. *)
Record Tables := mkTables {
  accounts : list (Z * string); games : list Z;
  tournaments : list StoredTournament; players : list StoredTournamentPlayer;
  pairings : list StoredPairing; rounds : list StoredTournamentRound;
  checkins : list CheckIn; overrides : list Override;
  next_tournament : Z; next_pairing : Z
}.

Definition with_tournaments ts db :=
  mkTables (accounts db) (games db) ts (players db) (pairings db) (rounds db) (checkins db)
    (overrides db) (next_tournament db) (next_pairing db).
Definition with_players ps db :=
  mkTables (accounts db) (games db) (tournaments db) ps (pairings db) (rounds db) (checkins db)
    (overrides db) (next_tournament db) (next_pairing db).
Definition with_pairings ps db :=
  mkTables (accounts db) (games db) (tournaments db) (players db) ps (rounds db) (checkins db)
    (overrides db) (next_tournament db) (next_pairing db).
Definition with_rounds rs db :=
  mkTables (accounts db) (games db) (tournaments db) (players db) (pairings db) rs (checkins db)
    (overrides db) (next_tournament db) (next_pairing db).
Definition with_checkins cs db :=
  mkTables (accounts db) (games db) (tournaments db) (players db) (pairings db) (rounds db) cs
    (overrides db) (next_tournament db) (next_pairing db).
Definition with_overrides os db :=
  mkTables (accounts db) (games db) (tournaments db) (players db) (pairings db) (rounds db)
    (checkins db) os (next_tournament db) (next_pairing db).
Definition with_next_tournament n db :=
  mkTables (accounts db) (games db) (tournaments db) (players db) (pairings db) (rounds db)
    (checkins db) (overrides db) n (next_pairing db).
Definition with_next_pairing n db :=
  mkTables (accounts db) (games db) (tournaments db) (players db) (pairings db) (rounds db)
    (checkins db) (overrides db) (next_tournament db) n.

(** ** Constraints *)

Definition one_of (s : string) (l : list string) : bool := existsb (String.eqb s) l.

(** The CHECK constraints of [tournaments], as migrations 0010 and 0013 leave them. *)
Definition tournament_ok (t : StoredTournament) : bool :=
  one_of (t_format t) ["swiss"; "winners_advance"] && (0 <? t_rounds t) &&
  (0 <=? t_current_round t) && (t_current_round t <=? t_rounds t) &&
  (0 <? t_initial_ms t) && (0 <=? t_increment_ms t) &&
  one_of (t_status t) ["registration"; "scheduled"; "in_progress"; "completed"] &&
  (t_deadline t + 30 <=? t_first_round t) && (60 <=? t_duration t).

Definition round_ok (r : StoredTournamentRound) : bool :=
  (0 <? tr_round r) && one_of (tr_status r) ["scheduled"; "live"; "completed"] &&
  (tr_earliest r <=? tr_check_in_closes r).

Definition pairing_ok (p : StoredPairing) : bool :=
  (0 <? pr_round p) &&
  one_of (pr_result p) ["pending"; "1-0"; "0-1"; "1/2-1/2"; "bye"; "double_forfeit"] &&
  match pr_source p with
  | Some s => one_of s ["manual"; "game"; "forfeit"; "bye"; "override"]
  | None => true
  end &&
  match pr_black p with
  | None => (pr_result p =? "bye")%string
  | Some _ => negb (pr_result p =? "bye")%string
  end.

(** [length(btrim(reason)) > 0] *)
Definition reason_ok (reason : string) : bool :=
  existsb (fun c => negb (Ascii.eqb c (Ascii.ascii_of_nat 32))) (String.list_ascii_of_string reason).

Definition is_account (db : Tables) (p : Z) : bool := existsb (fun a => fst a =? p) (accounts db).

(** The unique constraints and foreign keys of a new row of [tournament_pairings]. *)
Definition pairing_fits (db : Tables) (p : StoredPairing) : bool :=
  existsb (fun t => t_id t =? pr_tournament p) (tournaments db) &&
  is_account db (pr_white p) && from_option (is_account db) true (pr_black p) &&
  forallb (fun q =>
    negb ((pr_tournament q =? pr_tournament p) && (pr_round q =? pr_round p) &&
          ((pr_white q =? pr_white p) ||
           match pr_black q, pr_black p with Some a, Some b => a =? b | _, _ => false end)))
    (pairings db).

(** ** Tournaments *)

(** [LEAST(registration_deadline, first_round_starts_at - INTERVAL '90 seconds')] *)
Definition entry_closes (t : StoredTournament) : Z := Z.min (t_deadline t) (t_first_round t - 90).

Definition with_status (status : string) (open : bool) (closed : option Z) t :=
  mkTournament (t_id t) (t_name t) (t_format t) (t_rounds t) (t_current_round t) (t_initial_ms t)
    (t_increment_ms t) status (t_created_by t) (t_deadline t) (t_first_round t) (t_duration t)
    open closed (t_created_at t) (t_started_at t) (t_completed_at t).

Definition with_rounds_played (total current : Z) t :=
  mkTournament (t_id t) (t_name t) (t_format t) total current (t_initial_ms t)
    (t_increment_ms t) (t_status t) (t_created_by t) (t_deadline t) (t_first_round t) (t_duration t)
    (t_open t) (t_closed_at t) (t_created_at t) (t_started_at t) (t_completed_at t).

Definition with_progress (status : string) (started completed : option Z) t :=
  mkTournament (t_id t) (t_name t) (t_format t) (t_rounds t) (t_current_round t) (t_initial_ms t)
    (t_increment_ms t) status (t_created_by t) (t_deadline t) (t_first_round t) (t_duration t)
    (t_open t) (t_closed_at t) (t_created_at t) started completed.

(** The statement of [create_tournament]: one row and its rounds. *)
Definition sql_create_tournament name total initial increment creator deadline first duration format
    (now : Z) (db : Tables) : option (Tables * Z) :=
  let id := next_tournament db in
  let t := mkTournament id name format total 0 initial increment "registration" creator deadline
             first duration true None now None None in
  let new := map (fun n => mkRound id (Z.of_nat n) (first + (Z.of_nat n - 1) * duration) None
                             (first + Z.of_nat n * duration) None "scheduled")
                 (seq 1 (Z.to_nat total)) in
  if tournament_ok t && is_account db creator && forallb round_ok new then
    Some (with_next_tournament (id + 1)
            (with_tournaments (tournaments db ++ [t]) (with_rounds (rounds db ++ new) db)), id)
  else None.

Inductive CreateTournamentResult := Created (id : Z) | NotCreated (error : string).

(** [normal] is [lower(btrim(_))] in the collation of the database. *)
Definition create_tournament (normal : string -> string) (name : string)
    (total initial increment creator deadline first duration : Z) (format : string)
    : IO Tables CreateTournamentResult :=
  if negb ((format =? "swiss") || (format =? "winners_advance"))%string
  then mret (NotCreated "invalid_format") else
  let total := if (format =? "winners_advance")%string then 1 else total in
  if total <=? 0 then mret (NotCreated "rounds must be positive") else
  if initial <=? 0 then mret (NotCreated "time_base must be positive") else
  if increment <? 0 then mret (NotCreated "time_inc must be non-negative") else
  let deadline := if deadline <=? 0 then 4102444800 else deadline in
  let first := if first <=? 0 then deadline + 300 else first in
  if first <? deadline + 30
  then mret (NotCreated "first round must start at least 30 seconds after registration closes") else
  if duration <? 60 then mret (NotCreated "round duration must be at least 60 seconds") else
  tx ← begin_transaction;
  match tx with
  | inl _ => mret (NotCreated "database unavailable")
  | inr _ =>
      let abandon error := (_ ← rollback_transaction; mret (NotCreated error)) in
      lock ← exec (select (fun _ => tt));
      match lock with
      | inl error => abandon error
      | inr _ =>
          duplicate ← exec (select (fun db =>
            List.filter (fun t => String.eqb (normal (t_name t)) (normal name)) (tournaments db)));
          match duplicate with
          | inl error => abandon error
          | inr (_ :: _) => abandon "tournament_name_taken"
          | inr [] =>
              made ← exec (sql_create_tournament name total initial increment creator deadline
                             first duration format);
              match made with
              | inl error => abandon error
              | inr id =>
                  done ← commit_transaction;
                  mret (if done : bool then Created id else NotCreated "create transaction failed")
              end
          end
      end
  end.

Definition rows_of {R} (r : string + list R) : list R := match r with inr l => l | inl _ => [] end.
Definition succeeded (r : string + nat) : bool :=
  match r with inr n => (0 <? n)%nat | inl _ => false end.

Definition find_tournament (id : Z) : IO Tables (option StoredTournament) :=
  r ← exec (select (fun db => List.filter (fun t => t_id t =? id) (tournaments db)));
  mret (head (rows_of r)).

(** [ORDER BY created_at DESC LIMIT n]; an empty [status] asks for all. *)
Definition list_tournaments (status : string) (limit : Z) : IO Tables (list StoredTournament) :=
  if limit <=? 0 then mret [] else
  r ← exec (select (fun db =>
    firstn (Z.to_nat limit) (isort (fun a b => t_created_at b <? t_created_at a)
      (List.filter (fun t => String.eqb status "" || String.eqb (t_status t) status)
        (tournaments db)))));
  mret (rows_of r).

Definition sql_set_status (status : string) (id now : Z) (db : Tables) : option (Tables * nat) :=
  let stamp b (old : option Z) := if b && negb (bool_decide (is_Some old)) then Some now else old in
  let hit t := t_id t =? id in
  let set t := with_progress status
                 (stamp (String.eqb status "in_progress") (t_started_at t))
                 (stamp (String.eqb status "completed") (t_completed_at t)) t in
  if forallb tournament_ok (updated hit set (tournaments db))
  then Some (with_tournaments (update hit set (tournaments db)) db, affected hit (tournaments db))
  else None.

Definition set_tournament_status (id : Z) (status : string) : IO Tables bool :=
  r ← exec (sql_set_status status id); mret (succeeded r).

Definition sql_set_round (round id : Z) (_ : Z) (db : Tables) : option (Tables * nat) :=
  let hit t := t_id t =? id in
  let set t := with_rounds_played (t_rounds t) round t in
  if forallb tournament_ok (updated hit set (tournaments db))
  then Some (with_tournaments (update hit set (tournaments db)) db, affected hit (tournaments db))
  else None.

Definition set_tournament_round (id round : Z) : IO Tables bool :=
  r ← exec (sql_set_round round id); mret (succeeded r).

(** ** Participants *)

Definition is_player (tid p : Z) (tp : StoredTournamentPlayer) : bool :=
  (tp_tournament tp =? tid) && (tp_player tp =? p).

(** [INSERT ... SELECT ... FROM tournaments ... ON CONFLICT DO NOTHING] *)
Definition sql_add_participant (tid p elo now_unix : Z) (_ : Z) (db : Tables) : option (Tables * nat) :=
  let admits t := (t_id t =? tid) && String.eqb (t_status t) "registration" && t_open t &&
                  ((now_unix =? 0) || (now_unix <? entry_closes t)) in
  if existsb admits (tournaments db) && negb (existsb (is_player tid p) (players db)) then
    if is_account db p
    then Some (with_players (players db ++ [mkPlayer tid p elo 0 0 false false]) db, 1%nat)
    else None
  else Some (db, 0%nat).

Definition participant_exists (tid p : Z) (db : Tables) : list unit :=
  map (fun _ => tt) (List.filter (is_player tid p) (players db)).

(** [ManagerResult] and [JoinTournamentResult]: [ok], or the error. *)
Inductive ManagerResult := Fine | Failed (error : string).

Definition add_participant (tid p elo now_unix : Z) : IO Tables ManagerResult :=
  let now_unix := if now_unix <=? 0 then 0 else now_unix in
  r ← exec (sql_add_participant tid p elo now_unix);
  match r with
  | inl error => mret (Failed error)
  | inr 0%nat =>
      existing ← exec (select (participant_exists tid p));
      mret (match existing with inr (_ :: _) => Fine | _ => Failed "registration_closed" end)
  | inr _ => mret Fine
  end.

Definition sql_remove_participant (tid p now_unix : Z) (_ : Z) (db : Tables) : option (Tables * nat) :=
  let leaves tp := is_player tid p tp &&
    existsb (fun t => (t_id t =? tid) && String.eqb (t_status t) "registration" && t_open t &&
                      (now_unix <? entry_closes t)) (tournaments db) in
  Some (with_players (List.filter (fun tp => negb (leaves tp)) (players db)) db,
        affected leaves (players db)).

Definition remove_participant (tid p now_unix : Z) : IO Tables ManagerResult :=
  r ← exec (sql_remove_participant tid p now_unix);
  match r with
  | inl error => mret (Failed error)
  | inr 0%nat =>
      participant ← exec (select (participant_exists tid p));
      mret (Failed (match participant with inr [] => "not_registered" | _ => "registration_closed" end))
  | inr _ => mret Fine
  end.

Definition sql_set_registration_open (tid : Z) (open : bool) (now_unix : Z) (_ : Z) (db : Tables)
    : option (Tables * nat) :=
  let hit t := (t_id t =? tid) && one_of (t_status t) ["registration"; "scheduled"] &&
    (negb open || ((now_unix <? entry_closes t) &&
                   negb (existsb (fun p => pr_tournament p =? tid) (pairings db)))) in
  let set t := if open then with_status "registration" true None t
               else with_status "scheduled" false (Some (default now_unix (t_closed_at t))) t in
  if forallb tournament_ok (updated hit set (tournaments db))
  then Some (with_tournaments (update hit set (tournaments db)) db, affected hit (tournaments db))
  else None.

Definition set_registration_open (tid : Z) (open : bool) (now_unix : Z) : IO Tables bool :=
  r ← exec (sql_set_registration_open tid open now_unix); mret (succeeded r).

Definition get_rounds (tid : Z) : IO Tables (list StoredTournamentRound) :=
  r ← exec (select (fun db => isort (fun a b => tr_round a <? tr_round b)
             (List.filter (fun r => tr_tournament r =? tid) (rounds db))));
  mret (rows_of r).

Definition is_check_in (tid round p : Z) (c : CheckIn) : bool :=
  (ci_tournament c =? tid) && (ci_round c =? round) && (ci_player c =? p).

Definition sql_check_in (tid round p now_unix : Z) (_ : Z) (db : Tables) : option (Tables * nat) :=
  let admits := existsb (fun r => (tr_tournament r =? tid) && (tr_round r =? round) &&
                   one_of (tr_status r) ["scheduled"; "live"] && (now_unix <=? tr_check_in_closes r))
                  (rounds db) &&
                existsb (fun tp => is_player tid p tp && negb (tp_withdrawn tp)) (players db) in
  if admits && negb (existsb (is_check_in tid round p) (checkins db))
  then Some (with_checkins (checkins db ++ [mkCheckIn tid round p now_unix]) db, 1%nat)
  else Some (db, 0%nat).

(** The [error] it fills in, when it returns false. *)
Definition check_in_player (tid round p now_unix : Z) : IO Tables ManagerResult :=
  r ← exec (sql_check_in tid round p now_unix);
  match r with
  | inl error => mret (Failed error)
  | inr 0%nat =>
      q ← exec (select (fun db => List.filter (is_check_in tid round p) (checkins db)));
      mret (match q with inr (_ :: _) => Fine | _ => Failed "check_in_closed_or_not_registered" end)
  | inr _ => mret Fine
  end.

Definition get_round_checkins (tid round : Z) : IO Tables (list Z) :=
  r ← exec (select (fun db => map ci_player
             (List.filter (fun c => (ci_tournament c =? tid) && (ci_round c =? round)) (checkins db))));
  mret (rows_of r).

(** [ORDER BY score DESC, initial_elo DESC, player_id ASC] *)
Definition player_before (a b : StoredTournamentPlayer) : bool :=
  if negb (tp_score a =? tp_score b) then tp_score b <? tp_score a
  else if negb (tp_elo a =? tp_elo b) then tp_elo b <? tp_elo a
  else tp_player a <? tp_player b.

Definition participants_of (tid : Z) (db : Tables) : list StoredTournamentPlayer :=
  List.filter (fun tp => tp_tournament tp =? tid) (players db).

Definition get_participants (tid : Z) : IO Tables (list StoredTournamentPlayer) :=
  r ← exec (select (fun db => isort player_before (participants_of tid db)));
  mret (rows_of r).

Definition get_participant_usernames (tid : Z) : IO Tables (list (Z * string)) :=
  r ← exec (select (fun db => List.filter (fun a =>
        existsb (fun tp => tp_player tp =? fst a) (participants_of tid db) ||
        existsb (fun t => (t_id t =? tid) && (t_created_by t =? fst a)) (tournaments db))
      (accounts db)));
  mret (rows_of r).

(** [score_delta] is in half points. *)
Definition sql_bump_participant (tid p delta : Z) (played_white bye : bool) (_ : Z) (db : Tables)
    : option (Tables * nat) :=
  let set tp := mkPlayer (tp_tournament tp) (tp_player tp) (tp_elo tp) (tp_score tp + delta)
      (tp_whites tp + if played_white then 1 else 0) (tp_bye tp || bye) (tp_withdrawn tp) in
  if forallb (fun tp => (0 <=? tp_score tp) && (0 <=? tp_whites tp)) (updated (is_player tid p) set (players db))
  then Some (with_players (update (is_player tid p) set (players db)) db,
             affected (is_player tid p) (players db))
  else None.

Definition bump_participant (tid p delta : Z) (played_white bye : bool) : IO Tables bool :=
  r ← exec (sql_bump_participant tid p delta played_white bye); mret (succeeded r).

(** ** Pairings *)

Definition is_black (p : Z) (pr : StoredPairing) : bool :=
  match pr_black pr with Some b => b =? p | None => false end.
Definition plays (p : Z) (pr : StoredPairing) : bool := (pr_white pr =? p) || is_black p pr.

Definition pairings_of (tid : Z) (db : Tables) : list StoredPairing :=
  List.filter (fun pr => pr_tournament pr =? tid) (pairings db).

Definition sql_insert_pairing (tid round white : Z) (black : option Z) (result : string)
    (now : Z) (db : Tables) : option (Tables * Z) :=
  let bye := String.eqb result "bye" in
  let p := mkStoredPairing (next_pairing db) tid round white black None None result
             (if bye then Some "bye" else None) (if bye then Some now else None) in
  if pairing_ok p && pairing_fits db p
  then Some (with_next_pairing (next_pairing db + 1) (with_pairings (pairings db ++ [p]) db),
             next_pairing db)
  else None.

Inductive InsertPairingResult := Inserted (id : Z) | NotInserted (error : string).

Definition insert_pairing (tid round white : Z) (black : option Z) (result : string)
    : IO Tables InsertPairingResult :=
  r ← exec (sql_insert_pairing tid round white black result);
  mret (match r with inr id => Inserted id | inl error => NotInserted error end).

(** [ORDER BY round ASC, id ASC] *)
Definition pairing_before (a b : StoredPairing) : bool :=
  if negb (pr_round a =? pr_round b) then pr_round a <? pr_round b else pr_id a <? pr_id b.

Definition get_pairings (tid : Z) : IO Tables (list StoredPairing) :=
  r ← exec (select (fun db => isort pairing_before (pairings_of tid db)));
  mret (rows_of r).

Definition round_of (tid round : Z) (db : Tables) : list StoredPairing :=
  List.filter (fun p => pr_round p =? round) (pairings_of tid db).

Definition get_pairings_for_round (tid round : Z) : IO Tables (list StoredPairing) :=
  r ← exec (select (fun db => isort (fun a b => pr_id a <? pr_id b) (round_of tid round db)));
  mret (rows_of r).

Definition find_pairing (id : Z) : IO Tables (option StoredPairing) :=
  r ← exec (select (fun db => List.filter (fun p => pr_id p =? id) (pairings db)));
  mret (head (rows_of r)).

Definition live_before (a b : StoredPairing) : bool :=
  if negb (pr_tournament a =? pr_tournament b) then pr_tournament a <? pr_tournament b
  else pairing_before a b.

Definition get_live_pending_pairings : IO Tables (list StoredPairing) :=
  r ← exec (select (fun db => isort live_before (List.filter (fun p =>
        existsb (fun r => (tr_tournament r =? pr_tournament p) && (tr_round r =? pr_round p) &&
                          String.eqb (tr_status r) "live") (rounds db) &&
        String.eqb (pr_result p) "pending" && bool_decide (is_Some (pr_black p)))
      (pairings db))));
  mret (rows_of r).

Definition max_pairing_game_id : IO Tables Z :=
  r ← exec (select (fun db => match omap pr_game (pairings db) with
                              | [] => 0
                              | g :: gs => fold_left Z.max gs g
                              end));
  mret (match r with inr m => m | inl _ => 0 end).

Definition with_game (game replay : option Z) p :=
  mkStoredPairing (pr_id p) (pr_tournament p) (pr_round p) (pr_white p) (pr_black p) game replay
    (pr_result p) (pr_source p) (pr_recorded_at p).

Definition with_result (result source : string) (now : Z) p :=
  mkStoredPairing (pr_id p) (pr_tournament p) (pr_round p) (pr_white p) (pr_black p)
    (pr_game p) (pr_replay p) result (Some source) (Some now).

(** The unique indexes on [game_id] and [replay_game_id]. *)
Definition unique_among (f : StoredPairing -> option Z) (rows : list StoredPairing) : bool :=
  distinct (omap f rows).

Definition sql_set_game (id game : Z) (_ : Z) (db : Tables) : option (Tables * nat) :=
  let hit p := (pr_id p =? id) && String.eqb (pr_result p) "pending" in
  let ps := update hit (fun p => with_game (Some game) (pr_replay p) p) (pairings db) in
  if unique_among pr_game ps then Some (with_pairings ps db, affected hit (pairings db)) else None.

Definition set_pairing_game_id (id game : Z) : IO Tables bool :=
  r ← exec (sql_set_game id game); mret (succeeded r).

Definition sql_set_replay (id replay : Z) (_ : Z) (db : Tables) : option (Tables * nat) :=
  let hit p := (pr_id p =? id) && match pr_replay p with Some g => g =? replay | None => true end in
  let ps := update hit (fun p => with_game (pr_game p) (Some replay) p) (pairings db) in
  if unique_among pr_replay ps && ((affected hit (pairings db) =? 0)%nat || existsb (Z.eqb replay) (games db))
  then Some (with_pairings ps db, affected hit (pairings db)) else None.

Definition set_pairing_replay_game_id (id replay : Z) : IO Tables bool :=
  if replay <=? 0 then mret false else
  r ← exec (sql_set_replay id replay); mret (succeeded r).

(** ** Results and totals *)

(** The CASE expression summed into [score], in half points: [res] is the result of a row. *)
Definition points (res : StoredPairing -> string) (p : Z) (pr : StoredPairing) : Z :=
  if String.eqb (res pr) "bye" && (pr_white pr =? p) then 2
  else if String.eqb (res pr) "1-0" && (pr_white pr =? p) then 2
  else if String.eqb (res pr) "0-1" && is_black p pr then 2
  else if String.eqb (res pr) "1/2-1/2" && plays p pr then 1
  else 0.

Definition sum_points (l : list Z) : Z := fold_right Z.add 0 l.

(** The three columns that every result recomputes. *)
Definition totals (res : StoredPairing -> string) (ps : list StoredPairing)
    (tp : StoredTournamentPlayer) : StoredTournamentPlayer :=
  let own := List.filter (fun pr => pr_tournament pr =? tp_tournament tp) ps in
  let white pr := pr_white pr =? tp_player tp in
  mkPlayer (tp_tournament tp) (tp_player tp) (tp_elo tp)
    (sum_points (map (points res (tp_player tp)) (List.filter (plays (tp_player tp)) own)))
    (Z.of_nat (length (List.filter (fun pr =>
       white pr && bool_decide (is_Some (pr_black pr)) && negb (String.eqb (res pr) "pending")) own)))
    (existsb (fun pr => white pr && String.eqb (res pr) "bye") own)
    (tp_withdrawn tp).

(** [CASE WHEN p.id=$3 THEN $1 ELSE p.result END]: the outer UPDATE still sees the rows as
    they were before the inner one. *)
Definition effective (id : Z) (result : string) (p : StoredPairing) : string :=
  if pr_id p =? id then result else pr_result p.

(** The outer UPDATE: the players of the tournaments among the [changed] rows. *)
Definition recount (changed : list StoredPairing) (id : Z) (result : string)
    (before : list StoredPairing) (ps : list StoredTournamentPlayer) : list StoredTournamentPlayer * nat :=
  let hit tp := existsb (fun p => pr_tournament p =? tp_tournament tp) changed in
  (update hit (totals (effective id result) before) ps, affected hit ps).

Definition sql_set_result (id : Z) (result source : string) (now : Z) (db : Tables)
    : option (Tables * nat) :=
  let hit p := (pr_id p =? id) && (String.eqb (pr_result p) "pending" || String.eqb (pr_result p) result) in
  let set := with_result result source now in
  let changed := updated hit set (pairings db) in
  if forallb pairing_ok changed then
    let '(ps, n) := recount changed id result (pairings db) (players db) in
    Some (with_players ps (with_pairings (update hit set (pairings db)) db), n)
  else None.

Definition set_pairing_result (id : Z) (result source : string) : IO Tables bool :=
  r ← exec (sql_set_result id result source); mret (succeeded r).

Definition sql_recompute (tid : Z) (_ : Z) (db : Tables) : option (Tables * nat) :=
  let hit tp := tp_tournament tp =? tid in
  Some (with_players (update hit (totals pr_result (pairings db)) (players db)) db,
        affected hit (players db)).

Definition recompute_participant_totals (tid : Z) : IO Tables bool :=
  r ← exec (sql_recompute tid);
  mret (match r with inr _ => true | inl _ => false end).

Definition sql_override (id actor : Z) (result reason : string) (now : Z) (db : Tables)
    : option (Tables * nat) :=
  let hit p := pr_id p =? id in
  let set := with_result result "override" now in
  let old := List.filter hit (pairings db) in
  let changed := updated hit set (pairings db) in
  if forallb pairing_ok changed && ((length old =? 0)%nat || (reason_ok reason && is_account db actor)) then
    let '(ps, n) := recount changed id result (pairings db) (players db) in
    Some (with_overrides (overrides db ++ map (fun p => mkOverride id actor (pr_result p) result reason) old)
            (with_players ps (with_pairings (update hit set (pairings db)) db)), n)
  else None.

Definition audit_and_override_result (id actor : Z) (result reason : string) : IO Tables bool :=
  r ← exec (sql_override id actor result reason); mret (succeeded r).

(** ** Snapshots *)

Record TournamentSnapshot := mkSnapshot {
  sn_tournament : StoredTournament; sn_participants : list StoredTournamentPlayer;
  sn_pairings : list StoredPairing; sn_rounds : list StoredTournamentRound;
  sn_usernames : list (Z * string); sn_check_ins : list (Z * Z)
}.

Definition check_in_before (a b : Z * Z) : bool :=
  if negb (fst a =? fst b) then fst a <? fst b else snd a <? snd b.

Definition snapshots (tid : Z) (db : Tables) : list TournamentSnapshot :=
  map (fun t => mkSnapshot t
    (isort (fun a b => tp_player a <? tp_player b) (participants_of tid db))
    (isort pairing_before (pairings_of tid db))
    (isort (fun a b => tr_round a <? tr_round b) (List.filter (fun r => tr_tournament r =? tid) (rounds db)))
    (List.filter (fun a => (fst a =? t_created_by t) ||
       existsb (fun tp => tp_player tp =? fst a) (participants_of tid db)) (accounts db))
    (isort check_in_before (map (fun c => (ci_round c, ci_player c))
       (List.filter (fun c => ci_tournament c =? tid) (checkins db)))))
    (List.filter (fun t => t_id t =? tid) (tournaments db)).

Definition read_tournament_snapshot (tid : Z) : IO Tables (option TournamentSnapshot) :=
  r ← exec (select (snapshots tid)); mret (head (rows_of r)).
