(* ===== verification/TournamentManager.v ===== *)
(** * The tournament manager: src/src/tournament/tournament_manager.{h,cpp}

    Each public method as a program over the tables of [TournamentRepo], and the private
    steps it is made of: pairing a round, closing a complete one, starting a due one,
    forfeiting those who did not check in.  Round one is paired by [Swiss]; so is every
    later one, over the survivors when the format is elimination.

    Two SELECTs of [maintenance_tick] have no ORDER BY: [arrange] is the order in which the
    server returns their rows. *)
From stdpp Require Import strings gmap.
From S2P Require Import Prelude Swiss Storage TournamentRepo.
Open Scope string_scope.
Open Scope list_scope.
Open Scope Z_scope.

(** ** Pure parts *)

Definition to_standing (p : StoredTournamentPlayer) : PlayerStanding :=
  mkStanding (tp_player p) (tp_elo p) (tp_score p) (tp_whites p) (tp_bye p) (tp_withdrawn p).

(** [std::map::operator\[\]] on a map of numbers: absent keys count as zero. *)
Definition at_key {K} `{Countable K} (m : gmap K Z) (k : K) : Z := default 0 (m !! k).
Definition add_at {K} `{Countable K} (k : K) (d : Z) (m : gmap K Z) : gmap K Z := <[k := at_key m k + d]> m.

Definition is_pending (p : StoredPairing) : bool := String.eqb (pr_result p) "pending".
Definition has_result (p : StoredPairing) (r : string) : bool := String.eqb (pr_result p) r.

Definition compute_buchholz (players : list StoredTournamentPlayer) (pairings : list StoredPairing)
    : gmap Z Z :=
  let score_of := fold_left (fun m p => <[tp_player p := tp_score p]> m) players (∅ : gmap Z Z) in
  fold_left (fun out pr =>
    if is_pending pr then out else
    let w := pr_white pr in
    match pr_black pr with
    | Some b => add_at b (at_key score_of w) (add_at w (at_key score_of b) out)
    | None => add_at w (at_key score_of w) out
    end) pairings
    (fold_left (fun m p => <[tp_player p := 0]> m) players ∅).

Definition round_is_complete (pairings : list StoredPairing) (round : Z) : bool :=
  let here := List.filter (fun p => pr_round p =? round) pairings in
  negb (length here =? 0)%nat && forallb (fun p => negb (is_pending p)) here.

Definition valid_schedule (deadline first duration : Z) : bool :=
  (0 <? deadline) && (deadline + 30 <=? first) && (60 <=? duration).

Definition earliest_round_start (first duration round : Z) : Z :=
  if round <=? 0 then first else first + (round - 1) * duration.

Definition no_show_result (white_checked_in black_checked_in : bool) : option string :=
  match white_checked_in, black_checked_in with
  | true, false => Some "1-0"
  | false, true => Some "0-1"
  | false, false => Some "double_forfeit"
  | true, true => None
  end.

Definition gather_played (pairings : list StoredPairing) : gset (Z * Z) :=
  fold_left (fun out p => match pr_black p with
                          | Some b => {[player_pair (pr_white p) b]} ∪ out
                          | None => out
                          end) pairings ∅.

(** Who goes on after a round: its winners, byes and drawn players. *)
Definition advancers (p : StoredPairing) : list Z :=
  if has_result p "bye" || has_result p "1-0" then [pr_white p]
  else match pr_black p with
       | Some b => if has_result p "0-1" then [b]
                   else if has_result p "1/2-1/2" then [pr_white p; b] else []
       | None => []
       end.

(** The drawn games between the two players of a pair. *)
Definition draw_pair (p : StoredPairing) : option (Z * Z) :=
  match pr_black p with
  | Some b => if has_result p "1/2-1/2" then Some (player_pair (pr_white p) b) else None
  | None => None
  end.

Definition draws_between (pairings : list StoredPairing) (meeting : Z * Z) : nat :=
  length (List.filter (fun p => bool_decide (draw_pair p = Some meeting)) pairings).

(** ** Joining and leaving *)

(** The guard that [join] and [leave] share. *)
Definition entry_open (t : StoredTournament) (now : Z) : bool :=
  String.eqb (t_status t) "registration" && t_open t && (now <? entry_closes t).

Definition join (tid p elo : Z) : IO Tables ManagerResult :=
  t ← find_tournament tid;
  match t with
  | None => mret (Failed "tournament_not_found")
  | Some t =>
      if negb (String.eqb (t_status t) "registration") || negb (t_open t)
      then mret (Failed "registration_closed") else
      now ← unix_seconds;
      if entry_closes t <=? now then mret (Failed "registration_closed") else
      now ← unix_seconds;
      add_participant tid p elo now
  end.

Definition leave (tid p : Z) : IO Tables ManagerResult :=
  t ← find_tournament tid;
  match t with
  | None => mret (Failed "tournament_not_found")
  | Some t =>
      if negb (String.eqb (t_status t) "registration") || negb (t_open t)
      then mret (Failed "registration_closed") else
      now ← unix_seconds;
      if entry_closes t <=? now then mret (Failed "registration_closed") else
      now ← unix_seconds;
      remove_participant tid p now
  end.

(** ** Registration *)

(** The failure path of [set_registration], after the UPDATE. *)
Definition reopen_error (tid now : Z) (open : bool) : IO Tables ManagerResult :=
  if open then
    latest ← find_tournament tid;
    mret (Failed (match latest with
                  | Some t => if t_deadline t <=? now then "registration_deadline_passed"
                              else "set_registration_failed"
                  | None => "set_registration_failed"
                  end))
  else mret (Failed "set_registration_failed").

Definition apply_registration (tid : Z) (open : bool) : IO Tables ManagerResult :=
  now ← unix_seconds;
  done ← set_registration_open tid open now;
  if done : bool then mret Fine else reopen_error tid now open.

Definition set_registration (tid initiator : Z) (open : bool) : IO Tables ManagerResult :=
  t ← find_tournament tid;
  match t with
  | None => mret (Failed "tournament_not_found")
  | Some t =>
      if negb (t_created_by t =? initiator) then mret (Failed "not_creator") else
      if negb (one_of (t_status t) ["registration"; "scheduled"])
      then mret (Failed "registration_state_locked") else
      if negb open then apply_registration tid open else
      now ← unix_seconds;
      if t_deadline t <=? now then mret (Failed "registration_deadline_passed") else
      now ← unix_seconds;
      if t_first_round t - 90 <=? now then mret (Failed "pairings_locked") else
      first ← get_pairings_for_round tid 1;
      match first with
      | _ :: _ => mret (Failed "pairings_locked")
      | [] => apply_registration tid open
      end
  end.

Definition start (tid initiator : Z) : IO Tables ManagerResult :=
  t ← find_tournament tid;
  match t with
  | None => mret (Failed "tournament_not_found")
  | Some t =>
      if negb (String.eqb (t_status t) "registration")
      then mret (Failed "tournament_not_in_registration") else
      if negb (t_created_by t =? initiator) then mret (Failed "not_creator") else
      participants ← get_participants tid;
      if (length (List.filter (fun p => negb (tp_withdrawn p)) participants) <? 2)%nat
      then mret (Failed "not_enough_players")
      else set_registration tid initiator false
  end.

(** ** Check-in *)

(** [p] went through the pairing [pr] of the round before. *)
Definition went_through (p : Z) (pr : StoredPairing) : bool :=
  ((pr_white pr =? p) && (has_result pr "1-0" || has_result pr "bye" || has_result pr "1/2-1/2")) ||
  (is_black p pr && (has_result pr "0-1" || has_result pr "1/2-1/2")).

Definition check_in_paired (tid round p : Z) : IO Tables ManagerResult :=
  here ← get_pairings_for_round tid round;
  if existsb (fun pr => plays p pr && has_result pr "bye") here
  then mret (Failed "round_already_resolved_for_player") else
  now ← unix_seconds;
  check_in_player tid round p now.

Definition check_in (tid round p : Z) : IO Tables ManagerResult :=
  if round <=? 0 then mret (Failed "invalid_round") else
  t ← find_tournament tid;
  if match t with Some t => String.eqb (t_format t) "winners_advance" | None => false end && (1 <? round)
  then
    before ← get_pairings_for_round tid (round - 1);
    if existsb (went_through p) before then check_in_paired tid round p
    else mret (Failed "player_eliminated")
  else check_in_paired tid round p.

(** ** Pairing a round *)

(** The drawn pairings of the round before [round] that are played again. *)
Definition replays (all : list StoredPairing) (round : Z) (pr : StoredPairing) : bool :=
  match draw_pair pr with
  | Some meeting =>
      Nat.ltb (draws_between (List.filter (fun past => pr_round past <? round) all) meeting) 2
  | None => false
  end.

Definition previous_round (all : list StoredPairing) (round : Z) : list StoredPairing :=
  List.filter (fun pr => pr_round pr =? round - 1) all.

Definition forced_pairings (all : list StoredPairing) (round : Z) : list Pairing :=
  flat_map (fun pr => match pr_black pr with
                      | Some b => [mkPairing b (pr_white pr) false]
                      | None => []
                      end) (List.filter (replays all round) (previous_round all round)).

Definition replaying (all : list StoredPairing) (round : Z) : list Z :=
  flat_map (fun p => [black_id p; white_id p]) (forced_pairings all round).

Definition draw_capped (all : list StoredPairing) : gset (Z * Z) :=
  list_to_set (List.filter (fun meeting => (2 <=? draws_between all meeting)%nat) (omap draw_pair all)).

(** The players who are paired afresh: everyone, or the survivors who do not replay. *)
Definition pairing_pool (elimination : bool) (pool : list PlayerStanding) (all : list StoredPairing)
    (round : Z) : list PlayerStanding :=
  if elimination && (1 <? round) then
    let advancing := flat_map advancers (previous_round all round) in
    List.filter (fun p => existsb (Z.eqb (player_id p)) advancing &&
                          negb (existsb (Z.eqb (player_id p)) (replaying all round))) pool
  else pool.

(** [forced] followed by the Swiss round over the pool. *)
Definition dealt_pairings (elimination : bool) (participants : list StoredTournamentPlayer)
    (all : list StoredPairing) (round : Z) : list Pairing :=
  (if elimination && (1 <? round) then forced_pairings all round else []) ++
  pair_swiss_round (pairing_pool elimination (map to_standing participants) all round)
    (gather_played all) (if elimination then draw_capped all else ∅).

Definition is_elimination (t : StoredTournament) : bool := String.eqb (t_format t) "winners_advance".

(** The error of the first insertion that fails. *)
Fixpoint insert_pairings (tid round : Z) (dealt : list Pairing) : IO Tables (option string) :=
  match dealt with
  | [] => mret None
  | p :: dealt =>
      ir ← insert_pairing tid round (white_id p) (if is_bye p then None else Some (black_id p))
             (if is_bye p then "bye" else "pending");
      match ir with
      | NotInserted error => mret (Some error)
      | Inserted _ => insert_pairings tid round dealt
      end
  end.

(** ** Closing a round *)

Definition survivors_of (all : list StoredPairing) (round : Z) : list Z :=
  nodup Z.eq_dec (flat_map advancers (List.filter (fun p => pr_round p =? round) all)).

(** At most one survivor, or no two survivors who may still meet. *)
Definition elimination_over (all : list StoredPairing) (round : Z) : bool :=
  let survivors := survivors_of all round in
  (length survivors <=? 1)%nat ||
  negb (existsb (fun a => existsb (fun b =>
    (a <? b) &&
    Nat.ltb (draws_between (List.filter (fun p => pr_round p <=? round) all) (player_pair a b)) 2)
      survivors) survivors).

Definition sql_complete_round (tid round : Z) (now : Z) (db : Tables) : option (Tables * nat) :=
  let hit r := (tr_tournament r =? tid) && (tr_round r =? round) &&
               negb (String.eqb (tr_status r) "completed") in
  let set r := mkRound (tr_tournament r) (tr_round r) (tr_earliest r) (tr_started_at r)
                 (tr_check_in_closes r) (Some now) "completed" in
  Some (with_rounds (update hit set (rounds db)) db, affected hit (rounds db)).

(** [GREATEST(rounds, next)], and the row of the next round unless it is there. *)
Definition sql_allocate_round (tid next earliest closes : Z) (_ : Z) (db : Tables)
    : option (Tables * nat) :=
  let hit t := t_id t =? tid in
  let set t := with_rounds_played (Z.max (t_rounds t) next) (t_current_round t) t in
  let present := existsb (fun r => (tr_tournament r =? tid) && (tr_round r =? next)) (rounds db) in
  let new := if present then []
             else map (fun t => mkRound tid next earliest None closes None "scheduled")
                      (List.filter hit (tournaments db)) in
  if forallb tournament_ok (updated hit set (tournaments db)) && forallb round_ok new
  then Some (with_rounds (rounds db ++ new) (with_tournaments (update hit set (tournaments db)) db),
             length new)
  else None.

(** The last step: the tournament is over, or its current round is the next one. *)
Definition finish_or_proceed (tid round : Z) (over : bool) : IO Tables ManagerResult :=
  if over then
    done ← set_tournament_status tid "completed";
    mret (if done : bool then Fine else Failed "set_status_completed_failed")
  else
    done ← set_tournament_round tid (round + 1);
    mret (if done : bool then Fine else Failed "set_round_failed").

Definition proceed_elimination (tid round : Z) (t : StoredTournament) (all : list StoredPairing)
    : IO Tables ManagerResult :=
  if elimination_over all round then finish_or_proceed tid round true else
  now ← unix_seconds;
  let next := round + 1 in
  let earliest := Z.max now (earliest_round_start (t_first_round t) (t_duration t) next) in
  allocated ← exec (sql_allocate_round tid next earliest (earliest + t_duration t));
  match allocated with
  | inl _ => mret (Failed "allocate_round_failed")
  | inr _ => finish_or_proceed tid round false
  end.

Definition maybe_advance_after_result (tid round : Z) : IO Tables ManagerResult :=
  t ← find_tournament tid;
  match t with
  | None => mret (Failed "tournament_not_found")
  | Some t =>
      all ← get_pairings tid;
      if negb (round_is_complete all round) then mret Fine else
      completed ← exec (sql_complete_round tid round);
      match completed with
      | inl _ => mret (Failed "complete_round_failed")
      | inr _ =>
          if is_elimination t then proceed_elimination tid round t all
          else finish_or_proceed tid round (String.eqb (t_format t) "swiss" && (t_rounds t <=? round))
      end
  end.

Definition generate_round_pairings (tid round : Z) : IO Tables ManagerResult :=
  t ← find_tournament tid;
  match t with
  | None => mret (Failed "tournament_not_found")
  | Some t =>
      participants ← get_participants tid;
      if (length participants =? 0)%nat then mret (Failed "no_participants") else
      all ← get_pairings tid;
      let dealt := dealt_pairings (is_elimination t) participants all round in
      if (length dealt =? 0)%nat then mret (Failed "pair_swiss_round_failed") else
      failure ← insert_pairings tid round dealt;
      match failure with
      | Some error => mret (Failed (String.append "insert_pairing_failed: " error))
      | None =>
          done ← recompute_participant_totals tid;
          if done : bool then maybe_advance_after_result tid round
          else mret (Failed "recompute_standings_failed")
      end
  end.

(** ** Results *)

Definition game_results : list string := ["1-0"; "0-1"; "1/2-1/2"].

Definition report_result (id : Z) (result : string) : IO Tables ManagerResult :=
  r ← exec (select (fun db => List.filter (fun p => pr_id p =? id) (pairings db)));
  match rows_of r with
  | [] => mret (Failed "pairing_not_found")
  | p :: _ =>
      if negb (is_pending p) then
        mret (if has_result p result then Fine else Failed "result_already_recorded") else
      let bye := String.eqb result "bye" in
      if negb (one_of result game_results) && negb bye then mret (Failed "invalid_result") else
      if negb (Bool.eqb bye (negb (bool_decide (is_Some (pr_black p)))))
      then mret (Failed "result_shape_mismatch") else
      done ← set_pairing_result (pr_id p) result "manual";
      if done : bool then maybe_advance_after_result (pr_tournament p) (pr_round p)
      else mret (Failed "set_pairing_result_failed")
  end.

(** The SELECT of [override_result]: tournament, round and creator of a pairing. *)
Definition pairing_owner (id : Z) (db : Tables) : list (Z * Z * Z) :=
  flat_map (fun p => map (fun t => (pr_tournament p, pr_round p, t_created_by t))
                         (List.filter (fun t => t_id t =? pr_tournament p) (tournaments db)))
           (List.filter (fun p => pr_id p =? id) (pairings db)).

Definition override_result (id initiator : Z) (result reason : string) : IO Tables ManagerResult :=
  if String.eqb reason "" then mret (Failed "override_reason_required") else
  if negb (one_of result game_results) && negb (String.eqb result "double_forfeit")
  then mret (Failed "invalid_result") else
  q ← exec (select (pairing_owner id));
  match rows_of q with
  | [] => mret (Failed "pairing_not_found")
  | (tid, round, creator) :: _ =>
      if negb (creator =? initiator) then mret (Failed "not_creator") else
      t ← find_tournament tid;
      if match t with
         | Some t => is_elimination t &&
                     ((round <? t_current_round t) || String.eqb (t_status t) "completed")
         | None => false
         end then mret (Failed "advancement_already_locked") else
      done ← audit_and_override_result id initiator result reason;
      if done : bool then maybe_advance_after_result tid round else mret (Failed "override_failed")
  end.

Definition record_game_result (id : Z) (result : string) : IO Tables ManagerResult :=
  if negb (one_of result game_results) then mret (Failed "invalid_result") else
  pairing ← find_pairing id;
  match pairing with
  | None => mret (Failed "pairing_not_found")
  | Some p =>
      if negb (is_pending p) then
        mret (if has_result p result then Fine else Failed "result_already_recorded") else
      done ← set_pairing_result id result "game";
      if done : bool then maybe_advance_after_result (pr_tournament p) (pr_round p) else
      again ← find_pairing id;
      mret (match again with
            | Some p => if has_result p result then Fine else Failed "set_pairing_result_failed"
            | None => Failed "set_pairing_result_failed"
            end)
  end.

(** ** Starting rounds and forfeits *)

(** The conditional UPDATE that claims a round, and the rows it returns. *)
Definition startable (tid round now_unix : Z) (db : Tables) (r : StoredTournamentRound) : bool :=
  (tr_tournament r =? tid) && (tr_round r =? round) && String.eqb (tr_status r) "scheduled" &&
  (tr_earliest r <=? now_unix) &&
  ((round =? 1) ||
   existsb (fun prev => (tr_tournament prev =? tid) && (tr_round prev =? round - 1) &&
                        String.eqb (tr_status prev) "completed") (rounds db)).

Definition sql_claim_round (tid round now_unix : Z) (_ : Z) (db : Tables) : option (Tables * list Z) :=
  let hit := startable tid round now_unix db in
  let set r := mkRound (tr_tournament r) (tr_round r) (tr_earliest r) (Some now_unix)
                 (tr_check_in_closes r) (tr_completed_at r) "live" in
  Some (with_rounds (update hit set (rounds db)) db, map tr_round (List.filter hit (rounds db))).

Definition start_due_round (tid round now_unix : Z) : IO Tables ManagerResult :=
  claimed ← exec (sql_claim_round tid round now_unix);
  match claimed with
  | inl error => mret (Failed error)
  | inr [] => mret Fine
  | inr _ =>
      playing ← set_tournament_status tid "in_progress";
      if negb playing then mret (Failed "start_round_state_failed") else
      current ← set_tournament_round tid round;
      if negb current then mret (Failed "start_round_state_failed") else
      existing ← get_pairings_for_round tid round;
      match existing with
      | [] => generate_round_pairings tid round
      | _ => mret Fine
      end
  end.

(** The loop of [adjudicate_no_shows]; the error stops it. *)
Fixpoint forfeit_absent (checked : list Z) (ps : list StoredPairing) : IO Tables (option string) :=
  match ps with
  | [] => mret None
  | p :: ps =>
      match pr_black p with
      | Some b =>
          if negb (is_pending p) then forfeit_absent checked ps else
          match no_show_result (existsb (Z.eqb (pr_white p)) checked) (existsb (Z.eqb b) checked) with
          | None => forfeit_absent checked ps
          | Some result =>
              done ← set_pairing_result (pr_id p) result "forfeit";
              if done : bool then forfeit_absent checked ps
              else mret (Some "no_show_adjudication_failed")
          end
      | None => forfeit_absent checked ps
      end
  end.

Definition adjudicate_no_shows (tid round : Z) : IO Tables ManagerResult :=
  checked ← get_round_checkins tid round;
  ps ← get_pairings_for_round tid round;
  failure ← forfeit_absent checked ps;
  match failure with
  | Some error => mret (Failed error)
  | None => maybe_advance_after_result tid round
  end.

(** ** The maintenance tick *)

Definition sql_close_registrations (now_unix : Z) (_ : Z) (db : Tables) : option (Tables * nat) :=
  let hit t := String.eqb (t_status t) "registration" && (entry_closes t <=? now_unix) in
  let set t := with_status "scheduled" false (Some (default now_unix (t_closed_at t))) t in
  if forallb tournament_ok (updated hit set (tournaments db))
  then Some (with_tournaments (update hit set (tournaments db)) db, affected hit (tournaments db))
  else None.

(** Tournaments whose first round starts within 90 seconds and is not paired yet. *)
Definition to_prepare (now_unix : Z) (db : Tables) : list Z :=
  flat_map (fun t =>
    map (fun _ => t_id t) (List.filter (fun r =>
      (tr_tournament r =? t_id t) && (tr_round r =? 1) &&
      String.eqb (t_status t) "scheduled" && String.eqb (tr_status r) "scheduled" &&
      (tr_earliest r <=? now_unix + 90) &&
      negb (existsb (fun p => (pr_tournament p =? t_id t) && (pr_round p =? 1)) (pairings db)))
      (rounds db))) (tournaments db).

(** Inside the transaction: [None] when there is nothing wrong. *)
Definition prepare_pairings (tid : Z) : IO Tables (option string) :=
  first ← get_pairings_for_round tid 1;
  match first with
  | _ :: _ => mret None
  | [] =>
      participants ← get_participants tid;
      if (2 <=? length (List.filter (fun p => negb (tp_withdrawn p)) participants))%nat then
        generated ← generate_round_pairings tid 1;
        mret (match generated with Fine => None | Failed error => Some error end)
      else mret None
  end.

Definition prepare_first_round (tid : Z) : IO Tables ManagerResult :=
  tx ← begin_transaction;
  match tx with
  | inl error => mret (Failed error)
  | inr _ =>
      let abandon error := (_ ← rollback_transaction; mret (Failed error)) in
      locked ← exec (select (fun db => List.filter (fun t => t_id t =? tid) (tournaments db)));
      match locked with
      | inl error => abandon error
      | inr _ =>
          failure ← prepare_pairings tid;
          match failure with
          | Some error => abandon error
          | None =>
              done ← commit_transaction;
              mret (if done : bool then Fine else Failed "prepare_pairings_failed")
          end
      end
  end.

Definition due_before (a b : StoredTournamentRound) : bool :=
  if negb (tr_earliest a =? tr_earliest b) then tr_earliest a <? tr_earliest b
  else tr_tournament a <? tr_tournament b.

Definition due_rounds (now_unix : Z) (db : Tables) : list (Z * Z) :=
  map (fun r => (tr_tournament r, tr_round r)) (isort due_before (List.filter (fun r =>
    startable (tr_tournament r) (tr_round r) now_unix db r &&
    existsb (fun t => (t_id t =? tr_tournament r) && one_of (t_status t) ["scheduled"; "in_progress"])
      (tournaments db)) (rounds db))).

Definition checked_in (tid round p : Z) (db : Tables) : bool :=
  existsb (is_check_in tid round p) (checkins db).

(** Live rounds whose check-in is over, with a pending meeting someone did not come to. *)
Definition expired_rounds (now_unix : Z) (db : Tables) : list (Z * Z) :=
  map (fun r => (tr_tournament r, tr_round r)) (List.filter (fun r =>
    String.eqb (tr_status r) "live" && (tr_check_in_closes r <=? now_unix) &&
    existsb (fun p => is_pending p && match pr_black p with
        | Some b => negb (checked_in (tr_tournament r) (tr_round r) (pr_white p) db) ||
                    negb (checked_in (tr_tournament r) (tr_round r) b db)
        | None => false
        end) (round_of (tr_tournament r) (tr_round r) db)) (rounds db)).

(** A loop whose body returns from the method as soon as it fails. *)
Fixpoint each {A} (body : A -> IO Tables ManagerResult) (l : list A) : IO Tables ManagerResult :=
  match l with
  | [] => mret Fine
  | a :: l => r ← body a; match r with Fine => each body l | Failed _ => mret r end
  end.

Section maintenance.
Context (arrange : forall {A}, list A -> list A).
Arguments arrange {A}.

(** The loop over the rows of a SELECT, and what follows it. *)
Definition run_query {A} (query : Tables -> list A) (body : A -> IO Tables ManagerResult)
    (next : IO Tables ManagerResult) : IO Tables ManagerResult :=
  rows ← exec (select query);
  match rows with
  | inl error => mret (Failed error)
  | inr rows => r ← each body rows; match r with Fine => next | Failed _ => mret r end
  end.

Definition maintenance_tick : IO Tables ManagerResult :=
  now ← unix_seconds;
  closed ← exec (sql_close_registrations now);
  match closed with
  | inl error => mret (Failed error)
  | inr _ =>
      run_query (fun db => arrange (to_prepare now db)) prepare_first_round
        (run_query (due_rounds now) (fun '(tid, round) => start_due_round tid round now)
          (run_query (fun db => arrange (expired_rounds now db))
             (fun '(tid, round) => adjudicate_no_shows tid round) (mret Fine)))
  end.
End maintenance.

(** ** Standings *)

Record StandingRow := mkRow {
  round_wins : Z; round_draws : Z; rank : Z; row_player : Z; initial_elo : Z; row_score : Z;
  buchholz : Z; row_whites : Z; row_bye : bool; row_withdrawn : bool
}.

Record TournamentState := mkState {
  st_tournament : StoredTournament; st_standings : list StandingRow;
  st_pairings : list StoredPairing; st_rounds : list StoredTournamentRound;
  st_usernames : list (Z * string); st_check_ins : list (Z * Z)
}.

(** The maps that [get_state] fills in one pass over the pairings. *)
Record Tally := mkTally {
  wins : gmap Z Z; draws : gmap Z Z; reached_round : gmap Z Z; finalists : gset Z
}.

Definition raise_at (k v : Z) (m : gmap Z Z) : gmap Z Z := <[k := Z.max (at_key m k) v]> m.

Definition tally_reached (p : StoredPairing) (m : gmap Z Z) : gmap Z Z :=
  let m := raise_at (pr_white p) (pr_round p) m in
  match pr_black p with Some b => raise_at b (pr_round p) m | None => m end.

Definition tally_finalists (t : StoredTournament) (p : StoredPairing) (s : gset Z) : gset Z :=
  if String.eqb (t_status t) "completed" && (pr_round p =? t_current_round t) then
    let s := if has_result p "1-0" || has_result p "bye" || has_result p "1/2-1/2"
             then {[pr_white p]} ∪ s else s in
    match pr_black p with
    | Some b => if has_result p "0-1" || has_result p "1/2-1/2" then {[b]} ∪ s else s
    | None => s
    end
  else s.

Definition tally_pairing (t : StoredTournament) (y : Tally) (p : StoredPairing) : Tally :=
  let reached := tally_reached p (reached_round y) in
  let final := tally_finalists t p (finalists y) in
  match pr_black p with
  | None => mkTally (wins y) (draws y) reached final
  | Some b =>
      if has_result p "1-0" then mkTally (add_at (pr_white p) 1 (wins y)) (draws y) reached final
      else if has_result p "0-1" then mkTally (add_at b 1 (wins y)) (draws y) reached final
      else if has_result p "1/2-1/2"
      then mkTally (wins y) (add_at b 1 (add_at (pr_white p) 1 (draws y))) reached final
      else mkTally (wins y) (draws y) reached final
  end.

Definition tally (t : StoredTournament) (all : list StoredPairing) : Tally :=
  fold_left (tally_pairing t) all (mkTally ∅ ∅ ∅ ∅).

Definition standing_row (y : Tally) (b : gmap Z Z) (p : StoredTournamentPlayer) : StandingRow :=
  mkRow (at_key (wins y) (tp_player p)) (at_key (draws y) (tp_player p)) 0 (tp_player p) (tp_elo p)
    (tp_score p) (at_key b (tp_player p)) (tp_whites p) (tp_bye p) (tp_withdrawn p).

(** The tuple of the lambda [placement]. *)
Definition placement (t : StoredTournament) (y : Tally) (r : StandingRow) : bool * Z * Z :=
  let finalist := bool_decide (row_player r ∈ finalists y) in
  (finalist, if finalist then t_current_round t + 1 else at_key (reached_round y) (row_player r),
   if finalist then round_wins r else 0).

(** [operator>] on those tuples. *)
Definition placed_above (a b : bool * Z * Z) : bool :=
  let '(fa, ra, wa) := a in
  let '(fb, rb, wb) := b in
  if negb (Bool.eqb fa fb) then fa
  else if negb (ra =? rb) then rb <? ra else wb <? wa.

Definition row_before (t : StoredTournament) (y : Tally) (a b : StandingRow) : bool :=
  if is_elimination t then
    if negb (bool_decide (placement t y a = placement t y b))
    then placed_above (placement t y a) (placement t y b)
    else row_player a <? row_player b
  else if negb (row_score a =? row_score b) then row_score b <? row_score a
  else if negb (buchholz a =? buchholz b) then buchholz b <? buchholz a
  else if negb (initial_elo a =? initial_elo b) then initial_elo b <? initial_elo a
  else row_player a <? row_player b.

Definition with_rank (n : Z) (r : StandingRow) : StandingRow :=
  mkRow (round_wins r) (round_draws r) n (row_player r) (initial_elo r) (row_score r) (buchholz r)
    (row_whites r) (row_bye r) (row_withdrawn r).

(** The last loop, from the row at [position]; [above] is the row ranked before it. *)
Fixpoint rank_rows (t : StoredTournament) (y : Tally) (above : option StandingRow) (position : Z)
    (rows : list StandingRow) : list StandingRow :=
  match rows with
  | [] => []
  | r :: rows =>
      let n := match above with
               | Some a => if is_elimination t && bool_decide (placement t y r = placement t y a)
                           then rank a else position
               | None => position
               end in
      with_rank n r :: rank_rows t y (Some (with_rank n r)) (position + 1) rows
  end.

Definition standings (s : TournamentSnapshot) : list StandingRow :=
  let t := sn_tournament s in
  let y := tally t (sn_pairings s) in
  let b := compute_buchholz (sn_participants s) (sn_pairings s) in
  rank_rows t y None 1 (isort (row_before t y) (map (standing_row y b) (sn_participants s))).

Definition get_state (tid : Z) : IO Tables (option TournamentState) :=
  s ← read_tournament_snapshot tid;
  mret (match s with
        | Some s => Some (mkState (sn_tournament s) (standings s) (sn_pairings s) (sn_rounds s)
                            (sn_usernames s) (sn_check_ins s))
        | None => None
        end).
