(* ===== verification/StandingsSpec.v ===== *)
(** * The table of standings

    What [get_state] computes from a snapshot: the Buchholz scores and the tallies of wins
    and draws are sums over the pairings, the rows are sorted by a total order, and the
    rank of a row is one more than the number of rows above it. *)
From stdpp Require Import strings gmap.
From S2P Require Import Prelude Swiss Storage TournamentRepo TournamentManager.
Open Scope string_scope.
Open Scope list_scope.
Open Scope Z_scope.

(** ** Lexicographic order *)

Fixpoint lexb (x y : list Z) : bool :=
  match x, y with
  | a :: x, b :: y => (a <? b) || ((a =? b) && lexb x y)
  | _, _ => false
  end.

Lemma lexb_asym x y : lexb x y = true -> lexb y x = false.
Proof.
  revert y. induction x as [|a x IH]; intros [|b y]; cbn; try done. intros H.
  apply orb_prop in H as [H|H]; bool_hyps.
  - rewrite (proj2 (Z.ltb_ge b a)), (proj2 (Z.eqb_neq b a)) by lia. done.
  - subst. rewrite Z.ltb_irrefl, Z.eqb_refl. cbn. by apply IH.
Qed.

Lemma lexb_irrefl x : lexb x x = false.
Proof. destruct (lexb x x) eqn:E; [|done]. by rewrite (lexb_asym _ _ E) in E. Qed.

Lemma lexb_negtrans x y z :
  length x = length y -> length y = length z -> lexb y x = false -> lexb z y = false -> lexb z x = false.
Proof.
  revert y z. induction x as [|a x IH]; intros [|b y] [|c z]; cbn; try done. intros [= H1] [= H2] Hyx Hzy.
  apply orb_false_iff in Hyx as [Hba Hyx], Hzy as [Hcb Hzy]. bool_hyps.
  apply orb_false_iff. split; [apply Z.ltb_ge; lia|].
  destruct (Z.eqb_spec c a) as [->|]; [|done]. cbn. assert (b = a) as -> by lia.
  rewrite Z.eqb_refl in Hyx, Hzy. cbn in Hyx, Hzy. by apply (IH y z).
Qed.

Lemma lexb_total x y : length x = length y -> lexb x y = false -> lexb y x = false -> x = y.
Proof.
  revert y. induction x as [|a x IH]; intros [|b y]; cbn; try done. intros [= H] Hxy Hyx.
  apply orb_false_iff in Hxy as [Hab Hxy], Hyx as [Hba Hyx]. bool_hyps. assert (a = b) as -> by lia.
  rewrite Z.eqb_refl in Hxy, Hyx. cbn in Hxy, Hyx. f_equal. by apply IH.
Qed.

(** ** Tallies as sums *)

Section tallies.
Context (x : Z).

Lemma at_add_at (m : gmap Z Z) k d : at_key (add_at k d m) x = at_key m x + (if k =? x then d else 0).
Proof.
  unfold add_at, at_key. destruct (Z.eqb_spec k x) as [->|Hne].
  - by rewrite lookup_insert_eq.
  - rewrite lookup_insert_ne by done. lia.
Qed.

(** A loop that adds to a map adds up. *)
Lemma fold_sum {A} (f : gmap Z Z -> A -> gmap Z Z) (g : A -> Z) l : forall m,
  (forall m a, In a l -> at_key (f m a) x = at_key m x + g a) ->
  at_key (fold_left f l m) x = at_key m x + sum_points (map g l).
Proof.
  induction l as [|a l IH]; intros m H; cbn; [lia|].
  rewrite IH by (intros m' b Hb; apply H; by right). rewrite H by by left. unfold sum_points. lia.
Qed.
End tallies.

(** The score of a player, 0 for a stranger. *)
Definition score_in (players : list StoredTournamentPlayer) (x : Z) : Z :=
  match List.find (fun p => tp_player p =? x) players with Some p => tp_score p | None => 0 end.

(** What a pairing adds to the Buchholz score of [x]. *)
Definition opposition (score : Z -> Z) (x : Z) (pr : StoredPairing) : Z :=
  if is_pending pr then 0 else
  match pr_black pr with
  | Some b => (if pr_white pr =? x then score b else 0) + (if b =? x then score (pr_white pr) else 0)
  | None => if pr_white pr =? x then score x else 0
  end.

Lemma fold_insert_lookup (f : StoredTournamentPlayer -> Z) players x : forall m : gmap Z Z,
  List.NoDup (map tp_player players) ->
  at_key (fold_left (fun m p => <[tp_player p := f p]> m) players m) x =
  match List.find (fun p => tp_player p =? x) players with Some p => f p | None => at_key m x end.
Proof.
  induction players as [|p players IH]; intros m Hnd; cbn; [done|].
  cbn in Hnd. apply NoDup_cons_iff in Hnd as [Hp Hnd]. rewrite IH by done.
  unfold at_key at 1. destruct (Z.eqb_spec (tp_player p) x) as [<-|Hne].
  - destruct (List.find _ players) as [q|] eqn:E.
    + apply find_some in E as [Hq E]. apply Z.eqb_eq in E. exfalso. apply Hp. rewrite <- E. by apply in_map.
    + by rewrite lookup_insert_eq.
  - destruct (List.find _ players); [done|]. by rewrite lookup_insert_ne by done.
Qed.

Lemma buchholz_sum players pairings x :
  List.NoDup (map tp_player players) ->
  at_key (compute_buchholz players pairings) x =
  sum_points (map (opposition (score_in players) x) pairings).
Proof.
  intros Hnd. unfold compute_buchholz.
  assert (forall y, at_key (fold_left (fun m p => <[tp_player p := tp_score p]> m) players (∅ : gmap Z Z)) y =
            score_in players y) as Hscore by (intros y; by apply fold_insert_lookup).
  set (score_of := fold_left _ players _) in *.
  rewrite (fold_sum x _ (opposition (score_in players) x)).
  - rewrite (fold_insert_lookup (fun _ => 0)) by done. by destruct (List.find _ _).
  - intros m pr _. unfold opposition. destruct (is_pending pr); [lia|].
    destruct (pr_black pr) as [b|]; rewrite !at_add_at, ?Hscore; [lia|].
    by destruct (Z.eqb_spec (pr_white pr) x) as [->|].
Qed.

(** ** Wins and draws *)

Definition is_one (b : bool) : Z := if b then 1 else 0.

Definition won (x : Z) (p : StoredPairing) : Z :=
  match pr_black p with
  | Some b => if has_result p "1-0" then is_one (pr_white p =? x)
              else if has_result p "0-1" then is_one (b =? x) else 0
  | None => 0
  end.

Definition drew (x : Z) (p : StoredPairing) : Z :=
  match pr_black p with
  | Some b => if has_result p "1-0" || has_result p "0-1" then 0
              else if has_result p "1/2-1/2" then is_one (pr_white p =? x) + is_one (b =? x) else 0
  | None => 0
  end.

Lemma tally_sums t all x :
  at_key (wins (tally t all)) x = sum_points (map (won x) all) /\
  at_key (draws (tally t all)) x = sum_points (map (drew x) all).
Proof.
  unfold tally.
  enough (forall y, at_key (wins (fold_left (tally_pairing t) all y)) x = at_key (wins y) x + sum_points (map (won x) all) /\
    at_key (draws (fold_left (tally_pairing t) all y)) x = at_key (draws y) x + sum_points (map (drew x) all)) as H
    by (destruct (H (mkTally ∅ ∅ ∅ ∅)) as [-> ->]; cbn [wins draws]; unfold at_key; by rewrite lookup_empty).
  induction all as [|p all IH]; intros y; cbn [fold_left map sum_points fold_right]; [lia|].
  destruct (IH (tally_pairing t y p)) as [-> ->]. unfold sum_points, tally_pairing, won, drew, is_one.
  destruct (pr_black p) as [b|]; [|cbn; lia].
  destruct (has_result p "1-0"); cbn [orb wins draws]; [rewrite at_add_at; lia|].
  destruct (has_result p "0-1"); cbn [orb wins draws]; [rewrite at_add_at; lia|].
  destruct (has_result p "1/2-1/2"); cbn [wins draws]; rewrite ?at_add_at; lia.
Qed.

(** ** Rounds reached *)

(** The last round for which [x] was paired, 0 when there is none. *)
Definition reached_in (x : Z) (p : StoredPairing) : Z :=
  if plays x p then pr_round p else 0.

Definition latest_round (pairings : list StoredPairing) (x : Z) : Z :=
  fold_right (fun p n => Z.max (reached_in x p) n) 0 pairings.

Lemma latest_round_nonneg pairings x : 0 <= latest_round pairings x.
Proof. unfold latest_round. induction pairings; cbn; lia. Qed.

(** [x] won, drew or sat out the pairing [p] of the last round of a completed tournament. *)
Definition survived (t : StoredTournament) (x : Z) (p : StoredPairing) : bool :=
  String.eqb (t_status t) "completed" && (pr_round p =? t_current_round t) &&
  ((pr_white p =? x) && (has_result p "1-0" || has_result p "bye" || has_result p "1/2-1/2") ||
   match pr_black p with
   | Some b => (b =? x) && (has_result p "0-1" || has_result p "1/2-1/2")
   | None => false
   end).

Lemma raise_at_max m k v x : at_key (raise_at k v m) x = if k =? x then Z.max (at_key m x) v else at_key m x.
Proof.
  unfold raise_at, at_key. destruct (Z.eqb_spec k x) as [->|Hne].
  - by rewrite lookup_insert_eq.
  - by rewrite lookup_insert_ne by done.
Qed.

Lemma tally_reached_max t all x :
  at_key (reached_round (tally t all)) x = latest_round all x.
Proof.
  unfold tally.
  enough (forall y, 0 <= at_key (reached_round y) x -> at_key (reached_round (fold_left (tally_pairing t) all y)) x =
    Z.max (at_key (reached_round y) x) (latest_round all x)) as ->.
  { unfold at_key. cbn [reached_round]. rewrite lookup_empty. cbn. pose proof (latest_round_nonneg all x). lia. }
  { by unfold at_key; cbn [reached_round]; rewrite lookup_empty. }
  induction all as [|p all IH]; intros y Hy; cbn [fold_left latest_round fold_right]; [lia|].
  assert (reached_round (tally_pairing t y p) = tally_reached p (reached_round y)) as E.
  { unfold tally_pairing. destruct (pr_black p); [|done]. by repeat destruct (has_result _ _). }
  rewrite IH, E by (rewrite E; unfold tally_reached; destruct (pr_black p); rewrite !raise_at_max; repeat case_z; lia).
  fold (latest_round all x). pose proof (latest_round_nonneg all x).
  unfold tally_reached, reached_in, plays, is_black.
  destruct (pr_black p) as [b|]; rewrite !raise_at_max; repeat case_z; cbn [orb]; lia.
Qed.

Lemma tally_finalists_survived t all x :
  bool_decide (x ∈ finalists (tally t all)) = existsb (survived t x) all.
Proof.
  unfold tally.
  enough (forall y, x ∈ finalists (fold_left (tally_pairing t) all y) <->
    x ∈ finalists y \/ existsb (survived t x) all = true) as H.
  { apply eq_true_iff_eq. rewrite bool_decide_eq_true, H. cbn. set_solver. }
  induction all as [|p all IH]; intros y; cbn [fold_left existsb]; [naive_solver|].
  assert (finalists (tally_pairing t y p) = tally_finalists t p (finalists y)) as E.
  { unfold tally_pairing. destruct (pr_black p); [|done]. by repeat destruct (has_result _ _). }
  rewrite IH, E. unfold tally_finalists, survived. destruct (_ && _); cbn [andb orb]; [|done].
  destruct (pr_black p) as [b|]; destruct (has_result p "1-0"), (has_result p "bye"), (has_result p "1/2-1/2");
    cbn [orb]; try destruct (has_result p "0-1"); cbn [orb]; repeat case_z; subst; cbn; set_solver.
Qed.

(** ** The order of the rows *)

(** The place of a row, smaller first, in the terms of the maps; rows are sorted by it and
    then by the player's id. *)
Definition row_place (t : StoredTournament) (y : Tally) (r : StandingRow) : list Z :=
  if is_elimination t then
    let '(f, reached, w) := placement t y r in [is_one (negb f); - reached; - w]
  else [- row_score r; - buchholz r; - initial_elo r; row_player r].

Lemma place_length t y a b : length (row_place t y a) = length (row_place t y b).
Proof.
  unfold row_place. destruct (is_elimination t); [|done].
  by destruct (placement t y a) as [[? ?] ?], (placement t y b) as [[? ?] ?].
Qed.

Lemma same_placement t y a b :
  is_elimination t = true -> row_place t y a = row_place t y b <-> placement t y a = placement t y b.
Proof.
  unfold row_place. intros ->. destruct (placement t y a) as [[fa ra] wa], (placement t y b) as [[fb rb] wb].
  split; [|by intros [= -> -> ->]]. intros [= Hf Hr Hw]. f_equal; [f_equal|]; try lia. by destruct fa, fb.
Qed.

Lemma lexb_app x x' y y' :
  length x = length y -> lexb (x ++ x') (y ++ y') = lexb x y || bool_decide (x = y) && lexb x' y'.
Proof.
  revert y. induction x as [|a x IH]; intros [|b y]; cbn [app lexb length]; try done. intros [= H].
  rewrite IH by done. destruct (bool_decide_reflect (x = y)), (bool_decide_reflect (a :: x = b :: y));
    repeat case_z; cbn; try done; try congruence; by destruct (lexb x y).
Qed.

(** The order of the rows is the order of their places, ties broken by player. *)
Lemma row_before_place t y a b :
  row_before t y a b = lexb (row_place t y a ++ [row_player a]) (row_place t y b ++ [row_player b]).
Proof.
  rewrite lexb_app by apply place_length. unfold row_before, row_place. destruct (is_elimination t).
  - destruct (placement t y a) as [[fa ra] wa], (placement t y b) as [[fb rb] wb]. cbn [placed_above lexb].
    destruct (bool_decide_reflect ((fa, ra, wa) = (fb, rb, wb))) as [[= -> -> ->]|Hne]; cbn [negb].
    + rewrite !Z.ltb_irrefl, !Z.eqb_refl, bool_decide_true by done. cbn. by rewrite andb_false_r, orb_false_r.
    + rewrite bool_decide_false by (intros [= Hf Hr Hw]; apply Hne; f_equal; [f_equal|]; try lia; by destruct fa, fb).
      assert (ra = rb -> wa = wb -> fa <> fb) as Hf by congruence.
      destruct fa, fb; cbn; repeat case_z; cbn; try done; try lia; by destruct Hf.
  - replace (bool_decide _ && _) with false.
    + rewrite orb_false_r. cbn [lexb]. repeat case_z; cbn; try done; lia.
    + case_bool_decide as E; [|done]. injection E as _ _ _ ->. cbn.
      by rewrite Z.ltb_irrefl, andb_false_r.
Qed.

Lemma sorted_rows t y rows :
  List.NoDup (map row_player rows) ->
  Sorted.StronglySorted (fun a b => row_before t y a b = true) (isort (row_before t y) rows).
Proof.
  intros Hnd.
  assert (forall a b, length (row_place t y a ++ [row_player a]) = length (row_place t y b ++ [row_player b])) as Hlen
    by (intros a b; rewrite !length_app, (place_length t y a b); done).
  assert (Sorted.StronglySorted (fun a b => row_before t y b a = false) (isort (row_before t y) rows)) as H.
  { apply isort_sorted.
    - intros a b. rewrite !row_before_place. apply lexb_asym.
    - intros a b c. rewrite !row_before_place. by apply lexb_negtrans. }
  apply (Permutation_NoDup (l' := map row_player (isort (row_before t y) rows))) in Hnd;
    [|apply Permutation_map; symmetry; apply isort_perm].
  induction H as [|a l Hl IH Ha]; [constructor|]. cbn in Hnd. apply NoDup_cons_iff in Hnd as [Hn Hnd].
  constructor; [by apply IH|]. apply List.Forall_forall. intros b Hb.
  rewrite List.Forall_forall in Ha. specialize (Ha b Hb). destruct (row_before t y a b) eqn:E; [done|].
  exfalso. apply Hn. rewrite !row_before_place in *.
  apply lexb_total in E; [|done..]. apply app_inj_tail in E as [_ E]. rewrite <- E. by apply in_map.
Qed.

(** ** Ranks *)

(** [a] stands above [b]: in an elimination, rows of equal placement share a rank. *)
Definition stands_above (t : StoredTournament) (y : Tally) (a b : StandingRow) : bool :=
  lexb (row_place t y a) (row_place t y b).

Lemma row_before_stands t y a b :
  row_before t y a b = true -> stands_above t y a b = true \/ row_place t y a = row_place t y b.
Proof.
  rewrite row_before_place, lexb_app by apply place_length. unfold stands_above. intros [H|H]%orb_prop; [by left|].
  bool_hyps. by right.
Qed.

Lemma places_differ t y a b :
  is_elimination t = false -> row_before t y a b = true -> row_place t y a <> row_place t y b.
Proof.
  intros Ht. rewrite row_before_place. unfold row_place. rewrite Ht. intros H E. rewrite E in H.
  injection E as _ _ _ Ep. by rewrite Ep, lexb_irrefl in H.
Qed.

Lemma not_above_below t y a b : row_before t y a b = true -> stands_above t y b a = false.
Proof.
  intros [H|H]%row_before_stands; [by apply lexb_asym|]. unfold stands_above. rewrite H. apply lexb_irrefl.
Qed.

Lemma above_trans t y a b c :
  row_before t y a b = true -> stands_above t y b c = true -> stands_above t y a c = true.
Proof.
  intros [H|H]%row_before_stands Hc; unfold stands_above in *; [|by rewrite H].
  destruct (lexb (row_place t y a) (row_place t y c)) eqn:E; [done|].
  apply lexb_asym in H as H'.
  rewrite (lexb_negtrans (row_place t y c) (row_place t y a) (row_place t y b)) in Hc; auto using place_length.
Qed.

Definition count_above (t : StoredTournament) (y : Tally) (rows : list StandingRow) (r : StandingRow) : Z :=
  Z.of_nat (length (List.filter (fun q => stands_above t y q r) rows)).

Lemma sorted_app_inv {A} (R : A -> A -> Prop) l a k :
  Sorted.StronglySorted R (l ++ a :: k) -> Forall (fun x => R x a) l /\ Forall (R a) k.
Proof.
  induction l as [|b l IH]; cbn; intros H; apply Sorted.StronglySorted_inv in H as [H Hb]; [by split|].
  destruct (IH H) as [Hl Hk]. split; [|done]. constructor; [|done].
  rewrite List.Forall_forall in Hb. apply Hb, in_app_iff. right. by left.
Qed.

Lemma filter_all {A} (f : A -> bool) l : (forall x, In x l -> f x = true) -> List.filter f l = l.
Proof. induction l as [|x l IH]; cbn; [done|]. intros H. rewrite H by by left. f_equal. apply IH. auto. Qed.

(** The last loop: a row's rank is one more than the number of rows above it. *)
Lemma rank_rows_count t y all :
  Sorted.StronglySorted (fun a b => row_before t y a b = true) all ->
  forall rows done_rows above,
  all = done_rows ++ rows ->
  match above with
  | Some a => exists k q, done_rows = k ++ [q] /\ a = with_rank (1 + count_above t y all q) q
  | None => done_rows = []
  end ->
  rank_rows t y above (1 + Z.of_nat (length done_rows)) rows =
  map (fun r => with_rank (1 + count_above t y all r) r) rows.
Proof.
  intros Hs. induction rows as [|r rows IH]; intros seen above Hall Habove; cbn [rank_rows map]; [done|].
  rewrite Hall in Hs. apply sorted_app_inv in Hs as Hr. destruct Hr as [Hb Ha]. rewrite <- Hall in Hs.
  rewrite List.Forall_forall in Hb, Ha.
  assert (forall q, In q (r :: rows) -> stands_above t y q r = false) as Hnot.
  { intros q [<-|Hq]; [|by apply not_above_below, Ha].
    apply lexb_irrefl. }
  assert (count_above t y all r = Z.of_nat (length (List.filter (fun q => stands_above t y q r) seen))) as Hcount.
  { unfold count_above. rewrite Hall, filter_app, length_app, (filter_none _ (r :: rows)) by done. cbn. lia. }
  assert (match above with
          | Some a => if is_elimination t && bool_decide (placement t y r = placement t y a)
                      then rank a else 1 + Z.of_nat (length seen)
          | None => 1 + Z.of_nat (length seen)
          end = 1 + count_above t y all r) as ->.
  { destruct above as [a|]; [|by rewrite Hcount, Habove].
    destruct Habove as (k & q & -> & ->). change (placement t y (with_rank _ q)) with (placement t y q).
    destruct (is_elimination t && bool_decide _) eqn:E; bool_hyps.
    - apply same_placement in H0; [|done]. cbn [rank with_rank]. unfold count_above, stands_above. by rewrite H0.
    - rewrite Hcount, filter_all; [done|]. intros x Hx.
      assert (row_before t y q r = true) as Hqr by (apply Hb, in_app_iff; right; by left).
      assert (stands_above t y q r = true) as Hq.
      { destruct (row_before_stands t y q r Hqr) as [H|H]; [done|].
        apply andb_false_iff in E as [E|E]; [by destruct (places_differ t y q r)|].
        destruct (is_elimination t) eqn:Et; [|by destruct (places_differ t y q r)].
        bool_hyps. by apply same_placement in H. }
      apply in_app_iff in Hx as [Hx|[<-|[]]]; [|done]. apply (above_trans t y x q r); [|done].
      rewrite Hall, <- app_assoc in Hs. apply sorted_app_inv in Hs as [Hk _].
      rewrite List.Forall_forall in Hk. by apply Hk. }
  f_equal. specialize (IH (seen ++ [r]) (Some (with_rank (1 + count_above t y all r) r))).
  rewrite length_app in IH. cbn [length] in IH. rewrite <- IH; [f_equal; lia| |by eauto].
  by rewrite <- app_assoc.
Qed.

(** ** The table *)

Section table.
Context (s : TournamentSnapshot).
Let t := sn_tournament s.
Let all := sn_pairings s.

(** The sums a row shows, from the pairings alone. *)
Definition wins_of (x : Z) : Z := sum_points (map (won x) all).
Definition draws_of (x : Z) : Z := sum_points (map (drew x) all).
Definition buchholz_of (x : Z) : Z := sum_points (map (opposition (score_in (sn_participants s)) x) all).
Definition survivor (x : Z) : bool := existsb (survived t x) all.

(** The place of a participant, smaller first. *)
Definition place_of (p : StoredTournamentPlayer) : list Z :=
  let x := tp_player p in
  if is_elimination t then
    if survivor x then [0; - (t_current_round t + 1); - wins_of x] else [1; - latest_round all x; 0]
  else [- tp_score p; - buchholz_of x; - tp_elo p; x].

Definition above_of (p : StoredTournamentPlayer) : list StoredTournamentPlayer :=
  List.filter (fun q => lexb (place_of q) (place_of p)) (sn_participants s).

Definition row_of (p : StoredTournamentPlayer) : StandingRow :=
  let x := tp_player p in
  mkRow (wins_of x) (draws_of x) (1 + Z.of_nat (length (above_of p))) x (tp_elo p) (tp_score p)
    (buchholz_of x) (tp_whites p) (tp_bye p) (tp_withdrawn p).

Let y := tally t all.
Let b := compute_buchholz (sn_participants s) all.

Lemma place_standing_row p :
  List.NoDup (map tp_player (sn_participants s)) -> row_place t y (standing_row y b p) = place_of p.
Proof.
  intros Hnd. unfold row_place, place_of, placement, standing_row. cbn. subst y b.
  rewrite tally_finalists_survived. fold (survivor (tp_player p)).
  rewrite buchholz_sum by done. destruct (tally_sums t all (tp_player p)) as [-> _].
  destruct (is_elimination t); [|done]. rewrite tally_reached_max. by destruct (survivor (tp_player p)).
Qed.

Lemma length_filter_map {A B} (f : A -> B) (g : B -> bool) l :
  length (List.filter g (map f l)) = length (List.filter (fun x => g (f x)) l).
Proof. induction l as [|x l IH]; cbn; [done|]. destruct (g (f x)); cbn; by rewrite IH. Qed.

Lemma standings_rows :
  List.NoDup (map tp_player (sn_participants s)) ->
  exists order,
    Permutation order (sn_participants s) /\
    Sorted.StronglySorted (fun p q => lexb (place_of p ++ [tp_player p]) (place_of q ++ [tp_player q]) = true) order /\
    standings s = map row_of order.
Proof.
  intros Hnd. set (rows := map (standing_row y b) (sn_participants s)).
  assert (Permutation (isort (row_before t y) rows) rows) as Hp by apply isort_perm.
  apply Permutation_map_inv in Hp as (order & E & Hp).
  assert (List.NoDup (map row_player rows)) as Hr by (unfold rows; by rewrite map_map).
  pose proof (sorted_rows t y rows Hr) as Hs. exists order. split; [by symmetry|]. split.
  - rewrite E in Hs. clear -Hs Hnd. induction order as [|p order IH]; cbn in Hs; [constructor|].
    apply Sorted.StronglySorted_inv in Hs as [Hs Hh]. constructor; [by apply IH|].
    rewrite List.Forall_forall in Hh |- *. intros q Hq. specialize (Hh _ (in_map _ _ _ Hq)).
    by rewrite row_before_place, !place_standing_row in Hh.
  - unfold standings. fold t all y b rows.
    rewrite (rank_rows_count t y _ Hs _ [] None eq_refl eq_refl : rank_rows t y None 1 _ = _).
    rewrite E, map_map. apply map_ext_in. intros p _.
    assert (count_above t y (map (standing_row y b) order) (standing_row y b p) = Z.of_nat (length (above_of p))) as ->.
    { unfold count_above, above_of. rewrite length_filter_map.
      f_equal. rewrite <- (Permutation_length (filter_perm _ _ _ Hp)). f_equal. apply filter_ext. intros q. unfold stands_above. by rewrite !place_standing_row. }
    unfold with_rank, row_of, standing_row, b, y. cbn. rewrite buchholz_sum by done.
    by destruct (tally_sums t all (tp_player p)) as [-> ->].
Qed.
End table.
