(* ===== verification/TournamentSpec.v ===== *)
(** * What tournaments promise

    [coherent] is the invariant of the tables that holds whatever statements fail;
    [evolves] says what an operation may change; [local] that it concerns one
    tournament.  Every method of the manager is shown to keep them, statement by
    statement, with the logic of [StorageSpec]. *)
From stdpp Require Import strings gmap.
From S2P Require Import Prelude Swiss Storage StorageSpec TournamentRepo TournamentManager.
Open Scope string_scope.
Open Scope list_scope.
Open Scope Z_scope.

(** ** The invariant *)

Definition round_key (r : StoredTournamentRound) : Z * Z := (tr_tournament r, tr_round r).

(** The rows of one tournament. *)
Definition tournaments_of (tid : Z) (db : Tables) := List.filter (fun t => t_id t =? tid) (tournaments db).
Definition rounds_of (tid : Z) (db : Tables) := List.filter (fun r => tr_tournament r =? tid) (rounds db).

Definition round_in (db : Tables) (tid n : Z) (P : string -> Prop) : Prop :=
  exists r, In r (rounds db) /\ round_key r = (tid, n) /\ P (tr_status r).

(** There are pairings, and all of them have a result. *)
Definition decided (ps : list StoredPairing) : Prop :=
  ps <> [] /\ forall p, In p ps -> is_pending p = false.

Record coherent (db : Tables) : Prop := {
  c_tournaments : List.NoDup (map t_id (tournaments db));
  c_rounds : List.NoDup (map round_key (rounds db));
  c_pairings : List.NoDup (map pr_id (pairings db));
  c_fresh_tournament : forall t, In t (tournaments db) -> t_id t < next_tournament db;
  c_fresh_pairing : forall p, In p (pairings db) -> pr_id p < next_pairing db;
  c_round_owner : forall r, In r (rounds db) -> exists t, In t (tournaments db) /\ t_id t = tr_tournament r;
  c_positive : forall r, In r (rounds db) -> 0 < tr_round r;
  (* a round is under way or over only if the one before it is over *)
  c_order : forall r, In r (rounds db) -> tr_status r <> "scheduled" -> tr_round r <> 1 ->
    round_in db (tr_tournament r) (tr_round r - 1) (eq "completed");
  (* only the first round is paired before it starts *)
  c_paired : forall p, In p (pairings db) ->
    round_in db (pr_tournament p) (pr_round p) (fun s => pr_round p = 1 \/ s <> "scheduled");
  c_over : forall r, In r (rounds db) -> tr_status r = "completed" ->
    decided (round_of (tr_tournament r) (tr_round r) db);
  c_registration : forall t, In t (tournaments db) -> t_status t = "registration" ->
    pairings_of (t_id t) db = [];
  c_shape : forall p, In p (pairings db) -> pairing_ok p = true
}.

(** ** What an operation changes *)

Definition status_rank (s : string) : Z :=
  if String.eqb s "completed" then 2 else if String.eqb s "in_progress" then 1 else 0.
Definition round_rank (s : string) : Z :=
  if String.eqb s "completed" then 2 else if String.eqb s "live" then 1 else 0.

Lemma status_rank_max s : status_rank s <= 2.
Proof. unfold status_rank. repeat destruct (String.eqb _ _); lia. Qed.
Lemma round_rank_max s : round_rank s <= 2.
Proof. unfold round_rank. repeat destruct (String.eqb _ _); lia. Qed.

(** What is fixed when the row is created. *)
Definition terms (t : StoredTournament) :=
  (t_id t, t_name t, t_format t, t_initial_ms t, t_increment_ms t, t_created_by t,
   (t_deadline t, t_first_round t, t_duration t, t_created_at t)).
Definition meeting (p : StoredPairing) := (pr_id p, pr_tournament p, pr_round p, pr_white p, pr_black p).
Definition entry (tp : StoredTournamentPlayer) :=
  (tp_tournament tp, tp_player tp, tp_elo tp, tp_withdrawn tp).

(** [free] are the pairings whose result may be replaced once it is known. *)
Record evolves (free : Z -> Prop) (db db' : Tables) : Prop := {
  ev_accounts : accounts db' = accounts db;
  ev_tournaments : forall t, In t (tournaments db) -> exists t', In t' (tournaments db') /\
    terms t' = terms t /\ status_rank (t_status t) <= status_rank (t_status t');
  ev_rounds : forall r, In r (rounds db) -> exists r', In r' (rounds db') /\
    round_key r' = round_key r /\ round_rank (tr_status r) <= round_rank (tr_status r');
  ev_pairings : forall p, In p (pairings db) -> exists p', In p' (pairings db') /\
    meeting p' = meeting p /\
    (is_pending p = false -> is_pending p' = false /\ (free (pr_id p) \/ pr_result p' = pr_result p));
  ev_check_ins : forall c, In c (checkins db) -> In c (checkins db');
  (* once a tournament is paired, nobody enters or leaves it *)
  ev_field : forall tid, pairings_of tid db <> [] ->
    map entry (participants_of tid db') = map entry (participants_of tid db)
}.

Lemma evolves_refl free db : evolves free db db.
Proof. constructor; try done; intros x Hx; exists x; repeat split; auto; lia. Qed.

Lemma pairings_of_in tid db p : In p (pairings_of tid db) <-> In p (pairings db) /\ pr_tournament p = tid.
Proof. unfold pairings_of. by rewrite filter_In, Z.eqb_eq. Qed.

Lemma round_of_in tid n db p :
  In p (round_of tid n db) <-> In p (pairings db) /\ pr_tournament p = tid /\ pr_round p = n.
Proof. unfold round_of. rewrite filter_In, pairings_of_in, Z.eqb_eq. tauto. Qed.

Lemma nonempty_in {A} (l : list A) : l <> [] <-> exists x, In x l.
Proof. destruct l as [|x l]; split; [done|by intros [? []]|by exists x; left|done]. Qed.

Lemma evolves_paired free db db' tid :
  evolves free db db' -> pairings_of tid db <> [] -> pairings_of tid db' <> [].
Proof.
  intros He. rewrite !nonempty_in. intros (p & Hp). apply pairings_of_in in Hp as [Hp Ht].
  destruct (ev_pairings _ _ _ He p Hp) as (p' & Hp' & Hm & _). exists p'. apply pairings_of_in.
  injection Hm as _ -> _ _ _. done.
Qed.

Lemma evolves_trans free db1 db2 db3 :
  evolves free db1 db2 -> evolves free db2 db3 -> evolves free db1 db3.
Proof.
  intros H1 H2. constructor.
  - by rewrite (ev_accounts _ _ _ H2), (ev_accounts _ _ _ H1).
  - intros t Ht. destruct (ev_tournaments _ _ _ H1 t Ht) as (t2 & Ht2 & E2 & R2).
    destruct (ev_tournaments _ _ _ H2 t2 Ht2) as (t3 & Ht3 & E3 & R3).
    exists t3. rewrite E3, E2. repeat split; [done|lia].
  - intros r Hr. destruct (ev_rounds _ _ _ H1 r Hr) as (r2 & Hr2 & E2 & R2).
    destruct (ev_rounds _ _ _ H2 r2 Hr2) as (r3 & Hr3 & E3 & R3).
    exists r3. rewrite E3, E2. repeat split; [done|lia].
  - intros p Hp. destruct (ev_pairings _ _ _ H1 p Hp) as (p2 & Hp2 & E2 & R2).
    destruct (ev_pairings _ _ _ H2 p2 Hp2) as (p3 & Hp3 & E3 & R3).
    exists p3. rewrite E3, E2. repeat split; [done|by apply R3, R2|].
    destruct (R2 H) as [D [?|Heq]]; [by left|]. destruct (R3 D) as [_ [Hf|Heq']]; [left|right; congruence].
    by injection E2 as <- _ _ _ _.
  - intros c Hc. by apply (ev_check_ins _ _ _ H2), (ev_check_ins _ _ _ H1).
  - intros tid Hp. rewrite (ev_field _ _ _ H2), (ev_field _ _ _ H1); [done|done|].
    by apply (evolves_paired free db1).
Qed.

(** Only the rows of [tid] change. *)
Definition local (tid : Z) (db db' : Tables) : Prop :=
  forall k, k <> tid ->
    tournaments_of k db' = tournaments_of k db /\ rounds_of k db' = rounds_of k db /\
    pairings_of k db' = pairings_of k db.

Lemma local_refl tid db : local tid db db.
Proof. done. Qed.

Lemma local_trans tid db1 db2 db3 : local tid db1 db2 -> local tid db2 db3 -> local tid db1 db3.
Proof.
  intros H1 H2 k Hk. destruct (H2 k Hk) as (-> & -> & ->). by apply H1.
Qed.

(** The conjunction that every step of an operation on [tid] satisfies. *)
Record proceeds (free : Z -> Prop) (tid : Z) (db db' : Tables) : Prop := {
  pc_coherent : coherent db'; pc_evolves : evolves free db db'; pc_local : local tid db db'
}.

Lemma proceeds_refl free tid db : coherent db -> proceeds free tid db db.
Proof. intros H. split; [done|apply evolves_refl|done]. Qed.

Lemma proceeds_trans free tid db1 db2 db3 :
  proceeds free tid db1 db2 -> proceeds free tid db2 db3 -> proceeds free tid db1 db3.
Proof.
  intros [H1 H2 H3] [H4 H5 H6]. split; [done|by eapply evolves_trans|by eapply local_trans].
Qed.

(** The same, of operations that may concern several tournaments. *)
Record kept (free : Z -> Prop) (db db' : Tables) : Prop := {
  kp_coherent : coherent db'; kp_evolves : evolves free db db'
}.

Lemma kept_refl free db : coherent db -> kept free db db.
Proof. intros H. split; [done|apply evolves_refl]. Qed.
Lemma kept_trans free db1 db2 db3 : kept free db1 db2 -> kept free db2 db3 -> kept free db1 db3.
Proof. intros [H1 H2] [H3 H4]. split; [done|by eapply evolves_trans]. Qed.
Lemma kept_proceeds free tid db db' : proceeds free tid db db' -> kept free db db'.
Proof. by intros [H1 H2 _]. Qed.
#[export] Hint Resolve proceeds_refl proceeds_trans evolves_refl local_refl : chess.

(** ** Changes to one table

    Each kind of change a statement makes, with what it needs to keep the invariant. *)

Section changes.
Context (free : Z -> Prop) (tid : Z) (db : Tables) (Hdb : coherent db).

(** Rows of other tables than the three of the invariant. *)
Lemma others_proceed db' :
  accounts db' = accounts db -> tournaments db' = tournaments db -> rounds db' = rounds db ->
  pairings db' = pairings db -> next_tournament db' = next_tournament db ->
  next_pairing db' = next_pairing db -> (forall c, In c (checkins db) -> In c (checkins db')) ->
  (forall k, pairings_of k db <> [] -> map entry (participants_of k db') = map entry (participants_of k db)) ->
  proceeds free tid db db'.
Proof.
  intros Ha Ht Hr Hp Hnt Hnp Hc Hf. split.
  - destruct Hdb. unfold round_of, pairings_of, round_in in *.
    constructor; unfold round_of, pairings_of, round_in; rewrite ?Ht, ?Hr, ?Hp, ?Hnt, ?Hnp; done.
  - constructor; rewrite ?Ht, ?Hr, ?Hp; try done; intros x Hx; exists x; repeat split; auto; lia.
  - intros k _. unfold tournaments_of, rounds_of, pairings_of. by rewrite Ht, Hr, Hp.
Qed.

Lemma update_field (hit : StoredTournamentPlayer -> bool) f k :
  (forall tp, entry (f tp) = entry tp) ->
  map entry (participants_of k (with_players (update hit f (players db)) db)) =
  map entry (participants_of k db).
Proof.
  intros Hf. unfold participants_of. cbn [with_players players].
  induction (players db) as [|tp tps IH]; cbn; [done|]. fold (update hit f tps).
  assert (entry (if hit tp then f tp else tp) = entry tp) as He by (destruct (hit tp); auto).
  assert (tp_tournament (if hit tp then f tp else tp) = tp_tournament tp) as -> by by injection He.
  destruct (tp_tournament tp =? k); cbn; by rewrite ?He, IH.
Qed.

Lemma players_proceed (hit : StoredTournamentPlayer -> bool) f :
  (forall tp, entry (f tp) = entry tp) ->
  proceeds free tid db (with_players (update hit f (players db)) db).
Proof. intros Hf. apply others_proceed; auto. intros k _. by apply update_field. Qed.

Lemma tournaments_kept (hit : StoredTournament -> bool) f :
  (forall t, terms (f t) = terms t) ->
  (forall t, In t (tournaments db) -> hit t = true ->
     status_rank (t_status t) <= status_rank (t_status (f t))) ->
  (forall t, In t (tournaments db) -> hit t = true -> t_status (f t) = "registration" ->
     t_status t = "registration" \/ pairings_of (t_id t) db = []) ->
  kept free db (with_tournaments (update hit f (tournaments db)) db).
Proof.
  intros Hterms Hhit Hreg.
  assert (forall t, t_id (f t) = t_id t) as Hid by (intros t; pose proof (Hterms t) as E; by injection E).
  split.
  - destruct Hdb. constructor; cbn [with_tournaments tournaments rounds pairings next_tournament next_pairing]; auto.
    + by rewrite map_update.
    + intros t Ht. apply in_update in Ht as (t0 & Ht & ->). destruct (hit t0); rewrite ?Hid; auto.
    + intros r Hr. destruct (c_round_owner0 r Hr) as (t & Ht & <-).
      exists (if hit t then f t else t). split; [by apply in_update; exists t|]. by destruct (hit t).
    + intros t Ht. apply in_update in Ht as (t0 & Ht & ->). destruct (hit t0) eqn:E; [|by apply c_registration0].
      rewrite Hid. intros Hs. destruct (Hreg t0 Ht E Hs); [by apply c_registration0|done].
  - constructor; try done; cbn [with_tournaments tournaments rounds pairings];
      try (intros x Hx; exists x; repeat split; auto; lia).
    intros t Ht. exists (if hit t then f t else t). split; [by apply in_update; exists t|].
    destruct (hit t) eqn:E; [|split; [done|lia]]. split; [auto|by apply Hhit].
Qed.

Lemma tournaments_proceed (hit : StoredTournament -> bool) f :
  (forall t, terms (f t) = terms t) ->
  (forall t, In t (tournaments db) -> hit t = true ->
     t_id t = tid /\ status_rank (t_status t) <= status_rank (t_status (f t))) ->
  (forall t, In t (tournaments db) -> hit t = true -> t_status (f t) = "registration" ->
     t_status t = "registration" \/ pairings_of (t_id t) db = []) ->
  proceeds free tid db (with_tournaments (update hit f (tournaments db)) db).
Proof.
  intros Hterms Hhit Hreg.
  destruct (tournaments_kept hit f Hterms) as [H1 H2]; [intros t Ht E; by apply Hhit|done|].
  split; [done|done|]. intros k Hk. split; [|done]. apply filter_update_other. intros t Ht E.
  pose proof (Hterms t) as Et. injection Et as -> _ _ _ _ _ _ _ _ _.
  destruct (Hhit t Ht E) as [-> _]. split; by apply Z.eqb_neq.
Qed.

(** The rounds other than [hit] keep their status. *)
Lemma round_in_update (hit : StoredTournamentRound -> bool) f k n (P Q : string -> Prop) :
  (forall r, round_key (f r) = round_key r) ->
  (forall r, In r (rounds db) -> hit r = true -> P (tr_status r) -> Q (tr_status (f r))) ->
  (forall s, P s -> Q s) ->
  round_in db k n P -> round_in (with_rounds (update hit f (rounds db)) db) k n Q.
Proof.
  intros Hkey Hhit HPQ (r & Hr & Hk & HP). exists (if hit r then f r else r). split.
  - apply in_update. by exists r.
  - destruct (hit r) eqn:E; [|by auto]. rewrite Hkey. auto.
Qed.

Lemma rounds_proceed (hit : StoredTournamentRound -> bool) f :
  (forall r, round_key (f r) = round_key r) ->
  (forall r, In r (rounds db) -> hit r = true -> tr_tournament r = tid /\
     tr_status r <> "completed" /\ tr_status (f r) <> "scheduled" /\
     round_rank (tr_status r) <= round_rank (tr_status (f r)) /\
     (tr_round r <> 1 -> round_in db (tr_tournament r) (tr_round r - 1) (eq "completed")) /\
     (tr_status (f r) = "completed" -> decided (round_of (tr_tournament r) (tr_round r) db))) ->
  proceeds free tid db (with_rounds (update hit f (rounds db)) db).
Proof.
  intros Hkey Hhit.
  assert (forall r, tr_tournament (f r) = tr_tournament r /\ tr_round (f r) = tr_round r) as Hk
    by (intros r; pose proof (Hkey r) as E; by injection E as -> ->).
  assert (forall k n, round_in db k n (eq "completed") ->
            round_in (with_rounds (update hit f (rounds db)) db) k n (eq "completed")) as Hover.
  { intros k n. apply round_in_update; auto. intros r Hr E He. destruct (Hhit r Hr E) as (_ & Hne & _). congruence. }
  split.
  - destruct Hdb. constructor; cbn [with_rounds tournaments rounds pairings next_tournament next_pairing]; auto.
    + by rewrite map_update.
    + intros r Hr. apply in_update in Hr as (r0 & Hr & ->).
      destruct (hit r0); rewrite ?(proj1 (Hk r0)); auto.
    + intros r Hr. apply in_update in Hr as (r0 & Hr & ->).
      destruct (hit r0); rewrite ?(proj2 (Hk r0)); auto.
    + intros r Hr. apply in_update in Hr as (r0 & Hr & ->). destruct (hit r0) eqn:E.
      * rewrite (proj1 (Hk r0)), (proj2 (Hk r0)). intros _ Hn. apply Hover. by apply (Hhit r0).
      * intros Hs Hn. by apply Hover, c_order0.
    + intros p Hp. apply (round_in_update hit f _ _ (fun s => pr_round p = 1 \/ s <> "scheduled"));
        [done| |done|by apply c_paired0].
      intros r Hr E _. right. by apply (Hhit r).
    + intros r Hr. apply in_update in Hr as (r0 & Hr & ->). destruct (hit r0) eqn:E.
      * rewrite (proj1 (Hk r0)), (proj2 (Hk r0)). intros Hs. by apply (Hhit r0).
      * by apply c_over0.
  - constructor; try done; cbn [with_rounds tournaments rounds pairings].
    + intros x Hx; exists x; repeat split; auto; lia.
    + intros r Hr. exists (if hit r then f r else r). split; [by apply in_update; exists r|].
      destruct (hit r) eqn:E; [|split; [done|lia]]. split; [auto|by apply (Hhit r)].
    + intros x Hx; exists x; repeat split; auto; lia.
  - intros k Hne. split; [done|]. split; [|done].
    apply filter_update_other. intros r Hr E. rewrite (proj1 (Hk r)).
    destruct (Hhit r Hr E) as [-> _]. split; by apply Z.eqb_neq.
Qed.

Lemma decided_update (hit : StoredPairing -> bool) f k n :
  (forall p, meeting (f p) = meeting p) -> (forall p, hit p = true -> is_pending p = false -> is_pending (f p) = false) ->
  decided (round_of k n db) ->
  decided (round_of k n (with_pairings (update hit f (pairings db)) db)).
Proof.
  intros Hm Hf [Hne Hd].
  assert (forall p, pr_tournament (f p) = pr_tournament p /\ pr_round (f p) = pr_round p) as Hk
    by (intros p; pose proof (Hm p) as E; by injection E as _ -> -> _ _).
  split.
  - apply nonempty_in in Hne as (p & Hp). apply round_of_in in Hp as (Hp & <- & <-).
    apply nonempty_in. exists (if hit p then f p else p). apply round_of_in.
    split; [by apply in_update; exists p|]. destruct (hit p); auto.
  - intros p Hp. apply round_of_in in Hp as (Hp & H1 & H2).
    apply in_update in Hp as (p0 & Hp & ->). assert (is_pending p0 = false) as H0.
    { apply Hd, round_of_in. destruct (hit p0); [|done]. by rewrite <- (proj1 (Hk p0)), <- (proj2 (Hk p0)). }
    destruct (hit p0) eqn:E; auto.
Qed.

Lemma pairings_proceed (hit : StoredPairing -> bool) f :
  (forall p, meeting (f p) = meeting p) ->
  (forall p, In p (pairings db) -> hit p = true -> pr_tournament p = tid) ->
  (forall p, hit p = true -> is_pending p = false ->
     is_pending (f p) = false /\ (free (pr_id p) \/ pr_result (f p) = pr_result p)) ->
  forallb pairing_ok (updated hit f (pairings db)) = true ->
  proceeds free tid db (with_pairings (update hit f (pairings db)) db).
Proof.
  intros Hm Htid Hhit Hok. rewrite forallb_forall in Hok.
  assert (forall p, pr_id (f p) = pr_id p /\ pr_tournament (f p) = pr_tournament p /\
            pr_round (f p) = pr_round p) as Hk
    by (intros p; pose proof (Hm p) as E; by injection E as -> -> -> _ _).
  assert (forall k, pairings_of k db = [] ->
            pairings_of k (with_pairings (update hit f (pairings db)) db) = []) as Hnone.
  { intros k H. destruct (pairings_of k (with_pairings _ _)) as [|p l] eqn:E; [done|].
    assert (In p (pairings_of k (with_pairings (update hit f (pairings db)) db))) as Hp
      by (rewrite E; by left).
    apply pairings_of_in in Hp as [Hp Hp']. apply in_update in Hp as (p0 & Hp & ->).
    assert (In p0 (pairings_of k db)) as Hin; [|by rewrite H in Hin].
    apply pairings_of_in. split; [done|]. destruct (hit p0); [|done]. by rewrite <- (proj1 (proj2 (Hk p0))). }
  split.
  - destruct Hdb. constructor; cbn [with_pairings tournaments rounds pairings next_tournament next_pairing]; auto.
    + rewrite map_update; [done|]. intros p. apply Hk.
    + intros p Hp. apply in_update in Hp as (p0 & Hp & ->).
      destruct (hit p0); rewrite ?(proj1 (Hk p0)); auto.
    + intros p Hp. apply in_update in Hp as (p0 & Hp & ->).
      destruct (Hk p0) as (_ & H1 & H2). destruct (hit p0); rewrite ?H1, ?H2; by apply c_paired0.
    + intros r Hr Hs. apply decided_update; [done|by intros p E Hd; apply Hhit|by apply c_over0].
    + intros p Hp. apply in_update in Hp as (p0 & Hp & ->). destruct (hit p0) eqn:E; [|auto].
      apply Hok. unfold updated. apply in_map, filter_In. done.
  - constructor; try done; cbn [with_pairings tournaments rounds pairings].
    + intros x Hx; exists x; repeat split; auto; lia.
    + intros x Hx; exists x; repeat split; auto; lia.
    + intros p Hp. exists (if hit p then f p else p). split; [by apply in_update; exists p|].
      destruct (hit p) eqn:E; [|by auto]. split; [done|]. intros Hd. by apply Hhit.
  - intros k Hne. split; [done|]. split; [done|].
    apply filter_update_other. intros p Hp E. destruct (Hk p) as (_ & -> & _).
    rewrite (Htid p Hp E). split; by apply Z.eqb_neq.
Qed.

(** Round [n] of [tid] may still be paired. *)
Definition pairable (n : Z) : Prop :=
  round_in db tid n (fun s => n = 1 \/ s <> "scheduled") /\
  (forall r, In r (rounds db) -> round_key r = (tid, n) -> tr_status r <> "completed") /\
  (forall t, In t (tournaments db) -> t_id t = tid -> t_status t <> "registration").

Lemma new_pairing_proceeds p :
  pr_tournament p = tid -> pairable (pr_round p) -> pr_id p = next_pairing db -> pairing_ok p = true ->
  proceeds free tid db (with_next_pairing (next_pairing db + 1) (with_pairings (pairings db ++ [p]) db)).
Proof.
  intros Htid (Hin & Hopen & Hreg) Hid Hok.
  assert (forall k n, (k, n) <> (tid, pr_round p) ->
    round_of k n (with_next_pairing (next_pairing db + 1) (with_pairings (pairings db ++ [p]) db)) =
    round_of k n db) as Hround.
  { intros k n Hne. unfold round_of, pairings_of. cbn. rewrite filter_app. cbn.
    rewrite Htid. destruct (Z.eqb_spec tid k) as [->|]; [|by rewrite app_nil_r].
    rewrite filter_app. cbn. destruct (Z.eqb_spec (pr_round p) n) as [E|]; [by rewrite E in Hne|by rewrite app_nil_r]. }
  split.
  - destruct Hdb. constructor;
      cbn [with_next_pairing with_pairings tournaments rounds pairings next_tournament next_pairing]; auto.
    + rewrite map_app. apply NoDup_app; [done|repeat constructor; by intros []|].
      intros x Hx [<-|[]]. apply in_map_iff in Hx as (q & Hq & Hin'). apply c_fresh_pairing0 in Hin'. lia.
    + intros q Hq. apply in_app_iff in Hq as [Hq|[<-|[]]]; [apply c_fresh_pairing0 in Hq|]; lia.
    + intros q Hq. apply in_app_iff in Hq as [Hq|[<-|[]]]; [by apply c_paired0|]. by rewrite Htid.
    + intros r Hr Hs. rewrite Hround; [by apply c_over0|]. intros E. by apply (Hopen r).
    + intros t Ht Hs. specialize (c_registration0 t Ht Hs). unfold pairings_of in *.
      cbn. rewrite filter_app, c_registration0. cbn. rewrite Htid.
      destruct (Z.eqb_spec tid (t_id t)) as [E|]; [|done]. by destruct (Hreg t).
    + intros q Hq. apply in_app_iff in Hq as [Hq|[<-|[]]]; auto.
  - constructor; try done; cbn [with_next_pairing with_pairings tournaments rounds pairings];
      try (intros x Hx; exists x; repeat split; auto; lia).
    intros q Hq. exists q. split; [apply in_app_iff; by left|by auto].
  - intros k Hne. split; [done|]. split; [done|]. unfold pairings_of. cbn.
    rewrite filter_app. cbn. rewrite Htid, (proj2 (Z.eqb_neq tid k)) by done. by rewrite app_nil_r.
Qed.

(** New rounds, all of them scheduled. *)
Lemma new_rounds_proceed new :
  (forall r, In r new -> tr_status r = "scheduled" /\ tr_tournament r = tid /\ 0 < tr_round r) ->
  List.NoDup (map round_key new) ->
  (forall r, In r new -> exists t, In t (tournaments db) /\ t_id t = tid) ->
  (forall r r', In r new -> In r' (rounds db) -> round_key r' <> round_key r) ->
  proceeds free tid db (with_rounds (rounds db ++ new) db).
Proof.
  intros Hnew Hnd Howner Hfresh.
  assert (forall k n P, round_in db k n P -> round_in (with_rounds (rounds db ++ new) db) k n P) as Hin.
  { intros k n P (r & Hr & HP). exists r. split; [apply in_app_iff; by left|done]. }
  split.
  - destruct Hdb. constructor; cbn [with_rounds tournaments rounds pairings next_tournament next_pairing]; auto.
    + rewrite map_app. apply NoDup_app; [done|done|]. intros k Hk Hk'.
      apply in_map_iff in Hk as (r' & <- & Hr'). apply in_map_iff in Hk' as (r & E & Hr).
      by apply (Hfresh r r').
    + intros r Hr. apply in_app_iff in Hr as [Hr|Hr]; [by apply c_round_owner0|].
      destruct (Howner r Hr) as (t & Ht & <-). exists t. split; [done|]. symmetry. by apply Hnew.
    + intros r Hr. apply in_app_iff in Hr as [Hr|Hr]; [by apply c_positive0|by apply Hnew].
    + intros r Hr Hs Hn. apply in_app_iff in Hr as [Hr|Hr]; [by apply Hin, c_order0|].
      by rewrite (proj1 (Hnew r Hr)) in Hs.
    + intros r Hr Hs. apply in_app_iff in Hr as [Hr|Hr]; [by apply c_over0|].
      by rewrite (proj1 (Hnew r Hr)) in Hs.
  - constructor; try done; cbn [with_rounds tournaments rounds pairings];
      try (intros x Hx; exists x; repeat split; auto; lia).
    intros r Hr. exists r. split; [apply in_app_iff; by left|]. split; [done|lia].
  - intros k Hne. split; [done|]. split; [|done]. unfold rounds_of. cbn. rewrite filter_app.
    assert (List.filter (fun r => tr_tournament r =? k) new = []) as ->; [|by rewrite app_nil_r].
    destruct (List.filter _ new) as [|r l] eqn:E; [done|].
    assert (In r (List.filter (fun r => tr_tournament r =? k) new)) as Hr by (rewrite E; by left).
    apply filter_In in Hr as [Hr Hk]. apply Z.eqb_eq in Hk. destruct (Hnew r Hr) as (_ & E1 & _). congruence.
Qed.

(** A new tournament and its rounds. *)
Lemma new_tournament_kept t new :
  t_id t = next_tournament db ->
  (forall r, In r new -> tr_status r = "scheduled" /\ tr_tournament r = t_id t /\ 0 < tr_round r) ->
  List.NoDup (map round_key new) ->
  kept free db (with_next_tournament (next_tournament db + 1)
    (with_tournaments (tournaments db ++ [t]) (with_rounds (rounds db ++ new) db))).
Proof.
  intros Hid Hnew Hnd.
  assert (pairings_of (t_id t) db = []) as Hnone.
  { destruct (pairings_of _ db) as [|p l] eqn:E; [done|]. exfalso.
    assert (In p (pairings_of (t_id t) db)) as Hp by (rewrite E; by left).
    apply pairings_of_in in Hp as [Hp Ht]. destruct (c_paired _ Hdb p Hp) as (r & Hr & Hk & _).
    injection Hk as Hk _. destruct (c_round_owner _ Hdb r Hr) as (t' & Ht' & E').
    apply (c_fresh_tournament _ Hdb) in Ht'. lia. }
  assert (forall k n P, round_in db k n P -> round_in (with_next_tournament (next_tournament db + 1)
    (with_tournaments (tournaments db ++ [t]) (with_rounds (rounds db ++ new) db))) k n P) as Hin.
  { intros k n P (r & Hr & HP). exists r. split; [apply in_app_iff; by left|done]. }
  split.
  - destruct Hdb. constructor;
      cbn [with_next_tournament with_tournaments with_rounds tournaments rounds pairings next_tournament next_pairing]; auto.
    + rewrite map_app. apply NoDup_app; [done|repeat constructor; by intros []|].
      intros k Hk [<-|[]]. apply in_map_iff in Hk as (t' & E & Ht'). apply c_fresh_tournament0 in Ht'. lia.
    + rewrite map_app. apply NoDup_app; [done|done|]. intros k Hk Hk'.
      apply in_map_iff in Hk as (r & <- & Hr). apply in_map_iff in Hk' as (r' & E & Hr').
      injection E as E _. rewrite (proj1 (proj2 (Hnew r' Hr'))) in E.
      destruct (c_round_owner0 r Hr) as (t' & Ht' & E'). apply c_fresh_tournament0 in Ht'. lia.
    + intros t' Ht'. apply in_app_iff in Ht' as [Ht'|[<-|[]]]; [apply c_fresh_tournament0 in Ht'|]; lia.
    + intros r Hr. apply in_app_iff in Hr as [Hr|Hr].
      * destruct (c_round_owner0 r Hr) as (t' & Ht' & E). exists t'. split; [apply in_app_iff; by left|done].
      * exists t. split; [apply in_app_iff; right; by left|]. symmetry. by apply Hnew.
    + intros r Hr. apply in_app_iff in Hr as [Hr|Hr]; [by apply c_positive0|by apply Hnew].
    + intros r Hr Hs Hn. apply in_app_iff in Hr as [Hr|Hr]; [by apply Hin, c_order0|].
      by rewrite (proj1 (Hnew r Hr)) in Hs.
    + intros r Hr Hs. apply in_app_iff in Hr as [Hr|Hr]; [by apply c_over0|].
      by rewrite (proj1 (Hnew r Hr)) in Hs.
    + intros t' Ht' Hs. apply in_app_iff in Ht' as [Ht'|[<-|[]]]; [by apply c_registration0|done].
  - constructor; try done;
      cbn [with_next_tournament with_tournaments with_rounds tournaments rounds pairings].
    + intros t' Ht'. exists t'. split; [apply in_app_iff; by left|]. split; [done|lia].
    + intros r Hr. exists r. split; [apply in_app_iff; by left|]. split; [done|lia].
    + intros p Hp. exists p. repeat split; auto.
Qed.
End changes.

(** ** Queries *)

Section queries.
Context (calm : bool) (o : option Tables).

Lemma wp_find_tournament tid Q db :
  Q (head (tournaments_of tid db)) db -> (calm = false -> Q None db) ->
  wp calm o (find_tournament tid) Q db.
Proof. intros H1 H2. unfold find_tournament. by apply (wp_rows _ _ _ (head (A := StoredTournament))). Qed.

Lemma wp_get_participants tid Q db :
  Q (isort player_before (participants_of tid db)) db -> (calm = false -> Q [] db) ->
  wp calm o (get_participants tid) Q db.
Proof. intros H1 H2. by apply (wp_rows _ _ _ id). Qed.

Lemma wp_participants_any tid Q db :
  (forall l, Q l db) -> wp calm o (get_participants tid) Q db.
Proof. intros H. by apply wp_get_participants. Qed.

Lemma wp_get_pairings tid Q db :
  Q (isort pairing_before (pairings_of tid db)) db -> (calm = false -> Q [] db) ->
  wp calm o (get_pairings tid) Q db.
Proof. intros H1 H2. by apply (wp_rows _ _ _ id). Qed.

Lemma wp_pairings_any tid Q db :
  (forall l, Q l db) -> wp calm o (get_pairings tid) Q db.
Proof. intros H. by apply wp_get_pairings. Qed.

Lemma wp_get_round tid n Q db :
  Q (isort (fun a b => pr_id a <? pr_id b) (round_of tid n db)) db -> (calm = false -> Q [] db) ->
  wp calm o (get_pairings_for_round tid n) Q db.
Proof. intros H1 H2. by apply (wp_rows _ _ _ id). Qed.

Lemma wp_round_any tid n Q db :
  (forall l, (forall p, In p l -> In p (round_of tid n db)) -> Q l db) ->
  wp calm o (get_pairings_for_round tid n) Q db.
Proof.
  intros H. apply wp_get_round; [|intros _; by apply H]. apply H.
  intros p. apply Permutation_in, isort_perm.
Qed.

Lemma wp_checkins_any tid n Q db :
  (forall l, Q l db) -> wp calm o (get_round_checkins tid n) Q db.
Proof. intros H. by apply (wp_rows _ _ _ id). Qed.

Lemma wp_find_pairing id Q db :
  Q (head (List.filter (fun p => pr_id p =? id) (pairings db))) db -> (calm = false -> Q None db) ->
  wp calm o (find_pairing id) Q db.
Proof. intros H1 H2. unfold find_pairing. by apply (wp_rows _ _ _ (head (A := StoredPairing))). Qed.
End queries.

Lemma head_in {A} (l : list A) x : head l = Some x -> In x l.
Proof. destruct l; cbn; [done|]. intros [= ->]. by left. Qed.

Lemma find_tournament_spec tid db t :
  head (tournaments_of tid db) = Some t -> In t (tournaments db) /\ t_id t = tid.
Proof. intros H. apply head_in in H. unfold tournaments_of in H. by rewrite filter_In, Z.eqb_eq in H. Qed.

(** A complete round among the pairings as they are read. *)
Lemma round_is_complete_spec tid n db ps :
  Permutation ps (pairings_of tid db) ->
  round_is_complete ps n = true <-> decided (round_of tid n db).
Proof.
  intros Hp. unfold round_is_complete, decided, round_of.
  pose proof (filter_perm (fun p => pr_round p =? n) _ _ Hp) as Hf.
  rewrite andb_true_iff, forallb_forall, negb_true_iff, Nat.eqb_neq.
  rewrite (Permutation_length Hf), length_zero_iff_nil.
  split; intros [H1 H2]; (split; [done|]); intros p Hin.
  - apply negb_true_iff, H2. by rewrite Hf.
  - apply negb_true_iff, H2. by rewrite <- Hf.
Qed.
