(* ===== verification/TournamentSteps.v ===== *)
(** * The methods of the tournament manager keep the invariant

    Whatever statements fail, each method leaves [coherent] tables and changes only what
    [evolves] allows.  The lemmas follow the code: statements, then private steps, then
    public methods. *)
From stdpp Require Import strings gmap.
From S2P Require Import Prelude Swiss Storage StorageSpec TournamentRepo TournamentManager TournamentSpec.
Open Scope string_scope.
Open Scope list_scope.
Open Scope Z_scope.

(** ** Statements that may fail *)

(** The answer and the tables of a statement: an error says nothing about the tables. *)
Definition ran {R} (statement : Z -> Tables -> option (Tables * R)) (db : Tables)
    (a : string + R) (db' : Tables) : Prop :=
  match a with
  | inr r => exists now, statement now db = Some (db', r)
  | inl _ => db' = db \/ exists now r, statement now db = Some (db', r)
  end.

Lemma wp_ran {R} o (statement : Z -> Tables -> option (Tables * R)) (Q : string + R -> Tables -> Prop) db :
  (forall a db', ran statement db a db' -> Q a db') -> wp false o (exec statement) Q db.
Proof.
  intros H. apply wp_exec.
  - intros _ e. apply H. by left.
  - intros now _. split; [done|]. intros e. apply H. by left.
  - intros now db' r E. split; [apply H; by exists now|]. intros _ e. apply H. right. by exists now, r.
Qed.

(** What holds without the statement and after it holds whatever its fate. *)
Lemma ran_keeps {R} (statement : Z -> Tables -> option (Tables * R)) (P : Tables -> Prop) db a db' :
  ran statement db a db' -> P db -> (forall now db' r, statement now db = Some (db', r) -> P db') -> P db'.
Proof. intros H H0 Hs. destruct a; cbn in H; [destruct H as [->|(now & r & H)]|destruct H as [now H]]; eauto. Qed.

(** Splits [if ... then Some _ else None = Some _]. *)
Ltac statement H :=
  match type of H with
  | (if ?b then _ else _) = Some _ => destruct b eqn:?; [|discriminate H]
  end; injection H as <- <-.

Lemma filter_key {A} (key : A -> Z) (l : list A) k :
  List.NoDup (map key l) ->
  List.filter (fun x => key x =? k) l = [] \/ exists x, List.filter (fun x => key x =? k) l = [x].
Proof.
  induction l as [|x l IH]; cbn; [by left|]. rewrite NoDup_cons_iff. intros [Hx Hl].
  destruct (Z.eqb_spec (key x) k) as [<-|]; [|by apply IH]. right. exists x. f_equal.
  destruct (List.filter _ l) as [|y m] eqn:E; [done|]. exfalso. apply Hx.
  assert (In y (List.filter (fun z => key z =? key x) l)) as Hy by (rewrite E; by left).
  apply filter_In in Hy as [Hy Hk]. apply Z.eqb_eq in Hk. rewrite <- Hk. by apply in_map.
Qed.

Lemma same_key {A K} (key : A -> K) (l : list A) x y :
  List.NoDup (map key l) -> In x l -> In y l -> key x = key y -> x = y.
Proof.
  induction l as [|z l IH]; cbn; [done|]. rewrite NoDup_cons_iff. intros [Hz Hl].
  intros [->|Hx] [->|Hy] E; auto; exfalso; apply Hz.
  - rewrite E. by apply in_map.
  - rewrite <- E. by apply in_map.
Qed.

Section steps.
Context (o : option Tables) (free : Z -> Prop).

(** ** The columns of a tournament *)

Lemma wp_set_status tid status db :
  coherent db -> status <> "registration" ->
  (forall t, In t (tournaments db) -> t_id t = tid -> status_rank (t_status t) <= status_rank status) ->
  wp false o (set_tournament_status tid status) (fun ok db' =>
    proceeds free tid db db' /\ rounds db' = rounds db /\
    (ok = true -> forall t, In t (tournaments db') -> t_id t = tid -> t_status t = status)) db.
Proof.
  intros Hdb Hne Hrank. unfold set_tournament_status. wp_step. apply wp_ran. intros a db' Hran. wp_step.
  assert (forall now db1 n, sql_set_status status tid now db = Some (db1, n) ->
            proceeds free tid db db1 /\ rounds db1 = rounds db /\
            forall t, In t (tournaments db1) -> t_id t = tid -> t_status t = status) as Hst.
  { intros now db1 n H. unfold sql_set_status in H. statement H. split; [|split; [done|]].
    - apply tournaments_proceed; [done|done| |done]. intros t Ht E. apply Z.eqb_eq in E.
      split; [done|by apply Hrank].
    - intros t Ht Hid. apply in_update in Ht as (t0 & _ & ->).
      destruct (Z.eqb_spec (t_id t0) tid); [done|by destruct (t_id t0 =? tid)]. }
  split; [|split].
  - apply (ran_keeps _ _ _ _ _ Hran); [by apply proceeds_refl|]. intros now db1 n H. apply (Hst now db1 n H).
  - apply (ran_keeps _ (fun db' => rounds db' = rounds db) _ _ _ Hran); [done|].
    intros now db1 n H. apply (Hst now db1 n H).
  - destruct a as [|n]; [done|]. destruct Hran as [now H]. intros _. apply (Hst now db' n H).
Qed.

Lemma wp_set_round tid n db :
  coherent db ->
  wp false o (set_tournament_round tid n) (fun _ db' =>
    proceeds free tid db db' /\ rounds db' = rounds db /\
    forall t, In t (tournaments db') -> exists t0, In t0 (tournaments db) /\ t_id t0 = t_id t /\ t_status t0 = t_status t) db.
Proof.
  intros Hdb. unfold set_tournament_round. wp_step. apply wp_ran. intros a db' Hran. wp_step.
  apply (ran_keeps _ (fun db' => proceeds free tid db db' /\ rounds db' = rounds db /\
    forall t, In t (tournaments db') -> exists t0, In t0 (tournaments db) /\ t_id t0 = t_id t /\ t_status t0 = t_status t) _ _ _ Hran);
    [split; [by apply proceeds_refl|split; [done|eauto]]|].
  intros now db1 r H. unfold sql_set_round in H. statement H. split; [|split; [done|]].
  - apply tournaments_proceed; [done|done| |by left]. intros t Ht E. apply Z.eqb_eq in E.
    split; [done|cbn; lia].
  - intros t Ht. apply in_update in Ht as (t0 & Ht & ->). exists t0. by destruct (t_id t0 =? tid).
Qed.

(** ** Pairings *)

Lemma pairable_change tid n db db' :
  pairable tid db n -> rounds db' = rounds db ->
  (forall t, In t (tournaments db') -> exists t0, In t0 (tournaments db) /\ t_id t0 = t_id t /\ t_status t0 = t_status t) ->
  pairable tid db' n.
Proof.
  intros (H1 & H2 & H3) Hr Ht. unfold pairable, round_in. rewrite Hr. split; [done|]. split; [done|].
  intros t Hin Hid. destruct (Ht t Hin) as (t0 & Hin0 & E & <-). apply H3; [done|congruence].
Qed.

Lemma wp_insert_pairing tid n white black result db :
  coherent db -> pairable tid db n ->
  wp false o (insert_pairing tid n white black result) (fun _ db' =>
    proceeds free tid db db' /\ pairable tid db' n) db.
Proof.
  intros Hdb Hp. unfold insert_pairing. wp_step. apply wp_ran. intros a db' Hran. wp_step.
  apply (ran_keeps _ (fun db' => proceeds free tid db db' /\ pairable tid db' n) _ _ _ Hran);
    [split; [by apply proceeds_refl|done]|].
  intros now db1 r H. unfold sql_insert_pairing in H. statement H. bool_hyps.
  split; [by apply new_pairing_proceeds|]. apply (pairable_change _ _ db); [done|done|eauto].
Qed.

Lemma wp_insert_pairings tid n dealt db :
  coherent db -> pairable tid db n ->
  wp false o (insert_pairings tid n dealt) (fun _ db' =>
    proceeds free tid db db' /\ pairable tid db' n) db.
Proof.
  revert db. induction dealt as [|p dealt IH]; intros db Hdb Hp; cbn [insert_pairings].
  - wp_step. split; [by apply proceeds_refl|done].
  - wp_step. eapply wp_mono; [by apply wp_insert_pairing|]. intros ir db1 [H1 Hp1]. cbn beta.
    destruct ir as [id|e]; [|by wp_step]. eapply wp_mono; [by apply IH; [apply H1|]|].
    intros a db2 [H2 Hp2]. split; [by eapply proceeds_trans|done].
Qed.

(** ** Results *)

Lemma wp_set_result tid id result source db :
  coherent db -> (forall p, In p (pairings db) -> pr_id p = id -> pr_tournament p = tid) ->
  result <> "pending" ->
  wp false o (set_pairing_result id result source) (fun _ db' => proceeds free tid db db') db.
Proof.
  intros Hdb Htid Hres. unfold set_pairing_result. wp_step. apply wp_ran. intros a db' Hran. wp_step.
  apply (ran_keeps _ _ _ _ _ Hran); [by apply proceeds_refl|].
  intros now db1 n H. unfold sql_set_result, recount in H. statement H.
  assert (proceeds free tid db (with_pairings (update (fun p => (pr_id p =? id) &&
            (String.eqb (pr_result p) "pending" || String.eqb (pr_result p) result))
            (with_result result source now) (pairings db)) db)) as H1.
  { apply pairings_proceed; [done|done| | |done].
    - intros p Hp E. bool_hyps. by apply Htid.
    - intros p E Hd. bool_hyps. split; [by apply String.eqb_neq|]. right. cbn.
      apply orb_prop in H0 as [H0|H0]; [unfold is_pending in Hd; congruence|].
      symmetry. by apply String.eqb_eq. }
  eapply proceeds_trans; [apply H1|]. apply (players_proceed free tid _ (pc_coherent _ _ _ _ H1)). done.
Qed.

Lemma wp_override id actor tid result reason db :
  coherent db -> (forall p, In p (pairings db) -> pr_id p = id -> pr_tournament p = tid) ->
  result <> "pending" -> free id ->
  wp false o (audit_and_override_result id actor result reason) (fun _ db' => proceeds free tid db db') db.
Proof.
  intros Hdb Htid Hres Hfree. unfold audit_and_override_result. wp_step. apply wp_ran.
  intros a db' Hran. wp_step. apply (ran_keeps _ _ _ _ _ Hran); [by apply proceeds_refl|].
  intros now db1 n H. unfold sql_override, recount in H. statement H. bool_hyps.
  assert (proceeds free tid db (with_pairings (update (fun p => pr_id p =? id)
            (with_result result "override" now) (pairings db)) db)) as H1.
  { apply pairings_proceed; [done|done| | |done].
    - intros p Hp E. bool_hyps. by apply Htid.
    - intros p E _. bool_hyps. split; [by apply String.eqb_neq|]. left. by rewrite E. }
  pose proof (players_proceed free tid _ (pc_coherent _ _ _ _ H1)
    (fun tp => existsb (fun p => pr_tournament p =? tp_tournament tp)
       (updated (fun p => pr_id p =? id) (with_result result "override" now) (pairings db)))
    (totals (effective id result) (pairings db)) (fun _ => eq_refl)) as H2.
  eapply proceeds_trans; [apply H1|]. eapply proceeds_trans; [apply H2|].
  by apply others_proceed; [apply H2|..].
Qed.

Lemma wp_recompute tid db :
  coherent db ->
  wp false o (recompute_participant_totals tid) (fun _ db' => proceeds free tid db db') db.
Proof.
  intros Hdb. unfold recompute_participant_totals. wp_step. apply wp_ran. intros a db' Hran. wp_step.
  apply (ran_keeps _ _ _ _ _ Hran); [by apply proceeds_refl|].
  intros now db1 n H. injection H as <- <-. by apply players_proceed.
Qed.

(** ** Closing a round *)

Lemma complete_round_proceeds tid n now db db' r :
  coherent db -> decided (round_of tid n db) ->
  sql_complete_round tid n now db = Some (db', r) ->
  proceeds free tid db db' /\ tournaments db' = tournaments db.
Proof.
  intros Hdb Hd [= <- <-]. split; [|done]. apply rounds_proceed; [done|done|].
  intros q Hq E. bool_hyps. cbn [tr_status]. rewrite H, H1 in *.
  apply String.eqb_neq in H0. split; [done|]. split; [done|]. split; [done|]. split.
  { apply round_rank_max. }
  split; [|by auto]. intros Hn.
  destruct (proj1 (nonempty_in _) (proj1 Hd)) as (p & Hp). apply round_of_in in Hp as (Hp & E1 & E2).
  destruct (c_paired _ Hdb p Hp) as (r & Hr & Hk & Hs). rewrite E1, E2 in Hk. injection Hk as Hk1 Hk2.
  rewrite <- Hk1, <- Hk2. apply (c_order _ Hdb); [done| |congruence].
  destruct Hs as [Hs|Hs]; congruence.
Qed.

Lemma allocate_round_proceeds tid n earliest closes now db db' r :
  coherent db -> sql_allocate_round tid n earliest closes now db = Some (db', r) ->
  proceeds free tid db db'.
Proof.
  intros Hdb H. unfold sql_allocate_round in H. statement H. bool_hyps.
  set (raise := fun t => with_rounds_played (Z.max (t_rounds t) n) (t_current_round t) t) in *.
  set (hit := fun t => t_id t =? tid) in *.
  assert (proceeds free tid db (with_tournaments (update hit raise (tournaments db)) db)) as H1.
  { apply tournaments_proceed; [done|done| |by left]. intros t Ht E. apply Z.eqb_eq in E.
    split; [done|cbn; lia]. }
  eapply proceeds_trans; [apply H1|].
  apply (new_rounds_proceed free tid _ (pc_coherent _ _ _ _ H1)).
  - intros q Hq. rewrite forallb_forall in H0. specialize (H0 q Hq). unfold round_ok in H0. bool_hyps.
    destruct (existsb _ _); [done|]. by apply in_map_iff in Hq as (t & <- & _).
  - destruct (existsb _ _); [constructor|]. rewrite map_map. unfold round_key. cbn.
    unfold hit. destruct (filter_key t_id (tournaments db) tid (c_tournaments _ Hdb)) as [->|[t ->]];
      repeat constructor; by intros [].
  - intros q Hq. destruct (existsb _ _); [done|]. apply in_map_iff in Hq as (t & <- & Ht).
    apply filter_In in Ht as [Ht E]. apply Z.eqb_eq in E. exists (raise t). split; [|done].
    apply in_update. exists t. unfold hit. by rewrite E, Z.eqb_refl.
  - intros q q' Hq Hq' Hk. destruct (existsb _ _) eqn:E; [done|].
    apply in_map_iff in Hq as (t & <- & _). injection Hk as Hk1 Hk2. cbn in Hq'.
    apply not_true_iff_false in E. apply E. apply existsb_exists. exists q'. split; [done|].
    by rewrite Hk1, Hk2, !Z.eqb_refl.
Qed.

Lemma wp_finish_or_proceed tid n over db :
  coherent db -> wp false o (finish_or_proceed tid n over) (fun _ db' => proceeds free tid db db') db.
Proof.
  intros Hdb. unfold finish_or_proceed. destruct over; wp_step.
  - eapply wp_mono; [apply wp_set_status; [done|done|]|].
    + intros t _ _. apply status_rank_max.
    + intros ok db1 [H1 _]. by wp_step.
  - eapply wp_mono; [by apply wp_set_round|]. intros ok db1 [H1 _]. by wp_step.
Qed.

Lemma wp_maybe_advance tid n db :
  coherent db ->
  wp false o (maybe_advance_after_result tid n) (fun _ db' => proceeds free tid db db') db.
Proof.
  intros Hdb. unfold maybe_advance_after_result. wp_step.
  apply wp_find_tournament; [|intros _; wp_step; by apply proceeds_refl].
  destruct (head _) as [t|]; [|wp_step; by apply proceeds_refl]. wp_step.
  apply wp_get_pairings; [|intros _; simpl; wp_step; by apply proceeds_refl].
  set (all := isort _ _).
  pose proof (round_is_complete_spec tid n db all (isort_perm _ _)) as Hc.
  destruct (round_is_complete all n); cbn; [|wp_step; by apply proceeds_refl].
  pose proof (proj1 Hc eq_refl) as Hd. wp_step. apply wp_ran. intros a db1 Hran.
  assert (proceeds free tid db db1) as H1.
  { apply (ran_keeps _ _ _ _ _ Hran); [by apply proceeds_refl|]. intros now db2 r H.
    by eapply complete_round_proceeds. }
  pose proof (pc_coherent _ _ _ _ H1) as Hdb1.
  destruct a as [e|k]; [by wp_step|].
  assert (forall over db2, proceeds free tid db db2 ->
    wp false o (finish_or_proceed tid n over) (fun _ db' => proceeds free tid db db') db2) as Hf.
  { intros over db2 H2. eapply wp_mono; [apply wp_finish_or_proceed, H2|].
    intros ? db3 H3. by eapply proceeds_trans. }
  destruct (is_elimination t); [|by apply Hf].
  unfold proceed_elimination. destruct (elimination_over all n); [by apply Hf|].
  wp_step. wp_step. wp_step. apply wp_ran. intros b db2 Hran2.
  assert (proceeds free tid db db2) as H2.
  { apply (ran_keeps _ _ _ _ _ Hran2); [done|]. intros now' db3 r H.
    eapply proceeds_trans; [apply H1|by eapply allocate_round_proceeds]. }
  destruct b; [by wp_step|by apply Hf].
Qed.

Lemma wp_generate tid n db :
  coherent db -> pairable tid db n ->
  wp false o (generate_round_pairings tid n) (fun _ db' => proceeds free tid db db') db.
Proof.
  intros Hdb Hp. unfold generate_round_pairings. pose proof (proceeds_refl free tid db Hdb) as H0. wp_step.
  apply wp_find_tournament; [|by intros _; wp_step].
  destruct (head _) as [t|]; [|by wp_step].
  wp_step. apply wp_participants_any. intros participants. destruct (_ =? 0)%nat; [by wp_step|].
  wp_step. apply wp_pairings_any. intros all. destruct (_ =? 0)%nat; [by wp_step|]. wp_step.
  eapply wp_mono; [by apply wp_insert_pairings|]. intros failure db1 [H1 _]. cbn beta.
  destruct failure; [by wp_step|]. wp_step.
  eapply wp_mono; [apply wp_recompute, H1|]. intros done db2 H2. cbn beta.
  pose proof (proceeds_trans _ _ _ _ _ H1 H2) as H12.
  destruct done; [|by wp_step].
  eapply wp_mono; [apply wp_maybe_advance, H2|]. intros ? db3 H3. by eapply proceeds_trans.
Qed.

(** ** Starting a round *)

Lemma startable_spec tid n now db q :
  startable tid n now db q = true ->
  tr_tournament q = tid /\ tr_round q = n /\ tr_status q = "scheduled" /\
  (n <> 1 -> round_in db tid (n - 1) (eq "completed")).
Proof.
  intros E. unfold startable in E. bool_hyps. split; [done|]. split; [done|].
  split; [by apply String.eqb_eq|]. intros Hn.
  apply orb_prop in H0 as [H0|H0]; [by apply Z.eqb_eq in H0|].
  apply existsb_exists in H0 as (prev & Hp & E). bool_hyps. exists prev.
  split; [done|]. split; [unfold round_key; congruence|]. symmetry. by apply String.eqb_eq.
Qed.

Lemma claim_round_proceeds tid n now_unix now db db' r :
  coherent db -> sql_claim_round tid n now_unix now db = Some (db', r) ->
  proceeds free tid db db' /\ tournaments db' = tournaments db /\
  (r <> [] -> round_in db' tid n (eq "live") /\
     forall q, In q (rounds db') -> round_key q = (tid, n) -> tr_status q <> "completed").
Proof.
  intros Hdb [= <- <-].
  pose proof (startable_spec tid n now_unix db) as Hst.
  split; [|split; [done|]].
  - apply rounds_proceed; [done|done|]. intros q Hq E. destruct (Hst q E) as (-> & -> & -> & Hprev).
    by repeat split.
  - intros Hr. apply nonempty_in in Hr as (k & Hk). apply in_map_iff in Hk as (q & _ & Hq).
    apply filter_In in Hq as [Hq E]. destruct (Hst q E) as (H1 & H2 & H3 & _). split.
    + eexists. split; [apply in_update; exists q; split; [done|by rewrite E]|].
      unfold round_key. cbn. by rewrite H1, H2.
    + intros q' Hq' Hkey. apply in_update in Hq' as (q0 & Hq0 & ->).
      destruct (startable tid n now_unix db q0) eqn:E0; [done|].
      assert (q0 = q) as ->; [|congruence].
      apply (same_key round_key (rounds db)); [by apply Hdb|done|done|]. rewrite Hkey. unfold round_key. congruence.
Qed.

Lemma wp_start_due_round tid n now_unix db :
  coherent db -> (forall t, In t (tournaments db) -> t_id t = tid -> t_status t <> "completed") ->
  wp false o (start_due_round tid n now_unix) (fun _ db' => proceeds free tid db db') db.
Proof.
  intros Hdb Hopen. unfold start_due_round. wp_step. apply wp_ran. intros a db1 Hran.
  assert (proceeds free tid db db1 /\ tournaments db1 = tournaments db) as [H1 Ht1].
  { apply (ran_keeps _ (fun d => proceeds free tid db d /\ tournaments d = tournaments db) _ _ _ Hran);
      [split; [by apply proceeds_refl|done]|].
    intros now d r H. destruct (claim_round_proceeds _ _ _ _ _ _ _ Hdb H) as (? & ? & _). done. }
  destruct a as [e|claimed]; [by wp_step|]. destruct Hran as [now Hclaim].
  destruct (claim_round_proceeds _ _ _ _ _ _ _ Hdb Hclaim) as (_ & _ & Hlive).
  destruct claimed as [|k claimed]; [by wp_step|]. destruct (Hlive ltac:(done)) as [Hin Hnc].
  wp_step. eapply wp_mono; [apply wp_set_status; [apply H1|done|]|].
  { intros t Ht Hid. rewrite Ht1 in Ht. specialize (Hopen t Ht Hid).
    unfold status_rank. destruct (String.eqb_spec (t_status t) "completed"); [done|].
    cbn. destruct (String.eqb _ _); lia. }
  intros playing db2 (H2 & Hr2 & Hs2). cbn beta. pose proof (proceeds_trans _ _ _ _ _ H1 H2) as H12.
  destruct playing; cbn [negb]; [|by wp_step]. specialize (Hs2 eq_refl).
  wp_step. eapply wp_mono; [apply wp_set_round, H2|]. intros current db3 (H3 & Hr3 & Ht3). cbn beta.
  pose proof (proceeds_trans _ _ _ _ _ H12 H3) as H13.
  destruct current; cbn [negb]; [|by wp_step].
  assert (wp false o (generate_round_pairings tid n) (fun _ db' => proceeds free tid db db') db3) as Hgen.
  { eapply wp_mono; [apply wp_generate; [apply H3|]|intros ? db4 H4; by eapply proceeds_trans].
    unfold pairable, round_in. rewrite Hr3, Hr2. split; [|split; [done|]].
    - destruct Hin as (q & Hq & Hk & Hs). exists q. rewrite <- Hs. split; [done|]. split; [done|by right].
    - intros t Ht Hid. destruct (Ht3 t Ht) as (t0 & Ht0 & E & <-). rewrite Hs2; [done|done|congruence]. }
  wp_step. apply wp_get_round; [destruct (isort _ _); [done|by wp_step]|by intros _].
Qed.

(** ** Forfeits *)

Definition owned (tid : Z) (db : Tables) (ps : list StoredPairing) : Prop :=
  forall p, In p ps -> exists q, In q (pairings db) /\ pr_id q = pr_id p /\ pr_tournament q = tid.

Lemma owned_unique tid db ps p q :
  coherent db -> owned tid db ps -> In p ps -> In q (pairings db) -> pr_id q = pr_id p -> pr_tournament q = tid.
Proof.
  intros Hdb Ho Hp Hq E. destruct (Ho p Hp) as (q' & Hq' & E' & <-). f_equal.
  apply (same_key pr_id (pairings db)); [by apply Hdb|done|done|congruence].
Qed.

Lemma owned_evolves tid db db' ps : evolves free db db' -> owned tid db ps -> owned tid db' ps.
Proof.
  intros He Ho p Hp. destruct (Ho p Hp) as (q & Hq & E & Ht).
  destruct (ev_pairings _ _ _ He q Hq) as (q' & Hq' & Hm & _). exists q'.
  injection Hm as -> -> _ _ _. done.
Qed.

Lemma no_show_result_decided w b r : no_show_result w b = Some r -> r <> "pending".
Proof. by destruct w, b; intros [= <-]. Qed.

Lemma wp_forfeit_absent tid checked ps db :
  coherent db -> owned tid db ps ->
  wp false o (forfeit_absent checked ps) (fun _ db' => proceeds free tid db db') db.
Proof.
  revert db. induction ps as [|p ps IH]; intros db Hdb Ho; cbn [forfeit_absent].
  - wp_step. by apply proceeds_refl.
  - assert (owned tid db ps) as Ho' by (intros q Hq; apply Ho; by right).
    destruct (pr_black p) as [b|]; [|by apply IH].
    destruct (negb (is_pending p)); [by apply IH|].
    destruct (no_show_result _ _) as [r|] eqn:E; [|by apply IH].
    wp_step. eapply wp_mono; [apply (wp_set_result tid)|].
    + done.
    + intros q Hq Hid. apply (owned_unique tid db (p :: ps) p); auto. by left.
    + by eapply no_show_result_decided.
    + intros done db1 H1. cbn beta. destruct done; [|by wp_step].
      eapply wp_mono; [apply IH; [apply H1|by eapply owned_evolves; [apply H1|]]|].
      intros ? db2 H2. by eapply proceeds_trans.
Qed.

Lemma wp_adjudicate tid n db :
  coherent db ->
  wp false o (adjudicate_no_shows tid n) (fun _ db' => proceeds free tid db db') db.
Proof.
  intros Hdb. unfold adjudicate_no_shows.
  wp_step. apply wp_checkins_any. intros checked. wp_step. apply wp_round_any. intros ps Hps. wp_step.
  eapply wp_mono; [apply (wp_forfeit_absent tid); [done|]|].
  { intros p Hp. apply Hps, round_of_in in Hp. exists p. tauto. }
  intros failure db1 H1. cbn beta. destruct failure; [by wp_step|].
  eapply wp_mono; [apply wp_maybe_advance, H1|]. intros ? db2 H2. by eapply proceeds_trans.
Qed.

(** ** Registration *)

(** A tournament that takes registrations has no pairings yet. *)
Lemma registration_unpaired db tid :
  coherent db -> existsb (fun t => (t_id t =? tid) && String.eqb (t_status t) "registration") (tournaments db) = true ->
  pairings_of tid db = [].
Proof.
  intros Hdb H. apply existsb_exists in H as (t & Ht & E). bool_hyps. subst tid.
  apply (c_registration _ Hdb); [done|by apply String.eqb_eq].
Qed.

Lemma wp_add_participant tid p elo now db :
  coherent db ->
  wp false o (add_participant tid p elo now) (fun _ db' => proceeds free tid db db') db.
Proof.
  intros Hdb. unfold add_participant. cbv zeta. wp_step. apply wp_ran. intros a db1 Hran.
  assert (proceeds free tid db db1) as H1.
  { apply (ran_keeps _ _ _ _ _ Hran); [by apply proceeds_refl|]. intros now' d r H.
    unfold sql_add_participant in H. destruct (_ && _) eqn:E; [|injection H as <- _; by apply proceeds_refl].
    destruct (is_account db p); [|done]. injection H as <- _. apply andb_prop in E as [E _].
    apply others_proceed; try done. intros k Hk. unfold participants_of. cbn. rewrite filter_app. cbn.
    destruct (Z.eqb_spec tid k) as [<-|]; [|by rewrite app_nil_r]. exfalso. apply Hk.
    apply registration_unpaired; [done|]. apply existsb_exists in E as (t & Ht & E).
    apply existsb_exists. exists t. split; [done|]. repeat apply andb_prop in E as [E ?].
    by apply andb_true_iff. }
  destruct a as [e|[|n]]; [by wp_step| |by wp_step]. wp_step. wp_step; by wp_step.
Qed.

Lemma wp_remove_participant tid p now db :
  coherent db ->
  wp false o (remove_participant tid p now) (fun _ db' => proceeds free tid db db') db.
Proof.
  intros Hdb. unfold remove_participant. wp_step. apply wp_ran. intros a db1 Hran.
  assert (proceeds free tid db db1) as H1.
  { apply (ran_keeps _ _ _ _ _ Hran); [by apply proceeds_refl|]. intros now' d r [= <- _].
    apply others_proceed; try done. intros k Hk. f_equal. unfold participants_of. cbn.
    rewrite filter_filter. apply filter_ext_in. intros tp _.
    destruct (Z.eqb_spec (tp_tournament tp) k) as [Ek|]; [|done]. cbn.
    apply negb_true_iff, not_true_iff_false. intros E. apply Hk.
    apply andb_prop in E as [E1 E2]. apply andb_prop in E1 as [E1 _]. apply Z.eqb_eq in E1.
    rewrite <- Ek, E1.
    apply registration_unpaired; [done|]. apply existsb_exists in E2 as (t & Ht & E).
    apply existsb_exists. exists t. split; [done|]. repeat apply andb_prop in E as [E ?].
    by apply andb_true_iff. }
  destruct a as [e|[|n]]; [by wp_step| |by wp_step]. wp_step. wp_step; by wp_step.
Qed.

(** The rows that [set_registration_open] updates. *)
Lemma registration_hit tid (open : bool) now db t :
  (t_id t =? tid) && one_of (t_status t) ["registration"; "scheduled"] &&
  (negb open || ((now <? entry_closes t) && negb (existsb (fun p => pr_tournament p =? tid) (pairings db)))) = true ->
  t_id t = tid /\ status_rank (t_status t) = 0 /\ (open = true -> pairings_of tid db = []).
Proof.
  intros E. apply andb_prop in E as [E Eo]. apply andb_prop in E as [E Es]. apply Z.eqb_eq in E.
  split; [done|]. split.
  - unfold one_of in Es. cbn in Es. destruct (String.eqb_spec (t_status t) "registration") as [->|]; [done|].
    by destruct (String.eqb_spec (t_status t) "scheduled") as [->|].
  - intros ->. apply andb_prop in Eo as [_ Eo]. apply negb_true_iff, not_true_iff_false in Eo.
    destruct (pairings_of tid db) as [|p l] eqn:Ep; [done|]. exfalso. apply Eo.
    assert (In p (pairings_of tid db)) as Hp by (rewrite Ep; by left).
    apply pairings_of_in in Hp as [Hp Hpt]. apply existsb_exists. exists p. split; [done|]. by apply Z.eqb_eq.
Qed.

Lemma wp_set_registration_open tid open now db :
  coherent db ->
  wp false o (set_registration_open tid open now) (fun _ db' => proceeds free tid db db') db.
Proof.
  intros Hdb. unfold set_registration_open. wp_step. apply wp_ran. intros a db1 Hran. wp_step.
  apply (ran_keeps _ _ _ _ _ Hran); [by apply proceeds_refl|]. intros now' d r H.
  unfold sql_set_registration_open in H. statement H. apply tournaments_proceed; [done|by intros t; destruct open| |].
  - intros t Ht E. destruct (registration_hit _ _ _ _ _ E) as (H1 & -> & _). by destruct open.
  - intros t Ht E. destruct (registration_hit _ _ _ _ _ E) as (-> & _ & H1). destruct open; [|done]. auto.
Qed.

Lemma wp_join tid p elo db :
  coherent db -> wp false o (join tid p elo) (fun _ db' => proceeds free tid db db') db.
Proof.
  intros Hdb. pose proof (proceeds_refl free tid db Hdb). unfold join. wp_step.
  apply wp_find_tournament; [|by intros _; wp_step]. destruct (head _) as [t|]; [|by wp_step].
  destruct (_ || _); [by wp_step|]. wp_step. wp_step.
  destruct (_ <=? _); [by wp_step|]. wp_step. wp_step. by apply wp_add_participant.
Qed.

Lemma wp_leave tid p db :
  coherent db -> wp false o (leave tid p) (fun _ db' => proceeds free tid db db') db.
Proof.
  intros Hdb. pose proof (proceeds_refl free tid db Hdb). unfold leave. wp_step.
  apply wp_find_tournament; [|by intros _; wp_step]. destruct (head _) as [t|]; [|by wp_step].
  destruct (_ || _); [by wp_step|]. wp_step. wp_step.
  destruct (_ <=? _); [by wp_step|]. wp_step. wp_step. by apply wp_remove_participant.
Qed.

Lemma wp_apply_registration tid open db :
  coherent db -> wp false o (apply_registration tid open) (fun _ db' => proceeds free tid db db') db.
Proof.
  intros Hdb. unfold apply_registration. wp_step. wp_step. wp_step.
  eapply wp_mono; [by apply wp_set_registration_open|]. intros done db1 H1. cbn beta.
  destruct done; [by wp_step|]. unfold reopen_error. destruct open; [|by wp_step]. wp_step.
  apply wp_find_tournament; [by wp_step|by intros _; wp_step].
Qed.

Lemma wp_set_registration tid initiator open db :
  coherent db -> wp false o (set_registration tid initiator open) (fun _ db' => proceeds free tid db db') db.
Proof.
  intros Hdb. pose proof (proceeds_refl free tid db Hdb). unfold set_registration. wp_step.
  apply wp_find_tournament; [|by intros _; wp_step]. destruct (head _) as [t|]; [|by wp_step].
  destruct (negb (_ =? _)); [by wp_step|]. destruct (negb (one_of _ _)); [by wp_step|].
  destruct (negb open); [by apply wp_apply_registration|]. wp_step. wp_step.
  destruct (_ <=? _); [by wp_step|]. wp_step. wp_step. destruct (_ <=? _); [by wp_step|]. wp_step.
  apply wp_round_any. intros [|first l] _; [by apply wp_apply_registration|by wp_step].
Qed.

Lemma wp_start tid initiator db :
  coherent db -> wp false o (start tid initiator) (fun _ db' => proceeds free tid db db') db.
Proof.
  intros Hdb. pose proof (proceeds_refl free tid db Hdb). unfold start. wp_step.
  apply wp_find_tournament; [|by intros _; wp_step]. destruct (head _) as [t|]; [|by wp_step].
  destruct (negb (String.eqb _ _)); [by wp_step|]. destruct (negb (_ =? _)); [by wp_step|]. wp_step.
  apply wp_participants_any. intros l. destruct (_ <? _)%nat; [by wp_step|]. by apply wp_set_registration.
Qed.

Lemma wp_check_in tid n p db :
  coherent db -> wp false o (check_in tid n p) (fun _ db' => proceeds free tid db db') db.
Proof.
  intros Hdb. pose proof (proceeds_refl free tid db Hdb) as Hrefl.
  assert (wp false o (check_in_paired tid n p) (fun _ db' => proceeds free tid db db') db) as Hpaired.
  { unfold check_in_paired. wp_step. apply wp_round_any. intros l _.
    destruct (existsb _ l); [by wp_step|]. wp_step. wp_step. unfold check_in_player. wp_step.
    apply wp_ran. intros a db1 Hran.
    assert (proceeds free tid db db1) as H1.
    { apply (ran_keeps _ _ _ _ _ Hran); [done|]. intros now' d r H.
      unfold sql_check_in in H. destruct (_ && _); injection H as <- _; [|done].
      apply others_proceed; try done. intros c Hc. cbn. apply in_app_iff. by left. }
    destruct a as [e|[|k]]; [by wp_step| |by wp_step]. wp_step. wp_step; by wp_step. }
  unfold check_in. destruct (n <=? 0); [by wp_step|]. wp_step.
  apply wp_find_tournament; [|by intros _].
  destruct (_ && _); [|done]. wp_step. apply wp_round_any. intros l _.
  destruct (existsb _ l); [done|by wp_step].
Qed.

(** ** Results, by pairing *)

Lemma head_pairing id db p :
  coherent db -> head (List.filter (fun p => pr_id p =? id) (pairings db)) = Some p ->
  pr_id p = id /\ forall q, In q (pairings db) -> pr_id q = id -> pr_tournament q = pr_tournament p.
Proof.
  intros Hdb H. apply head_in, filter_In in H as [Hp E]. apply Z.eqb_eq in E. split; [done|].
  intros q Hq Hid. f_equal. apply (same_key pr_id (pairings db)); [by apply Hdb|done|done|congruence].
Qed.

Lemma record_and_advance id result source n db p :
  coherent db -> head (List.filter (fun p => pr_id p =? id) (pairings db)) = Some p ->
  result <> "pending" ->
  wp false o (set_pairing_result id result source) (fun done db1 => proceeds free (pr_tournament p) db db1 /\
    wp false o (maybe_advance_after_result (pr_tournament p) n)
      (fun _ db' => kept free db db') db1) db.
Proof.
  intros Hdb Hp Hr. destruct (head_pairing _ _ _ Hdb Hp) as [Hid Hown].
  eapply wp_mono; [by apply (wp_set_result (pr_tournament p))|]. intros done db1 H1. split; [done|].
  eapply wp_mono; [apply wp_maybe_advance, H1|]. intros ? db2 H2.
  by apply (kept_proceeds free (pr_tournament p)), (proceeds_trans _ _ _ db1).
Qed.

Lemma game_result_decided r : one_of r game_results = true -> r <> "pending".
Proof. intros H ->. discriminate H. Qed.

Lemma wp_report_result id result db :
  coherent db -> wp false o (report_result id result) (fun _ db' => kept free db db') db.
Proof.
  intros Hdb. pose proof (kept_refl free db Hdb). unfold report_result. wp_step. wp_step; cbn [rows_of]; [|by wp_step].
  destruct (List.filter _ _) as [|p l] eqn:Ep; [by wp_step|].
  assert (head (List.filter (fun p => pr_id p =? id) (pairings db)) = Some p) as Hp by by rewrite Ep.
  destruct (head_pairing _ _ _ Hdb Hp) as [Hid _].
  destruct (negb (is_pending p)); [by wp_step|]. cbv zeta.
  destruct (negb (one_of result game_results) && negb (String.eqb result "bye")) eqn:E; [by wp_step|].
  destruct (negb (Bool.eqb _ _)); [by wp_step|]. rewrite Hid. wp_step.
  eapply wp_mono; [apply (record_and_advance id result "manual" (pr_round p) db p)|]; [done|done| |].
  - intros ->. discriminate E.
  - intros done db1 [H1 H2]. cbn beta. destruct done; [done|]. wp_step. by eapply kept_proceeds.
Qed.

Lemma wp_record_game_result id result db :
  coherent db -> wp false o (record_game_result id result) (fun _ db' => kept free db db') db.
Proof.
  intros Hdb. pose proof (kept_refl free db Hdb). unfold record_game_result.
  destruct (negb (one_of _ _)) eqn:E; [by wp_step|]. bool_hyps. wp_step.
  apply wp_find_pairing; [|by intros _; wp_step]. destruct (head _) as [p|] eqn:Hp; [|by wp_step].
  destruct (negb (is_pending p)); [by wp_step|]. wp_step.
  eapply wp_mono; [apply (record_and_advance id result "game" (pr_round p) db p)|];
    [done|done|by apply game_result_decided|].
  intros done db1 [H1 H2]. cbn beta. destruct done; [done|].
  pose proof (kept_proceeds _ _ _ _ H1). wp_step.
  apply wp_find_pairing; [by wp_step|by intros _; wp_step].
Qed.

Lemma wp_override_result id initiator result reason db :
  coherent db -> free id ->
  wp false o (override_result id initiator result reason) (fun _ db' => kept free db db') db.
Proof.
  intros Hdb Hfree. pose proof (kept_refl free db Hdb). unfold override_result.
  destruct (String.eqb reason ""); [by wp_step|].
  destruct (negb (one_of result game_results) && negb (String.eqb result "double_forfeit")) eqn:E; [by wp_step|].
  wp_step. wp_step; cbn [rows_of]; [|by wp_step].
  destruct (pairing_owner id db) as [|[[tid n] creator] l] eqn:Ep; [by wp_step|].
  assert (forall q, In q (pairings db) -> pr_id q = id -> pr_tournament q = tid) as Hown.
  { assert (In (tid, n, creator) (pairing_owner id db)) as Hin by (rewrite Ep; by left).
    apply in_flat_map in Hin as (p & Hp & Hin). apply in_map_iff in Hin as (t & [= <- _ _] & _).
    apply filter_In in Hp as [Hp Hid]. apply Z.eqb_eq in Hid. intros q Hq Hq'. f_equal.
    apply (same_key pr_id (pairings db)); [by apply Hdb|done|done|congruence]. }
  destruct (negb (_ =? _)); [by wp_step|]. wp_step.
  assert (wp false o (done ← audit_and_override_result id initiator result reason;
            if done : bool then maybe_advance_after_result tid n else mret (Failed "override_failed"))
            (fun _ db' => kept free db db') db) as Hrest.
  { wp_step. eapply wp_mono; [apply (wp_override id initiator tid); [done|done| |done]|].
    - intros ->. discriminate E.
    - intros done db1 H1. cbn beta. destruct done; [|wp_step; by eapply kept_proceeds].
      eapply wp_mono; [apply wp_maybe_advance, H1|]. intros ? db2 H2.
      eapply kept_proceeds. by eapply proceeds_trans. }
  apply wp_find_tournament; [|by intros _].
  destruct (head _) as [t|]; [|done]. cbn beta iota. destruct (is_elimination t && _); [by wp_step|done].
Qed.

(** ** The rooms of the games *)

Lemma game_kept hit f db :
  coherent db -> (forall p, meeting (f p) = meeting p) -> (forall p, pr_result (f p) = pr_result p) ->
  (forall p, pr_source (f p) = pr_source p) -> (forall p q, hit p = true -> hit q = true -> pr_id p = pr_id q) ->
  kept free db (with_pairings (update hit f (pairings db)) db).
Proof.
  intros Hdb Hm Hr Hs Hone.
  assert (forall p, hit p = true -> In p (pairings db) ->
    kept free db (with_pairings (update hit f (pairings db)) db)) as Hhit.
  { intros p Hp Hin. apply (kept_proceeds free (pr_tournament p)).
    apply pairings_proceed; [done|done| | |].
    - intros q Hq E. f_equal. apply (same_key pr_id (pairings db)); [by apply Hdb|done|done|by apply Hone].
    - intros q _. unfold is_pending. rewrite Hr. by auto.
    - apply forallb_forall. intros q Hq. apply in_map_iff in Hq as (q0 & <- & Hq0).
      apply filter_In in Hq0 as [Hq0 _]. pose proof (c_shape _ Hdb q0 Hq0) as Hok. pose proof (Hm q0) as E.
      injection E as _ _ E1 _ E2. unfold pairing_ok in *. by rewrite Hr, Hs, E1, E2. }
  destruct (List.filter hit (pairings db)) as [|p l] eqn:E.
  - assert (update hit f (pairings db) = pairings db) as ->.
    { unfold update. rewrite <- (map_id (pairings db)) at 2. apply map_ext_in. intros p Hp.
      destruct (hit p) eqn:Ep; [|done]. assert (In p (List.filter hit (pairings db))) as H by by apply filter_In.
      by rewrite E in H. }
    by destruct db; apply kept_refl.
  - assert (In p (List.filter hit (pairings db))) as H by (rewrite E; by left).
    apply filter_In in H as [H1 H2]. by apply (Hhit p).
Qed.

Lemma wp_set_game id game db :
  coherent db -> wp false o (set_pairing_game_id id game) (fun _ db' => kept free db db') db.
Proof.
  intros Hdb. unfold set_pairing_game_id. wp_step. apply wp_ran. intros a db1 Hran. wp_step.
  apply (ran_keeps _ _ _ _ _ Hran); [by apply kept_refl|]. intros now d r H.
  unfold sql_set_game in H. statement H. apply game_kept; try done.
  intros p q Hp Hq. bool_hyps. congruence.
Qed.

Lemma wp_set_replay id game db :
  coherent db -> wp false o (set_pairing_replay_game_id id game) (fun _ db' => kept free db db') db.
Proof.
  intros Hdb. unfold set_pairing_replay_game_id. destruct (game <=? 0); [wp_step; by apply kept_refl|].
  wp_step. apply wp_ran. intros a db1 Hran. wp_step.
  apply (ran_keeps _ _ _ _ _ Hran); [by apply kept_refl|]. intros now d r H.
  unfold sql_set_replay in H. statement H. apply game_kept; try done.
  intros p q Hp Hq. bool_hyps. congruence.
Qed.
End steps.

(** ** Creating a tournament *)

Section top.
Context (free : Z -> Prop).

Lemma create_statement_kept name total initial increment creator deadline first duration format now db db' id :
  coherent db ->
  sql_create_tournament name total initial increment creator deadline first duration format now db =
    Some (db', id) ->
  kept free db db'.
Proof.
  intros Hdb H. unfold sql_create_tournament in H. statement H. apply new_tournament_kept; [done|done| |].
  - intros r Hr. apply in_map_iff in Hr as (n & <- & Hn). apply in_seq in Hn. cbn. split; [done|]. split; [done|lia].
  - rewrite map_map. apply Finite.Injective_map_NoDup; [|apply seq_NoDup].
    intros m n E. injection E. lia.
Qed.

Lemma wp_create_tournament normal name total initial increment creator deadline first duration format db :
  coherent db ->
  wp false None (create_tournament normal name total initial increment creator deadline first duration format)
    (fun _ db' => kept free db db') db.
Proof.
  intros Hdb. pose proof (kept_refl free db Hdb). unfold create_tournament.
  destruct (negb _); [by wp_step|]. cbv zeta.
  destruct (_ <=? 0); [by wp_step|]. destruct (initial <=? 0); [by wp_step|].
  destruct (increment <? 0); [by wp_step|]. destruct (_ <? _); [by wp_step|]. destruct (_ <? _); [by wp_step|].
  apply wp_begin; [by intros _ e; wp_step|]. cbn beta iota.
  assert (forall error db1, wp_tx false db (_ ← rollback_transaction (T := Tables); mret (NotCreated error))
            (fun _ db' => kept free db db') db1) as Habandon
    by (intros error db1; by apply wp_tx_rollback, wp_ret).
  apply wp_tx_bind, wp_select; [|intros _ e; apply Habandon].
  apply wp_tx_bind, wp_select; [|intros _ e; apply Habandon].
  destruct (List.filter _ _); [|apply Habandon].
  apply wp_tx_bind, wp_ran. intros a db1 Hran.
  assert (kept free db db1) as H1.
  { apply (ran_keeps _ _ _ _ _ Hran); [done|]. intros now d id Hs. by eapply create_statement_kept. }
  destruct a as [e|id]; [apply Habandon|]. apply wp_tx_commit; [by wp_step|]. intros _.
  split; [by wp_step|]. split; by wp_step.
Qed.

Lemma NoDup_map_filter {A K} (key : A -> K) f l :
  List.NoDup (map key l) -> List.NoDup (map key (List.filter f l)).
Proof.
  induction l as [|x l IH]; cbn; [done|]. rewrite NoDup_cons_iff. intros [Hx Hl].
  destruct (f x); [|by apply IH]. cbn. constructor; [|by apply IH].
  rewrite in_map_iff. intros (y & E & Hy). apply Hx. apply filter_In in Hy as [Hy _].
  rewrite <- E. by apply in_map.
Qed.

(** ** Preparing the first round *)

Lemma wp_prepare_pairings o tid db :
  coherent db -> pairable tid db 1 ->
  wp false o (prepare_pairings tid) (fun _ db' => proceeds free tid db db') db.
Proof.
  intros Hdb Hp. pose proof (proceeds_refl free tid db Hdb). unfold prepare_pairings. wp_step.
  apply wp_round_any. intros [|q l] _; [|by wp_step]. wp_step.
  apply wp_participants_any. intros ps. destruct (_ <=? _)%nat; [|by wp_step]. wp_step.
  eapply wp_mono; [by apply (wp_generate o free)|]. intros g db1 H1. by wp_step.
Qed.

Lemma wp_prepare_first_round tid db :
  coherent db -> pairable tid db 1 ->
  wp false None (prepare_first_round tid) (fun _ db' => proceeds free tid db db') db.
Proof.
  intros Hdb Hp. pose proof (proceeds_refl free tid db Hdb) as H0. unfold prepare_first_round.
  apply wp_begin; [by intros _ e; wp_step|]. cbn beta iota.
  assert (forall error db1, wp_tx false db (_ ← rollback_transaction (T := Tables); mret (Failed error))
            (fun _ db' => proceeds free tid db db') db1) as Habandon
    by (intros error db1; by apply wp_tx_rollback, wp_ret).
  apply wp_tx_bind, wp_select; [|intros _ e; apply Habandon].
  apply wp_tx_bind. eapply wp_mono; [by apply wp_prepare_pairings|]. intros failure db1 H1. cbn beta.
  destruct failure; [apply Habandon|]. apply wp_tx_commit; [by wp_step|]. intros _.
  split; [by wp_step|]. split; by wp_step.
Qed.

(** ** The maintenance tick *)

Lemma wp_each {A} calm o (I : list A -> Tables -> Prop) (body : A -> IO Tables ManagerResult) l db :
  (forall a l db, I (a :: l) db -> wp calm o (body a) (fun _ db' => I l db') db) ->
  I l db -> wp calm o (each body l) (fun _ db' => exists l', I l' db') db.
Proof.
  intros Hbody. revert db. induction l as [|a l IH]; intros db Hl; cbn [each].
  - wp_step. by exists [].
  - wp_step. eapply wp_mono; [by apply Hbody|]. intros r db1 H1. cbn beta.
    destruct r; [by apply IH|]. wp_step. by exists l.
Qed.

Lemma pairable_local tid tid' n db db' :
  proceeds free tid db db' -> tid' <> tid -> pairable tid' db n -> pairable tid' db' n.
Proof.
  intros [_ _ Hl] Hne (H1 & H2 & H3). destruct (Hl tid' Hne) as (Et & Er & _).
  assert (forall t, t_id t = tid' -> In t (tournaments db') <-> In t (tournaments db)) as Ht.
  { intros t Hid. pose proof (filter_In (fun t => t_id t =? tid') t (tournaments db')) as E.
    unfold tournaments_of in Et. rewrite Et, filter_In, Z.eqb_eq in E. tauto. }
  assert (forall r k, round_key r = (tid', k) -> In r (rounds db') <-> In r (rounds db)) as Hr.
  { intros r k Hk. injection Hk as Hk _. unfold rounds_of in Er.
    pose proof (filter_In (fun r => tr_tournament r =? tid') r (rounds db')) as E.
    rewrite Er, filter_In, Z.eqb_eq in E. tauto. }
  split; [|split].
  - destruct H1 as (r & Hin & Hk & Hs). exists r. split; [by eapply Hr|done].
  - intros r Hin Hk. apply H2; [by eapply Hr|done].
  - intros t Hin Hid. apply H3; [by apply Ht|done].
Qed.

Lemma NoDup_flat_map_key {A} (key : A -> Z) (f : A -> list Z) l :
  List.NoDup (map key l) -> (forall a, In a l -> f a = [] \/ f a = [key a]) ->
  List.NoDup (flat_map f l).
Proof.
  induction l as [|a l IH]; cbn; [constructor|]. rewrite NoDup_cons_iff. intros [Ha Hl] Hf.
  specialize (IH Hl ltac:(auto)). destruct (Hf a (or_introl eq_refl)) as [->| ->]; [done|].
  constructor; [|done]. rewrite in_flat_map. intros (b & Hb & Hin). apply Ha.
  destruct (Hf b (or_intror Hb)) as [E|E]; rewrite E in Hin; [done|].
  destruct Hin as [<-|[]]. by apply in_map.
Qed.

(** The rounds prepared ahead are first rounds that may be paired, one per tournament. *)
Lemma to_prepare_pairable now db :
  coherent db -> List.NoDup (to_prepare now db) /\ forall tid, In tid (to_prepare now db) -> pairable tid db 1.
Proof.
  intros Hdb. split.
  - unfold to_prepare. apply (NoDup_flat_map_key t_id); [by apply Hdb|]. intros t _.
    match goal with |- context [List.filter ?f ?l] => set (rows := List.filter f l); assert
      (List.NoDup (map round_key rows) /\ forall r, In r rows -> round_key r = (t_id t, 1)) as [Hnd Hk] end.
    { split; [by apply NoDup_map_filter, Hdb|]. intros r Hr. apply filter_In in Hr as [_ E].
      repeat apply andb_prop in E as [E ?]. unfold round_key. bool_hyps. congruence. }
    destruct rows as [|r [|r' rows]]; [by left|by right|]. exfalso.
    inversion_clear Hnd as [|? ? Hnot _]. apply Hnot. left.
    rewrite (Hk r), (Hk r'); [done|right; by left|by left].
  - intros tid H. unfold to_prepare in H. apply in_flat_map in H as (t & Ht & H).
    apply in_map_iff in H as (r & <- & Hr). apply filter_In in Hr as [Hr E].
    repeat apply andb_prop in E as [E ?]. bool_hyps. apply String.eqb_eq in H1, H2.
    assert (round_key r = (t_id t, 1)) as Hk by (unfold round_key; congruence). split; [|split].
    + exists r. split; [done|]. split; [done|by left].
    + intros r' Hr' Hk'. assert (r' = r) as ->; [|congruence].
      apply (same_key round_key (rounds db)); [by apply Hdb|done|done|congruence].
    + intros t' Ht' Hid. assert (t' = t) as ->; [|congruence].
      by apply (same_key t_id (tournaments db)); [apply Hdb|..].
Qed.

(** All rounds before one that is over are over. *)
Lemma over_before db tid m n :
  coherent db -> round_in db tid m (eq "completed") -> 0 < n <= m -> round_in db tid n (eq "completed").
Proof.
  intros Hdb Hm Hn. replace n with (m - Z.of_nat (Z.to_nat (m - n))) by lia.
  assert (Z.of_nat (Z.to_nat (m - n)) < m) as Hk by lia. revert Hk.
  induction (Z.to_nat (m - n)) as [|k IH]; intros Hk; [by rewrite Z.sub_0_r|].
  destruct IH as (r & Hr & Hkey & Hs); [lia|]. injection Hkey as H1 H2.
  replace (m - Z.of_nat (S k)) with (tr_round r - 1) by lia. rewrite <- H1.
  apply (c_order _ Hdb); [done|congruence|lia].
Qed.

(** Every tournament has at most one round due. *)
Lemma due_once now db : coherent db -> List.NoDup (map fst (due_rounds now db)).
Proof.
  intros Hdb. unfold due_rounds. rewrite map_map. cbn.
  match goal with |- context [isort due_before ?l] => set (rows := l) end.
  apply (Permutation_NoDup (l := map tr_tournament rows)).
  { apply Permutation_map. symmetry. apply isort_perm. }
  assert (forall r r', In r rows -> In r' rows -> tr_tournament r = tr_tournament r' -> tr_round r' <= tr_round r) as Hle.
  { intros r r' Hr Hr' Et. destruct (Z.le_gt_cases (tr_round r') (tr_round r)) as [|Hlt]; [done|exfalso].
    apply filter_In in Hr as [Hr E], Hr' as [Hr' E']. apply andb_prop in E as [E _], E' as [E' _].
    apply startable_spec in E as (_ & _ & Hs & _), E' as (_ & _ & _ & Hprev).
    pose proof (c_positive _ Hdb r Hr).
    destruct (over_before db (tr_tournament r') (tr_round r' - 1) (tr_round r) Hdb) as (q & Hq & Hk & Hq');
      [apply Hprev; lia|lia|].
    assert (q = r) as ->; [|congruence].
    apply (same_key round_key (rounds db)); [by apply Hdb|done|done|]. unfold round_key in *. congruence. }
  assert (List.NoDup (map round_key rows)) as Hnd by by apply NoDup_map_filter, Hdb.
  clearbody rows. induction rows as [|r rows IH]; cbn; [constructor|].
  cbn in Hnd. apply NoDup_cons_iff in Hnd as [Hr Hnd]. constructor.
  - rewrite in_map_iff. intros (r' & E & Hr'). apply Hr.
    assert (tr_round r' = tr_round r) as Er.
    { apply Z.le_antisymm; apply Hle; first [by left|by right|done|by symmetry]. }
    apply in_map_iff. exists r'. split; [|done]. unfold round_key. congruence.
  - apply IH; [|done]. intros r1 r2 H1 H2. apply Hle; by right.
Qed.

(** A tournament with a round due is not over. *)
Lemma due_open now db tid n :
  coherent db -> In (tid, n) (due_rounds now db) ->
  forall t, In t (tournaments db) -> t_id t = tid -> t_status t <> "completed".
Proof.
  intros Hdb H t Ht Hid. unfold due_rounds in H. apply in_map_iff in H as (r & [= H1 H2] & Hr).
  apply (Permutation_in _ (isort_perm _ _)), filter_In in Hr as [_ E]. apply andb_prop in E as [_ E].
  apply existsb_exists in E as (t' & Ht' & E). apply andb_prop in E as [E1 E2]. apply Z.eqb_eq in E1.
  assert (t' = t) as ->. { by apply (same_key t_id (tournaments db)); [apply Hdb|..|congruence]. }
  intros Hs. by rewrite Hs in E2.
Qed.

Lemma open_local tid tid' db db' :
  proceeds free tid db db' -> tid' <> tid ->
  (forall t, In t (tournaments db) -> t_id t = tid' -> t_status t <> "completed") ->
  forall t, In t (tournaments db') -> t_id t = tid' -> t_status t <> "completed".
Proof.
  intros [_ _ Hl] Hne H t Ht Hid. destruct (Hl tid' Hne) as (Et & _).
  apply H; [|done]. unfold tournaments_of in Et.
  pose proof (filter_In (fun t => t_id t =? tid') t (tournaments db)) as E.
  rewrite <- Et, filter_In, Z.eqb_eq in E. tauto.
Qed.

Section tick.
Context (arrange : forall A, list A -> list A).
Context (arrange_perm : forall A (l : list A), Permutation (arrange A l) l).

Lemma wp_prepare_loop l db :
  coherent db -> List.NoDup l -> (forall tid, In tid l -> pairable tid db 1) ->
  wp false None (each prepare_first_round l) (fun _ db' => kept free db db') db.
Proof.
  intros Hdb Hnd Hp.
  eapply wp_mono; [apply (wp_each false None (fun l db1 => kept free db db1 /\ List.NoDup l /\
    forall tid, In tid l -> pairable tid db1 1))|].
  - clear l Hnd Hp. intros tid l db1 (H1 & Hnd & Hp). apply NoDup_cons_iff in Hnd as [Hnot Hnd].
    eapply wp_mono; [apply wp_prepare_first_round; [apply H1|apply Hp; by left]|].
    intros r db2 H2. split; [|split; [done|]].
    + eapply kept_trans; [apply H1|by apply (kept_proceeds free tid)].
    + intros tid' Hin. apply (pairable_local tid _ _ db1); [done| |apply Hp; by right]. by intros ->.
  - split; [by apply kept_refl|done].
  - by intros r db' (l' & H & _).
Qed.

Lemma wp_due_loop now l db :
  coherent db -> List.NoDup (map fst l) ->
  (forall tid n, In (tid, n) l -> forall t, In t (tournaments db) -> t_id t = tid -> t_status t <> "completed") ->
  wp false None (each (fun '(tid, n) => start_due_round tid n now) l) (fun _ db' => kept free db db') db.
Proof.
  intros Hdb Hnd Hp.
  eapply wp_mono; [apply (wp_each false None (fun l db1 => kept free db db1 /\ List.NoDup (map fst l) /\
    forall tid n, In (tid, n) l -> forall t, In t (tournaments db1) -> t_id t = tid -> t_status t <> "completed"))|].
  - clear l Hnd Hp. intros [tid n] l db1 (H1 & Hnd & Hp). cbn in Hnd. apply NoDup_cons_iff in Hnd as [Hnot Hnd].
    eapply wp_mono; [apply (wp_start_due_round None free); [apply H1|apply (Hp tid n); by left]|].
    intros r db2 H2. split; [|split; [done|]].
    + eapply kept_trans; [apply H1|by apply (kept_proceeds free tid)].
    + intros tid' n' Hin. apply (open_local tid _ db1); [done| |apply (Hp tid' n'); by right].
      intros ->. apply Hnot. by apply (in_map fst) in Hin.
  - split; [by apply kept_refl|done].
  - by intros r db' (l' & H & _).
Qed.

Lemma wp_expired_loop l db :
  coherent db ->
  wp false None (each (fun '(tid, n) => adjudicate_no_shows tid n) l) (fun _ db' => kept free db db') db.
Proof.
  intros Hdb. eapply wp_mono; [apply (wp_each false None (fun _ db1 => kept free db db1))|].
  - intros [tid n] l' db1 H1. eapply wp_mono; [apply (wp_adjudicate None free), H1|]. intros r db2 H2.
    eapply kept_trans; [apply H1|by apply (kept_proceeds free tid)].
  - by apply kept_refl.
  - by intros r db' (l' & H).
Qed.

Lemma wp_run_query {A} (query : Tables -> list A) body next db db0 :
  kept free db0 db ->
  (forall l db, l = query db -> coherent db -> wp false None (each body l) (fun _ db' => kept free db db') db) ->
  (forall db1, kept free db0 db1 -> wp false None next (fun _ db' => kept free db0 db') db1) ->
  wp false None (run_query query body next) (fun _ db' => kept free db0 db') db.
Proof.
  intros H0 Hbody Hnext. unfold run_query. apply wp_bind, wp_select; [|by intros _ e; wp_step].
  wp_step. eapply wp_mono; [by apply Hbody; [|apply H0]|]. intros r db1 H1. cbn beta.
  pose proof (kept_trans _ _ _ _ H0 H1). destruct r; [by apply Hnext|by wp_step].
Qed.

(** The tournaments whose registration closes may be several. *)
Lemma close_kept now now' db db' r :
  coherent db -> sql_close_registrations now now' db = Some (db', r) -> kept free db db'.
Proof.
  intros Hdb H. unfold sql_close_registrations in H. statement H.
  apply tournaments_kept; [done|done| |done]. intros t Ht E. bool_hyps.
  apply String.eqb_eq in H. by rewrite H.
Qed.

Lemma wp_maintenance_tick db :
  coherent db -> wp false None (maintenance_tick arrange) (fun _ db' => kept free db db') db.
Proof.
  intros Hdb. unfold maintenance_tick. wp_step. wp_step. wp_step. apply wp_ran. intros a db1 Hran.
  assert (kept free db db1) as H1.
  { apply (ran_keeps _ _ _ _ _ Hran); [by apply kept_refl|]. intros now' d r. by apply close_kept. }
  destruct a as [e|n]; [by wp_step|].
  apply wp_run_query; [done| |].
  { intros l d -> Hd. destruct (to_prepare_pairable now d Hd) as [Hnd Hp].
    apply wp_prepare_loop; [done|by rewrite arrange_perm|].
    intros tid. by rewrite (perm_in_iff (arrange_perm _ _)); apply Hp. }
  intros db2 H2. apply wp_run_query; [done| |].
  { intros l d -> Hd. apply wp_due_loop; [done|by apply due_once|]. intros tid k. by apply due_open. }
  intros db3 H3. apply wp_run_query; [done|intros l d _ Hd; by apply wp_expired_loop|].
  intros db4 H4. by wp_step.
Qed.
End tick.
End top.

(** ** Histories

    A tournament lives through the requests of players and creators, the results of its
    games and the ticks of the scheduler, each in an environment of its own. *)
Inductive request :=
  | Create (name : string) (total initial increment creator deadline first duration : Z) (format : string)
  | Join (tid p elo : Z) | Leave (tid p : Z) | Start (tid initiator : Z)
  | SetRegistration (tid initiator : Z) (open : bool) | CheckInPlayer (tid n p : Z)
  | Report (id : Z) (result : string) | RecordGame (id : Z) (result : string)
  | OverrideResult (id initiator : Z) (result reason : string)
  | BindRoom (id game : Z) | BindReplay (id game : Z) | Tick.

Section history.
Context (normal : string -> string) (arrange : forall A, list A -> list A).

Definition perform (r : request) : IO Tables unit :=
  match r with
  | Create name total initial increment creator deadline first duration format =>
      _ ← create_tournament normal name total initial increment creator deadline first duration format; mret tt
  | Join tid p elo => _ ← join tid p elo; mret tt
  | Leave tid p => _ ← leave tid p; mret tt
  | Start tid initiator => _ ← start tid initiator; mret tt
  | SetRegistration tid initiator open => _ ← set_registration tid initiator open; mret tt
  | CheckInPlayer tid n p => _ ← check_in tid n p; mret tt
  | Report id result => _ ← report_result id result; mret tt
  | RecordGame id result => _ ← record_game_result id result; mret tt
  | OverrideResult id initiator result reason => _ ← override_result id initiator result reason; mret tt
  | BindRoom id game => _ ← set_pairing_game_id id game; mret tt
  | BindReplay id game => _ ← set_pairing_replay_game_id id game; mret tt
  | Tick => _ ← maintenance_tick arrange; mret tt
  end.

(** A session in which nothing has happened yet. *)
Definition session (db : Tables) : Session Tables := mkSession db None false 0 0.

Definition run_request (db : Tables) (er : Environment * request) : Tables :=
  tables (snd (perform (snd er) (fst er) (session db))).
Definition run_requests (history : list (Environment * request)) (db : Tables) : Tables :=
  fold_left run_request history db.

(** The pairings whose result someone overrode. *)
Definition overridden (history : list (Environment * request)) (id : Z) : Prop :=
  exists er, In er history /\ match snd er with OverrideResult id' _ _ _ => id' = id | _ => False end.

(** No tournament yet. *)
Definition empty_tables (people : list (Z * string)) (past : list Z) (n m : Z) : Tables :=
  mkTables people past [] [] [] [] [] [] n m.

Lemma empty_coherent people past n m : coherent (empty_tables people past n m).
Proof. by constructor; cbn; try constructor. Qed.

Context (arrange_perm : forall A (l : list A), Permutation (arrange A l) l).

Lemma wp_perform free r db :
  coherent db -> (forall id, match r with OverrideResult id' _ _ _ => id' = id | _ => False end -> free id) ->
  wp false None (perform r) (fun _ db' => kept free db db') db.
Proof.
  intros Hdb Hfree.
  assert (forall A (m : IO Tables A), wp false None m (fun _ db' => kept free db db') db ->
    wp false None (_ ← m; mret tt) (fun _ db' => kept free db db') db) as Hend.
  { intros A m H. wp_step. eapply wp_mono; [apply H|]. intros a db' H'. by wp_step. }
  assert (forall A tid (m : IO Tables A), wp false None m (fun _ db' => proceeds free tid db db') db ->
    wp false None (_ ← m; mret tt) (fun _ db' => kept free db db') db) as Hlocal.
  { intros A tid m H. apply Hend. eapply wp_mono; [apply H|]. intros a db'. by apply kept_proceeds. }
  destruct r; cbn [perform]; first [apply (Hlocal _ tid)|apply Hend].
  - by apply wp_create_tournament.
  - by apply wp_join.
  - by apply wp_leave.
  - by apply wp_start.
  - by apply wp_set_registration.
  - by apply wp_check_in.
  - by apply wp_report_result.
  - by apply wp_record_game_result.
  - apply wp_override_result; [done|by apply Hfree].
  - by apply wp_set_game.
  - by apply wp_set_replay.
  - by apply wp_maintenance_tick.
Qed.

Lemma run_requests_kept free history db :
  coherent db -> (forall id, overridden history id -> free id) ->
  kept free db (run_requests history db).
Proof.
  revert db. induction history as [|[env r] history IH]; intros db Hdb Hfree; [by apply kept_refl|].
  assert (kept free db (run_request db (env, r))) as H1.
  { pose proof (wp_perform free r db Hdb) as H. unfold run_request. cbn [fst snd].
    specialize (H ltac:(intros id Hid; apply Hfree; exists (env, r); split; [by left|done])
                  env (session db) eq_refl eq_refl ltac:(done)).
    destruct (perform r env (session db)) as [a w']. apply H. }
  eapply kept_trans; [apply H1|]. apply IH; [apply H1|].
  intros id (er & Hin & He). apply Hfree. exists er. split; [by right|done].
Qed.
End history.
