(* ===== verification/TournamentBalance.v ===== *)
(** * Tournaments without failures

    When no statement fails, more holds after every request than [coherent]: [settled].
    The totals of the players are those of the recorded results, nobody sits twice in a
    round, and a round whose results are all in is over and followed by another, unless
    the tournament is over. *)
From stdpp Require Import strings gmap.
From S2P Require Import Prelude Swiss SwissSpec Storage StorageSpec TournamentRepo TournamentManager TournamentSpec TournamentSteps.
Open Scope string_scope.
Open Scope list_scope.
Open Scope Z_scope.

(** ** The invariant *)

Definition sitters (p : StoredPairing) : list Z :=
  pr_white p :: match pr_black p with Some b => [b] | None => [] end.

Definition any (_ : string) : Prop := True.

Record fair (db : Tables) : Prop := {
  f_tournament : forall t, In t (tournaments db) -> tournament_ok t = true;
  f_players : List.NoDup (map (fun tp => (tp_tournament tp, tp_player tp)) (players db));
  f_owner : forall tp, In tp (players db) -> is_account db (tp_player tp) = true;
  f_seated : forall p q, In p (pairings db) -> In q (sitters p) ->
    exists tp, In tp (players db) /\ tp_tournament tp = pr_tournament p /\ tp_player tp = q;
  f_once : forall tid n, List.NoDup (flat_map sitters (round_of tid n db));
  f_rounds : forall r t, In r (rounds db) -> In t (tournaments db) -> t_id t = tr_tournament r ->
    tr_round r <= t_rounds t;
  f_swiss : forall t n, In t (tournaments db) -> is_elimination t = false -> 0 < n <= t_rounds t ->
    round_in db (t_id t) n any
}.

(** The totals of every player are those of the results. *)
Definition totalled (db : Tables) : Prop :=
  forall tp, In tp (players db) -> totals pr_result (pairings db) tp = tp.

(** After round [n] there is another one, or nothing more to play. *)
Definition onward (db : Tables) (tid n : Z) : Prop :=
  (exists t, In t (tournaments db) /\ t_id t = tid /\ t_status t = "completed") \/
  round_in db tid (n + 1) any.

(** A round whose results are all in is over, with [except] as the exceptions. *)
Definition flows (except : Z -> Z -> Prop) (db : Tables) : Prop :=
  forall tid n, ~ except tid n -> decided (round_of tid n db) ->
    round_in db tid n (eq "completed") /\ onward db tid n.

Definition nowhere (_ _ : Z) : Prop := False.
Definition only (tid n : Z) (tid' n' : Z) : Prop := tid' = tid /\ n' = n.

Record settled (db : Tables) : Prop := {
  s_coherent : coherent db; s_fair : fair db; s_totals : totalled db; s_flows : flows nowhere db
}.

(** ** Statements that do not fail *)

Section calm.
Context {T : Type} (o : option T).

Lemma wp_both {A} (m : IO T A) P Q db :
  wp false o m P db -> wp true o m Q db -> wp true o m (fun a db' => P a db' /\ Q a db') db.
Proof.
  intros H1 H2 env w Hdb Ho Hc. specialize (H1 env w Hdb Ho ltac:(done)). specialize (H2 env w Hdb Ho Hc).
  destruct (m env w) as [a w']. destruct H1 as (? & _ & _), H2 as (? & ? & ?). done.
Qed.

Lemma wp_done {R} (statement : Z -> T -> option (T * R)) Q db :
  (forall now, exists db' r, statement now db = Some (db', r) /\ Q (inr r) db') ->
  wp true o (exec statement) Q db.
Proof.
  intros H. apply wp_exec; [done| |]; intros now; destruct (H now) as (db1 & r1 & E & HQ); [congruence|].
  intros db' r E'. split; [congruence|done].
Qed.
End calm.

(** Outside a transaction a violated constraint is an error like another. *)
Lemma wp_tried {T R} (statement : Z -> T -> option (T * R)) Q (db : T) :
  (forall e, Q (inl e) db) -> (forall now db' r, statement now db = Some (db', r) -> Q (inr r) db') ->
  wp true None (exec statement) Q db.
Proof. intros H1 H2. apply wp_exec; [done|done|]. intros now db' r E. split; [by eapply H2|done]. Qed.

(** ** Changes and the invariant *)

Lemma round_in_weaken db tid n (P Q : string -> Prop) :
  (forall s, P s -> Q s) -> round_in db tid n P -> round_in db tid n Q.
Proof. intros H (r & Hr & Hk & HP). exists r. auto. Qed.

Lemma round_rank_completed s : 2 <= round_rank s -> s = "completed".
Proof.
  unfold round_rank. destruct (String.eqb_spec s "completed"); [done|]. destruct (String.eqb _ _); lia.
Qed.
Lemma status_rank_completed s : 2 <= status_rank s -> s = "completed".
Proof.
  unfold status_rank. destruct (String.eqb_spec s "completed"); [done|]. destruct (String.eqb _ _); lia.
Qed.

Lemma evolves_completed free db db' tid n :
  evolves free db db' -> round_in db tid n (eq "completed") -> round_in db' tid n (eq "completed").
Proof.
  intros He (r & Hr & Hk & Hs). destruct (ev_rounds _ _ _ He r Hr) as (r' & Hr' & Hk' & Hrank).
  exists r'. split; [done|]. split; [congruence|]. symmetry. apply round_rank_completed.
  rewrite <- Hs in Hrank. exact Hrank.
Qed.

Lemma evolves_any free db db' tid n :
  evolves free db db' -> round_in db tid n any -> round_in db' tid n any.
Proof.
  intros He (r & Hr & Hk & _). destruct (ev_rounds _ _ _ He r Hr) as (r' & Hr' & Hk' & _).
  exists r'. split; [done|]. split; [congruence|done].
Qed.

Lemma evolves_onward free db db' tid n : evolves free db db' -> onward db tid n -> onward db' tid n.
Proof.
  intros He [(t & Ht & Hid & Hs)|H]; [left|right; by eapply evolves_any].
  destruct (ev_tournaments _ _ _ He t Ht) as (t' & Ht' & Hterms & Hrank). exists t'. split; [done|].
  split; [injection Hterms as -> _ _ _ _ _ _ _ _ _; done|]. apply status_rank_completed.
  rewrite Hs in Hrank. exact Hrank.
Qed.

(** Only the rounds where something gets decided need attention. *)
Lemma flows_evolves free except db db' :
  evolves free db db' ->
  (forall tid n, ~ except tid n -> decided (round_of tid n db') -> decided (round_of tid n db)) ->
  flows except db -> flows except db'.
Proof.
  intros He Hd Hf tid n Hx H. destruct (Hf tid n Hx (Hd tid n Hx H)) as [H1 H2].
  split; [by eapply evolves_completed|by eapply evolves_onward].
Qed.

Lemma flows_everywhere tid n db :
  flows (only tid n) db ->
  (decided (round_of tid n db) -> round_in db tid n (eq "completed") /\ onward db tid n) ->
  flows nowhere db.
Proof.
  intros Hf Hn tid' n' _ Hd. destruct (decide (tid' = tid /\ n' = n)) as [[-> ->]|Hne]; [by apply Hn|].
  by apply Hf.
Qed.

(** [fair] speaks of round rows through their keys only. *)
Lemma fair_rounds_update db hit f :
  fair db -> (forall r, round_key (f r) = round_key r) ->
  fair (with_rounds (update hit f (rounds db)) db).
Proof.
  intros [] Hkey.
  assert (forall r, tr_tournament (f r) = tr_tournament r /\ tr_round (f r) = tr_round r) as Hk
    by (intros r; pose proof (Hkey r) as E; by injection E as -> ->).
  constructor; auto.
  - intros r t Hr Ht Hid. apply in_update in Hr as (r0 & Hr & ->). destruct (hit r0).
    + destruct (Hk r0) as [E1 E2]. rewrite E1 in Hid. rewrite E2. by apply f_rounds0.
    + by apply f_rounds0.
  - intros t n Ht He Hn. by apply (round_in_update db hit f _ _ any any), f_swiss0.
Qed.

Lemma fair_rounds_append db new :
  fair db ->
  (forall r t, In r new -> In t (tournaments db) -> t_id t = tr_tournament r -> tr_round r <= t_rounds t) ->
  fair (with_rounds (rounds db ++ new) db).
Proof.
  intros [] Hnew. constructor; auto.
  - intros r t Hr Ht Hid. apply in_app_iff in Hr as [Hr|Hr]; auto.
  - intros t n Ht He Hn. destruct (f_swiss0 t n Ht He Hn) as (r & Hr & Hk). exists r.
    split; [apply in_app_iff; by left|done].
Qed.

Lemma fair_tournaments_update db hit f :
  fair db -> (forall t, terms (f t) = terms t) ->
  (forall t, In t (tournaments db) -> hit t = true ->
     tournament_ok (f t) = true /\ t_rounds t <= t_rounds (f t) /\
     (is_elimination t = false -> t_rounds (f t) = t_rounds t)) ->
  fair (with_tournaments (update hit f (tournaments db)) db).
Proof.
  intros [] Hterms Hhit.
  assert (forall t, t_id (f t) = t_id t /\ is_elimination (f t) = is_elimination t) as Hk.
  { intros t. pose proof (Hterms t) as E. injection E. unfold is_elimination. intros. by split; congruence. }
  constructor; auto.
  - intros t Ht. apply in_update in Ht as (t0 & Ht & ->). destruct (hit t0) eqn:E; [by apply Hhit|auto].
  - intros r t Hr Ht Hid. apply in_update in Ht as (t0 & Ht & ->). destruct (hit t0) eqn:E; [|by apply f_rounds0].
    rewrite (proj1 (Hk t0)) in Hid. etransitivity; [by apply f_rounds0|by apply Hhit].
  - intros t n Ht He Hn. apply in_update in Ht as (t0 & Ht & ->). destruct (hit t0) eqn:E; [|by apply f_swiss0].
    destruct (Hk t0) as [-> E2]. rewrite E2 in He. apply f_swiss0; [done|done|].
    by rewrite <- (proj2 (proj2 (Hhit t0 Ht E))).
Qed.

(** There are two formats. *)
Lemma swiss_format t :
  tournament_ok t = true -> is_elimination t = false -> String.eqb (t_format t) "swiss" = true.
Proof.
  unfold tournament_ok, is_elimination, one_of. intros H E. repeat apply andb_prop in H as [H _].
  cbn in H. rewrite E in H. by destruct (String.eqb (t_format t) "swiss").
Qed.

(** The rows that the closing of a round leaves alone. *)
Definition same_results (db db' : Tables) : Prop :=
  pairings db' = pairings db /\ players db' = players db /\ accounts db' = accounts db.

Lemma same_totalled db db' : same_results db db' -> totalled db -> totalled db'.
Proof. intros (Hp & Ht & _) H tp Hin. rewrite Hp. apply H. by rewrite <- Ht. Qed.

Lemma same_decided db db' tid n : same_results db db' -> round_of tid n db' = round_of tid n db.
Proof. intros (Hp & _). unfold round_of, pairings_of. by rewrite Hp. Qed.

Lemma same_results_trans db1 db2 db3 : same_results db1 db2 -> same_results db2 db3 -> same_results db1 db3.
Proof. unfold same_results. intros H1 (-> & -> & ->). done. Qed.

(** ** The columns of a tournament *)

Section steps.
Context (o : option Tables).

Lemma affected_tournament tid db t :
  In t (tournaments db) -> t_id t = tid ->
  succeeded (inr (affected (fun t => t_id t =? tid) (tournaments db))) = true.
Proof.
  intros Ht Hid. unfold affected. cbn.
  assert (In t (List.filter (fun t => t_id t =? tid) (tournaments db))) as H
    by (apply filter_In; by rewrite Z.eqb_eq).
  destruct (List.filter _ _); [done|]. done.
Qed.

Lemma calm_set_status tid status t db :
  fair db -> In t (tournaments db) -> t_id t = tid ->
  one_of status ["registration"; "scheduled"; "in_progress"; "completed"] = true ->
  wp true o (set_tournament_status tid status) (fun ok db' =>
    ok = true /\ fair db' /\ same_results db db' /\ rounds db' = rounds db /\
    exists t', In t' (tournaments db') /\ terms t' = terms t /\ t_status t' = status /\ t_rounds t' = t_rounds t) db.
Proof.
  intros Hf Ht Hid Hs. unfold set_tournament_status. wp_step. apply wp_done. intros now.
  unfold sql_set_status. set (hit := fun t => t_id t =? tid). set (set := fun t => with_progress status _ _ t).
  assert (forall t, In t (tournaments db) -> tournament_ok (set t) = true) as Hok.
  { intros t' Ht'. apply (f_tournament _ Hf) in Ht'. unfold tournament_ok in *. cbn [set with_progress t_format
      t_rounds t_current_round t_initial_ms t_increment_ms t_status t_deadline t_first_round t_duration].
    rewrite Hs. bool_hyps. repeat (apply andb_true_iff; split); try done; by apply Z.ltb_lt || by apply Z.leb_le. }
  assert (forallb tournament_ok (updated hit set (tournaments db)) = true) as ->.
  { apply forallb_forall. intros t' Ht'. apply in_map_iff in Ht' as (t0 & <- & Ht0).
    apply filter_In in Ht0 as [Ht0 _]. by apply Hok. }
  eexists _, _. split; [done|]. wp_step. split; [by eapply affected_tournament|].
  split. { apply fair_tournaments_update; [done|done|]. intros t' Ht' _. split; [by apply Hok|cbn; split; [lia|done]]. }
  split; [done|]. split; [done|]. exists (set t). split; [|done]. apply in_update. exists t.
  unfold hit. by rewrite Hid, Z.eqb_refl.
Qed.

Lemma calm_set_round tid n db t :
  fair db -> coherent db -> In t (tournaments db) -> t_id t = tid -> 0 <= n <= t_rounds t ->
  wp true o (set_tournament_round tid n) (fun ok db' =>
    ok = true /\ fair db' /\ same_results db db' /\ rounds db' = rounds db /\
    exists t', In t' (tournaments db') /\ terms t' = terms t /\ t_rounds t' = t_rounds t) db.
Proof.
  intros Hf Hdb Ht Hid Hn. unfold set_tournament_round. wp_step. apply wp_done. intros now.
  unfold sql_set_round. set (hit := fun t => t_id t =? tid). set (set := fun t => with_rounds_played _ _ t).
  assert (forall t, In t (tournaments db) -> hit t = true -> tournament_ok (set t) = true) as Hok.
  { intros t' Ht' E. apply Z.eqb_eq in E. assert (t' = t) as -> by (apply (same_key t_id (tournaments db));
      [apply Hdb|done|done|congruence]).
    apply (f_tournament _ Hf) in Ht'. unfold tournament_ok in *. cbn [set with_rounds_played t_format
      t_rounds t_current_round t_initial_ms t_increment_ms t_status t_deadline t_first_round t_duration].
    bool_hyps. repeat (apply andb_true_iff; split); try done; apply Z.ltb_lt || apply Z.leb_le; lia. }
  assert (forallb tournament_ok (updated hit set (tournaments db)) = true) as ->.
  { apply forallb_forall. intros t' Ht'. apply in_map_iff in Ht' as (t0 & <- & Ht0).
    apply filter_In in Ht0 as [Ht0 E]. by apply Hok. }
  eexists _, _. split; [done|]. wp_step. split; [by eapply affected_tournament|].
  split. { apply fair_tournaments_update; [done|done|]. intros t' Ht' E. split; [by apply Hok|cbn; split; [lia|done]]. }
  split; [done|]. split; [done|]. exists (set t). split; [|done]. apply in_update. exists t.
  unfold hit. by rewrite Hid, Z.eqb_refl.
Qed.

(** ** Closing a round *)

(** Everything but the flow of round [n] of [tid] is settled. *)
Record almost (tid n : Z) (db : Tables) : Prop := {
  a_coherent : coherent db; a_fair : fair db; a_totals : totalled db; a_flows : flows (only tid n) db
}.

(** What a step that leaves the results alone needs to settle the tables. *)
Lemma almost_settled free tid n db db' :
  almost tid n db -> proceeds free tid db db' -> fair db' -> same_results db db' ->
  (decided (round_of tid n db') -> round_in db' tid n (eq "completed") /\ onward db' tid n) ->
  settled db'.
Proof.
  intros [] Hp Hf Hs Hn. split; [apply Hp|done|by eapply same_totalled|].
  apply (flows_everywhere tid n); [|done]. eapply flows_evolves; [apply Hp| |done].
  intros tid' n' _. by rewrite (same_decided _ _ _ _ Hs).
Qed.

Lemma almost_same free tid n db db' :
  almost tid n db -> proceeds free tid db db' -> fair db' -> same_results db db' -> almost tid n db'.
Proof.
  intros [] Hp Hf Hs. split; [apply Hp|done|by eapply same_totalled|].
  eapply flows_evolves; [apply Hp| |done]. intros tid' n' _. by rewrite (same_decided _ _ _ _ Hs).
Qed.

Definition nobody (_ : Z) : Prop := False.

Lemma calm_finish tid n over t db :
  almost tid n db -> round_in db tid n (eq "completed") -> In t (tournaments db) -> t_id t = tid ->
  (over = false -> round_in db tid (n + 1) any /\ 0 <= n + 1 <= t_rounds t) ->
  wp true o (finish_or_proceed tid n over) (fun r db' => r = Fine /\ settled db' /\ same_results db db') db.
Proof.
  intros Ha Hn Ht Hid Hnext. pose proof (a_coherent _ _ _ Ha) as Hdb. pose proof (a_fair _ _ _ Ha) as Hf.
  unfold finish_or_proceed. destruct over; wp_step.
  - eapply wp_mono; [apply wp_both; [apply (wp_set_status o nobody); [done|done|]|by apply (calm_set_status tid _ t)]|].
    { intros t' _ _. apply status_rank_max. }
    intros ok db1 [(Hp & _) (-> & Hf1 & Hs & _ & t' & Ht' & Hterms & Hst & _)]. wp_step.
    split; [done|]. split; [|done]. eapply almost_settled; [done|done|done|done|]. intros _.
    split; [by eapply evolves_completed; [apply Hp|]|]. left. exists t'. split; [done|]. split; [|done].
    injection Hterms as -> _ _ _ _ _ _ _ _ _. done.
  - destruct (Hnext eq_refl) as [Hin Hle].
    eapply wp_mono; [apply wp_both; [by apply (wp_set_round o nobody)|by apply (calm_set_round tid _ db t)]|].
    intros ok db1 [(Hp & _) (-> & Hf1 & Hs & _)]. wp_step.
    split; [done|]. split; [|done]. eapply almost_settled; [done|done|done|done|]. intros _.
    split; [by eapply evolves_completed; [apply Hp|]|]. right. by eapply evolves_any; [apply Hp|].
Qed.

Lemma calm_complete_round tid n now db :
  almost tid n db -> decided (round_of tid n db) ->
  exists db' r, sql_complete_round tid n now db = Some (db', r) /\
    almost tid n db' /\ same_results db db' /\ tournaments db' = tournaments db /\
    round_in db' tid n (eq "completed").
Proof.
  intros Ha Hd. eexists _, _. split; [reflexivity|].
  match goal with |- almost _ _ ?d /\ _ => set (db' := d) end.
  assert (proceeds nobody tid db db') as Hp
    by by eapply complete_round_proceeds; [apply Ha|done|].
  assert (same_results db db') as Hs by done.
  split; [eapply almost_same; [done|done| |done]|split; [done|split; [done|]]].
  { apply fair_rounds_update; [apply Ha|done]. }
  destruct (proj1 (nonempty_in _) (proj1 Hd)) as (p & Hin). apply round_of_in in Hin as (Hin & E1 & E2).
  pose proof (c_paired _ (a_coherent _ _ _ Ha) p Hin) as Hr. rewrite E1, E2 in Hr.
  destruct Hr as (r & Hr & Hk & _). injection Hk as Hk1 Hk2.
  unfold db'. eexists. split; [apply in_update; exists r; split; [done|reflexivity]|].
  rewrite Hk1, Hk2, !Z.eqb_refl. cbn [andb].
  destruct (String.eqb_spec (tr_status r) "completed") as [E|]; cbn; unfold round_key; cbn;
    by rewrite ?E, ?Hk1, ?Hk2.
Qed.

Lemma calm_allocate tid n earliest closes now t db :
  almost tid n db -> In t (tournaments db) -> t_id t = tid -> is_elimination t = true ->
  0 < n -> earliest <= closes ->
  exists db' r, sql_allocate_round tid (n + 1) earliest closes now db = Some (db', r) /\
    almost tid n db' /\ same_results db db' /\ round_in db' tid (n + 1) any /\
    (forall m P, round_in db tid m P -> round_in db' tid m P) /\
    exists t', In t' (tournaments db') /\ t_id t' = tid /\ 0 <= n + 1 <= t_rounds t'.
Proof.
  intros Ha Ht Hid He Hn Hle.
  set (hit := fun t => t_id t =? tid).
  set (set := fun t => with_rounds_played (Z.max (t_rounds t) (n + 1)) (t_current_round t) t).
  set (new := if existsb (fun r => (tr_tournament r =? tid) && (tr_round r =? n + 1)) (rounds db) then []
              else map (fun t => mkRound tid (n + 1) earliest None closes None "scheduled")
                       (List.filter hit (tournaments db))).
  pose proof (a_coherent _ _ _ Ha) as Hdb. pose proof (a_fair _ _ _ Ha) as Hf.
  assert (forall t', In t' (tournaments db) -> hit t' = true -> t' = t) as Hone.
  { intros t' Ht' E. apply Z.eqb_eq in E. apply (same_key t_id (tournaments db)); [apply Hdb|done|done|congruence]. }
  assert (forall t, In t (tournaments db) -> tournament_ok (set t) = true) as Hok.
  { intros t' Ht'. apply (f_tournament _ Hf) in Ht'. unfold tournament_ok in *. cbn [set with_rounds_played t_format
      t_rounds t_current_round t_initial_ms t_increment_ms t_status t_deadline t_first_round t_duration].
    bool_hyps. repeat (apply andb_true_iff; split); try done; apply Z.ltb_lt || apply Z.leb_le; lia. }
  assert (forallb tournament_ok (updated hit set (tournaments db)) && forallb round_ok new = true) as Hchecks.
  { apply andb_true_iff. split; apply forallb_forall.
    - intros t' Ht'. apply in_map_iff in Ht' as (t0 & <- & Ht0). apply filter_In in Ht0 as [Ht0 _]. by apply Hok.
    - intros r Hr. unfold new in Hr. destruct (existsb _ _); [done|]. apply in_map_iff in Hr as (t0 & <- & _).
      unfold round_ok. cbn. rewrite (proj2 (Z.leb_le _ _) Hle), (proj2 (Z.ltb_lt 0 (n + 1))) by lia. done. }
  assert (exists db' r, sql_allocate_round tid (n + 1) earliest closes now db = Some (db', r) /\
    db' = with_rounds (rounds db ++ new) (with_tournaments (update hit set (tournaments db)) db)) as
    (db' & r & E & Edb).
  { unfold sql_allocate_round. fold hit set new. rewrite Hchecks. by eexists _, _. }
  exists db', r. split; [done|].
  assert (proceeds nobody tid db db') as Hp by (by eapply allocate_round_proceeds; [|exact E]).
  assert (In (set t) (tournaments db')) as Ht'.
  { rewrite Edb. apply in_update. exists t. split; [done|]. unfold hit. by rewrite Hid, Z.eqb_refl. }
  assert (same_results db db') as Hs by by rewrite Edb.
  split; [eapply almost_same; [done|done| |done]|split; [done|split; [|split]]].
  - rewrite Edb. apply (fair_rounds_append (with_tournaments (update hit set (tournaments db)) db)).
    + apply fair_tournaments_update; [done|done|]. intros t' Ht'' E'. split; [by apply Hok|].
      rewrite (Hone t' Ht'' E'), He. cbn. split; [lia|done].
    + intros r' t' Hr' Ht'' Hid'. unfold new in Hr'. destruct (existsb _ _); [done|].
      apply in_map_iff in Hr' as (t0 & <- & _). cbn in Hid' |- *.
      apply in_update in Ht'' as (t1 & Ht1 & ->). destruct (hit t1) eqn:E1; [cbn; lia|].
      unfold hit in E1. by rewrite Hid', Z.eqb_refl in E1.
  - destruct (existsb (fun r => (tr_tournament r =? tid) && (tr_round r =? n + 1)) (rounds db)) eqn:Ee.
    + apply existsb_exists in Ee as (q & Hq & Eq). bool_hyps. rewrite Edb. exists q.
      split; [apply in_app_iff; by left|]. split; [unfold round_key; congruence|done].
    + rewrite Edb. eexists. split; [apply in_app_iff; right; unfold new; apply in_map, filter_In; split|].
      * exact Ht.
      * unfold hit. by rewrite Hid, Z.eqb_refl.
      * done.
  - intros m P (q & Hq & HP). rewrite Edb. exists q. split; [apply in_app_iff; by left|done].
  - exists (set t). split; [done|]. split; [done|]. cbn. lia.
Qed.

Lemma calm_maybe_advance tid n db :
  almost tid n db ->
  wp true o (maybe_advance_after_result tid n) (fun r db' =>
    (settled db' /\ same_results db db') /\ (tournaments_of tid db <> [] -> r = Fine)) db.
Proof.
  intros Ha. pose proof (a_coherent _ _ _ Ha) as Hdb. pose proof (a_fair _ _ _ Ha) as Hf.
  assert (~ decided (round_of tid n db) -> settled db /\ same_results db db) as Hnot.
  { intros Hn. split; [|done]. destruct Ha. split; [done|done|done|]. by apply (flows_everywhere tid n). }
  unfold maybe_advance_after_result. wp_step. apply wp_find_tournament; [|done].
  destruct (head _) as [t|] eqn:Eh; cbn beta iota.
  2:{ wp_step. split; [|by destruct (tournaments_of tid db)]. apply Hnot. intros [Hne _]. apply nonempty_in in Hne as (p & Hp).
      apply round_of_in in Hp as (Hp & E & _). destruct (c_paired _ Hdb p Hp) as (r & Hr & Hk & _).
      destruct (c_round_owner _ Hdb r Hr) as (t & Ht & Hid). injection Hk as Hk _.
      assert (In t (tournaments_of tid db)) as Hin by (apply filter_In; rewrite Z.eqb_eq; split; [done|congruence]).
      by destruct (tournaments_of tid db). }
  apply find_tournament_spec in Eh as [Ht Hid]. wp_step. apply wp_get_pairings; [|done].
  set (all := isort _ _). pose proof (round_is_complete_spec tid n db all (isort_perm _ _)) as Hc.
  cbn beta iota. destruct (round_is_complete all n); cbn [negb];
    [|wp_step; split; [apply Hnot; intros Hd; by apply Hc in Hd|done]].
  pose proof (proj1 Hc eq_refl) as Hd. wp_step. apply wp_done. intros now.
  destruct (calm_complete_round tid n now db Ha Hd) as (db1 & k & E & Ha1 & Hs1 & Et1 & Hn1).
  exists db1, k. split; [done|]. cbn beta iota.
  assert (0 < n) as Hpos.
  { destruct Hn1 as (r & Hr & Hk & _). injection Hk as _ <-. by apply (c_positive _ (a_coherent _ _ _ Ha1)). }
  assert (forall over db2 t2, almost tid n db2 -> same_results db db2 -> round_in db2 tid n (eq "completed") ->
    In t2 (tournaments db2) -> t_id t2 = tid ->
    (over = false -> round_in db2 tid (n + 1) any /\ 0 <= n + 1 <= t_rounds t2) ->
    wp true o (finish_or_proceed tid n over) (fun r db' =>
      (settled db' /\ same_results db db') /\ (tournaments_of tid db <> [] -> r = Fine)) db2) as Hfinish.
  { intros over db2 t2 Ha2 Hs2 Hn2 Ht2 Hid2 Hnext.
    eapply wp_mono; [by apply (calm_finish tid n over t2)|]. intros r db3 (-> & H3 & Hs3).
    split; [split; [done|by eapply same_results_trans]|done]. }
  rewrite <- Et1 in Ht. destruct (is_elimination t) eqn:Ee.
  - unfold proceed_elimination. destruct (elimination_over all n); [by apply (Hfinish true db1 t)|].
    wp_step. wp_step. rename now0 into clock. wp_step. apply wp_done. intros now'.
    destruct (calm_allocate tid n (Z.max clock (earliest_round_start (t_first_round t) (t_duration t) (n + 1)))
      (Z.max clock (earliest_round_start (t_first_round t) (t_duration t) (n + 1)) + t_duration t)
      now' t db1 Ha1 Ht Hid Ee Hpos) as (db2 & k2 & E2 & Ha2 & Hs2 & Hn2 & Hkeep & t2 & Ht2 & Hid2 & Hle).
    { pose proof (f_tournament _ (a_fair _ _ _ Ha1) t Ht) as Hok. unfold tournament_ok in Hok. bool_hyps. lia. }
    exists db2, k2. split; [done|]. cbn beta iota. apply (Hfinish false db2 t2); auto.
    by eapply same_results_trans.
  - apply (Hfinish _ db1 t); auto. intros Hover.
    rewrite (swiss_format t) in Hover; [|by apply (f_tournament _ (a_fair _ _ _ Ha1))|done].
    cbn in Hover. bool_hyps. split; [|lia]. rewrite <- Hid. apply (f_swiss _ (a_fair _ _ _ Ha1)); [done|done|lia].
Qed.
End steps.

(** ** Results and totals *)

Lemma filter_map {A B} (f : B -> bool) (g : A -> B) l :
  List.filter f (map g l) = map g (List.filter (fun x => f (g x)) l).
Proof. induction l as [|x l IH]; cbn; [done|]. rewrite IH. by destruct (f (g x)). Qed.

Lemma filter_map_same {A} (f : A -> bool) (g : A -> A) l :
  (forall x, In x l -> f (g x) = f x) -> List.filter f (map g l) = map g (List.filter f l).
Proof. intros H. rewrite filter_map. f_equal. by apply filter_ext_in. Qed.

(** Totals over changed rows are totals over the old ones with the results read through [res]. *)
Lemma totals_map g res ps tp :
  (forall p, In p ps -> meeting (g p) = meeting p /\ pr_result (g p) = res p) ->
  totals pr_result (map g ps) tp = totals res ps tp.
Proof.
  intros H.
  assert (forall p, In p ps -> pr_tournament (g p) = pr_tournament p /\ pr_white (g p) = pr_white p /\
            pr_black (g p) = pr_black p /\ pr_result (g p) = res p) as Hg.
  { intros p Hp. destruct (H p Hp) as [E Hr]. by injection E as _ -> _ -> ->. }
  assert (List.filter (fun pr => pr_tournament pr =? tp_tournament tp) (map g ps) =
          map g (List.filter (fun pr => pr_tournament pr =? tp_tournament tp) ps)) as Hown.
  { apply filter_map_same. intros p Hp. by destruct (Hg p Hp) as [-> _]. }
  unfold totals. rewrite Hown. set (own := List.filter _ ps).
  assert (forall p, In p own -> pr_white (g p) = pr_white p /\ pr_black (g p) = pr_black p /\
            pr_result (g p) = res p) as Ho by (intros p Hp; apply filter_In in Hp as [Hp _]; by apply Hg).
  clearbody own. clear H Hg Hown. f_equal.
  - f_equal. rewrite filter_map_same by (intros p Hp; unfold plays, is_black; by destruct (Ho p Hp) as (-> & -> & _)).
    rewrite map_map. apply map_ext_in. intros p Hp. apply filter_In in Hp as [Hp _].
    destruct (Ho p Hp) as (E1 & E2 & E3). unfold points, plays, is_black. by rewrite E1, E2, E3.
  - rewrite filter_map, length_map. f_equal. f_equal. apply filter_ext_in. intros p Hp.
    destruct (Ho p Hp) as (E1 & E2 & E3). by rewrite E1, E2, E3.
  - induction own as [|p own IH]; cbn; [done|]. destruct (Ho p (or_introl eq_refl)) as (-> & _ & ->).
    rewrite IH; [done|]. intros q Hq. apply Ho. by right.
Qed.

(** Rows of other tournaments do not count. *)
Lemma totals_local res ps ps' tp :
  List.filter (fun pr => pr_tournament pr =? tp_tournament tp) ps =
  List.filter (fun pr => pr_tournament pr =? tp_tournament tp) ps' -> totals res ps tp = totals res ps' tp.
Proof. intros H. unfold totals. by rewrite H. Qed.

(** The statements that record a result compute the totals from the rows as they were,
    with the new result put in: the totals of the rows as they will be. *)
Section result.
Context (db : Tables) (Hc : coherent db) (Hf : fair db) (Ht : totalled db) (p : StoredPairing) (Hp : In p (pairings db)).
Context (hit : StoredPairing -> bool) (Hhit : hit p = true).
Context (Hid : forall q, hit q = true -> pr_id q = pr_id p).
Context (result source : string) (now : Z).

Let set := with_result result source now.
Definition changed_pairings := update hit set (pairings db).
Definition changed_players :=
  update (fun tp => existsb (fun q => pr_tournament q =? tp_tournament tp) (updated hit set (pairings db)))
    (totals (effective (pr_id p) result) (pairings db)) (players db).
Definition changed_tables := with_players changed_players (with_pairings changed_pairings db).

Lemma hit_is_p q : In q (pairings db) -> hit q = true -> q = p.
Proof.
  intros Hq E. apply (same_key pr_id (pairings db)); [by apply Hc|done|done|by apply Hid].
Qed.

Lemma touched tp :
  existsb (fun q => pr_tournament q =? tp_tournament tp) (updated hit set (pairings db)) =
  (pr_tournament p =? tp_tournament tp).
Proof.
  destruct (Z.eqb_spec (pr_tournament p) (tp_tournament tp)) as [E|E].
  - apply existsb_exists. exists (set p). split; [by apply in_map, filter_In|by apply Z.eqb_eq].
  - apply not_true_iff_false. rewrite existsb_exists. intros (q & Hq & Eq). apply in_map_iff in Hq as (q0 & <- & Hq).
    apply filter_In in Hq as [Hq E0]. rewrite (hit_is_p q0 Hq E0) in Eq. by apply Z.eqb_eq in Eq.
Qed.

Lemma changed_totals tp :
  In tp (players db) ->
  totals pr_result changed_pairings tp = totals (effective (pr_id p) result) (pairings db) tp.
Proof.
  intros _. apply totals_map. intros q Hq. unfold effective. destruct (hit q) eqn:E.
  - split; [done|]. rewrite (hit_is_p q Hq E), Z.eqb_refl. done.
  - split; [done|]. destruct (Z.eqb_spec (pr_id q) (pr_id p)) as [Ei|]; [|done].
    rewrite (same_key pr_id (pairings db) q p (c_pairings _ Hc) Hq Hp Ei) in E. congruence.
Qed.

Lemma changed_totalled : totalled changed_tables.
Proof.
  intros tp Htp. apply in_update in Htp as (tp0 & Htp & ->). rewrite touched.
  destruct (Z.eqb_spec (pr_tournament p) (tp_tournament tp0)) as [E|E].
  - cbn [changed_tables with_players pairings with_pairings]. rewrite <- (changed_totals tp0 Htp). reflexivity.
  - rewrite <- (Ht tp0 Htp) at 2. apply totals_local. cbn. apply filter_update_other.
    intros q Hq Eq. rewrite (hit_is_p q Hq Eq). split; by apply Z.eqb_neq.
Qed.

Lemma changed_fair : fair changed_tables.
Proof.
  destruct Hf. constructor; cbn [changed_tables with_players with_pairings tournaments players rounds]; auto.
  - unfold changed_players. by rewrite map_update.
  - intros tp Htp. apply in_update in Htp as (tp0 & Htp & ->). destruct (existsb _ _); exact (f_owner0 _ Htp).
  - intros q x Hq Hx. apply in_update in Hq as (q0 & Hq & ->).
    destruct (f_seated0 q0 x Hq) as (tp & Htp & E1 & E2); [by destruct (hit q0)|].
    eexists. split; [apply in_update; by exists tp|]. destruct (hit q0), (existsb _ _); done.
  - intros tid n. assert (round_of tid n changed_tables =
      map (fun q => if hit q then set q else q) (round_of tid n db)) as ->.
    { unfold round_of, pairings_of. cbn. unfold changed_pairings, update.
      rewrite !filter_map_same; [done| |]; intros q _; by destruct (hit q). }
    rewrite flat_map_concat_map, map_map.
    erewrite map_ext; [rewrite <- flat_map_concat_map; apply f_once0|]. intros q. by destruct (hit q).
Qed.

Lemma changed_rounds tid n :
  ~ only (pr_tournament p) (pr_round p) tid n -> round_of tid n changed_tables = round_of tid n db.
Proof.
  intros Hne. unfold round_of, pairings_of. cbn. rewrite !filter_filter. apply filter_update_other.
  intros q Hq E. rewrite (hit_is_p q Hq E). cbn.
  enough ((pr_round p =? n) && (pr_tournament p =? tid) = false) by done.
  apply not_true_iff_false. intros H. bool_hyps. by apply Hne.
Qed.

Lemma changed_affected :
  succeeded (inr (affected (fun tp => existsb (fun q => pr_tournament q =? tp_tournament tp)
    (updated hit set (pairings db))) (players db))) = true.
Proof.
  destruct (f_seated _ Hf p (pr_white p) Hp) as (tp & Htp & E & _); [by left|].
  unfold affected. match goal with |- context [List.filter ?f _] => set (g := f) end.
  assert (In tp (List.filter g (players db))) as H.
  { apply filter_In. split; [done|]. unfold g. rewrite touched. by apply Z.eqb_eq. }
  cbn. by destruct (List.filter g (players db)).
Qed.
End result.

Lemma settled_almost tid n db : settled db -> almost tid n db.
Proof.
  intros []. split; [done|done|done|]. intros tid' n' _. apply s_flows0. by intros [].
Qed.

(** The invariant does not speak of the audit trail. *)
Lemma fair_overrides os db : fair db -> fair (with_overrides os db).
Proof. intros []. by constructor. Qed.

Section steps.
Context (o : option Tables).

(** Rows other than the one that is decided stay as they are. *)
Definition others_stay (id : Z) (db db' : Tables) : Prop :=
  forall q, In q (pairings db) -> pr_id q <> id -> In q (pairings db').

Lemma changed_almost tid n db p hit result source now db' :
  almost tid n db -> In p (pairings db) -> pr_tournament p = tid -> pr_round p = n ->
  hit p = true -> (forall q, hit q = true -> pr_id q = pr_id p) ->
  proceeds (eq (pr_id p)) tid db db' -> fair db' -> totalled db' ->
  pairings db' = changed_pairings db hit result source now ->
  almost tid n db' /\ others_stay (pr_id p) db db'.
Proof.
  intros [] Hp Htid Hn Hhit Hid Hpr Hf Ht Hps. split.
  - split; [apply Hpr|done|done|]. eapply flows_evolves; [apply Hpr| |done].
    intros tid' n' Hne Hd. rewrite <- Htid, <- Hn in Hne.
    rewrite <- (changed_rounds db a_coherent0 p Hp hit Hid result source now tid' n' Hne).
    unfold round_of, pairings_of in *. by rewrite Hps in Hd.
  - intros q Hq Hne. rewrite Hps. apply in_update. exists q. split; [done|].
    destruct (hit q) eqn:E; [|done]. by apply Hid in E.
Qed.

Lemma calm_set_result tid n p result source db :
  almost tid n db -> In p (pairings db) -> pr_tournament p = tid -> pr_round p = n ->
  is_pending p = true -> result <> "pending" -> (forall now, pairing_ok (with_result result source now p) = true) ->
  wp true o (set_pairing_result (pr_id p) result source) (fun ok db' =>
    ok = true /\ almost tid n db' /\ others_stay (pr_id p) db db') db.
Proof.
  intros Ha Hp Htid Hn Hpend Hres Hok. pose proof (a_coherent _ _ _ Ha) as Hdb.
  set (hit := fun q => (pr_id q =? pr_id p) && (String.eqb (pr_result q) "pending" || String.eqb (pr_result q) result)).
  assert (hit p = true) as Hhit.
  { unfold hit. rewrite Z.eqb_refl. unfold is_pending in Hpend. by rewrite Hpend. }
  assert (forall q, hit q = true -> pr_id q = pr_id p) as Hid by (intros q E; unfold hit in E; by bool_hyps).
  unfold set_pairing_result. wp_step. apply wp_done. intros now.
  assert (forallb pairing_ok (updated hit (with_result result source now) (pairings db)) = true) as Hall.
  { apply forallb_forall. intros q Hq. apply in_map_iff in Hq as (q0 & <- & Hq). apply filter_In in Hq as [Hq E].
    rewrite (hit_is_p db Hdb p Hp hit Hid q0 Hq E). apply Hok. }
  assert (sql_set_result (pr_id p) result source now db =
    Some (changed_tables db p hit result source now,
          affected (fun tp => existsb (fun q => pr_tournament q =? tp_tournament tp)
            (updated hit (with_result result source now) (pairings db))) (players db))) as E.
  { unfold sql_set_result. fold hit. rewrite Hall. reflexivity. }
  eexists _, _. split; [exact E|]. wp_step. split.
  { by apply (changed_affected db Hdb (a_fair _ _ _ Ha) p Hp hit Hhit Hid result source now). }
  apply (changed_almost tid n db p hit result source now); try done.
  + assert (proceeds (eq (pr_id p)) tid db (with_pairings (update hit (with_result result source now) (pairings db)) db)) as H1.
    { apply pairings_proceed; [done|done| | |done].
      - intros q Hq Eq. by rewrite (hit_is_p db Hdb p Hp hit Hid q Hq Eq).
      - intros q Eq _. split; [by apply String.eqb_neq|left; symmetry; by apply Hid]. }
    eapply proceeds_trans; [apply H1|]. apply (players_proceed _ _ _ (pc_coherent _ _ _ _ H1)). done.
  + by apply changed_fair, Ha.
  + by apply (changed_totalled db Hdb (a_totals _ _ _ Ha) p Hp hit Hhit Hid).
Qed.
End steps.

(** ** Who is dealt a seat *)

Lemma NoDup_flat_map_filter {A B} (f : A -> list B) g l :
  List.NoDup (flat_map f l) -> List.NoDup (flat_map f (List.filter g l)).
Proof.
  induction l as [|x l IH]; cbn; [done|]. intros H. pose proof (NoDup_app_remove_l _ _ H) as Hl.
  destruct (g x); [|by apply IH]. cbn. apply NoDup_app; [by eapply NoDup_app_remove_r|by apply IH|].
  intros y Hy Hin. apply in_flat_map in Hin as (z & Hz & Hin). apply filter_In in Hz as [Hz _].
  assert (In y (flat_map f l)) as Hin' by (apply in_flat_map; by exists z).
  clear IH Hl. induction (f x) as [|a m IHm]; [done|]. cbn in H. apply NoDup_cons_iff in H as [Ha H].
  destruct Hy as [->|Hy]; [apply Ha, in_app_iff; by right|by apply IHm].
Qed.

(** The seats of a pairing, as the rows and as the algorithm have them. *)
Lemma draw_pair_black p m : draw_pair p = Some m -> exists b, pr_black p = Some b.
Proof. unfold draw_pair. destruct (pr_black p); [eauto|done]. Qed.

Lemma forced_seats all n :
  Permutation (flat_map pairing_ids (forced_pairings all n))
              (flat_map sitters (List.filter (replays all n) (previous_round all n))).
Proof.
  unfold forced_pairings.
  assert (forall p, In p (List.filter (replays all n) (previous_round all n)) -> exists b, pr_black p = Some b) as H.
  { intros p Hp. apply filter_In in Hp as [_ E]. unfold replays in E.
    destruct (draw_pair p) eqn:Ed; [by eapply draw_pair_black|done]. }
  induction (List.filter _ _) as [|p l IH]; cbn; [done|].
  destruct (H p (or_introl eq_refl)) as [b Hb]. unfold sitters at 1. rewrite Hb. cbn.
  rewrite IH by (intros q Hq; apply H; by right). apply perm_swap.
Qed.

Lemma replaying_seats all n : Permutation (replaying all n) (flat_map pairing_ids (forced_pairings all n)).
Proof.
  unfold replaying. assert (forall p, In p (forced_pairings all n) -> is_bye p = false) as H.
  { intros p Hp. apply in_flat_map in Hp as (q & _ & Hp). destruct (pr_black q); [|done]. by destruct Hp as [<-|[]]. }
  induction (forced_pairings all n) as [|p l IH]; cbn; [done|].
  unfold pairing_ids at 1. rewrite (H p (or_introl eq_refl)). cbn.
  rewrite IH by (intros q Hq; apply H; by right). apply perm_swap.
Qed.

Section dealing.
Context (tid n : Z) (db : Tables) (Hdb : coherent db) (Hfair : fair db).

Let participants := isort player_before (participants_of tid db).
Let all := isort pairing_before (pairings_of tid db).

Lemma participant_ids : List.NoDup (map tp_player participants).
Proof.
  apply (Permutation_NoDup (l := map tp_player (participants_of tid db))).
  { apply Permutation_map. symmetry. apply isort_perm. }
  assert (List.NoDup (map (fun tp => (tp_tournament tp, tp_player tp)) (participants_of tid db))) as H
    by by apply NoDup_map_filter, Hfair.
  assert (forall tp, In tp (participants_of tid db) -> tp_tournament tp = tid) as Hin
    by (intros tp Htp; apply filter_In in Htp as [_ E]; by apply Z.eqb_eq).
  induction (participants_of tid db) as [|tp l IH]; cbn; [constructor|].
  cbn in H. apply NoDup_cons_iff in H as [Hn H]. constructor.
  - rewrite in_map_iff. intros (tp' & E & Htp'). apply Hn, in_map_iff. exists tp'. split; [|done].
    rewrite E, (Hin tp'), (Hin tp); [done|by left|by right].
  - apply IH; [done|]. intros tp' H'. apply Hin. by right.
Qed.

Lemma is_participant x :
  In x (map tp_player participants) <-> exists tp, In tp (players db) /\ tp_tournament tp = tid /\ tp_player tp = x.
Proof.
  unfold participants. rewrite in_map_iff. split.
  - intros (tp & <- & H). apply (Permutation_in _ (isort_perm _ _)), filter_In in H as [H E].
    exists tp. by rewrite Z.eqb_eq in E.
  - intros (tp & H & E & <-). exists tp. split; [done|].
    apply (Permutation_in _ (Permutation_sym (isort_perm _ _))), filter_In. by rewrite Z.eqb_eq.
Qed.

Lemma pool_ids elimination :
  let pool := active_players (pairing_pool elimination (map to_standing participants) all n) in
  List.NoDup (map player_id pool) /\ (forall x, In x (map player_id pool) -> In x (map tp_player participants)) /\
  (elimination && (1 <? n) = true -> forall x, In x (map player_id pool) -> ~ In x (replaying all n)).
Proof.
  assert (map player_id (map to_standing participants) = map tp_player participants) as Hmap
    by by rewrite map_map.
  cbv zeta. unfold active_players, pairing_pool. destruct (elimination && (1 <? n)).
  - rewrite filter_filter. split; [|split].
    + apply NoDup_map_filter. rewrite Hmap. apply participant_ids.
    + intros x Hx. apply in_map_iff in Hx as (s & <- & Hs). apply filter_In in Hs as [Hs _].
      rewrite <- Hmap. by apply in_map.
    + intros _ x Hx Hin. apply in_map_iff in Hx as (s & <- & Hs). apply filter_In in Hs as [_ E].
      apply andb_prop in E as [_ E]. apply andb_prop in E as [_ E]. apply negb_true_iff, not_true_iff_false in E.
      apply E, existsb_exists. exists (player_id s). split; [done|apply Z.eqb_refl].
  - split; [|split; [|done]].
    + apply NoDup_map_filter. rewrite Hmap. apply participant_ids.
    + intros x Hx. apply in_map_iff in Hx as (s & <- & Hs). apply filter_In in Hs as [Hs _].
      rewrite <- Hmap. by apply in_map.
Qed.

(** Nobody is dealt two seats, and every seat goes to a participant. *)
Lemma dealt_ids elimination :
  let dealt := dealt_pairings elimination participants all n in
  List.NoDup (flat_map pairing_ids dealt) /\
  forall x, In x (flat_map pairing_ids dealt) -> In x (map tp_player participants).
Proof.
  cbv zeta. unfold dealt_pairings. rewrite flat_map_app.
  destruct (pool_ids elimination) as (Hnd & Hsub & Hdis).
  set (pool := pairing_pool _ _ _ _) in *. set (played := gather_played all). set (forbidden := if elimination then _ else _).
  pose proof (round_seats_everyone pool played forbidden) as Hswiss.
  assert (Permutation (previous_round all n) (round_of tid (n - 1) db)) as Hprev
    by (unfold previous_round, round_of; apply filter_perm, isort_perm).
  destruct (elimination && (1 <? n)).
  - assert (List.NoDup (flat_map pairing_ids (forced_pairings all n))) as Hforced.
    { eapply Permutation_NoDup; [symmetry; apply forced_seats|]. apply NoDup_flat_map_filter.
      eapply Permutation_NoDup; [|apply (f_once _ Hfair tid (n - 1))]. by apply Permutation_flat_map. }
    split.
    + apply NoDup_app; [done|by eapply Permutation_NoDup; [symmetry; apply Hswiss|]|].
      intros x Hx Hin. apply (Permutation_in x Hswiss) in Hin. apply (Hdis eq_refl x Hin).
      eapply Permutation_in; [symmetry; apply replaying_seats|done].
    + intros x Hx. apply in_app_iff in Hx as [Hx|Hx].
      * apply (Permutation_in x (forced_seats all n)), in_flat_map in Hx as (p & Hp & Hx).
        apply filter_In in Hp as [Hp _]. apply (Permutation_in p Hprev), round_of_in in Hp as (Hp & E & _).
        apply is_participant. destruct (f_seated _ Hfair p x Hp Hx) as (tp & Htp & E1 & E2).
        exists tp. split; [done|]. split; congruence.
      * apply Hsub. by apply (Permutation_in x Hswiss).
  - cbn. split; [by eapply Permutation_NoDup; [symmetry; apply Hswiss|]|].
    intros x Hx. apply Hsub. by apply (Permutation_in x Hswiss).
Qed.
End dealing.

(** ** Dealing a round *)

Section deal.
Context (tid n : Z) (db0 : Tables).
Context (Hdb0 : coherent db0) (Hfair0 : fair db0) (Hempty : round_of tid n db0 = []).
Context (t : StoredTournament) (Ht : In t (tournaments db0)) (Hid : t_id t = tid) (Hn : 0 < n).

(** [rows] have been inserted so far, for the pairings [done]. *)
Record inserted (done : list Pairing) (rows : list StoredPairing) (db : Tables) : Prop := {
  i_pairings : pairings db = pairings db0 ++ rows;
  i_rest : (accounts db, tournaments db, players db, TournamentRepo.rounds db) =
           (accounts db0, tournaments db0, players db0, TournamentRepo.rounds db0);
  i_seats : flat_map sitters rows = flat_map pairing_ids done;
  i_rows : forall p, In p rows -> pr_tournament p = tid /\ pr_round p = n
}.

Definition participant (x : Z) : Prop :=
  exists tp, In tp (players db0) /\ tp_tournament tp = tid /\ tp_player tp = x.

Lemma disjoint_seat (p q : StoredPairing) rows :
  List.NoDup (flat_map sitters rows ++ sitters p) -> In q rows ->
  (pr_white q =? pr_white p) = false /\
  match pr_black q, pr_black p with Some a, Some b => a =? b | _, _ => false end = false.
Proof.
  intros H Hq.
  assert (forall x, In x (sitters q) -> In x (sitters p) -> False) as Hdis.
  { intros x Hx Hx'. assert (In x (flat_map sitters rows)) as Hin by (apply in_flat_map; by exists q).
    revert H Hin Hx'. generalize (flat_map sitters rows) (sitters p). clear. intros l k H Hin Hx'.
    induction l as [|a l IH]; [done|]. cbn in H. apply NoDup_cons_iff in H as [Ha H].
    destruct Hin as [->|Hin]; [apply Ha, in_app_iff; by right|by apply IH]. }
  unfold sitters in Hdis. split.
  - apply Z.eqb_neq. intros E. apply (Hdis (pr_white q)); [by left|rewrite E; by left].
  - destruct (pr_black q) as [a|], (pr_black p) as [b|]; try done. apply Z.eqb_neq. intros ->.
    apply (Hdis b); right; by left.
Qed.

Lemma calm_insert_pairing o done rows p db :
  inserted done rows db -> List.NoDup (flat_map pairing_ids done ++ pairing_ids p) ->
  (forall x, In x (pairing_ids p) -> participant x) ->
  wp true o (insert_pairing tid n (white_id p) (if is_bye p then None else Some (black_id p))
               (if is_bye p then "bye" else "pending"))
    (fun ir db' => (exists id, ir = Inserted id) /\ exists rows', inserted (done ++ [p]) rows' db') db.
Proof.
  intros Hi Hnd Hpart. unfold insert_pairing. wp_step. apply wp_done. intros now.
  unfold sql_insert_pairing. set (row := mkStoredPairing _ _ _ _ _ _ _ _ _ _).
  destruct Hi as [Hps [= Ha Htn Hpl Hro] Hseats Hrows].
  assert (sitters row = pairing_ids p) as Hsit by (unfold sitters, pairing_ids; cbn; by destruct (is_bye p)).
  assert (forall x, In x (pairing_ids p) -> is_account db x = true) as Hacc.
  { intros x Hx. unfold is_account. rewrite Ha. destruct (Hpart x Hx) as (tp & Htp & _ & <-).
    by apply (f_owner _ Hfair0). }
  assert (pairing_ok row && pairing_fits db row = true) as ->.
  { apply andb_true_iff. split.
    - unfold pairing_ok. cbn. rewrite (proj2 (Z.ltb_lt 0 n)) by done. by destruct (is_bye p).
    - unfold pairing_fits. cbn [row pr_tournament pr_white pr_black pr_round].
      rewrite !andb_true_iff. split; [split; [split|]|].
      + apply existsb_exists. exists t. rewrite Htn. split; [done|by apply Z.eqb_eq].
      + apply Hacc. unfold pairing_ids. destruct (is_bye p); by left.
      + destruct (is_bye p) eqn:E; [done|]. cbn. apply Hacc. unfold pairing_ids. rewrite E. right. by left.
      + apply forallb_forall. intros q Hq. apply negb_true_iff. rewrite Hps in Hq.
        apply in_app_iff in Hq as [Hq|Hq].
        * apply not_true_iff_false. intros E. bool_hyps.
          assert (In q (round_of tid n db0)) as Hin by by apply round_of_in. by rewrite Hempty in Hin.
        * destruct (disjoint_seat row q rows) as [H1 H2]; [by rewrite Hseats, Hsit|done|].
          cbn [row pr_white pr_black] in H1, H2. rewrite H1, H2. cbn. apply andb_false_r. }
  eexists _, _. split; [done|]. wp_step. split; [by eexists|]. exists (rows ++ [row]).
  constructor; cbn [with_next_pairing with_pairings pairings accounts tournaments players TournamentRepo.rounds].
  - by rewrite Hps, app_assoc.
  - by rewrite Ha, Htn, Hpl, Hro.
  - rewrite !flat_map_app, Hseats. cbn [flat_map]. by rewrite !app_nil_r, Hsit.
  - intros q Hq. apply in_app_iff in Hq as [Hq|[<-|[]]]; [by apply Hrows|done].
Qed.

Lemma calm_insert_pairings o todo : forall done rows db,
  inserted done rows db -> List.NoDup (flat_map pairing_ids (done ++ todo)) ->
  (forall x, In x (flat_map pairing_ids todo) -> participant x) ->
  wp true o (insert_pairings tid n todo)
    (fun failure db' => failure = None /\ exists rows', inserted (done ++ todo) rows' db') db.
Proof.
  induction todo as [|p todo IH]; intros done rows db Hi Hnd Hpart; cbn [insert_pairings].
  - wp_step. split; [done|]. rewrite app_nil_r. by exists rows.
  - wp_step. rewrite flat_map_app in Hnd. cbn in Hnd, Hpart. rewrite app_assoc in Hnd.
    eapply wp_mono; [eapply calm_insert_pairing; [exact Hi| |]|].
    + by eapply NoDup_app_remove_r.
    + intros x Hx. apply Hpart, in_app_iff. by left.
    + intros ir db1 [[id ->] (rows1 & H1)]. cbn beta iota.
      eapply wp_mono; [apply (IH (done ++ [p]) rows1); [done| |]|].
      * rewrite !flat_map_app. cbn [flat_map]. by rewrite app_nil_r.
      * intros x Hx. apply Hpart, in_app_iff. by right.
      * intros failure db2. by rewrite <- app_assoc.
Qed.

Lemma inserted_rounds done rows db tid' n' :
  inserted done rows db -> ~ only tid n tid' n' -> round_of tid' n' db = round_of tid' n' db0.
Proof.
  intros [Hps _ _ Hrows] Hne.
  unfold round_of, pairings_of. rewrite Hps, !filter_app.
  enough (List.filter (fun p => pr_round p =? n') (List.filter (fun p => pr_tournament p =? tid') rows) = []) as ->
    by apply app_nil_r.
  rewrite filter_filter.
  destruct (List.filter _ rows) as [|p l] eqn:E; [done|]. exfalso.
  assert (In p (p :: l)) as Hp by by left. rewrite <- E in Hp. apply filter_In in Hp as [Hp Eb].
  destruct (Hrows p Hp) as [E1 E2]. bool_hyps. apply Hne. split; congruence.
Qed.

Lemma inserted_round done rows db : inserted done rows db -> round_of tid n db = rows.
Proof.
  intros [Hps _ _ Hrows]. unfold round_of, pairings_of. rewrite Hps, !filter_app.
  fold (pairings_of tid db0). fold (round_of tid n db0). rewrite Hempty. cbn. rewrite filter_filter.
  apply forallb_filter_id, forallb_forall. intros p Hp. destruct (Hrows p Hp) as [-> ->].
  by rewrite !Z.eqb_refl.
Qed.

Lemma inserted_fair done rows db :
  inserted done rows db -> List.NoDup (flat_map pairing_ids done) ->
  (forall x, In x (flat_map pairing_ids done) -> participant x) -> fair db.
Proof.
  intros Hi Hnd Hpart. pose proof Hi as [Hps [= Ha Htn Hpl Hro] Hseats Hrows].
  destruct Hfair0. constructor; unfold is_account, round_in; rewrite ?Htn, ?Hpl, ?Hro, ?Ha; auto.
  - intros p q Hp Hq. rewrite Hps in Hp. apply in_app_iff in Hp as [Hp|Hp]; [by apply f_seated0|].
    destruct (Hrows p Hp) as [-> _]. apply Hpart. rewrite <- Hseats. apply in_flat_map. by exists p.
  - intros tid' n'. destruct (decide (tid' = tid /\ n' = n)) as [[-> ->]|Hne].
    + by rewrite (inserted_round _ _ _ Hi), Hseats.
    + by rewrite (inserted_rounds _ _ _ _ _ Hi Hne).
Qed.
End deal.

Lemma totals_idem res ps tp : totals res ps (totals res ps tp) = totals res ps tp.
Proof. done. Qed.

(** The tables after the totals of [tid] were computed afresh. *)
Definition recomputed (tid : Z) (db : Tables) : Tables :=
  with_players (update (fun tp => tp_tournament tp =? tid) (totals pr_result (pairings db)) (players db)) db.

Lemma recomputed_fair tid db : fair db -> fair (recomputed tid db).
Proof.
  intros []. constructor; cbn [recomputed with_players players tournaments pairings]; auto.
  - by rewrite map_update.
  - intros tp Htp. apply in_update in Htp as (tp0 & Htp & ->).
    destruct (tp_tournament tp0 =? tid); exact (f_owner0 _ Htp).
  - intros p q Hp Hq. destruct (f_seated0 p q Hp Hq) as (tp & Htp & E1 & E2).
    eexists. split; [apply in_update; exists tp; split; [done|reflexivity]|].
    by destruct (tp_tournament tp =? tid).
Qed.

Lemma recomputed_totalled tid n db0 done rows db :
  totalled db0 -> inserted tid n db0 done rows db -> totalled (recomputed tid db).
Proof.
  intros H0 Hi tp Htp. pose proof Hi as [Hps [= _ _ Hpl _] _ Hrows].
  apply in_update in Htp as (tp0 & Htp & ->). cbn [recomputed with_players pairings].
  destruct (Z.eqb_spec (tp_tournament tp0) tid) as [E|E]; [done|].
  rewrite Hpl in Htp. rewrite <- (H0 tp0 Htp) at 2. apply totals_local. rewrite Hps, filter_app.
  enough (List.filter (fun pr => pr_tournament pr =? tp_tournament tp0) rows = []) as -> by apply app_nil_r.
  destruct (List.filter _ rows) as [|p l] eqn:Ef; [done|]. exfalso.
  assert (In p (p :: l)) as Hp by by left. rewrite <- Ef in Hp. apply filter_In in Hp as [Hp Eb].
  destruct (Hrows p Hp) as [Et _]. bool_hyps. congruence.
Qed.

(** What [generate_round_pairings] deals. *)
Definition dealt_to (tid n : Z) (db : Tables) (t : StoredTournament) : list Pairing :=
  dealt_pairings (is_elimination t) (isort player_before (participants_of tid db))
    (isort pairing_before (pairings_of tid db)) n.

Lemma calm_generate o tid n t db :
  almost tid n db -> pairable tid db n -> round_of tid n db = [] ->
  In t (tournaments db) -> t_id t = tid -> 0 < n ->
  wp true o (generate_round_pairings tid n) (fun r db' => settled db' /\
    (participants_of tid db <> [] -> dealt_to tid n db t <> [] ->
     r = Fine /\ flat_map sitters (round_of tid n db') = flat_map pairing_ids (dealt_to tid n db t))) db.
Proof.
  intros Ha Hp Hempty Ht Hid Hn. pose proof (a_coherent _ _ _ Ha) as Hdb. pose proof (a_fair _ _ _ Ha) as Hf.
  assert (settled db) as Hs.
  { destruct Ha. split; [done|done|done|]. apply (flows_everywhere tid n); [done|].
    intros [Hne _]. by rewrite Hempty in Hne. }
  unfold generate_round_pairings. wp_step. apply wp_find_tournament; [|done].
  assert (tournaments_of tid db = [t]) as Eone.
  { destruct (filter_key t_id (tournaments db) tid (c_tournaments _ Hdb)) as [E|[t' E]].
    - assert (In t (tournaments_of tid db)) as Hin by (apply filter_In; by rewrite Z.eqb_eq).
      unfold tournaments_of in Hin. by rewrite E in Hin.
    - assert (In t (tournaments_of tid db)) as Hin by (apply filter_In; by rewrite Z.eqb_eq).
      unfold tournaments_of in *. rewrite E in *. by destruct Hin as [->|[]]. }
  rewrite Eone. cbn [head]. wp_step. apply wp_get_participants; [|done]. cbn beta.
  pose proof (Permutation_length (isort_perm player_before (participants_of tid db))) as Hlen.
  destruct (Nat.eqb_spec (length (isort player_before (participants_of tid db))) 0) as [E|_].
  { wp_step. split; [done|]. intros Hne. rewrite Hlen in E. by apply length_zero_iff_nil in E. }
  wp_step. apply wp_get_pairings; [|done]. cbv zeta. fold (dealt_to tid n db t).
  destruct (Nat.eqb_spec (length (dealt_to tid n db t)) 0) as [E|_].
  { wp_step. split; [done|]. intros _ Hne. by apply length_zero_iff_nil in E. }
  destruct (dealt_ids tid n db Hf (is_elimination t)) as [Hnd Hsub]. fold (dealt_to tid n db t) in Hnd, Hsub.
  assert (forall x, In x (flat_map pairing_ids (dealt_to tid n db t)) -> participant tid db x) as Hpart.
  { intros x Hx. by apply is_participant, Hsub. }
  wp_step. eapply wp_mono; [apply wp_both; [by apply (wp_insert_pairings o nobody)|]|].
  { apply (calm_insert_pairings tid n db Hf Hempty t Ht Hid Hn o (dealt_to tid n db t) [] [] db); [|done|done].
    constructor; [by rewrite app_nil_r|done|done|done]. }
  intros failure db1 [[Hp1 _] (-> & rows & Hi)]. cbn beta iota. cbn [app] in Hi.
  wp_step. eapply wp_mono; [apply wp_both; [apply (wp_recompute o nobody), Hp1|]|].
  { instantiate (1 := fun ok db2 => ok = true /\ db2 = recomputed tid db1).
    unfold recompute_participant_totals. wp_step. apply wp_done. intros now.
    eexists _, _. split; [reflexivity|]. by wp_step. }
  intros ok db2 [Hp2 [-> ->]]. cbn beta iota.
  assert (almost tid n (recomputed tid db1)) as Ha2.
  { split.
    - apply Hp2.
    - apply recomputed_fair. by eapply inserted_fair.
    - eapply recomputed_totalled; [apply Ha|done].
    - eapply flows_evolves; [eapply evolves_trans; [apply Hp1|apply Hp2]| |apply Ha].
      intros tid' n' Hne Hd. rewrite <- (inserted_rounds tid n db _ rows db1 tid' n' Hi Hne). exact Hd. }
  eapply wp_mono; [by apply calm_maybe_advance|]. intros r db3 ((Hs3 & Hsame) & Hr).
  split; [done|]. intros _ _. split.
  - apply Hr. unfold tournaments_of. cbn [recomputed with_players tournaments].
    destruct Hi as [_ [= _ -> _ _] _ _]. fold (tournaments_of tid db). by rewrite Eone.
  - rewrite (same_decided _ _ _ _ Hsame). change (round_of tid n (recomputed tid db1)) with (round_of tid n db1).
    rewrite (inserted_round tid n db Hempty _ rows db1 Hi). by destruct Hi.
Qed.

(** ** Starting a round *)

Lemma settled_same free db db' :
  settled db -> kept free db db' -> fair db' -> same_results db db' -> settled db'.
Proof.
  intros [] [Hc He] Hf Hs. split; [done|done|by eapply same_totalled|].
  eapply flows_evolves; [done| |done]. intros tid n _. by rewrite (same_decided _ _ _ _ Hs).
Qed.

(** The pairings a started round gets. *)
Definition started (tid n : Z) (t : StoredTournament) (db db' : Tables) : Prop :=
  flat_map sitters (round_of tid n db') = flat_map pairing_ids (dealt_to tid n db t).

Lemma dealt_to_terms tid n db t t' : terms t' = terms t -> dealt_to tid n db t' = dealt_to tid n db t.
Proof. intros E. unfold dealt_to, is_elimination. injection E. intros. congruence. Qed.

Lemma dealt_to_same tid n db db' t : same_results db db' -> dealt_to tid n db' t = dealt_to tid n db t.
Proof. intros (Hp & Hl & _). unfold dealt_to, participants_of, pairings_of. by rewrite Hp, Hl. Qed.

Lemma calm_start_due_round o tid n now_unix t db :
  settled db -> In t (tournaments db) -> t_id t = tid -> t_status t <> "completed" ->
  wp true o (start_due_round tid n now_unix) (fun r db' => settled db' /\
    (existsb (startable tid n now_unix db) (rounds db) = true ->
     round_of tid n db = [] -> participants_of tid db <> [] -> dealt_to tid n db t <> [] ->
     r = Fine /\ started tid n t db db')) db.
Proof.
  intros Hs Ht Hid Hopen. pose proof (s_coherent _ Hs) as Hdb. unfold start_due_round. wp_step.
  apply wp_done. intros now. eexists _, _. split; [reflexivity|].
  match goal with |- context [wp _ _ _ _ ?d] => set (db1 := d) end.
  destruct (claim_round_proceeds nobody tid n now_unix now db db1 _ Hdb eq_refl) as (Hp1 & Et1 & Hlive).
  assert (settled db1) as Hs1.
  { eapply settled_same; [done|by eapply kept_proceeds| |done]. by apply fair_rounds_update; [apply Hs|]. }
  cbn beta iota.
  destruct (map tr_round (List.filter (startable tid n now_unix db) (rounds db))) as [|k l] eqn:Ec.
  { wp_step. split; [done|]. intros E. apply existsb_exists in E as (r & Hr & E).
    assert (In (tr_round r) (map tr_round (List.filter (startable tid n now_unix db) (rounds db)))) as Hr'
      by by apply in_map, filter_In. by rewrite Ec in Hr'. }
  destruct (Hlive ltac:(done)) as [Hin Hnc]. clear Hlive.
  assert (0 < n <= t_rounds t) as Hn.
  { destruct Hin as (r & Hr & Hk & _). injection Hk as Hk1 Hk2. split.
    - rewrite <- Hk2. by apply (c_positive _ (s_coherent _ Hs1)).
    - rewrite <- Hk2. apply (f_rounds _ (s_fair _ Hs1)); [done|by rewrite Et1|congruence]. }
  wp_step. eapply wp_mono; [apply wp_both; [apply (wp_set_status o nobody); [apply Hs1|done|]|
    apply (calm_set_status o tid _ t); [apply Hs1|by rewrite Et1|done|done]]|].
  { intros t' Ht' Hid'. rewrite Et1 in Ht'.
    rewrite (same_key t_id (tournaments db) t' t (c_tournaments _ Hdb) Ht' Ht ltac:(congruence)).
    unfold status_rank. destruct (String.eqb_spec (t_status t) "completed"); [done|].
    cbn. destruct (String.eqb _ _); lia. }
  intros ok db2 [(Hp2 & Hr2 & Hst2) (-> & Hf2 & Hsame2 & _ & t2 & Ht2 & Hterms2 & Hs2 & Hr2')].
  specialize (Hst2 eq_refl). cbn beta iota. cbn [negb].
  assert (t_id t2 = tid) as Hid2 by (injection Hterms2; congruence).
  pose proof (settled_same _ _ _ Hs1 (kept_proceeds _ _ _ _ Hp2) Hf2 Hsame2) as Hs2'.
  wp_step. eapply wp_mono; [apply wp_both; [apply (wp_set_round o nobody), Hs2'|
    apply (calm_set_round o tid n db2 t2); [done|apply Hs2'|done|done|lia]]|].
  intros ok db3 [(Hp3 & Hr3 & Ht3) (-> & Hf3 & Hsame3 & _ & t3 & Ht3' & Hterms3 & _)]. cbn beta iota. cbn [negb].
  pose proof (settled_same _ _ _ Hs2' (kept_proceeds _ _ _ _ Hp3) Hf3 Hsame3) as Hs3.
  assert (same_results db db3) as Hsame by (eapply same_results_trans; [exact Hsame2|done]).
  assert (round_of tid n db3 = round_of tid n db) as Eround by by apply same_decided.
  wp_step. apply wp_get_round; [|done]. rewrite Eround.
  pose proof (isort_perm (fun a b => pr_id a <? pr_id b) (round_of tid n db)) as Hperm.
  destruct (isort _ _) as [|q qs] eqn:Eq.
  - apply Permutation_nil in Hperm.
    assert (t_id t3 = tid) as Hid3 by (injection Hterms3; congruence).
    eapply wp_mono; [apply (calm_generate o tid n t3); [by apply settled_almost| |by rewrite Eround|done|done|lia]|].
    + unfold pairable, round_in. rewrite Hr3, Hr2. split; [|split; [done|]].
      * destruct Hin as (r & Hr & Hk & Hsl). exists r. rewrite <- Hsl. split; [done|]. split; [done|by right].
      * intros t' Ht' Hid'. destruct (Ht3 t' Ht') as (t0 & Ht0 & E & <-). rewrite Hst2; [done|done|congruence].
    + intros r db4 [Hs4 Hdealt]. split; [done|]. intros _ _ Hne Hd.
      assert (dealt_to tid n db3 t3 = dealt_to tid n db t) as E.
      { rewrite (dealt_to_same _ _ db); [|done]. apply dealt_to_terms. congruence. }
      unfold started. rewrite <- E. apply Hdealt; [|by rewrite E].
      destruct Hsame as (_ & Hl & _). unfold participants_of in *. by rewrite Hl.
  - wp_step. split; [done|]. intros _ E. rewrite E in Hperm. by apply Permutation_sym, Permutation_nil in Hperm.
Qed.

(** ** Forfeits and results *)

Lemma no_show_ok p b w c r now :
  pairing_ok p = true -> pr_black p = Some b -> no_show_result w c = Some r ->
  r <> "pending" /\ pairing_ok (with_result r "forfeit" now p) = true.
Proof.
  intros Hok Hb E. unfold pairing_ok in *. cbn. rewrite Hb in *.
  repeat apply andb_prop in Hok as [Hok ?]. rewrite Hok. destruct w, c; cbn in E; try discriminate E; by injection E as <-.
Qed.

Lemma calm_forfeit_absent o tid n checked ps db :
  almost tid n db -> List.NoDup (map pr_id ps) -> (forall p, In p ps -> In p (round_of tid n db)) ->
  wp true o (forfeit_absent checked ps) (fun failure db' => failure = None /\ almost tid n db') db.
Proof.
  revert db. induction ps as [|p ps IH]; intros db Ha Hnd Hps; cbn [forfeit_absent]; [by wp_step|].
  cbn in Hnd. apply NoDup_cons_iff in Hnd as [Hnot Hnd].
  assert (wp true o (forfeit_absent checked ps) (fun failure db' => failure = None /\ almost tid n db') db) as Hskip
    by (apply IH; auto; intros q Hq; apply Hps; by right).
  destruct (pr_black p) as [b|] eqn:Eb; [|done].
  destruct (is_pending p) eqn:Ep; cbn [negb]; [|done].
  destruct (no_show_result _ _) as [r|] eqn:Er; [|done].
  destruct (proj1 (round_of_in _ _ _ _) (Hps p (or_introl eq_refl))) as (Hp & E1 & E2).
  pose proof (fun now => no_show_ok p b _ _ r now (c_shape _ (a_coherent _ _ _ Ha) p Hp) Eb Er) as Hok.
  wp_step. eapply wp_mono; [apply (calm_set_result o tid n p r "forfeit"); try done|].
  - by destruct (Hok 0).
  - intros now. by destruct (Hok now).
  - intros ok db1 (-> & Ha1 & Hstay). cbn beta iota. apply IH; [done|done|].
    intros q Hq. destruct (proj1 (round_of_in _ _ _ _) (Hps q (or_intror Hq))) as (Hq' & E3 & E4).
    apply round_of_in. split; [|done]. apply Hstay; [done|]. intros E. apply Hnot. rewrite <- E. by apply in_map.
Qed.

Lemma calm_adjudicate o tid n db :
  settled db -> wp true o (adjudicate_no_shows tid n) (fun _ db' => settled db') db.
Proof.
  intros Hs. unfold adjudicate_no_shows. wp_step. apply wp_checkins_any. intros checked. wp_step.
  apply wp_get_round; [|done]. wp_step.
  pose proof (isort_perm (fun a b => pr_id a <? pr_id b) (round_of tid n db)) as Hperm.
  eapply wp_mono; [apply (calm_forfeit_absent o tid n); [by apply settled_almost| |]|].
  - apply (Permutation_NoDup (l := map pr_id (round_of tid n db))); [apply Permutation_map; by symmetry|].
    apply NoDup_map_filter, NoDup_map_filter. apply (s_coherent _ Hs).
  - intros p. by apply Permutation_in.
  - intros failure db1 [-> Ha]. cbn beta iota.
    eapply wp_mono; [by apply calm_maybe_advance|]. by intros r db2 [[H _] _].
Qed.

Lemma result_ok p result source now :
  pairing_ok p = true -> is_pending p = true -> one_of result game_results = true ->
  one_of source ["manual"; "game"; "forfeit"; "bye"; "override"] = true ->
  result <> "pending" /\ pairing_ok (with_result result source now p) = true.
Proof.
  intros Hok Hp Hr Hsrc. split; [by apply game_result_decided|]. unfold pairing_ok in *. cbn.
  cbn in Hsrc. rewrite Hsrc. repeat apply andb_prop in Hok as [Hok ?]. rewrite Hok.
  unfold is_pending in Hp. apply String.eqb_eq in Hp. rewrite Hp in *.
  unfold one_of, game_results in Hr. cbn in Hr.
  destruct (pr_black p); [|done].
  destruct (String.eqb_spec result "1-0") as [->|]; [done|].
  destruct (String.eqb_spec result "0-1") as [->|]; [done|].
  by destruct (String.eqb_spec result "1/2-1/2") as [->|].
Qed.

Lemma calm_record_and_advance o p result source db :
  settled db -> In p (pairings db) -> is_pending p = true -> one_of result game_results = true ->
  one_of source ["manual"; "game"; "forfeit"; "bye"; "override"] = true ->
  wp true o (set_pairing_result (pr_id p) result source) (fun done db1 => done = true /\
    wp true o (maybe_advance_after_result (pr_tournament p) (pr_round p)) (fun _ db' => settled db') db1) db.
Proof.
  intros Hs Hp Hpend Hr Hsrc.
  pose proof (fun now => result_ok p result source now (c_shape _ (s_coherent _ Hs) p Hp) Hpend Hr Hsrc) as Hok.
  eapply wp_mono; [apply (calm_set_result o (pr_tournament p) (pr_round p)); try done|].
  - by apply settled_almost.
  - by destruct (Hok 0).
  - intros now. by destruct (Hok now).
  - intros ok db1 (-> & Ha1 & _). split; [done|].
    eapply wp_mono; [by apply calm_maybe_advance|]. by intros r db2 [[H _] _].
Qed.

Lemma calm_report_result o id result db :
  settled db -> wp true o (report_result id result) (fun _ db' => settled db') db.
Proof.
  intros Hs. unfold report_result. wp_step. wp_step; [|done]. cbn [rows_of].
  destruct (List.filter _ _) as [|p l] eqn:Ep; [by wp_step|].
  assert (In p (pairings db) /\ pr_id p = id) as [Hp Hid].
  { assert (In p (p :: l)) as H by by left. rewrite <- Ep in H. by rewrite filter_In, Z.eqb_eq in H. }
  destruct (is_pending p) eqn:Hpend; cbn [negb]; [|by wp_step]. cbv zeta.
  destruct (one_of result game_results) eqn:Eg; cbn [negb andb].
  - destruct (negb (Bool.eqb _ _)); [by wp_step|]. wp_step.
    eapply wp_mono; [by apply calm_record_and_advance|]. by intros ok db1 [-> H].
  - destruct (String.eqb_spec result "bye") as [->|]; cbn [negb]; [|by wp_step].
    assert (is_Some (pr_black p)) as [b ->].
    { pose proof (c_shape _ (s_coherent _ Hs) p Hp) as Hok. unfold pairing_ok in Hok.
      apply andb_prop in Hok as [_ Hok]. destruct (pr_black p); [by eexists|].
      unfold is_pending in Hpend. apply String.eqb_eq in Hpend. by rewrite Hpend in Hok. }
    cbn. by wp_step.
Qed.

Lemma calm_record_game_result o id result db :
  settled db -> wp true o (record_game_result id result) (fun _ db' => settled db') db.
Proof.
  intros Hs. unfold record_game_result. destruct (one_of result game_results) eqn:Eg; cbn [negb]; [|by wp_step].
  wp_step. apply wp_find_pairing; [|done]. destruct (head _) as [p|] eqn:Eh; [|by wp_step].
  apply head_in in Eh. rewrite filter_In, Z.eqb_eq in Eh. destruct Eh as [Hp <-].
  destruct (is_pending p) eqn:Hpend; cbn [negb]; [|by wp_step]. wp_step.
  eapply wp_mono; [by apply calm_record_and_advance|]. by intros ok db1 [-> H].
Qed.

(** Outside a transaction the override may be refused, and changes nothing then. *)
Lemma calm_override id actor result reason p db :
  settled db -> In p (pairings db) -> pr_id p = id -> result <> "pending" ->
  wp true None (audit_and_override_result id actor result reason) (fun ok db1 =>
    if ok : bool then wp true None (maybe_advance_after_result (pr_tournament p) (pr_round p))
                        (fun _ db' => settled db') db1
    else settled db1) db.
Proof.
  intros Hs Hp Hid Hres. pose proof (settled_almost (pr_tournament p) (pr_round p) db Hs) as [Hdb Hf Ht _].
  unfold audit_and_override_result. wp_step. apply wp_tried; [intros e; by wp_step|].
  intros now db1 k E. unfold sql_override in E. set (hit := fun q => pr_id q =? id) in E.
  destruct (forallb pairing_ok _ && _) eqn:Eok; [|done].
  assert (hit p = true) as Hhit by by apply Z.eqb_eq.
  assert (forall q, hit q = true -> pr_id q = pr_id p) as Hone by (intros q Eq; apply Z.eqb_eq in Eq; congruence).
  cbn [recount] in E. injection E as E1 E2. wp_step. rewrite <- E2.
  pose proof (changed_affected db Hdb Hf p Hp hit Hhit Hone result "override" now) as Haff.
  unfold recount. cbn [fst snd]. rewrite Haff. clear Haff.
  assert (almost (pr_tournament p) (pr_round p) db1) as Ha.
  { assert (pairings db1 = changed_pairings db hit result "override" now) as Eps by by rewrite <- E1.
    eapply (changed_almost (pr_tournament p) (pr_round p) db p hit result "override" now db1); try done.
    - by apply settled_almost.
    - apply andb_prop in Eok as [Eok _].
      assert (proceeds (eq (pr_id p)) (pr_tournament p) db
        (with_pairings (update hit (with_result result "override" now) (pairings db)) db)) as H1.
      { apply pairings_proceed; [done|done| | |done].
        - intros q Hq Eq. by rewrite (hit_is_p db Hdb p Hp hit Hone q Hq Eq).
        - intros q Eq _. split; [by apply String.eqb_neq|left; symmetry; by apply Hone]. }
      pose proof (players_proceed (eq (pr_id p)) (pr_tournament p) _ (pc_coherent _ _ _ _ H1)
        (fun tp => existsb (fun q => pr_tournament q =? tp_tournament tp)
           (updated hit (with_result result "override" now) (pairings db)))
        (totals (effective id result) (pairings db)) (fun _ => eq_refl)) as H2.
      eapply proceeds_trans; [apply H1|]. eapply proceeds_trans; [apply H2|]. rewrite <- E1.
      by apply others_proceed; [apply H2|..].
    - rewrite <- E1. apply fair_overrides. rewrite <- Hid. by apply (changed_fair db Hf).
    - intros tp Htp. rewrite <- E1 in Htp |- *. rewrite <- Hid in Htp |- *.
      exact (changed_totalled db Hdb Ht p Hp hit Hhit Hone result "override" now tp Htp). }
  eapply wp_mono; [by apply calm_maybe_advance|]. by intros r db2 [[H _] _].
Qed.

Lemma calm_override_result id initiator result reason db :
  settled db -> wp true None (override_result id initiator result reason) (fun _ db' => settled db') db.
Proof.
  intros Hs. unfold override_result. destruct (String.eqb reason ""); [by wp_step|].
  destruct (negb (one_of result game_results) && negb (String.eqb result "double_forfeit")) eqn:E; [by wp_step|].
  wp_step. wp_step; [|done]. cbn [rows_of].
  destruct (pairing_owner id db) as [|[[tid n] creator] l] eqn:Ep; [by wp_step|].
  assert (exists p, In p (pairings db) /\ pr_id p = id /\ pr_tournament p = tid /\ pr_round p = n) as
    (p & Hp & Hid & Et & Er).
  { assert (In (tid, n, creator) (pairing_owner id db)) as Hin by (rewrite Ep; by left).
    apply in_flat_map in Hin as (p & Hp & Hin). apply in_map_iff in Hin as (t & [= <- <- _] & _).
    rewrite filter_In, Z.eqb_eq in Hp. exists p. tauto. }
  destruct (negb (_ =? _)); [by wp_step|]. wp_step.
  assert (wp true None (done ← audit_and_override_result id initiator result reason;
            if done : bool then maybe_advance_after_result tid n else mret (Failed "override_failed"))
            (fun _ db' => settled db') db) as Hrest.
  { wp_step. eapply wp_mono; [apply (calm_override id initiator result reason p); try done|].
    - intros ->. discriminate E.
    - intros ok db1. rewrite Et, Er. destruct ok; [done|]. intros H. by wp_step. }
  apply wp_find_tournament; [|done].
  destruct (head _) as [t|]; [|done]. cbn beta iota. destruct (is_elimination t && _); [by wp_step|done].
Qed.

(** ** Registration *)

(** Changes of tournament rows that leave rounds, results and players alone. *)
Lemma settled_tournaments db hit f :
  settled db -> (forall t, terms (f t) = terms t) ->
  (forall t, In t (tournaments db) -> hit t = true ->
     status_rank (t_status t) <= status_rank (t_status (f t)) /\ tournament_ok (f t) = true /\
     t_rounds (f t) = t_rounds t /\
     (t_status (f t) = "registration" -> t_status t = "registration" \/ pairings_of (t_id t) db = [])) ->
  settled (with_tournaments (update hit f (tournaments db)) db).
Proof.
  intros Hs Hterms Hhit. apply (settled_same nobody db); [done| | |done].
  - apply tournaments_kept; [apply Hs|done| |]; intros t Ht E; by apply Hhit.
  - apply fair_tournaments_update; [apply Hs|done|]. intros t Ht E.
    destruct (Hhit t Ht E) as (_ & Hok & Hr & _). split; [done|]. rewrite Hr. split; [lia|done].
Qed.

Lemma checked_updated {R} (hit : R -> bool) f ok rows r :
  forallb ok (updated hit f rows) = true -> In r rows -> hit r = true -> ok (f r) = true.
Proof.
  rewrite forallb_forall. intros H Hr E. by apply H, in_map, filter_In.
Qed.

Lemma calm_set_registration_open tid open now db :
  settled db -> wp true None (set_registration_open tid open now) (fun _ db' => settled db') db.
Proof.
  intros Hs. unfold set_registration_open. wp_step. apply wp_tried; [intros e; by wp_step|].
  intros now' db1 n E. unfold sql_set_registration_open in E. statement E. wp_step.
  apply settled_tournaments; [done|by intros t; destruct open|]. intros t Ht E.
  destruct (registration_hit _ _ _ _ _ E) as (Hid & -> & Hnone). split; [by destruct open|].
  split; [exact (checked_updated _ _ _ _ _ Heqb Ht E)|]. split; [by destruct open|].
  destruct open; [|done]. intros _. right. rewrite Hid. by apply Hnone.
Qed.

Lemma close_settled now now' db db' r :
  settled db -> sql_close_registrations now now' db = Some (db', r) -> settled db'.
Proof.
  intros Hs E. unfold sql_close_registrations in E. statement E.
  apply settled_tournaments; [done|done|]. intros t Ht E. split; [|split; [|split; [done|done]]].
  - apply andb_prop in E as [E _]. apply String.eqb_eq in E. by rewrite E.
  - exact (checked_updated _ _ _ _ _ Heqb Ht E).
Qed.

(** A player who enters has nothing to count yet; one who leaves is in no pairing. *)
Lemma unpaired_totals tid p elo db :
  pairings_of tid db = [] -> totals pr_result (pairings db) (mkPlayer tid p elo 0 0 false false) =
    mkPlayer tid p elo 0 0 false false.
Proof. intros H. unfold totals. cbn. unfold pairings_of in H. by rewrite H. Qed.

Lemma add_participant_settled tid p elo now_unix now db db' r :
  settled db -> sql_add_participant tid p elo now_unix now db = Some (db', r) -> settled db'.
Proof.
  intros Hs E. pose proof (s_coherent _ Hs) as Hdb. pose proof (s_fair _ Hs) as Hf.
  unfold sql_add_participant in E. destruct (_ && _) eqn:Ea; [|by injection E as <- _].
  destruct (is_account db p) eqn:Eacc; [|done]. injection E as <- _. apply andb_prop in Ea as [Ea Enew].
  assert (pairings_of tid db = []) as Hnone.
  { apply registration_unpaired; [done|]. apply existsb_exists in Ea as (t & Ht & E).
    apply existsb_exists. exists t. split; [done|]. repeat apply andb_prop in E as [E ?]. by apply andb_true_iff. }
  split.
  - destruct Hdb. by constructor.
  - destruct Hf. constructor; cbn [with_players players tournaments pairings]; auto.
    + rewrite map_app. apply NoDup_app; [done|repeat constructor; by intros []|].
      intros k Hk [<-|[]]. apply in_map_iff in Hk as (tp & [= E1 E2] & Htp).
      apply negb_true_iff, not_true_iff_false in Enew. apply Enew, existsb_exists. exists tp. split; [done|].
      unfold is_player. by rewrite E1, E2, !Z.eqb_refl.
    + intros tp Htp. apply in_app_iff in Htp as [Htp|[<-|[]]]; [exact (f_owner0 _ Htp)|done].
    + intros q x Hq Hx. destruct (f_seated0 q x Hq Hx) as (tp & Htp & ?). exists tp.
      split; [apply in_app_iff; by left|done].
  - intros tp Htp. cbn in Htp. apply in_app_iff in Htp as [Htp|[<-|[]]]; [by apply (s_totals _ Hs)|].
    by apply unpaired_totals.
  - intros k n Hk Hd. by apply (s_flows _ Hs).
Qed.

Lemma remove_participant_settled tid p now_unix now db db' r :
  settled db -> sql_remove_participant tid p now_unix now db = Some (db', r) -> settled db'.
Proof.
  intros Hs [= <- _]. pose proof (s_coherent _ Hs) as Hdb. split.
  - destruct Hdb. by constructor.
  - destruct (s_fair _ Hs). constructor; cbn [with_players players tournaments pairings]; auto.
    + by apply NoDup_map_filter.
    + intros tp Htp. apply filter_In in Htp as [Htp _]. exact (f_owner0 _ Htp).
    + intros q x Hq Hx. destruct (f_seated0 q x Hq Hx) as (tp & Htp & E1 & E2). exists tp.
      split; [|done]. apply filter_In. split; [done|]. apply negb_true_iff, not_true_iff_false. intros E.
      apply andb_prop in E as [E Er]. apply andb_prop in E as [E _]. apply Z.eqb_eq in E.
      assert (pairings_of tid db = []) as Hnone.
      { apply registration_unpaired; [done|]. apply existsb_exists in Er as (t & Ht & Et).
        apply existsb_exists. exists t. split; [done|]. repeat apply andb_prop in Et as [Et ?]. by apply andb_true_iff. }
      assert (In q (pairings_of tid db)) as Hin by (apply pairings_of_in; split; [done|congruence]).
      by rewrite Hnone in Hin.
  - intros tp Htp. cbn in Htp. apply filter_In in Htp as [Htp _]. by apply (s_totals _ Hs).
  - intros k n Hk Hd. by apply (s_flows _ Hs).
Qed.

Lemma check_in_settled tid n p now_unix now db db' r :
  settled db -> sql_check_in tid n p now_unix now db = Some (db', r) -> settled db'.
Proof.
  intros Hs E. unfold sql_check_in in E. destruct (_ && _); injection E as <- _; [|done].
  destruct Hs as [[] [] ? ?]. split; [by constructor|by constructor|done|done].
Qed.

(** The rooms of the games do not count. *)
Lemma game_settled hit f db :
  settled db -> (forall p, meeting (f p) = meeting p) -> (forall p, pr_result (f p) = pr_result p) ->
  (forall p, pr_source (f p) = pr_source p) -> (forall p q, hit p = true -> hit q = true -> pr_id p = pr_id q) ->
  settled (with_pairings (update hit f (pairings db)) db).
Proof.
  intros Hs Hm Hr Hsrc Hone. pose proof (game_kept nobody hit f db (s_coherent _ Hs) Hm Hr Hsrc Hone) as [Hc He].
  assert (forall p, meeting (if hit p then f p else p) = meeting p /\
            pr_result (if hit p then f p else p) = pr_result p) as Hsame by (intros p; by destruct (hit p)).
  assert (forall k n, round_of k n (with_pairings (update hit f (pairings db)) db) =
    map (fun q => if hit q then f q else q) (round_of k n db)) as Hround.
  { intros k n. unfold round_of, pairings_of. cbn. unfold update.
    rewrite !filter_map_same; [done| |]; intros q _; destruct (Hsame q) as [E _]; injection E; intros; congruence. }
  split; [done| | |].
  - destruct (s_fair _ Hs). constructor; cbn [with_pairings players tournaments pairings]; auto.
    + intros p q Hp Hq. apply in_update in Hp as (p0 & Hp & ->). destruct (Hsame p0) as [E _].
      injection E as _ Et _ Ew Eb. unfold sitters in Hq. rewrite Ew, Eb in Hq. rewrite Et. by apply f_seated0.
    + intros k n. rewrite Hround, flat_map_concat_map, map_map.
      erewrite map_ext; [rewrite <- flat_map_concat_map; apply f_once0|].
      intros q. destruct (Hsame q) as [E _]. injection E as _ _ _ Ew Eb. unfold sitters. by rewrite Ew, Eb.
  - intros tp Htp. rewrite <- (s_totals _ Hs tp Htp) at 2. apply totals_map. intros p _. apply Hsame.
  - eapply flows_evolves; [done| |apply Hs]. intros k n _ [Hne Hd]. rewrite Hround in Hne, Hd. split.
    + intros E. by rewrite E in Hne.
    + intros p Hp. specialize (Hd _ (in_map _ _ _ Hp)). unfold is_pending in *.
      by rewrite (proj2 (Hsame p)) in Hd.
Qed.

(** ** The public methods *)

Ltac use_find := wp_step; apply wp_find_tournament; [|done];
  match goal with |- context [head ?l] => destruct (head l) as [t|]; [|by wp_step] end.

Lemma calm_join tid p elo db :
  settled db -> wp true None (join tid p elo) (fun _ db' => settled db') db.
Proof.
  intros Hs. unfold join. use_find. destruct (_ || _); [by wp_step|]. wp_step. wp_step.
  destruct (_ <=? _); [by wp_step|]. wp_step. wp_step. unfold add_participant. cbv zeta. wp_step.
  apply wp_tried; [intros e; by wp_step|]. intros now1 db1 r E.
  pose proof (add_participant_settled _ _ _ _ _ _ _ _ Hs E). destruct r; [|by wp_step]. wp_step. wp_step; by wp_step.
Qed.

Lemma calm_leave tid p db :
  settled db -> wp true None (leave tid p) (fun _ db' => settled db') db.
Proof.
  intros Hs. unfold leave. use_find. destruct (_ || _); [by wp_step|]. wp_step. wp_step.
  destruct (_ <=? _); [by wp_step|]. wp_step. wp_step. unfold remove_participant. wp_step.
  apply wp_tried; [intros e; by wp_step|]. intros now1 db1 r E.
  pose proof (remove_participant_settled _ _ _ _ _ _ _ Hs E). destruct r; [|by wp_step]. wp_step. wp_step; by wp_step.
Qed.

Lemma calm_set_registration tid initiator open db :
  settled db -> wp true None (set_registration tid initiator open) (fun _ db' => settled db') db.
Proof.
  intros Hs.
  assert (wp true None (apply_registration tid open) (fun _ db' => settled db') db) as Happly.
  { unfold apply_registration. wp_step. wp_step. wp_step.
    eapply wp_mono; [by apply calm_set_registration_open|]. intros ok db1 Hs1. cbn beta.
    destruct ok; [by wp_step|]. unfold reopen_error. destruct open; [|by wp_step]. wp_step.
    apply wp_find_tournament; [by wp_step|done]. }
  unfold set_registration. use_find.
  destruct (negb (_ =? _)); [by wp_step|]. destruct (negb (one_of _ _)); [by wp_step|].
  destruct (negb open); [done|]. wp_step. wp_step.
  destruct (_ <=? _); [by wp_step|]. wp_step. wp_step. destruct (_ <=? _); [by wp_step|]. wp_step.
  apply wp_round_any. intros [|first l] _; [done|by wp_step].
Qed.

Lemma calm_start tid initiator db :
  settled db -> wp true None (start tid initiator) (fun _ db' => settled db') db.
Proof.
  intros Hs. unfold start. use_find.
  destruct (negb (String.eqb _ _)); [by wp_step|]. destruct (negb (_ =? _)); [by wp_step|]. wp_step.
  apply wp_participants_any. intros l. destruct (_ <? _)%nat; [by wp_step|]. by apply calm_set_registration.
Qed.

Lemma calm_check_in tid n p db :
  settled db -> wp true None (check_in tid n p) (fun _ db' => settled db') db.
Proof.
  intros Hs.
  assert (wp true None (check_in_paired tid n p) (fun _ db' => settled db') db) as Hpaired.
  { unfold check_in_paired. wp_step. apply wp_round_any. intros l _.
    destruct (existsb _ l); [by wp_step|]. wp_step. wp_step. unfold check_in_player. wp_step.
    apply wp_tried; [intros e; by wp_step|]. intros now' db1 r E.
    pose proof (check_in_settled _ _ _ _ _ _ _ _ Hs E). destruct r; [|by wp_step]. wp_step. wp_step; by wp_step. }
  unfold check_in. destruct (n <=? 0); [by wp_step|]. wp_step.
  apply wp_find_tournament; [|done]. destruct (_ && _); [|done]. wp_step. apply wp_round_any. intros l _.
  destruct (existsb _ l); [done|by wp_step].
Qed.

Lemma calm_set_game id game db :
  settled db -> wp true None (set_pairing_game_id id game) (fun _ db' => settled db') db.
Proof.
  intros Hs. unfold set_pairing_game_id. wp_step. apply wp_tried; [intros e; by wp_step|].
  intros now db1 r E. wp_step. unfold sql_set_game in E. statement E. apply game_settled; try done.
  intros p q Hp Hq. bool_hyps. congruence.
Qed.

Lemma calm_set_replay id game db :
  settled db -> wp true None (set_pairing_replay_game_id id game) (fun _ db' => settled db') db.
Proof.
  intros Hs. unfold set_pairing_replay_game_id. destruct (game <=? 0); [by wp_step|].
  wp_step. apply wp_tried; [intros e; by wp_step|].
  intros now db1 r E. wp_step. unfold sql_set_replay in E. statement E. apply game_settled; try done.
  intros p q Hp Hq. bool_hyps. congruence.
Qed.

(** ** Creating a tournament *)

(** A statement of a transaction whose failure ends in a rollback. *)
Lemma wp_tx_tried {T R A} (d : T) (statement : Z -> T -> option (T * R)) (k : string + R -> IO T A)
    (k' : string -> unit -> IO T A) Q db :
  (forall e, k (inl e) = (rollback_transaction ≫= k' e)) ->
  (forall e, wp true None (k' e tt) Q d) ->
  (forall now db' r, statement now db = Some (db', r) -> wp_tx true d (k (inr r)) Q db') ->
  wp_tx true d (exec statement ≫= k) Q db.
Proof.
  intros Hk Hfail Hdone env w <- Ho Hc. destruct (Hc eq_refl) as [Hn Ha].
  change ((exec statement ≫= k) env w) with (let '(a, w') := exec statement env w in k a env w').
  unfold exec. cbn [next_statement aborted tables]. rewrite Ha, Hn.
  destruct (statement _ (tables w)) as [[db' r]|] eqn:E.
  - by apply (Hdone _ _ _ E).
  - rewrite Hk. set (w1 := spoil _).
    change ((rollback_transaction ≫= k' (complaint (outcome env (statements w)))) env w1)
      with (k' (complaint (outcome env (statements w))) tt env (end_transaction false (next_statement w1))).
    apply Hfail; [|done|by intros _]. unfold end_transaction. cbn. by rewrite Ho.
Qed.

Lemma create_settled name total initial increment creator deadline first duration format now db db' id :
  settled db ->
  sql_create_tournament name total initial increment creator deadline first duration format now db =
    Some (db', id) ->
  settled db'.
Proof.
  intros Hs E. pose proof (create_statement_kept nobody _ _ _ _ _ _ _ _ _ _ _ _ _ (s_coherent _ Hs) E) as [Hc He].
  unfold sql_create_tournament in E. statement E. bool_hyps. split; [done| |exact (s_totals _ Hs)|].
  - destruct (s_fair _ Hs). pose proof (s_coherent _ Hs) as Hdb.
    constructor; cbn [with_next_tournament with_tournaments with_rounds tournaments rounds players pairings]; auto.
    + intros t Ht. apply in_app_iff in Ht as [Ht|[<-|[]]]; auto.
    + intros r t Hr Ht Hid. apply in_app_iff in Hr as [Hr|Hr], Ht as [Ht|[<-|[]]].
      * by apply f_rounds0.
      * destruct (c_round_owner _ Hdb r Hr) as (t & Ht & E). apply (c_fresh_tournament _ Hdb) in Ht.
        cbn in Hid. lia.
      * apply in_map_iff in Hr as (k & <- & _). cbn in Hid. apply (c_fresh_tournament _ Hdb) in Ht. lia.
      * apply in_map_iff in Hr as (k & <- & Hk). apply in_seq in Hk. cbn. lia.
    + intros t n Ht He' Hn. apply in_app_iff in Ht as [Ht|[<-|[]]].
      * destruct (f_swiss0 t n Ht He' Hn) as (r & Hr & Hk). exists r. split; [apply in_app_iff; by left|done].
      * cbn in Hn. eexists. split; [apply in_app_iff; right; apply in_map, in_seq; instantiate (1 := Z.to_nat n); lia|].
        unfold round_key. cbn. by rewrite Z2Nat.id by lia.
  - eapply flows_evolves; [done|by intros ? ?|]. by apply (s_flows _ Hs).
Qed.

Lemma calm_create_tournament normal name total initial increment creator deadline first duration format db :
  settled db ->
  wp true None (create_tournament normal name total initial increment creator deadline first duration format)
    (fun _ db' => settled db') db.
Proof.
  intros Hs. unfold create_tournament.
  destruct (negb _); [by wp_step|]. cbv zeta.
  destruct (_ <=? 0); [by wp_step|]. destruct (initial <=? 0); [by wp_step|].
  destruct (increment <? 0); [by wp_step|]. destruct (_ <? _); [by wp_step|]. destruct (_ <? _); [by wp_step|].
  apply wp_begin; [done|]. cbn beta iota.
  apply wp_tx_bind, wp_select; [|done]. apply wp_tx_bind, wp_select; [|done].
  destruct (List.filter _ _); [|by apply wp_tx_rollback, wp_ret].
  apply wp_tx_tried with (k' := fun e _ => mret (NotCreated e)); [done|intros e; by wp_step|].
  intros now db1 id E. apply wp_tx_commit; [|done]. wp_step. by eapply create_settled.
Qed.

(** ** The maintenance tick *)

Lemma pairable_tournament tid n db :
  coherent db -> pairable tid db n -> 0 < n /\ exists t, In t (tournaments db) /\ t_id t = tid.
Proof.
  intros Hdb ((r & Hr & Hk & _) & _). injection Hk as <- <-. split; [by apply (c_positive _ Hdb)|].
  by apply (c_round_owner _ Hdb).
Qed.

Lemma calm_prepare_first_round tid db :
  settled db -> pairable tid db 1 ->
  wp true None (prepare_first_round tid) (fun _ db' => settled db') db.
Proof.
  intros Hs Hp. unfold prepare_first_round. apply wp_begin; [done|]. cbn beta iota.
  apply wp_tx_bind, wp_select; [|done].
  assert (wp true (Some db) (prepare_pairings tid) (fun _ db' => settled db') db) as Hprepare.
  { unfold prepare_pairings. wp_step. apply wp_get_round; [|done].
    pose proof (isort_perm (fun a b => pr_id a <? pr_id b) (round_of tid 1 db)) as Hperm.
    destruct (isort _ _) as [|q l]; [|by wp_step]. apply Permutation_nil in Hperm. wp_step.
    apply wp_participants_any. intros ps. destruct (_ <=? _)%nat; [|by wp_step]. wp_step.
    destruct (pairable_tournament tid 1 db (s_coherent _ Hs) Hp) as (H1 & t & Ht & Hid).
    eapply wp_mono; [apply (calm_generate (Some db) tid 1 t); try done; by apply settled_almost|].
    intros g db1 [Hs1 _]. by wp_step. }
  apply wp_tx_bind. eapply wp_mono; [exact Hprepare|]. intros failure db1 Hs1. cbn beta.
  destruct failure; [by apply wp_tx_rollback, wp_ret|]. apply wp_tx_commit; [by wp_step|done].
Qed.

Lemma calm_prepare_loop l db :
  settled db -> List.NoDup l -> (forall tid, In tid l -> pairable tid db 1) ->
  wp true None (each prepare_first_round l) (fun _ db' => settled db') db.
Proof.
  intros Hs Hnd Hp.
  eapply wp_mono; [apply (wp_each true None (fun l db1 => settled db1 /\ List.NoDup l /\
    forall tid, In tid l -> pairable tid db1 1))|].
  - clear. intros tid l db1 (Hs & Hnd & Hp). apply NoDup_cons_iff in Hnd as [Hnot Hnd].
    eapply wp_mono; [apply wp_both; [apply (wp_prepare_first_round nobody); [apply Hs|apply Hp; by left]|
      apply calm_prepare_first_round; [done|apply Hp; by left]]|].
    intros r db2 [H2 Hs2]. split; [done|split; [done|]].
    intros tid' Hin. apply (pairable_local nobody tid _ _ db1); [done| |apply Hp; by right]. by intros ->.
  - done.
  - by intros r db' (l' & H & _).
Qed.

Lemma calm_due_loop now l db :
  settled db -> List.NoDup (map fst l) ->
  (forall tid n, In (tid, n) l -> exists t, In t (tournaments db) /\ t_id t = tid /\ t_status t <> "completed") ->
  wp true None (each (fun '(tid, n) => start_due_round tid n now) l) (fun _ db' => settled db') db.
Proof.
  intros Hs Hnd Hp.
  eapply wp_mono; [apply (wp_each true None (fun l db1 => settled db1 /\ List.NoDup (map fst l) /\
    forall tid n, In (tid, n) l -> exists t, In t (tournaments db1) /\ t_id t = tid /\ t_status t <> "completed"))|].
  - clear. intros [tid n] l db1 (Hs & Hnd & Hp). cbn in Hnd. apply NoDup_cons_iff in Hnd as [Hnot Hnd].
    destruct (Hp tid n (or_introl eq_refl)) as (t & Ht & Hid & Hopen).
    eapply wp_mono; [apply wp_both; [apply (wp_start_due_round None nobody); [apply Hs|]|
      by apply (calm_start_due_round None tid n now t)]|].
    { intros t' Ht' Hid'.
      by rewrite (same_key t_id (tournaments db1) t' t (c_tournaments _ (s_coherent _ Hs)) Ht' Ht ltac:(congruence)). }
    intros r db2 [H2 [Hs2 _]]. split; [done|split; [done|]]. intros tid' n' Hin.
    destruct (Hp tid' n' (or_intror Hin)) as (t' & Ht' & Hid' & Hopen').
    assert (tid' <> tid) as Hne by (intros ->; apply Hnot; by apply (in_map fst) in Hin).
    destruct (pc_local _ _ _ _ H2 tid' Hne) as (Et & _). exists t'. split; [|done].
    assert (In t' (tournaments_of tid' db2)) as Hin'.
    { rewrite Et. apply filter_In. by rewrite Z.eqb_eq. }
    apply filter_In in Hin'. by destruct Hin'.
  - done.
  - by intros r db' (l' & H & _).
Qed.

Lemma calm_run_query {A} (query : Tables -> list A) body next db :
  settled db ->
  (forall l db, l = query db -> settled db -> wp true None (each body l) (fun _ db' => settled db') db) ->
  (forall db1, settled db1 -> wp true None next (fun _ db' => settled db') db1) ->
  wp true None (run_query query body next) (fun _ db' => settled db') db.
Proof.
  intros Hs Hbody Hnext. unfold run_query. apply wp_bind, wp_select; [|done].
  wp_step. eapply wp_mono; [by apply Hbody|]. intros r db1 H1. cbn beta.
  destruct r; [by apply Hnext|by wp_step].
Qed.

Section tick.
Context (normal : string -> string) (arrange : forall A, list A -> list A).
Context (arrange_perm : forall A (l : list A), Permutation (arrange A l) l).

Lemma calm_maintenance_tick db :
  settled db -> wp true None (maintenance_tick arrange) (fun _ db' => settled db') db.
Proof.
  intros Hs. unfold maintenance_tick. wp_step. wp_step. wp_step.
  apply wp_tried; [intros e; by wp_step|]. intros now' db1 r E. pose proof (close_settled _ _ _ _ _ Hs E) as Hs1.
  cbn beta iota. apply calm_run_query; [done| |].
  { intros l d -> Hd. destruct (to_prepare_pairable now d (s_coherent _ Hd)) as [Hnd Hp].
    apply calm_prepare_loop; [done|by rewrite arrange_perm|].
    intros tid. by rewrite (perm_in_iff (arrange_perm _ _)); apply Hp. }
  intros db2 Hs2. apply calm_run_query; [done| |].
  { intros l d -> Hd. apply calm_due_loop; [done|apply due_once, Hd|]. intros tid n Hin.
    pose proof (due_open now d tid n (s_coherent _ Hd) Hin) as Hopen.
    unfold due_rounds in Hin. apply in_map_iff in Hin as (q & [= E1 _] & Hq).
    apply (Permutation_in _ (isort_perm _ _)), filter_In in Hq as [Hq _].
    destruct (c_round_owner _ (s_coherent _ Hd) q Hq) as (t & Ht & Hid).
    assert (t_id t = tid) as Hid' by congruence. exists t. auto. }
  intros db3 Hs3. apply calm_run_query; [done| |].
  { intros l d _ Hd. eapply wp_mono; [apply (wp_each true None (fun _ db => settled db))|].
    - intros [tid n] l' d' Hd'. by apply calm_adjudicate.
    - done.
    - by intros a d' (l' & H). }
  intros db4 Hs4. by wp_step.
Qed.

Lemma calm_perform r db :
  settled db -> wp true None (perform normal arrange r) (fun _ db' => settled db') db.
Proof.
  intros Hs.
  assert (forall A (m : IO Tables A), wp true None m (fun _ db' => settled db') db ->
    wp true None (_ ← m; mret tt) (fun _ db' => settled db') db) as Hend.
  { intros A m H. wp_step. eapply wp_mono; [apply H|]. intros a db' H'. by wp_step. }
  destruct r; cbn [perform]; apply Hend.
  - by apply calm_create_tournament.
  - by apply calm_join.
  - by apply calm_leave.
  - by apply calm_start.
  - by apply calm_set_registration.
  - by apply calm_check_in.
  - by apply calm_report_result.
  - by apply calm_record_game_result.
  - by apply calm_override_result.
  - by apply calm_set_game.
  - by apply calm_set_replay.
  - by apply calm_maintenance_tick.
Qed.

Lemma run_requests_settled history db :
  (forall er, In er history -> no_fault (fst er)) -> settled db ->
  settled (run_requests normal arrange history db).
Proof.
  revert db. induction history as [|[env r] history IH]; intros db Hcalm Hs; [done|].
  apply IH; [intros er H; apply Hcalm; by right|].
  pose proof (calm_perform r db Hs env (session db) eq_refl eq_refl) as H.
  specialize (H ltac:(intros _; split; [by apply (Hcalm (env, r)); left|done])).
  unfold run_request. cbn [fst snd]. destruct (perform normal arrange r env (session db)) as [a w']. apply H.
Qed.
End tick.

Lemma empty_settled people past n m : settled (empty_tables people past n m).
Proof.
  split; [apply empty_coherent| | |].
  - constructor; try done; cbn; intros; constructor.
  - by intros tp [].
  - by intros tid k _ [Hne _].
Qed.

(** ** Reading a settled database *)

Lemma participants_once tid db : fair db -> List.NoDup (map tp_player (participants_of tid db)).
Proof.
  intros Hf. unfold participants_of. pose proof (f_players _ Hf) as Hnd. induction (players db) as [|tp l IH]; cbn; [constructor|].
  cbn in Hnd. apply NoDup_cons_iff in Hnd as [Hn Hnd]. destruct (Z.eqb_spec (tp_tournament tp) tid) as [E|]; [|by apply IH].
  cbn. constructor; [|by apply IH]. intros Hin. apply in_map_iff in Hin as (q & Eq & Hq).
  apply filter_In in Hq as [Hq Et]. bool_hyps. apply Hn, in_map_iff. exists q. split; [congruence|done].
Qed.

Lemma snapshot_one t db : coherent db -> In t (tournaments db) -> exists s,
  snapshots (t_id t) db = [s] /\ sn_tournament s = t /\
  sn_participants s = isort (fun a b => tp_player a <? tp_player b) (participants_of (t_id t) db).
Proof.
  intros Hdb Ht. unfold snapshots.
  assert (In t (tournaments_of (t_id t) db)) as Hin by (apply filter_In; by rewrite Z.eqb_eq).
  unfold tournaments_of in Hin.
  destruct (filter_key t_id (tournaments db) (t_id t) (c_tournaments _ Hdb)) as [E|[t' E]]; rewrite E in Hin |- *; [done|].
  destruct Hin as [->|[]]. eexists. split; [reflexivity|done].
Qed.

Lemma calm_snapshot tid db :
  wp true None (read_tournament_snapshot tid) (fun r _ => r = head (snapshots tid db)) db.
Proof. unfold read_tournament_snapshot. apply wp_bind, wp_select; [by wp_step|done]. Qed.

Lemma points_stranger res p pr : plays p pr = false -> points res p pr = 0.
Proof.
  intros H. unfold points. rewrite H. unfold plays in H. apply orb_false_iff in H as [-> ->]. by rewrite !andb_false_r.
Qed.

Lemma score_sum tid db p :
  totalled db -> In p (participants_of tid db) ->
  tp_score p = sum_points (map (points pr_result (tp_player p)) (pairings_of tid db)).
Proof.
  intros Ht [Hp Htid]%filter_In. bool_hyps. pose proof (f_equal tp_score (Ht p Hp)) as <-. cbn [totals tp_score].
  rewrite Htid. fold (pairings_of tid db).
  induction (pairings_of tid db) as [|q l IH]; cbn [List.filter map]; [done|].
  change (sum_points (points pr_result (tp_player p) q :: ?k)) with (points pr_result (tp_player p) q + sum_points k).
  rewrite <- IH. destruct (plays (tp_player p) q) eqn:E; [done|]. by rewrite points_stranger.
Qed.
