(* ===== verification/WebSocket.v ===== *)
(** * Connections and WebSocket framing: src/src/net/connection.{h,cpp}, websocket.{h,cpp}

    A buffer is a list of bytes, integers of [0..255].  The sockets are left out: bytes
    arrive in [read_buffer_] and leave from [write_buffer_].  The read loop of
    [TcpServer::handle_client_data] is [serve_frames]. *)
From coqutil Require Export Datatypes.RecordSetters.
From S2P Require Import Prelude Types BoardState Zobrist Board MoveGen Fen Uci Notation.
From stdpp Require Import gmap strings.
Export TriangleBracketNotations.
Open Scope Z_scope.

(** ** Connections *)

Record Connection := mkConnection {
  read_buffer_ : list Z;
  write_buffer_ : list Z;
  write_buffer_overflowed_ : bool;
  upgraded_ : bool;
  awaiting_pong_ : bool;
  last_heartbeat_at_ : Z;
  ping_sent_at_ : Z
}.

Definition new_connection (now : Z) : Connection := mkConnection [] [] false false false now now.

Definition MAX_WRITE_BUFFER_BYTES : Z := 4 * 1024 * 1024.

(** [recv] has put some bytes into the buffer. *)
Definition receive (bytes : list Z) (c : Connection) : Connection :=
  c <| read_buffer_ ::= fun b => b ++ bytes |>.

(** [send] has taken the first [n] bytes. *)
Definition sent (n : nat) (c : Connection) : Connection :=
  c <| write_buffer_ ::= skipn n |>.

Definition append_to_write_buffer (data : list Z) (c : Connection) : Connection :=
  if write_buffer_overflowed_ c then c
  else if MAX_WRITE_BUFFER_BYTES <? Z.of_nat (length (write_buffer_ c) + length data)
  then c <| write_buffer_overflowed_ := true |>
  else c <| write_buffer_ ::= fun b => b ++ data |>.

Definition consume_read_buffer (n : nat) (c : Connection) : Connection :=
  if (length (read_buffer_ c) <=? n)%nat then c <| read_buffer_ := [] |>
  else c <| read_buffer_ ::= skipn n |>.

Definition set_upgraded (now : Z) (v : bool) (c : Connection) : Connection :=
  c <| upgraded_ := v |> <| awaiting_pong_ := false |> <| last_heartbeat_at_ := now |>
    <| ping_sent_at_ := now |>.

Definition heartbeat_due (now interval : Z) (c : Connection) : bool :=
  upgraded_ c && negb (awaiting_pong_ c) && (interval <=? now - last_heartbeat_at_ c).
Definition heartbeat_expired (now timeout : Z) (c : Connection) : bool :=
  upgraded_ c && awaiting_pong_ c && (timeout <=? now - ping_sent_at_ c).
Definition mark_ping_sent (now : Z) (c : Connection) : Connection :=
  c <| awaiting_pong_ := true |> <| ping_sent_at_ := now |>.
Definition mark_activity_received (now : Z) (c : Connection) : Connection :=
  c <| awaiting_pong_ := false |> <| last_heartbeat_at_ := now |>.
Definition mark_pong_received (now : Z) (c : Connection) : Connection := mark_activity_received now c.

(** ** Frames *)

(** The enumerators of [WsOpcode]; [static_cast] makes an opcode of any four bits. *)
Module WsOpcode.
Definition CONTINUATION : Z := 0.
Definition TEXT : Z := 1.
Definition BINARY : Z := 2.
Definition CLOSE : Z := 8.
Definition PING : Z := 9.
Definition PONG : Z := 10.
End WsOpcode.

Record WsFrame := mkFrame { fin : bool; opcode : Z; payload : list Z }.

Definition MAX_FRAME_PAYLOAD : Z := 64 * 1024.

Definition byte_at (buf : list Z) (i : nat) : Z := nth i buf 0.

(** The announced payload length and where it ends, once the header has arrived. *)
Definition announced_length (buf : list Z) : option (Z * nat) :=
  let len := Z.land (byte_at buf 1) 127 in
  if len =? 126 then
    if (length buf <? 2 + 2)%nat then None
    else Some (Z.lor (Z.shiftl (byte_at buf 2) 8) (byte_at buf 3), 4%nat)
  else if len =? 127 then
    if (length buf <? 2 + 8)%nat then None
    else Some (fold_left (fun n i => Z.lor (wrap64 (Z.shiftl n 8)) (byte_at buf (2 + i))) (seq 0 8) 0, 10%nat)
  else Some (len, 2%nat).

(** [try_read_frame]: the frame and the bytes it takes.  [Overrun] is the case where the
    64-bit sum of the size check wraps and the copy would leave the buffer.  The fields
    it may set in [frame] before it returns [false] are not read by any caller. *)
Inductive Parse := Incomplete | Parsed (f : WsFrame) (consumed : nat) | Overrun.

Definition unmask (key : list Z) (data : list Z) : list Z :=
  imap (fun i b => Z.lxor b (nth (i mod 4) key 0)) data.

Definition parse_frame (buf : list Z) : Parse :=
  if (length buf <? 2)%nat then Incomplete else
  let fin := negb (Z.land (byte_at buf 0) 128 =? 0) in
  let op := Z.land (byte_at buf 0) 15 in
  let masked := negb (Z.land (byte_at buf 1) 128 =? 0) in
  match announced_length buf with
  | None => Incomplete
  | Some (len, pos) =>
      if masked && (length buf <? pos + 4)%nat then Incomplete else
      let key := firstn 4 (skipn pos buf) in
      let pos := if masked then (pos + 4)%nat else pos in
      if Z.of_nat (length buf) <? wrap64 (Z.of_nat pos + len) then Incomplete
      else if Z.of_nat (length buf) <? Z.of_nat pos + len then Overrun
      else
        let data := firstn (Z.to_nat len) (skipn pos buf) in
        Parsed (mkFrame fin op (if masked then unmask key data else data)) (pos + Z.to_nat len)
  end.

Inductive ReadFrameResult := NeedMore | Frame (f : WsFrame) | TooLarge | Crash.

Definition try_read_frame (c : Connection) : ReadFrameResult * Connection :=
  match parse_frame (read_buffer_ c) with
  | Incomplete => (NeedMore, c)
  | Parsed f n => (Frame f, consume_read_buffer n c)
  | Overrun => (Crash, c)
  end.

Definition read_next_frame (c : Connection) : ReadFrameResult * Connection :=
  if (length (read_buffer_ c) <? 2)%nat then (NeedMore, c) else
  match announced_length (read_buffer_ c) with
  | None => (NeedMore, c)
  | Some (len, _) => if MAX_FRAME_PAYLOAD <? len then (TooLarge, c) else try_read_frame c
  end.

(** The bytes of a frame the server sends: one fragment, not masked. *)
Definition frame_data (op : Z) (data : list Z) : list Z :=
  let length := Z.of_nat (length data) in
  Z.lor 128 op ::
  (if length <=? 125 then [length]
   else if length <=? 65535 then [126; Z.land (Z.shiftr length 8) 255; Z.land length 255]
   else 127 :: map (fun i => Z.land (Z.shiftr length (8 * i)) 255) [7; 6; 5; 4; 3; 2; 1; 0]) ++ data.

Definition write_frame (op : Z) (data : list Z) (c : Connection) : Connection :=
  append_to_write_buffer (frame_data op data) c.
Definition send_close (status_code : Z) (c : Connection) : Connection :=
  write_frame WsOpcode.CLOSE [Z.land (Z.shiftr status_code 8) 255; Z.land status_code 255] c.
Definition send_pong (ping_payload : list Z) (c : Connection) : Connection :=
  write_frame WsOpcode.PONG ping_payload c.

(** ** The message router *)

Definition string_of (bytes : list Z) : str := map char_of bytes.

(** [find] of a pattern: the first index at which it stands. *)
Fixpoint find_str (pat s : str) (i : nat) : option nat :=
  if bool_decide (firstn (length pat) s = pat) then Some i
  else match s with [] => None | _ :: s' => find_str pat s' (S i) end.

(** What becomes of a message: the handler of its type, the default handler, or nothing. *)
Inductive Routing := ToHandler (type : str) | ToDefault | Dropped.

Section router.
Context (registered : gset (list ascii)) (has_default : bool).

Definition dispatch (type : str) : Routing :=
  if bool_decide (type ∈ registered) then ToHandler type
  else if has_default then ToDefault else Dropped.

Definition route (message : str) : Routing :=
  match find_str (quote :: lit "type" ++ [quote]) message 0 with
  | None => if has_default then ToDefault else Dropped
  | Some type_pos =>
      match find_from ":"%char message (type_pos + 6) with
      | None => Dropped
      | Some colon_pos =>
          match find_from quote message (colon_pos + 1) with
          | None => Dropped
          | Some quote_start =>
              match find_from quote message (quote_start + 1) with
              | None => Dropped
              | Some quote_end =>
                  dispatch (firstn (quote_end - quote_start - 1) (skipn (quote_start + 1) message))
              end
          end
      end
  end.
End router.

(** ** The handshake *)

Definition cr : ascii := char_of 13.

(** Without the carriage return that ends a line of HTTP. *)
Definition strip_cr (l : str) : str :=
  match rev l with c :: r => if bool_decide (c = cr) then rev r else l | [] => [] end.

(** The [while] over the header lines; a later field of a name replaces an earlier one. *)
Fixpoint header_lines (fuel : nat) (s : str) (headers : gmap (list ascii) (list ascii))
    : gmap (list ascii) (list ascii) :=
  match fuel with
  | O => headers
  | S fuel =>
      match getline s with
      | None => headers
      | Some (l, _, rest) =>
          match strip_cr l with
          | [] => headers
          | line =>
              match find_from ":"%char line 0 with
              | None => header_lines fuel rest headers
              | Some colon_pos =>
                  header_lines fuel rest
                    (<[map tolower (firstn colon_pos line) := trim (skipn (colon_pos + 1) line)]> headers)
              end
          end
      end
  end.

Definition parse_http_request (raw : str) : option (gmap (list ascii) (list ascii)) :=
  match getline raw with
  | None => None
  | Some (l, _, rest) =>
      if negb (bool_decide (firstn 3 (strip_cr l) = lit "GET")) then None
      else Some (header_lines (length rest) rest ∅)
  end.

Definition GUID : str := lit "258EAFA5-E914-47DA-95CA-C5AB0DC85B11".

Section server.
(** OpenSSL's [SHA1] and [EVP_EncodeBlock]. *)
Context (SHA1 : str -> list Z) (EVP_EncodeBlock : list Z -> str).

Definition compute_accept_key (client_key : str) : str := EVP_EncodeBlock (SHA1 (client_key ++ GUID)).

Definition crlf : str := [cr; newline].

Definition upgrade_response (accept_key : str) : str :=
  lit "HTTP/1.1 101 Switching Protocols" ++ crlf ++ lit "Upgrade: websocket" ++ crlf ++
  lit "Connection: Upgrade" ++ crlf ++ lit "Sec-WebSocket-Accept: " ++ accept_key ++ crlf ++ crlf.

Definition bytes_of (s : str) : list Z := map (fun c => Z.of_N (N_of_ascii c)) s.

Definition try_handshake (now : Z) (c : Connection) : bool * Connection :=
  let raw := string_of (read_buffer_ c) in
  match find_str (crlf ++ crlf) raw 0 with
  | None => (false, c)
  | Some header_end =>
      match parse_http_request raw with
      | None => (false, c)
      | Some headers =>
          if negb (bool_decide (headers !! lit "upgrade" = Some (lit "websocket"))) then (false, c) else
          match headers !! lit "sec-websocket-key" with
          | None => (false, c)
          | Some key =>
              let c := consume_read_buffer (header_end + 4) c in
              let c := append_to_write_buffer (bytes_of (upgrade_response (compute_accept_key key))) c in
              (true, set_upgraded now true c)
          end
      end
  end.

(** ** The read loop of the server *)

(** [now] gives the readings of the heartbeat clock; [on_message] is what the handlers
    of the router do to the connection. *)
Context (now : nat -> Z) (on_message : str -> Connection -> Connection).

(** What one frame makes the server do; [true] when it closes the connection. *)
Definition on_frame (tick : nat) (f : WsFrame) (c : Connection) : list str * Connection * bool :=
  let c := mark_activity_received (now tick) c in
  if opcode f =? WsOpcode.TEXT then
    let message := string_of (payload f) in ([message], on_message message c, false)
  else if opcode f =? WsOpcode.PING then ([], send_pong (payload f) c, false)
  else if opcode f =? WsOpcode.CLOSE then ([], send_close 1000 c, true)
  else if opcode f =? WsOpcode.PONG then ([], mark_pong_received (now (S tick)) c, false)
  else ([], c, false).

(** The loop: the messages routed, the connection, whether it is closed. *)
Fixpoint serve_frames (fuel tick : nat) (c : Connection) : list str * Connection * bool :=
  match fuel with
  | O => ([], c, false)
  | S fuel =>
      match read_next_frame c with
      | (NeedMore, c) => ([], c, false)
      | (TooLarge, c) | (Crash, c) => ([], c, true)
      | (Frame f, c) =>
          let '(messages, c, closed) := on_frame tick f c in
          if closed : bool then (messages, c, true)
          else let '(messages', c, closed) := serve_frames fuel (tick + 2) c in
               (messages ++ messages', c, closed)
      end
  end.

(** [handle_client_data] once the socket has been read: handshake, frames, and the close
    of a connection whose write buffer has overflowed. *)
Definition handle_client_data (c : Connection) : list str * Connection * bool :=
  let '(ready, c) := if upgraded_ c then (true, c) else try_handshake (now 0) c in
  if negb ready then ([], c, false) else
  let '(messages, c, closed) := serve_frames (length (read_buffer_ c)) 1 c in
  (messages, c, closed || write_buffer_overflowed_ c).
End server.
