(* ===== verification/WebSocketSpec.v ===== *)
(** * WebSocket frames come out as they went in, however the bytes arrive

    A client's frame of RFC 6455 and a server's frame are read back exactly; reading
    depends on the byte stream alone, not on how it is cut into segments. *)
From stdpp Require Import gmap strings.
From S2P Require Import Prelude Types BoardState Zobrist Board MoveGen Fen Uci Notation WebSocket.
Open Scope Z_scope.

(** ** Reference encoding *)

(** The frame of RFC 6455, section 5.2, with a masking key when the client sends it. *)
Definition length_field (masked : bool) (len : Z) : list Z :=
  let mask := if masked then 128 else 0 in
  if len <=? 125 then [mask + len]
  else if len <=? 65535 then [mask + 126; len / 256; len mod 256]
  else mask + 127 :: map (fun i => len / 2 ^ (8 * i) mod 256) [7; 6; 5; 4; 3; 2; 1; 0].

(** Octet i is combined with octet i modulo 4 of the key: the key again and again. *)
Definition rfc_mask (key data : list Z) : list Z :=
  zip_with Z.lxor data (List.concat (repeat key (length data))).

Definition rfc_frame (f : WsFrame) (key : option (list Z)) : list Z :=
  ((if fin f then 128 else 0) + opcode f) ::
  length_field (bool_decide (key <> None)) (Z.of_nat (length (payload f))) ++
  match key with
  | Some key => key ++ rfc_mask key (payload f)
  | None => payload f
  end.

Definition frame_ok (f : WsFrame) : Prop :=
  0 <= opcode f < 16 /\ List.Forall byte_ok (payload f) /\ Z.of_nat (length (payload f)) < 2 ^ 63.

Definition key_ok (key : option (list Z)) : Prop :=
  match key with Some k => length k = 4%nat /\ List.Forall byte_ok k | None => True end.

(** ** Bytes of a buffer *)

Lemma byte_at_app buf more i : (i < length buf)%nat -> byte_at (buf ++ more) i = byte_at buf i.
Proof. apply app_nth1. Qed.

Lemma announced_length_app buf more r :
  (2 <= length buf)%nat -> announced_length buf = Some r -> announced_length (buf ++ more) = Some r.
Proof.
  intros Hl. unfold announced_length. cbv zeta. rewrite length_app, byte_at_app by lia.
  destruct (_ =? 126); [|destruct (_ =? 127); [|done]].
  - destruct (Nat.ltb_spec (length buf) (2 + 2)); [done|]. rewrite !byte_at_app by lia.
    by destruct (Nat.ltb_spec (length buf + length more) (2 + 2)); [lia|].
  - destruct (Nat.ltb_spec (length buf) (2 + 8)); [done|].
    destruct (Nat.ltb_spec (length buf + length more) (2 + 8)); [lia|].
    cbn [seq fold_left Nat.add]. by rewrite !byte_at_app by lia.
Qed.

Lemma announced_length_pos buf len pos :
  (2 <= length buf)%nat -> announced_length buf = Some (len, pos) -> (2 <= pos <= length buf)%nat.
Proof.
  intros Hl. unfold announced_length. cbv zeta. destruct (_ =? 126); [|destruct (_ =? 127)].
  - destruct (Nat.ltb_spec (length buf) (2 + 2)); [done|]. intros E. injection E as _ <-. lia.
  - destruct (Nat.ltb_spec (length buf) (2 + 8)); [done|].
    match goal with |- Some (?n, _) = _ -> _ => generalize n end. intros n E. injection E as _ <-. lia.
  - intros E. injection E as _ <-. lia.
Qed.

(** ** Reading is a function of the stream *)

Lemma parse_frame_app buf more f n :
  parse_frame buf = Parsed f n -> parse_frame (buf ++ more) = Parsed f n /\ (2 <= n <= length buf)%nat.
Proof.
  unfold parse_frame. destruct (Nat.ltb_spec (length buf) 2) as [|Hl]; [done|].
  destruct (announced_length buf) as [[len pos]|] eqn:Ea; [|done].
  rewrite (announced_length_app _ more _ Hl Ea), length_app, !byte_at_app by lia.
  apply announced_length_pos in Ea; [|done]. set (masked := negb (Z.land (byte_at buf 1) 128 =? 0)).
  set (p := if masked then (pos + 4)%nat else pos).
  destruct (masked && (length buf <? pos + 4)%nat) eqn:Em; [done|].
  assert (p <= length buf)%nat as Hp.
  { unfold p. destruct masked; [|lia]. cbn in Em. apply Nat.ltb_ge in Em. lia. }
  destruct (Z.ltb_spec (Z.of_nat (length buf)) (wrap64 (Z.of_nat p + len))); [done|].
  destruct (Z.ltb_spec (Z.of_nat (length buf)) (Z.of_nat p + len)); [done|]. intros E. injection E as <- <-.
  destruct (Nat.ltb_spec (length buf + length more) 2); [lia|].
  assert (masked && (length buf + length more <? pos + 4)%nat = false) as ->.
  { destruct masked; [|done]. cbn in Em |- *. apply Nat.ltb_ge in Em. apply Nat.ltb_ge. lia. }
  destruct (Z.ltb_spec (Z.of_nat (length buf + length more)) (wrap64 (Z.of_nat p + len))); [lia|].
  destruct (Z.ltb_spec (Z.of_nat (length buf + length more)) (Z.of_nat p + len)); [lia|].
  split; [|unfold p in *; destruct masked; lia].
  rewrite (window_app (Z.to_nat len) p) by lia. f_equal. f_equal. destruct masked; [|done]. f_equal.
  apply window_app. unfold p in Hp. lia.
Qed.

(** A buffer that grows keeps the outcome of reading, unless it was waiting for more. *)
Lemma read_next_frame_receive more c f c' :
  read_next_frame c = (Frame f, c') -> read_next_frame (receive more c) = (Frame f, receive more c').
Proof.
  unfold read_next_frame, try_read_frame. destruct (Nat.ltb_spec (length (read_buffer_ c)) 2); [done|].
  destruct (announced_length (read_buffer_ c)) as [[len pos]|] eqn:Ea; [|done].
  change (read_buffer_ (receive more c)) with (read_buffer_ c ++ more).
  rewrite (announced_length_app (read_buffer_ c) more _ ltac:(lia) Ea), length_app.
  destruct (Nat.ltb_spec (length (read_buffer_ c) + length more) 2); [lia|].
  destruct (MAX_FRAME_PAYLOAD <? len); [done|]. destruct (parse_frame (read_buffer_ c)) as [|g n|] eqn:Ep; [done| |done].
  destruct (parse_frame_app _ more _ _ Ep) as [-> Hn]. intros E. injection E as <- <-. f_equal.
  unfold consume_read_buffer. change (read_buffer_ (receive more c)) with (read_buffer_ c ++ more). rewrite length_app.
  destruct c as [buf w o u a h p]. cbn [read_buffer_] in *.
  destruct (Nat.leb_spec (length buf) n), (Nat.leb_spec (length buf + length more) n).
  - assert (more = []) as -> by (destruct more; [done|cbn in *; lia]). done.
  - unfold receive. cbn. do 2 f_equal. assert (n = length buf) as -> by lia.
    by rewrite drop_app_length.
  - lia.
  - unfold receive. cbn. do 2 f_equal. rewrite skipn_app. by replace (n - length buf)%nat with 0%nat by lia.
Qed.

Lemma read_next_frame_large more c c' :
  read_next_frame c = (TooLarge, c') -> c' = c /\ read_next_frame (receive more c) = (TooLarge, receive more c).
Proof.
  unfold read_next_frame, try_read_frame. destruct (Nat.ltb_spec (length (read_buffer_ c)) 2); [done|].
  destruct (announced_length (read_buffer_ c)) as [[len pos]|] eqn:Ea; [|done].
  change (read_buffer_ (receive more c)) with (read_buffer_ c ++ more).
  rewrite (announced_length_app (read_buffer_ c) more _ ltac:(lia) Ea), length_app.
  destruct (Nat.ltb_spec (length (read_buffer_ c) + length more) 2); [lia|].
  destruct (MAX_FRAME_PAYLOAD <? len); [|by destruct (parse_frame _)]. intros E. injection E as <-. done.
Qed.

Lemma byte_at_ok buf i : List.Forall byte_ok buf -> byte_ok (byte_at buf i).
Proof.
  intros H. unfold byte_at. destruct (Nat.lt_ge_cases i (length buf)).
  - rewrite List.Forall_forall in H. by apply H, nth_In.
  - rewrite nth_overflow by lia. by split.
Qed.

Lemma announced_length_nonneg buf len pos :
  List.Forall byte_ok buf -> announced_length buf = Some (len, pos) -> 0 <= len /\ (pos <= 10)%nat.
Proof.
  intros Hb. unfold announced_length. cbv zeta. destruct (_ =? 126); [|destruct (_ =? 127)].
  - destruct (_ <? _)%nat; [done|]. intros E. injection E as <- <-. split; [|lia].
    apply Z.lor_nonneg. split; [apply Z.shiftl_nonneg|]; apply (byte_at_ok buf _ Hb).
  - destruct (_ <? _)%nat; [done|].
    assert (forall l n, 0 <= n ->
      0 <= fold_left (fun n i => Z.lor (wrap64 (Z.shiftl n 8)) (byte_at buf (2 + i))) l n) as Hf.
    { induction l as [|i l IH]; intros n Hn; [done|]. cbn [fold_left]. apply IH, Z.lor_nonneg.
      split; [by apply Z.mod_pos_bound|apply (byte_at_ok buf _ Hb)]. }
    specialize (Hf (seq 0 8) 0 ltac:(lia)). revert Hf. generalize (fold_left (fun n i => Z.lor (wrap64 (Z.shiftl n 8)) (byte_at buf (2 + i))) (seq 0 8) 0).
    intros n Hn E. injection E as <- <-. by split; [|lia].
  - intros E. injection E as <- <-. split; [|lia]. by apply Z.land_nonneg; right.
Qed.

(** The size check does not wrap for the payloads that get that far. *)
Lemma read_next_frame_safe c c' : List.Forall byte_ok (read_buffer_ c) -> read_next_frame c <> (Crash, c').
Proof.
  intros Hb. unfold read_next_frame, try_read_frame, parse_frame.
  destruct (Nat.ltb_spec (length (read_buffer_ c)) 2); [done|].
  destruct (announced_length (read_buffer_ c)) as [[len pos]|] eqn:Ea; [|done].
  apply announced_length_nonneg in Ea as [Hl Hp]; [|done].
  destruct (Z.ltb_spec MAX_FRAME_PAYLOAD len) as [|Hm]; [done|]. unfold MAX_FRAME_PAYLOAD in Hm.
  destruct (_ && _); [done|]. set (p := if negb _ then (pos + 4)%nat else pos).
  assert (p <= 14)%nat by (unfold p; destruct (negb _); lia). rewrite wrap64_id by lia.
  destruct (Z.ltb_spec (Z.of_nat (length (read_buffer_ c))) (Z.of_nat p + len)); [done|]. done.
Qed.

Lemma read_next_frame_wait c c' : read_next_frame c = (NeedMore, c') -> c' = c.
Proof.
  unfold read_next_frame, try_read_frame. destruct (_ <? _)%nat; [congruence|].
  destruct (announced_length _) as [[len pos]|]; [|congruence]. destruct (_ <? _); [done|].
  by destruct (parse_frame _); [intros E; injection E as <-|..].
Qed.

(** A frame takes at least two bytes, and what it leaves is the rest of the buffer. *)
Lemma read_next_frame_consumes c f c' :
  read_next_frame c = (Frame f, c') -> exists n, (2 <= n <= length (read_buffer_ c))%nat /\
    c' = c <| read_buffer_ := skipn n (read_buffer_ c) |> /\ parse_frame (read_buffer_ c) = Parsed f n.
Proof.
  unfold read_next_frame, try_read_frame. destruct (_ <? _)%nat; [done|].
  destruct (announced_length _) as [[len pos]|]; [|done]. destruct (_ <? _); [done|].
  destruct (parse_frame (read_buffer_ c)) as [|g n|] eqn:Ep; [done| |done]. intros E. injection E as <- <-.
  exists n. destruct (parse_frame_app _ [] _ _ Ep) as [_ Hn]. split; [done|]. split; [|done].
  unfold consume_read_buffer. destruct (Nat.leb_spec (length (read_buffer_ c)) n); [|done].
  replace n with (length (read_buffer_ c)) by lia. by rewrite skipn_all.
Qed.

(** ** Round trip *)

Lemma bytes_below (P : Z -> bool) : forallb (fun n => P (Z.of_nat n)) (seq 0 256) = true ->
  forall x, byte_ok x -> P x = true.
Proof.
  intros H x [H1 H2]. rewrite forallb_forall in H. rewrite <- (Z2Nat.id x) by done. apply H, in_seq. lia.
Qed.

Lemma first_byte (b : bool) op : 0 <= op < 16 ->
  let x := (if b then 128 else 0) + op in negb (Z.land x 128 =? 0) = b /\ Z.land x 15 = op.
Proof.
  intros Hop.
  pose proof (bytes_below (fun x => (Z.land x 15 =? x mod 16) && Bool.eqb (negb (Z.land x 128 =? 0)) (128 <=? x))
    ltac:(vm_compute; reflexivity) ((if b then 128 else 0) + op)) as H.
  cbv zeta. specialize (H ltac:(destruct b; unfold byte_ok; lia)). cbv beta in H. bool_hyps. apply eqb_prop in H0. split.
  - rewrite H0. destruct b; [apply Z.leb_le|apply Z.leb_gt]; lia.
  - rewrite H. destruct b; Z.to_euclidean_division_equations; lia.
Qed.

Lemma second_byte (b : bool) l : 0 <= l < 128 ->
  let x := (if b then 128 else 0) + l in negb (Z.land x 128 =? 0) = b /\ Z.land x 127 = l.
Proof.
  intros Hop.
  pose proof (bytes_below (fun x => (Z.land x 127 =? x mod 128) && Bool.eqb (negb (Z.land x 128 =? 0)) (128 <=? x))
    ltac:(vm_compute; reflexivity) ((if b then 128 else 0) + l)) as H.
  cbv zeta. specialize (H ltac:(destruct b; unfold byte_ok; lia)). cbv beta in H. bool_hyps. apply eqb_prop in H0. split.
  - rewrite H0. destruct b; [apply Z.leb_le|apply Z.leb_gt]; lia.
  - rewrite H. destruct b; Z.to_euclidean_division_equations; lia.
Qed.

(** One step of the big-endian sum. *)
Lemma be_step len i j : j = i + 1 -> 0 <= len < 2 ^ 64 -> 0 <= i ->
  Z.lor (wrap64 (Z.shiftl (len / 2 ^ (8 * j)) 8)) (len / 2 ^ (8 * i) mod 256) = len / 2 ^ (8 * i).
Proof.
  intros -> Hl Hi. replace (8 * (i + 1)) with (8 * i + 8) by lia. rewrite Z.pow_add_r by lia.
  rewrite <- Z.div_div by lia. set (q := len / 2 ^ (8 * i)).
  assert (0 <= q < 2 ^ 64) as Hq.
  { split; [apply Z.div_pos; lia|]. apply Z.div_lt_upper_bound; [lia|]. pose proof (Z.pow_pos_nonneg 2 (8 * i)). nia. }
  change (2 ^ 8) with 256. rewrite Z.shiftl_mul_pow2 by lia. change (2 ^ 8) with 256.
  rewrite wrap64_id by (Z.to_euclidean_division_equations; lia).
  replace (q / 256 * 256) with (Z.shiftl (q / 256) 8) by (rewrite Z.shiftl_mul_pow2; lia).
  rewrite lor_add; change (2 ^ 8) with 256; Z.to_euclidean_division_equations; lia.
Qed.

Lemma announced_rfc b0 masked len tail :
  0 <= len < 2 ^ 63 ->
  announced_length (b0 :: length_field masked len ++ tail) = Some (len, S (length (length_field masked len))) /\
  negb (Z.land (byte_at (b0 :: length_field masked len ++ tail) 1) 128 =? 0) = masked.
Proof.
  intros Hl. unfold announced_length, length_field. cbv zeta.
  destruct (Z.leb_spec len 125); [|destruct (Z.leb_spec len 65535)]; cbn [app length byte_at nth Nat.add map].
  - destruct (second_byte masked len ltac:(lia)) as [-> ->]. split; [|done].
    destruct (Z.eqb_spec len 126); [lia|]. by destruct (Z.eqb_spec len 127); [lia|].
  - destruct (second_byte masked 126 ltac:(lia)) as [-> ->]. split; [|done]. cbn [Z.eqb Pos.eqb Nat.ltb Nat.leb].
    f_equal. f_equal. rewrite lor_add by (lia || (change (2 ^ 8) with 256; apply Z.mod_pos_bound; lia)).
    change (2 ^ 8) with 256. Z.to_euclidean_division_equations; lia.
  - destruct (second_byte masked 127 ltac:(lia)) as [-> ->]. split; [|done]. cbn [Z.eqb Pos.eqb Nat.ltb Nat.leb].
    f_equal. f_equal. cbn [seq fold_left Nat.add byte_at nth].
    replace (Z.lor (wrap64 (Z.shiftl 0 8)) (len / 2 ^ (8 * 7) mod 256)) with (len / 2 ^ (8 * 7)).
    + rewrite (be_step len 6 7), (be_step len 5 6), (be_step len 4 5), (be_step len 3 4), (be_step len 2 3),
        (be_step len 1 2), (be_step len 0 1) by lia.
      apply Z.div_1_r.
    + change (wrap64 (Z.shiftl 0 8)) with 0. rewrite Z.lor_0_l, Z.mod_small; [done|].
      split; [apply Z.div_pos; lia|]. apply Z.div_lt_upper_bound; lia.
Qed.

Lemma length_unmask key data : length (unmask key data) = length data.
Proof. apply length_imap. Qed.

Lemma unmask_twice key data : unmask key (unmask key data) = data.
Proof.
  apply list_eq. intros i. unfold unmask. rewrite !list_lookup_imap.
  destruct (data !! i) as [x|]; cbn; [|done]. by rewrite Z.lxor_assoc, Z.lxor_nilpotent, Z.lxor_0_r.
Qed.

Lemma repeated_key (key : list Z) n i :
  length key = 4%nat -> (i < n)%nat -> List.concat (repeat key n) !! i = key !! (i mod 4)%nat.
Proof.
  intros Hk. revert i. induction n as [|n IH]; intros i Hi; [lia|]. cbn [repeat List.concat].
  destruct (Nat.lt_ge_cases i 4) as [Hi4|Hi4].
  - rewrite lookup_app_l, Nat.mod_small by lia. done.
  - rewrite lookup_app_r, Hk, IH by lia. f_equal. replace i with ((i - 4) + 1 * 4)%nat at 2 by lia.
    by rewrite Nat.Div0.mod_add.
Qed.

(** The code's loop is that. *)
Lemma unmask_rfc key data : length key = 4%nat -> unmask key data = rfc_mask key data.
Proof.
  intros Hk. apply list_eq. intros i. unfold unmask, rfc_mask. rewrite list_lookup_imap, lookup_zip_with.
  destruct (data !! i) as [b|] eqn:Eb; cbn; [|done]. apply lookup_lt_Some in Eb.
  rewrite repeated_key by done. pose proof (Nat.mod_upper_bound i 4).
  destruct (lookup_lt_is_Some_2 key (i mod 4)) as [k Ek]; [lia|]. rewrite Ek. cbn. do 2 f_equal.
  by apply nth_lookup_Some.
Qed.

Lemma parse_rfc f key rest :
  frame_ok f -> key_ok key -> parse_frame (rfc_frame f key ++ rest) = Parsed f (length (rfc_frame f key)).
Proof.
  intros (Hop & _ & Hlen) Hk. set (len := Z.of_nat (length (payload f))) in *.
  set (masked := bool_decide (key <> None)). set (lf := length_field masked len).
  set (body := match key with Some k => k ++ rfc_mask k (payload f) | None => payload f end).
  assert (rfc_frame f key ++ rest = (if fin f then 128 else 0) + opcode f :: lf ++ body ++ rest) as ->
    by (unfold rfc_frame; fold len masked lf body; cbn [app]; by rewrite <- app_assoc).
  assert (length (rfc_frame f key) = S (length lf + length body)) as ->
    by (unfold rfc_frame; fold len masked lf body; cbn [length]; by rewrite length_app).
  destruct (announced_rfc ((if fin f then 128 else 0) + opcode f) masked len (body ++ rest) ltac:(lia)) as [Ha Hm].
  fold lf in Ha, Hm. unfold parse_frame. rewrite Ha, Hm. clear Ha Hm.
  assert (1 <= length lf <= 9)%nat as Hlf by (unfold lf, length_field; destruct (len <=? 125), (len <=? 65535); cbn; lia).
  cbn [length]. rewrite length_app. destruct (Nat.ltb_spec (S (length lf + length (body ++ rest))) 2); [lia|].
  change (byte_at ((if fin f then 128 else 0) + opcode f :: lf ++ body ++ rest) 0)
    with ((if fin f then 128 else 0) + opcode f).
  destruct (first_byte (fin f) (opcode f) Hop) as [-> ->].
  assert (skipn (S (length lf)) ((if fin f then 128 else 0) + opcode f :: lf ++ body ++ rest) = body ++ rest) as Hskip
    by (cbn [skipn]; apply drop_app_length).
  assert (forall n, skipn (S (length lf) + n) ((if fin f then 128 else 0) + opcode f :: lf ++ body ++ rest) = skipn n (body ++ rest)) as Hskip2
    by (intros n; rewrite Nat.add_comm, <- skipn_skipn, Hskip; done).
  unfold body, masked in *. destruct key as [k|]; cbn [key_ok] in Hk.
  - rewrite bool_decide_eq_true_2 by done. destruct Hk as [Hk4 _]. cbn [andb].
    rewrite <- (unmask_rfc k) in * by done. rewrite <- app_assoc in *.
    rewrite !length_app, length_unmask, Hk4. rewrite wrap64_id by lia.
    destruct (Nat.ltb_spec (S (length lf + (4 + (length (payload f) + length rest)))) (S (length lf) + 4)); [lia|].
    rewrite (proj2 (Z.ltb_ge _ _)) by lia. rewrite Hskip, Hskip2. unfold len. rewrite Nat2Z.id.
    rewrite skipn_app, <- Hk4, skipn_all, Nat.sub_diag, skipn_O. cbn [app].
    rewrite (take_app_length' k), (take_app_length' (unmask k (payload f))) by (done || by rewrite length_unmask).
    rewrite unmask_twice. destruct f. f_equal. cbn. lia.
  - rewrite bool_decide_eq_false_2 by (intros H0; by apply H0). cbn [andb]. rewrite length_app. rewrite wrap64_id by lia.
    rewrite (proj2 (Z.ltb_ge _ _)) by lia. rewrite Hskip. unfold len. rewrite Nat2Z.id.
    rewrite take_app_length' by done. by destruct f.
Qed.

(** What the server writes is the unmasked frame of the RFC. *)
Lemma frame_data_rfc op data :
  0 <= op < 16 -> frame_data op data = rfc_frame (mkFrame true op data) None.
Proof.
  intros Hop. unfold frame_data, rfc_frame, length_field. cbn [fin opcode payload].
  rewrite bool_decide_eq_false_2 by (intros H0; by apply H0). cbv zeta. cbn [Z.add].
  set (len := Z.of_nat (length data)). f_equal.
  - pose proof (bytes_below (fun x => (128 <=? x) || (Z.lor 128 x =? 128 + x)) ltac:(vm_compute; reflexivity) op) as H.
    cbv beta in H. specialize (H ltac:(unfold byte_ok; lia)). apply orb_true_iff in H as [H|H]; bool_hyps; lia.
  - f_equal. destruct (Z.leb_spec len 125); [done|]. destruct (Z.leb_spec len 65535).
    + rewrite !land_255, shiftr_div by lia. change (2 ^ 8) with 256. repeat f_equal. apply Z.mod_small.
      split; [apply Z.div_pos; lia|]. apply Z.div_lt_upper_bound; lia.
    + f_equal. apply map_ext_in. intros i Hi. rewrite land_255, shiftr_div; [done|].
      repeat destruct Hi as [<-|Hi]; lia || done.
Qed.

(** ** The read loop *)

Lemma append_receive data more c :
  append_to_write_buffer data (receive more c) = receive more (append_to_write_buffer data c).
Proof.
  unfold append_to_write_buffer. change (write_buffer_overflowed_ (receive more c)) with (write_buffer_overflowed_ c).
  change (write_buffer_ (receive more c)) with (write_buffer_ c). by repeat case_match.
Qed.

Lemma append_keeps_read data c : read_buffer_ (append_to_write_buffer data c) = read_buffer_ c.
Proof. unfold append_to_write_buffer. by repeat case_match. Qed.

(** The write buffer is bounded, and an overflow is never forgotten. *)
Lemma append_bounded data c :
  Z.of_nat (length (write_buffer_ c)) <= MAX_WRITE_BUFFER_BYTES ->
  Z.of_nat (length (write_buffer_ (append_to_write_buffer data c))) <= MAX_WRITE_BUFFER_BYTES.
Proof.
  unfold append_to_write_buffer. destruct (write_buffer_overflowed_ c); [done|]. case_z; [done|].
  intros _. change (Z.of_nat (length (write_buffer_ c ++ data)) <= MAX_WRITE_BUFFER_BYTES). by rewrite length_app.
Qed.

(** A handler may write, but neither looks at the bytes still to be read nor adds any. *)
Record handler_ok (on_message : str -> Connection -> Connection) : Prop := {
  h_receive m more c : on_message m (receive more c) = receive more (on_message m c);
  h_buffer m c : read_buffer_ (on_message m c) = read_buffer_ c
}.

Section serve.
Context (now : nat -> Z) (on_message : str -> Connection -> Connection) (Hh : handler_ok on_message).
Notation serve := (serve_frames now on_message).
Notation on_frame := (on_frame now on_message).

Lemma on_frame_receive tick f more c :
  on_frame tick f (receive more c) =
  let '(ms, c', closed) := on_frame tick f c in (ms, receive more c', closed).
Proof.
  unfold WebSocket.on_frame, send_pong, send_close, write_frame.
  change (mark_activity_received (now tick) (receive more c)) with (receive more (mark_activity_received (now tick) c)).
  rewrite (h_receive _ Hh), !append_receive. by repeat case_match.
Qed.

Lemma on_frame_buffer tick f c ms c' closed :
  on_frame tick f c = (ms, c', closed) -> read_buffer_ c' = read_buffer_ c.
Proof.
  unfold WebSocket.on_frame, send_pong, send_close, write_frame.
  destruct (_ =? _); [intros E; injection E as _ <- _; by rewrite (h_buffer _ Hh)|].
  destruct (_ =? _); [intros E; injection E as _ <- _; by rewrite append_keeps_read|].
  destruct (_ =? _); [intros E; injection E as _ <- _; by rewrite append_keeps_read|].
  destruct (_ =? _); intros E; by injection E as _ <- _.
Qed.

Lemma serve_step fuel tick c :
  serve (S fuel) tick c =
  match read_next_frame c with
  | (NeedMore, c) => ([], c, false)
  | (TooLarge, c) | (Crash, c) => ([], c, true)
  | (Frame f, c) =>
      let '(ms, c, closed) := on_frame tick f c in
      if closed : bool then (ms, c, true)
      else let '(ms', c, closed) := serve fuel (tick + 2) c in (ms ++ ms', c, closed)
  end.
Proof. done. Qed.

(** Each frame takes at least two bytes: as much fuel as bytes is enough. *)
Lemma serve_fuel n : forall m tick c,
  (length (read_buffer_ c) <= n)%nat -> (length (read_buffer_ c) <= m)%nat -> serve n tick c = serve m tick c.
Proof.
  assert (forall k tick c, read_buffer_ c = [] -> serve k tick c = ([], c, false)) as Hnil.
  { intros [|k] tick c E; [done|]. rewrite serve_step. unfold read_next_frame. by rewrite E. }
  induction n as [|n IH]; intros m tick c Hn Hm.
  { assert (read_buffer_ c = []) by (destruct (read_buffer_ c); [done|cbn in Hn; lia]). by rewrite !Hnil. }
  destruct m as [|m].
  { assert (read_buffer_ c = []) by (destruct (read_buffer_ c); [done|cbn in Hm; lia]). by rewrite !Hnil. }
  rewrite !serve_step. destruct (read_next_frame c) as [[| f | |] c1] eqn:Er; [done| |done..].
  destruct (read_next_frame_consumes _ _ _ Er) as (k & Hk & -> & _).
  destruct (on_frame tick f _) as [[ms c2] closed] eqn:Eo. destruct closed; [done|].
  apply on_frame_buffer in Eo. rewrite (IH m); [done|..];
    rewrite Eo; change (length (skipn k (read_buffer_ c)) <= n \/ True)%nat || idtac;
    change (read_buffer_ (c <| read_buffer_ := skipn k (read_buffer_ c) |>)) with (skipn k (read_buffer_ c));
    rewrite length_skipn; lia.
Qed.

(** Serving what has arrived and then the rest is serving it all at once. *)
Lemma serve_segments n : forall tick c more,
  (length (read_buffer_ c) <= n)%nat -> List.Forall byte_ok (read_buffer_ c) ->
  let '(ms, c1, closed) := serve n tick c in
  exists tick', forall m k,
    (length (read_buffer_ c) + length more <= m)%nat -> (length (read_buffer_ c1) + length more <= k)%nat ->
    serve m tick (receive more c) =
    if closed : bool then (ms, receive more c1, true)
    else let '(ms', c2, closed') := serve k tick' (receive more c1) in (ms ++ ms', c2, closed').
Proof.
  induction n as [|n IH]; intros tick c more Hn Hb.
  { cbn [serve_frames]. exists tick. intros m k Hm Hk.
    rewrite (serve_fuel m k); [by destruct (serve k tick (receive more c)) as [[? ?] ?]|..];
      change (read_buffer_ (receive more c)) with (read_buffer_ c ++ more); rewrite length_app; lia. }
  rewrite serve_step. destruct (read_next_frame c) as [[| f | |] c1] eqn:Er.
  - apply read_next_frame_wait in Er as ->. exists tick. intros m k Hm Hk.
    rewrite (serve_fuel m k); [by destruct (serve k tick (receive more c)) as [[? ?] ?]|..];
      change (read_buffer_ (receive more c)) with (read_buffer_ c ++ more); rewrite length_app; lia.
  - pose proof (read_next_frame_receive more _ _ _ Er) as Er'.
    destruct (read_next_frame_consumes _ _ _ Er) as (j & Hj & Ec & _).
    pose proof (on_frame_receive tick f more c1) as Ho.
    destruct (on_frame tick f c1) as [[ms c2] closed] eqn:Eo. pose proof (on_frame_buffer _ _ _ _ _ _ Eo) as Hbuf.
    assert (read_buffer_ c2 = skipn j (read_buffer_ c)) as E2 by (rewrite Hbuf, Ec; done).
    destruct closed.
    + exists tick. intros [|m] k Hm Hk; [lia|]. by rewrite serve_step, Er', Ho.
    + assert (length (read_buffer_ c2) <= n)%nat as Hn2 by (rewrite E2, length_skipn; lia).
      assert (List.Forall byte_ok (read_buffer_ c2)) as Hb2 by (rewrite E2; by apply Forall_drop).
      specialize (IH (tick + 2)%nat c2 more Hn2 Hb2).
      destruct (serve n (tick + 2) c2) as [[ms' c3] closed']. destruct IH as [tick' IH]. exists tick'.
      intros [|m] k Hm Hk; [lia|]. rewrite serve_step, Er', Ho, (IH m k); [|rewrite E2, length_skipn; lia|done].
      destruct closed'; [done|]. destruct (serve k tick' (receive more c3)) as [[ms2 c4] cl]. by rewrite app_assoc.
  - apply (read_next_frame_large more) in Er as [-> Er]. exists tick. intros [|m] k Hm Hk.
    + assert (read_buffer_ c = []) as E by (destruct (read_buffer_ c); [done|cbn in Hm; lia]).
      unfold read_next_frame in Er. change (read_buffer_ (receive more c)) with (read_buffer_ c ++ more) in Er.
      rewrite E in Er. destruct more; [done|cbn in Hm; lia].
    + by rewrite serve_step, Er.
  - by apply read_next_frame_safe in Er.
Qed.
End serve.

(** ** The codecs on connections *)

Lemma read_rfc f key rest c :
  frame_ok f -> key_ok key -> read_buffer_ c = rfc_frame f key ++ rest ->
  read_next_frame c =
  if MAX_FRAME_PAYLOAD <? Z.of_nat (length (payload f)) then (TooLarge, c)
  else (Frame f, c <| read_buffer_ := rest |>).
Proof.
  intros Hf Hk E. unfold read_next_frame. rewrite E. pose proof (parse_rfc f key rest Hf Hk) as Hp.
  destruct (parse_frame_app _ [] _ _ Hp) as [_ Hn].
  destruct (Nat.ltb_spec (length (rfc_frame f key ++ rest)) 2); [lia|].
  destruct (announced_rfc ((if fin f then 128 else 0) + opcode f) (bool_decide (key <> None)) (Z.of_nat (length (payload f)))
    (match key with Some k => k ++ rfc_mask k (payload f) | None => payload f end ++ rest)) as [Ha _];
    [split; [lia|apply Hf]|].
  assert (rfc_frame f key ++ rest = (if fin f then 128 else 0) + opcode f ::
    length_field (bool_decide (key <> None)) (Z.of_nat (length (payload f))) ++
    match key with Some k => k ++ rfc_mask k (payload f) | None => payload f end ++ rest) as Er
    by (unfold rfc_frame; cbn [app]; by rewrite <- app_assoc).
  rewrite Er, Ha. destruct (MAX_FRAME_PAYLOAD <? _); [done|]. unfold try_read_frame. rewrite E, Hp. f_equal.
  unfold consume_read_buffer. rewrite E, length_app.
  destruct (Nat.leb_spec (length (rfc_frame f key) + length rest) (length (rfc_frame f key))).
  - assert (rest = []) as -> by (destruct rest; [done|cbn in *; lia]). done.
  - destruct c as [b w o u a h p]. cbn in *. f_equal. rewrite E. apply drop_app_length.
Qed.

Lemma write_rfc op data c :
  0 <= op < 16 -> write_buffer_overflowed_ c = false ->
  let frame := rfc_frame (mkFrame true op data) None in
  Z.of_nat (length (write_buffer_ c) + length frame) <= MAX_WRITE_BUFFER_BYTES ->
  write_frame op data c = c <| write_buffer_ := write_buffer_ c ++ frame |>.
Proof.
  intros Hop Ho. cbv zeta. unfold write_frame, append_to_write_buffer. rewrite Ho, frame_data_rfc by done.
  intros Hl. by destruct (Z.ltb_spec MAX_WRITE_BUFFER_BYTES (Z.of_nat (length (write_buffer_ c) + length (rfc_frame (mkFrame true op data) None)))); [lia|].
Qed.
