(* ===== verification/Base64.v ===== *)
(** * Base64: src/src/crypto/base64.{h,cpp}

    The padded codec and the URL codec share the table and the two inner loops; the
    source writes them out twice. A byte is an integer of [0..255]. A decoder returns
    [None] where the source returns [false], which always leaves its output empty. *)
From S2P Require Import Prelude Types.

Definition ALPHABET : str := lit "ABCDEFGHIJKLMNOPQRSTUVWXYZabcdefghijklmnopqrstuvwxyz0123456789+/".
Definition URL_ALPHABET : str := lit "ABCDEFGHIJKLMNOPQRSTUVWXYZabcdefghijklmnopqrstuvwxyz0123456789-_".

Definition symbol (alphabet : str) (i : nat) : ascii := nth i alphabet Ascii.zero.
Definition value (rev : list Z) (c : ascii) : Z := nth (nat_of_ascii c) rev (-1).

(** [ReverseTable]: the value of each character, -1 outside the alphabet. *)
Definition reverse_of (alphabet : str) : list Z :=
  fold_left (fun v i => <[nat_of_ascii (symbol alphabet i) := Z.of_nat i]> v) (seq 0 64) (repeat (-1) 256).
Definition reverse_table : list Z := reverse_of ALPHABET.
Definition url_reverse_table : list Z := reverse_of URL_ALPHABET.

Definition sym (alphabet : str) (x : Z) : ascii := symbol alphabet (Z.to_nat (Z.land x 63)).

(** The loop over whole quanta, [tail] being the code for the bytes left over. *)
Fixpoint encode_quanta (alphabet : str) (tail : list Z -> str) (data : list Z) : str :=
  match data with
  | a :: b :: c :: data =>
      let v := Z.lor (Z.lor (Z.shiftl a 16) (Z.shiftl b 8)) c in
      sym alphabet (Z.shiftr v 18) :: sym alphabet (Z.shiftr v 12) :: sym alphabet (Z.shiftr v 6)
        :: sym alphabet v :: encode_quanta alphabet tail data
  | _ => tail data
  end.

Definition padded_tail (data : list Z) : str :=
  match data with
  | [a] =>
      let v := Z.shiftl a 16 in
      [sym ALPHABET (Z.shiftr v 18); sym ALPHABET (Z.shiftr v 12); "="%char; "="%char]
  | [a; b] =>
      let v := Z.lor (Z.shiftl a 16) (Z.shiftl b 8) in
      [sym ALPHABET (Z.shiftr v 18); sym ALPHABET (Z.shiftr v 12); sym ALPHABET (Z.shiftr v 6); "="%char]
  | _ => []
  end.

Definition encode_base64 (data : list Z) : str := encode_quanta ALPHABET padded_tail data.

Definition url_tail (data : list Z) : str :=
  match data with
  | [a] =>
      let v := Z.shiftl a 16 in
      [sym URL_ALPHABET (Z.shiftr v 18); sym URL_ALPHABET (Z.shiftr v 12)]
  | [a; b] =>
      let v := Z.lor (Z.shiftl a 16) (Z.shiftl b 8) in
      [sym URL_ALPHABET (Z.shiftr v 18); sym URL_ALPHABET (Z.shiftr v 12); sym URL_ALPHABET (Z.shiftr v 6)]
  | _ => []
  end.

Definition encode_base64url (data : list Z) : str := encode_quanta URL_ALPHABET url_tail data.

(** The decoding loop on a 32-bit accumulator. *)
Fixpoint decode_loop (rev : list Z) (text : str) (acc bits : Z) (out : list Z)
    : option (Z * Z * list Z) :=
  match text with
  | [] => Some (acc, bits, out)
  | c :: text =>
      let d := value rev c in
      if d <? 0 then None else
      let acc := Z.lor (Z.shiftl acc 6 mod 2 ^ 32) d in
      let bits := bits + 6 in
      if 8 <=? bits
      then decode_loop rev text acc (bits - 8) (out ++ [Z.land (Z.shiftr acc (bits - 8)) 255])
      else decode_loop rev text acc bits out
  end.

(** The checks after the loop: no bits left set, and the expected length. *)
Definition finish_decode (expected_len : Z) (state : option (Z * Z * list Z)) : option (list Z) :=
  match state with
  | None => None
  | Some (acc, bits, out) =>
      if (0 <? bits) && negb (Z.land acc (Z.shiftl 1 bits - 1) =? 0) then None
      else if negb (expected_len =? 0) && negb (Z.of_nat (length out) =? expected_len) then None
      else Some out
  end.

(** How many of the last two characters are padding. *)
Definition padding (text : str) : nat :=
  match reverse text with
  | c :: d :: _ => if bool_decide (c = "="%char) then if bool_decide (d = "="%char) then 2 else 1 else 0
  | [c] => if bool_decide (c = "="%char) then 1 else 0
  | [] => 0
  end.

Definition decode_base64 (text : str) (expected_len : Z) : option (list Z) :=
  match text with
  | [] => if expected_len =? 0 then Some [] else None
  | _ =>
      if negb (length text mod 4 =? 0)%nat then None
      else finish_decode expected_len
             (decode_loop reverse_table (firstn (length text - padding text) text) 0 0 [])
  end.

Definition decode_base64url (text : str) (expected_len : Z) : option (list Z) :=
  match text with
  | [] => if expected_len =? 0 then Some [] else None
  | _ =>
      if (length text mod 4 =? 1)%nat then None
      else finish_decode expected_len (decode_loop url_reverse_table text 0 0 [])
  end.

(** ** The alphabet and its reverse *)

(** What the proofs need of an alphabet. *)
Record alphabet_ok (alphabet : str) (rev : list Z) : Prop := {
  a_forth d : 0 <= d < 64 -> value rev (symbol alphabet (Z.to_nat d)) = d;
  a_back c : 0 <= value rev c ->
    value rev c < 64 /\ symbol alphabet (Z.to_nat (value rev c)) = c
}.

Definition alphabet_okb (alphabet : str) (rev : list Z) : bool :=
  forallb (fun i => value rev (symbol alphabet i) =? Z.of_nat i) (seq 0 64) &&
  forallb (fun n => let d := value rev (ascii_of_nat n) in
             (d <? 0) || ((d <? 64) && bool_decide (symbol alphabet (Z.to_nat d) = ascii_of_nat n))) (seq 0 256).

Lemma alphabet_okb_sound alphabet rev : alphabet_okb alphabet rev = true -> alphabet_ok alphabet rev.
Proof.
  unfold alphabet_okb. intros H. bool_hyps. rewrite forallb_forall in *. split.
  - intros d Hd. assert (In (Z.to_nat d) (seq 0 64)) as Hi by (apply in_seq; lia).
    apply H in Hi. bool_hyps. lia.
  - intros c Hc. assert (In (nat_of_ascii c) (seq 0 256)) as Hi.
    { apply in_seq. pose proof (nat_ascii_bounded c). lia. }
    apply H0 in Hi. cbv zeta in Hi.
    rewrite ascii_nat_embedding in *. destruct (Z.ltb_spec (value rev c) 0); [lia|]. cbn [orb] in Hi.
    bool_hyps. done.
Qed.

Lemma alphabet_standard : alphabet_ok ALPHABET reverse_table.
Proof. apply alphabet_okb_sound. vm_compute. reflexivity. Qed.
Lemma alphabet_url : alphabet_ok URL_ALPHABET url_reverse_table.
Proof. apply alphabet_okb_sound. vm_compute. reflexivity. Qed.

(** ** Sextets and bytes as arithmetic *)

(** The value of three bytes, and of the one or two of a tail. *)
Lemma word3 a b c : byte_ok b -> byte_ok c ->
  Z.lor (Z.lor (Z.shiftl a 16) (Z.shiftl b 8)) c = a * 65536 + b * 256 + c.
Proof.
  unfold byte_ok. intros Hb Hc. rewrite (Z.shiftl_mul_pow2 b) by lia. rewrite lor_add by lia.
  replace (a * 2 ^ 16 + b * 2 ^ 8) with (Z.shiftl (a * 256 + b) 8) by (rewrite Z.shiftl_mul_pow2; lia).
  rewrite lor_add by lia. lia.
Qed.

Lemma word2 a b : byte_ok b -> Z.lor (Z.shiftl a 16) (Z.shiftl b 8) = a * 65536 + b * 256.
Proof. unfold byte_ok. intros Hb. rewrite (Z.shiftl_mul_pow2 b) by lia. rewrite lor_add by lia. lia. Qed.

Section codec.
Context (alphabet : str) (rev : list Z) (Hok : alphabet_ok alphabet rev).

Definition sextet (d : Z) : Prop := 0 <= d < 64.

Lemma value_symbol d : sextet d -> value rev (symbol alphabet (Z.to_nat d)) = d.
Proof. apply (a_forth _ _ Hok). Qed.

Lemma symbol_value c : 0 <= value rev c ->
  exists d, sextet d /\ value rev c = d /\ c = symbol alphabet (Z.to_nat d).
Proof. intros H. exists (value rev c). destruct (a_back _ _ Hok c H) as [? ?]. by split; [split|]. Qed.

Lemma sym_shift v n : 0 <= n -> sym alphabet (Z.shiftr v n) = symbol alphabet (Z.to_nat (v / 2 ^ n mod 64)).
Proof. intros Hn. unfold sym. by rewrite land_63, shiftr_div. Qed.

(** One character, whatever the accumulator held before. *)
Lemma decode_step c text acc bits out d :
  value rev c = d -> sextet d ->
  decode_loop rev (c :: text) acc bits out =
  let acc' := acc * 64 mod 2 ^ 32 + d in
  if 2 <=? bits
  then decode_loop rev text acc' (bits - 2) (out ++ [acc' / 2 ^ (bits - 2) mod 256])
  else decode_loop rev text acc' (bits + 6) out.
Proof.
  intros Hc Hd. cbn [decode_loop]. rewrite Hc. unfold sextet in Hd. destruct (Z.ltb_spec d 0); [lia|].
  assert (Z.lor (Z.shiftl acc 6 mod 2 ^ 32) d = acc * 64 mod 2 ^ 32 + d) as ->.
  { rewrite Z.shiftl_mul_pow2 by lia. replace (acc * 2 ^ 6) with (acc * 64) by lia.
    replace (acc * 64 mod 2 ^ 32) with (Z.shiftl (acc mod 2 ^ 26) 6).
    - rewrite lor_add by lia. rewrite Z.shiftl_mul_pow2; lia.
    - rewrite Z.shiftl_mul_pow2 by lia. change (2 ^ 32) with (2 ^ 26 * 2 ^ 6).
      change 64 with (2 ^ 6). by rewrite Z.mul_mod_distr_r. }
  cbv zeta. replace (8 <=? bits + 6) with (2 <=? bits) by (destruct (Z.leb_spec 2 bits), (Z.leb_spec 8 (bits + 6)); lia).
  replace (bits + 6 - 8) with (bits - 2) by lia. destruct (Z.leb_spec 2 bits); [|done].
  by rewrite land_255, shiftr_div by lia.
Qed.

Ltac sextets := unfold sextet, byte_ok in *; Z.to_euclidean_division_equations; lia.

Definition S6 (d : Z) : ascii := symbol alphabet (Z.to_nat d).

Lemma decode_pair d0 d1 text acc out :
  sextet d0 -> sextet d1 -> exists acc', acc' mod 16 = d1 mod 16 /\
  decode_loop rev (S6 d0 :: S6 d1 :: text) acc 0 out = decode_loop rev text acc' 4 (out ++ [d0 * 4 + d1 / 16]).
Proof.
  intros H0 H1. rewrite (decode_step _ _ _ _ _ d0) by (done || by apply value_symbol).
  cbv zeta. change (2 <=? 0) with false. cbv iota. change (0 + 6) with 6.
  rewrite (decode_step _ _ _ _ _ d1) by (done || by apply value_symbol).
  cbv zeta. change (2 <=? 6) with true. cbv iota. change (6 - 2) with 4.
  eexists. split; [|f_equal; f_equal; f_equal]; change (2 ^ 32) with 4294967296; change (2 ^ 4) with 16; sextets.
Qed.

Lemma decode_third d1 d2 text acc out :
  sextet d2 -> acc mod 16 = d1 mod 16 -> exists acc', acc' mod 4 = d2 mod 4 /\
  decode_loop rev (S6 d2 :: text) acc 4 out = decode_loop rev text acc' 2 (out ++ [d1 mod 16 * 16 + d2 / 4]).
Proof.
  intros H2 Ha. rewrite (decode_step _ _ _ _ _ d2) by (done || by apply value_symbol).
  cbv zeta. change (2 <=? 4) with true. cbv iota. change (4 - 2) with 2.
  eexists. split; [|f_equal; f_equal; f_equal]; change (2 ^ 32) with 4294967296; change (2 ^ 2) with 4; sextets.
Qed.

Lemma decode_fourth d2 d3 text acc out :
  sextet d3 -> acc mod 4 = d2 mod 4 -> exists acc',
  decode_loop rev (S6 d3 :: text) acc 2 out = decode_loop rev text acc' 0 (out ++ [d2 mod 4 * 64 + d3]).
Proof.
  intros H3 Ha. rewrite (decode_step _ _ _ _ _ d3) by (done || by apply value_symbol).
  cbv zeta. change (2 <=? 2) with true. cbv iota. change (2 - 2) with 0.
  eexists. f_equal. f_equal. f_equal. change (2 ^ 32) with 4294967296; change (2 ^ 0) with 1. sextets.
Qed.

Lemma decode_quad d0 d1 d2 d3 text acc out :
  sextet d0 -> sextet d1 -> sextet d2 -> sextet d3 -> exists acc',
  decode_loop rev (S6 d0 :: S6 d1 :: S6 d2 :: S6 d3 :: text) acc 0 out =
  decode_loop rev text acc' 0 (out ++ [d0 * 4 + d1 / 16; d1 mod 16 * 16 + d2 / 4; d2 mod 4 * 64 + d3]).
Proof.
  intros H0 H1 H2 H3. destruct (decode_pair d0 d1 (S6 d2 :: S6 d3 :: text) acc out H0 H1) as (a1 & E1 & ->).
  edestruct (decode_third d1 d2 (S6 d3 :: text) a1) as (a2 & E2 & ->); [done|done|].
  edestruct (decode_fourth d2 d3 text a2) as (a3 & ->); [done|done|]. exists a3. by rewrite <- !app_assoc.
Qed.

(** *** Encoding *)

Lemma encode_quad tail a b c data :
  byte_ok a -> byte_ok b -> byte_ok c ->
  encode_quanta alphabet tail (a :: b :: c :: data) =
  S6 (a / 4) :: S6 (a mod 4 * 16 + b / 16) :: S6 (b mod 16 * 4 + c / 64) :: S6 (c mod 64)
    :: encode_quanta alphabet tail data.
Proof.
  intros Ha Hb Hc. cbn [encode_quanta]. rewrite word3 by done. rewrite !sym_shift by lia.
  unfold sym, S6. rewrite land_63. set (v := a * 65536 + b * 256 + c).
  assert (v / 2 ^ 18 mod 64 = a / 4) as -> by (change (2 ^ 18) with 262144; sextets).
  assert (v / 2 ^ 12 mod 64 = a mod 4 * 16 + b / 16) as -> by (change (2 ^ 12) with 4096; sextets).
  assert (v / 2 ^ 6 mod 64 = b mod 16 * 4 + c / 64) as -> by (change (2 ^ 6) with 64; sextets).
  assert (v mod 64 = c mod 64) as -> by sextets. done.
Qed.

Lemma decode_head c text acc bits out r :
  decode_loop rev (c :: text) acc bits out = Some r -> exists d, sextet d /\ c = S6 d.
Proof.
  cbn [decode_loop]. destruct (Z.ltb_spec (value rev c) 0) as [|Hv]; [done|]. intros _.
  destruct (symbol_value c Hv) as (d & ? & _ & ->). by exists d.
Qed.

Lemma decode_second d c text acc out r :
  sextet d -> decode_loop rev (S6 d :: c :: text) acc 0 out = Some r -> exists d', sextet d' /\ c = S6 d'.
Proof.
  intros Hd. rewrite (decode_step _ _ _ _ _ d) by (done || by apply value_symbol). apply decode_head.
Qed.

(** Text that spells whole quanta is the code of the bytes it decodes to. *)
Lemma decode_quads_inv k : forall text rest acc out r,
  length text = (4 * k)%nat -> decode_loop rev (text ++ rest) acc 0 out = Some r ->
  exists bytes acc', List.Forall byte_ok bytes /\ length bytes = (3 * k)%nat /\
    (forall tail more, encode_quanta alphabet tail (bytes ++ more) = text ++ encode_quanta alphabet tail more) /\
    decode_loop rev rest acc' 0 (out ++ bytes) = Some r.
Proof.
  induction k as [|k IH]; intros text rest acc out r Hl H.
  { destruct text; [|cbn in Hl; lia]. exists [], acc. rewrite app_nil_r. by repeat split. }
  destruct text as [|c0 [|c1 [|c2 [|c3 text]]]]; cbn in Hl; try lia. cbn [app] in H.
  destruct (decode_head _ _ _ _ _ _ H) as (d0 & H0 & ->).
  destruct (decode_second _ _ _ _ _ _ H0 H) as (d1 & H1 & ->).
  destruct (decode_pair d0 d1 (c2 :: c3 :: text ++ rest) acc out H0 H1) as (a1 & E1 & E). rewrite E in H. clear E.
  destruct (decode_head _ _ _ _ _ _ H) as (d2 & H2 & ->).
  destruct (decode_third d1 d2 (c3 :: text ++ rest) a1 (out ++ [d0 * 4 + d1 / 16]) H2 E1) as (a2 & E2 & E).
  rewrite E in H. clear E. destruct (decode_head _ _ _ _ _ _ H) as (d3 & H3 & ->).
  destruct (decode_fourth d2 d3 (text ++ rest) a2 ((out ++ [d0 * 4 + d1 / 16]) ++ [d1 mod 16 * 16 + d2 / 4]) H3 E2) as (a3 & E).
  rewrite E in H. clear E. destruct (IH text rest _ _ r ltac:(lia) H) as (bytes & a4 & Hb & Hn & He & Hr).
  exists (d0 * 4 + d1 / 16 :: d1 mod 16 * 16 + d2 / 4 :: d2 mod 4 * 64 + d3 :: bytes), a4.
  split; [repeat constructor; try done; sextets|]. split; [cbn; lia|]. split.
  - intros tail more. cbn [app]. rewrite encode_quad by sextets. rewrite He. repeat f_equal; sextets.
  - by rewrite <- !app_assoc in Hr.
Qed.

(** The code of whole quanta decodes to their bytes. *)
Lemma decode_quads k : forall bytes rest acc out,
  length bytes = (3 * k)%nat -> List.Forall byte_ok bytes ->
  exists text acc', length text = (4 * k)%nat /\
    (forall tail more, encode_quanta alphabet tail (bytes ++ more) = text ++ encode_quanta alphabet tail more) /\
    decode_loop rev (text ++ rest) acc 0 out = decode_loop rev rest acc' 0 (out ++ bytes).
Proof.
  induction k as [|k IH]; intros bytes rest acc out Hl Hb.
  { destruct bytes; [|cbn in Hl; lia]. exists [], acc. by rewrite app_nil_r. }
  destruct bytes as [|a [|b [|c bytes]]]; cbn in Hl; try lia.
  inversion_clear Hb as [|? ? Ha Hb1]. inversion_clear Hb1 as [|? ? Hb Hc1]. inversion_clear Hc1 as [|? ? Hc Hb1].
  set (d0 := a / 4). set (d1 := a mod 4 * 16 + b / 16). set (d2 := b mod 16 * 4 + c / 64). set (d3 := c mod 64).
  assert (sextet d0 /\ sextet d1 /\ sextet d2 /\ sextet d3) as (H0 & H1 & H2 & H3) by (unfold d0, d1, d2, d3; sextets).
  assert (d0 * 4 + d1 / 16 = a /\ d1 mod 16 * 16 + d2 / 4 = b /\ d2 mod 4 * 64 + d3 = c) as (E0 & E1 & E2)
    by (unfold d0, d1, d2, d3; sextets).
  destruct (IH bytes rest 0 [] ltac:(lia) Hb1) as (text & _ & Hlt & He & _).
  destruct (decode_quad d0 d1 d2 d3 (text ++ rest) acc out H0 H1 H2 H3) as (acc1 & Hd). rewrite E0, E1, E2 in Hd.
  destruct (IH bytes rest acc1 (out ++ [a; b; c]) ltac:(lia) Hb1) as (text' & acc2 & Hlt' & He' & Hd').
  assert (text' = text) as ->.
  { specialize (He (fun _ => []) []). specialize (He' (fun _ => []) []). rewrite He in He'. cbn in He'.
    by rewrite !app_nil_r in He'. }
  exists (S6 d0 :: S6 d1 :: S6 d2 :: S6 d3 :: text), acc2. split; [cbn; lia|]. split.
  - intros tail more. cbn [app]. rewrite encode_quad, He by done. done.
  - cbn [app]. rewrite Hd, Hd', <- app_assoc. done.
Qed.

(** *** Tails *)

(** The code of one or two bytes, without padding. *)
Definition bare_tail (data : list Z) : str :=
  match data with
  | [a] => [S6 (a / 4); S6 (a mod 4 * 16)]
  | [a; b] => [S6 (a / 4); S6 (a mod 4 * 16 + b / 16); S6 (b mod 16 * 4)]
  | _ => []
  end.

Lemma tail_one a : byte_ok a ->
  sym alphabet (Z.shiftr (Z.shiftl a 16) 18) = S6 (a / 4) /\
  sym alphabet (Z.shiftr (Z.shiftl a 16) 12) = S6 (a mod 4 * 16).
Proof.
  intros Ha. rewrite !sym_shift, (Z.shiftl_mul_pow2 a) by lia. unfold S6.
  assert (a * 2 ^ 16 / 2 ^ 18 mod 64 = a / 4) as ->
    by (change (2 ^ 16) with 65536; change (2 ^ 18) with 262144; sextets).
  assert (a * 2 ^ 16 / 2 ^ 12 mod 64 = a mod 4 * 16) as ->
    by (change (2 ^ 16) with 65536; change (2 ^ 12) with 4096; sextets).
  done.
Qed.

Lemma tail_two a b : byte_ok a -> byte_ok b ->
  let v := Z.lor (Z.shiftl a 16) (Z.shiftl b 8) in
  sym alphabet (Z.shiftr v 18) = S6 (a / 4) /\ sym alphabet (Z.shiftr v 12) = S6 (a mod 4 * 16 + b / 16) /\
  sym alphabet (Z.shiftr v 6) = S6 (b mod 16 * 4).
Proof.
  intros Ha Hb. cbv zeta. rewrite word2 by done. rewrite !sym_shift by lia. unfold S6.
  set (v := a * 65536 + b * 256).
  assert (v / 2 ^ 18 mod 64 = a / 4) as -> by (change (2 ^ 18) with 262144; sextets).
  assert (v / 2 ^ 12 mod 64 = a mod 4 * 16 + b / 16) as -> by (change (2 ^ 12) with 4096; sextets).
  assert (v / 2 ^ 6 mod 64 = b mod 16 * 4) as -> by (change (2 ^ 6) with 64; sextets). done.
Qed.

Lemma land_low acc bits : 0 <= bits -> Z.land acc (Z.shiftl 1 bits - 1) = acc mod 2 ^ bits.
Proof.
  intros Hb. rewrite Z.shiftl_1_l, <- Z.land_ones by done. by rewrite Z.ones_equiv, Z.sub_1_r.
Qed.

(** The bytes of a tail come out of its code. *)
Lemma decode_bare_tail data acc out n :
  (length data < 3)%nat -> List.Forall byte_ok data ->
  finish_decode n (decode_loop rev (bare_tail data) acc 0 out) =
  if negb (n =? 0) && negb (Z.of_nat (length (out ++ data)) =? n) then None else Some (out ++ data).
Proof.
  intros Hl Hb. destruct data as [|a [|b [|? ?]]]; cbn in Hl; try lia; cbn [bare_tail].
  - by rewrite app_nil_r.
  - inversion_clear Hb as [|? ? Ha _].
    destruct (decode_pair (a / 4) (a mod 4 * 16) [] acc out) as (acc' & E & ->); [sextets..|].
    cbn [decode_loop finish_decode]. rewrite land_low by lia. change (2 ^ 4) with 16.
    replace (acc' mod 16) with 0 by sextets. replace (a / 4 * 4 + a mod 4 * 16 / 16) with a by sextets. done.
  - inversion_clear Hb as [|? ? Ha Hb1]. inversion_clear Hb1 as [|? ? Hb _].
    destruct (decode_pair (a / 4) (a mod 4 * 16 + b / 16) [S6 (b mod 16 * 4)] acc out) as (acc' & E & ->); [sextets..|].
    destruct (decode_third (a mod 4 * 16 + b / 16) (b mod 16 * 4) [] acc' (out ++ [a / 4 * 4 + (a mod 4 * 16 + b / 16) / 16]))
      as (acc2 & E2 & ->); [sextets|done|].
    cbn [decode_loop finish_decode]. rewrite land_low by lia. change (2 ^ 2) with 4.
    replace (acc2 mod 4) with 0 by sextets.
    replace (a / 4 * 4 + (a mod 4 * 16 + b / 16) / 16) with a by sextets.
    replace ((a mod 4 * 16 + b / 16) mod 16 * 16 + b mod 16 * 4 / 4) with b by sextets. by rewrite <- app_assoc.
Qed.

(** Two or three characters that decode, with no bits left set, are the code of a tail. *)
Lemma decode_bare_tail_inv text acc out n r :
  length text = 0%nat \/ length text = 2%nat \/ length text = 3%nat ->
  finish_decode n (decode_loop rev text acc 0 out) = Some r ->
  exists data, (length data < 3)%nat /\ List.Forall byte_ok data /\ text = bare_tail data /\ r = out ++ data /\
    (length text = length data + (if (length data =? 0)%nat then 0 else 1))%nat.
Proof.
  intros Hl H. destruct text as [|c0 [|c1 [|c2 [|? ?]]]]; cbn in Hl; try lia.
  - exists []. rewrite app_nil_r. cbn [decode_loop finish_decode] in H. destruct (_ && _); [done|].
    destruct (negb _ && _); [done|]. injection H as <-. repeat split; cbn; try lia. constructor.
  - destruct (decode_loop rev [c0; c1] acc 0 out) as [s|] eqn:E; [|done].
    destruct (decode_head _ _ _ _ _ _ E) as (d0 & H0 & ->). destruct (decode_second _ _ _ _ _ _ H0 E) as (d1 & H1 & ->).
    destruct (decode_pair d0 d1 [] acc out H0 H1) as (acc' & E1 & E2). rewrite E in E2. cbn [decode_loop] in E2.
    rewrite E2 in H. cbn [finish_decode] in H. rewrite land_low in H by lia. change (2 ^ 4) with 16 in H.
    destruct (Z.eqb_spec (acc' mod 16) 0) as [Hz|]; [|done]. cbn [andb negb] in H.
    destruct (negb _ && _); [done|]. injection H as <-. exists [d0 * 4 + d1 / 16]. cbn [length bare_tail Nat.eqb].
    repeat split; [lia|repeat constructor; sextets|repeat f_equal; sextets].
  - destruct (decode_loop rev [c0; c1; c2] acc 0 out) as [s|] eqn:E; [|done].
    destruct (decode_head _ _ _ _ _ _ E) as (d0 & H0 & ->). destruct (decode_second _ _ _ _ _ _ H0 E) as (d1 & H1 & ->).
    destruct (decode_pair d0 d1 [c2] acc out H0 H1) as (acc' & E1 & E2). rewrite E in E2. symmetry in E2.
    destruct (decode_head _ _ _ _ _ _ E2) as (d2 & H2 & ->).
    destruct (decode_third d1 d2 [] acc' (out ++ [d0 * 4 + d1 / 16]) H2 E1) as (acc2 & E3 & E4).
    rewrite E2 in E4. cbn [decode_loop] in E4. rewrite E4 in H. cbn [finish_decode] in H.
    rewrite land_low in H by lia. change (2 ^ 2) with 4 in H.
    destruct (Z.eqb_spec (acc2 mod 4) 0) as [Hz|]; [|done]. cbn [andb negb] in H.
    destruct (negb _ && _); [done|]. injection H as <-.
    exists [d0 * 4 + d1 / 16; d1 mod 16 * 16 + d2 / 4]. cbn [length bare_tail Nat.eqb]. rewrite <- app_assoc.
    repeat split; [lia|repeat constructor; sextets|repeat f_equal; sextets].
Qed.

(** *** A whole message *)

Lemma split_quanta {A} m (l : list A) : (0 < m)%nat ->
  exists k whole tail, l = whole ++ tail /\ length whole = (m * k)%nat /\ (length tail < m)%nat.
Proof.
  intros Hm. exists (length l / m)%nat, (firstn (m * (length l / m)) l), (skipn (m * (length l / m)) l).
  pose proof (Nat.div_mod_eq (length l) m). pose proof (Nat.mod_upper_bound (length l) m).
  split; [by rewrite firstn_skipn|]. rewrite length_firstn, length_skipn. lia.
Qed.

Lemma encode_short tail data : (length data < 3)%nat -> encode_quanta alphabet tail data = tail data.
Proof. by destruct data as [|? [|? [|? ?]]]; cbn; try lia. Qed.

(** A message, the length of its code and the loop over it. *)
Lemma decode_message bytes n acc :
  List.Forall byte_ok bytes ->
  exists text tail k, (length tail < 3)%nat /\ length text = (4 * k)%nat /\ length bytes = (3 * k + length tail)%nat /\
    List.Forall byte_ok tail /\
    (forall f, encode_quanta alphabet f bytes = text ++ f tail) /\
    finish_decode n (decode_loop rev (text ++ bare_tail tail) acc 0 []) =
    if negb (n =? 0) && negb (Z.of_nat (length bytes) =? n) then None else Some bytes.
Proof.
  intros Hb. destruct (split_quanta 3 bytes ltac:(lia)) as (k & whole & tail & -> & Hw & Ht).
  apply Forall_app in Hb as [Hbw Hbt].
  destruct (decode_quads k whole (bare_tail tail) acc [] Hw Hbw) as (text & acc' & Hl & He & Hd).
  exists text, tail, k. split; [done|]. split; [done|]. split; [rewrite length_app; lia|]. split; [done|]. split.
  - intros f. rewrite He. by rewrite encode_short.
  - cbn [app] in Hd. rewrite Hd. by rewrite (decode_bare_tail tail acc' whole n Ht Hbt).
Qed.

Lemma decode_message_inv text n acc r :
  (length text mod 4 <> 1)%nat -> finish_decode n (decode_loop rev text acc 0 []) = Some r ->
  exists whole tail, r = whole ++ tail /\ (length tail < 3)%nat /\ List.Forall byte_ok r /\
    (forall f, encode_quanta alphabet f r = firstn (length text - length text mod 4) text ++ f tail) /\
    text = firstn (length text - length text mod 4) text ++ bare_tail tail /\
    (length text mod 4 = length tail + (if (length tail =? 0)%nat then 0 else 1))%nat.
Proof.
  intros Hm H. destruct (split_quanta 4 text ltac:(lia)) as (k & whole & tail & -> & Hw & Ht).
  assert (length (whole ++ tail) mod 4 = length tail)%nat as Em.
  { rewrite length_app, Hw, Nat.mul_comm, Nat.add_comm, Nat.Div0.mod_add. by apply Nat.mod_small. }
  rewrite Em in *. assert (length (whole ++ tail) - length tail = length whole)%nat as -> by (rewrite length_app; lia).
  rewrite firstn_app, Nat.sub_diag, firstn_all, firstn_O, app_nil_r.
  destruct (decode_loop rev (whole ++ tail) acc 0 []) as [s|] eqn:E; [|done].
  destruct (decode_quads_inv k whole tail acc [] s Hw E) as (bytes & acc' & Hb & Hn & He & Hs).
  cbn [app] in Hs. rewrite <- Hs in H.
  assert (length tail = 0 \/ length tail = 2 \/ length tail = 3)%nat as Hlen by lia.
  destruct (decode_bare_tail_inv tail acc' bytes n r Hlen H) as (data & Hd & Hdb & -> & -> & Hlt).
  exists bytes, data. split; [done|]. split; [done|]. split; [by apply Forall_app|]. split; [|by split].
  intros f. rewrite He. by rewrite encode_short.
Qed.

Lemma finish_length n s r : finish_decode n s = Some r -> n = 0 \/ n = Z.of_nat (length r).
Proof.
  destruct s as [[[acc bits] out]|]; cbn [finish_decode]; [|done]. destruct (_ && _); [done|].
  destruct (Z.eqb_spec n 0); [by left|]. destruct (Z.eqb_spec (Z.of_nat (length out)) n); [|done].
  cbn. intros E. injection E as <-. by right.
Qed.
End codec.

(** ** The two codecs *)

Definition expected (n : Z) (bytes : list Z) : Prop := n = 0 \/ n = Z.of_nat (length bytes).

Lemma expected_check n bytes :
  expected n bytes -> negb (n =? 0) && negb (Z.of_nat (length bytes) =? n) = false.
Proof. intros [->| ->]; [done|]. by rewrite Z.eqb_refl, andb_false_r. Qed.

(** *** Without padding *)

Section bare.
Context (alphabet : str) (rev : list Z) (Hok : alphabet_ok alphabet rev).

(** The decoder that both unpadded dialects write out. *)
Definition decode_bare (text : str) (n : Z) : option (list Z) :=
  if (length text mod 4 =? 1)%nat then None else finish_decode n (decode_loop rev text 0 0 []).

Lemma bare_forward bytes n :
  List.Forall byte_ok bytes -> expected n bytes ->
  decode_bare (encode_quanta alphabet (bare_tail alphabet) bytes) n = Some bytes.
Proof using Hok.
  intros Hb Hn. destruct (decode_message alphabet rev Hok bytes n 0 Hb)
    as (text & tail & k & Ht & Hl & Hlb & Htb & He & Hd).
  rewrite He. rewrite expected_check in Hd by done. unfold decode_bare.
  rewrite Hd, length_app, Hl. replace ((4 * k + _) mod 4 =? 1)%nat with false; [done|]. symmetry. apply Nat.eqb_neq.
  rewrite Nat.mul_comm, Nat.add_comm, Nat.Div0.mod_add. destruct tail as [|? [|? [|? ?]]]; cbn in *; lia.
Qed.

Lemma bare_nonempty bytes : bytes <> [] -> encode_quanta alphabet (bare_tail alphabet) bytes <> [].
Proof. by destruct bytes as [|a [|b [|c ?]]]. Qed.

Lemma bare_backward text n bytes :
  decode_bare text n = Some bytes ->
  text = encode_quanta alphabet (bare_tail alphabet) bytes /\ List.Forall byte_ok bytes /\ expected n bytes.
Proof using Hok.
  unfold decode_bare. destruct (Nat.eqb_spec (length text mod 4) 1); [done|]. intros H.
  destruct (decode_message_inv alphabet rev Hok text n 0 bytes ltac:(done) H)
    as (whole & tail & Er & Ht & Hb & He & Htext & _).
  split; [|split; [done|by eapply finish_length]]. by rewrite He.
Qed.

Lemma encode_ext tail tail' bytes :
  List.Forall byte_ok bytes -> (forall data, List.Forall byte_ok data -> tail data = tail' data) ->
  encode_quanta alphabet tail bytes = encode_quanta alphabet tail' bytes.
Proof.
  intros Hb Ht. revert Hb. induction bytes as [bytes IH] using (induction_ltof1 _ (@length Z)). intros Hb.
  destruct bytes as [|a [|b [|c bytes]]]; cbn [encode_quanta]; [by apply Ht..|].
  rewrite IH; [done|unfold ltof; cbn; lia|]. by inversion_clear Hb as [|? ? _ Hb1]; inversion_clear Hb1 as [|? ? _ Hb2]; inversion_clear Hb2.
Qed.
End bare.

Lemma url_tail_bare data : List.Forall byte_ok data -> url_tail data = bare_tail URL_ALPHABET data.
Proof.
  destruct data as [|a [|b [|? ?]]]; intros H; [done| | |done]; cbn [url_tail bare_tail].
  - inversion_clear H as [|? ? Ha _]. destruct (tail_one URL_ALPHABET a Ha) as [-> ->]. done.
  - inversion_clear H as [|? ? Ha Hb1]. inversion_clear Hb1 as [|? ? Hb _].
    by destruct (tail_two URL_ALPHABET a b Ha Hb) as (-> & -> & ->).
Qed.

Lemma decode_url_bare text n : text <> [] -> decode_base64url text n = decode_bare url_reverse_table text n.
Proof. by destruct text. Qed.

Lemma url_forward bytes n :
  List.Forall byte_ok bytes -> expected n bytes -> decode_base64url (encode_base64url bytes) n = Some bytes.
Proof.
  intros Hb Hn. unfold encode_base64url. rewrite (encode_ext _ _ _ _ Hb url_tail_bare).
  destruct (decide (bytes = [])) as [->|Hne]; [by destruct Hn as [-> | ->]|].
  rewrite decode_url_bare by by apply bare_nonempty. by apply bare_forward; [apply alphabet_url| |].
Qed.

Lemma url_backward text n bytes :
  decode_base64url text n = Some bytes -> text = encode_base64url bytes /\ List.Forall byte_ok bytes /\ expected n bytes.
Proof.
  destruct (decide (text = [])) as [->|Hne].
  { cbn. destruct (Z.eqb_spec n 0) as [->|]; [|done]. intros E. injection E as <-. by repeat split; [|left]. }
  rewrite decode_url_bare by done. intros H.
  apply (bare_backward URL_ALPHABET _ alphabet_url) in H as (-> & Hb & Hn).
  unfold encode_base64url. by rewrite (encode_ext _ _ _ _ Hb url_tail_bare).
Qed.

Definition pad_of (data : list Z) : str :=
  match data with [_] => ["="%char; "="%char] | [_; _] => ["="%char] | _ => [] end.

Lemma padded_tail_bare data :
  List.Forall byte_ok data -> padded_tail data = bare_tail ALPHABET data ++ pad_of data.
Proof.
  destruct data as [|a [|b [|? ?]]]; intros H; [done| | |done]; cbn [padded_tail bare_tail pad_of app].
  - inversion_clear H as [|? ? Ha _]. destruct (tail_one ALPHABET a Ha) as [-> ->]. done.
  - inversion_clear H as [|? ? Ha Hb1]. inversion_clear Hb1 as [|? ? Hb _].
    by destruct (tail_two ALPHABET a b Ha Hb) as (-> & -> & ->).
Qed.

(** *** Padding *)

Lemma decode_loop_chars rev text : forall acc bits out r,
  decode_loop rev text acc bits out = Some r -> List.Forall (fun c => 0 <= value rev c) text.
Proof.
  induction text as [|c text IH]; intros acc bits out r H; [constructor|]. cbn [decode_loop] in H.
  destruct (Z.ltb_spec (value rev c) 0); [done|]. constructor; [done|].
  destruct (8 <=? bits + 6); by apply IH in H.
Qed.

Lemma pad_not_symbol : value reverse_table "="%char = -1.
Proof. vm_compute. reflexivity. Qed.

Lemma padding_split text :
  (padding text <= 2)%nat /\
  text = firstn (length text - padding text) text ++ repeat "="%char (padding text).
Proof.
  assert (text = reverse (reverse text)) as E by by rewrite reverse_involutive. revert E. unfold padding.
  destruct (reverse text) as [|c [|d r]]; intros ->.
  - by split; [lia|].
  - case_bool_decide as Hc; [subst c|]; by split; [lia|].
  - rewrite !reverse_cons. case_bool_decide as Hc; [subst c; case_bool_decide as Hd; [subst d|]|]; (split; [lia|]).
    + rewrite <- app_assoc. cbn [app]. by rewrite (firstn_app_exact (reverse r) ["="%char; "="%char]).
    + by rewrite (firstn_app_exact (reverse r ++ [d]) ["="%char]).
    + cbn [repeat]. rewrite app_nil_r, Nat.sub_0_r, firstn_all. done.
Qed.

Lemma padding_app text k :
  (k <= 2)%nat -> text <> [] -> List.Forall (fun c => c <> "="%char) text ->
  padding (text ++ repeat "="%char k) = k.
Proof.
  intros Hk Hne Hall. destruct (exists_last Hne) as (t & x & ->). apply Forall_app in Hall as [_ Hx].
  inversion_clear Hx as [|? ? Hx' _]. unfold padding. rewrite !reverse_app.
  destruct k as [|[|[|?]]]; [| | |lia]; cbn [repeat reverse rev_append app].
  - by destruct (reverse t); rewrite bool_decide_eq_false_2.
  - by rewrite bool_decide_eq_true_2, bool_decide_eq_false_2.
  - done.
Qed.

Lemma decode_nonempty text n :
  text <> [] -> decode_base64 text n =
  if negb (length text mod 4 =? 0)%nat then None
  else finish_decode n (decode_loop reverse_table (firstn (length text - padding text) text) 0 0 []).
Proof. by destruct text. Qed.

Lemma length_bare_tail alphabet data :
  (length data < 3)%nat -> length (bare_tail alphabet data) = (length data + (if length data =? 0 then 0 else 1))%nat.
Proof. by destruct data as [|? [|? [|? ?]]]; cbn; try lia. Qed.

Lemma pad_of_repeat data :
  (length data < 3)%nat -> pad_of data = repeat "="%char (if length data =? 0 then 0 else 3 - length data)%nat.
Proof. by destruct data as [|? [|? [|? ?]]]; cbn; try lia. Qed.

Lemma padded_forward bytes n :
  List.Forall byte_ok bytes -> expected n bytes -> decode_base64 (encode_base64 bytes) n = Some bytes.
Proof.
  intros Hb Hn. destruct (decode_message ALPHABET reverse_table alphabet_standard bytes n 0 Hb)
    as (text & tail & k & Ht & Hl & Hlb & Htb & He & Hd).
  unfold encode_base64. rewrite He, padded_tail_bare by done. rewrite expected_check in Hd by done.
  rewrite app_assoc, pad_of_repeat by done. set (body := text ++ bare_tail ALPHABET tail) in *.
  set (p := (if length tail =? 0 then 0 else 3 - length tail)%nat).
  assert (length body = 4 * k + length tail + (if length tail =? 0 then 0 else 1))%nat as Hlen
    by (unfold body; rewrite length_app, length_bare_tail by done; lia).
  destruct (decide (bytes = [])) as [->|Hne].
  { assert (k = 0 /\ length tail = 0)%nat as [-> Htl] by (cbn in Hlb; lia). destruct tail; [|done].
    destruct text; [|done]. destruct Hn as [-> | ->]; done. }
  assert (body <> []) as Hbody.
  { intros E. rewrite E in Hlen. destruct bytes; [done|]. destruct (Nat.eqb_spec (length tail) 0); cbn in *; lia. }
  destruct (decode_loop reverse_table body 0 0 []) as [s|] eqn:E; [|done].
  rewrite decode_nonempty by (intros E'; apply app_eq_nil in E' as [? _]; done).
  rewrite padding_app; [|unfold p; destruct (Nat.eqb_spec (length tail) 0); lia|done|].
  - rewrite firstn_app_exact, E, Hd by apply repeat_length. rewrite length_app, repeat_length.
    replace ((length body + p) mod 4 =? 0)%nat with true; [done|]. symmetry. apply Nat.eqb_eq.
    rewrite Hlen. unfold p. destruct (Nat.eqb_spec (length tail) 0).
    + replace (4 * k + length tail + 0 + 0)%nat with (k * 4)%nat by lia. apply Nat.Div0.mod_mul.
    + replace (4 * k + length tail + 1 + (3 - length tail))%nat with ((k + 1) * 4)%nat by lia. apply Nat.Div0.mod_mul.
  - apply decode_loop_chars in E. eapply List.Forall_impl; [|exact E]. intros c Hc ->.
    rewrite pad_not_symbol in Hc. lia.
Qed.

Lemma padded_backward text n bytes :
  decode_base64 text n = Some bytes -> text = encode_base64 bytes /\ List.Forall byte_ok bytes /\ expected n bytes.
Proof.
  destruct (decide (text = [])) as [->|Hne].
  { cbn. destruct (Z.eqb_spec n 0) as [->|]; [|done]. intros E. injection E as <-.
    split; [done|]. split; [constructor|by left]. }
  rewrite decode_nonempty by done. destruct (Nat.eqb_spec (length text mod 4) 0) as [Hm|]; [|done]. cbn [negb].
  destruct (padding_split text) as [Hp Hsplit]. set (p := padding text) in *.
  set (body := firstn (length text - p) text) in *. intros H.
  assert (length text = length body + p)%nat as Hl by (rewrite Hsplit at 1; by rewrite length_app, repeat_length).
  assert (length body mod 4 = (4 - p) mod 4)%nat as Hbm.
  { pose proof (Nat.div_mod_eq (length text) 4). rewrite Hm, Nat.add_0_r in *. clear Hsplit.
    assert (exists q, length body + p = 4 * q)%nat as [q Hq] by (exists (length text / 4)%nat; lia).
    destruct p as [|[|[|?]]]; [| | |lia].
    - change ((4 - 0) mod 4)%nat with 0%nat. replace (length body) with (q * 4)%nat by lia. apply Nat.Div0.mod_mul.
    - change ((4 - 1) mod 4)%nat with 3%nat. replace (length body) with (3 + (q - 1) * 4)%nat by lia. by rewrite Nat.Div0.mod_add.
    - change ((4 - 2) mod 4)%nat with 2%nat. replace (length body) with (2 + (q - 1) * 4)%nat by lia. by rewrite Nat.Div0.mod_add. }
  destruct (decode_message_inv ALPHABET reverse_table alphabet_standard body n 0 bytes) as (whole & tail & Er & Ht & Hb & He & Htext & Hlen).
  { rewrite Hbm. by destruct p as [|[|[|?]]]; [| | |lia]. }
  { exact H. }
  split; [|split; [done|by eapply finish_length]]. unfold encode_base64. rewrite He, padded_tail_bare.
  - rewrite app_assoc, <- Htext, pad_of_repeat by done. rewrite Hsplit at 1. f_equal. f_equal.
    rewrite Hbm in Hlen. destruct p as [|[|[|?]]]; [| | |lia]; cbn in Hlen;
      destruct tail as [|? [|? [|? ?]]]; cbn in *; lia.
  - rewrite Er in Hb. by apply Forall_app in Hb as [_ Hb].
Qed.

(** A code is at most 4/3 of its bytes, rounded up to whole quanta. *)
Lemma encode_length bytes :
  List.Forall byte_ok bytes -> length (encode_base64 bytes) = (4 * ((length bytes + 2) / 3))%nat.
Proof.
  intros Hb. destruct (decode_message ALPHABET reverse_table alphabet_standard bytes 0 0 Hb)
    as (text & tail & k & Ht & Hl & Hlb & Htb & He & _).
  unfold encode_base64. rewrite He, padded_tail_bare, !length_app, length_bare_tail, pad_of_repeat, repeat_length, Hl, Hlb by done.
  destruct tail as [|? [|? [|? ?]]]; cbn [length Nat.eqb Nat.sub] in *; [| | |lia].
  - replace (3 * k + 0 + 2)%nat with (2 + k * 3)%nat by lia. rewrite Nat.div_add by lia. cbn. lia.
  - replace (3 * k + 1 + 2)%nat with (0 + (k + 1) * 3)%nat by lia. rewrite Nat.div_add by lia. cbn. lia.
  - replace (3 * k + 2 + 2)%nat with (1 + (k + 1) * 3)%nat by lia. rewrite Nat.div_add by lia. cbn. lia.
Qed.
