(* ===== verification/Bytes.v ===== *)
(** * Byte buffers

    The cryptographic code works on arrays of bytes: [memcpy] into them, big-endian words
    loaded from and stored to them, bytewise exclusive or, hexadecimal digits. Last, the interface of a hash function. *)
From S2P Require Import Prelude Types.
Open Scope Z_scope.

(** ** Arrays *)

(** [memcpy(dst + off, src, length src)]; the range is inside [dst] wherever it is used. *)
Definition memcpy (dst : list Z) (off : nat) (src : list Z) : list Z :=
  firstn off dst ++ src ++ skipn (off + length src) dst.

Lemma memcpy_length dst off src :
  (off + length src <= length dst)%nat -> length (memcpy dst off src) = length dst.
Proof. intros H. unfold memcpy. rewrite !length_app, length_firstn, length_skipn. lia. Qed.

(** The bytes up to the end of the range copied. *)
Lemma memcpy_prefix dst off src :
  (off + length src <= length dst)%nat ->
  firstn (off + length src) (memcpy dst off src) = firstn off dst ++ src.
Proof.
  intros H. unfold memcpy. rewrite app_assoc, firstn_app.
  rewrite firstn_all2 by (rewrite length_app, length_firstn; lia).
  rewrite length_app, length_firstn.
  replace (off + length src - _)%nat with 0%nat by lia. by rewrite firstn_O, app_nil_r.
Qed.

Lemma memcpy_all dst src : length src = length dst -> memcpy dst 0 src = src.
Proof. intros H. unfold memcpy. rewrite H. cbn. by rewrite drop_all, app_nil_r. Qed.

Lemma firstn_repeat_le {A} (x : A) n m : (n <= m)%nat -> firstn n (repeat x m) = repeat x n.
Proof.
  revert m. induction n as [|n IH]; intros [|m] H; cbn; [done|done|lia|]. f_equal. apply IH. lia.
Qed.

Lemma skipn_repeat_sub {A} (x : A) n m : skipn n (repeat x m) = repeat x (m - n).
Proof. revert m. induction n as [|n IH]; intros [|m]; cbn; [done..|]. apply IH. Qed.

(** A block of bytes cut into pieces of [n]; a last shorter piece is left out. *)
Definition chunks (n : nat) (l : list Z) : list (list Z) :=
  map (fun i => firstn n (skipn (i * n) l)) (seq 0 (length l / n)).

Lemma chunks_nil n : chunks n [] = [].
Proof. unfold chunks. cbn [length]. by rewrite Nat.Div0.div_0_l. Qed.

Lemma chunks_one n l : (0 < n)%nat -> length l = n -> chunks n l = [l].
Proof.
  intros Hn Hl. unfold chunks. rewrite Hl, Nat.div_same by lia. cbn.
  by rewrite <- Hl, firstn_all.
Qed.

Lemma chunks_app n k a b :
  (0 < n)%nat -> length a = (k * n)%nat -> chunks n (a ++ b) = chunks n a ++ chunks n b.
Proof.
  intros Hn Ha. unfold chunks. rewrite length_app, Ha, (Nat.add_comm (k * n)), Nat.div_add by lia.
  rewrite Nat.div_mul, Nat.add_comm, seq_app, map_app by lia. f_equal.
  - apply map_ext_in. intros i Hi%in_seq. apply window_app. rewrite Ha. nia.
  - assert (seq (0 + k) (length b / n) = map (Nat.add k) (seq 0 (length b / n))) as ->.
    { rewrite Nat.add_0_l, <- (Nat.add_0_r k) at 1. symmetry. apply fmap_add_seq. }
    rewrite map_map. apply map_ext. intros i. f_equal. rewrite Nat.mul_add_distr_r, <- Ha.
    rewrite skipn_app, skipn_all2 by lia. cbn [app]. f_equal. lia.
Qed.

Lemma chunks_length n l : (0 < n)%nat -> List.Forall (fun c => length c = n) (chunks n l).
Proof.
  intros Hn. apply List.Forall_forall. intros c [i [<- Hi%in_seq]]%in_map_iff.
  rewrite length_firstn, length_skipn. assert (i < length l / n)%nat as Hi' by lia.
  pose proof (Nat.div_mod_eq (length l) n). nia.
Qed.

(** ** Big-endian words *)

(** [store_be32] and [store_be64]: the [n] low bytes of [v], the highest first. *)
Definition store_be (n : nat) (v : Z) : list Z :=
  map (fun i => Z.land (Z.shiftr v (8 * Z.of_nat (n - 1 - i))) 255) (seq 0 n).

(** The loop of [load_be64], in [w]-bit arithmetic. *)
Definition load_be (w : Z) (p : list Z) : Z :=
  fold_left (fun v b => Z.lor (Z.shiftl v 8 mod 2 ^ w) b) p 0.

Lemma store_be_length n v : length (store_be n v) = n.
Proof. unfold store_be. by rewrite length_map, length_seq. Qed.

Lemma store_be_ok n v : List.Forall byte_ok (store_be n v).
Proof.
  apply List.Forall_forall. intros x [i [<- _]]%in_map_iff. rewrite land_255.
  apply Z.mod_pos_bound. lia.
Qed.

(** The number a byte string spells, the highest byte first. *)
Definition be_value (l : list Z) : Z := fold_left (fun v b => v * 256 + b) l 0.

Lemma fold_be_value a l : fold_left (fun v b => v * 256 + b) l a = a * 256 ^ Z.of_nat (length l) + be_value l.
Proof.
  unfold be_value. revert a. induction l as [|x l IH]; intros a; cbn [fold_left length]; [cbn; lia|].
  rewrite IH, (IH (0 * 256 + x)). rewrite Nat2Z.inj_succ, Z.pow_succ_r by lia. ring.
Qed.

Lemma be_value_snoc a x : be_value (a ++ [x]) = be_value a * 256 + x.
Proof. unfold be_value. by rewrite fold_left_app. Qed.

Lemma store_be_S n v : store_be (S n) v = store_be n (v / 256) ++ [v mod 256].
Proof.
  unfold store_be. rewrite seq_S, map_app. f_equal.
  - apply map_ext_in. intros i Hi%in_seq. rewrite !shiftr_div by lia. f_equal.
    rewrite Z.div_div by lia. f_equal. change 256 with (2 ^ 8). rewrite <- Z.pow_add_r by lia. f_equal. lia.
  - cbn [map]. f_equal. replace (S n - 1 - (0 + n))%nat with 0%nat by lia.
    rewrite shiftr_div by lia. cbn. by rewrite Z.div_1_r, land_255.
Qed.

(** Storing a word that fits loses nothing. *)
Lemma be_value_store n v : be_value (store_be n v) = v mod 256 ^ Z.of_nat n.
Proof.
  revert v. induction n as [|n IH]; intros v; [cbn; by rewrite Z.mod_1_r|].
  rewrite store_be_S, be_value_snoc, IH, Nat2Z.inj_succ, Z.pow_succ_r by lia.
  rewrite Z.rem_mul_r by lia. lia.
Qed.

Lemma store_be_inj n v w :
  0 <= v < 256 ^ Z.of_nat n -> 0 <= w < 256 ^ Z.of_nat n -> store_be n v = store_be n w -> v = w.
Proof.
  intros Hv Hw H. apply (f_equal be_value) in H. rewrite !be_value_store in H.
  by rewrite !Z.mod_small in H.
Qed.

(** ** Exclusive or *)

Definition xor_bytes : list Z -> list Z -> list Z := zip_with Z.lxor.

Lemma xor_byte_ok a b : byte_ok a -> byte_ok b -> byte_ok (Z.lxor a b).
Proof.
  intros Ha Hb. split.
  - apply Z.lxor_nonneg. destruct Ha, Hb. tauto.
  - destruct (Z.eq_dec (Z.lxor a b) 0) as [->|Hne]; [lia|].
    apply (Z.log2_lt_pow2 _ 8); [pose proof (proj2 (Z.lxor_nonneg a b) ltac:(destruct Ha, Hb; tauto)); lia|].
    eapply Z.le_lt_trans; [apply Z.log2_lxor; [apply Ha|apply Hb]|].
    apply Z.max_lub_lt; (destruct (Z.eq_dec a 0), (Z.eq_dec b 0); subst; try (cbn; lia);
      apply Z.log2_lt_pow2; unfold byte_ok in *; lia).
Qed.

Lemma xor_bytes_length a b : length (xor_bytes a b) = Nat.min (length a) (length b).
Proof. apply length_zip_with. Qed.

(** Exclusive or with the same long enough stream twice gives the text back. *)
Lemma xor_bytes_twice a k : (length a <= length k)%nat -> xor_bytes (xor_bytes a k) k = a.
Proof.
  revert k. induction a as [|x a IH]; intros [|y k] H; cbn [length] in H; cbn; [done|done|lia|].
  f_equal; [xor_solve|]. apply IH. lia.
Qed.

(** ** Comparison of secrets

    [constant_time_equals] over two arrays of one length. *)
Definition constant_time_equals (a b : list Z) : bool :=
  fold_left (fun diff p => Z.lor diff (Z.lxor p.1 p.2)) (zip a b) 0 =? 0.

Lemma constant_time_equals_spec a b :
  length a = length b -> constant_time_equals a b = true <-> a = b.
Proof.
  unfold constant_time_equals. intros Hl. rewrite Z.eqb_eq.
  assert (forall d, fold_left (fun diff p => Z.lor diff (Z.lxor p.1 p.2)) (zip a b) d = 0 <-> d = 0 /\ a = b) as ->;
    [|tauto].
  revert b Hl. induction a as [|x a IH]; intros [|y b] Hl d; cbn [length] in Hl; try lia; cbn; [tauto|].
  rewrite IH by lia. rewrite Z.lor_eq_0_iff, Z.lxor_eq_0_iff. split; [intros [[? ->] ->]; done|].
  intros [? [= -> ->]]. done.
Qed.

(** ** Hexadecimal *)

Definition HEX : str := lit "0123456789abcdef".

Definition to_hex (d : list Z) : str :=
  flat_map (fun b => [nth (Z.to_nat (Z.shiftr b 4)) HEX Ascii.zero;
                      nth (Z.to_nat (Z.land b 15)) HEX Ascii.zero]) d.

(** Tables of constants are written as the source groups them: hexadecimal words with
    blanks between them. *)
Definition hex_digit (c : ascii) : Z :=
  let v := Z.of_N (Ascii.N_of_ascii c) in if v <? 58 then v - 48 else v - 87.

Fixpoint hex_words (acc : option Z) (l : str) : list Z :=
  match l with
  | [] => match acc with Some v => [v] | None => [] end
  | c :: l =>
      if bool_decide (c = " "%char) then match acc with Some v => v :: hex_words None l | None => hex_words None l end
      else hex_words (Some (default 0 acc * 16 + hex_digit c)) l
  end.

Definition row (r : String.string) : list Z := hex_words None (lit r).
Arguments row r%_string_scope.

(** ** The hash interface

    What [crypto/hmac.h] and [crypto/hkdf.h] need of their template argument [HashT]: an
    object with [update] and [finish], and the laws that make it a hash function. The
    implementations are in [Sha2], the proofs of the laws in [Sha2Spec]. *)
From S2P Require Import Prelude Types.
Open Scope Z_scope.

(** The operations of [HashT]. *)
Class Hash := {
  ctx : Type;
  DIGEST_SIZE : nat;
  BLOCK_SIZE : nat;
  init : ctx;
  update : ctx -> list Z -> ctx;
  finish : ctx -> list Z }.

(** [HashT::hash], the one-shot form. *)
Definition hash `{Hash} (data : list Z) : list Z := finish (update init data).

(** Sizes are below [2 ^ 61] bytes, the range in which the length field is exact. *)
Definition size_ok (n : nat) : Prop := Z.of_nat n < 2 ^ 61.

(** The laws: a function of the concatenated input, to byte strings of one length. *)
Class HashLaws (HashT : Hash) := {
  digest : list Z -> list Z;
  hash_stream : forall segs, size_ok (length (concat segs)) ->
    finish (fold_left update segs init) = digest (concat segs);
  digest_length : forall msg, length (digest msg) = DIGEST_SIZE;
  digest_bytes : forall msg, List.Forall byte_ok (digest msg);
  digest_fits : (0 < DIGEST_SIZE <= BLOCK_SIZE)%nat;
  block_small : (BLOCK_SIZE <= 128)%nat }.

Lemma hash_digest `{L : HashLaws} data : size_ok (length data) -> hash data = digest data.
Proof.
  intros H. pose proof (hash_stream [data]) as E. cbn in E. rewrite app_nil_r in E. by apply E.
Qed.
