(* ===== verification/Sha2.v ===== *)
(** * SHA-2

    [crypto/sha256.cpp] and [crypto/sha512.cpp]: one compression function on 32-bit and
    one on 64-bit words, and the same streaming object around both. The two sources repeat
    each other with other constants, so the common text is written once over a [Variant]
    and instantiated in the Modules [Sha256], [Sha512Core], [Sha512] and [Sha384]. *)
From S2P Require Import Prelude Types Zobrist Bytes.
Open Scope Z_scope.

(** ** The compression function *)

(** [state_\[8\]], also the working variables [a .. h]. *)
Record Words := mkWords { wa : Z; wb : Z; wc : Z; wd : Z; we : Z; wf : Z; wg : Z; wh : Z }.

Definition words_list (s : Words) : list Z := [wa s; wb s; wc s; wd s; we s; wf s; wg s; wh s].

(** The constants in which the two compression functions differ. *)
Record Variant := mkVariant {
  word_bits : Z;                           (* the width of a word *)
  K : list Z;                              (* the round constants *)
  load_word : list Z -> Z;                 (* [load_be32] / [load_be64] *)
  rot_big0 : Z * Z * Z;                    (* the rotations of [big_sigma0] *)
  rot_big1 : Z * Z * Z;
  rot_small0 : Z * Z * Z;                  (* two rotations and a shift *)
  rot_small1 : Z * Z * Z }.

Section compression.
Context (V : Variant).

Definition wrap (z : Z) : Z := z mod 2 ^ word_bits V.

Definition rotr (x n : Z) : Z := Z.lor (Z.shiftr x n) (wrap (Z.shiftl x (word_bits V - n))).

Definition ch (x y z : Z) : Z := Z.land x y ^^ Z.land (Z.lnot x) z.
Definition maj (x y z : Z) : Z := Z.land x y ^^ Z.land x z ^^ Z.land y z.

Definition big_sigma (r : Z * Z * Z) (x : Z) : Z :=
  let '(r1, r2, r3) := r in rotr x r1 ^^ rotr x r2 ^^ rotr x r3.
Definition small_sigma (r : Z * Z * Z) (x : Z) : Z :=
  let '(r1, r2, r3) := r in rotr x r1 ^^ rotr x r2 ^^ Z.shiftr x r3.

Definition big_sigma0 : Z -> Z := big_sigma (rot_big0 V).
Definition big_sigma1 : Z -> Z := big_sigma (rot_big1 V).
Definition small_sigma0 : Z -> Z := small_sigma (rot_small0 V).
Definition small_sigma1 : Z -> Z := small_sigma (rot_small1 V).

(** The second loop over [w]: each round appends [w\[i\]], [i] the length so far. *)
Fixpoint extend_schedule (rounds : nat) (w : list Z) : list Z :=
  match rounds with
  | O => w
  | S rounds =>
      let i := length w in
      let word := wrap (small_sigma1 (nth (i - 2) w 0) + nth (i - 7) w 0 +
                        small_sigma0 (nth (i - 15) w 0) + nth (i - 16) w 0) in
      extend_schedule rounds (w ++ [word])
  end.

Definition word_bytes : nat := Z.to_nat (word_bits V / 8).

Definition schedule (block : list Z) : list Z :=
  extend_schedule (length (K V) - 16)
    (map (fun i => load_word V (firstn word_bytes (skipn (i * word_bytes) block))) (seq 0 16)).

(** One round with constant [k] and message word [w]. *)
Definition round (s : Words) (kw : Z * Z) : Words :=
  let '(k, w) := kw in
  let t1 := wrap (wh s + big_sigma1 (we s) + ch (we s) (wf s) (wg s) + k + w) in
  let t2 := wrap (big_sigma0 (wa s) + maj (wa s) (wb s) (wc s)) in
  mkWords (wrap (t1 + t2)) (wa s) (wb s) (wc s) (wrap (wd s + t1)) (we s) (wf s) (wg s).

Definition add_words (s t : Words) : Words :=
  mkWords (wrap (wa s + wa t)) (wrap (wb s + wb t)) (wrap (wc s + wc t)) (wrap (wd s + wd t))
          (wrap (we s + we t)) (wrap (wf s + wf t)) (wrap (wg s + wg t)) (wrap (wh s + wh t)).

Definition process_block (state : Words) (block : list Z) : Words :=
  add_words state (fold_left round (zip (K V) (schedule block)) state).
End compression.

(** ** The streaming object *)

Record Stream := mkStream {
  state_ : Words;
  buffer_ : list Z;
  buffer_len_ : nat;
  total_bytes_ : Z }.

Section stream.
(** The block size, the compression of one block, the length field that ends the padding. *)
Context (BLOCK_SIZE : nat) (process : Words -> list Z -> Words) (length_field : Z -> list Z).
(** Where the length field starts in the last block: 56, 112. *)
Context (limit : nat).

Definition fresh_stream (iv : Words) : Stream := mkStream iv (repeat 0 BLOCK_SIZE) 0 0.

(** The top-up: [piece] goes behind the bytes pending, and a full buffer is processed. *)
Definition absorb (h : Stream) (piece : list Z) : Stream :=
  let buffer := memcpy (buffer_ h) (buffer_len_ h) piece in
  let len := (buffer_len_ h + length piece)%nat in
  if (len =? BLOCK_SIZE)%nat
  then mkStream (process (state_ h) buffer) buffer 0 (total_bytes_ h)
  else mkStream (state_ h) buffer len (total_bytes_ h).

(** The loop over whole blocks of the caller's memory. *)
Fixpoint whole_blocks (fuel : nat) (s : Words) (data : list Z) : Words * list Z :=
  match fuel with
  | O => (s, data)
  | S fuel =>
      if (BLOCK_SIZE <=? length data)%nat
      then whole_blocks fuel (process s (firstn BLOCK_SIZE data)) (skipn BLOCK_SIZE data)
      else (s, data)
  end.

Definition update (h : Stream) (data : list Z) : Stream :=
  if (length data =? 0)%nat then h else
  let h := mkStream (state_ h) (buffer_ h) (buffer_len_ h)
             (wrap64 (total_bytes_ h + Z.of_nat (length data))) in
  let '(h, data) :=
    if (0 <? buffer_len_ h)%nat then
      let need := (BLOCK_SIZE - buffer_len_ h)%nat in
      let take := if (length data <? need)%nat then length data else need in
      (absorb h (firstn take data), skipn take data)
    else (h, data) in
  let '(s, data) := whole_blocks (length data) (state_ h) data in
  if (0 <? length data)%nat
  then mkStream s (memcpy (buffer_ h) 0 data) (length data) (total_bytes_ h)
  else mkStream s (buffer_ h) (buffer_len_ h) (total_bytes_ h).

(** The loop of [finish] over the padding, of which [pad] is still to come. *)
Fixpoint feed (fuel : nat) (h : Stream) (pad : list Z) : Stream :=
  match fuel with
  | O => h
  | S fuel =>
      if (0 <? length pad)%nat then
        let need := (BLOCK_SIZE - buffer_len_ h)%nat in
        let take := if (length pad <? need)%nat then length pad else need in
        feed fuel (absorb h (firstn take pad)) (skipn take pad)
      else h
  end.

Definition pad_length (h : Stream) : nat :=
  let rem := ((buffer_len_ h + 1) mod BLOCK_SIZE)%nat in
  let zeros := if (rem <=? limit)%nat then (limit - rem)%nat else (limit + BLOCK_SIZE - rem)%nat in
  1 + zeros.

(** [pad], an array of two blocks of which the first [total_pad] bytes are fed. *)
Definition padding_bytes (h : Stream) : list Z :=
  let bit_len := wrap64 (total_bytes_ h * 8) in
  let pad := 128 :: repeat 0 (BLOCK_SIZE * 2 - 1) in
  let pad := memcpy pad (pad_length h) (length_field bit_len) in
  firstn (pad_length h + length (length_field bit_len)) pad.

(** The state after the padding; the digest is read from it. *)
Definition finish_stream (h : Stream) : Words :=
  let pad := padding_bytes h in state_ (feed (length pad) h pad).
End stream.

(** ** SHA-256 *)

Module Sha256.
Definition DIGEST_SIZE : nat := 32.
Definition BLOCK_SIZE : nat := 64.

Definition K : list Z := Eval vm_compute in
  (row "428a2f98 71374491 b5c0fbcf e9b5dba5 3956c25b 59f111f1 923f82a4 ab1c5ed5" ++
   row "d807aa98 12835b01 243185be 550c7dc3 72be5d74 80deb1fe 9bdc06a7 c19bf174" ++
   row "e49b69c1 efbe4786 0fc19dc6 240ca1cc 2de92c6f 4a7484aa 5cb0a9dc 76f988da" ++
   row "983e5152 a831c66d b00327c8 bf597fc7 c6e00bf3 d5a79147 06ca6351 14292967" ++
   row "27b70a85 2e1b2138 4d2c6dfc 53380d13 650a7354 766a0abb 81c2c92e 92722c85" ++
   row "a2bfe8a1 a81a664b c24b8b70 c76c51a3 d192e819 d6990624 f40e3585 106aa070" ++
   row "19a4c116 1e376c08 2748774c 34b0bcb5 391c0cb3 4ed8aa4a 5b9cca4f 682e6ff3" ++
   row "748f82ee 78a5636f 84c87814 8cc70208 90befffa a4506ceb bef9a3f7 c67178f2")%list.

Definition load_be32 (p : list Z) : Z :=
  Z.lor (Z.lor (Z.lor (Z.shiftl (nth 0 p 0) 24) (Z.shiftl (nth 1 p 0) 16)) (Z.shiftl (nth 2 p 0) 8))
        (nth 3 p 0).

Definition variant : Variant :=
  mkVariant 32 K load_be32 (2, 13, 22) (6, 11, 25) (7, 18, 3) (17, 19, 10).

Definition process_block : Words -> list Z -> Words := Sha2.process_block variant.
Definition reset : Stream := fresh_stream BLOCK_SIZE
  (mkWords 0x6a09e667 0xbb67ae85 0x3c6ef372 0xa54ff53a
           0x510e527f 0x9b05688c 0x1f83d9ab 0x5be0cd19).
Definition update : Stream -> list Z -> Stream := Sha2.update BLOCK_SIZE process_block.

Definition finish (h : Stream) : list Z :=
  flat_map (store_be 4) (words_list (finish_stream BLOCK_SIZE process_block (store_be 8) 56 h)).

Definition hash (data : list Z) : list Z := finish (update reset data).
End Sha256.

(** ** SHA-512 and SHA-384 *)

Module Sha512Core.
Definition BLOCK_SIZE : nat := 128.

Definition K : list Z := Eval vm_compute in
  (row "428a2f98d728ae22 7137449123ef65cd b5c0fbcfec4d3b2f e9b5dba58189dbbc" ++
   row "3956c25bf348b538 59f111f1b605d019 923f82a4af194f9b ab1c5ed5da6d8118" ++
   row "d807aa98a3030242 12835b0145706fbe 243185be4ee4b28c 550c7dc3d5ffb4e2" ++
   row "72be5d74f27b896f 80deb1fe3b1696b1 9bdc06a725c71235 c19bf174cf692694" ++
   row "e49b69c19ef14ad2 efbe4786384f25e3 0fc19dc68b8cd5b5 240ca1cc77ac9c65" ++
   row "2de92c6f592b0275 4a7484aa6ea6e483 5cb0a9dcbd41fbd4 76f988da831153b5" ++
   row "983e5152ee66dfab a831c66d2db43210 b00327c898fb213f bf597fc7beef0ee4" ++
   row "c6e00bf33da88fc2 d5a79147930aa725 06ca6351e003826f 142929670a0e6e70" ++
   row "27b70a8546d22ffc 2e1b21385c26c926 4d2c6dfc5ac42aed 53380d139d95b3df" ++
   row "650a73548baf63de 766a0abb3c77b2a8 81c2c92e47edaee6 92722c851482353b" ++
   row "a2bfe8a14cf10364 a81a664bbc423001 c24b8b70d0f89791 c76c51a30654be30" ++
   row "d192e819d6ef5218 d69906245565a910 f40e35855771202a 106aa07032bbd1b8" ++
   row "19a4c116b8d2d0c8 1e376c085141ab53 2748774cdf8eeb99 34b0bcb5e19b48a8" ++
   row "391c0cb3c5c95a63 4ed8aa4ae3418acb 5b9cca4f7763e373 682e6ff3d6b2b8a3" ++
   row "748f82ee5defb2fc 78a5636f43172f60 84c87814a1f0ab72 8cc702081a6439ec" ++
   row "90befffa23631e28 a4506cebde82bde9 bef9a3f7b2c67915 c67178f2e372532b" ++
   row "ca273eceea26619c d186b8c721c0c207 eada7dd6cde0eb1e f57d4f7fee6ed178" ++
   row "06f067aa72176fba 0a637dc5a2c898a6 113f9804bef90dae 1b710b35131c471b" ++
   row "28db77f523047d84 32caab7b40c72493 3c9ebe0a15c9bebc 431d67c49c100d4c" ++
   row "4cc5d4becb3e42b6 597f299cfc657e2a 5fcb6fab3ad6faec 6c44198c4a475817")%list.

Definition variant : Variant :=
  mkVariant 64 K (load_be 64) (28, 34, 39) (14, 18, 41) (1, 8, 7) (19, 61, 6).

Definition process_block : Words -> list Z -> Words := Sha2.process_block variant.
Definition init_512 : Stream := fresh_stream BLOCK_SIZE
  (mkWords 0x6a09e667f3bcc908 0xbb67ae8584caa73b
           0x3c6ef372fe94f82b 0xa54ff53a5f1d36f1
           0x510e527fade682d1 0x9b05688c2b3e6c1f
           0x1f83d9abfb41bd6b 0x5be0cd19137e2179).
Definition init_384 : Stream := fresh_stream BLOCK_SIZE
  (mkWords 0xcbbb9d5dc1059ed8 0x629a292a367cd507
           0x9159015a3070dd17 0x152fecd8f70e5939
           0x67332667ffc00b31 0x8eb44a8768581511
           0xdb0c2e0d64f98fa7 0x47b5481dbefa4fa4).
Definition update : Stream -> list Z -> Stream := Sha2.update BLOCK_SIZE process_block.

(** The high half of the 128-bit length stays zero. *)
Definition length_field (bit_len : Z) : list Z := store_be 8 0 ++ store_be 8 bit_len.

Definition finish (h : Stream) (out_len : nat) : list Z :=
  let full := flat_map (store_be 8) (words_list (finish_stream BLOCK_SIZE process_block length_field 112 h)) in
  firstn out_len full.
End Sha512Core.

Module Sha512.
Definition DIGEST_SIZE : nat := 64.
Definition reset : Stream := Sha512Core.init_512.
Definition update : Stream -> list Z -> Stream := Sha512Core.update.
Definition finish (h : Stream) : list Z := Sha512Core.finish h DIGEST_SIZE.
Definition hash (data : list Z) : list Z := finish (update reset data).
End Sha512.

Module Sha384.
Definition DIGEST_SIZE : nat := 48.
Definition reset : Stream := Sha512Core.init_384.
Definition update : Stream -> list Z -> Stream := Sha512Core.update.
Definition finish (h : Stream) : list Z := Sha512Core.finish h DIGEST_SIZE.
Definition hash (data : list Z) : list Z := finish (update reset data).
End Sha384.
