(* ===== verification/Sha2Spec.v ===== *)
(** * FIPS 180-4 and the streaming SHA-2 objects

    The padding and the Merkle-Damgård chain of the standard, and the proof that the
    streaming object computes them however its input is cut into updates. *)
From S2P Require Import Prelude Types Zobrist Bytes Sha2.
Open Scope Z_scope.

(** ** The standard *)

Section fips.
Context (BLOCK_SIZE : nat) (process : Words -> list Z -> Words) (length_field : Z -> list Z) (limit : nat).

(** Section 5.1: the bit 1, the least number of zeros that leaves room for the length
    at the end of a block, and the length in bits. *)
Definition zeros (len : nat) : nat :=
  Z.to_nat ((Z.of_nat limit - Z.of_nat len - 1) mod Z.of_nat BLOCK_SIZE).

Definition padded (msg : list Z) : list Z :=
  msg ++ 128 :: repeat 0 (zeros (length msg)) ++ length_field (8 * Z.of_nat (length msg)).

(** Section 6: the chain of compressions over the blocks. *)
Definition merkle_damgard (iv : Words) (text : list Z) : Words :=
  fold_left process (chunks BLOCK_SIZE text) iv.
End fips.

(** The three functions, as the standard defines them on whole messages. *)
Definition sha256 (msg : list Z) : list Z :=
  flat_map (store_be 4) (words_list
    (merkle_damgard 64 Sha256.process_block (state_ Sha256.reset) (padded 64 (store_be 8) 56 msg))).

Definition sha512_with (iv : Words) (msg : list Z) : list Z :=
  flat_map (store_be 8) (words_list
    (merkle_damgard 128 Sha512Core.process_block iv (padded 128 (store_be 16) 112 msg))).
Definition sha512 (msg : list Z) : list Z := sha512_with (state_ Sha512Core.init_512) msg.
Definition sha384 (msg : list Z) : list Z := firstn 48 (sha512_with (state_ Sha512Core.init_384) msg).

(** ** The streaming object holds a message *)

Section stream.
Context (B : nat) (process : Words -> list Z -> Words) (length_field : Z -> list Z) (limit : nat).
Context (HB : (0 < B)%nat) (iv : Words).
Notation absorb := (absorb B process).
Notation update := (update B process).
Notation feed := (feed B process).
Notation chain := (merkle_damgard B process iv).

(** [msg] has been absorbed: whole blocks into the state, the rest into the buffer. *)
Definition holds (h : Stream) (msg : list Z) : Prop :=
  exists whole rest k,
    msg = whole ++ rest /\ length whole = (k * B)%nat /\ state_ h = chain whole /\
    buffer_len_ h = length rest /\ (length rest < B)%nat /\
    firstn (length rest) (buffer_ h) = rest /\ length (buffer_ h) = B.

Lemma holds_fresh : holds (fresh_stream B iv) [].
Proof.
  exists [], [], 0%nat. unfold merkle_damgard. rewrite chunks_nil.
  repeat split; cbn; try lia; try done. apply repeat_length.
Qed.

Lemma chain_app k a b : length a = (k * B)%nat -> chain (a ++ b) = fold_left process (chunks B b) (chain a).
Proof. intros Ha. unfold merkle_damgard. rewrite (chunks_app B k) by lia. apply fold_left_app. Qed.

Lemma chain_block k a b : length a = (k * B)%nat -> length b = B -> chain (a ++ b) = process (chain a) b.
Proof. intros Ha Hb. by rewrite (chain_app k), chunks_one by done. Qed.

(** One piece that fits into the buffer. *)
Lemma absorb_holds h msg piece :
  holds h msg -> (buffer_len_ h + length piece <= B)%nat -> holds (absorb h piece) (msg ++ piece).
Proof.
  intros (whole & rest & k & -> & Hw & Hs & Hl & Hlt & Hb & HB') Hp. unfold Sha2.absorb.
  rewrite Hl in Hp |- *.
  pose proof (memcpy_prefix (buffer_ h) (length rest) piece ltac:(lia)) as Hm. rewrite Hb in Hm.
  pose proof (memcpy_length (buffer_ h) (length rest) piece ltac:(lia)) as Hml.
  destruct (Nat.eqb_spec (length rest + length piece) B) as [Heq|Hne].
  - exists (whole ++ rest ++ piece), [], (S k). rewrite app_nil_r, <- app_assoc.
    repeat split; cbn [state_ buffer_ buffer_len_ length]; try lia; try done.
    + rewrite !length_app. lia.
    + rewrite (chain_block k) by (rewrite ?length_app; lia). rewrite <- Hs. f_equal.
      rewrite <- Hm, Heq, <- HB', <- Hml. by rewrite firstn_all.
  - exists whole, (rest ++ piece), k. rewrite <- app_assoc, length_app.
    repeat split; cbn [state_ buffer_ buffer_len_]; try lia; try done.
Qed.

Lemma whole_blocks_spec fuel s data :
  (length data <= fuel)%nat ->
  exists k, length (firstn (k * B) data) = (k * B)%nat /\ (length data - k * B < B)%nat /\
    whole_blocks B process fuel s data =
    (fold_left process (chunks B (firstn (k * B) data)) s, skipn (k * B) data).
Proof.
  revert s data. induction fuel as [|fuel IH]; intros s data Hf; cbn [whole_blocks].
  { exists 0%nat. rewrite Nat.mul_0_l, firstn_O, skipn_O, chunks_nil. split; [done|]. split; [lia|done]. }
  destruct (Nat.leb_spec B (length data)) as [Hle|Hgt].
  - destruct (IH (process s (firstn B data)) (skipn B data)) as (k & Hk & Hr & ->).
    { rewrite length_skipn. lia. }
    rewrite length_skipn in Hr. rewrite length_firstn, length_skipn in Hk.
    exists (S k). rewrite length_firstn. split; [nia|]. split; [nia|].
    rewrite skipn_skipn. f_equal; [|f_equal; lia].
    assert (firstn (S k * B) data = firstn B data ++ firstn (k * B) (skipn B data)) as ->.
    { rewrite <- (firstn_skipn B data) at 1. rewrite firstn_app, length_firstn.
      rewrite firstn_all2 by (rewrite length_firstn; lia). do 2 f_equal. lia. }
    rewrite (chunks_app B 1) by (rewrite ?length_firstn; lia).
    by rewrite (chunks_one B (firstn B data)) by (rewrite ?length_firstn; lia).
  - exists 0%nat. rewrite Nat.mul_0_l, firstn_O, skipn_O, chunks_nil. split; [done|]. split; [lia|done].
Qed.

(** Straight from the caller's memory, when nothing is pending. *)
Lemma bulk_holds h msg data :
  holds h msg -> buffer_len_ h = 0%nat \/ data = [] ->
  let '(s, data') := whole_blocks B process (length data) (state_ h) data in
  forall t, holds (if (0 <? length data')%nat
                   then mkStream s (memcpy (buffer_ h) 0 data') (length data') t
                   else mkStream s (buffer_ h) (buffer_len_ h) t) (msg ++ data).
Proof.
  intros (whole & rest & n & -> & Hw & Hs & Hl & Hlt & Hb & HB') Hd.
  destruct Hd as [Hz| ->]; cycle 1.
  { cbn. intros t. rewrite app_nil_r. by exists whole, rest, n. }
  assert (rest = []) as -> by (apply length_zero_iff_nil; lia). clear Hb Hlt. rewrite app_nil_r.
  destruct (whole_blocks_spec (length data) (state_ h) data (le_n _)) as (k & Hk & Hr & ->). intros t.
  assert (state_ h = chain whole) as -> by done. rewrite <- (chain_app n) by done.
  pose proof (firstn_skipn (k * B) data) as Hfs. rewrite length_firstn in Hk.
  assert (length (whole ++ firstn (k * B) data) = ((n + k) * B)%nat) as Hlen
    by (rewrite length_app, length_firstn; lia).
  destruct (Nat.ltb_spec 0 (length (skipn (k * B) data))) as [Hpos|Hnil].
  - exists (whole ++ firstn (k * B) data), (skipn (k * B) data), (n + k)%nat.
    rewrite length_skipn in *. rewrite <- app_assoc, Hfs.
    repeat split; cbn [state_ buffer_ buffer_len_]; rewrite ?length_skipn; try lia; try done.
    + rewrite <- (length_skipn (k * B) data). apply (memcpy_prefix _ 0). rewrite length_skipn. lia.
    + rewrite <- HB'. apply memcpy_length. rewrite length_skipn. lia.
  - exists (whole ++ firstn (k * B) data), [], (n + k)%nat.
    assert (skipn (k * B) data = []) as He by (apply length_zero_iff_nil; lia).
    rewrite He, app_nil_r in Hfs. rewrite Hfs in *.
    repeat split; cbn [state_ buffer_ buffer_len_ length]; try lia; try done.
    by rewrite app_nil_r.
Qed.

Lemma absorb_total h piece : total_bytes_ (absorb h piece) = total_bytes_ h.
Proof. unfold Sha2.absorb. by destruct (_ =? _)%nat. Qed.

Lemma absorb_empties h piece : (buffer_len_ h + length piece)%nat = B -> buffer_len_ (absorb h piece) = 0%nat.
Proof. intros H. unfold Sha2.absorb. by rewrite (proj2 (Nat.eqb_eq _ _) H). Qed.

Lemma holds_total h msg t : holds h msg -> holds (mkStream (state_ h) (buffer_ h) (buffer_len_ h) t) msg.
Proof. done. Qed.

Lemma holds_pending h msg : holds h msg -> (buffer_len_ h < B)%nat.
Proof. intros (whole & rest & k & H). destruct_and! H. lia. Qed.

(** [update] appends its data, whatever is pending. *)
Lemma update_holds h msg data :
  holds h msg -> total_bytes_ h = wrap64 (Z.of_nat (length msg)) ->
  holds (update h data) (msg ++ data) /\
  total_bytes_ (update h data) = wrap64 (Z.of_nat (length (msg ++ data))).
Proof.
  intros Hh Ht. unfold Sha2.update. destruct (Nat.eqb_spec (length data) 0) as [Hn|Hn].
  { apply length_zero_iff_nil in Hn as ->. by rewrite app_nil_r. }
  set (h1 := mkStream (state_ h) (buffer_ h) (buffer_len_ h) _). assert (holds h1 msg) as Hh1 by (by apply holds_total).
  assert (total_bytes_ h1 = wrap64 (Z.of_nat (length (msg ++ data)))) as Ht1.
  { cbn. rewrite Ht, wrap64_add, length_app, Nat2Z.inj_add. done. }
  clearbody h1. pose proof (holds_pending _ _ Hh1) as Hlt.
  destruct (Nat.ltb_spec 0 (buffer_len_ h1)) as [Hpos|Hz].
  - set (take := if (length data <? _)%nat then length data else _).
    assert (take <= length data /\ buffer_len_ h1 + take <= B /\
            (take = length data \/ buffer_len_ h1 + take = B))%nat as (Htd & HtB & Hor).
    { unfold take. destruct (Nat.ltb_spec (length data) (B - buffer_len_ h1)); lia. }
    clearbody take. assert (length (firstn take data) = take) as Hlf by (rewrite length_firstn; lia).
    pose proof (absorb_holds h1 msg (firstn take data) Hh1 ltac:(lia)) as H2.
    pose proof (bulk_holds _ _ (skipn take data) H2) as H3.
    rewrite <- (absorb_total h1 (firstn take data)) in Ht1.
    destruct (whole_blocks _ _ _ _ _) as [s data'] eqn:E.
    rewrite <- app_assoc, firstn_skipn in H3. split.
    + apply H3. destruct Hor as [->|Hor]; [right; apply skipn_all|left]. apply absorb_empties. lia.
    + by destruct (0 <? length data')%nat.
  - pose proof (bulk_holds h1 msg data Hh1 (or_introl (proj1 (Nat.le_0_r _) Hz))) as H3.
    destruct (whole_blocks _ _ _ _ _) as [s data'] eqn:E. split; [apply H3|].
    by destruct (0 <? length data')%nat.
Qed.

Lemma updates_hold segs h msg :
  holds h msg -> total_bytes_ h = wrap64 (Z.of_nat (length msg)) ->
  holds (fold_left update segs h) (msg ++ concat segs) /\
  total_bytes_ (fold_left update segs h) = wrap64 (Z.of_nat (length (msg ++ concat segs))).
Proof.
  revert h msg. induction segs as [|d segs IH]; intros h msg Hh Ht; cbn; [by rewrite app_nil_r|].
  destruct (update_holds h msg d Hh Ht) as [H1 H2]. rewrite app_assoc. by apply IH.
Qed.

Lemma feed_holds fuel h msg pad :
  holds h msg -> (length pad <= fuel)%nat -> holds (feed fuel h pad) (msg ++ pad).
Proof.
  revert h msg pad. induction fuel as [|fuel IH]; intros h msg pad Hh Hf; cbn [Sha2.feed].
  { apply Nat.le_0_r, length_zero_iff_nil in Hf as ->. by rewrite app_nil_r. }
  destruct (Nat.ltb_spec 0 (length pad)) as [Hpos|Hz].
  - pose proof (holds_pending _ _ Hh) as Hlt. set (take := if (length pad <? _)%nat then length pad else _).
    assert (0 < take <= length pad /\ buffer_len_ h + take <= B)%nat as [Ht HtB].
    { unfold take. destruct (Nat.ltb_spec (length pad) (B - buffer_len_ h)); lia. }
    clearbody take. assert (msg ++ pad = (msg ++ firstn take pad) ++ skipn take pad) as ->
      by (by rewrite <- app_assoc, firstn_skipn).
    apply IH; [apply absorb_holds; [done|rewrite length_firstn; lia]|rewrite length_skipn; lia].
  - assert (pad = []) as -> by (apply length_zero_iff_nil; lia). by rewrite app_nil_r.
Qed.

(** With whole blocks held, the state is the chain over all of them. *)
Lemma holds_state h msg k : holds h msg -> length msg = (k * B)%nat -> state_ h = chain msg.
Proof.
  intros (whole & rest & n & -> & Hw & Hs & _ & Hlt & _) Hk. rewrite length_app in Hk.
  assert (k < S n)%nat by (apply (Nat.mul_lt_mono_pos_r B); lia).
  assert (k * B <= n * B)%nat by (apply Nat.mul_le_mono_r; lia).
  assert (rest = []) as -> by (apply length_zero_iff_nil; lia). by rewrite app_nil_r.
Qed.

(** ** The padding *)

Context (Hfield : forall n, (length (length_field n) + limit)%nat = B) (Hlimit : (0 < limit < B)%nat).

Lemma pad_length_spec h len k :
  len = (k * B + buffer_len_ h)%nat -> (buffer_len_ h < B)%nat ->
  pad_length B limit h = S (zeros B limit len).
Proof.
  intros Hl Hlt. unfold pad_length, zeros. cbn [Nat.add]. f_equal. apply Nat2Z.inj.
  rewrite Z2Nat.id by (apply Z.mod_pos_bound; lia).
  pose proof (Nat.div_mod_eq (buffer_len_ h + 1) B). pose proof (Nat.mod_upper_bound (buffer_len_ h + 1) B).
  set (q := ((buffer_len_ h + 1) / B)%nat) in *. set (r := ((buffer_len_ h + 1) mod B)%nat) in *.
  destruct (Nat.leb_spec r limit).
  - apply (Z.mod_unique _ _ (- Z.of_nat (k + q))); lia.
  - apply (Z.mod_unique _ _ (- Z.of_nat (k + q) - 1)); lia.
Qed.

Lemma zeros_bound len : (zeros B limit len < B)%nat.
Proof. unfold zeros. pose proof (Z.mod_pos_bound (Z.of_nat limit - Z.of_nat len - 1) (Z.of_nat B)). lia. Qed.

Lemma memcpy_zeros n m src :
  (n + length src <= m)%nat ->
  firstn (S n + length src) (memcpy (128 :: repeat 0 m) (S n) src) = 128 :: repeat 0 n ++ src.
Proof.
  intros H. rewrite memcpy_prefix by (cbn [length]; rewrite repeat_length; lia).
  cbn [firstn app]. by rewrite firstn_repeat_le by lia.
Qed.

Lemma padding_spec h msg :
  holds h msg -> total_bytes_ h = Z.of_nat (length msg) -> Z.of_nat (length msg) < 2 ^ 61 ->
  padding_bytes B length_field limit h =
  128 :: repeat 0 (zeros B limit (length msg)) ++ length_field (8 * Z.of_nat (length msg)).
Proof.
  intros (whole & rest & k & -> & Hw & _ & Hl & Hlt & _) Ht Hsmall. unfold padding_bytes.
  rewrite (pad_length_spec h (length (whole ++ rest)) k) by (rewrite ?length_app; lia).
  rewrite Ht, wrap64_id, (Z.mul_comm _ 8) by lia. apply memcpy_zeros.
  pose proof (zeros_bound (length (whole ++ rest))). pose proof (Hfield (8 * Z.of_nat (length (whole ++ rest)))). lia.
Qed.

(** The padded message is a whole number of blocks. *)
Lemma padded_length msg : exists k, length (padded B length_field limit msg) = (k * B)%nat.
Proof.
  unfold padded. rewrite length_app. cbn [length]. rewrite length_app, repeat_length.
  pose proof (Hfield (8 * Z.of_nat (length msg))) as Hf. unfold zeros. set (len := length msg) in *.
  pose proof (Z_div_mod_eq_full (Z.of_nat limit - Z.of_nat len - 1) (Z.of_nat B)) as E.
  pose proof (Z.mod_pos_bound (Z.of_nat limit - Z.of_nat len - 1) (Z.of_nat B) ltac:(lia)) as Hm.
  set (r := (Z.of_nat limit - Z.of_nat len - 1) mod Z.of_nat B) in *.
  set (q := (Z.of_nat limit - Z.of_nat len - 1) / Z.of_nat B) in *. exists (Z.to_nat (1 - q)).
  assert (q <= 0) by nia. clearbody q r len. apply Nat2Z.inj. rewrite Nat2Z.inj_mul, Z2Nat.id by lia. lia.
Qed.

(** Any sequence of updates, then [finish]: the standard's chain over the padded message. *)
Lemma stream_spec segs :
  Z.of_nat (length (concat segs)) < 2 ^ 61 ->
  finish_stream B process length_field limit (fold_left update segs (fresh_stream B iv)) =
  merkle_damgard B process iv (padded B length_field limit (concat segs)).
Proof.
  intros Hsmall. destruct (updates_hold segs _ [] holds_fresh eq_refl) as [H Ht]. cbn [app] in H, Ht.
  rewrite wrap64_id in Ht by lia. unfold finish_stream. rewrite (padding_spec _ _ H Ht Hsmall).
  destruct (padded_length (concat segs)) as [k Hk]. apply (holds_state _ _ k); [|done].
  apply feed_holds; [done|lia].
Qed.
End stream.

(** ** The compression function against the standard *)

Section schedule.
Context (V : Variant).

Lemma extend_schedule_length n w : length (extend_schedule V n w) = (length w + n)%nat.
Proof.
  revert w. induction n as [|n IH]; intros w; cbn [extend_schedule]; [lia|].
  rewrite IH, length_app. cbn [length]. lia.
Qed.

Lemma extend_schedule_old n w i : (i < length w)%nat -> nth i (extend_schedule V n w) 0 = nth i w 0.
Proof.
  revert w. induction n as [|n IH]; intros w Hi; cbn [extend_schedule]; [done|].
  rewrite IH by (rewrite length_app; lia). by apply app_nth1.
Qed.

(** Section 6.1.2: every word past the first sixteen follows the recurrence. *)
Lemma extend_schedule_new n w i :
  (16 <= length w <= i)%nat -> (i < length w + n)%nat ->
  let W j := nth j (extend_schedule V n w) 0 in
  W i = wrap V (small_sigma1 V (W (i - 2)%nat) + W (i - 7)%nat + small_sigma0 V (W (i - 15)%nat) + W (i - 16)%nat).
Proof.
  cbv zeta. revert w. induction n as [|n IH]; intros w Hw Hi; [lia|]. cbn [extend_schedule].
  set (word := wrap _ _). destruct (Nat.eq_dec i (length w)) as [->|Hne].
  - rewrite !extend_schedule_old by (rewrite length_app; cbn [length]; lia).
    rewrite (app_nth2 w [word] 0 (le_n _)), Nat.sub_diag. by rewrite !app_nth1 by lia.
  - apply IH; rewrite length_app; cbn [length]; lia.
Qed.

(** [rotr] is the rotation: bit [i] of the result is bit [i + n] of [x], cyclically. *)
Lemma rotr_rotates x n i :
  0 <= x < 2 ^ word_bits V -> 0 <= n < word_bits V -> 0 <= i < word_bits V ->
  Z.testbit (rotr V x n) i = Z.testbit x ((i + n) mod word_bits V).
Proof.
  intros Hx Hn Hi. unfold rotr, wrap. set (w := word_bits V) in *.
  rewrite Z.lor_spec, Z.shiftr_spec, Z.mod_pow2_bits_low, Z.shiftl_spec by lia.
  destruct (Z.lt_ge_cases (i + n) w).
  - rewrite Z.mod_small, (Z.testbit_neg_r x (i - (w - n))) by lia. apply orb_false_r.
  - assert ((i + n) mod w = i + n - w) as -> by (symmetry; apply (Z.mod_unique _ _ 1); lia).
    replace (i - (w - n)) with (i + n - w) by lia.
    destruct (Z.eq_dec x 0) as [->|Hne]; [by rewrite !Z.bits_0|].
    rewrite (Z.bits_above_log2 x (i + n)); [done|lia|].
    apply Z.log2_lt_pow2; [lia|]. eapply Z.lt_le_trans; [apply Hx|]. apply Z.pow_le_mono_r; lia.
Qed.
End schedule.

(** ** The three objects compute the three functions *)

Lemma store_be_zero n : 0 <= n < 2 ^ 64 -> store_be 8 0 ++ store_be 8 n = store_be 16 n.
Proof.
  intros Hn. unfold store_be. change (seq 0 16) with (seq 0 8 ++ map (Nat.add 8) (seq 0 8)).
  rewrite map_app, map_map. f_equal; apply map_ext_in; intros i Hi%in_seq.
  rewrite Z.shiftr_0_l. rewrite shiftr_div, Z.div_small; [done|split; [lia|]|lia].
  eapply Z.lt_le_trans; [apply Hn|]. apply Z.pow_le_mono_r; lia.
Qed.

Lemma sha256_stream segs :
  Z.of_nat (length (concat segs)) < 2 ^ 61 ->
  Sha256.finish (fold_left Sha256.update segs Sha256.reset) = sha256 (concat segs).
Proof.
  intros H. assert (forall n, (length (store_be 8 n) + 56)%nat = 64%nat) as Hf
    by (intros n; by rewrite store_be_length).
  exact (f_equal (fun s => flat_map (store_be 4) (words_list s))
           (stream_spec 64 Sha256.process_block (store_be 8) 56 ltac:(lia) _ Hf ltac:(lia) segs H)).
Qed.

Lemma sha512_stream iv segs n :
  Z.of_nat (length (concat segs)) < 2 ^ 61 ->
  Sha512Core.finish (fold_left Sha512Core.update segs (fresh_stream Sha512Core.BLOCK_SIZE iv)) n =
  firstn n (sha512_with iv (concat segs)).
Proof.
  intros H. assert (forall m, (length (Sha512Core.length_field m) + 112)%nat = 128%nat) as Hf.
  { intros m. unfold Sha512Core.length_field. by rewrite length_app, !store_be_length. }
  unfold Sha512Core.finish, sha512_with. do 3 f_equal.
  etransitivity; [exact (stream_spec 128 Sha512Core.process_block Sha512Core.length_field 112
                           ltac:(lia) iv Hf ltac:(lia) segs H)|].
  unfold padded, Sha512Core.length_field. by rewrite store_be_zero by lia.
Qed.

Lemma words_bytes_length n s : length (flat_map (store_be n) (words_list s)) = (8 * n)%nat.
Proof. unfold words_list. cbn [flat_map]. rewrite !length_app, !store_be_length. cbn [length]. lia. Qed.

Lemma words_bytes_ok n l : List.Forall byte_ok (flat_map (store_be n) l).
Proof.
  apply List.Forall_forall. intros x (w & _ & Hx)%in_flat_map.
  pose proof (store_be_ok n w) as H. rewrite List.Forall_forall in H. by apply H.
Qed.

(** ** SHA-2 as hash functions *)

#[export] Instance Sha256T : Hash :=
  Build_Hash Stream Sha256.DIGEST_SIZE Sha256.BLOCK_SIZE Sha256.reset Sha256.update Sha256.finish.
#[export] Instance Sha512T : Hash :=
  Build_Hash Stream Sha512.DIGEST_SIZE Sha512Core.BLOCK_SIZE Sha512.reset Sha512.update Sha512.finish.
#[export] Instance Sha384T : Hash :=
  Build_Hash Stream Sha384.DIGEST_SIZE Sha512Core.BLOCK_SIZE Sha384.reset Sha384.update Sha384.finish.

#[export] Instance Sha256_laws : HashLaws Sha256T.
Proof.
  apply (Build_HashLaws Sha256T sha256); [exact sha256_stream| | | |].
  - intros msg. apply (words_bytes_length 4).
  - intros msg. apply words_bytes_ok.
  - cbn. unfold Sha256.DIGEST_SIZE, Sha256.BLOCK_SIZE. lia.
  - cbn. unfold Sha256.BLOCK_SIZE. lia.
Defined.

#[export] Instance Sha512_laws : HashLaws Sha512T.
Proof.
  apply (Build_HashLaws Sha512T sha512).
  - intros segs H. etransitivity; [exact (sha512_stream _ segs 64 H)|].
    apply firstn_all2. exact (Nat.eq_le_incl _ _ (words_bytes_length 8 _)).
  - intros msg. apply (words_bytes_length 8).
  - intros msg. apply words_bytes_ok.
  - cbn. unfold Sha512.DIGEST_SIZE, Sha512Core.BLOCK_SIZE. lia.
  - cbn. unfold Sha512Core.BLOCK_SIZE. lia.
Defined.

#[export] Instance Sha384_laws : HashLaws Sha384T.
Proof.
  apply (Build_HashLaws Sha384T sha384).
  - intros segs H. exact (sha512_stream _ segs 48 H).
  - intros msg. unfold sha384, sha512_with. rewrite length_firstn, words_bytes_length. done.
  - intros msg. unfold sha384, sha512_with. apply Forall_take, words_bytes_ok.
  - cbn. unfold Sha384.DIGEST_SIZE, Sha512Core.BLOCK_SIZE. lia.
  - cbn. unfold Sha512Core.BLOCK_SIZE. lia.
Defined.
