(* ===== verification/Hmac.v ===== *)
(** * HMAC and HKDF

    [crypto/hmac.h] and [crypto/hkdf.h], over any hash function: the templates as the code
    has them, RFC 2104 and RFC 5869 as equations, and the proofs that they agree, which
    use only the laws of [HashFunction]. Wiping of secrets is not modelled; a
    [SecureBuffer] is its bytes. *)
From S2P Require Import Prelude Types Bytes.
Open Scope Z_scope.

Section hmac.
Context `{HashT : Hash}.

(** ** [Hmac] *)

Record Hmac := mkHmac { inner_ : ctx; o_key_pad_ : list Z }.

Definition hmac_init (key : list Z) : Hmac :=
  let k_prime := repeat 0 BLOCK_SIZE in
  let k_prime :=
    if (BLOCK_SIZE <? length key)%nat then memcpy k_prime 0 (hash key)
    else if (0 <? length key)%nat then memcpy k_prime 0 key
    else k_prime in
  let i_key_pad := map (fun b => Z.lxor b 0x36) k_prime in
  mkHmac (update init i_key_pad) (map (fun b => Z.lxor b 0x5c) k_prime).

Definition hmac_update (h : Hmac) (data : list Z) : Hmac :=
  mkHmac (update (inner_ h) data) (o_key_pad_ h).

Definition hmac_finish (h : Hmac) : list Z :=
  let inner_digest := finish (inner_ h) in
  let outer := update init (o_key_pad_ h) in
  let outer := update outer inner_digest in
  finish outer.

Definition mac (key data : list Z) : list Z := hmac_finish (hmac_update (hmac_init key) data).

Definition hmac_verify (key data expected_mac : list Z) : bool :=
  if negb (length expected_mac =? DIGEST_SIZE)%nat then false
  else constant_time_equals (mac key data) expected_mac.

(** ** [Hkdf] *)

Definition extract (salt ikm : list Z) : list Z :=
  let s := if (length salt =? 0)%nat then repeat 0 DIGEST_SIZE else salt in mac s ikm.

(** The loop of [expand] for round [i], with [t] = T(i-1), [produced] bytes of [okm] written. *)
Fixpoint expand_loop (rounds i : nat) (prk info : list Z) (length : nat) (t : list Z)
    (produced : nat) (okm : list Z) : list Z :=
  match rounds with
  | O => okm
  | S rounds =>
      let h := hmac_init prk in
      let h := if (1 <? i)%nat then hmac_update h t else h in
      let h := match info with [] => h | _ => hmac_update h info end in
      let counter := Z.of_nat i mod 256 in
      let h := hmac_update h [counter] in
      let t := hmac_finish h in
      let take := if (length - produced <? DIGEST_SIZE)%nat then (length - produced)%nat else DIGEST_SIZE in
      let okm := memcpy okm produced (firstn take t) in
      expand_loop rounds (S i) prk info length t (produced + take) okm
  end.

Definition expand (prk info : list Z) (length : nat) : list Z :=
  let okm := repeat 0 length in
  if (length =? 0)%nat then okm else
  let n := ((length + DIGEST_SIZE - 1) / DIGEST_SIZE)%nat in
  if (255 <? n)%nat then []
  else expand_loop n 1 prk info length [] 0 okm.

Definition derive (salt ikm info : list Z) (length : nat) : list Z :=
  let prk := extract salt ikm in expand prk info length.

Definition expand_label (prk : list Z) (label : str) (length : nat) : list Z :=
  expand prk (map (fun c => Z.of_N (Ascii.N_of_ascii c)) label) length.
End hmac.
Arguments Hmac : clear implicits.

(** ** The standards *)

Section rfc.
Context `{L : HashLaws}.

(** RFC 2104: the key brought to one block. *)
Definition block_key (key : list Z) : list Z :=
  let k := if (BLOCK_SIZE <? length key)%nat then digest key else key in
  k ++ repeat 0 (BLOCK_SIZE - length k).

Definition pad_with (x : Z) (key : list Z) : list Z := xor_bytes (block_key key) (repeat x BLOCK_SIZE).

Definition rfc2104 (key text : list Z) : list Z :=
  digest (pad_with 0x5c key ++ digest (pad_with 0x36 key ++ text)).

(** RFC 5869, section 2.3: T(0) is empty, T(i) = HMAC(PRK, T(i-1) | info | i). *)
Fixpoint T (prk info : list Z) (i : nat) : list Z :=
  match i with
  | O => []
  | S j => rfc2104 prk (T prk info j ++ info ++ [Z.of_nat i])
  end.

Definition rfc5869_extract (salt ikm : list Z) : list Z :=
  rfc2104 (match salt with [] => repeat 0 DIGEST_SIZE | _ => salt end) ikm.

(** The first [L] bytes of T(1) | T(2) | ... *)
Definition rfc5869_expand (prk info : list Z) (len : nat) : list Z :=
  let n := ((len + DIGEST_SIZE - 1) / DIGEST_SIZE)%nat in
  firstn len (concat (map (T prk info) (seq 1 n))).
End rfc.

(** ** HMAC *)

Section proofs.
Context `{L : HashLaws}.

Lemma block_key_length key : length (block_key key) = BLOCK_SIZE.
Proof.
  unfold block_key. rewrite length_app, repeat_length. pose proof digest_fits.
  destruct (Nat.ltb_spec BLOCK_SIZE (length key)); [rewrite digest_length|]; lia.
Qed.

Lemma memcpy_into_zeros n l : (length l <= n)%nat -> memcpy (repeat 0 n) 0 l = l ++ repeat 0 (n - length l).
Proof. intros H. unfold memcpy. by rewrite skipn_repeat_sub. Qed.

Lemma xor_repeat x l n : length l = n -> map (fun b => Z.lxor b x) l = xor_bytes l (repeat x n).
Proof. intros <-. unfold xor_bytes. induction l; cbn; [done|]. by f_equal. Qed.

Lemma hmac_init_spec key :
  size_ok (length key) -> hmac_init key = mkHmac (update init (pad_with 0x36 key)) (pad_with 0x5c key).
Proof.
  intros Hk. unfold hmac_init, pad_with. rewrite <- !xor_repeat by apply block_key_length.
  enough ((if (BLOCK_SIZE <? length key)%nat then memcpy (repeat 0 BLOCK_SIZE) 0 (hash key)
           else if (0 <? length key)%nat then memcpy (repeat 0 BLOCK_SIZE) 0 key
           else repeat 0 BLOCK_SIZE) = block_key key) as -> by done.
  unfold block_key. pose proof digest_fits. destruct (Nat.ltb_spec BLOCK_SIZE (length key)).
  - rewrite hash_digest by done. apply memcpy_into_zeros. rewrite digest_length. lia.
  - destruct (Nat.ltb_spec 0 (length key)); [by apply memcpy_into_zeros|].
    assert (key = []) as -> by (apply length_zero_iff_nil; lia). cbn [length app]. by rewrite Nat.sub_0_r.
Qed.

Lemma pad_with_length x key : length (pad_with x key) = BLOCK_SIZE.
Proof. unfold pad_with. rewrite xor_bytes_length, block_key_length, repeat_length. lia. Qed.

(** The inner and outer inputs fit whenever key and text are of sensible length. *)
Definition mac_size_ok (key text : list Z) : Prop :=
  Z.of_nat (length key) < 2 ^ 60 /\ Z.of_nat (length text) < 2 ^ 60.

Lemma hmac_updates_spec segs h i :
  inner_ h = i -> fold_left hmac_update segs h = mkHmac (fold_left update segs i) (o_key_pad_ h).
Proof.
  revert h i. induction segs as [|d segs IH]; intros h i <-; cbn [fold_left]; [by destruct h|].
  by rewrite (IH (hmac_update h d) _ eq_refl).
Qed.

(** Any sequence of updates yields the MAC of their concatenation. *)
Lemma hmac_spec key segs :
  mac_size_ok key (concat segs) ->
  hmac_finish (fold_left hmac_update segs (hmac_init key)) = rfc2104 key (concat segs).
Proof.
  intros [Hk Ht]. pose proof digest_fits. pose proof block_small.
  rewrite hmac_init_spec by (unfold size_ok; lia).
  rewrite (hmac_updates_spec _ _ _ eq_refl). unfold hmac_finish, rfc2104. cbn [inner_ o_key_pad_].
  pose proof (hash_stream (pad_with 0x36 key :: segs)) as Hi. cbn [fold_left concat] in Hi.
  rewrite Hi by (unfold size_ok; rewrite length_app, pad_with_length; lia).
  set (inner := digest _). pose proof (hash_stream [pad_with 0x5c key; inner]) as Ho.
  cbn [fold_left concat] in Ho. rewrite app_nil_r in Ho. apply Ho.
  unfold size_ok. rewrite length_app, pad_with_length. unfold inner. rewrite digest_length. lia.
Qed.

Lemma mac_spec key text : mac_size_ok key text -> mac key text = rfc2104 key text.
Proof. intros H. pose proof (hmac_spec key [text]) as E. cbn in E. rewrite app_nil_r in E. by apply E. Qed.

Lemma rfc2104_length key text : length (rfc2104 key text) = DIGEST_SIZE.
Proof. apply digest_length. Qed.

Lemma hmac_verify_spec key text tag :
  mac_size_ok key text -> hmac_verify key text tag = bool_decide (tag = rfc2104 key text).
Proof.
  intros H. unfold hmac_verify. rewrite mac_spec by done. pose proof (rfc2104_length key text) as Hr.
  destruct (Nat.eqb_spec (length tag) DIGEST_SIZE) as [He|Hne]; cbn [negb].
  - apply eq_true_iff_eq. rewrite bool_decide_eq_true, constant_time_equals_spec by congruence. done.
  - symmetry. apply bool_decide_eq_false. intros ->. congruence.
Qed.

(** ** HKDF *)

Lemma T_length prk info i : (0 < i)%nat -> length (T prk info i) = DIGEST_SIZE.
Proof. destruct i; [lia|]. intros _. apply digest_length. Qed.

Lemma extract_spec salt ikm :
  mac_size_ok salt ikm -> extract salt ikm = rfc5869_extract salt ikm.
Proof.
  intros [Hs Hi]. pose proof digest_fits. pose proof block_small. unfold extract, rfc5869_extract.
  destruct salt as [|x salt]; cbn [length Nat.eqb]; apply mac_spec; split; try done.
  rewrite repeat_length. lia.
Qed.

(** One round of the loop computes T(i). *)
Lemma expand_round prk info i :
  mac_size_ok prk (repeat 0 256 ++ info) -> (0 < i <= 255)%nat ->
  hmac_finish (hmac_update
    (match info with
     | [] => if (1 <? i)%nat then hmac_update (hmac_init prk) (T prk info (i - 1)) else hmac_init prk
     | _ => hmac_update (if (1 <? i)%nat then hmac_update (hmac_init prk) (T prk info (i - 1))
                         else hmac_init prk) info
     end) [Z.of_nat i mod 256]) = T prk info i.
Proof.
  intros [Hp Hi] Hr. pose proof digest_fits. pose proof block_small.
  rewrite length_app, repeat_length in Hi. destruct i as [|j]; [lia|]. rewrite Z.mod_small by lia.
  replace (S j - 1)%nat with j by lia. cbn [T].
  assert (length (T prk info j) <= 128)%nat.
  { destruct j; [cbn; lia|]. rewrite T_length; lia. }
  pose proof (hmac_spec prk ((if (1 <? S j)%nat then [T prk info j] else []) ++
                             (match info with [] => [] | _ => [info] end) ++ [[Z.of_nat (S j)]])) as E.
  rewrite !concat_app in E. cbn [concat] in E. rewrite !fold_left_app in E.
  assert (concat (if (1 <? S j)%nat then [T prk info j] else []) = T prk info j) as Ej.
  { destruct j; [done|]. apply app_nil_r. }
  assert (concat (match info with [] => [] | _ => [info] end) = info) as Einfo.
  { destruct info; [done|]. apply app_nil_r. }
  rewrite Ej, Einfo in E. cbn [app] in E. rewrite <- E by (split; [done|rewrite !length_app; cbn [length]; lia]).
  destruct info, (1 <? S j)%nat; reflexivity.
Qed.

Lemma Ts_length prk info k : length (concat (map (T prk info) (seq 1 k))) = (k * DIGEST_SIZE)%nat.
Proof.
  induction k as [|k IH]; [done|].
  rewrite seq_S, map_app, concat_app, length_app, IH. cbn [map concat]. rewrite app_nil_r, T_length by lia. lia.
Qed.

(** Rounds [i ..] complete [okm] from the prefix that the rounds before have written. *)
Lemma expand_loop_spec prk info len rounds i okm :
  mac_size_ok prk (repeat 0 256 ++ info) ->
  (i + rounds <= 255)%nat -> length okm = len -> (len <= (i + rounds) * DIGEST_SIZE)%nat ->
  let produced := Nat.min len (i * DIGEST_SIZE) in
  firstn produced okm = firstn produced (concat (map (T prk info) (seq 1 i))) ->
  expand_loop rounds (S i) prk info len (T prk info i) produced okm =
  firstn len (concat (map (T prk info) (seq 1 (i + rounds)))).
Proof.
  intros Hsz. revert i okm. induction rounds as [|rounds IH]; intros i okm Hr Hl Hlen produced Hpre.
  { cbn [expand_loop]. rewrite Nat.add_0_r in *. unfold produced in Hpre.
    rewrite Nat.min_l in Hpre by lia. rewrite <- Hpre, <- Hl. by rewrite firstn_all. }
  pose proof (expand_round prk info (S i) Hsz ltac:(lia)) as Hround.
  replace (S i - 1)%nat with i in Hround by lia. cbn [expand_loop].
  match goal with |- context [hmac_finish ?h] => assert (hmac_finish h = T prk info (S i)) as -> end.
  { rewrite <- Hround. by destruct info. }
  set (take := if (len - produced <? DIGEST_SIZE)%nat then _ else _).
  assert (take = Nat.min (len - produced) DIGEST_SIZE) as Ht
    by (unfold take; destruct (Nat.ltb_spec (len - produced) DIGEST_SIZE); lia). clearbody take.
  assert (produced + take = Nat.min len (S i * DIGEST_SIZE))%nat as Hp by (unfold produced in *; nia).
  assert (length (firstn take (T prk info (S i))) = take) as Hlt
    by (rewrite length_firstn, T_length by lia; lia).
  rewrite Hp. replace (i + S rounds)%nat with (S i + rounds)%nat in * by lia.
  apply IH; [lia| |lia|].
  - rewrite memcpy_length; [done|]. rewrite Hlt, Hl. unfold produced in *. lia.
  - rewrite <- Hp, <- Hlt at 1. rewrite memcpy_prefix by (rewrite Hlt, Hl; unfold produced in *; lia).
    rewrite Hpre, seq_S, map_app, concat_app. cbn [map concat]. rewrite app_nil_r, <- Hp, firstn_app.
    pose proof (Ts_length prk info i) as HT. rewrite HT.
    destruct (Nat.eq_dec take 0%nat) as [->|Hnz].
    + rewrite Nat.add_0_r. unfold produced. rewrite (proj2 (Nat.sub_0_le _ _)) by lia. done.
    + assert (produced = i * DIGEST_SIZE)%nat as -> by (unfold produced in *; lia).
      rewrite Nat.add_comm, Nat.add_sub. by rewrite !(firstn_all2 (concat _)) by lia.
Qed.

Lemma expand_spec prk info len :
  mac_size_ok prk (repeat 0 256 ++ info) ->
  expand prk info len = if (255 * DIGEST_SIZE <? len)%nat then [] else rfc5869_expand prk info len.
Proof.
  intros Hsz. pose proof digest_fits. unfold expand, rfc5869_expand.
  destruct (Nat.eqb_spec len 0) as [->|Hnz]; [done|].
  set (n := ((len + DIGEST_SIZE - 1) / DIGEST_SIZE)%nat).
  assert (n * DIGEST_SIZE < len + DIGEST_SIZE /\ len <= n * DIGEST_SIZE)%nat as [Hn1 Hn2].
  { pose proof (Nat.div_mod_eq (len + DIGEST_SIZE - 1) DIGEST_SIZE).
    pose proof (Nat.mod_upper_bound (len + DIGEST_SIZE - 1) DIGEST_SIZE). unfold n. nia. }
  clearbody n. assert ((255 <? n)%nat = (255 * DIGEST_SIZE <? len)%nat) as ->.
  { apply eq_true_iff_eq. rewrite !Nat.ltb_lt. nia. }
  destruct (Nat.ltb_spec (255 * DIGEST_SIZE) len); [done|].
  pose proof (expand_loop_spec prk info len n 0 (repeat 0 len) Hsz) as E.
  cbn [Nat.add Nat.mul T] in E. rewrite Nat.min_0_r in E.
  apply E; [nia|apply repeat_length|lia|done].
Qed.

Lemma rfc5869_expand_length prk info len : length (rfc5869_expand prk info len) = len.
Proof.
  unfold rfc5869_expand. rewrite length_firstn, Ts_length. pose proof digest_fits.
  pose proof (Nat.div_mod_eq (len + DIGEST_SIZE - 1) DIGEST_SIZE).
  pose proof (Nat.mod_upper_bound (len + DIGEST_SIZE - 1) DIGEST_SIZE). nia.
Qed.

Lemma derive_spec salt ikm info len :
  mac_size_ok salt ikm -> Z.of_nat (length info) < 2 ^ 59 -> (len <= 255 * DIGEST_SIZE)%nat ->
  derive salt ikm info len = rfc5869_expand (rfc5869_extract salt ikm) info len.
Proof.
  intros H Hi Hl. pose proof digest_fits. pose proof block_small. unfold derive.
  rewrite extract_spec by done. rewrite expand_spec.
  - by rewrite (proj2 (Nat.ltb_ge _ _)).
  - split; [unfold rfc5869_extract; rewrite rfc2104_length|rewrite length_app, repeat_length]; lia.
Qed.
End proofs.
