(* ===== verification/Credentials.v ===== *)
(** * Names, addresses and passwords

    [auth/username.cpp], the pure functions of [auth/email_recovery.cpp], and
    [auth/password.cpp]: Argon2id, which OpenSSL computes, is a parameter, and so is its
    SHA-256; the salt of a new hash is an argument. A [std::string] is a list of
    characters; where the code returns an empty string for a failure, so does the model. *)
From S2P Require Import Prelude Types Fen Notation Bytes Base64.
Open Scope Z_scope.

(** The bytes of a string. *)
Definition byte_of (c : ascii) : Z := Z.of_N (N_of_ascii c).
Definition bytes_of (s : str) : list Z := map byte_of s.
Definition of_bytes (l : list Z) : str := map char_of l.

Definition between (lo hi : Z) (c : ascii) : bool := (lo <=? byte_of c) && (byte_of c <=? hi).
Definition isalnum (c : ascii) : bool := between 48 57 c || between 65 90 c || between 97 122 c.

(** ** Usernames *)

Definition USERNAME_MIN_LEN : nat := 3.
Definition USERNAME_MAX_LEN : nat := 20.

Definition valid_username (u : str) : bool :=
  if (length u <? USERNAME_MIN_LEN)%nat || (USERNAME_MAX_LEN <? length u)%nat then false
  else forallb (fun c => between 97 122 c || between 65 90 c || between 48 57 c || bool_decide (c = "_"%char)) u.

Definition to_lower_ascii (u : str) : str :=
  map (fun c => if between 65 90 c then char_of (byte_of c + 32) else c) u.

(** ** Addresses *)

Definition ATEXT : str := lit ".!#$%&'*+-/=?^_`{|}~".

(** [s.find("..")] *)
Fixpoint has_double_dot (s : str) : bool :=
  match s with
  | "."%char :: ("."%char :: _) => true
  | _ :: s => has_double_dot s
  | [] => false
  end.

(** [front() == c || back() == c] *)
Definition ends_with (c : ascii) (s : str) : bool :=
  bool_decide (head s = Some c) || bool_decide (head (rev s) = Some c).

Definition local_ok (local : str) : bool :=
  negb (ends_with "."%char local || has_double_dot local) &&
  forallb (fun c => isalnum c || existsb (Ascii.eqb c) ATEXT) local.

Definition label_ok (label : str) : bool :=
  negb ((length label =? 0)%nat || (63 <? length label)%nat || ends_with "-"%char label) &&
  forallb (fun c => isalnum c || Ascii.eqb c "-"%char) label.

(** The loop over the labels of [domain] from [start] on. *)
Fixpoint labels_ok (fuel : nat) (domain : str) (start : nat) : bool :=
  match fuel with
  | O => true
  | S fuel =>
      if (start <? length domain)%nat then
        let stop := match find_from "."%char domain start with Some i => i | None => length domain end in
        label_ok (firstn (stop - start) (skipn start domain)) && labels_ok fuel domain (stop + 1)
      else true
  end.

Definition domain_ok (domain : str) : bool :=
  bool_decide (is_Some (find_from "."%char domain 0)) &&
  labels_ok (S (length domain)) domain 0 && negb (bool_decide (head (rev domain) = Some "."%char)).

Definition canonical_email (input : str) : str :=
  if (length input =? 0)%nat || (254 <? length input)%nat then [] else
  match find_from "@"%char input 0 with
  | None => []
  | Some at_ =>
      if (at_ =? 0)%nat || (64 <? at_)%nat || negb (bool_decide (rfind_from "@"%char input 0 None = Some at_)) then [] else
      if negb (forallb (between 33 126) input) then [] else
      let email := to_lower_ascii input in
      if local_ok (firstn at_ email) && domain_ok (skipn (at_ + 1) email) then email else []
  end.

(** ** Challenge tokens *)

(** [email_token_hash] with OpenSSL's [SHA256]. *)
Definition email_token_hash (sha256 : list Z -> list Z) (token : str) : str :=
  if negb (length token =? 43)%nat ||
     negb (forallb (fun c => isalnum c || bool_decide (c = "_"%char) || bool_decide (c = "-"%char)) token)
  then [] else encode_base64url (sha256 (bytes_of token)).

(** ** Password rules *)

Definition PASSWORD_MIN_LEN : nat := 8.
Definition PASSWORD_MAX_LEN : nat := 256.

Definition password_length_ok (password : str) : bool :=
  negb ((length password <? PASSWORD_MIN_LEN)%nat || (PASSWORD_MAX_LEN <? length password)%nat).

Definition special (c : ascii) : bool :=
  between 33 47 c || between 58 64 c || between 91 96 c || between 123 126 c.

Definition valid_new_password (password : str) : bool :=
  password_length_ok password && existsb (between 65 90) password && existsb (between 48 57) password &&
  existsb special password.

(** ** Password hashes: src/src/auth/password.cpp

    Argon2id through OpenSSL's EVP interface is the parameter [argon2id]: password, salt,
    parameters and length of the output, [None] if the derivation fails. *)
From S2P Require Import Prelude Types Fen FenRoundTrip Bytes Base64.
Open Scope Z_scope.

(** ** The unpadded dialect of base64 *)

Definition unpadded_tail (data : list Z) : str :=
  match data with
  | [a] =>
      let v := Z.shiftl a 16 in [sym ALPHABET (Z.shiftr v 18); sym ALPHABET (Z.shiftr v 12)]
  | [a; b] =>
      let v := Z.lor (Z.shiftl a 16) (Z.shiftl b 8) in
      [sym ALPHABET (Z.shiftr v 18); sym ALPHABET (Z.shiftr v 12); sym ALPHABET (Z.shiftr v 6)]
  | _ => []
  end.

Definition b64_unpadded (data : list Z) : str := encode_quanta ALPHABET unpadded_tail data.

Definition b64_unpadded_decode (s : str) : option (list Z) :=
  match s with
  | [] => Some []
  | _ => if (length s mod 4 =? 1)%nat then None else finish_decode 0 (decode_loop reverse_table s 0 0 [])
  end.

(** ** [strtoul] and [sscanf] *)

Definition ULONG_MAX : Z := 2 ^ 64 - 1.

(** The subject sequence of [strtoul(s, &end, 10)]: its value and the rest; [None] if there
    is no digit. *)
Definition scan_ulong (s : str) : option (Z * str) :=
  let s := skip_ws s in
  let '(neg, s) := match s with
                   | "-"%char :: s' => (true, s')
                   | "+"%char :: s' => (false, s')
                   | _ => (false, s)
                   end in
  let '(n, seen, rest) := take_digits 0 false s in
  if (seen : bool) then
    Some (if ULONG_MAX <? n then ULONG_MAX else if (neg : bool) then (- n) mod 2 ^ 64 else n, rest)
  else None.

Definition strtoul (s : str) : Z := match scan_ulong s with Some (n, _) => n | None => 0 end.

(** A literal of a [sscanf] format. *)
Fixpoint expect (l s : str) : option str :=
  match l, s with
  | [], _ => Some s
  | c :: l, d :: s => if Ascii.eqb c d then expect l s else None
  | _ :: _, [] => None
  end.

Definition scan_field (name s : str) : option (Z * str) :=
  match expect name s with Some s => scan_ulong s | None => None end.

(** [sscanf(s, "m=%lu,t=%lu,p=%lu", ...) == 3] *)
Definition scan_params (s : str) : option (Z * Z * Z) :=
  match scan_field (lit "m=") s with
  | None => None
  | Some (m, s) =>
      match scan_field (lit ",t=") s with
      | None => None
      | Some (t, s) =>
          match scan_field (lit ",p=") s with Some (l, _) => Some (m, t, l) | None => None end
      end
  end.

(** ** PHC strings *)

Record Argon2Params := mkParams { m_kib : Z; t_iters : Z; p_lanes : Z; version : Z }.

Definition MEMCOST_KIB : Z := 19456.
Definition ITERATIONS : Z := 2.
Definition PARALLELISM : Z := 1.
Definition SALT_SIZE : nat := 16.
Definition HASH_SIZE : nat := 32.
Definition VERSION : Z := 0x13.

Definition DOLLAR : ascii := "$"%char.

Definition encode_phc (p : Argon2Params) (salt hash : list Z) : str :=
  lit "$argon2id$v=" ++ to_string (version p) ++ lit "$m=" ++ to_string (m_kib p) ++
  lit ",t=" ++ to_string (t_iters p) ++ lit ",p=" ++ to_string (p_lanes p) ++
  lit "$" ++ b64_unpadded salt ++ lit "$" ++ b64_unpadded hash.

(** The loop that splits on [sep], [part] being the characters since [start]. *)
Fixpoint split_on (sep : ascii) (part s : str) : list str :=
  match s with
  | [] => [part]
  | c :: s => if Ascii.eqb c sep then part :: split_on sep [] s else split_on sep (part ++ [c]) s
  end.

Definition out_of_range (m t l : Z) : bool :=
  (m =? 0) || (2 ^ 20 <? m) || ((t =? 0) || (64 <? t)) || ((l =? 0) || (16 <? l)).

Definition parse_phc (phc : str) : option (Argon2Params * list Z * list Z) :=
  match expect (lit "$argon2id$") phc with
  | None => None
  | Some _ =>
      match split_on DOLLAR [] phc with
      | [_; algorithm; v; params; salt; hash] =>
          if negb (bool_decide (algorithm = lit "argon2id")) then None else
          match expect (lit "v=") v with
          | None => None
          | Some v =>
              let v := strtoul v mod 2 ^ 32 in
              if negb (v =? VERSION) then None else
              match scan_params params with
              | None => None
              | Some (m, t, l) =>
                  if out_of_range m t l then None else
                  match b64_unpadded_decode salt, b64_unpadded_decode hash with
                  | Some ((_ :: _) as salt), Some ((_ :: _) as hash) => Some (mkParams m t l v, salt, hash)
                  | _, _ => None
                  end
              end
          end
      | _ => None
      end
  end.

(** ** The public functions *)

Section argon2.
Context (argon2id : str -> list Z -> Argon2Params -> nat -> option (list Z)).

(** [salt] is what [secure_random_bytes] delivers. *)
Definition hash_password_with_params (password : str) (memcost iterations parallelism : Z) (salt : list Z) : str :=
  if out_of_range memcost iterations parallelism then [] else
  let p := mkParams memcost iterations parallelism VERSION in
  match argon2id password salt p HASH_SIZE with Some hash => encode_phc p salt hash | None => [] end.

Definition hash_password (password : str) (salt : list Z) : str :=
  hash_password_with_params password MEMCOST_KIB ITERATIONS PARALLELISM salt.

Definition verify_password (password phc : str) : bool :=
  match parse_phc phc with
  | None => false
  | Some (p, salt, expected) =>
      match argon2id password salt p (length expected) with
      | None => false
      | Some got => bool_decide (got = expected)
      end
  end.
End argon2.

Definition needs_upgrade (phc : str) : bool :=
  match parse_phc phc with
  | None => true
  | Some (p, _, hash) =>
      (m_kib p <? MEMCOST_KIB) || (t_iters p <? ITERATIONS) || (p_lanes p <? PARALLELISM) ||
      negb (length hash =? HASH_SIZE)%nat
  end.

(** ** What is printed is read back *)

Lemma unpadded_tail_bare data : List.Forall byte_ok data -> unpadded_tail data = bare_tail ALPHABET data.
Proof.
  destruct data as [|a [|b [|? ?]]]; intros H; [done| | |done]; cbn [unpadded_tail bare_tail].
  - inversion_clear H as [|? ? Ha _]. destruct (tail_one ALPHABET a Ha) as [-> ->]. done.
  - inversion_clear H as [|? ? Ha Hb1]. inversion_clear Hb1 as [|? ? Hb _].
    by destruct (tail_two ALPHABET a b Ha Hb) as (-> & -> & ->).
Qed.

Lemma b64_bare bytes :
  List.Forall byte_ok bytes -> b64_unpadded bytes = encode_quanta ALPHABET (bare_tail ALPHABET) bytes.
Proof. intros H. by apply encode_ext, unpadded_tail_bare. Qed.

Lemma b64_decode_bare s : s <> [] -> b64_unpadded_decode s = decode_bare reverse_table s 0.
Proof. by destruct s. Qed.

Lemma b64_forward bytes : List.Forall byte_ok bytes -> b64_unpadded_decode (b64_unpadded bytes) = Some bytes.
Proof.
  intros Hb. rewrite b64_bare by done. destruct (decide (bytes = [])) as [->|Hne]; [done|].
  rewrite b64_decode_bare by by apply bare_nonempty. apply bare_forward; [apply alphabet_standard|done|by left].
Qed.

Lemma b64_backward s bytes :
  b64_unpadded_decode s = Some bytes -> s = b64_unpadded bytes /\ List.Forall byte_ok bytes.
Proof.
  destruct (decide (s = [])) as [->|Hne]; [intros [= <-]; by split|].
  rewrite b64_decode_bare by done. intros H.
  apply (bare_backward ALPHABET _ alphabet_standard) in H as (-> & Hb & _). split; [by rewrite b64_bare|done].
Qed.

(** Neither numbers nor base64 contain the separator. *)
Definition plain (c : ascii) : bool := negb (Ascii.eqb c DOLLAR).

Lemma digits_forall (f : ascii -> bool) fuel n tail :
  (forall d, 0 <= d < 10 -> f (char_of (48 + d)) = true) -> 0 <= n ->
  forallb f (digits fuel n tail) = (forallb f tail || (fuel =? 0)%nat && forallb f tail).
Proof.
  intros Hf. revert n tail. induction fuel as [|fuel IH]; intros n tail Hn; cbn [digits].
  - by destruct (forallb f tail).
  - assert (0 <= n mod 10 < 10) as Hm by (apply Z.mod_pos_bound; lia).
    assert (forallb f (char_of (48 + n mod 10) :: tail) = forallb f tail) as E by (cbn; by rewrite Hf).
    destruct (n / 10 =? 0); [by rewrite E, orb_false_r|].
    rewrite IH by (apply Z.div_pos; lia). rewrite E. by destruct (forallb f tail), (fuel =? 0)%nat.
Qed.

Lemma to_string_plain n : 0 <= n -> forallb plain (to_string n) = true.
Proof.
  intros H. rewrite to_string_eq by done. rewrite digits_forall; [done| |done].
  intros d Hd. assert (d = 0 \/ d = 1 \/ d = 2 \/ d = 3 \/ d = 4 \/ d = 5 \/ d = 6 \/ d = 7 \/ d = 8 \/ d = 9)
    as Hd' by lia. by destruct Hd' as [->|[->|[->|[->|[->|[->|[->|[->|[->| ->]]]]]]]]].
Qed.

Lemma sym_plain x : plain (sym ALPHABET x) = true.
Proof.
  unfold sym. assert (0 <= Z.land x 63 < 64) as H by (rewrite land_63; apply Z.mod_pos_bound; lia).
  assert (forallb (fun i => plain (symbol ALPHABET i)) (seq 0 64) = true) as Hall by by vm_compute.
  rewrite forallb_forall in Hall. apply Hall, in_seq. lia.
Qed.

Lemma b64_plain data : forallb plain (b64_unpadded data) = true.
Proof.
  unfold b64_unpadded. induction data as [data IH] using (induction_ltof1 _ (@length Z)).
  destruct data as [|a [|b [|c data]]]; cbn [encode_quanta unpadded_tail forallb]; rewrite ?sym_plain; try done.
  apply IH. unfold ltof. cbn. lia.
Qed.

(** Where a number ends. *)
Definition ends_number (s : str) : Prop := match s with [] => True | c :: _ => isdigit c = false end.

Lemma scan_ulong_to_string n s :
  0 <= n <= ULONG_MAX -> ends_number s -> scan_ulong (to_string n ++ s) = Some (n, s).
Proof.
  intros Hn Hs. rewrite to_string_eq, digits_app by lia.
  set (fuel := S (Z.to_nat (Z.log2 n))).
  destruct (take_digits_digits fuel n ([] ++ s) (log2_fuel n ltac:(lia)) ltac:(done)) as (k & Hk & Ht).
  destruct (digits_head fuel n ([] ++ s) ltac:(lia) ltac:(done)) as (d & l & Hd & E).
  assert (skip_ws (digits fuel n ([] ++ s)) = digits fuel n ([] ++ s) /\
    match digits fuel n ([] ++ s) with
    | "-"%char :: s' => (true, s') | "+"%char :: s' => (false, s')
    | _ => (false, digits fuel n ([] ++ s)) end = (false, digits fuel n ([] ++ s))) as [E1 E2].
  { rewrite E. destruct (char_of_digit_sign d Hd) as (H1 & H2 & H3). split; [by apply skip_ws_nonspace|].
    destruct (char_of (48 + d)) as [[] [] [] [] [] [] [] []]; reflexivity || congruence. }
  unfold scan_ulong. rewrite E1, E2, Ht. rewrite Z.mul_0_l, Z.add_0_l. cbn [app].
  assert (forall a seen, take_digits a seen s = (a, seen, s)) as Hstop by (intros a seen; destruct s as [|c s]; cbn; [done|]; by rewrite Hs).
  rewrite Hstop. cbn beta iota. by rewrite (proj2 (Z.ltb_ge ULONG_MAX n)) by lia.
Qed.

Lemma split_last sep part s : existsb (fun c => Ascii.eqb c sep) s = false -> split_on sep part s = [part ++ s].
Proof.
  revert part. induction s as [|c s IH]; intros part H; cbn in *; [by rewrite app_nil_r|].
  apply orb_false_iff in H as [-> H]. rewrite IH by done. by rewrite <- app_assoc.
Qed.

Lemma split_part sep part s rest :
  existsb (fun c => Ascii.eqb c sep) s = false ->
  split_on sep part (s ++ sep :: rest) = (part ++ s) :: split_on sep [] rest.
Proof.
  revert part. induction s as [|c s IH]; intros part H; cbn in *; [by rewrite Ascii.eqb_refl, app_nil_r|].
  apply orb_false_iff in H as [-> H]. rewrite IH by done. by rewrite <- app_assoc.
Qed.

Lemma plain_no_dollar s : forallb plain s = true -> existsb (fun c => Ascii.eqb c DOLLAR) s = false.
Proof.
  induction s as [|c s IH]; cbn; [done|]. intros H. bool_hyps. rewrite IH by done.
  unfold plain in H. bool_hyps. by rewrite H.
Qed.

Definition params_text (p : Argon2Params) : str :=
  lit "m=" ++ to_string (m_kib p) ++ lit ",t=" ++ to_string (t_iters p) ++ lit ",p=" ++ to_string (p_lanes p).

Lemma scan_params_text p :
  0 <= m_kib p <= ULONG_MAX -> 0 <= t_iters p <= ULONG_MAX -> 0 <= p_lanes p <= ULONG_MAX ->
  scan_params (params_text p) = Some (m_kib p, t_iters p, p_lanes p).
Proof.
  intros Hm Ht Hp. unfold scan_params, params_text, scan_field. cbn [lit String.list_ascii_of_string app expect Ascii.eqb Bool.eqb].
  rewrite scan_ulong_to_string by done. cbn [expect Ascii.eqb Bool.eqb].
  rewrite scan_ulong_to_string by done. cbn [expect Ascii.eqb Bool.eqb].
  rewrite <- (app_nil_r (to_string (p_lanes p))). by rewrite scan_ulong_to_string.
Qed.

Lemma params_no_dollar p :
  0 <= m_kib p -> 0 <= t_iters p -> 0 <= p_lanes p ->
  existsb (fun c => Ascii.eqb c DOLLAR) (params_text p) = false.
Proof.
  intros Hm Ht Hp. unfold params_text. rewrite !existsb_app.
  by rewrite (plain_no_dollar (to_string (m_kib p))), (plain_no_dollar (to_string (t_iters p))),
    (plain_no_dollar (to_string (p_lanes p))) by by apply to_string_plain.
Qed.

Lemma in_range m t l :
  0 <= m -> 0 <= t -> 0 <= l -> out_of_range m t l = false -> m <= 2 ^ 20 /\ t <= 64 /\ l <= 16.
Proof. unfold out_of_range. intros. bool_hyps. lia. Qed.

(** A hash written by [encode_phc] is read back by [parse_phc]. *)
Lemma parse_encode p salt hash :
  version p = VERSION -> 0 <= m_kib p -> 0 <= t_iters p -> 0 <= p_lanes p ->
  out_of_range (m_kib p) (t_iters p) (p_lanes p) = false ->
  List.Forall byte_ok salt -> List.Forall byte_ok hash -> salt <> [] -> hash <> [] ->
  parse_phc (encode_phc p salt hash) = Some (p, salt, hash).
Proof.
  intros Hv Hm Ht Hl Hr Hs Hh Hsn Hhn. destruct (in_range _ _ _ Hm Ht Hl Hr) as (Hm' & Ht' & Hl').
  assert (encode_phc p salt hash = [] ++ DOLLAR :: lit "argon2id" ++ DOLLAR :: (lit "v=" ++ to_string (version p)) ++
    DOLLAR :: params_text p ++ DOLLAR :: b64_unpadded salt ++ DOLLAR :: b64_unpadded hash) as E.
  { unfold encode_phc, params_text. cbn [lit String.list_ascii_of_string app].
    repeat (rewrite <- app_assoc; cbn [app]). reflexivity. }
  unfold parse_phc. rewrite E. change (expect (lit "$argon2id$") _) with
    (Some ((lit "v=" ++ to_string (version p)) ++
    DOLLAR :: params_text p ++ DOLLAR :: b64_unpadded salt ++ DOLLAR :: b64_unpadded hash)). cbn beta iota.
  rewrite (split_part DOLLAR [] []) by done. rewrite split_part by done.
  rewrite split_part by by rewrite existsb_app, (plain_no_dollar (to_string (version p))) by (apply to_string_plain; by rewrite Hv).
  rewrite split_part by by apply params_no_dollar. rewrite split_part by apply plain_no_dollar, b64_plain.
  rewrite split_last by apply plain_no_dollar, b64_plain. cbn [app].
  rewrite bool_decide_eq_true_2 by done. cbn [negb lit String.list_ascii_of_string app expect Ascii.eqb Bool.eqb].
  unfold strtoul. rewrite <- (app_nil_r (to_string (version p))), scan_ulong_to_string by (rewrite ?Hv; done).
  rewrite Hv, Z.mod_small by done. rewrite Z.eqb_refl. cbn [negb].
  rewrite scan_params_text by (unfold ULONG_MAX; lia). rewrite Hr, !b64_forward by done.
  destruct salt, hash; try done. rewrite <- Hv. by destruct p.
Qed.

(** What the code's "strict" parser also takes: text after the numbers, signs and blanks
    before them. *)
Lemma parse_phc_lenient :
  parse_phc (lit "$argon2id$v= +19rest$m= 19456,t=+2,p=1 and more$AAAA$AAAA") =
  Some (mkParams 19456 2 1 19, [0; 0; 0], [0; 0; 0]).
Proof. by vm_compute. Qed.

Section laws.
Context (argon2id : str -> list Z -> Argon2Params -> nat -> option (list Z)).
(** RFC 9106: the tag has the length asked for. *)
Context (argon_length : forall password salt p n hash,
  argon2id password salt p n = Some hash -> length hash = n /\ List.Forall byte_ok hash).

Lemma hash_parts password m t l salt :
  0 <= m -> 0 <= t -> 0 <= l -> salt <> [] -> List.Forall byte_ok salt ->
  hash_password_with_params argon2id password m t l salt <> [] ->
  exists hash, argon2id password salt (mkParams m t l VERSION) HASH_SIZE = Some hash /\
    out_of_range m t l = false /\
    parse_phc (hash_password_with_params argon2id password m t l salt) = Some (mkParams m t l VERSION, salt, hash).
Proof using argon_length.
  intros Hm Ht Hl Hs Hb. unfold hash_password_with_params. destruct (out_of_range m t l) eqn:Er; [done|].
  destruct (argon2id _ _ _ _) as [hash|] eqn:E; [|done]. intros _. exists hash. split; [done|]. split; [done|].
  destruct (argon_length _ _ _ _ _ E) as [Hlen Hbytes]. apply parse_encode; try done. intros ->. discriminate Hlen.
Qed.

(** A stored hash accepts exactly the passwords with the tag it was made from. *)
Lemma verify_hash password password' m t l salt :
  0 <= m -> 0 <= t -> 0 <= l -> salt <> [] -> List.Forall byte_ok salt ->
  let phc := hash_password_with_params argon2id password m t l salt in
  phc <> [] ->
  verify_password argon2id password' phc =
  bool_decide (argon2id password' salt (mkParams m t l VERSION) HASH_SIZE =
               argon2id password salt (mkParams m t l VERSION) HASH_SIZE).
Proof using argon_length.
  intros Hm Ht Hl Hs Hb phc Hne. destruct (hash_parts password m t l salt) as (hash & E & _ & Hp); try done.
  unfold verify_password. fold phc in Hp. rewrite Hp, E. destruct (argon_length _ _ _ _ _ E) as [-> _].
  destruct (argon2id password' _ _ _) as [got|].
  - apply bool_decide_ext. split; [by intros ->|by intros [= ->]].
  - by rewrite bool_decide_eq_false_2.
Qed.

Lemma upgrade_needed password m t l salt :
  0 <= m -> 0 <= t -> 0 <= l -> salt <> [] -> List.Forall byte_ok salt ->
  let phc := hash_password_with_params argon2id password m t l salt in
  phc <> [] ->
  needs_upgrade phc = (m <? MEMCOST_KIB) || (t <? ITERATIONS) || (l <? PARALLELISM).
Proof using argon_length.
  intros Hm Ht Hl Hs Hb phc Hne. destruct (hash_parts password m t l salt) as (hash & E & _ & Hp); try done.
  unfold needs_upgrade. fold phc in Hp. rewrite Hp. destruct (argon_length _ _ _ _ _ E) as [-> _].
  cbn [m_kib t_iters p_lanes]. by rewrite Nat.eqb_refl, orb_false_r.
Qed.
End laws.
