(* ===== verification/Token.v ===== *)
(** * Access and refresh tokens: src/src/auth/token.cpp

    A signer is its key. The JSON library is the class [ClaimsJson]: how it prints a payload,
    and what the code asks of a text it has parsed. Random bytes are arguments. *)
From S2P Require Import Prelude Types Fen Notation Bytes Base64 Sha2 Sha2Spec Hmac Credentials.
Open Scope Z_scope.

Record AccessClaims := mkClaims {
  player_id : Z; username : str; token_epoch : Z; issued_at : Z; expires_at : Z
}.

Definition ACCESS_TOKEN_TTL_SECONDS : Z := 15 * 60.
Definition REFRESH_TOKEN_TTL_SECONDS : Z := 30 * 24 * 60 * 60.
Definition REFRESH_TOKEN_BYTES : nat := 32.
Definition INT32_MAX : Z := 2 ^ 31 - 1.

(** ** JSON *)

(** A value as the type tests of the code see it. *)
#[warnings="-register-all"]
Inductive JsonValue :=
  | JInteger (n : Z) | JString (s : str) | JBool (b : bool)
  | JArray (l : list JsonValue) | JObject (find : str -> option JsonValue) | JOther.

(** [dump_claims] is [encode_json] on the object of the five claims; [parse_object] is
    [json::parse] followed by [find], [None] for what is not an object. *)
Class ClaimsJson := {
  dump_claims : AccessClaims -> str;
  parse_object : str -> option (str -> option JsonValue)
}.

(** The fields the code looks up. *)
Definition claim_fields (c : AccessClaims) (f : str -> option JsonValue) : Prop :=
  f (lit "sub") = Some (JInteger (player_id c)) /\ f (lit "username") = Some (JString (username c)) /\
  f (lit "epoch") = Some (JInteger (token_epoch c)) /\ f (lit "iat") = Some (JInteger (issued_at c)) /\
  f (lit "exp") = Some (JInteger (expires_at c)).

Definition int64 (z : Z) : Prop := - 2 ^ 63 <= z < 2 ^ 63.

(** The numbers fit their types and the name is ASCII, which JSON prints as it is. *)
Definition claims_ok (c : AccessClaims) : Prop :=
  int64 (player_id c) /\ valid_username (username c) = true /\ 0 <= token_epoch c <= INT32_MAX /\
  int64 (issued_at c) /\ int64 (expires_at c).

(** What is printed is parsed back; the output is bytes of text. *)
Class ClaimsJsonLaws (J : ClaimsJson) := {
  parse_dump : forall c, claims_ok c -> exists f, parse_object (dump_claims c) = Some f /\ claim_fields c f;
  dump_nonempty : forall c, dump_claims c <> []
}.

(** ** The signer *)

Definition HS384_HEADER_JSON : str :=
  let quoted s := [ascii_of_N 34] ++ s ++ [ascii_of_N 34] in
  lit "{" ++ quoted (lit "alg") ++ lit ":" ++ quoted (lit "HS384") ++ lit "," ++ quoted (lit "typ") ++ lit ":" ++ quoted (lit "JWT") ++ lit "}".

Definition DOT : ascii := "."%char.

Definition sign_bytes (key : list Z) (header_b64 payload_b64 : str) : list Z :=
  let h := hmac_init (HashT := Sha384T) key in
  let h := hmac_update h (bytes_of header_b64) in
  let h := hmac_update h [byte_of DOT] in
  let h := hmac_update h (bytes_of payload_b64) in
  hmac_finish h.

(** [TokenSigner]: a key, valid if it has 32 bytes; [[]] after a failed construction. *)
Definition valid_signer (key : list Z) : bool := (length key =? 32)%nat.
Definition from_key (key : list Z) : list Z := if valid_signer key then key else [].

(** [from_env]: [value] is the environment variable. *)
Definition from_env (value : option str) : str * list Z :=
  match value with
  | None | Some [] => (lit "JWT_SIGNING_KEY is not set", [])
  | Some value =>
      match decode_base64 value 32 with
      | None => (lit "JWT_SIGNING_KEY is not exactly 32 bytes of base64", [])
      | Some raw => ([], raw)
      end
  end.

Definition text_b64 (s : str) : str := encode_base64url (bytes_of s).

Section signer.
Context `{J : ClaimsJson} (key : list Z).

Definition issue_access (c : AccessClaims) : str :=
  if negb (valid_signer key) then [] else
  let header_b64 := text_b64 HS384_HEADER_JSON in
  let payload_b64 := text_b64 (dump_claims c) in
  let sig_b64 := encode_base64url (sign_bytes key header_b64 payload_b64) in
  header_b64 ++ [DOT] ++ payload_b64 ++ [DOT] ++ sig_b64.

(** The three parts around exactly two dots. *)
Definition split_jwt (jwt : str) : option (str * str * str) :=
  match find_from DOT jwt 0 with
  | None => None
  | Some d1 =>
      match find_from DOT jwt (d1 + 1) with
      | None => None
      | Some d2 =>
          match find_from DOT jwt (d2 + 1) with
          | Some _ => None
          | None => Some (firstn d1 jwt, firstn (d2 - d1 - 1) (skipn (d1 + 1) jwt), skipn (d2 + 1) jwt)
          end
      end
  end.

(** [it->get<int64_t>()] *)
Definition to_int64 (z : Z) : Z := (z + 2 ^ 63) mod 2 ^ 64 - 2 ^ 63.

Definition get_i64 (f : str -> option JsonValue) (name : str) : option Z :=
  match f name with Some (JInteger n) => Some (to_int64 n) | _ => None end.
Definition get_str (f : str -> option JsonValue) (name : str) : option str :=
  match f name with Some (JString s) => Some s | _ => None end.

Definition read_claims (f : str -> option JsonValue) : option AccessClaims :=
  match get_i64 f (lit "sub"), get_str f (lit "username"), get_i64 f (lit "epoch"),
        get_i64 f (lit "iat"), get_i64 f (lit "exp") with
  | Some sub, Some name, Some epoch, Some iat, Some exp =>
      if (epoch <? 0) || (INT32_MAX <? epoch) then None else Some (mkClaims sub name epoch iat exp)
  | _, _, _, _, _ => None
  end.

Definition in_time (now_unix : Z) (c : AccessClaims) : bool :=
  negb (now_unix <? issued_at c - 60) && negb (expires_at c <=? now_unix).

(** What happens after the signature has been verified. *)
Definition accept_payload (payload_b64 : str) (now_unix : Z) : option AccessClaims :=
  match decode_base64url payload_b64 0 with
  | None => None
  | Some payload =>
      match parse_object (of_bytes payload) with
      | None => None
      | Some f =>
          match read_claims f with
          | Some c => if in_time now_unix c then Some c else None
          | None => None
          end
      end
  end.

Definition verify_access (jwt : str) (now_unix : Z) : option AccessClaims :=
  if negb (valid_signer key) then None else
  match split_jwt jwt with
  | None => None
  | Some (header_b64, payload_b64, sig_b64) =>
      if bool_decide (header_b64 = []) || bool_decide (payload_b64 = []) || bool_decide (sig_b64 = []) then None else
      match decode_base64url header_b64 0 with
      | None => None
      | Some header =>
          if negb (bool_decide (of_bytes header = HS384_HEADER_JSON)) then None else
          match decode_base64url sig_b64 (Z.of_nat Sha384.DIGEST_SIZE) with
          | None => None
          | Some sig =>
              if negb (constant_time_equals (sign_bytes key header_b64 payload_b64) sig) then None
              else accept_payload payload_b64 now_unix
          end
      end
  end.
End signer.

(** ** Refresh tokens and identifiers *)

Definition mint_refresh_token (random : list Z) : str := encode_base64url random.

Definition refresh_token_hash (token : str) : str := to_hex (Sha384.hash (bytes_of token)).

(** RFC 4122: 16 random bytes with the version and the variant set. *)
Definition new_uuid_v4 (b : list Z) : str :=
  let b := <[6%nat := Z.lor (Z.land (nth 6 b 0) 0x0f) 0x40]> b in
  let b := <[8%nat := Z.lor (Z.land (nth 8 b 0) 0x3f) 0x80]> b in
  to_hex (firstn 4 b) ++ lit "-" ++ to_hex (firstn 2 (skipn 4 b)) ++ lit "-" ++ to_hex (firstn 2 (skipn 6 b)) ++
  lit "-" ++ to_hex (firstn 2 (skipn 8 b)) ++ lit "-" ++ to_hex (firstn 6 (skipn 10 b)).

(** ** Text and bytes *)

Lemma byte_of_ok c : byte_ok (byte_of c).
Proof. unfold byte_ok, byte_of. pose proof (N_ascii_bounded c). lia. Qed.

Lemma bytes_of_ok s : List.Forall byte_ok (bytes_of s).
Proof. induction s; constructor; [apply byte_of_ok|done]. Qed.

Lemma char_of_byte_of c : char_of (byte_of c) = c.
Proof.
  unfold char_of, byte_of. pose proof (N_ascii_bounded c). rewrite Z.mod_small by lia. by rewrite N2Z.id, ascii_N_embedding.
Qed.

Lemma of_bytes_of s : of_bytes (bytes_of s) = s.
Proof. unfold of_bytes, bytes_of. rewrite map_map. induction s as [|c s IH]; cbn; [done|]. by rewrite char_of_byte_of, IH. Qed.

Lemma bytes_of_of l : List.Forall byte_ok l -> bytes_of (of_bytes l) = l.
Proof.
  unfold of_bytes, bytes_of, byte_ok. rewrite map_map. induction 1 as [|b l Hb _ IH]; cbn; [done|]. rewrite IH. f_equal.
  unfold byte_of, char_of. rewrite Z.mod_small by lia. rewrite N_ascii_embedding; lia.
Qed.

(** ** Splitting at dots *)

Lemma find_char_split c s i :
  match find_char c s i with
  | None => ~ In c s
  | Some j => exists a b, s = a ++ c :: b /\ ~ In c a /\ j = (i + length a)%nat
  end.
Proof.
  revert i. induction s as [|d s IH]; intros i; cbn [find_char]; [by intros []|].
  case_bool_decide as E; [subst d; exists [], s; cbn; split; [done|]; split; [by intros []|lia]|].
  specialize (IH (S i)). destruct (find_char c s (S i)) as [j|].
  - destruct IH as (a & b & -> & Hn & ->). exists (d :: a), b. cbn. split; [done|]. split; [|lia]. by intros [<-|H].
  - by intros [<-|H].
Qed.

Lemma find_char_at c a b i : ~ In c a -> find_char c (a ++ c :: b) i = Some (i + length a)%nat.
Proof.
  revert i. induction a as [|d a IH]; intros i Hn; cbn [find_char app].
  - rewrite bool_decide_eq_true_2 by done. f_equal. cbn. lia.
  - rewrite bool_decide_eq_false_2 by (intros ->; apply Hn; by left). rewrite IH by (intros H; apply Hn; by right).
    f_equal. cbn. lia.
Qed.

Lemma find_char_none c s i : ~ In c s -> find_char c s i = None.
Proof.
  intros H. pose proof (find_char_split c s i) as Hs. destruct (find_char c s i) as [j|]; [|done].
  destruct Hs as (a & b & -> & _). exfalso. apply H, in_app_iff. right. by left.
Qed.

Definition joined (a b c : str) : str := a ++ [DOT] ++ b ++ [DOT] ++ c.

Lemma split_joined a b c :
  ~ In DOT a -> ~ In DOT b -> ~ In DOT c -> split_jwt (joined a b c) = Some (a, b, c).
Proof.
  intros Ha Hb Hc. unfold split_jwt, find_from, joined. cbn [app]. rewrite drop_0.
  rewrite (find_char_at DOT a _ 0) by done. cbn [Nat.add].
  assert (skipn (length a + 1) (a ++ DOT :: b ++ DOT :: c) = b ++ DOT :: c) as E1.
  { rewrite Nat.add_1_r, skipn_app, skipn_all2 by lia. by replace (S (length a) - length a)%nat with 1%nat by lia. }
  rewrite E1, find_char_at by done.
  assert (skipn (length a + 1 + length b + 1) (a ++ DOT :: b ++ DOT :: c) = c) as E2.
  { replace (length a + 1 + length b + 1)%nat with (S (length b) + (length a + 1))%nat by lia.
    rewrite <- skipn_skipn, E1, skipn_app, skipn_all2 by lia. by replace (S (length b) - length b)%nat with 1%nat by lia. }
  rewrite E2, find_char_none by done. f_equal. f_equal. f_equal.
  - by rewrite firstn_app, Nat.sub_diag, firstn_all, firstn_O, app_nil_r.
  - replace (length a + 1 + length b - length a - 1)%nat with (length b) by lia.
    by rewrite firstn_app, Nat.sub_diag, firstn_all, firstn_O, app_nil_r.
Qed.

Lemma split_jwt_joined jwt a b c : split_jwt jwt = Some (a, b, c) -> jwt = joined a b c.
Proof.
  unfold split_jwt, find_from. rewrite drop_0.
  pose proof (find_char_split DOT jwt 0) as H1. destruct (find_char DOT jwt 0) as [d1|]; [|done].
  destruct H1 as (x & r & -> & Hx & ->). cbn [Nat.add].
  assert (skipn (length x + 1) (x ++ DOT :: r) = r) as E1.
  { rewrite Nat.add_1_r, skipn_app, skipn_all2 by lia. by replace (S (length x) - length x)%nat with 1%nat by lia. }
  rewrite E1. pose proof (find_char_split DOT r (length x + 1)) as H2.
  destruct (find_char DOT r (length x + 1)) as [d2|]; [|done]. destruct H2 as (y & z & -> & Hy & ->).
  pose proof (split_joined x y) as Hj. unfold split_jwt, find_from, joined in Hj. setoid_rewrite drop_0 in Hj. cbn [app] in Hj.
  assert (skipn (length x + 1 + length y + 1) (x ++ DOT :: y ++ DOT :: z) = z) as E2.
  { replace (length x + 1 + length y + 1)%nat with (S (length y) + (length x + 1))%nat by lia.
    rewrite <- skipn_skipn, E1, skipn_app, skipn_all2 by lia. by replace (S (length y) - length y)%nat with 1%nat by lia. }
  rewrite E2. pose proof (find_char_split DOT z (length x + 1 + length y + 1)) as H3.
  destruct (find_char DOT z _); [done|]. specialize (Hj z Hx Hy H3).
  rewrite (find_char_at DOT x _ 0) in Hj by done. cbn [Nat.add] in Hj. rewrite E1, find_char_at, E2, find_char_none in Hj by done.
  intros [= <- <- <-]. by injection Hj as -> ->.
Qed.

(** ** What a signer accepts *)

Lemma encode_forall (f : ascii -> bool) alphabet tail data :
  (forall x, f (sym alphabet x) = true) ->
  (forall d, (length d < 3)%nat -> forallb f (tail d) = true) ->
  forallb f (encode_quanta alphabet tail data) = true.
Proof.
  intros Hs Ht. induction data as [data IH] using (induction_ltof1 _ (@length Z)).
  destruct data as [|a [|b [|c data]]]; cbn [encode_quanta forallb]; rewrite ?Hs; try (apply Ht; cbn; lia).
  apply IH. unfold ltof. cbn. lia.
Qed.

Lemma url_no_dot data : ~ In DOT (encode_base64url data).
Proof.
  assert (forall x, Ascii.eqb (sym URL_ALPHABET x) DOT = false) as Hs.
  { intros x. unfold sym. assert (0 <= Z.land x 63 < 64) by (rewrite land_63; apply Z.mod_pos_bound; lia).
    assert (forallb (fun i => negb (Ascii.eqb (symbol URL_ALPHABET i) DOT)) (seq 0 64) = true) as Hall by by vm_compute.
    rewrite forallb_forall in Hall. apply negb_true_iff, Hall, in_seq. lia. }
  intros Hin. assert (forallb (fun c => negb (Ascii.eqb c DOT)) (encode_base64url data) = true) as H.
  { apply encode_forall; [intros x; by rewrite Hs|].
    intros [|a [|b [|c d]]] Hd; cbn [url_tail forallb]; rewrite ?Hs; try done. }
  rewrite forallb_forall in H. specialize (H DOT Hin). by rewrite Ascii.eqb_refl in H.
Qed.

Lemma text_b64_no_dot s : ~ In DOT (text_b64 s).
Proof. apply url_no_dot. Qed.

Lemma decode_text_b64 s : decode_base64url (text_b64 s) 0 = Some (bytes_of s).
Proof. apply url_forward; [apply bytes_of_ok|by left]. Qed.

Lemma decode_is_text text bytes n : decode_base64url text n = Some bytes -> text = text_b64 (of_bytes bytes).
Proof. intros H. apply url_backward in H as (-> & Hb & _). unfold text_b64. by rewrite bytes_of_of. Qed.

Lemma text_b64_nil s : text_b64 s = [] <-> s = [].
Proof.
  split; [|by intros ->]. intros H. pose proof (decode_text_b64 s) as E. rewrite H in E. cbn in E.
  injection E as E. by destruct s.
Qed.

Definition signed_text (payload : str) : str := text_b64 HS384_HEADER_JSON ++ [DOT] ++ text_b64 payload.

Lemma signature_spec key payload :
  length key = 32%nat -> Z.of_nat (length (signed_text payload)) < 2 ^ 60 ->
  sign_bytes key (text_b64 HS384_HEADER_JSON) (text_b64 payload) =
  rfc2104 (HashT := Sha384T) key (bytes_of (signed_text payload)).
Proof.
  intros Hk Hl. unfold sign_bytes.
  pose proof (hmac_spec (HashT := Sha384T) key [bytes_of (text_b64 HS384_HEADER_JSON); [byte_of DOT]; bytes_of (text_b64 payload)]) as H.
  cbn [fold_left concat] in H. rewrite app_nil_r in H.
  assert (bytes_of (signed_text payload) = bytes_of (text_b64 HS384_HEADER_JSON) ++ [byte_of DOT] ++ bytes_of (text_b64 payload)) as E
    by (unfold signed_text, bytes_of; by rewrite !map_app).
  rewrite E, <- H; [done|]. split; [by rewrite Hk|]. rewrite <- E. unfold bytes_of. by rewrite length_map.
Qed.

(** The one token a signer accepts for a payload. *)
Definition token_for (key : list Z) (payload : str) : str :=
  signed_text payload ++ [DOT] ++
  encode_base64url (rfc2104 (HashT := Sha384T) key (bytes_of (signed_text payload))).

Lemma constant_time_length a b : length a = length b -> constant_time_equals a b = bool_decide (a = b).
Proof. intros H. apply eq_true_iff_eq. by rewrite bool_decide_eq_true, constant_time_equals_spec. Qed.

Section accepted.
Context `{J : ClaimsJson} (key : list Z).
Context (Hkey : length key = 32%nat).

Lemma token_joined payload :
  token_for key payload = joined (text_b64 HS384_HEADER_JSON) (text_b64 payload)
    (encode_base64url (rfc2104 (HashT := Sha384T) key (bytes_of (signed_text payload)))).
Proof. unfold token_for, signed_text, joined. by rewrite <- !app_assoc. Qed.

Lemma sig_decodes payload :
  decode_base64url (encode_base64url (rfc2104 (HashT := Sha384T) key (bytes_of (signed_text payload))))
    (Z.of_nat Sha384.DIGEST_SIZE) = Some (rfc2104 (HashT := Sha384T) key (bytes_of (signed_text payload))).
Proof. apply url_forward; [apply digest_bytes|]. right. by rewrite rfc2104_length. Qed.

Lemma verify_token payload now :
  Z.of_nat (length (signed_text payload)) < 2 ^ 60 -> payload <> [] ->
  verify_access key (token_for key payload) now = accept_payload (text_b64 payload) now.
Proof using Hkey.
  intros Hl Hne. unfold verify_access, valid_signer. rewrite Hkey. cbn [Nat.eqb negb].
  rewrite token_joined, split_joined by apply url_no_dot.
  rewrite bool_decide_eq_false_2 by by rewrite text_b64_nil.
  rewrite bool_decide_eq_false_2 by by rewrite text_b64_nil.
  pose proof (rfc2104_length (HashT := Sha384T) key (bytes_of (signed_text payload))) as Hlen.
  rewrite bool_decide_eq_false_2.
  - cbn [orb]. rewrite decode_text_b64, of_bytes_of, bool_decide_eq_true_2 by done. cbn [negb].
    rewrite sig_decodes, signature_spec by done. by rewrite constant_time_length, bool_decide_eq_true_2 by done.
  - intros E. pose proof (sig_decodes payload) as Hd. rewrite E in Hd. discriminate Hd.
Qed.

Lemma verify_inv jwt now c :
  Z.of_nat (length jwt) < 2 ^ 60 ->
  verify_access key jwt now = Some c ->
  exists payload, jwt = token_for key payload /\ payload <> [] /\ accept_payload (text_b64 payload) now = Some c.
Proof using Hkey.
  intros Hl. unfold verify_access, valid_signer. rewrite Hkey. cbn [Nat.eqb negb].
  destruct (split_jwt jwt) as [[[h p] g]|] eqn:Es; [|done]. apply split_jwt_joined in Es as ->.
  destruct (_ || _) eqn:Ee; [done|]. bool_hyps.
  destruct (decode_base64url h 0) as [hb|] eqn:Eh; [|done]. case_bool_decide as Ehd; [|done]. cbn [negb].
  apply decode_is_text in Eh. rewrite Ehd in Eh. subst h.
  destruct (decode_base64url g _) as [sig|] eqn:Eg; [|done].
  destruct (constant_time_equals _ _) eqn:Ec; [|done]. cbn [negb]. intros Ha.
  assert (exists payload, p = text_b64 payload) as [payload ->].
  { unfold accept_payload in Ha. destruct (decode_base64url p 0) as [pb|] eqn:Ep; [|done].
    exists (of_bytes pb). by eapply decode_is_text. }
  exists payload. split; [|split; [|done]].
  - assert (Z.of_nat (length (signed_text payload)) < 2 ^ 60) as Hl'.
    { unfold joined in Hl. unfold signed_text. rewrite !length_app in *. cbn [length] in *. lia. }
    rewrite signature_spec in Ec by done. rewrite token_joined.
    apply url_backward in Eg as (-> & Hb & Hn). rewrite constant_time_length in Ec.
    + apply bool_decide_eq_true in Ec as <-. done.
    + rewrite rfc2104_length. destruct Hn as [Hn|Hn]; [done|]. by apply Nat2Z.inj.
  - intros ->. by rewrite (proj2 (text_b64_nil []) eq_refl) in H1.
Qed.

End accepted.

Lemma to_int64_id z : int64 z -> to_int64 z = z.
Proof. unfold int64, to_int64. intros H. rewrite Z.mod_small; lia. Qed.

Lemma accept_claims `{L : ClaimsJsonLaws} c now :
  claims_ok c -> accept_payload (text_b64 (dump_claims c)) now = if in_time now c then Some c else None.
Proof.
  intros Hc. unfold accept_payload. rewrite decode_text_b64, of_bytes_of.
  destruct (parse_dump c Hc) as (f & -> & H1 & H2 & H3 & H4 & H5). destruct Hc as (K1 & _ & K3 & K4 & K5).
  unfold read_claims, get_i64, get_str. rewrite H1, H2, H3, H4, H5.
  assert (int64 (token_epoch c)) as K3' by (unfold int64, INT32_MAX in *; lia).
  rewrite !to_int64_id by done. rewrite (proj2 (Z.ltb_ge _ _)), (proj2 (Z.ltb_ge _ _)) by lia. cbn [orb].
  by destruct c.
Qed.
Lemma issue_token `{J : ClaimsJson} key c :
  length key = 32%nat -> Z.of_nat (length (signed_text (dump_claims c))) < 2 ^ 60 ->
  issue_access key c = token_for key (dump_claims c).
Proof.
  intros Hk Hl. unfold issue_access, valid_signer. rewrite Hk. cbn [Nat.eqb negb].
  rewrite signature_spec by done. unfold token_for, signed_text. by rewrite <- !app_assoc.
Qed.
