(* ===== verification/OAuth.v ===== *)
(** * Identities: src/src/auth/jwks_verifier.cpp and the verifier of src/src/auth/oauth_verify.cpp

    First the key set of the identity provider.

    [Es256JwksVerifier] holds the keys of the last document it fetched, until when they may be
    used and when it last tried. The HTTPS request and OpenSSL are parameters: what a request
    delivers is an argument, [import_point] makes a key of an uncompressed point and
    [ecdsa_verify] checks a signature of 64 bytes. The clock is read twice per operation, before and after the
    request. *)
From S2P Require Import Prelude Types Fen Notation Bytes Base64 Credentials Token.
Open Scope Z_scope.

Definition MAX_BODY : Z := 65536.
Definition KEY_LIFETIME : Z := 5 * 60.
Definition COOLDOWN : Z := 30.

(** [j.value(name, "")] of an object: [None] when it throws because the value is no string. *)
Definition value_str (f : str -> option JsonValue) (name : str) : option str :=
  match f name with None => Some [] | Some (JString s) => Some s | Some _ => None end.

Definition contains (f : str -> option JsonValue) (name : str) : bool := bool_decide (is_Some (f name)).

(** [j.value(name, "") != expected], which may throw. *)
Definition differs (f : str -> option JsonValue) (name expected : str) : option bool :=
  match value_str f name with None => None | Some s => Some (negb (bool_decide (s = expected))) end.

Definition bind {A B} (o : option A) (k : A -> option B) : option B := match o with Some a => k a | None => None end.

Section jwks.
Context {Key : Type} (import_point : list Z -> option Key) (ecdsa_verify : Key -> str -> list Z -> bool).
Context `{J : ClaimsJson}.

Record Es256JwksVerifier := mkJwks {
  url : str; keys : list (str * Key); expires : Z; attempted : Z; attempted_once : bool
}.

(** ["https://[a-z0-9]{20}\.supabase\.co/auth/v1"] *)
Definition supabase_issuer (issuer : str) : bool :=
  let scheme := lit "https://" in
  let project := firstn 20 (skipn (length scheme) issuer) in
  bool_decide (issuer = scheme ++ project ++ lit ".supabase.co/auth/v1") &&
  (length project =? 20)%nat && forallb (fun c => between 97 122 c || between 48 57 c) project.

Definition new_jwks (issuer : str) : Es256JwksVerifier :=
  mkJwks (if supabase_issuer issuer then issuer ++ lit "/.well-known/jwks.json" else []) [] 0 0 false.

Definition valid_jwks (st : Es256JwksVerifier) : bool := negb (bool_decide (url st = [])).

(** ** Keys *)

(** [key["key_ops"] != json::array({"verify"})] *)
Definition only_verify (v : JsonValue) : bool :=
  match v with JArray [JString s] => bool_decide (s = lit "verify") | _ => false end.

(** [||] of conditions that may throw. *)
Definition orelse (a : option bool) (b : option bool) : option bool :=
  bind a (fun x => if x then Some true else b).

(** [None] for an exception, [Some None] for a key that is refused. *)
Definition public_key (f : str -> option JsonValue) : option (option Key) :=
  bind (orelse (differs f (lit "kty") (lit "EC"))
       (orelse (differs f (lit "crv") (lit "P-256"))
       (orelse (if contains f (lit "alg") then differs f (lit "alg") (lit "ES256") else Some false)
       (orelse (if contains f (lit "use") then differs f (lit "use") (lit "sig") else Some false)
               (Some (contains f (lit "d"))))))) (fun refuse =>
  if refuse then Some None else
  if match f (lit "key_ops") with Some v => negb (only_verify v) | None => false end then Some None else
  bind (value_str f (lit "x")) (fun x =>
  match decode_base64url x 32 with
  | None => Some None
  | Some x =>
      bind (value_str f (lit "y")) (fun y =>
      match decode_base64url y 32 with
      | None => Some None
      | Some y => Some (import_point ([4] ++ x ++ y))
      end)
  end)).

Definition key_of (kid : str) (l : list (str * Key)) : option Key :=
  option_map snd (List.find (fun e => bool_decide (fst e = kid)) l).

(** The loop over [document["keys"]]: [None] for every way to fail. *)
Fixpoint import_keys (values : list JsonValue) (replacement : list (str * Key)) : option (list (str * Key)) :=
  match values with
  | [] => Some replacement
  | JObject f :: values =>
      bind (value_str f (lit "kid")) (fun kid =>
      if (length kid =? 0)%nat || (128 <? length kid)%nat then None else
      bind (public_key f) (fun imported =>
      match imported, key_of kid replacement with
      | Some k, None => import_keys values (replacement ++ [(kid, k)])
      | _, _ => None
      end))
  | _ :: _ => None
  end.

Definition read_document (body : str) : option (list (str * Key)) :=
  if MAX_BODY <? Z.of_nat (length body) then None else
  match parse_object body with
  | Some f =>
      match f (lit "keys") with
      | Some (JArray values) => if (32 <? length values)%nat then None else import_keys values []
      | _ => None
      end
  | None => None
  end.

(** ** Fetching *)

(** [fetched] is what the request delivers, if one is made; [later] is the clock after it. *)
Definition refresh_locked (now later : Z) (fetched : option str) (st : Es256JwksVerifier) : bool * Es256JwksVerifier :=
  if negb (valid_jwks st) || (attempted_once st && (now - attempted st <? COOLDOWN)) then (false, st) else
  let st := mkJwks (url st) (keys st) (expires st) now true in
  match bind fetched read_document with
  | Some replacement => (true, mkJwks (url st) replacement (later + KEY_LIFETIME) (attempted st) (attempted_once st))
  | None => (false, st)
  end.

Definition refresh := refresh_locked.
Definition key_count (st : Es256JwksVerifier) : nat := length (keys st).

(** The header names the algorithm, a key and nothing that would point elsewhere. *)
Definition header_kid (header : str) : option str :=
  bind (parse_object header) (fun f =>
  bind (orelse (differs f (lit "alg") (lit "ES256"))
       (orelse (if contains f (lit "typ") then differs f (lit "typ") (lit "JWT") else Some false)
               (Some (existsb (contains f) [lit "jku"; lit "jwk"; lit "x5u"; lit "crit"; lit "b64"])))) (fun refuse =>
  if refuse then None else
  bind (value_str f (lit "kid")) (fun kid =>
  if (length kid =? 0)%nat || (128 <? length kid)%nat then None else Some kid))).

(** The key for [kid], after the refresh that may be due. *)
Definition find_key (kid : str) (now later : Z) (fetched : option str) (st : Es256JwksVerifier)
    : option Key * Es256JwksVerifier :=
  if expires st <=? now then
    let '(ok, st) := refresh_locked now later fetched st in
    (if ok then key_of kid (keys st) else None, st)
  else
    let st := match key_of kid (keys st) with Some _ => st | None => snd (refresh_locked now later fetched st) end in
    (key_of kid (keys st), st).

Definition verify_es256 (header input signature : str) (now later : Z) (fetched : option str) (st : Es256JwksVerifier)
    : bool * Es256JwksVerifier :=
  match header_kid header with
  | None => (false, st)
  | Some kid =>
      match decode_base64url signature 64 with
      | None => (false, st)
      | Some raw =>
          match find_key kid now later fetched st with
          | (None, st) => (false, st)
          | (Some key, st) => (ecdsa_verify key input raw, st)
          end
      end
  end.
End jwks.
Arguments mkJwks {Key}. Arguments url {Key}. Arguments keys {Key}. Arguments expires {Key}.
Arguments attempted {Key}. Arguments attempted_once {Key}. Arguments Es256JwksVerifier : clear implicits.
Arguments new_jwks {Key}. Arguments valid_jwks {Key}. Arguments key_count {Key}.

(** ** Google sign-in: the verifier of src/src/auth/oauth_verify.cpp

    [verify_identity] is [SupabaseVerifier::verify] with either algorithm, and the functions
    that derive a username. The flows that use them are in [Accounts]. *)
From S2P Require Import Prelude Types Fen Notation Bytes Base64 Sha2 Sha2Spec Hmac Credentials Token.
Open Scope Z_scope.

Record SupabaseIdentity := mkIdentity { id_sub : str; id_email : str; id_verified : bool; id_provider : str }.

Definition HS256_HEADER_JSON : str :=
  let quoted s := [ascii_of_N 34] ++ s ++ [ascii_of_N 34] in
  lit "{" ++ quoted (lit "alg") ++ lit ":" ++ quoted (lit "HS256") ++ lit "," ++ quoted (lit "typ") ++ lit ":" ++ quoted (lit "JWT") ++ lit "}".

Definition sign_hs256 (key : list Z) (header_b64 payload_b64 : str) : list Z :=
  let h := hmac_init (HashT := Sha256T) key in
  let h := hmac_update h (bytes_of header_b64) in
  let h := hmac_update h [byte_of DOT] in
  let h := hmac_update h (bytes_of payload_b64) in
  hmac_finish h.

(** This file's [split_jwt] refuses empty parts. *)
Definition split_jwt_nonempty (jwt : str) : option (str * str * str) :=
  match split_jwt jwt with
  | Some (header, payload, sig) =>
      if bool_decide (header = []) || bool_decide (payload = []) || bool_decide (sig = []) then None
      else Some (header, payload, sig)
  | None => None
  end.

(** This file's [get_i64] refuses what does not fit. *)
Definition get_i64_strict (f : str -> option JsonValue) (name : str) : option Z :=
  match f name with
  | Some (JInteger n) => if 2 ^ 63 - 1 <? n then None else Some (to_int64 n)
  | _ => None
  end.

Section verifier.
Context {Key : Type} (import_point : list Z -> option Key) (ecdsa_verify : Key -> str -> list Z -> bool).
Context `{J : ClaimsJson}.

(** [secret] and [jwks]: the verifier has at most one of them. *)
Record SupabaseVerifier := mkVerifier {
  secret : list Z; jwks : option (Es256JwksVerifier Key); issuer : str; audience : str; provider : str
}.
Definition no_verifier : SupabaseVerifier := mkVerifier [] None [] [] [].

Definition make (hs256_secret : list Z) (issuer audience provider : str) : SupabaseVerifier :=
  if bool_decide (hs256_secret = []) || bool_decide (issuer = []) || bool_decide (audience = []) ||
     bool_decide (provider = []) then no_verifier
  else mkVerifier hs256_secret None issuer audience provider.

Definition make_es256 (issuer audience provider : str) : SupabaseVerifier :=
  if bool_decide (audience = []) || bool_decide (provider = []) then no_verifier else
  let jwks := new_jwks issuer in
  if valid_jwks jwks then mkVerifier [] (Some jwks) issuer audience provider else no_verifier.

Definition valid_verifier (v : SupabaseVerifier) : bool :=
  match jwks v with Some j => valid_jwks j | None => negb (bool_decide (secret v = [])) end.

(** [from_env]: an empty variable counts as unset. *)
Definition getenv (value : option str) : option str := match value with Some [] => None | _ => value end.

Definition verifier_from_env (secret_str iss aud provider algorithm : option str) : str * SupabaseVerifier :=
  let provider := default (lit "google") (getenv provider) in
  match getenv iss, getenv aud with
  | None, _ => (lit "SUPABASE_ISSUER is not set", no_verifier)
  | _, None => (lit "SUPABASE_AUDIENCE is not set", no_verifier)
  | Some iss, Some aud =>
      let mode := match getenv algorithm with
                  | Some algorithm => algorithm
                  | None => if bool_decide (is_Some (getenv secret_str)) then lit "HS256" else lit "ES256"
                  end in
      if bool_decide (mode = lit "ES256") then
        let v := make_es256 iss aud provider in
        ((if valid_verifier v then [] else lit "ES256 requires an HTTPS Supabase project issuer"), v)
      else if negb (bool_decide (mode = lit "HS256"))
      then (lit "SUPABASE_JWT_ALGORITHM must be ES256 or HS256", no_verifier)
      else match getenv secret_str with
      | None => (lit "HS256 requires SUPABASE_JWT_SECRET", no_verifier)
      | Some s =>
          match decode_base64 s 0 with
          | Some raw => if (32 <=? length raw)%nat then ([], make raw iss aud provider)
                        else if (length s <? 32)%nat
                             then (lit "SUPABASE_JWT_SECRET is too short (< 32 bytes)", no_verifier)
                             else ([], make (bytes_of s) iss aud provider)
          | None => if (length s <? 32)%nat
                    then (lit "SUPABASE_JWT_SECRET is too short (< 32 bytes)", no_verifier)
                    else ([], make (bytes_of s) iss aud provider)
          end
      end
  end.

(** ** The claims *)

Definition is_true (v : option JsonValue) : bool := match v with Some (JBool b) => b | _ => false end.

(** The field [name] of the object [outer], if it is one. *)
Definition nested (f : str -> option JsonValue) (outer name : str) : option JsonValue :=
  match f outer with Some (JObject g) => g name | _ => None end.

Definition time_claims_ok (f : str -> option JsonValue) (now_unix : Z) : bool :=
  match get_i64_strict f (lit "exp") with Some exp => now_unix <? exp | None => false end &&
  (if contains f (lit "iat")
   then match get_i64_strict f (lit "iat") with
        | Some iat => negb ((iat <? 0) || ((now_unix <? iat) && (60 <? iat - now_unix)))
        | None => false
        end
   else true) &&
  (if contains f (lit "nbf")
   then match get_i64_strict f (lit "nbf") with Some nbf => nbf <=? now_unix | None => false end
   else true).

Definition read_identity (v : SupabaseVerifier) (f : str -> option JsonValue) (now_unix : Z) : option SupabaseIdentity :=
  if negb (bool_decide (get_str f (lit "iss") = Some (issuer v))) then None else
  if negb (bool_decide (get_str f (lit "aud") = Some (audience v))) then None else
  match get_str f (lit "sub") with
  | None | Some [] => None
  | Some sub =>
      if negb (time_claims_ok f now_unix) then None else
      match get_str f (lit "email") with
      | None => None
      | Some email =>
          if negb (is_true (f (lit "email_verified")) || is_true (nested f (lit "user_metadata") (lit "email_verified")))
          then None else
          let found := match nested f (lit "app_metadata") (lit "provider") with Some (JString s) => s | _ => [] end in
          if negb (bool_decide (found = provider v)) then None
          else Some (mkIdentity sub email true found)
      end
  end.

(** The signature, by the one configured algorithm; the key set may be refreshed on the way. *)
Definition check_signature (v : SupabaseVerifier) (header_json header_b64 payload_b64 sig_b64 : str)
    (mono later : Z) (fetched : option str) : bool * SupabaseVerifier :=
  match jwks v with
  | Some j =>
      let '(ok, j) := verify_es256 import_point ecdsa_verify header_json (header_b64 ++ [DOT] ++ payload_b64) sig_b64
                        mono later fetched j in
      (ok, mkVerifier (secret v) (Some j) (issuer v) (audience v) (provider v))
  | None =>
      (bool_decide (header_json = HS256_HEADER_JSON) &&
       match decode_base64url sig_b64 (Z.of_nat Sha256.DIGEST_SIZE) with
       | Some sig => constant_time_equals (sign_hs256 (secret v) header_b64 payload_b64) sig
       | None => false
       end, v)
  end.

Definition verify_identity (v : SupabaseVerifier) (jwt : str) (now_unix : Z) (mono later : Z) (fetched : option str)
    : option SupabaseIdentity * SupabaseVerifier :=
  if negb (valid_verifier v) || (16384 <? Z.of_nat (length jwt)) then (None, v) else
  match split_jwt_nonempty jwt with
  | None => (None, v)
  | Some (header_b64, payload_b64, sig_b64) =>
      match decode_base64url header_b64 0 with
      | None => (None, v)
      | Some header =>
          if 2048 <? Z.of_nat (length header) then (None, v) else
          let '(ok, v) := check_signature v (of_bytes header) header_b64 payload_b64 sig_b64 mono later fetched in
          if negb ok then (None, v) else
          match decode_base64url payload_b64 0 with
          | None => (None, v)
          | Some payload =>
              match parse_object (of_bytes payload) with
              | None => (None, v)
              | Some f => (read_identity v f now_unix, v)
              end
          end
      end
  end.
End verifier.

(** ** Usernames *)

Definition username_char (c : ascii) : bool :=
  between 97 122 c || between 65 90 c || between 48 57 c || bool_decide (c = "_"%char).

Definition derive_username_from_email (email : str) : str :=
  let local := match find_from "@"%char email 0 with None => email | Some at_ => firstn at_ email end in
  let out := firstn USERNAME_MAX_LEN (List.filter username_char local) in
  if (length out <? USERNAME_MIN_LEN)%nat then [] else out.

(** ["_%03X"] of the low 12 bits of [(rb[0] << 4) | (rb[1] & 0x0F)]. *)
Definition upper_hex (n : Z) : ascii := if n <? 10 then char_of (48 + n) else char_of (55 + n).
Definition suffix_of (rb : Z * Z) : str :=
  let n := Z.land (Z.lor (Z.shiftl (fst rb) 4) (Z.land (snd rb) 0x0F)) 0xFFF in
  "_"%char :: map upper_hex [Z.land (Z.shiftr n 8) 15; Z.land (Z.shiftr n 4) 15; Z.land n 15].

Definition candidate (stem : str) (rb : Z * Z) : str :=
  firstn (USERNAME_MAX_LEN - length (suffix_of rb)) stem ++ suffix_of rb.

(** ["user_" + ] the first three bytes of SHA-256 in hex. *)
Definition synthetic_stem (sub : str) : str :=
  lit "user_" ++ to_hex (firstn 3 (Sha256.hash (bytes_of sub))).
