(* ===== verification/AccountStore.v ===== *)
(** * The tables of accounts

    [players], [sessions] and [email_challenges] as [storage/schema_phase7.sql] and the
    migrations 0011 and 0015 define them, with the constraints an INSERT or UPDATE can
    violate; 0015 adds the unique index on [lower(email)] and [email_challenges]. Text is a list of characters, [lower] is PostgreSQL's; timestamps are seconds;
    a UUID is its canonical text. Columns no operation here reads are left out. *)
From stdpp Require Import strings.
From S2P Require Import Prelude Types Storage.
Open Scope Z_scope.

Record PlayerRow := mkPlayerRow {
  pl_id : Z; pl_username : str; pl_username_ci : str; pl_email : option str; pl_verified : bool;
  pl_password : option str; pl_google : option str; pl_elo : Z; pl_epoch : Z; pl_last_login : option Z
}.

Record SessionRow := mkSessionRow {
  se_hash : str; se_player : Z; se_family : str; se_rotated : bool; se_rotated_at : option Z; se_expires : Z
}.

(** The values the CHECK on [purpose] allows. *)
Inductive Purpose := Register | RecoveryEmail | Reset.
#[export] Instance Purpose_eq : EqDecision Purpose.
Proof. solve_decision. Defined.

Record Challenge := mkChallenge {
  ch_hash : str; ch_purpose : Purpose; ch_email : str; ch_player : option Z; ch_epoch : option Z;
  ch_username : option str; ch_created : Z; ch_expires : Z
}.

Record AccountTables := mkAccounts {
  people : list PlayerRow; logins : list SessionRow; challenges : list Challenge; next_person : Z
}.

Definition with_people ps (db : AccountTables) := mkAccounts ps (logins db) (challenges db) (next_person db).
Definition with_logins ss (db : AccountTables) := mkAccounts (people db) ss (challenges db) (next_person db).
Definition with_challenges cs (db : AccountTables) := mkAccounts (people db) (logins db) cs (next_person db).

(** ** Errors *)

Definition UNIQUE_VIOLATION : string := "23505"%string.
Definition CHECK_VIOLATION : string := "23514"%string.
Definition FOREIGN_KEY_VIOLATION : string := "23503"%string.
Definition NUMERIC_OUT_OF_RANGE : string := "22003"%string.
Definition RAISE_EXCEPTION : string := "P0001"%string.

Definition is_unique_violation (sqlstate : string) : bool := String.eqb sqlstate UNIQUE_VIOLATION.

(** ** Players *)

Section players.
Context (lower : str -> str).

(** Two values of a UNIQUE column; NULLs are never equal. *)
Definition same (a b : option str) : bool :=
  match a, b with Some x, Some y => bool_decide (x = y) | _, _ => false end.

(** The UNIQUE columns of [players] and the unique index on [lower(email)]. *)
Definition clashes (p q : PlayerRow) : bool :=
  bool_decide (pl_username p = pl_username q) || bool_decide (pl_username_ci p = pl_username_ci q) ||
  same (pl_email p) (pl_email q) || same (pl_google p) (pl_google q) ||
  same (option_map lower (pl_email p)) (option_map lower (pl_email q)).

(** The range of an INTEGER column, the trigger, the CHECK and the unique indexes, for a new
    version [p] of a row, against the other rows. *)
Definition player_violation (others : list PlayerRow) (p : PlayerRow) : option string :=
  if 2 ^ 31 - 1 <? pl_epoch p then Some NUMERIC_OUT_OF_RANGE else
  if negb (bool_decide (pl_username_ci p = lower (pl_username p))) then Some RAISE_EXCEPTION else
  if negb (bool_decide (is_Some (pl_password p)) || bool_decide (is_Some (pl_google p))) then Some CHECK_VIOLATION else
  if existsb (clashes p) others then Some UNIQUE_VIOLATION else None.

(** INSERT INTO players: the row gets the next identifier, which is returned. *)
Definition insert_player (row : Z -> PlayerRow) (db : AccountTables)
    : string + (AccountTables * PlayerRow) :=
  let p := row (next_person db) in
  match player_violation (people db) p with
  | Some e => inl e
  | None => inr (mkAccounts (people db ++ [p]) (logins db) (challenges db) (next_person db + 1), p)
  end.

(** UPDATE players of the row with this identifier, if [hit] holds of it. *)
Definition update_player (id : Z) (hit : PlayerRow -> bool) (set : PlayerRow -> PlayerRow) (db : AccountTables)
    : string + (AccountTables * nat) :=
  match List.filter (fun p => (pl_id p =? id) && hit p) (people db) with
  | [] => inr (db, 0%nat)
  | p :: _ =>
      match player_violation (List.filter (fun q => negb (pl_id q =? id)) (people db)) (set p) with
      | Some e => inl e
      | None => inr (with_people (update (fun q => pl_id q =? id) set (people db)) db, 1%nat)
      end
  end.
End players.

Definition find_player (id : Z) (db : AccountTables) : list PlayerRow :=
  List.filter (fun p => pl_id p =? id) (people db).

Definition with_password (phc : str) p :=
  mkPlayerRow (pl_id p) (pl_username p) (pl_username_ci p) (pl_email p) (pl_verified p) (Some phc)
    (pl_google p) (pl_elo p) (pl_epoch p) (pl_last_login p).
Definition with_epoch (epoch : Z) p :=
  mkPlayerRow (pl_id p) (pl_username p) (pl_username_ci p) (pl_email p) (pl_verified p) (pl_password p)
    (pl_google p) (pl_elo p) epoch (pl_last_login p).
Definition with_google (google : option str) p :=
  mkPlayerRow (pl_id p) (pl_username p) (pl_username_ci p) (pl_email p) (pl_verified p) (pl_password p)
    google (pl_elo p) (pl_epoch p) (pl_last_login p).
Definition with_email (email : option str) (verified : bool) p :=
  mkPlayerRow (pl_id p) (pl_username p) (pl_username_ci p) email verified (pl_password p)
    (pl_google p) (pl_elo p) (pl_epoch p) (pl_last_login p).
Definition with_last_login (now : Z) p :=
  mkPlayerRow (pl_id p) (pl_username p) (pl_username_ci p) (pl_email p) (pl_verified p) (pl_password p)
    (pl_google p) (pl_elo p) (pl_epoch p) (Some now).

(** ** Sessions *)

Definition insert_login (row : SessionRow) (db : AccountTables) : option (AccountTables * unit) :=
  if existsb (fun p => pl_id p =? se_player row) (people db) &&
     negb (existsb (fun s => bool_decide (se_hash s = se_hash row)) (logins db))
  then Some (with_logins (logins db ++ [row]) db, tt) else None.

Definition delete_logins (hit : SessionRow -> bool) (db : AccountTables) : option (AccountTables * unit) :=
  Some (with_logins (List.filter (fun s => negb (hit s)) (logins db)) db, tt).

Definition of_hash (hash : str) (s : SessionRow) : bool := bool_decide (se_hash s = hash).
Definition of_family (family : str) (s : SessionRow) : bool := bool_decide (se_family s = family).

Definition with_rotated (at_ : option Z) s :=
  mkSessionRow (se_hash s) (se_player s) (se_family s) true at_ (se_expires s).

(** ** Challenges *)

(** The CHECK on which columns a purpose fills. *)
Definition challenge_ok (c : Challenge) : bool :=
  let filled {A} (o : option A) := match o with Some _ => true | None => false end in
  match ch_purpose c with
  | Register => negb (filled (ch_player c)) && filled (ch_username c)
  | RecoveryEmail => filled (ch_player c) && filled (ch_epoch c) && negb (filled (ch_username c))
  | Reset => Bool.eqb (filled (ch_player c)) (filled (ch_epoch c)) && negb (filled (ch_username c))
  end.

Definition insert_challenge (c : Challenge) (db : AccountTables) : option (AccountTables * unit) :=
  if challenge_ok c &&
     negb (existsb (fun d => bool_decide (ch_hash d = ch_hash c)) (challenges db)) &&
     match ch_player c with Some id => existsb (fun p => pl_id p =? id) (people db) | None => true end
  then Some (with_challenges (challenges db ++ [c]) db, tt) else None.

(** DELETE, and the deleted rows. *)
Definition delete_challenges (hit : Challenge -> bool) (db : AccountTables) : option (AccountTables * list Challenge) :=
  Some (with_challenges (List.filter (fun c => negb (hit c)) (challenges db)) db, List.filter hit (challenges db)).
