(* ===== verification/Sessions.v ===== *)
(** * Sessions: src/src/auth/session.cpp

    Each operation is the function of the same name. The 32 random bytes of a refresh token
    and the 16 of a family identifier are arguments; [key] is the signer's. *)
From stdpp Require Import strings.
From S2P Require Import Prelude Types Fen Notation Storage AccountStore Credentials Token.
Open Scope Z_scope.

Record SessionTokens := mkTokens {
  access_token : str; refresh_token : str; access_expires_in : Z; t_issued_at : Z; t_expires_at : Z; tokens_ok : bool
}.
Definition NO_TOKENS : SessionTokens := mkTokens [] [] 0 0 0 false.

Definition succeed (t : SessionTokens) : SessionTokens :=
  mkTokens (access_token t) (refresh_token t) (access_expires_in t) (t_issued_at t) (t_expires_at t) true.

Inductive RefreshOutcome := RefreshOk | InvalidOrRevoked | RefreshDatabaseError.
Inductive GateOutcome := GateOk | RejectedBadToken | RejectedExpired | RejectedRevoked | RejectedUnknownUser.

#[export] Instance RefreshOutcome_eq : EqDecision RefreshOutcome.
Proof. solve_decision. Defined.
#[export] Instance GateOutcome_eq : EqDecision GateOutcome.
Proof. solve_decision. Defined.

Definition REFRESH_REUSE_GRACE_SECONDS : Z := 10.

Section sessions.
Context `{J : ClaimsJson} (key : list Z).

Definition claims_of (player : Z) (name : str) (epoch now_unix : Z) : AccessClaims :=
  mkClaims player name epoch now_unix (now_unix + ACCESS_TOKEN_TTL_SECONDS).

Definition build_pair (player : Z) (name : str) (epoch now_unix : Z) (random : list Z) : SessionTokens :=
  let c := claims_of player name epoch now_unix in
  mkTokens (issue_access key c) (mint_refresh_token random) ACCESS_TOKEN_TTL_SECONDS (issued_at c) (expires_at c) false.

(** [access_token.empty() || refresh_token.empty()] *)
Definition half_empty (t : SessionTokens) : bool :=
  bool_decide (access_token t = []) || bool_decide (refresh_token t = []).

Definition issue_session (player : Z) (name : str) (epoch now_unix : Z) (random uuid : list Z)
    : IO AccountTables SessionTokens :=
  let t := build_pair player name epoch now_unix random in
  if half_empty t then mret t else
  let row := mkSessionRow (refresh_token_hash (refresh_token t)) player (new_uuid_v4 uuid) false None
               (now_unix + REFRESH_TOKEN_TTL_SECONDS) in
  ins ← exec (fun _ => insert_login row);
  match ins with inl _ => mret NO_TOKENS | inr _ => mret (succeed t) end.

(** ** Rotation *)

Definition Refreshed : Type := RefreshOutcome * SessionTokens.
Definition refused : Refreshed := (InvalidOrRevoked, NO_TOKENS).
Definition refresh_failed : Refreshed := (RefreshDatabaseError, NO_TOKENS).

(** [COALESCE(extract(epoch from rotated_at)::bigint, 0)] *)
Definition rotated_at_or_0 (s : SessionRow) : Z := default 0 (se_rotated_at s).

Definition transport_retry (now_unix : Z) (s : SessionRow) : bool :=
  let rotated_at := rotated_at_or_0 s in
  (0 <? rotated_at) && (rotated_at <=? now_unix) && (now_unix - rotated_at <=? REFRESH_REUSE_GRACE_SECONDS).

(** [SET rotated=TRUE, rotated_at=to_timestamp(now)] of the live row of the family, and
    [rotated_at=COALESCE(rotated_at, to_timestamp(now))] of the row itself. *)
Definition supersede_rows (family : str) (now_unix : Z) : list SessionRow -> list SessionRow :=
  update (fun s => of_family family s && negb (se_rotated s)) (with_rotated (Some now_unix)).
Definition mark_row (hash : str) (now_unix : Z) : list SessionRow -> list SessionRow :=
  update (of_hash hash) (fun s => with_rotated (Some (default now_unix (se_rotated_at s))) s).

Definition update_logins (f : list SessionRow -> list SessionRow) (db : AccountTables) : option (AccountTables * unit) :=
  Some (with_logins (f (logins db)) db, tt).

(** DELETE, COMMIT, and the token is refused. *)
Definition revoke_and_refuse (hit : SessionRow -> bool) : IO AccountTables Refreshed :=
  del ← exec (fun _ => delete_logins hit);
  match del with
  | inl _ => abandon refresh_failed
  | inr _ => (ok ← commit_transaction; mret (if (ok : bool) then refused else refresh_failed))
  end.

(** From the check of [expires_at] on: [s] is the row of the presented token. *)
Definition rotate (s : SessionRow) (now_unix : Z) (random : list Z) : IO AccountTables Refreshed :=
  if se_expires s <=? now_unix then revoke_and_refuse (of_hash (se_hash s)) else
  p ← exec (select (find_player (se_player s)));
  match p with
  | inl _ => abandon refresh_failed
  | inr [] => revoke_and_refuse (of_family (se_family s))
  | inr (player :: _) =>
      let fresh := build_pair (se_player s) (pl_username player) (pl_epoch player) now_unix random in
      if half_empty fresh then abandon refresh_failed else
      let successor := mkSessionRow (refresh_token_hash (refresh_token fresh)) (se_player s) (se_family s) false None
                         (now_unix + REFRESH_TOKEN_TTL_SECONDS) in
      mark ← exec (fun _ => update_logins (mark_row (se_hash s) now_unix));
      match mark with
      | inl _ => abandon refresh_failed
      | inr _ =>
          ins ← exec (fun _ => insert_login successor);
          match ins with
          | inl _ => abandon refresh_failed
          | inr _ => (ok ← commit_transaction; mret (if (ok : bool) then (RefreshOk, succeed fresh) else refresh_failed))
          end
      end
  end.

Definition refresh_session (token : str) (now_unix : Z) (random : list Z) : IO AccountTables Refreshed :=
  if bool_decide (token = []) then mret refused else
  let hash := refresh_token_hash token in
  tx ← begin_transaction;
  match tx with
  | inl _ => mret refresh_failed
  | inr _ =>
      sel ← exec (select (fun db => List.filter (of_hash hash) (logins db)));
      match sel with
      | inl _ => abandon refresh_failed
      | inr [] => (_ ← commit_transaction; mret refused)
      | inr (s :: _) =>
          if negb (se_rotated s) then rotate s now_unix random else
          if negb (transport_retry now_unix s) then revoke_and_refuse (of_family (se_family s)) else
          supersede ← exec (fun _ => update_logins (supersede_rows (se_family s) now_unix));
          match supersede with
          | inl _ => abandon refresh_failed
          | inr _ => rotate s now_unix random
          end
      end
  end.

(** ** Signing out *)

(** The families of the rows with this hash. *)
Definition families_of (hash : str) (ss : list SessionRow) : list str :=
  map se_family (List.filter (of_hash hash) ss).

Definition logout (token : str) : IO AccountTables unit :=
  if bool_decide (token = []) then mret tt else
  let hash := refresh_token_hash token in
  _ ← exec (fun _ db => delete_logins (fun s => bool_decide (se_family s ∈ families_of hash (logins db))) db);
  mret tt.

Definition of_player (player : Z) (s : SessionRow) : bool := se_player s =? player.

Section lower.
Context (lower : str -> str).

Definition logout_all (player : Z) : IO AccountTables bool :=
  del ← exec (fun _ => delete_logins (of_player player));
  match del with
  | inl _ => mret false
  | inr _ =>
      bump ← exec_checked (fun _ => update_player lower player (fun _ => true) (fun p => with_epoch (pl_epoch p + 1) p));
      mret (match bump : string + nat with inl _ => false | inr _ => true end)
  end.
End lower.

(** ** The gate *)

Definition current_token_epoch (player : Z) : IO AccountTables Z :=
  r ← exec (select (find_player player));
  mret (match r : string + list PlayerRow with inr (p :: _) => pl_epoch p | _ => -1 end).

(** The claims are written only on [GateOk]. *)
Definition authorize_access_token (jwt : str) (now_unix : Z) : IO AccountTables (GateOutcome * option AccessClaims) :=
  match verify_access key jwt now_unix with
  | None => mret (RejectedBadToken, None)
  | Some c =>
      current ← current_token_epoch (player_id c);
      mret (if (current : Z) <? 0 then (RejectedUnknownUser, None) else
            if negb (current =? token_epoch c) then (RejectedRevoked, None) else (GateOk, Some c))
  end.
End sessions.
