(* ===== verification/Accounts.v ===== *)
(** * Accounts: src/src/auth/service.cpp and the flows of src/src/auth/oauth_verify.cpp

    Salts and random suffixes are arguments; [dummy] is the cached dummy hash. The SELECTs
    deliver whole rows. *)
From stdpp Require Import strings.
From S2P Require Import Prelude Types Fen Notation Storage AccountStore Credentials Token OAuth.
Open Scope Z_scope.

Inductive RegisterStatus := RegisterOk | RegisterInvalidUsername | RegisterWeakPassword | UsernameTaken |
  RegisterDatabaseError | RegisterInternalError.
Record RegisterResult := mkRegister { r_status : RegisterStatus; r_player : Z; r_username : str; r_elo : Z }.
Definition register_failed (s : RegisterStatus) : RegisterResult := mkRegister s 0 [] 0.

(** [None] is [InvalidCredentials]. *)
Record LoginResult := mkLogin {
  l_player : Z; l_username : str; l_elo : Z; l_epoch : Z; l_upgraded : bool
}.

Inductive GoogleSignInStatus := GoogleOk | GoogleInvalidToken | EmailCollision | GoogleDatabaseError | GoogleInternalError.
Record GoogleSignInResult := mkGoogle {
  g_status : GoogleSignInStatus; g_player : Z; g_username : str; g_elo : Z; g_epoch : Z; g_created : bool
}.
Definition google_failed (s : GoogleSignInStatus) : GoogleSignInResult := mkGoogle s 0 [] 0 0 false.

Inductive LinkStatus := LinkOk | LinkInvalidToken | AlreadyLinkedElsewhere | AlreadyHasGoogle | LinkDatabaseError.
Inductive UnlinkStatus := UnlinkOk | LastLoginMethod | NotLinked | UnlinkDatabaseError.

Definition INITIAL_ELO : Z := 800.

(** The columns an INSERT does not name take their defaults. *)
Definition new_player (name name_ci : str) (email : option str) (verified : bool) (password google : option str)
    (id : Z) : PlayerRow :=
  mkPlayerRow id name name_ci email verified password google INITIAL_ELO 0 None.

Section accounts.
Context (lower : str -> str).
Context (argon2id : str -> list Z -> Argon2Params -> nat -> option (list Z)).

(** ** Passwords *)

Definition register_password_user (name password : str) (salt : list Z) : IO AccountTables RegisterResult :=
  if negb (valid_username name) then mret (register_failed RegisterInvalidUsername) else
  if negb (password_length_ok password) then mret (register_failed RegisterWeakPassword) else
  let phc := hash_password argon2id password salt in
  if bool_decide (phc = []) then mret (register_failed RegisterInternalError) else
  ins ← exec_checked (fun _ => insert_player lower (new_player name (to_lower_ascii name) None false (Some phc) None));
  mret (match ins with
        | inl sqlstate => register_failed (if is_unique_violation sqlstate then UsernameTaken else RegisterDatabaseError)
        | inr p => mkRegister RegisterOk (pl_id p) name (pl_elo p)
        end).

Definition find_username_ci (name_ci : str) (db : AccountTables) : list PlayerRow :=
  List.filter (fun p => bool_decide (pl_username_ci p = name_ci)) (people db).

(** The UPDATE of [last_login], whose failure is ignored. *)
Definition touch_last_login (id : Z) : IO AccountTables unit :=
  _ ← exec_checked (fun now => update_player lower id (fun _ => true) (with_last_login now));
  mret tt.

Definition authenticate_password (name password : str) (dummy : str) (salt : list Z)
    : IO AccountTables (option LoginResult) :=
  if negb (valid_username name) then mret None else
  if negb (password_length_ok password) then mret None else
  sel ← exec (select (find_username_ci (to_lower_ascii name)));
  let user := match sel : string + list PlayerRow with
              | inr (p :: _) => match pl_password p with Some phc => Some (p, phc) | None => None end
              | _ => None
              end in
  let phc := match user with Some (_, phc) => phc | None => dummy end in
  let matched := verify_password argon2id password phc in
  match user with
  | Some (p, _) =>
      if negb matched then mret None else
      _ ← touch_last_login (pl_id p);
      let upgraded := if needs_upgrade phc then hash_password argon2id password salt else [] in
      if bool_decide (upgraded = [])
      then mret (Some (mkLogin (pl_id p) (pl_username p) (pl_elo p) (pl_epoch p) false))
      else
        _ ← exec_checked (fun _ => update_player lower (pl_id p) (fun _ => true) (with_password upgraded));
        mret (Some (mkLogin (pl_id p) (pl_username p) (pl_elo p) (pl_epoch p) true))
  | None => mret None
  end.

(** ** Google *)

(** A query that fails counts as "not taken". *)
Definition taken (name : str) : IO AccountTables bool :=
  r ← exec (select (find_username_ci (to_lower_ascii name)));
  mret (match r : string + list PlayerRow with inr (_ :: _) => true | _ => false end).

(** The loop of [find_free_username], one pair of random bytes per attempt. *)
Fixpoint try_suffixes (stem : str) (random : list (Z * Z)) : IO AccountTables str :=
  match random with
  | [] => mret []
  | rb :: random =>
      let c := candidate stem rb in
      if negb (valid_username c) then try_suffixes stem random else
      busy ← taken c;
      if busy : bool then try_suffixes stem random else mret c
  end.

Definition find_free_username (stem : str) (random : list (Z * Z)) : IO AccountTables str :=
  if bool_decide (stem = []) || negb (valid_username stem) then mret [] else
  busy ← taken stem;
  if busy : bool then try_suffixes stem (firstn 5 random) else mret stem.

Definition find_google (sub : str) (db : AccountTables) : list PlayerRow :=
  List.filter (fun p => bool_decide (pl_google p = Some sub)) (people db).

(** [lower(p.email) = lower(email)] *)
Definition has_email (email : str) (p : PlayerRow) : bool :=
  bool_decide (option_map lower (pl_email p) = Some (lower email)).
Definition google_free (sub : str) (p : PlayerRow) : bool :=
  bool_decide (pl_google p = None) || bool_decide (pl_google p = Some sub).

(** The name for a new account: from the address, or else from the identity. *)
Definition choose_username (id : SupabaseIdentity) (random : list (Z * Z)) : IO AccountTables str :=
  name ← find_free_username (derive_username_from_email (id_email id)) (firstn 5 random);
  if bool_decide (name = []) then find_free_username (synthetic_stem (id_sub id)) (skipn 5 random) else mret name.

Definition signed_in (p : PlayerRow) : GoogleSignInResult :=
  mkGoogle GoogleOk (pl_id p) (pl_username p) (pl_elo p) (pl_epoch p) false.

(** The UPDATE that attaches the identity to the account with that verified address. *)
Definition attach_identity (id : SupabaseIdentity) (p : PlayerRow) : IO AccountTables GoogleSignInResult :=
  linked ← exec_checked (fun now => update_player lower (pl_id p)
              (fun q => pl_verified q && has_email (id_email id) q && google_free (id_sub id) q)
              (fun q => with_last_login now (with_google (Some (id_sub id)) q)));
  mret (match linked : string + nat with
        | inl _ => google_failed GoogleDatabaseError
        | inr O => google_failed EmailCollision
        | inr (S _) => signed_in p
        end).

Definition create_google_account (id : SupabaseIdentity) (random : list (Z * Z)) : IO AccountTables GoogleSignInResult :=
  name ← choose_username id random;
  if bool_decide (name = []) then mret (google_failed GoogleInternalError) else
  ins ← exec_checked (fun _ => insert_player lower
          (new_player name (to_lower_ascii name) (Some (lower (id_email id))) true None (Some (id_sub id))));
  mret (match ins with
        | inl sqlstate => google_failed (if is_unique_violation sqlstate then EmailCollision else GoogleDatabaseError)
        | inr p => mkGoogle GoogleOk (pl_id p) name (pl_elo p) (pl_epoch p) true
        end).

(** [google_sign_in] once the verifier has answered [identity]. *)
Definition google_sign_in (identity : option SupabaseIdentity) (random : list (Z * Z))
    : IO AccountTables GoogleSignInResult :=
  match identity with
  | None => mret (google_failed GoogleInvalidToken)
  | Some id =>
      sel ← exec (select (find_google (id_sub id)));
      match sel : string + list PlayerRow with
      | inl _ => mret (google_failed GoogleDatabaseError)
      | inr (p :: _) => (_ ← touch_last_login (pl_id p); mret (signed_in p))
      | inr [] =>
          by_email ← exec (select (fun db => List.filter (has_email (id_email id)) (people db)));
          match by_email : string + list PlayerRow with
          | inl _ => mret (google_failed GoogleDatabaseError)
          | inr (p :: _) =>
              if negb (pl_verified p) || negb (google_free (id_sub id) p)
              then mret (google_failed EmailCollision) else attach_identity id p
          | inr [] => create_google_account id random
          end
      end
  end.

(** [COALESCE(email, lower(address))] and the CASE on [email_verified]. *)
Definition link_columns (id : SupabaseIdentity) (p : PlayerRow) : PlayerRow :=
  let verified := match pl_email p with
                  | None => true
                  | Some e => if bool_decide (lower e = lower (id_email id)) then true else pl_verified p
                  end in
  with_google (Some (id_sub id)) (with_email (Some (default (lower (id_email id)) (pl_email p))) verified p).

Definition link_google (identity : option SupabaseIdentity) (player : Z) : IO AccountTables LinkStatus :=
  match identity with
  | None => mret LinkInvalidToken
  | Some id =>
      self ← exec (select (find_player player));
      match self : string + list PlayerRow with
      | inl _ | inr [] => mret LinkDatabaseError
      | inr (p :: _) =>
          if negb (google_free (id_sub id) p) then mret AlreadyHasGoogle else
          other ← exec (select (fun db =>
                    List.filter (fun q => negb (pl_id q =? player)) (find_google (id_sub id) db)));
          match other : string + list PlayerRow with
          | inl _ => mret LinkDatabaseError
          | inr (_ :: _) => mret AlreadyLinkedElsewhere
          | inr [] =>
              up ← exec_checked (fun _ => update_player lower player (google_free (id_sub id)) (link_columns id));
              mret (match up : string + nat with
                    | inl sqlstate => if is_unique_violation sqlstate then AlreadyLinkedElsewhere else LinkDatabaseError
                    | inr O => AlreadyHasGoogle
                    | inr (S _) => LinkOk
                    end)
          end
      end
  end.

Definition unlink_google (player : Z) : IO AccountTables UnlinkStatus :=
  sel ← exec (select (find_player player));
  match sel : string + list PlayerRow with
  | inl _ | inr [] => mret UnlinkDatabaseError
  | inr (p :: _) =>
      if bool_decide (pl_google p = None) then mret NotLinked else
      if bool_decide (pl_password p = None) then mret LastLoginMethod else
      up ← exec_checked (fun _ => update_player lower player (fun _ => true) (with_google None));
      mret (match up : string + nat with
            | inl sqlstate => if String.eqb sqlstate CHECK_VIOLATION then LastLoginMethod else UnlinkDatabaseError
            | inr _ => UnlinkOk
            end)
  end.
End accounts.
