(* ===== verification/EmailRecovery.v ===== *)
(** * Confirming an address: [EmailRecovery] of src/src/auth/email_recovery.cpp

    [enabled] says whether a sender is configured, [sent] what it answers; the mail it is
    handed is part of the result. The 32 random bytes of a token and the salt of a hash are
    arguments. SHA-256 of a token is OpenSSL's and a parameter. *)
From stdpp Require Import strings.
From S2P Require Import Prelude Types Fen Notation Base64 Storage AccountStore Credentials Token Sessions Accounts.
Open Scope Z_scope.

Inductive EmailStatus := EmailOk | InvalidEmail | InvalidUsername | NameTaken | EmailTaken | RateLimited | WeakPassword |
  InvalidToken | Unauthorized | Conflict | Unavailable | EmailDatabaseError.

Record Mail := mkMail { mail_to : str; mail_body : str }.
Definition Sent : Type := EmailStatus * list Mail.

Definition HOUR : Z := 3600.
Definition CRLF : str := [ascii_of_N 13; ascii_of_N 10].

Definition route (purpose : Purpose) : str :=
  match purpose with
  | Reset => lit "reset-password" | Register => lit "activate-account" | RecoveryEmail => lit "verify-email"
  end.

(** The text of the mail; empty for a reset of no account. *)
Definition body_of (public_url : str) (purpose : Purpose) (player : Z) (token : str) : str :=
  if bool_decide (purpose = Reset) && (player =? 0) then [] else
  lit "A request was made for your Multiplayer Chess account." ++ CRLF ++ CRLF ++
  (if bool_decide (purpose = Reset) then lit "Choose a new password using this link (expires in 15 minutes):" ++ CRLF
   else lit "Confirm your email using this link (expires in 30 minutes):" ++ CRLF) ++
  public_url ++ lit "/#/" ++ route purpose ++ lit "/" ++ token ++ CRLF ++ CRLF ++
  lit "If you did not request this, ignore this email. Do not share this link." ++ CRLF.

Definition lifetime (purpose : Purpose) : Z := if bool_decide (purpose = Reset) then 900 else 1800.

Definition live_at (now : Z) (c : Challenge) : bool := now <? ch_expires c.
Definition is_purpose (purpose : Purpose) (c : Challenge) : bool := bool_decide (ch_purpose c = purpose).
Definition has_hash (hash : str) (c : Challenge) : bool := bool_decide (ch_hash c = hash).
Definition sent_to (email : str) (c : Challenge) : bool := bool_decide (ch_email c = email).

Section recovery.
Context (lower : str -> str) (sha256 : list Z -> list Z).
Context (argon2id : str -> list Z -> Argon2Params -> nat -> option (list Z)).
Context (enabled : bool) (public_url : str).

Definition names_user (name_ci : str) (c : Challenge) : bool := bool_decide (option_map lower (ch_username c) = Some name_ci).

(** The two UNION queries: is the name, or the address, spoken for? *)
Definition name_busy (name_ci email : str) (now : Z) (db : AccountTables) : bool :=
  existsb (fun p => bool_decide (pl_username_ci p = name_ci)) (people db) ||
  existsb (fun c => is_purpose Register c && names_user name_ci c && negb (sent_to email c) && live_at now c) (challenges db).
Definition address_busy (name_ci email : str) (now : Z) (db : AccountTables) : bool :=
  existsb (fun p => bool_decide (option_map lower (pl_email p) = Some email)) (people db) ||
  existsb (fun c => is_purpose Register c && sent_to email c && negb (names_user name_ci c) && live_at now c) (challenges db).

Definition stale (now : Z) (c : Challenge) : bool := (ch_expires c <=? now) && (ch_created c <? now - HOUR).
Definition recent (email : str) (now : Z) (c : Challenge) : bool := sent_to email c && (now - HOUR <? ch_created c).

Definition challenge_row (hash : str) (purpose : Purpose) (email : str) (player epoch : Z) (name : str) (now : Z) : Challenge :=
  mkChallenge hash purpose email (if player =? 0 then None else Some player) (if player =? 0 then None else Some epoch)
    (if bool_decide (name = []) then None else Some name) now (now + lifetime purpose).

Definition no_mail (s : EmailStatus) : Sent := (s, []).

(** The transaction from the cleaning on, and the dispatch. *)
Definition record_challenge (purpose : Purpose) (email : str) (player epoch : Z) (name : str) (now : Z)
    (random : list Z) (sent : bool) : IO AccountTables Sent :=
  cleaned ← exec (fun _ => delete_challenges (stale now));
  match cleaned with
  | inl _ => abandon (no_mail EmailDatabaseError)
  | inr _ =>
      count ← exec (select (fun db => length (List.filter (recent email now) (challenges db))));
      match count with
      | inl _ => abandon (no_mail EmailDatabaseError)
      | inr n =>
          if (3 <=? n)%nat then abandon (no_mail (if bool_decide (purpose = Register) then RateLimited else EmailOk)) else
          let token := encode_base64url random in
          let hash := email_token_hash sha256 token in
          result ← exec (fun _ => insert_challenge (challenge_row hash purpose email player epoch name now));
          match result with
          | inl _ => abandon (no_mail EmailDatabaseError)
          | inr _ =>
              ok ← commit_transaction;
              if negb (ok : bool) then mret (no_mail EmailDatabaseError) else
              let mail := mkMail email (body_of public_url purpose player token) in
              if sent then mret (EmailOk, [mail]) else
              _ ← exec (fun _ => delete_challenges (has_hash hash));
              mret (Unavailable, [mail])
          end
      end
  end.

Definition issue (purpose : Purpose) (email : str) (player epoch : Z) (name : str) (now : Z)
    (random : list Z) (sent : bool) : IO AccountTables Sent :=
  if negb enabled then mret (no_mail Unavailable) else
  tx ← begin_transaction;
  match tx with
  | inl _ => mret (no_mail EmailDatabaseError)
  | inr _ =>
      lock ← exec (select (fun _ => tt));
      match lock with
      | inl _ => abandon (no_mail EmailDatabaseError)
      | inr _ =>
          if negb (bool_decide (purpose = Register))
          then record_challenge purpose email player epoch name now random sent else
          let name_ci := to_lower_ascii name in
          lock ← exec (select (fun _ => tt));
          match lock with
          | inl _ => abandon (no_mail EmailDatabaseError)
          | inr _ =>
              busy ← exec (select (name_busy name_ci email now));
              match busy with
              | inl _ => abandon (no_mail EmailDatabaseError)
              | inr true => abandon (no_mail NameTaken)
              | inr false =>
                  busy ← exec (select (address_busy name_ci email now));
                  match busy with
                  | inl _ => abandon (no_mail EmailDatabaseError)
                  | inr true => abandon (no_mail EmailTaken)
                  | inr false => record_challenge purpose email player epoch name now random sent
                  end
              end
          end
      end
  end.

(** ** Requests *)

(** The checks every request begins with. *)
Definition with_address (raw_email : str) (k : str -> IO AccountTables Sent) : IO AccountTables Sent :=
  if negb enabled then mret (no_mail Unavailable) else
  let email := canonical_email raw_email in
  if bool_decide (email = []) then mret (no_mail InvalidEmail) else k email.

Definition register_user (name raw_email : str) (now : Z) (random : list Z) (sent : bool) : IO AccountTables Sent :=
  with_address raw_email (fun email =>
  if negb (valid_username name) then mret (no_mail InvalidUsername) else
  issue Register email 0 0 name now random sent).

Definition verified_owner (email : str) (p : PlayerRow) : bool :=
  bool_decide (option_map lower (pl_email p) = Some email) && pl_verified p.

Definition request_reset (raw_email : str) (now : Z) (random : list Z) (sent : bool) : IO AccountTables Sent :=
  with_address raw_email (fun email =>
  row ← exec (select (fun db => List.filter (verified_owner email) (people db)));
  match row with
  | inl _ => mret (no_mail EmailDatabaseError)
  | inr [] => issue Reset email 0 0 [] now random sent
  | inr (p :: _) => issue Reset email (pl_id p) (pl_epoch p) [] now random sent
  end).

Definition request_recovery_email (player : Z) (raw_email password : str) (now : Z) (random : list Z) (sent : bool)
    : IO AccountTables Sent :=
  with_address raw_email (fun email =>
  if negb (password_length_ok password) then mret (no_mail Unauthorized) else
  row ← exec (select (find_player player));
  match row with
  | inl _ => mret (no_mail EmailDatabaseError)
  | inr [] => mret (no_mail Unauthorized)
  | inr (p :: _) =>
      match pl_password p with
      | None => mret (no_mail Unauthorized)
      | Some phc =>
          if negb (verify_password argon2id password phc) then mret (no_mail Unauthorized) else
          match pl_email p with
          | Some _ => mret (no_mail Conflict)
          | None => issue RecoveryEmail email player (pl_epoch p) [] now random sent
          end
      end
  end).

(** ** Answers

    The second component is what [activated_username] or [account_username] points to. *)
Definition Answer : Type := EmailStatus * str.
Definition answer (s : EmailStatus) : Answer := (s, []).

Definition confirmable (hash : str) (now : Z) (c : Challenge) : bool :=
  has_hash hash c && negb (is_purpose Reset c) && live_at now c.

(** The challenge is used up, and the transaction committed. *)
Definition settle_challenge (hash : str) (name : str) : IO AccountTables Answer :=
  del ← exec (fun _ => delete_challenges (has_hash hash));
  match del with
  | inl _ => abandon (answer EmailDatabaseError)
  | inr _ => (ok ← commit_transaction; mret (if ok : bool then (EmailOk, name) else answer EmailDatabaseError))
  end.

Definition conflict_or_error (sqlstate : string) : Answer :=
  answer (if is_unique_violation sqlstate then Conflict else EmailDatabaseError).

(** What the challenge authorizes: a new account, or an address for an account without one. *)
Definition carry_out (c : Challenge) (phc : str) : IO AccountTables Answer :=
  match ch_purpose c with
  | Register =>
      if bool_decide (phc = []) then abandon (answer WeakPassword) else
      let name := default [] (ch_username c) in
      ins ← exec_checked (fun _ => insert_player lower
              (new_player name (to_lower_ascii name) (Some (ch_email c)) true (Some phc) None));
      match ins with
      | inl sqlstate => abandon (conflict_or_error sqlstate)
      | inr _ => settle_challenge (ch_hash c) name
      end
  | _ =>
      up ← exec_checked (fun _ => update_player lower (default 0 (ch_player c))
             (fun p => bool_decide (Some (pl_epoch p) = ch_epoch c) && bool_decide (pl_email p = None))
             (with_email (Some (ch_email c)) true));
      match up with
      | inl sqlstate => abandon (conflict_or_error sqlstate)
      | inr n => if (n =? 1)%nat then settle_challenge (ch_hash c) [] else abandon (answer InvalidToken)
      end
  end.

(** The row is read again once the player is locked. *)
Definition confirm_locked (hash : str) (now : Z) (phc : str) : IO AccountTables Answer :=
  row ← exec (select (fun db => List.filter (confirmable hash now) (challenges db)));
  match row with
  | inl _ => abandon (answer EmailDatabaseError)
  | inr [] => abandon (answer InvalidToken)
  | inr (c :: _) => carry_out c phc
  end.

Definition confirm_in_transaction (hash : str) (now : Z) (phc : str) : IO AccountTables Answer :=
  tx ← begin_transaction;
  match tx with
  | inl _ => mret (answer EmailDatabaseError)
  | inr _ =>
      row ← exec (select (fun db => List.filter (confirmable hash now) (challenges db)));
      match row with
      | inl _ => abandon (answer EmailDatabaseError)
      | inr [] => abandon (answer InvalidToken)
      | inr (c :: _) =>
          match ch_player c with
          | None => confirm_locked hash now phc
          | Some id =>
              player ← exec (select (find_player id));
              match player with
              | inl _ => abandon (answer EmailDatabaseError)
              | inr [] => abandon (answer InvalidToken)
              | inr (_ :: _) => confirm_locked hash now phc
              end
          end
      end
  end.

Definition confirm_email (token : str) (now : Z) (password : str) (salt : list Z) : IO AccountTables Answer :=
  let hash := email_token_hash sha256 token in
  if bool_decide (hash = []) then mret (answer InvalidToken) else
  if bool_decide (password = []) then confirm_in_transaction hash now [] else
  if negb (valid_new_password password) then mret (answer WeakPassword) else
  let phc := hash_password argon2id password salt in
  if bool_decide (phc = []) then mret (answer Unavailable) else confirm_in_transaction hash now phc.

(** ** A new password *)

(** The join of [players] and [email_challenges]. *)
Definition resettable (hash : str) (now : Z) (db : AccountTables) : list (PlayerRow * Challenge) :=
  List.filter (fun pc => bool_decide (ch_player (snd pc) = Some (pl_id (fst pc))) && has_hash hash (snd pc) &&
      is_purpose Reset (snd pc) && live_at now (snd pc) && verified_owner (ch_email (snd pc)) (fst pc))
    (list_prod (people db) (challenges db)).

Definition new_secret (phc : str) (p : PlayerRow) : PlayerRow := with_epoch (pl_epoch p + 1) (with_password phc p).

Definition of_owner (id : Z) (c : Challenge) : bool := bool_decide (ch_player c = Some id).

Definition replace_password (id : Z) (name phc : str) : IO AccountTables Answer :=
  up ← exec_checked (fun _ => update_player lower id (fun _ => true) (new_secret phc));
  match up with
  | inl _ => abandon (answer EmailDatabaseError)
  | inr _ =>
      del ← exec (fun _ => delete_logins (of_player id));
      match del with
      | inl _ => abandon (answer EmailDatabaseError)
      | inr _ =>
          del ← exec (fun _ => delete_challenges (of_owner id));
          match del with
          | inl _ => abandon (answer EmailDatabaseError)
          | inr _ => (ok ← commit_transaction; mret (if ok : bool then (EmailOk, name) else answer EmailDatabaseError))
          end
      end
  end.

Definition reset_in_transaction (hash : str) (now : Z) (phc : str) : IO AccountTables Answer :=
  tx ← begin_transaction;
  match tx with
  | inl _ => mret (answer EmailDatabaseError)
  | inr _ =>
      row ← exec (select (resettable hash now));
      match row with
      | inl _ => abandon (answer EmailDatabaseError)
      | inr [] => abandon (answer InvalidToken)
      | inr ((p, c) :: _) =>
          if negb (bool_decide (ch_epoch c = Some (pl_epoch p))) then abandon (answer InvalidToken) else
          claimed ← exec (fun _ => delete_challenges (has_hash hash));
          match claimed with
          | inl _ => abandon (answer EmailDatabaseError)
          | inr [] => abandon (answer InvalidToken)
          | inr (_ :: _) => replace_password (pl_id p) (pl_username p) phc
          end
      end
  end.

Definition reset_password (token password : str) (now : Z) (salt : list Z) : IO AccountTables Answer :=
  let hash := email_token_hash sha256 token in
  if bool_decide (hash = []) then mret (answer InvalidToken) else
  if negb (valid_new_password password) then mret (answer WeakPassword) else
  let phc := hash_password argon2id password salt in
  if bool_decide (phc = []) then mret (answer Unavailable) else reset_in_transaction hash now phc.
End recovery.
