(* ===== verification/AccountSpec.v ===== *)
(** * What holds of the account tables

    [accounts_ok] is what every reachable state satisfies, and [evolves] how a later state
    relates to an earlier one: accounts stay, with their names, their epochs only grow and an
    address, once bound or verified, remains. [preserves] is the condition on a program that
    is proved of each operation, whatever statements fail. *)
From stdpp Require Import strings.
From S2P Require Import Prelude Types Storage StorageSpec AccountStore.
Open Scope Z_scope.

(** ** Lists with a key *)

Lemma NoDup_filter_key {A B} (k : A -> B) (f : A -> bool) l :
  List.NoDup (map k l) -> List.NoDup (map k (List.filter f l)).
Proof.
  induction l as [|x l IH]; [done|]. cbn. intros [Hx Hl]%NoDup_cons_iff. destruct (f x); [|auto].
  cbn. constructor; [|auto]. intros (y & E & [Hy _]%List.filter_In)%in_map_iff. apply Hx, in_map_iff. eauto.
Qed.

Lemma NoDup_key {A B} (k : A -> B) l x y : List.NoDup (map k l) -> In x l -> In y l -> k x = k y -> x = y.
Proof.
  induction l as [|z l IH]; [by intros _ []|]. cbn. intros [Hz Hl]%NoDup_cons_iff.
  intros [->|Hx] [->|Hy] E; [done|exfalso|exfalso|by auto]; apply Hz; [rewrite E|rewrite <- E];
    by apply in_map.
Qed.

Lemma NoDup_snoc_key {A B} (k : A -> B) l x :
  List.NoDup (map k l) -> (forall y, In y l -> k y <> k x) -> List.NoDup (map k (l ++ [x])).
Proof.
  intros Hl Hx. rewrite map_app. apply List.NoDup_app; [done|by repeat constructor; intros []|].
  intros b (y & <- & Hy)%in_map_iff [E|[]]. by apply (Hx y).
Qed.

Lemma existsb_none {A} (f : A -> bool) l : existsb f l = false <-> forall x, In x l -> f x = false.
Proof.
  rewrite <- not_true_iff_false, existsb_exists. split.
  - intros H x Hx. apply not_true_iff_false. intros Hf. eauto.
  - intros H (x & Hx & Hf). by rewrite H in Hf.
Qed.

(** ** The invariant *)

Section invariant.
Context (lower : str -> str).

Record player_ok (p : PlayerRow) : Prop := {
  po_name : pl_username_ci p = lower (pl_username p);
  po_method : is_Some (pl_password p) \/ is_Some (pl_google p);
  po_epoch : 0 <= pl_epoch p <= 2 ^ 31 - 1
}.

Record people_ok (next : Z) (ps : list PlayerRow) : Prop := {
  pp_ids : List.NoDup (map pl_id ps);
  pp_next : forall p, In p ps -> pl_id p < next;
  pp_distinct : forall p q, In p ps -> In q ps -> pl_id p <> pl_id q -> clashes lower p q = false;
  pp_rows : forall p, In p ps -> player_ok p
}.

Definition known (ps : list PlayerRow) (id : Z) : Prop := exists p, In p ps /\ pl_id p = id.

(** A family belongs to one player and has at most one token that can still be exchanged. *)
Record logins_ok (ps : list PlayerRow) (ss : list SessionRow) : Prop := {
  lo_hashes : List.NoDup (map se_hash ss);
  lo_owner : forall s, In s ss -> known ps (se_player s);
  lo_family : forall s t, In s ss -> In t ss -> se_family s = se_family t -> se_player s = se_player t;
  lo_live : forall s t, In s ss -> In t ss -> se_family s = se_family t ->
    se_rotated s = false -> se_rotated t = false -> s = t
}.

Record challenges_ok (ps : list PlayerRow) (cs : list Challenge) : Prop := {
  co_hashes : List.NoDup (map ch_hash cs);
  co_columns : forall c, In c cs -> challenge_ok c = true;
  co_owner : forall c id, In c cs -> ch_player c = Some id -> known ps id
}.

Record accounts_ok (db : AccountTables) : Prop := {
  ok_people : people_ok (next_person db) (people db);
  ok_logins : logins_ok (people db) (logins db);
  ok_challenges : challenges_ok (people db) (challenges db)
}.

(** ** Evolution *)

Record stays (p p' : PlayerRow) : Prop := {
  st_id : pl_id p' = pl_id p;
  st_name : pl_username p' = pl_username p;
  st_name_ci : pl_username_ci p' = pl_username_ci p;
  st_epoch : pl_epoch p <= pl_epoch p';
  st_email : is_Some (pl_email p) -> pl_email p' = pl_email p;
  st_verified : pl_verified p = true -> pl_verified p' = true
}.

#[export] Instance stays_preorder : PreOrder stays.
Proof.
  split; [by constructor|]. intros p q r [] []. constructor; try congruence; try lia; [|by auto].
  intros H. rewrite st_email1; [auto|]. by rewrite st_email0.
Qed.

Definition evolves (db db' : AccountTables) : Prop :=
  forall p, In p (people db) -> exists p', In p' (people db') /\ stays p p'.

#[export] Instance evolves_preorder : PreOrder evolves.
Proof.
  split.
  - intros db p Hp. by exists p.
  - intros a b c Hab Hbc p Hp. destruct (Hab p Hp) as (q & Hq & Hpq). destruct (Hbc q Hq) as (r & Hr & Hqr).
    exists r. split; [done|]. by etrans.
Qed.

Lemma evolves_known db db' id : evolves db db' -> known (people db) id -> known (people db') id.
Proof. intros H (p & Hp & <-). destruct (H p Hp) as (p' & Hp' & E). exists p'. split; [done|]. apply E. Qed.

Lemma people_evolves db db' : people db' = people db -> evolves db db'.
Proof. intros E p Hp. exists p. by rewrite E. Qed.

(** A step that keeps the invariant and only lets the tables evolve. *)
Definition good_step (db db' : AccountTables) : Prop := accounts_ok db -> accounts_ok db' /\ evolves db db'.

#[export] Instance good_step_preorder : PreOrder good_step.
Proof.
  split.
  - intros db H. by split.
  - intros a b c Hab Hbc Ha. destruct (Hab Ha) as [Hb E]. destruct (Hbc Hb) as [Hc E']. split; [done|]. by etrans.
Qed.

(** ** Players *)

Lemma same_sym a b : same a b = same b a.
Proof. destruct a, b; cbn; try done. by apply bool_decide_ext. Qed.

Lemma clashes_sym p q : clashes lower p q = clashes lower q p.
Proof.
  unfold clashes. rewrite (same_sym (pl_email p)), (same_sym (pl_google p)), (same_sym (option_map lower _)).
  by rewrite (bool_decide_ext (pl_username p = _) (pl_username q = pl_username p)),
    (bool_decide_ext (pl_username_ci p = _) (pl_username_ci q = pl_username_ci p)).
Qed.

Lemma no_violation others p :
  player_violation lower others p = None -> 0 <= pl_epoch p ->
  player_ok p /\ forall q, In q others -> clashes lower p q = false.
Proof.
  unfold player_violation. destruct (Z.ltb_spec (2 ^ 31 - 1) (pl_epoch p)); [done|].
  destruct (bool_decide_reflect (pl_username_ci p = lower (pl_username p))); [|done]. cbn [negb].
  destruct (_ || _) eqn:Em; [|done]. cbn [negb]. destruct (existsb _ _) eqn:Ec; [done|]. intros _ He.
  rewrite existsb_none in Ec. split; [|done]. constructor; [done| |lia].
  apply orb_true_iff in Em. by rewrite !bool_decide_eq_true in Em.
Qed.

Lemma insert_player_good row db db' p :
  (forall id, pl_id (row id) = id) -> (forall id, 0 <= pl_epoch (row id)) ->
  insert_player lower row db = inr (db', p) -> good_step db db'.
Proof.
  intros Hid He. unfold insert_player. destruct (player_violation _ _ _) eqn:E; [done|].
  intros [= <- <-] [[Hi Hn Hd Hr] [Hh Ho Hf Hl] [Hch Hco Hcw]].
  apply no_violation in E as [Hok Hc]; [|done]. set (p := row (next_person db)) in *.
  assert (pl_id p = next_person db) as Hp by apply Hid.
  assert (evolves db (mkAccounts (people db ++ [p]) (logins db) (challenges db) (next_person db + 1))) as Hev.
  { intros q Hq. exists q. split; [by apply in_or_app; left|done]. }
  split; [|done]. constructor; cbn [people logins challenges next_person].
  - constructor.
    + apply NoDup_snoc_key; [done|]. intros q Hq. specialize (Hn q Hq). lia.
    + intros q [Hq|[<-|[]]]%in_app_or; [specialize (Hn q Hq)|]; lia.
    + intros q r [Hq|[<-|[]]]%in_app_or [Hr'|[<-|[]]]%in_app_or Hne; [by apply Hd| |by apply Hc|done].
      rewrite clashes_sym. by apply Hc.
    + intros q [Hq|[<-|[]]]%in_app_or; auto.
  - constructor; [done| |done|done]. intros s Hs. by apply (evolves_known _ _ _ Hev), Ho.
  - constructor; [done|done|]. intros c id Hin Hid'. by apply (evolves_known _ _ _ Hev), (Hcw c).
Qed.

Lemma update_player_good id hit set db db' n :
  (forall p, hit p = true -> stays p (set p)) ->
  update_player lower id hit set db = inr (db', n) -> good_step db db'.
Proof.
  intros Hset. unfold update_player. destruct (List.filter _ _) as [|p rest] eqn:Ef; [intros [= <- _]; reflexivity|].
  destruct (player_violation _ _ _) eqn:E; [done|].
  intros [= <- _] [[Hi Hn Hd Hr] [Hh Ho Hf Hl] [Hch Hco Hcw]].
  assert (In p (people db) /\ pl_id p = id /\ hit p = true) as (Hp & Hpid & Hhit).
  { assert (In p (p :: rest)) as Hin by by left. rewrite <- Ef in Hin.
    apply List.filter_In in Hin as [? [? ?]%andb_true_iff]. split; [done|]. split; [lia|done]. }
  specialize (Hset p Hhit). apply no_violation in E as [Hok Hc]; cycle 1.
  { etrans; [apply (po_epoch _ (Hr p Hp))|apply Hset]. }
  assert (forall q, In q (update (fun q => pl_id q =? id) set (people db)) ->
            q = set p \/ In q (people db) /\ pl_id q <> id) as Hcases.
  { intros q (q0 & Hq0 & ->)%in_update. destruct (Z.eqb_spec (pl_id q0) id) as [E|E]; [left|by right].
    f_equal. apply (NoDup_key pl_id (people db)); [done|done|done|congruence]. }
  assert (forall q, In q (people db) -> pl_id q <> id -> clashes lower (set p) q = false) as Hc'.
  { intros q Hq Hne. apply Hc, List.filter_In. split; [done|]. by apply negb_true_iff, Z.eqb_neq. }
  assert (evolves db (with_people (update (fun q => pl_id q =? id) set (people db)) db)) as Hev.
  { intros q Hq. destruct (Z.eqb_spec (pl_id q) id) as [E|E].
    - exists (set p). split; [|replace q with p; [done|apply (NoDup_key pl_id (people db)); congruence]].
      apply in_update. exists p. split; [done|]. by rewrite (proj2 (Z.eqb_eq _ _) Hpid).
    - exists q. split; [|done]. apply in_update. exists q. split; [done|]. by rewrite (proj2 (Z.eqb_neq _ _) E). }
  assert (pl_id (set p) = id) as Hsid by (by rewrite (st_id _ _ Hset)).
  split; [|done]. constructor; cbn [people logins challenges next_person with_people].
  - constructor.
    + unfold update. rewrite map_map, (map_ext_in _ pl_id); [done|]. intros q Hq.
      destruct (Z.eqb_spec (pl_id q) id) as [E|E]; [|done].
      replace q with p; [by rewrite Hsid|apply (NoDup_key pl_id (people db)); congruence].
    + intros q [->|[Hq _]]%Hcases; [rewrite Hsid, <- Hpid|]; by apply Hn.
    + intros q r [->|[Hq Hqi]]%Hcases [->|[Hr' Hri]]%Hcases Hne; [done|by apply Hc'| |by apply Hd].
      rewrite clashes_sym. by apply Hc'.
    + intros q [->|[Hq _]]%Hcases; auto.
  - constructor; [done| |done|done]. intros s Hs. by apply (evolves_known _ _ _ Hev), Ho.
  - constructor; [done|done|]. intros c i Hin Hid'. by apply (evolves_known _ _ _ Hev), (Hcw c).
Qed.

(** ** Sessions and challenges *)

Lemma with_logins_good ss db :
  (accounts_ok db -> logins_ok (people db) ss) -> good_step db (with_logins ss db).
Proof. intros H Hok. split; [|by apply people_evolves]. destruct Hok eqn:E. by constructor; [|apply H|]. Qed.

Lemma delete_logins_good hit db db' r : delete_logins hit db = Some (db', r) -> good_step db db'.
Proof.
  intros [= <- _]. apply with_logins_good. intros [_ [Hh Ho Hf Hl] _].
  assert (forall s, In s (List.filter (fun s => negb (hit s)) (logins db)) -> In s (logins db)) as Hin
    by (by intros s [? _]%List.filter_In).
  constructor; [by apply NoDup_filter_key|by auto..].
Qed.

(** Marking rows as rotated. *)
Lemma rotate_logins_good (cond : SessionRow -> bool) (at_ : SessionRow -> option Z) db :
  good_step db (with_logins (update cond (fun s => with_rotated (at_ s) s) (logins db)) db).
Proof.
  apply with_logins_good. intros [_ [Hh Ho Hf Hl] _]. constructor.
  - by rewrite (map_update se_hash).
  - intros s (t & Ht & ->)%in_update. destruct (cond t); by apply (Ho t).
  - intros s t (s' & Hs & ->)%in_update (t' & Ht & ->)%in_update E.
    assert (se_family s' = se_family t') as E' by (by destruct (cond s'), (cond t')).
    specialize (Hf _ _ Hs Ht E'). by destruct (cond s'), (cond t').
  - intros s t (s' & Hs & ->)%in_update (t' & Ht & ->)%in_update E Hr1 Hr2.
    destruct (cond s'); [done|]. destruct (cond t'); [done|]. by apply Hl.
Qed.

Definition family_player (family : str) (player : Z) (db : AccountTables) : Prop :=
  forall s, In s (logins db) -> se_family s = family -> se_player s = player.

Lemma insert_login_good row db db' r :
  family_player (se_family row) (se_player row) db ->
  (forall s, In s (logins db) -> se_family s = se_family row -> se_rotated row = false -> se_rotated s = true) ->
  insert_login row db = Some (db', r) -> good_step db db'.
Proof.
  intros Hfam Hlive. unfold insert_login. destruct (_ && _) eqn:E; [|done]. intros [= <- _].
  apply andb_true_iff in E as [(p & Hp & Hid)%existsb_exists Hfresh%negb_true_iff].
  rewrite existsb_none in Hfresh. apply with_logins_good. intros [_ [Hh Ho Hf Hl] _]. constructor.
  - apply NoDup_snoc_key; [done|]. intros s Hs E. specialize (Hfresh s Hs).
    by rewrite bool_decide_eq_false in Hfresh.
  - intros s [Hs|[<-|[]]]%in_app_or; [by apply Ho|]. exists p. split; [done|lia].
  - intros s t [Hs|[<-|[]]]%in_app_or [Ht|[<-|[]]]%in_app_or E; [by apply Hf|by apply Hfam| |done].
    symmetry. by apply Hfam.
  - intros s t [Hs|[<-|[]]]%in_app_or [Ht|[<-|[]]]%in_app_or E R1 R2; [by apply Hl| | |done]; exfalso.
    + by rewrite (Hlive s) in R1.
    + by rewrite (Hlive t) in R2.
Qed.

Lemma with_challenges_good cs db :
  (accounts_ok db -> challenges_ok (people db) cs) -> good_step db (with_challenges cs db).
Proof. intros H Hok. split; [|by apply people_evolves]. destruct Hok eqn:E. by constructor; [| |apply H]. Qed.

Lemma insert_challenge_good c db db' r : insert_challenge c db = Some (db', r) -> good_step db db'.
Proof.
  unfold insert_challenge. destruct (_ && _) eqn:E; [|done]. intros [= <- _].
  apply andb_true_iff in E as [[Hok Hfresh%negb_true_iff]%andb_true_iff Hown].
  rewrite existsb_none in Hfresh. apply with_challenges_good. intros [_ _ [Hh Hc Ho]]. constructor.
  - apply NoDup_snoc_key; [done|]. intros d Hd E. specialize (Hfresh d Hd).
    by rewrite bool_decide_eq_false in Hfresh.
  - intros d [Hd|[<-|[]]]%in_app_or; [by apply Hc|done].
  - intros d id [Hd|[<-|[]]]%in_app_or E; [by apply (Ho d)|]. rewrite E in Hown.
    apply existsb_exists in Hown as (p & Hp & Hid). exists p. split; [done|lia].
Qed.

Lemma delete_challenges_good hit db db' r : delete_challenges hit db = Some (db', r) -> good_step db db'.
Proof.
  intros [= <- _]. apply with_challenges_good. intros [_ _ [Hh Hc Ho]].
  assert (forall c, In c (List.filter (fun c => negb (hit c)) (challenges db)) -> In c (challenges db)) as Hin
    by (by intros c [? _]%List.filter_In).
  constructor; [by apply NoDup_filter_key|by auto|]. intros c id Hc'. apply Ho. by apply Hin.
Qed.
End invariant.

(** ** Programs that preserve it *)

Section programs.
Context (lower : str -> str).
Notation good := (good_step lower).

(** From any tables the program reaches, [m] leads on by a good step; within a transaction
    that began with [d]. *)
Definition preserves {A} (m : IO AccountTables A) : Prop :=
  forall d db, good d db -> wp false None m (fun _ db' => good d db') db.
Definition preserves_tx {A} (m : IO AccountTables A) : Prop :=
  forall d db, good d db -> wp_live false d m (fun _ db' => good d db') db.
(** Within a spoilt one. *)
Definition preserves_dead {A} (m : IO AccountTables A) : Prop :=
  forall d, wp_dead false d m (fun _ db' => good d db').

Definition good_statement {R} (statement : Z -> AccountTables -> option (AccountTables * R)) : Prop :=
  forall now db db' r, statement now db = Some (db', r) -> good db db'.
Definition good_checked {R} (statement : Z -> AccountTables -> string + (AccountTables * R)) : Prop :=
  forall now db db' r, statement now db = inr (db', r) -> good db db'.

Lemma preserves_ret {A} (a : A) : preserves (mret a).
Proof. intros d db H. by apply wp_ret. Qed.

Lemma preserves_bind {A B} (m : IO AccountTables A) (k : A -> IO AccountTables B) :
  preserves m -> (forall a, preserves (k a)) -> preserves (m ≫= k).
Proof.
  intros Hm Hk d db H. apply wp_bind. eapply wp_mono; [by apply Hm|]. intros a db' H'. by apply Hk.
Qed.

Lemma preserves_exec {R} (statement : Z -> AccountTables -> option (AccountTables * R)) :
  good_statement statement -> preserves (exec statement).
Proof.
  intros Hs d db H. apply wp_exec; [done|done|]. intros now db' r E.
  assert (good d db') by (etrans; [done|by eapply Hs]). done.
Qed.

Lemma preserves_exec_checked {R} (statement : Z -> AccountTables -> string + (AccountTables * R)) :
  good_checked statement -> preserves (exec_checked statement).
Proof.
  intros Hs d db H. apply wp_exec_checked; [done|done|]. intros now db' r E.
  assert (good d db') by (etrans; [done|by eapply Hs]). done.
Qed.

Lemma preserves_begin {A} (k : string + unit -> IO AccountTables A) :
  (forall e, preserves (k (inl e))) -> preserves_tx (k (inr tt)) -> preserves (begin_transaction ≫= k).
Proof.
  intros Hfail Hk d db H. apply live_begin; [by intros _ e; apply Hfail|].
  intros env w E Ho Ha Hc. specialize (Hk db db (reflexivity _) env w E Ho Ha Hc).
  destruct (k (inr tt) env w) as [a w']. destruct Hk as (Hk & ?). split; [by etrans|done].
Qed.

Lemma dead_abandon {A} (k : unit -> IO AccountTables A) :
  preserves (k tt) -> preserves_dead (rollback_transaction ≫= k).
Proof. intros Hk d. apply dead_rollback. by apply Hk. Qed.

Lemma tx_abandon {A} (k : unit -> IO AccountTables A) :
  preserves (k tt) -> preserves_tx (rollback_transaction ≫= k).
Proof. intros Hk d db H. apply live_rollback. by apply Hk. Qed.

Lemma tx_commit {A} (k : bool -> IO AccountTables A) :
  (forall b, preserves (k b)) -> preserves_tx (commit_transaction ≫= k).
Proof. intros Hk d db H. apply live_commit; [by apply Hk|]. intros _. by split; apply Hk. Qed.

Lemma tx_exec {R A} (statement : Z -> AccountTables -> option (AccountTables * R)) (k : string + R -> IO AccountTables A) :
  good_statement statement -> (forall e, preserves_dead (k (inl e))) -> (forall r, preserves_tx (k (inr r))) ->
  preserves_tx (exec statement ≫= k).
Proof.
  intros Hs Hfail Hk d db H. apply live_exec; [by intros _ e; apply Hfail|by intros now _ e; apply Hfail|].
  intros now db' r E. apply Hk. etrans; [done|by eapply Hs].
Qed.

Lemma tx_exec_checked {R A} (statement : Z -> AccountTables -> string + (AccountTables * R))
    (k : string + R -> IO AccountTables A) :
  good_checked statement -> (forall e, preserves_dead (k (inl e))) -> (forall r, preserves_tx (k (inr r))) ->
  preserves_tx (exec_checked statement ≫= k).
Proof.
  intros Hs Hfail Hk d db H. apply live_exec_checked; [by intros _ e; apply Hfail|by intros now e _; apply Hfail|].
  intros now db' r E. apply Hk. etrans; [done|by eapply Hs].
Qed.

Lemma select_good {R} (query : AccountTables -> R) : good_statement (select query).
Proof. by intros now db db' r [= <- _]. Qed.
End programs.
