(* ===== verification/SessionSpec.v ===== *)
(** * What an exchange of a refresh token does

    [refreshes] is the contract of [refresh_session], a relation between the tables before,
    the answer and the tables after; [refresh_contract] proves it of the code, and says what
    is left of it when statements fail. *)
From stdpp Require Import strings.
From S2P Require Import Prelude Types Fen Notation Base64 Storage StorageSpec AccountStore AccountSpec Credentials Token Sessions.
Open Scope Z_scope.

(** The rows of a family, those of the others, and the tokens of the family that can still be
    exchanged. *)
Definition family_rows (family : str) (ss : list SessionRow) : list SessionRow := List.filter (of_family family) ss.
Definition other_rows (family : str) (ss : list SessionRow) : list SessionRow :=
  List.filter (fun s => negb (of_family family s)) ss.
Definition live_rows (family : str) (ss : list SessionRow) : list SessionRow :=
  List.filter (fun s => of_family family s && negb (se_rotated s)) ss.

(** [new] is [old] with the family continued by [successor]: its one live token, after the
    tokens the family had, which are kept as rotated. *)
Record continued (family : str) (successor : SessionRow) (old new : list SessionRow) : Prop := {
  ct_others : other_rows family new = other_rows family old;
  ct_live : live_rows family new = [successor];
  ct_hashes : map se_hash (family_rows family new) = map se_hash (family_rows family old) ++ [se_hash successor]
}.

Lemma filter_update_same {R} (f c : R -> bool) (g : R -> R) l :
  (forall r, f (g r) = f r) -> List.filter f (update c g l) = update c g (List.filter f l).
Proof.
  intros H. induction l as [|r l IH]; [done|]. cbn. fold (update c g l).
  replace (f (if c r then g r else r)) with (f r) by (by destruct (c r)).
  destruct (f r); cbn; by rewrite IH.
Qed.

Section contract.
Context (lower : str -> str) `{J : ClaimsJson} (key : list Z).
Context (Hkey : length key = 32%nat).

Section relation.
Context (token : str) (now : Z) (random : list Z) (db : AccountTables).

(** [s] is the row of the presented token. *)
Definition presented (s : SessionRow) : Prop := In s (logins db) /\ se_hash s = refresh_token_hash token.

(** The token was exchanged at most ten seconds ago. *)
Definition within_grace (s : SessionRow) : Prop :=
  exists t, se_rotated_at s = Some t /\ 0 < t <= now /\ now <= t + 10.

Definition successor_of (s : SessionRow) : SessionRow :=
  mkSessionRow (refresh_token_hash (mint_refresh_token random)) (se_player s) (se_family s) false None
    (now + REFRESH_TOKEN_TTL_SECONDS).

Inductive refreshes : Refreshed -> AccountTables -> Prop :=
  | Unknown : token = [] \/ (forall s, ~ presented s) -> refreshes refused db
  | Reused s : presented s -> se_rotated s = true -> ~ within_grace s ->
      refreshes refused (with_logins (other_rows (se_family s) (logins db)) db)
  | Expired s : presented s -> se_rotated s = false -> se_expires s <= now ->
      refreshes refused (with_logins (List.filter (fun t => negb (of_hash (se_hash s) t)) (logins db)) db)
  | ExpiredRetry s : presented s -> se_rotated s = true -> within_grace s -> se_expires s <= now ->
      refreshes refused
        (with_logins (List.filter (fun t => negb (of_hash (se_hash s) t))
           (supersede_rows (se_family s) now (logins db))) db)
  | Exchanged s p ss : presented s -> (se_rotated s = true -> within_grace s) -> now < se_expires s ->
      In p (people db) -> pl_id p = se_player s -> continued (se_family s) (successor_of s) (logins db) ss ->
      refreshes (RefreshOk, succeed (build_pair key (se_player s) (pl_username p) (pl_epoch p) now random))
        (with_logins ss db).
End relation.

Lemma transport_retry_spec now s : transport_retry now s = true <-> within_grace now s.
Proof.
  unfold transport_retry, rotated_at_or_0, within_grace, REFRESH_REUSE_GRACE_SECONDS.
  rewrite !andb_true_iff, Z.ltb_lt, !Z.leb_le. destruct (se_rotated_at s) as [t|]; cbn.
  - split; [intros; exists t; split; [done|lia]|]. intros (t' & [= <-] & H). lia.
  - split; [lia|]. by intros (t & [=] & _).
Qed.

(** The contract with, on the way, the invariant. *)
Definition contract token now random db (a : Refreshed) (db' : AccountTables) : Prop :=
  good_step lower db db' /\ refreshes token now random db a db'.

(** ** The rows *)

Section rows.
Context (token : str) (now : Z) (random : list Z) (db : AccountTables) (s : SessionRow).
Context (Hok : accounts_ok lower db) (Hs : presented token db s).

Lemma hash_row t : In t (logins db) -> se_hash t = se_hash s -> t = s.
Proof. intros Ht E. apply (NoDup_key se_hash (logins db)); [apply Hok|done|apply Hs|done]. Qed.

(** The table a rotated row is exchanged on. *)
Definition before_mark : list SessionRow :=
  if se_rotated s then supersede_rows (se_family s) now (logins db) else logins db.

Lemma before_mark_good : good_step lower db (with_logins before_mark db).
Proof.
  unfold before_mark. destruct (se_rotated s); [apply (rotate_logins_good lower _ (fun _ => Some now))|].
  apply with_logins_good. by intros [_ ? _].
Qed.

(** Of the family only the presented token can still be live. *)
Lemma before_mark_row t :
  In t before_mark -> se_family t = se_family s -> se_rotated t = false -> se_hash t = se_hash s.
Proof.
  unfold before_mark. destruct (se_rotated s) eqn:E; intros Ht Hf Hr.
  - apply in_update in Ht as (t0 & Ht & ->). unfold of_family in *. exfalso.
    destruct (bool_decide_reflect (se_family t0 = se_family s)); cbn in *; destruct (se_rotated t0) eqn:E0; cbn in *; congruence.
  - f_equal. apply (lo_live _ _ (ok_logins _ _ Hok)); [done|apply Hs|done..].
Qed.

Lemma before_mark_hash t : In t before_mark -> se_hash t = se_hash s -> se_family t = se_family s.
Proof.
  unfold before_mark. destruct (se_rotated s); [|by intros Ht E; rewrite (hash_row t)].
  intros (t0 & Ht & ->)%in_update E. assert (t0 = s) as -> by (apply hash_row; [done|]; by destruct (_ && _)).
  by destruct (_ && _).
Qed.

Lemma before_mark_player t : In t before_mark -> se_family t = se_family s -> se_player t = se_player s.
Proof.
  pose proof (lo_family _ _ (ok_logins _ _ Hok)) as Hf. destruct Hs as [Hin _]. unfold before_mark.
  destruct (se_rotated s); [|by auto]. intros (t0 & Ht & ->)%in_update. destruct (_ && _); cbn; by auto.
Qed.

Lemma before_mark_others : other_rows (se_family s) before_mark = other_rows (se_family s) (logins db).
Proof.
  unfold before_mark. destruct (se_rotated s); [|done]. apply filter_update_other.
  intros r _ [E _]%andb_true_iff. unfold of_family in *. cbn. by rewrite E.
Qed.

Lemma before_mark_hashes :
  map se_hash (family_rows (se_family s) before_mark) = map se_hash (family_rows (se_family s) (logins db)).
Proof.
  unfold before_mark, family_rows, supersede_rows. destruct (se_rotated s); [|done].
  by rewrite filter_update_same, map_update.
Qed.

Lemma mark_continued :
  continued (se_family s) (successor_of now random s) (logins db)
    (mark_row (se_hash s) now before_mark ++ [successor_of now random s]).
Proof.
  assert (of_family (se_family s) (successor_of now random s) = true) as Hsf by by apply bool_decide_eq_true.
  constructor.
  - unfold other_rows. rewrite List.filter_app. cbn [List.filter]. rewrite Hsf. cbn. rewrite app_nil_r.
    unfold mark_row. rewrite filter_update_other; [apply before_mark_others|].
    intros r Hr E%bool_decide_eq_true. apply before_mark_hash in E; [|done]. unfold of_family. cbn.
    by rewrite E, bool_decide_eq_true_2.
  - unfold live_rows. rewrite List.filter_app. cbn [List.filter]. rewrite Hsf. cbn.
    rewrite filter_none; [done|]. intros r (r0 & Hr & ->)%in_update.
    destruct (of_hash (se_hash s) r0) eqn:E; cbn; [by rewrite andb_false_r|].
    apply not_true_iff_false. intros [Hf%bool_decide_eq_true Hl%negb_true_iff]%andb_true_iff.
    apply bool_decide_eq_false in E. apply E. by apply before_mark_row.
  - unfold family_rows. rewrite List.filter_app. cbn [List.filter]. rewrite Hsf, map_app. f_equal.
    unfold mark_row. rewrite filter_update_same, map_update; [apply before_mark_hashes|done|done].
Qed.

Lemma mark_good :
  good_step lower (with_logins before_mark db) (with_logins (mark_row (se_hash s) now before_mark) db).
Proof.
  apply (rotate_logins_good lower (of_hash (se_hash s)) (fun s => Some (default now (se_rotated_at s)))
    (with_logins before_mark db)).
Qed.

Lemma insert_successor_good now' db' r :
  now' = now ->
  insert_login (successor_of now' random s) (with_logins (mark_row (se_hash s) now before_mark) db) = Some (db', r) ->
  good_step lower (with_logins (mark_row (se_hash s) now before_mark) db) db'.
Proof.
  intros -> E. assert (good_step lower db (with_logins (mark_row (se_hash s) now before_mark) db)) as Hg
    by (etrans; [apply before_mark_good|apply mark_good]).
  eapply insert_login_good; [| |done].
  - intros t (t0 & Ht & ->)%in_update Ef.
    assert (se_family t0 = se_family s) by (by destruct (of_hash _ _)).
    transitivity (se_player t0); [by destruct (of_hash _ _)|by apply before_mark_player].
  - intros t (t0 & Ht & ->)%in_update Ef _. destruct (of_hash (se_hash s) t0) eqn:Eh; [done|].
    destruct (se_rotated t0) eqn:Er; [done|]. apply bool_decide_eq_false in Eh. exfalso. apply Eh.
    by apply before_mark_row.
Qed.
End rows.

(** ** The code *)

(** 32 random bytes whose token is new. *)
Definition fresh_token (random : list Z) (db : AccountTables) : Prop :=
  random <> [] /\ List.Forall byte_ok random /\
  forall s, In s (logins db) -> se_hash s <> refresh_token_hash (mint_refresh_token random).

Lemma mint_nonempty random : random <> [] -> List.Forall byte_ok random -> mint_refresh_token random <> [].
Proof.
  intros Hne Hb E. unfold mint_refresh_token in E.
  assert (decode_base64url (encode_base64url random) 0 = Some random) as Hd by (apply url_forward; [done|by left]).
  rewrite E in Hd. cbn in Hd. congruence.
Qed.

Lemma not_half_empty player name epoch now random :
  random <> [] -> List.Forall byte_ok random -> half_empty (build_pair key player name epoch now random) = false.
Proof.
  intros Hne Hb. unfold half_empty, build_pair. cbn. rewrite !bool_decide_eq_false_2; [done|by apply mint_nonempty|].
  unfold issue_access, valid_signer. rewrite Hkey. cbn [Nat.eqb negb]. by intros [_ ?]%app_eq_nil.
Qed.

Section steps.
Context (calm : bool) (token : str) (now : Z) (random : list Z) (db : AccountTables).
Context (Hok : accounts_ok lower db) (Hfresh : fresh_token random db).
Notation R := (contract token now random db).
Notation Q := (kept_or_failed calm R refresh_failed db).

Lemma revoke_kept hit db1 :
  good_step lower db db1 ->
  refreshes token now random db refused (with_logins (List.filter (fun s => negb (hit s)) (logins db1)) db1) ->
  wp_live calm db (revoke_and_refuse hit) Q db1.
Proof.
  intros Hg HR. apply live_exec; [by intros Hc e; apply abandon_failed|done|].
  intros now' db' r E. apply commit_kept. split; [|by injection E as <- _].
  etrans; [done|]. by eapply delete_logins_good.
Qed.

Section row.
Context (s : SessionRow) (Hs : presented token db s).
Context (Hretry : se_rotated s = true -> within_grace now s).
Notation marked := (with_logins (mark_row (se_hash s) now (before_mark now db s)) db).

Lemma expired_refreshes :
  se_expires s <= now ->
  refreshes token now random db refused (with_logins (List.filter (fun t => negb (of_hash (se_hash s) t)) (before_mark now db s)) db).
Proof.
  intros He. unfold before_mark. destruct (se_rotated s) eqn:E; [by apply ExpiredRetry; auto|by apply Expired].
Qed.

Lemma exchange_kept p :
  In p (people db) -> pl_id p = se_player s -> now < se_expires s ->
  wp_live calm db
    (ins ← exec (fun _ => insert_login (successor_of now random s));
     match ins with
     | inl _ => abandon refresh_failed
     | inr _ => (ok ← commit_transaction; mret (if (ok : bool) then
         (RefreshOk, succeed (build_pair key (se_player s) (pl_username p) (pl_epoch p) now random)) else refresh_failed))
     end) Q marked.
Proof.
  intros Hp Hid He. apply live_exec; [by intros Hc e; apply abandon_failed| |].
  - intros _ E. exfalso. unfold insert_login in E. destruct (_ && _) eqn:Ec; [done|].
    apply andb_false_iff in Ec as [Ec|Ec].
    + rewrite existsb_none in Ec. specialize (Ec p Hp). cbn in Ec. lia.
    + apply negb_false_iff, existsb_exists in Ec as (t & Ht & E'%bool_decide_eq_true). cbn in Ht.
      apply in_update in Ht as (t0 & Ht & ->). assert (exists t1, In t1 (logins db) /\ se_hash t1 = se_hash t0) as (t1 & Hin & Eh).
      { revert Ht. unfold before_mark. destruct (se_rotated s); [|by eauto].
        intros (t1 & Ht & ->)%in_update. exists t1. by destruct (_ && _). }
      destruct Hfresh as (_ & _ & Hf). apply (Hf t1 Hin). rewrite Eh. by destruct (of_hash _ _).
  - intros now' db' r E. apply commit_kept. split.
    + etrans; [by apply (before_mark_good now db s)|]. etrans; [apply mark_good|].
      by eapply (insert_successor_good token).
    + unfold insert_login in E. destruct (_ && _); [|done]. injection E as <- _.
      change (with_logins ?ss (with_logins _ db)) with (with_logins ss db).
      apply (Exchanged _ _ _ _ s); try done. by apply (mark_continued token).
Qed.

Lemma rotate_kept : wp_live calm db (rotate key s now random) Q (with_logins (before_mark now db s) db).
Proof.
  unfold rotate. destruct (Z.leb_spec (se_expires s) now) as [He|He].
  { apply revoke_kept; [apply before_mark_good|]. by apply expired_refreshes. }
  apply live_select; [by intros Hc e; apply abandon_failed|].
  destruct (lo_owner _ _ (ok_logins _ _ Hok) s) as (p0 & Hp0 & Hid0); [apply Hs|].
  destruct (find_player _ _) as [|p ps] eqn:Ef.
  { exfalso. assert (In p0 (find_player (se_player s) db)) as Hin by (apply List.filter_In; split; [done|lia]).
    change (find_player _ _) with (find_player (se_player s) db) in Ef. by rewrite Ef in Hin. }
  assert (In p (people db) /\ pl_id p = se_player s) as [Hp Hid].
  { assert (In p (find_player (se_player s) db)) as Hin
      by (change (find_player _ _) with (find_player (se_player s) db) in Ef; rewrite Ef; by left).
    apply List.filter_In in Hin as [? ?]. split; [done|lia]. }
  destruct Hfresh as (Hne & Hb & _). rewrite not_half_empty by done.
  apply live_exec; [by intros Hc e; apply abandon_failed|done|].
  intros now' db' r [= <- _]. by apply exchange_kept.
Qed.
End row.

Lemma refresh_contract :
  wp calm None (refresh_session key token now random) Q db.
Proof.
  unfold refresh_session. case_bool_decide as Ht.
  { apply kept_wp. split; [done|]. by apply Unknown; left. }
  apply live_begin. { intros Hc e. by apply failed_wp. }
  apply live_select; [by intros Hc e; apply abandon_failed|].
  destruct (List.filter _ _) as [|s rest] eqn:Ef.
  { assert (R refused db) as Hu.
    { split; [done|]. apply Unknown. right. intros s [Hin Eh].
      assert (In s (List.filter (of_hash (refresh_token_hash token)) (logins db))) as H
        by (apply List.filter_In; split; [done|by apply bool_decide_eq_true]).
      by rewrite Ef in H. }
    apply live_commit; [by apply kept_wp|]. by split; apply kept_wp. }
  assert (presented token db s) as Hs.
  { assert (In s (List.filter (of_hash (refresh_token_hash token)) (logins db))) as H by (rewrite Ef; by left).
    by apply List.filter_In in H as [? ?%bool_decide_eq_true]. }
  pose proof (rotate_kept s Hs) as Hrot. unfold before_mark in Hrot.
  destruct (se_rotated s) eqn:Er; cbn [negb].
  - destruct (transport_retry now s) eqn:Et; cbn [negb].
    + apply live_exec; [by intros Hc e; apply abandon_failed|done|]. intros now' db' r [= <- _]. apply Hrot.
      intros _. by apply transport_retry_spec.
    + apply revoke_kept; [done|]. apply Reused; [done|done|]. rewrite <- transport_retry_spec. congruence.
  - replace (with_logins (logins db) db) with db in Hrot by by destruct db. by apply Hrot.
Qed.
End steps.
End contract.
