(* ===== verification/AccountSteps.v ===== *)
(** * Every operation keeps the account tables in order

    [request] is the list of the operations on accounts and sessions; [perform] runs one.
    Whatever statements fail, each keeps [accounts_ok] and lets the tables only evolve. *)
From stdpp Require Import strings relations.
From S2P Require Import Prelude Types Fen Notation Base64 Storage StorageSpec AccountStore AccountSpec Credentials Token OAuth Sessions SessionSpec Accounts EmailRecovery.
Open Scope Z_scope.

Section operations.
Context (lower : str -> str) `{J : ClaimsJson} (key : list Z).
Context (argon2id : str -> list Z -> Argon2Params -> nat -> option (list Z)) (sha256 : list Z -> list Z).
Context (enabled : bool) (public_url : str).
Notation preserves := (preserves lower).
Notation preserves_tx := (preserves_tx lower).
Notation preserves_dead := (preserves_dead lower).

(** ** The statements *)

Lemma insert_player_statement name ci email verified password google :
  good_checked lower (fun _ => insert_player lower (new_player name ci email verified password google)).
Proof. intros now db db' r. by apply insert_player_good. Qed.

Lemma update_player_statement (id : Z) hit (set : Z -> PlayerRow -> PlayerRow) :
  (forall now p, hit p = true -> stays p (set now p)) ->
  good_checked lower (fun now => update_player lower id hit (set now)).
Proof. intros H now db db' r. apply update_player_good. intros p Hp. by apply H. Qed.

Lemma delete_logins_statement (hit : AccountTables -> SessionRow -> bool) :
  good_statement lower (fun _ db => delete_logins (hit db) db).
Proof. intros now db db' r. by apply delete_logins_good. Qed.

Lemma insert_challenge_statement c : good_statement lower (fun _ => insert_challenge c).
Proof. intros now db db' r. by apply insert_challenge_good. Qed.

Lemma delete_challenges_statement hit : good_statement lower (fun _ => delete_challenges hit).
Proof. intros now db db' r. by apply delete_challenges_good. Qed.
End operations.

Create HintDb accounts discriminated.
#[export] Hint Resolve insert_player_statement delete_challenges_statement insert_challenge_statement select_good : accounts.
#[export] Hint Extern 3 (good_statement _ (fun _ => delete_logins _)) => exact (delete_logins_statement _ (fun _ => _)) : accounts.
(** One construct of a program at a time; the conditions on the statements are left. *)
Ltac keep_step :=
  lazymatch goal with
  | |- preserves _ (mret _) => apply preserves_ret
  | |- preserves _ (begin_transaction ≫= _) => apply preserves_begin; [intros ?|]
  | |- preserves _ (_ ≫= _) => apply preserves_bind; [|intros ?]
  | |- preserves _ (exec _) => apply preserves_exec; auto with accounts
  | |- preserves _ (exec_checked _) => apply preserves_exec_checked; auto with accounts
  | |- preserves_dead _ (abandon _) => apply dead_abandon
  | |- preserves_tx _ (abandon _) => apply tx_abandon
  | |- preserves_tx _ (commit_transaction ≫= _) => apply tx_commit; intros ?
  | |- preserves_tx _ (exec _ ≫= _) => apply tx_exec; [auto with accounts|intros ?|intros ?]
  | |- preserves_tx _ (exec_checked _ ≫= _) => apply tx_exec_checked; [auto with accounts|intros ?|intros ?]
  | |- context [if ?b then _ else _] => destruct b
  | |- context [match ?x with _ => _ end] => destruct x
  end; cbn beta iota.

(** An UPDATE that keeps the names and the address, and does not lower the epoch. *)
Ltac stay := apply update_player_statement; intros; constructor; cbn; solve [done | lia | auto | congruence].

Section preservation.
Context (lower : str -> str) `{J : ClaimsJson} (key : list Z).
Context (argon2id : str -> list Z -> Argon2Params -> nat -> option (list Z)) (sha256 : list Z -> list Z).
Context (enabled : bool) (public_url : str).
Notation preserves := (preserves lower).

(** ** Sessions *)

Lemma logout_all_preserves player : preserves (logout_all lower player).
Proof. unfold logout_all. repeat keep_step. stay. Qed.

Lemma logout_preserves token : preserves (logout token).
Proof.
  unfold logout. keep_step; [keep_step|]. keep_step; [|keep_step]. apply preserves_exec, delete_logins_statement.
Qed.

(** ** Accounts *)

Lemma register_preserves name password salt : preserves (register_password_user lower argon2id name password salt).
Proof. unfold register_password_user. repeat keep_step. Qed.

Lemma touch_preserves id : preserves (touch_last_login lower id).
Proof. unfold touch_last_login. repeat keep_step. stay. Qed.

Lemma authenticate_preserves name password dummy salt :
  preserves (authenticate_password lower argon2id name password dummy salt).
Proof.
  unfold authenticate_password. repeat first [apply touch_preserves | keep_step]. all: stay.
Qed.

(** ** Google *)

Lemma taken_preserves name : preserves (taken name).
Proof. unfold taken. repeat keep_step. Qed.

Lemma find_free_preserves stem random : preserves (find_free_username stem random).
Proof.
  unfold find_free_username. keep_step; [keep_step|]. keep_step; [apply taken_preserves|]. keep_step; [|keep_step].
  induction (firstn 5 random) as [|rb rest IH]; cbn [try_suffixes]; repeat first [apply taken_preserves | apply IH | keep_step].
Qed.

Lemma sign_in_preserves identity random : preserves (google_sign_in lower identity random).
Proof.
  unfold google_sign_in, attach_identity, create_google_account, choose_username.
  repeat first [apply touch_preserves | apply find_free_preserves | keep_step]. stay.
Qed.

Lemma link_preserves identity player : preserves (link_google lower identity player).
Proof.
  unfold link_google. repeat keep_step. apply update_player_statement. intros _ q _.
  constructor; cbn; [done|done|done|lia|by intros [e ->]|].
  intros Hv. destruct (pl_email q); [|done]. by case_bool_decide.
Qed.

Lemma unlink_preserves player : preserves (unlink_google lower player).
Proof. unfold unlink_google. repeat keep_step. stay. Qed.

(** ** Addresses *)

Lemma issue_preserves purpose email player epoch name now random sent :
  preserves (issue lower sha256 enabled public_url purpose email player epoch name now random sent).
Proof. unfold issue, record_challenge. repeat keep_step. Qed.

Lemma register_user_preserves name email now random sent :
  preserves (register_user lower sha256 enabled public_url name email now random sent).
Proof. unfold register_user, with_address. repeat first [apply issue_preserves | keep_step]. Qed.

Lemma request_reset_preserves email now random sent :
  preserves (request_reset lower sha256 enabled public_url email now random sent).
Proof. unfold request_reset, with_address. repeat first [apply issue_preserves | keep_step]. Qed.

Lemma request_recovery_preserves player email password now random sent :
  preserves (request_recovery_email lower sha256 argon2id enabled public_url player email password now random sent).
Proof. unfold request_recovery_email, with_address. repeat first [apply issue_preserves | keep_step]. Qed.

Lemma confirm_preserves token now password salt :
  preserves (confirm_email lower sha256 argon2id token now password salt).
Proof.
  unfold confirm_email, confirm_in_transaction, confirm_locked, carry_out, settle_challenge.
  repeat keep_step; apply update_player_statement; intros _ q [_ E%bool_decide_eq_true]%andb_true_iff;
    constructor; cbn; try done; rewrite E; by intros [].
Qed.

Lemma reset_preserves token password now salt :
  preserves (reset_password lower sha256 argon2id token password now salt).
Proof. unfold reset_password, reset_in_transaction, replace_password. repeat keep_step. stay. Qed.
End preservation.

(** ** Histories *)

Section histories.
Context (lower : str -> str) `{J : ClaimsJson} (key : list Z) (Hkey : length key = 32%nat).
Context (argon2id : str -> list Z -> Argon2Params -> nat -> option (list Z)) (sha256 : list Z -> list Z).
Context (public_url dummy : str).

Inductive Request :=
  | IssueSession (player : Z) (name : str) (epoch now : Z) (random uuid : list Z)
  | RefreshSession (token : str) (now : Z) (random : list Z)
  | Logout (token : str)
  | LogoutAll (player : Z)
  | RegisterPassword (name password : str) (salt : list Z)
  | AuthenticatePassword (name password : str) (salt : list Z)
  | GoogleSignIn (identity : option SupabaseIdentity) (random : list (Z * Z))
  | LinkGoogle (identity : option SupabaseIdentity) (player : Z)
  | UnlinkGoogle (player : Z)
  | RegisterByEmail (name email : str) (now : Z) (random : list Z) (sent : bool)
  | RequestReset (email : str) (now : Z) (random : list Z) (sent : bool)
  | RequestRecoveryEmail (player : Z) (email password : str) (now : Z) (random : list Z) (sent : bool)
  | ConfirmEmail (token : str) (now : Z) (password : str) (salt : list Z)
  | ResetPassword (token password : str) (now : Z) (salt : list Z).

(** The answer is dropped. *)
Definition drop {A} (m : IO AccountTables A) : IO AccountTables unit := m ≫= fun _ => mret tt.

Definition perform (r : Request) : IO AccountTables unit :=
  match r with
  | IssueSession player name epoch now random uuid => drop (issue_session key player name epoch now random uuid)
  | RefreshSession token now random => drop (refresh_session key token now random)
  | Logout token => logout token
  | LogoutAll player => drop (logout_all lower player)
  | RegisterPassword name password salt => drop (register_password_user lower argon2id name password salt)
  | AuthenticatePassword name password salt => drop (authenticate_password lower argon2id name password dummy salt)
  | GoogleSignIn identity random => drop (google_sign_in lower identity random)
  | LinkGoogle identity player => drop (link_google lower identity player)
  | UnlinkGoogle player => drop (unlink_google lower player)
  | RegisterByEmail name email now random sent =>
      drop (register_user lower sha256 true public_url name email now random sent)
  | RequestReset email now random sent => drop (request_reset lower sha256 true public_url email now random sent)
  | RequestRecoveryEmail player email password now random sent =>
      drop (request_recovery_email lower sha256 argon2id true public_url player email password now random sent)
  | ConfirmEmail token now password salt => drop (confirm_email lower sha256 argon2id token now password salt)
  | ResetPassword token password now salt => drop (reset_password lower sha256 argon2id token password now salt)
  end.

(** What random bytes are trusted with: a new family and a new token. *)
Definition new_family (uuid : list Z) (db : AccountTables) : Prop :=
  forall s, In s (logins db) -> se_family s <> new_uuid_v4 uuid.
Definition lucky (r : Request) (db : AccountTables) : Prop :=
  match r with
  | IssueSession _ _ _ _ _ uuid => new_family uuid db
  | RefreshSession _ _ random => fresh_token random db
  | _ => True
  end.

(** One request, in any environment. *)
Definition step (db db' : AccountTables) : Prop :=
  exists r env w, lucky r db /\ tables w = db /\ saved w = None /\ tables (snd (perform r env w)) = db'.

Definition empty_accounts : AccountTables := mkAccounts [] [] [] 1.

Lemma issue_session_good player name epoch now random uuid db :
  new_family uuid db ->
  wp false None (issue_session key player name epoch now random uuid) (fun _ db' => good_step lower db db') db.
Proof.
  intros Hnew. unfold issue_session. destruct (half_empty _); [by apply wp_ret|].
  apply wp_bind, wp_exec; [by intros _ e; apply wp_ret|by split; [|intros e; apply wp_ret]|].
  intros now' db' r E. apply insert_login_good with (lower := lower) in E; [by split; [|intros _ e]; apply wp_ret| |].
  - intros s Hs Ef. by apply Hnew in Hs.
  - intros s Hs Ef. by apply Hnew in Hs.
Qed.

Lemma drop_good {A} (m : IO AccountTables A) db :
  wp false None m (fun _ db' => good_step lower db db') db ->
  wp false None (drop m) (fun _ db' => good_step lower db db') db.
Proof. intros H. apply wp_bind. eapply wp_mono; [done|]. intros a db' H'. by apply wp_ret. Qed.

Lemma drop_preserves {A} (m : IO AccountTables A) db :
  preserves lower m -> wp false None (drop m) (fun _ db' => good_step lower db db') db.
Proof. intros H. by apply drop_good, H. Qed.

Lemma perform_good r db :
  accounts_ok lower db -> lucky r db -> wp false None (perform r) (fun _ db' => good_step lower db db') db.
Proof.
  intros Hok Hl. destruct r; cbn [perform lucky] in *.
  - by apply drop_good, issue_session_good.
  - apply drop_good. eapply wp_mono; [by apply (refresh_contract lower)|].
    intros a db' [[H _]|(_ & _ & [->|(a' & H & _)])]; done.
  - by apply logout_preserves.
  - apply drop_preserves, logout_all_preserves.
  - apply drop_preserves, register_preserves.
  - apply drop_preserves, authenticate_preserves.
  - apply drop_preserves, sign_in_preserves.
  - apply drop_preserves, link_preserves.
  - apply drop_preserves, unlink_preserves.
  - apply drop_preserves, register_user_preserves.
  - apply drop_preserves, request_reset_preserves.
  - apply drop_preserves, request_recovery_preserves.
  - apply drop_preserves, confirm_preserves.
  - apply drop_preserves, reset_preserves.
Qed.

Lemma step_good db db' : accounts_ok lower db -> step db db' -> accounts_ok lower db' /\ evolves db db'.
Proof.
  intros Hok (r & env & w & Hl & <- & Ho & <-).
  pose proof (perform_good r (tables w) Hok Hl env w eq_refl Ho ltac:(done)) as H.
  destruct (perform r env w) as [a w']. destruct H as (H & _). by apply H.
Qed.

Lemma history_good db db' : rtc step db db' -> accounts_ok lower db -> accounts_ok lower db' /\ evolves db db'.
Proof.
  induction 1 as [|a b c Hab _ IH]; [by split|]. intros Ha. destruct (step_good a b Ha Hab) as [Hb E].
  destruct (IH Hb) as [Hc E']. split; [done|]. by etrans.
Qed.

Lemma empty_ok : accounts_ok lower empty_accounts.
Proof. repeat constructor; cbn; by intros. Qed.
End histories.
