(* ===== verification/AccountContracts.v ===== *)
(** * What the operations on accounts promise

    Contracts of the gate, of signing out, of the reset of a password and of the two ways to
    sign in. With [calm] no statement fails; without it any may. *)
From stdpp Require Import strings.
From S2P Require Import Prelude Types Fen Notation Base64 Storage StorageSpec AccountStore AccountSpec Credentials Token OAuth Sessions Accounts EmailRecovery.
Open Scope Z_scope.

Section contracts.
Context (lower : str -> str).
Notation ok := (accounts_ok lower).

(** ** Finding and updating a player *)

Lemma find_player_unique db p : ok db -> In p (people db) -> find_player (pl_id p) db = [p].
Proof.
  intros [[Hi _ _ _] _ _]. unfold find_player. induction (people db) as [|q ps IH]; [done|].
  cbn [map] in Hi. apply NoDup_cons_iff in Hi as [Hq Hi]. intros [->|Hp]; cbn [List.filter].
  - rewrite Z.eqb_refl. f_equal. apply filter_none. intros r Hr. apply Z.eqb_neq. intros E.
    apply Hq. rewrite <- E. by apply in_map.
  - rewrite (proj2 (Z.eqb_neq _ _)); [by apply IH|]. intros E. apply Hq. rewrite E. by apply in_map.
Qed.

Lemma find_player_none db id : (forall p, In p (people db) -> pl_id p <> id) -> find_player id db = [].
Proof. intros H. apply filter_none. intros p Hp. by apply Z.eqb_neq, H. Qed.

(** An UPDATE by identifier affects one row or none. *)
Lemma update_player_effect id hit set db db' n :
  ok db -> update_player lower id hit set db = inr (db', n) ->
  (n = 0%nat /\ db' = db /\ forall p, In p (people db) -> pl_id p = id -> hit p = false) \/
  (n = 1%nat /\ db' = with_people (update (fun q => pl_id q =? id) set (people db)) db /\
   exists p, In p (people db) /\ pl_id p = id /\ hit p = true).
Proof.
  intros Hok. unfold update_player. destruct (List.filter _ _) as [|p rest] eqn:Ef.
  - intros [= <- <-]. left. split; [done|]. split; [done|]. intros p Hp Hid. apply not_true_iff_false. intros Hh.
    assert (In p []) as []. rewrite <- Ef. apply List.filter_In. split; [done|]. by rewrite Hid, Z.eqb_refl.
  - destruct (player_violation _ _ _); [done|]. intros [= <- <-]. right. split; [done|]. split; [done|].
    assert (In p (p :: rest)) as Hin by by left. rewrite <- Ef in Hin.
    apply List.filter_In in Hin as [? [? ?]%andb_true_iff]. exists p. split; [done|]. split; [lia|done].
Qed.

(** The updated row, and that the others stay. *)
Lemma updated_row db id set p :
  ok db -> In p (people db) -> pl_id p = id -> In (set p) (update (fun q => pl_id q =? id) set (people db)).
Proof. intros _ Hp Hid. apply in_update. exists p. split; [done|]. by rewrite Hid, Z.eqb_refl. Qed.

Lemma updated_inv db id set p p' :
  ok db -> In p (people db) -> pl_id p = id -> (forall q, pl_id q = id -> pl_id (set q) = id) ->
  In p' (update (fun q => pl_id q =? id) set (people db)) -> pl_id p' = id -> p' = set p.
Proof.
  intros Hok Hp Hid Hset (q & Hq & ->)%in_update. destruct (Z.eqb_spec (pl_id q) id) as [E|E]; [|done].
  intros _. f_equal. apply (NoDup_key pl_id (people db)); [apply Hok|done|done|congruence].
Qed.

(** ** The gate *)

(** What the gate answers to a token that verifies. *)
Definition gate_answer (c : AccessClaims) (db : AccountTables) : GateOutcome * option AccessClaims :=
  match find_player (player_id c) db with
  | [] => (RejectedUnknownUser, None)
  | p :: _ => if pl_epoch p =? token_epoch c then (GateOk, Some c) else (RejectedRevoked, None)
  end.

Lemma gate_contract `{J : ClaimsJson} key jwt now calm db :
  ok db ->
  wp calm None (authorize_access_token key jwt now)
    (fun a db' => db' = db /\
      (a = match verify_access key jwt now with Some c => gate_answer c db | None => (RejectedBadToken, None) end \/
       calm = false /\ a = (RejectedUnknownUser, None))) db.
Proof.
  intros Hok. unfold authorize_access_token. destruct (verify_access key jwt now) as [c|]; [|apply wp_ret; by auto].
  unfold current_token_epoch, gate_answer. repeat wp_step.
  - split; [done|]. left. destruct (find_player _ _) as [|p ps] eqn:Ef; [done|].
    assert (In p (people db)) as Hp.
    { assert (In p (find_player (player_id c) db)) as H by (rewrite Ef; by left). by apply List.filter_In in H as [? _]. }
    pose proof (po_epoch _ _ (pp_rows _ _ _ (ok_people _ _ Hok) p Hp)).
    rewrite (proj2 (Z.ltb_ge _ _)) by lia. by destruct (pl_epoch p =? token_epoch c).
  - by auto.
Qed.

(** ** Revocation *)

(** From [db] to [db'] the player has been signed out everywhere. *)
Definition signed_out (player : Z) (db db' : AccountTables) : Prop :=
  (forall s, In s (logins db') -> se_player s <> player) /\
  forall p p', In p (people db) -> In p' (people db') -> pl_id p = player -> pl_id p' = player ->
    pl_epoch p' = pl_epoch p + 1.

Lemma no_logins player db s :
  In s (List.filter (fun s => negb (of_player player s)) (logins db)) -> se_player s <> player.
Proof. intros [_ H%negb_true_iff]%List.filter_In. by apply Z.eqb_neq. Qed.

Lemma logout_all_contract player calm db :
  ok db -> wp calm None (logout_all lower player) (fun b db' => b = true -> signed_out player db db') db.
Proof.
  intros Hok. unfold logout_all. wp_step. apply wp_exec; [by intros _ e; apply wp_ret|done|].
  intros now db1 r E. split; [|by intros _ e; apply wp_ret]. wp_step.
  pose proof (delete_logins_good _ _ _ _ _ E Hok) as [Hok1 _]. injection E as <- _.
  apply wp_exec_checked; [by intros _ e; apply wp_ret| |].
  { intros now' e _. split; [done|]. by apply wp_ret. }
  intros now' db2 n E. split; [|by intros _ e; apply wp_ret]. apply wp_ret. intros _.
  apply update_player_effect in E as [(_ & -> & Hnone)|(_ & -> & p & Hp & Hid & _)]; [| |done].
  - split; [by intros s ?%no_logins|]. intros p p' Hp _ Hid. by specialize (Hnone p Hp Hid).
  - split; [by intros s ?%no_logins|]. cbn in Hp. intros q p' Hq Hp' Hqid Hid'.
    rewrite (updated_inv db player (fun p => with_epoch (pl_epoch p + 1) p) q p'); try done.
Qed.

(** A token of an earlier epoch stays refused, whatever happens to the tables. *)
Lemma signed_out_final player db db1 db2 c p :
  signed_out player db db1 -> evolves db db1 -> ok db2 -> evolves db1 db2 ->
  In p (people db) -> pl_id p = player -> player_id c = player -> token_epoch c <= pl_epoch p ->
  gate_answer c db2 = (RejectedRevoked, None).
Proof.
  intros [_ Hout] Hev Hok2 Hev2 Hp Hid Hc Hle.
  destruct (Hev p Hp) as (p1 & Hp1 & S1). destruct (Hev2 p1 Hp1) as (p2 & Hp2 & S2).
  assert (pl_epoch p1 = pl_epoch p + 1) as E1 by (apply Hout; [done|done|done|]; by rewrite (st_id _ _ S1)).
  unfold gate_answer. replace (player_id c) with (pl_id p2) by (rewrite (st_id _ _ S2), (st_id _ _ S1); congruence).
  rewrite find_player_unique by done. pose proof (st_epoch _ _ S2). by rewrite (proj2 (Z.eqb_neq _ _)) by lia.
Qed.

(** ** The reset of a password *)

Lemma violation_free db p p' :
  ok db -> In p (people db) -> pl_id p' = pl_id p -> pl_username p' = pl_username p ->
  pl_username_ci p' = pl_username_ci p -> pl_email p' = pl_email p -> pl_google p' = pl_google p ->
  is_Some (pl_password p') -> pl_epoch p' < 2 ^ 31 ->
  player_violation lower (List.filter (fun q => negb (pl_id q =? pl_id p)) (people db)) p' = None.
Proof.
  intros [[_ _ Hd Hr] _ _] Hp Hi Hn Hc He Hg Hpw Hep. unfold player_violation.
  rewrite (proj2 (Z.ltb_ge _ _)) by lia. rewrite bool_decide_eq_true_2 by (rewrite Hn, Hc; apply (Hr p Hp)).
  rewrite (bool_decide_eq_true_2 (is_Some (pl_password p'))) by done. cbn [negb orb].
  rewrite (proj2 (existsb_none _ _)); [done|]. intros q [Hq Hne%negb_true_iff%Z.eqb_neq]%List.filter_In.
  rewrite <- (Hd p q); [|done|done|done]. unfold clashes. by rewrite Hn, Hc, He, Hg.
Qed.

Section reset.
Context (sha256 : list Z -> list Z) (argon2id : str -> list Z -> Argon2Params -> nat -> option (list Z)).
Context (hash : str) (now : Z) (phc : str).

(** The token of [c] resets the password of [p]. *)
Record authorizes (db : AccountTables) (p : PlayerRow) (c : Challenge) : Prop := {
  au_player : In p (people db);
  au_challenge : In c (challenges db);
  au_hash : ch_hash c = hash;
  au_purpose : ch_purpose c = Reset;
  au_live : now < ch_expires c;
  au_owner : ch_player c = Some (pl_id p);
  au_address : verified_owner lower (ch_email c) p = true;
  au_epoch : ch_epoch c = Some (pl_epoch p)
}.

(** The tables after it: a new password and epoch, no session and no challenge of the player. *)
Definition after_reset (id : Z) (db : AccountTables) : AccountTables :=
  mkAccounts (update (fun q => pl_id q =? id) (new_secret phc) (people db))
    (List.filter (fun s => negb (of_player id s)) (logins db))
    (List.filter (fun c => negb (of_owner id c)) (challenges db)) (next_person db).

Inductive resets (db : AccountTables) : Answer -> AccountTables -> Prop :=
  | ResetRefused : (forall p c, ~ authorizes db p c) -> resets db (answer InvalidToken) db
  | ResetExhausted p c : authorizes db p c -> pl_epoch p = 2 ^ 31 - 1 -> resets db (answer EmailDatabaseError) db
  | ResetDone p c : authorizes db p c -> resets db (EmailOk, pl_username p) (after_reset (pl_id p) db).

Lemma resettable_spec db p c :
  In (p, c) (resettable lower hash now db) <->
  In p (people db) /\ In c (challenges db) /\ ch_hash c = hash /\ ch_purpose c = Reset /\ now < ch_expires c /\
  ch_player c = Some (pl_id p) /\ verified_owner lower (ch_email c) p = true.
Proof.
  unfold resettable. rewrite List.filter_In, in_prod_iff. cbn [fst snd].
  rewrite !andb_true_iff. unfold has_hash, is_purpose, live_at. rewrite !bool_decide_eq_true, Z.ltb_lt. tauto.
Qed.

Lemma authorizes_spec db p c :
  authorizes db p c <-> In (p, c) (resettable lower hash now db) /\ ch_epoch c = Some (pl_epoch p).
Proof. rewrite resettable_spec. split; [intros []; tauto|]. intros [H E]. by constructor; try apply H. Qed.

Lemma resettable_unique db p c p' c' :
  ok db -> In (p, c) (resettable lower hash now db) -> In (p', c') (resettable lower hash now db) -> p' = p /\ c' = c.
Proof.
  intros Hok (Hp & Hc & Hh & _ & _ & Ho & _)%resettable_spec (Hp' & Hc' & Hh' & _ & _ & Ho' & _)%resettable_spec.
  assert (c' = c) as -> by (apply (NoDup_key ch_hash (challenges db)); [apply Hok|done|done|congruence]).
  split; [|done]. apply (NoDup_key pl_id (people db)); [apply Hok|done|done|congruence].
Qed.

Section run.
Context (calm : bool) (db : AccountTables) (Hok : ok db) (Hphc : phc <> []).
Notation Q := (kept_or_failed calm (resets db) (answer EmailDatabaseError) db).

(** Without the presented challenge, which is the player's own. *)
Lemma own_challenge p c :
  authorizes db p c ->
  List.filter (fun d => negb (of_owner (pl_id p) d)) (List.filter (fun d => negb (has_hash hash d)) (challenges db)) =
  List.filter (fun d => negb (of_owner (pl_id p) d)) (challenges db).
Proof.
  intros Ha. rewrite filter_filter. apply filter_ext_in. intros d Hd. unfold has_hash.
  case_bool_decide as E; [|by rewrite andb_true_r].
  replace d with c by (apply (NoDup_key ch_hash (challenges db));
    [apply Hok|apply Ha|done|by rewrite (au_hash _ _ _ Ha)]).
  unfold of_owner. by rewrite (bool_decide_eq_true_2 (ch_player c = _)) by apply Ha.
Qed.

Lemma replace_contract p c :
  authorizes db p c ->
  wp_live calm db (replace_password lower (pl_id p) (pl_username p) phc) Q
    (with_challenges (List.filter (fun d => negb (has_hash hash d)) (challenges db)) db).
Proof.
  intros Ha. set (db1 := with_challenges _ db).
  assert (ok db1) as Hok1 by (by apply (delete_challenges_good lower (has_hash hash) db db1 _ eq_refl Hok)).
  assert (In p (people db1)) as Hp by apply Ha.
  apply live_exec_checked; [by intros Hc e; apply abandon_failed| |].
  - intros _ e E. apply abandon_kept. apply (ResetExhausted _ p c Ha).
    unfold update_player in E. destruct (List.filter _ (people db1)) as [|q rest] eqn:Ef; [done|].
    assert (q = p) as ->.
    { assert (In q (q :: rest)) as Hq by by left. rewrite <- Ef in Hq. apply List.filter_In in Hq as [Hq [Hid _]%andb_true_iff].
      apply (NoDup_key pl_id (people db1)); [apply Hok1|done|done|lia]. }
    destruct (Z.eq_dec (pl_epoch p) (2 ^ 31 - 1)) as [|Hne]; [done|].
    pose proof (po_epoch _ _ (pp_rows _ _ _ (ok_people _ _ Hok) p Hp)).
    rewrite violation_free in E; try done. cbn. lia.
  - intros _ db2 n E. apply update_player_effect in E as [(_ & _ & Hno)|(_ & -> & _)]; [|
      |done]; [by specialize (Hno p Hp eq_refl)|].
    apply live_exec; [by intros Hc e; apply abandon_failed|done|]. intros _ db3 r [= <- _].
    apply live_exec; [by intros Hc e; apply abandon_failed|done|]. intros _ db4 r' [= <- _].
    apply commit_kept. replace (with_challenges _ _) with (after_reset (pl_id p) db); [by apply (ResetDone _ p c)|].
    unfold after_reset. by rewrite <- (own_challenge p c Ha).
Qed.

Lemma reset_contract : wp calm None (reset_in_transaction lower hash now phc) Q db.
Proof.
  apply live_begin; [by intros Hc e; apply failed_wp|].
  apply live_select; [by intros Hc e; apply abandon_failed|].
  destruct (resettable lower hash now db) as [|[p c] rest] eqn:Er.
  { apply live_abandon_kept, ResetRefused. intros p c [H _]%authorizes_spec. by rewrite Er in H. }
  assert (In (p, c) (resettable lower hash now db)) as Hin by (rewrite Er; by left).
  case_bool_decide as He; cbn [negb]; cycle 1.
  { apply live_abandon_kept, ResetRefused. intros p' c' [H E]%authorizes_spec.
    by destruct (resettable_unique db p c p' c' Hok Hin H) as [-> ->]. }
  assert (authorizes db p c) as Ha by by apply authorizes_spec.
  apply live_exec; [by intros Hc e; apply abandon_failed|done|]. intros _ db1 claimed [= <- <-].
  destruct (List.filter (has_hash hash) (challenges db)) as [|d ds] eqn:Ef; [|by apply (replace_contract p c)].
  exfalso. assert (In c (List.filter (has_hash hash) (challenges db))) as H
    by (apply List.filter_In; split; [apply Ha|apply bool_decide_eq_true, Ha]). by rewrite Ef in H.
Qed.
End run.

(** A done reset signs the player out everywhere. *)
Lemma reset_signs_out db p : ok db -> In p (people db) -> signed_out (pl_id p) db (after_reset (pl_id p) db).
Proof.
  intros Hok Hp. split; [intros s; apply no_logins|]. intros q q' Hq Hq' Hid Hid'.
  by rewrite (updated_inv db (pl_id p) (new_secret phc) q q').
Qed.

End reset.

(** Its token authorizes nothing any more, at whatever time. *)
Lemma reset_used_up hash now now' phc db p c p' c' :
  ok db -> authorizes hash now db p c -> ~ authorizes hash now' (after_reset phc (pl_id p) db) p' c'.
Proof.
  intros Hok Ha Ha'. pose proof (au_challenge _ _ _ _ _ Ha') as [Hc Hno]%List.filter_In.
  assert (c' = c) as -> by (apply (NoDup_key ch_hash (challenges db)); [apply Hok|done|apply Ha|];
    by rewrite (au_hash _ _ _ _ _ Ha'), (au_hash _ _ _ _ _ Ha)).
  unfold of_owner in Hno. by rewrite (bool_decide_eq_true_2 (ch_player c = _)) in Hno by apply Ha.
Qed.

(** ** The whole request *)

Section requests.
Context (sha256 : list Z -> list Z) (argon2id : str -> list Z -> Argon2Params -> nat -> option (list Z)).
Context (token password : str) (now : Z) (salt : list Z).
Notation hash := (email_token_hash sha256 token).
Notation phc := (hash_password argon2id password salt).

Inductive reset_answers (db : AccountTables) : Answer -> AccountTables -> Prop :=
  | MalformedToken : hash = [] -> reset_answers db (answer InvalidToken) db
  | TooWeak : hash <> [] -> valid_new_password password = false -> reset_answers db (answer WeakPassword) db
  | NoHash : hash <> [] -> valid_new_password password = true -> phc = [] -> reset_answers db (answer Unavailable) db
  | ByTables a db' : hash <> [] -> valid_new_password password = true -> phc <> [] -> resets hash now phc db a db' ->
      reset_answers db a db'.

Lemma kept_mono {A T} calm (R R' : A -> T -> Prop) failed db a db' :
  (forall a db', R a db' -> R' a db') ->
  kept_or_failed calm R failed db a db' -> kept_or_failed calm R' failed db a db'.
Proof. intros H [HR|(Hc & -> & [->|(a' & HR)])]; [by left; apply H|right..]; (split; [done|]; split; [done|]); eauto. Qed.

Lemma reset_password_contract calm db :
  ok db ->
  wp calm None (reset_password lower sha256 argon2id token password now salt)
    (kept_or_failed calm (reset_answers db) (answer EmailDatabaseError) db) db.
Proof.
  intros Hok. unfold reset_password. case_bool_decide as Hh; [by apply kept_wp, MalformedToken|].
  destruct (valid_new_password password) eqn:Hv; cbn [negb]; [|by apply kept_wp, TooWeak].
  case_bool_decide as Hp; [by apply kept_wp, NoHash|].
  eapply wp_mono; [by apply reset_contract|]. intros a db'. apply kept_mono. intros a' db1. by apply ByTables.
Qed.

(** [EmailOk] means that the reset was done. *)
Lemma reset_ok db a db' : reset_answers db a db' -> fst a = EmailOk ->
  exists p c, authorizes hash now db p c /\ a = (EmailOk, pl_username p) /\ db' = after_reset phc (pl_id p) db.
Proof. intros [| | |a' db1 _ _ _ [| |p c Ha]]; try done. by exists p, c. Qed.
End requests.
End contracts.
