(* ===== verification/LoginSpec.v ===== *)
(** * Who may sign in

    [login_of] is what a name and a password mean in the tables; the contracts of
    registration, of the password login and of Google sign-in are stated with it. The second
    part says what an accepted Google identity proves. *)
From stdpp Require Import strings.
From S2P Require Import Prelude Types Fen Notation Bytes Base64 Storage StorageSpec AccountStore AccountSpec Credentials Token OAuth Accounts AccountContracts.
Open Scope Z_scope.

Section passwords.
Context (lower : str -> str).
Context (argon2id : str -> list Z -> Argon2Params -> nat -> option (list Z)).
Context (argon_length : forall password salt p n hash,
  argon2id password salt p n = Some hash -> length hash = n /\ List.Forall byte_ok hash).
(** PostgreSQL's [lower] on ASCII names. *)
Context (lower_ascii : forall name, valid_username name = true -> lower name = to_lower_ascii name).
Notation ok := (accounts_ok lower).

(** The account these credentials open. *)
Definition login_of (db : AccountTables) (name password : str) : option PlayerRow :=
  if negb (valid_username name) || negb (password_length_ok password) then None else
  match find_username_ci (to_lower_ascii name) db with
  | p :: _ =>
      match pl_password p with
      | Some phc => if verify_password argon2id password phc then Some p else None
      | None => None
      end
  | [] => None
  end.

Definition login_result (p : PlayerRow) (upgraded : bool) : LoginResult :=
  mkLogin (pl_id p) (pl_username p) (pl_elo p) (pl_epoch p) upgraded.

Lemma touch_wp calm id db (Q : unit -> AccountTables -> Prop) :
  (forall db', Q tt db') -> wp calm None (touch_last_login lower id) Q db.
Proof.
  intros HQ. unfold touch_last_login. wp_step. apply wp_exec_checked.
  - intros _ e. by apply wp_ret.
  - intros now e _. split; [done|]. by apply wp_ret.
  - intros now db' n _. split; [by apply wp_ret|]. intros _ e. by apply wp_ret.
Qed.

Lemma authenticate_contract name password dummy salt calm db :
  wp calm None (authenticate_password lower argon2id name password dummy salt)
    (fun r _ => (exists p upgraded, login_of db name password = Some p /\ r = Some (login_result p upgraded)) \/
                r = None /\ (calm = true -> login_of db name password = None)) db.
Proof.
  unfold authenticate_password, login_of. destruct (valid_username name); cbn [negb orb]; [|apply wp_ret; auto].
  destruct (password_length_ok password); cbn [negb orb]; [|apply wp_ret; auto].
  wp_step. wp_step; cycle 1.
  { apply wp_ret. right. split; [done|congruence]. }
  destruct (find_username_ci _ db) as [|p ps]; [apply wp_ret; auto|].
  destruct (pl_password p) as [phc|]; [|apply wp_ret; auto]. cbn zeta iota.
  destruct (verify_password argon2id password phc); cbn [negb]; [|apply wp_ret; auto].
  wp_step. apply touch_wp. intros db'.
  destruct (bool_decide _); [apply wp_ret; left; by exists p, false|].
  wp_step. apply wp_exec_checked.
  - intros _ e. apply wp_ret. left. by exists p, true.
  - intros now e _. split; [done|]. apply wp_ret. left. by exists p, true.
  - intros now db2 n _. split; [|intros _ e]; apply wp_ret; left; by exists p, true.
Qed.

(** ** Registration *)

Definition name_in_use (name : str) (db : AccountTables) : bool :=
  existsb (fun p => bool_decide (pl_username_ci p = to_lower_ascii name)) (people db).

(** What registration answers when nothing fails. *)
Definition register_status (db : AccountTables) (name password : str) (phc : str) : RegisterStatus :=
  if negb (valid_username name) then RegisterInvalidUsername else
  if negb (password_length_ok password) then RegisterWeakPassword else
  if bool_decide (phc = []) then RegisterInternalError else
  if name_in_use name db then UsernameTaken else RegisterOk.

Definition registered (name phc : str) (db : AccountTables) : PlayerRow :=
  new_player name (to_lower_ascii name) None false (Some phc) None (next_person db).

Lemma insert_registered name phc db :
  ok db -> valid_username name = true ->
  insert_player lower (new_player name (to_lower_ascii name) None false (Some phc) None) db =
  if name_in_use name db then inl UNIQUE_VIOLATION
  else inr (mkAccounts (people db ++ [registered name phc db]) (logins db) (challenges db) (next_person db + 1),
            registered name phc db).
Proof using lower_ascii.
  intros Hok Hv. unfold insert_player. fold (registered name phc db). unfold player_violation.
  rewrite (proj2 (Z.ltb_ge _ _)) by done. rewrite bool_decide_eq_true_2 by by cbn; rewrite lower_ascii.
  rewrite (bool_decide_eq_true_2 (is_Some (pl_password _))) by done. cbn [negb orb].
  replace (existsb (clashes lower (registered name phc db)) (people db)) with (name_in_use name db); [by destruct (name_in_use name db)|].
  unfold name_in_use. apply eq_true_iff_eq. rewrite !existsb_exists.
  assert (forall p, In p (people db) -> clashes lower (registered name phc db) p = true <-> pl_username_ci p = to_lower_ascii name) as Hc.
  { intros p Hp. unfold clashes. cbn. rewrite !orb_false_r, orb_true_iff, !bool_decide_eq_true. split; [|by auto].
    intros [E|E]; [|done]. rewrite (po_name _ _ (pp_rows _ _ _ (ok_people _ _ Hok) p Hp)), <- E. by apply lower_ascii. }
  split; intros (p & Hp & H); exists p; (split; [done|]); [apply Hc; [done|]; by apply bool_decide_eq_true in H|].
  apply bool_decide_eq_true. by apply Hc.
Qed.

Lemma register_contract name password salt calm db :
  ok db ->
  let phc := hash_password argon2id password salt in
  wp calm None (register_password_user lower argon2id name password salt)
    (fun r db' =>
      (calm = true -> r_status r = register_status db name password phc) /\
      (r_status r = RegisterOk ->
         register_status db name password phc = RegisterOk /\
         people db' = people db ++ [registered name phc db] /\ r_player r = next_person db)) db.
Proof using lower_ascii.
  intros Hok phc. unfold register_password_user, register_status. fold phc.
  destruct (valid_username name) eqn:Hv; cbn [negb]; [|apply wp_ret; done].
  destruct (password_length_ok password); cbn [negb]; [|apply wp_ret; done].
  destruct (bool_decide (phc = [])); [apply wp_ret; done|]. wp_step. apply wp_exec_checked.
  - intros Hc e. apply wp_ret. split; [congruence|]. by destruct (is_unique_violation e).
  - intros _ e E. split; [done|]. rewrite insert_registered in E by done. destruct (name_in_use name db); [|done].
    injection E as <-. by apply wp_ret.
  - intros _ db' p E. rewrite insert_registered in E by done.
    split; [|intros Hc e; apply wp_ret; split; [congruence|by destruct (is_unique_violation e)]].
    destruct (name_in_use name db); [done|]. injection E as <- <-. by apply wp_ret.
Qed.

(** Whoever has just registered can sign in, with the name in any case and with the passwords
    that have the same Argon2id tag. *)
Lemma registered_login name phc password salt name' password' db db' :
  phc = hash_password argon2id password salt -> salt <> [] -> List.Forall byte_ok salt ->
  register_status db name password phc = RegisterOk ->
  people db' = people db ++ [registered name phc db] ->
  valid_username name' = true -> to_lower_ascii name' = to_lower_ascii name -> password_length_ok password' = true ->
  login_of db' name' password' =
  if bool_decide (argon2id password' salt (mkParams MEMCOST_KIB ITERATIONS PARALLELISM VERSION) HASH_SIZE =
                  argon2id password salt (mkParams MEMCOST_KIB ITERATIONS PARALLELISM VERSION) HASH_SIZE)
  then Some (registered name phc db) else None.
Proof using argon_length.
  intros Hphc Hs Hb Hst Hp Hv Hci Hl. unfold register_status in Hst. destruct (valid_username name); [|done].
  destruct (password_length_ok password); [|done]. cbn [negb] in Hst. case_bool_decide as Hne; [done|].
  destruct (name_in_use name db) eqn:Hu; [done|]. unfold login_of. rewrite Hv, Hl. cbn [negb orb].
  assert (find_username_ci (to_lower_ascii name') db' = [registered name phc db]) as ->.
  { unfold find_username_ci, name_in_use in *. rewrite Hp, List.filter_app, filter_none.
    - cbn. by rewrite bool_decide_eq_true_2.
    - intros p Hin. rewrite Hci. by apply (proj1 (existsb_none _ _) Hu). }
  cbn [registered new_player pl_password]. unfold hash_password in Hphc. subst phc.
  rewrite (verify_hash argon2id argon_length) by done. by destruct (bool_decide _).
Qed.
End passwords.

(** ** Google *)

Section google.
Context (lower : str -> str).
Notation ok := (accounts_ok lower).

(** The identity may open [p]: it is linked to it, or [p] has no identity and the same address,
    verified. *)
Definition may_open (id : SupabaseIdentity) (p : PlayerRow) : Prop :=
  pl_google p = Some (id_sub id) \/
  pl_google p = None /\ pl_verified p = true /\ option_map lower (pl_email p) = Some (lower (id_email id)).

(** What a sign-in that succeeded has done. *)
Definition opened (id : SupabaseIdentity) (db : AccountTables) (r : GoogleSignInResult) (db' : AccountTables) : Prop :=
  (exists p', In p' (people db') /\ pl_id p' = g_player r /\ pl_google p' = Some (id_sub id)) /\
  if g_created r then
    (forall p, In p (people db) -> pl_id p <> g_player r /\ pl_google p <> Some (id_sub id) /\
       option_map lower (pl_email p) <> Some (lower (id_email id)))
  else exists p, In p (people db) /\ pl_id p = g_player r /\ may_open id p.

Lemma update_google db id hit set db' n p sub :
  ok db -> (forall q, pl_google q = Some sub -> pl_google (set q) = Some sub) ->
  (forall q, pl_id (set q) = pl_id q) ->
  update_player lower id hit set db = inr (db', n) ->
  In p (people db) -> pl_google p = Some sub ->
  exists p', In p' (people db') /\ pl_id p' = pl_id p /\ pl_google p' = Some sub.
Proof.
  intros Hok Hset Hid E Hp Hg. apply update_player_effect in E as [(_ & -> & _)|(_ & -> & _)]; [by exists p| |done].
  exists (if pl_id p =? id then set p else p). cbn. rewrite in_update.
  split; [by exists p|]. destruct (pl_id p =? id); auto.
Qed.

Lemma touch_google calm db p sub :
  ok db -> In p (people db) -> pl_google p = Some sub ->
  wp calm None (touch_last_login lower (pl_id p))
    (fun _ db' => exists p', In p' (people db') /\ pl_id p' = pl_id p /\ pl_google p' = Some sub) db.
Proof.
  intros Hok Hp Hg. unfold touch_last_login. wp_step. apply wp_exec_checked.
  - intros _ e. apply wp_ret. by exists p.
  - intros now e _. split; [done|]. apply wp_ret. by exists p.
  - intros now db' n E. eapply update_google in E; [|done|..]; [|by intros q Hq|done|done|done].
    split; [|intros _ e]; by apply wp_ret.
Qed.

Lemma first_of_filter {A} (f : A -> bool) l x rest : List.filter f l = x :: rest -> In x l /\ f x = true.
Proof. intros E. apply List.filter_In. rewrite E. by left. Qed.

Lemma none_of_filter {A} (f : A -> bool) l : List.filter f l = [] -> forall x, In x l -> f x = false.
Proof.
  intros E x Hx. apply not_true_iff_false. intros Hf. assert (In x []) as []. rewrite <- E. by apply List.filter_In.
Qed.

(** The programs that only look up names. *)
Definition reads {A} (m : IO AccountTables A) : Prop :=
  forall calm db, wp calm None m (fun _ db' => db' = db) db.

Lemma reads_bind {A B} (m : IO AccountTables A) (k : A -> IO AccountTables B) : reads m -> (forall a, reads (k a)) -> reads (m ≫= k).
Proof. intros Hm Hk calm db. apply wp_bind. eapply wp_mono; [apply Hm|]. intros a db' ->. apply Hk. Qed.

Lemma reads_ret {A} (a : A) : reads (mret a).
Proof. intros calm db. by apply wp_ret. Qed.

Lemma taken_reads name : reads (taken name).
Proof. apply reads_bind; [by intros calm db; apply wp_select|]. intros a. apply reads_ret. Qed.

Lemma find_free_reads stem random : reads (find_free_username stem random).
Proof.
  unfold find_free_username. destruct (_ || _); [apply reads_ret|]. apply reads_bind; [apply taken_reads|].
  intros []; [|apply reads_ret]. induction (firstn 5 random) as [|rb rest IH]; cbn [try_suffixes]; [apply reads_ret|].
  destruct (negb _); [done|]. apply reads_bind; [apply taken_reads|]. intros []; [done|apply reads_ret].
Qed.

Lemma choose_reads id random : reads (choose_username id random).
Proof.
  unfold choose_username. apply reads_bind; [apply find_free_reads|]. intros a.
  destruct (bool_decide _); [apply find_free_reads|apply reads_ret].
Qed.

Lemma attach_contract id p calm db :
  ok db -> In p (people db) -> may_open id p ->
  wp calm None (attach_identity lower id p) (fun r db' => g_status r = GoogleOk -> opened id db r db') db.
Proof.
  intros Hok Hp Hm. unfold attach_identity. wp_step. apply wp_exec_checked.
  - intros _ e. by apply wp_ret.
  - intros now e _. split; [done|]. by apply wp_ret.
  - intros now db' n E. split; [|by intros _ e; apply wp_ret]. apply wp_ret.
    apply update_player_effect in E as [(-> & _)|(-> & -> & _)]; [done| |done]. intros _. split; [|by exists p].
    eexists. split; [apply (updated_row lower db (pl_id p) _ p Hok Hp eq_refl)|done].
Qed.

Lemma sign_in_contract id random calm db :
  ok db ->
  wp calm None (google_sign_in lower (Some id) random) (fun r db' => g_status r = GoogleOk -> opened id db r db') db.
Proof.
  intros Hok. unfold google_sign_in. wp_step. wp_step; [|by apply wp_ret].
  destruct (find_google (id_sub id) db) as [|p rest] eqn:Eg; cycle 1.
  { apply first_of_filter in Eg as [Hp Hg%bool_decide_eq_true]. wp_step. eapply wp_mono; [by apply touch_google|].
    intros a db' Hp'. apply wp_ret. intros _. split; [done|]. exists p. split; [done|]. split; [done|by left]. }
  wp_step. wp_step; [|by apply wp_ret].
  destruct (List.filter (has_email lower (id_email id)) (people db)) as [|p rest] eqn:Ee; cycle 1.
  { apply first_of_filter in Ee as [Hp He%bool_decide_eq_true].
    destruct (pl_verified p) eqn:Ev; cbn [negb orb]; [|by apply wp_ret].
    destruct (google_free _ p) eqn:Ef; [|by apply wp_ret]. apply attach_contract; [done|done|].
    apply orb_true_iff in Ef as [Ef%bool_decide_eq_true|Ef%bool_decide_eq_true]; [by right|by left]. }
  unfold create_google_account. wp_step. eapply wp_mono; [apply choose_reads|]. intros name db1 ->.
  destruct (bool_decide (name = [])); [by apply wp_ret|]. wp_step. apply wp_exec_checked.
  - intros _ e. apply wp_ret. by destruct (is_unique_violation e).
  - intros now e _. split; [done|]. apply wp_ret. by destruct (is_unique_violation e).
  - intros now db' p E. split; [|intros _ e; apply wp_ret; by destruct (is_unique_violation e)].
    apply wp_ret. intros _. unfold insert_player in E. destruct (player_violation _ _ _); [done|]. injection E as <- <-.
    split; cbn.
    + eexists. split; [apply in_or_app; right; by left|done].
    + intros q Hq. pose proof (pp_next _ _ _ (ok_people _ _ Hok) q Hq). split; [cbn; lia|].
      pose proof (none_of_filter _ _ Eg q Hq) as H1%bool_decide_eq_false.
      pose proof (none_of_filter _ _ Ee q Hq) as H2%bool_decide_eq_false. done.
Qed.

(** An address nobody has verified opens nothing. *)
Lemma unverified_refused id random db p :
  ok db -> In p (people db) -> option_map lower (pl_email p) = Some (lower (id_email id)) ->
  pl_verified p = false -> (forall q, In q (people db) -> pl_google q <> Some (id_sub id)) ->
  wp true None (google_sign_in lower (Some id) random)
    (fun r db' => r = google_failed EmailCollision /\ db' = db) db.
Proof.
  intros Hok Hp He Hv Hno. unfold google_sign_in. wp_step. wp_step; [|done].
  destruct (find_google (id_sub id) db) as [|q rest] eqn:Eg; cycle 1.
  { apply first_of_filter in Eg as [Hq Hg%bool_decide_eq_true]. by destruct (Hno q Hq). }
  wp_step. wp_step; [|done].
  destruct (List.filter (has_email lower (id_email id)) (people db)) as [|q rest] eqn:Ee.
  { pose proof (none_of_filter _ _ Ee p Hp) as H%bool_decide_eq_false. done. }
  apply first_of_filter in Ee as [Hq Hqe%bool_decide_eq_true].
  assert (q = p) as ->.
  { destruct (Z.eq_dec (pl_id q) (pl_id p)) as [E|E].
    - apply (NoDup_key pl_id (people db)); [apply Hok|done..].
    - pose proof (pp_distinct _ _ _ (ok_people _ _ Hok) q p Hq Hp E) as Hc. unfold clashes in Hc.
      rewrite !orb_false_iff in Hc. destruct Hc as [_ Hc]. rewrite Hqe, He in Hc. cbn in Hc.
      by rewrite bool_decide_eq_true_2 in Hc. }
  rewrite Hv. cbn [negb orb]. by apply wp_ret.
Qed.
End google.

(** ** What an accepted identity proves

    Inversions of [verify_es256] and [verify_identity]: whatever they accept carries a valid
    signature, by the configured algorithm, over claims that pass every check. *)
From S2P Require Import Prelude Types Fen Notation Bytes Base64 Sha2 Sha2Spec Hmac Credentials Token OAuth.
Open Scope Z_scope.

Section identities.
Context {Key : Type} (import_point : list Z -> option Key) (ecdsa_verify : Key -> str -> list Z -> bool).
Context `{J : ClaimsJson}.

(** ** The key set *)

(** [st'] is what a fetch leaves: the keys of the document just read, for five minutes. *)
Definition just_fetched (later : Z) (fetched : option str) (st st' : Es256JwksVerifier Key) : Prop :=
  exists body, fetched = Some body /\ read_document import_point body = Some (keys st') /\
    expires st' = later + KEY_LIFETIME /\ url st' = url st.

(** At most one request per [COOLDOWN]; only a request changes anything. *)
Lemma refresh_locked_spec now later fetched st ok st' :
  refresh_locked import_point now later fetched st = (ok, st') ->
  (ok = true -> just_fetched later fetched st st') /\
  (ok = false -> keys st' = keys st /\ expires st' = expires st) /\
  (st' <> st -> attempted st' = now /\ attempted_once st' = true /\
     (attempted_once st = true -> attempted st + COOLDOWN <= now)).
Proof.
  unfold refresh_locked. destruct (_ || _) eqn:E; [by intros [= <- <-]|].
  apply orb_false_iff in E as [_ E]. set (st1 := mkJwks _ _ _ now true).
  assert (attempted_once st = true -> attempted st + COOLDOWN <= now) as Hc.
  { intros H. rewrite H in E. cbn in E. lia. }
  destruct (bind fetched (read_document import_point)) as [ks|] eqn:Er; intros [= <- <-].
  - split; [|done]. intros _. destruct fetched as [body|]; [|done]. by exists body.
  - split; [done|]. by split.
Qed.

(** The key a signature is checked with has not expired, or has just been fetched. *)
Lemma find_key_spec kid now later fetched st k st' :
  find_key import_point kid now later fetched st = (Some k, st') ->
  key_of kid (keys st') = Some k /\ (st' = st /\ now < expires st \/ just_fetched later fetched st st').
Proof.
  unfold find_key. destruct (Z.leb_spec (expires st) now) as [He|He].
  - destruct (refresh_locked _ _ _ _ _) as [ok st1] eqn:E. apply refresh_locked_spec in E as (Hok & _ & _).
    destruct ok; [|done]. intros [= Hk <-]. auto.
  - destruct (key_of kid (keys st)) as [k0|] eqn:Ek.
    + intros [= Hk <-]. auto.
    + destruct (refresh_locked _ _ _ _ _) as [ok st1] eqn:E. cbn [snd].
      apply refresh_locked_spec in E as (Hok & Hfail & _). intros [= Hk <-]. split; [done|].
      destruct ok; [auto|]. destruct (Hfail eq_refl) as [E _]. rewrite E in Hk. congruence.
Qed.

(** A signature of the P-256 key that the header names. *)
Record es256_signed (header input signature : str) (k : Key) (st' : Es256JwksVerifier Key) : Prop := {
  es_kid : exists kid, header_kid header = Some kid /\ key_of kid (keys st') = Some k;
  es_signature : exists raw, decode_base64url signature 64 = Some raw /\ ecdsa_verify k input raw = true
}.

Lemma verify_es256_spec header input signature now later fetched st st' :
  verify_es256 import_point ecdsa_verify header input signature now later fetched st = (true, st') ->
  exists k, es256_signed header input signature k st' /\
    (st' = st /\ now < expires st \/ just_fetched later fetched st st').
Proof.
  unfold verify_es256. destruct (header_kid header) as [kid|] eqn:Ek; [|done].
  destruct (decode_base64url signature 64) as [raw|] eqn:Es; [|done].
  destruct (find_key _ _ _ _ _ _) as [[k|] st1] eqn:Ef; [|done].
  apply find_key_spec in Ef as [Hk Hf]. intros [= Hv <-]. exists k. split; [|done]. constructor; eauto.
Qed.

(** ** The identity *)

(** The claims under which an identity is accepted. *)
Record identity_claims (v : SupabaseVerifier (Key := Key)) (f : str -> option JsonValue) (now_unix : Z) (id : SupabaseIdentity) : Prop := {
  ic_issuer : get_str f (lit "iss") = Some (issuer v);
  ic_audience : get_str f (lit "aud") = Some (audience v);
  ic_sub : get_str f (lit "sub") = Some (id_sub id) /\ id_sub id <> [];
  ic_email : get_str f (lit "email") = Some (id_email id);
  ic_verified : f (lit "email_verified") = Some (JBool true) \/
                nested f (lit "user_metadata") (lit "email_verified") = Some (JBool true);
  ic_provider : id_provider id = provider v;
  ic_expiry : exists exp, get_i64_strict f (lit "exp") = Some exp /\ now_unix < exp;
  ic_issued : forall w, f (lit "iat") = Some w -> exists iat, get_i64_strict f (lit "iat") = Some iat /\ 0 <= iat /\ iat - now_unix <= 60;
  ic_not_before : forall w, f (lit "nbf") = Some w -> exists nbf, get_i64_strict f (lit "nbf") = Some nbf /\ nbf <= now_unix
}.

Lemma time_claims_spec f now_unix :
  time_claims_ok f now_unix = true ->
  (exists exp, get_i64_strict f (lit "exp") = Some exp /\ now_unix < exp) /\
  (forall w, f (lit "iat") = Some w -> exists iat, get_i64_strict f (lit "iat") = Some iat /\ 0 <= iat /\ iat - now_unix <= 60) /\
  (forall w, f (lit "nbf") = Some w -> exists nbf, get_i64_strict f (lit "nbf") = Some nbf /\ nbf <= now_unix).
Proof.
  unfold time_claims_ok, contains. rewrite !andb_true_iff. intros [[He Hi] Hn]. split; [|split].
  - destruct (get_i64_strict f (lit "exp")) as [exp|]; [|done]. exists exp. split; [done|lia].
  - intros w Hw. rewrite Hw in Hi. rewrite bool_decide_eq_true_2 in Hi by done.
    destruct (get_i64_strict f (lit "iat")) as [iat|]; [|done]. exists iat. split; [done|]. lia.
  - intros w Hw. rewrite Hw in Hn. rewrite bool_decide_eq_true_2 in Hn by done.
    destruct (get_i64_strict f (lit "nbf")) as [nbf|]; [|done]. exists nbf. split; [done|]. lia.
Qed.

Lemma is_true_spec w : is_true w = true -> w = Some (JBool true).
Proof. by destruct w as [[]|]; cbn; [| |intros ->| | | |]. Qed.

Lemma read_identity_spec v f now_unix id :
  provider v <> [] -> read_identity v f now_unix = Some id -> identity_claims v f now_unix id.
Proof.
  intros Hp. unfold read_identity. case_bool_decide as Hi; [|done]. case_bool_decide as Ha; [|done]. cbn [negb].
  destruct (get_str f (lit "sub")) as [sub|] eqn:Es; [|done].
  destruct sub as [|c sub]; [done|]. destruct (time_claims_ok f now_unix) eqn:Et; [|done]. cbn [negb].
  apply time_claims_spec in Et as (He & Hiat & Hn).
  destruct (get_str f (lit "email")) as [email|] eqn:Em; [|done].
  destruct (_ || _) eqn:Ev; [|done]. cbn [negb]. case_bool_decide as Hpr; [|done]. cbn [negb]. intros [= <-].
  constructor; cbn; try done. apply orb_true_iff in Ev as [Ev|Ev]; apply is_true_spec in Ev; auto.
Qed.

Lemma sign_hs256_spec key h p :
  Z.of_nat (length key) < 2 ^ 60 -> Z.of_nat (length (h ++ [DOT] ++ p)) < 2 ^ 60 ->
  sign_hs256 key h p = rfc2104 (HashT := Sha256T) key (bytes_of (h ++ [DOT] ++ p)).
Proof.
  intros Hk Hl. unfold sign_hs256.
  pose proof (hmac_spec (HashT := Sha256T) key [bytes_of h; [byte_of DOT]; bytes_of p]) as H.
  cbn [fold_left concat] in H. rewrite app_nil_r in H.
  assert (bytes_of (h ++ [DOT] ++ p) = bytes_of h ++ [byte_of DOT] ++ bytes_of p) as E by (unfold bytes_of; by rewrite !map_app).
  rewrite E, <- H; [done|]. rewrite <- E. split; [done|]. unfold bytes_of. by rewrite length_map.
Qed.

(** The signature of the one configured algorithm. *)
Definition signature_ok (v v' : SupabaseVerifier (Key := Key)) (mono later : Z) (fetched : option str)
    (header header_b64 payload_b64 sig_b64 : str) : Prop :=
  match jwks v, jwks v' with
  | None, _ =>
      header = HS256_HEADER_JSON /\
      sig_b64 = encode_base64url (rfc2104 (HashT := Sha256T) (secret v) (bytes_of (header_b64 ++ [DOT] ++ payload_b64)))
  | Some j, Some j' =>
      exists k, es256_signed header (header_b64 ++ [DOT] ++ payload_b64) sig_b64 k j' /\
        (j' = j /\ mono < expires j \/ just_fetched later fetched j j')
  | Some _, None => False
  end.

Lemma check_signature_spec v v' header header_b64 payload_b64 sig_b64 mono later fetched :
  Z.of_nat (length (secret v)) < 2 ^ 60 -> Z.of_nat (length (header_b64 ++ [DOT] ++ payload_b64)) < 2 ^ 60 ->
  check_signature import_point ecdsa_verify v header header_b64 payload_b64 sig_b64 mono later fetched = (true, v') ->
  signature_ok v v' mono later fetched header header_b64 payload_b64 sig_b64 /\
  (issuer v', audience v', provider v') = (issuer v, audience v, provider v).
Proof.
  intros Hs Hl. unfold check_signature, signature_ok. destruct (jwks v) as [j|].
  - destruct (verify_es256 _ _ _ _ _ _ _ _ j) as [ok j'] eqn:E. intros [= -> <-]. cbn. split; [|done].
    by apply verify_es256_spec in E.
  - intros [= H <-]. split; [|done]. apply andb_true_iff in H as [Hh%bool_decide_eq_true H]. split; [done|].
    destruct (decode_base64url _ _) as [sig|] eqn:Ed; [|done]. apply url_backward in Ed as (-> & Hb & Hn).
    rewrite sign_hs256_spec in H by done. f_equal. rewrite constant_time_length in H.
    + by apply bool_decide_eq_true in H.
    + rewrite rfc2104_length. destruct Hn as [Hn|Hn]; [done|]. by apply Nat2Z.inj.
Qed.

(** Everything that is accepted. *)
Lemma verify_identity_spec v jwt now_unix mono later fetched id v' :
  provider v <> [] -> Z.of_nat (length (secret v)) < 2 ^ 60 ->
  verify_identity import_point ecdsa_verify v jwt now_unix mono later fetched = (Some id, v') ->
  exists header payload_b64 sig_b64 f,
    jwt = joined (text_b64 header) payload_b64 sig_b64 /\
    signature_ok v v' mono later fetched header (text_b64 header) payload_b64 sig_b64 /\
    (exists payload, payload_b64 = text_b64 payload /\ parse_object payload = Some f) /\
    identity_claims v f now_unix id.
Proof.
  intros Hp Hsec. unfold verify_identity. destruct (_ || _) eqn:El; [done|]. unfold split_jwt_nonempty.
  destruct (split_jwt jwt) as [[[h p] g]|] eqn:Es; [|done]. apply split_jwt_joined in Es as ->.
  destruct (bool_decide (h = []) || _ || _); [done|]. destruct (decode_base64url h 0) as [header|] eqn:Eh; [|done].
  apply decode_is_text in Eh as ->. destruct (2048 <? _); [done|].
  destruct (check_signature _ _ _ _ _ _ _ _ _ _) as [ok v1] eqn:Ec. destruct ok; [|done].
  apply check_signature_spec in Ec as [Hsig [= E1 E2 E3]]; [|done|]; cycle 1.
  { unfold joined in El. rewrite !length_app in *. cbn [length] in *. apply orb_false_iff in El as [_ El%Z.ltb_ge]. lia. }
  cbn [negb].
  destruct (decode_base64url p 0) as [payload|] eqn:Ep; [|done]. apply decode_is_text in Ep as ->.
  destruct (parse_object _) as [f|] eqn:Ef; [|done]. intros [= Hid <-].
  apply read_identity_spec in Hid as []; [|by rewrite E3].
  exists (of_bytes header), (text_b64 (of_bytes payload)), g, f. split; [done|]. split; [done|]. split; [eauto|].
  constructor; try done; congruence.
Qed.
End identities.
