(* ===== verification/AesSpec.v ===== *)
(** * FIPS 197 and the counter mode

    The cipher of the standard over GF(2^8), on a state of four rows and four columns, and
    the proof that the code computes it; the counter mode as exclusive or with the stream
    of encrypted counters. *)
From S2P Require Import Prelude Types Bytes Aes.
Open Scope Z_scope.

(** ** The field of 256 elements (section 4) *)

(** Carry-less product of two bytes, a polynomial of degree at most 14. *)
Definition poly_mul (a b : Z) : Z :=
  fold_left (fun acc i => if Z.testbit b i then acc ^^ Z.shiftl a i else acc) (map Z.of_nat (seq 0 8)) 0.

(** Reduction modulo x^8 + x^4 + x^3 + x + 1. *)
Definition poly_reduce (p : Z) : Z :=
  fold_left (fun p i => if Z.testbit p i then p ^^ Z.shiftl 0x11b (i - 8) else p) [14; 13; 12; 11; 10; 9; 8] p.

Definition gf_mul (a b : Z) : Z := poly_reduce (poly_mul a b).

Definition bytes : list Z := map Z.of_nat (seq 0 256).

(** The multiplicative inverse, 0 for 0. *)
Definition gf_inv (x : Z) : Z := default 0 (List.find (fun y => gf_mul x y =? 1) bytes).

(** The affine transformation of section 5.1.1. *)
Definition affine (b : Z) : Z :=
  let bit i := Z.testbit b (i mod 8) in
  fold_left (fun acc i => acc + Z.b2z (xorb (xorb (xorb (xorb (xorb (bit i) (bit (i + 4))) (bit (i + 5)))
                                             (bit (i + 6))) (bit (i + 7))) (Z.testbit 0x63 i)) * 2 ^ i)
            [0; 1; 2; 3; 4; 5; 6; 7] 0.

Definition sbox (x : Z) : Z := affine (gf_inv x).

Fixpoint gf_pow (x : Z) (n : nat) : Z := match n with O => 1 | S n => gf_mul x (gf_pow x n) end.

(** ** The cipher (section 5) *)

(** Byte of row [r], column [c] of a state kept column by column. *)
Definition entry (s : list Z) (r c : nat) : Z := nth (r + 4 * c) s 0.
Definition state_of (f : nat -> nat -> Z) : list Z := map (fun i => f (i mod 4)%nat (i / 4)%nat) (seq 0 16).

Definition SubBytes (s : list Z) : list Z := state_of (fun r c => sbox (entry s r c)).
Definition ShiftRows (s : list Z) : list Z := state_of (fun r c => entry s r ((c + r) mod 4)).

(** The circulant matrix 02 03 01 01. *)
Definition mix_coefficient (r k : nat) : Z := nth ((k + 4 - r) mod 4) [2; 3; 1; 1] 0.
Definition MixColumns (s : list Z) : list Z :=
  state_of (fun r c =>
    gf_mul (mix_coefficient r 0) (entry s 0 c) ^^ gf_mul (mix_coefficient r 1) (entry s 1 c) ^^
    gf_mul (mix_coefficient r 2) (entry s 2 c) ^^ gf_mul (mix_coefficient r 3) (entry s 3 c)).

(** [w i] is the i-th word of the key schedule. *)
Definition AddRoundKey (w : nat -> list Z) (round : nat) (s : list Z) : list Z :=
  state_of (fun r c => entry s r c ^^ nth r (w (4 * round + c)%nat) 0).

Definition Cipher (w : nat -> list Z) (input : list Z) : list Z :=
  let s := AddRoundKey w 0 input in
  let s := fold_left (fun s round => AddRoundKey w round (MixColumns (ShiftRows (SubBytes s)))) (seq 1 13) s in
  AddRoundKey w 14 (ShiftRows (SubBytes s)).

(** ** Bytes, by exhaustion *)

Lemma bytes_all (P : Z -> bool) : forallb P bytes = true -> forall b, byte_ok b -> P b = true.
Proof.
  intros H b [Hb Hb']. rewrite forallb_forall in H. apply H, in_map_iff. exists (Z.to_nat b).
  split; [lia|]. apply in_seq. lia.
Qed.

Lemma sbox_table b : byte_ok b -> sbox_at b = sbox b.
Proof. intros H. apply Z.eqb_eq. revert b H. apply bytes_all. vm_compute. reflexivity. Qed.

Lemma sbox_ok b : byte_ok b -> byte_ok (sbox_at b).
Proof.
  intros H. enough ((0 <=? sbox_at b) && (sbox_at b <? 256) = true) by (unfold byte_ok; lia).
  revert b H. apply bytes_all. vm_compute. reflexivity.
Qed.

Lemma xtime_ok b : byte_ok (xtime b).
Proof. unfold xtime. rewrite land_255. apply Z.mod_pos_bound. lia. Qed.

Lemma mul_small b : byte_ok b -> gf_mul 1 b = b /\ gf_mul 2 b = xtime b /\ gf_mul 3 b = xtime b ^^ b.
Proof.
  intros H. rewrite <- !Z.eqb_eq. apply and_assoc. rewrite <- !andb_true_iff. revert b H.
  apply bytes_all. vm_compute. reflexivity.
Qed.

Lemma shiftl_lxor a b n : Z.shiftl (a ^^ b) n = Z.shiftl a n ^^ Z.shiftl b n.
Proof. apply Z.shiftl_lxor. Qed.

Lemma xtime_xor a b : byte_ok a -> byte_ok b -> xtime (a ^^ b) = xtime a ^^ xtime b.
Proof.
  intros Ha Hb. apply Z.eqb_eq. revert a Ha b Hb.
  assert (forallb (fun a => forallb (fun b => xtime (a ^^ b) =? xtime a ^^ xtime b) bytes) bytes = true) as H
    by (vm_compute; reflexivity).
  intros a Ha. apply bytes_all. revert a Ha. apply bytes_all. exact H.
Qed.

(** ** The transformations *)

Definition bytes_of_length (n : nat) (s : list Z) : Prop := length s = n /\ List.Forall byte_ok s.

(** A list of length 16 by its elements. *)
Ltac explode s H :=
  do 16 (let x := fresh "x" in destruct s as [|x s]; [cbn in H; discriminate H|]);
  destruct s; [|cbn in H; discriminate H].

Lemma bytes_map n f s : (forall b, byte_ok b -> byte_ok (f b)) -> bytes_of_length n s -> bytes_of_length n (map f s).
Proof.
  intros Hf [Hl Hb]. split; [by rewrite length_map|]. apply List.Forall_map.
  eapply List.Forall_impl; [exact Hf|done].
Qed.

Lemma bytes_app n m a b : bytes_of_length n a -> bytes_of_length m b -> bytes_of_length (n + m) (a ++ b).
Proof. intros [Ha Ha'] [Hb Hb']. split; [rewrite length_app; lia|]. by apply List.Forall_app. Qed.

Lemma bytes_xor n a b : bytes_of_length n a -> bytes_of_length n b -> bytes_of_length n (xor_bytes a b).
Proof.
  intros [Ha Ha'] [Hb Hb']. split; [rewrite xor_bytes_length; lia|]. clear Ha Hb.
  revert b Hb'. induction Ha' as [|x a Hx Ha IH]; intros [|y b] Hb; cbn; try constructor.
  - inversion Hb. by apply xor_byte_ok.
  - inversion Hb. by apply IH.
Qed.

Lemma nth_ok n s i : bytes_of_length n s -> (i < n)%nat -> byte_ok (nth i s 0).
Proof. intros [Hl Hb] Hi. rewrite List.Forall_forall in Hb. apply Hb, nth_In. lia. Qed.

Lemma bytes_window n s i k : bytes_of_length n s -> (i + k <= n)%nat -> bytes_of_length k (firstn k (skipn i s)).
Proof.
  intros [Hl Hb] Hi. split; [rewrite length_firstn, length_skipn; lia|].
  by apply Forall_take, Forall_drop.
Qed.

Lemma sub_bytes_spec s : bytes_of_length 16 s -> sub_bytes s = SubBytes s /\ bytes_of_length 16 (sub_bytes s).
Proof.
  intros H. split; [|apply bytes_map; [apply sbox_ok|done]].
  assert (sub_bytes s = map sbox s) as ->.
  { unfold sub_bytes. apply map_ext_in. intros b Hb. apply sbox_table. destruct H as [_ H].
    rewrite List.Forall_forall in H. by apply H. }
  unfold SubBytes. generalize sbox. intros f. destruct H as [H _]. explode s H. reflexivity.
Qed.

Lemma shift_rows_spec s : bytes_of_length 16 s -> shift_rows s = ShiftRows s /\ bytes_of_length 16 (shift_rows s).
Proof.
  intros H. assert (shift_rows s = ShiftRows s) as E by (destruct H as [H _]; explode s H; reflexivity).
  split; [done|]. rewrite E. unfold ShiftRows, state_of. split; [by rewrite length_map, length_seq|].
  apply List.Forall_map, List.Forall_forall. intros i Hi%in_seq. unfold entry. apply (nth_ok 16); [done|].
  pose proof (Nat.mod_upper_bound i 4). pose proof (Nat.mod_upper_bound (i / 4 + i mod 4) 4). lia.
Qed.

(** The rearrangement of [mix_columns] is the matrix product. *)
Lemma mix_column_spec a0 a1 a2 a3 :
  byte_ok a0 -> byte_ok a1 -> byte_ok a2 -> byte_ok a3 ->
  mix_column [a0; a1; a2; a3] =
  map (fun r => gf_mul (mix_coefficient r 0) a0 ^^ gf_mul (mix_coefficient r 1) a1 ^^
                gf_mul (mix_coefficient r 2) a2 ^^ gf_mul (mix_coefficient r 3) a3) (seq 0 4).
Proof.
  intros H0 H1 H2 H3. unfold mix_column, mix_coefficient.
  cbn [nth map seq Nat.add Nat.sub Nat.modulo Nat.divmod fst snd]. rewrite !xtime_xor by done.
  destruct (mul_small a0 H0) as (-> & -> & ->), (mul_small a1 H1) as (-> & -> & ->),
    (mul_small a2 H2) as (-> & -> & ->), (mul_small a3 H3) as (-> & -> & ->).
  generalize (xtime a0) (xtime a1) (xtime a2) (xtime a3). intros.
  repeat (apply (f_equal2 cons); [xor_solve|]). reflexivity.
Qed.

Lemma mix_columns_spec s : bytes_of_length 16 s -> mix_columns s = MixColumns s /\ bytes_of_length 16 (mix_columns s).
Proof.
  intros [H Hb]. explode s H. rewrite !List.Forall_cons_iff in Hb. destruct_and! Hb.
  unfold mix_columns, chunks. cbn [length Nat.div Nat.divmod fst snd seq map flat_map Nat.mul Nat.add skipn firstn].
  split.
  - rewrite !mix_column_spec by done. reflexivity.
  - unfold mix_column. cbn [nth app]. split; [done|].
    repeat (constructor; [repeat apply xor_byte_ok; done || apply xtime_ok|]). constructor.
Qed.

(** ** The cipher *)

Section cipher.
Context (round_keys : list Z) (Hk : bytes_of_length 240 round_keys).
Notation w := (key_word round_keys).

Lemma round_key_entry round r c :
  (r < 4)%nat -> (c < 4)%nat -> nth (r + 4 * c) (round_key round_keys round) 0 = nth r (w (4 * round + c)%nat) 0.
Proof.
  intros Hr Hc. unfold round_key, key_word, Aes256.BLOCK_SIZE.
  rewrite !nth_firstn. rewrite (proj2 (Nat.ltb_lt (r + 4 * c) 16)), (proj2 (Nat.ltb_lt r 4)) by lia.
  rewrite !nth_skipn. f_equal. lia.
Qed.

Lemma add_round_key_spec s round :
  bytes_of_length 16 s -> (round <= 14)%nat ->
  add_round_key s (round_key round_keys round) = AddRoundKey w round s /\ bytes_of_length 16 (add_round_key s (round_key round_keys round)).
Proof.
  intros Hs Hr. assert (bytes_of_length 16 (round_key round_keys round)) as Hrk
    by (eapply bytes_window; [exact Hk|unfold Aes256.BLOCK_SIZE; lia]).
  split; [|by apply bytes_xor]. unfold AddRoundKey. unfold add_round_key.
  assert (forall i, (i < 16)%nat ->
    nth i (round_key round_keys round) 0 = nth (i mod 4) (w (4 * round + i / 4)%nat) 0) as E.
  { intros i Hi. rewrite <- round_key_entry by (try apply Nat.Div0.div_lt_upper_bound; try apply Nat.mod_upper_bound; lia).
    f_equal. pose proof (Nat.div_mod_eq i 4). lia. }
  transitivity (map (fun i => nth i s 0 ^^ nth i (round_key round_keys round) 0) (seq 0 16)).
  - destruct Hs as [H _], Hrk as [H' _]. clear E. revert H'. generalize (round_key round_keys round). intros k H'.
    explode s H. explode k H'. reflexivity.
  - unfold state_of, entry. apply map_ext_in. intros i Hi%in_seq. rewrite E by lia. do 2 f_equal.
    pose proof (Nat.div_mod_eq i 4). lia.
Qed.

Lemma rounds_spec count round s :
  bytes_of_length 16 s -> (round + count <= 14)%nat ->
  rounds count round round_keys s =
  fold_left (fun s round => AddRoundKey w round (MixColumns (ShiftRows (SubBytes s)))) (seq round count) s /\ bytes_of_length 16 (rounds count round round_keys s).
Proof.
  revert round s. induction count as [|count IH]; intros round s Hs Hr; cbn [rounds fold_left seq]; [done|].
  destruct (sub_bytes_spec s Hs) as [E1 H1], (shift_rows_spec _ H1) as [E2 H2],
    (mix_columns_spec _ H2) as [E3 H3], (add_round_key_spec _ round H3 ltac:(lia)) as [E4 H4].
  rewrite <- E1, <- E2, <- E3, <- E4. apply IH; [done|lia].
Qed.

Lemma encrypt_block_spec input :
  bytes_of_length 16 input ->
  encrypt_block round_keys input = Cipher w input /\ bytes_of_length 16 (encrypt_block round_keys input).
Proof.
  intros H. unfold encrypt_block, Cipher, Aes256.NUM_ROUNDS.
  destruct (add_round_key_spec input 0 H ltac:(lia)) as [E0 H0].
  destruct (rounds_spec (14 - 1) 1 _ H0 ltac:(lia)) as [E Hr]. change (14 - 1)%nat with 13%nat in *.
  destruct (sub_bytes_spec _ Hr) as [E1 H1], (shift_rows_spec _ H1) as [E2 H2],
    (add_round_key_spec _ 14 H2 (le_n _)) as [E4 H4].
  rewrite <- E0, <- E, <- E1, <- E2, <- E4. done.
Qed.
End cipher.

(** ** The key schedule (section 5.2) *)

(** What word [i] adds to word [i - 8], from word [i - 1]. *)
Definition key_addend (i : nat) (prev : list Z) : list Z :=
  if (i mod 8 =? 0)%nat then
    match map sbox prev with
    | [b0; b1; b2; b3] => [b1 ^^ gf_pow 2 (i / 8 - 1); b2; b3; b0]
    | l => l
    end
  else if (i mod 8 =? 4)%nat then map sbox prev
  else prev.

Lemma map_sbox l : List.Forall byte_ok l -> map sbox_at l = map sbox l.
Proof.
  intros H. apply map_ext_in. intros b Hb. apply sbox_table. rewrite List.Forall_forall in H. by apply H.
Qed.

Lemma key_temp_spec i prev :
  (8 <= i < 60)%nat -> bytes_of_length 4 prev ->
  key_temp i prev = key_addend i prev /\ bytes_of_length 4 (key_temp i prev).
Proof.
  intros Hi H. unfold key_temp, key_addend. destruct (Nat.eqb_spec (i mod 8) 0) as [H0|H0].
  - assert (nth (i / 8) RCON 0 = gf_pow 2 (i / 8 - 1) /\ byte_ok (gf_pow 2 (i / 8 - 1))) as [-> Hrc].
    { assert (1 <= i / 8 <= 7)%nat as Hd by (pose proof (Nat.div_mod_eq i 8); lia).
      enough (forallb (fun j => (nth j RCON 0 =? gf_pow 2 (j - 1)) && (0 <=? gf_pow 2 (j - 1)) &&
                                (gf_pow 2 (j - 1) <? 256)) (seq 1 7) = true) as Hall.
      { rewrite forallb_forall in Hall. specialize (Hall (i / 8)%nat ltac:(apply in_seq; lia)).
        unfold byte_ok. bool_hyps. lia. }
      vm_compute. reflexivity. }
    revert Hrc. generalize (gf_pow 2 (i / 8 - 1)). intros rc Hrc.
    destruct H as [Hl Hb]. do 4 (destruct prev as [|? prev]; [discriminate Hl|]). destruct prev; [|discriminate Hl].
    rewrite !List.Forall_cons_iff in Hb. destruct_and! Hb. cbn [map nth]. rewrite <- !sbox_table by done.
    split; [reflexivity|]. split; [reflexivity|].
    cbn [insert list_insert nth].
    repeat (constructor; [by auto using sbox_ok, xor_byte_ok|]). constructor.
  - destruct (Nat.eqb_spec (i mod 8) 4); [|done]. split; [apply map_sbox, H|].
    apply bytes_map; [apply sbox_ok|done].
Qed.

Lemma key_word_app rk more i : (4 * i + 4 <= length rk)%nat -> key_word (rk ++ more) i = key_word rk i.
Proof. intros H. apply window_app. done. Qed.

Lemma expand_words_spec count i rk :
  bytes_of_length (4 * i) rk -> (8 <= i)%nat -> (i + count <= 60)%nat ->
  let ks := expand_words count i rk in
  bytes_of_length (4 * (i + count)) ks /\
  (forall j, (j < i)%nat -> key_word ks j = key_word rk j) /\
  (forall j, (i <= j < i + count)%nat ->
     key_word ks j = xor_bytes (key_word ks (j - 8)) (key_addend j (key_word ks (j - 1)))).
Proof.
  revert i rk. induction count as [|count IH]; intros i rk Hrk Hi Hc; cbn [expand_words].
  { rewrite Nat.add_0_r. split; [done|]. split; [done|]. lia. }
  set (temp := key_temp i _). set (word := xor_bytes _ temp).
  destruct (key_temp_spec i (key_word rk (i - 1)) ltac:(lia)) as [Et Ht].
  { eapply bytes_window; [exact Hrk|lia]. }
  fold temp in Et, Ht. assert (bytes_of_length 4 word) as Hw.
  { apply bytes_xor; [|done]. eapply bytes_window; [exact Hrk|lia]. }
  assert (bytes_of_length (4 * S i) (rk ++ word)) as Hrk'.
  { replace (4 * S i)%nat with (4 * i + 4)%nat by lia. by apply bytes_app. }
  destruct (IH (S i) (rk ++ word) Hrk' ltac:(lia) ltac:(lia)) as (IH1 & IH2 & IH3).
  replace (S i + count)%nat with (i + S count)%nat in * by lia. destruct Hrk as [Hl _].
  assert (forall j, (j < i)%nat -> key_word (rk ++ word) j = key_word rk j) as Hold
    by (intros j Hj; apply key_word_app; lia).
  split; [done|]. split.
  - intros j Hj. rewrite IH2 by lia. by apply Hold.
  - intros j Hj. destruct (Nat.eq_dec j i) as [->|Hne]; [|apply IH3; lia].
    rewrite !IH2 by lia. rewrite (Hold (i - 8)%nat), (Hold (i - 1)%nat) by lia. rewrite <- Et. unfold key_word at 1. rewrite skipn_app, skipn_all2 by lia.
    rewrite Hl, Nat.sub_diag, skipn_O. apply firstn_all2. destruct Hw as [Hwl _]. exact (Nat.eq_le_incl _ _ Hwl).
Qed.

(** The schedule: the key itself, then the recurrence of the standard. *)
Lemma expand_key_spec key :
  bytes_of_length 32 key ->
  let ks := expand_key key in
  bytes_of_length 240 ks /\ (forall i, (i < 8)%nat -> key_word ks i = key_word key i) /\
  (forall i, (8 <= i < 60)%nat ->
     key_word ks i = xor_bytes (key_word ks (i - 8)) (key_addend i (key_word ks (i - 1)))).
Proof.
  intros H. exact (expand_words_spec 52 8 key H (le_n _) (le_n _)).
Qed.

(** ** Counter mode *)

Lemma store_be_value l : List.Forall byte_ok l -> store_be (length l) (be_value l) = l.
Proof.
  induction l as [|x l IH] using rev_ind; [done|]. rewrite List.Forall_app, List.Forall_cons_iff.
  intros (Hl & Hx & _). rewrite length_app, Nat.add_1_r, store_be_S, be_value_snoc.
  rewrite Z.div_add_l, Z.div_small, Z.add_0_r, IH by (lia || done).
  by rewrite Z.add_comm, Z.mod_add, Z.mod_small by (lia || done).
Qed.

Lemma increment_from_spec a b :
  List.Forall byte_ok a -> increment_from (length a) (a ++ b) = store_be (length a) (be_value a + 1) ++ b.
Proof.
  revert b. induction a as [|x a IH] using rev_ind; intros b; [done|].
  rewrite List.Forall_app, List.Forall_cons_iff. intros (Ha & Hx & _).
  rewrite length_app, Nat.add_1_r, <- app_assoc. cbn [increment_from app].
  rewrite app_nth2, Nat.sub_diag by lia. cbn [nth].
  rewrite insert_app_r_alt, Nat.sub_diag by lia. cbn [list_insert insert].
  rewrite store_be_S, be_value_snoc. destruct (Z.eq_dec x 255) as [->|Hne].
  - change ((255 + 1) mod 256) with 0. cbn [Z.eqb negb]. rewrite IH by done.
    replace (be_value a * 256 + 255 + 1) with ((be_value a + 1) * 256) by lia.
    by rewrite Z.div_mul, Z.mod_mul, <- app_assoc by lia.
  - unfold byte_ok in Hx. rewrite (Z.mod_small (x + 1)) by lia. rewrite (proj2 (Z.eqb_neq _ _)) by lia.
    cbn [negb]. rewrite <- Z.add_assoc, Z.div_add_l, (Z.div_small (x + 1)), Z.add_0_r by lia.
    rewrite store_be_value, <- app_assoc by done. cbn [app].
    by rewrite (Z.add_comm (be_value a * 256)), Z.mod_add, Z.mod_small by lia.
Qed.

(** The counter is a 128-bit number, and incrementing it is adding one, modulo 2^128. *)
Definition counter_at (counter : list Z) (j : Z) : list Z := store_be 16 (be_value counter + j).

Lemma store_be_mod n v : store_be n (v mod 256 ^ Z.of_nat n) = store_be n v.
Proof.
  revert v. induction n as [|n IH]; intros v; [done|].
  rewrite !store_be_S, Nat2Z.inj_succ, Z.pow_succ_r by lia. rewrite Z.rem_mul_r by lia. f_equal.
  - rewrite Z.mul_comm, Z.div_add, Z.div_small, Z.add_0_l by (lia || (apply Z.mod_pos_bound; lia)). apply IH.
  - by rewrite Z.mul_comm, Z.mod_add, Z.mod_mod by lia.
Qed.

Lemma increment_counter_spec c : bytes_of_length 16 c -> increment_counter c = counter_at c 1.
Proof.
  intros [Hl Hb]. unfold increment_counter, counter_at, Aes256.BLOCK_SIZE.
  pose proof (increment_from_spec c [] Hb) as E. by rewrite Hl, !app_nil_r in E.
Qed.

Lemma counter_at_ok c j : bytes_of_length 16 (counter_at c j).
Proof. split; [apply store_be_length|apply store_be_ok]. Qed.

Lemma counter_at_0 c : bytes_of_length 16 c -> counter_at c 0 = c.
Proof. intros [Hl Hb]. unfold counter_at. rewrite Z.add_0_r, <- Hl. by apply store_be_value. Qed.

Lemma counter_at_add c i j : counter_at (counter_at c i) j = counter_at c (i + j).
Proof.
  unfold counter_at. rewrite be_value_store. rewrite <- store_be_mod, Zplus_mod_idemp_l, store_be_mod.
  f_equal. lia.
Qed.

#[local] Opaque encrypt_block expand_key counter_at.

(** The key stream of [n] blocks. *)
Definition keystream (round_keys counter : list Z) (n : nat) : list Z :=
  flat_map (fun j => encrypt_block round_keys (counter_at counter (Z.of_nat j))) (seq 0 n).

Lemma keystream_S rk c n :
  keystream rk c (S n) = encrypt_block rk (counter_at c 0) ++ keystream rk (counter_at c 1) n.
Proof.
  unfold keystream. cbn [seq flat_map]. apply (f_equal2 app); [done|].
  rewrite <- seq_shift, !flat_map_concat_map, map_map. apply (f_equal (@concat Z)).
  apply map_ext. intros j. rewrite counter_at_add, Nat2Z.inj_succ. by rewrite Z.add_1_l.
Qed.

Definition blocks (n : nat) : nat := (n + 15) / 16.

Section ctr.
Context (rk : list Z) (Hk : bytes_of_length 240 rk).

Lemma keystream_length c n : length (keystream rk c n) = (n * 16)%nat.
Proof.
  revert c. induction n as [|n IH]; intros c; [reflexivity|]. rewrite keystream_S, length_app, IH.
  destruct (encrypt_block_spec rk Hk _ (counter_at_ok c 0)) as [_ [He _]].
  revert He. generalize (length (encrypt_block rk (counter_at c 0))). intros m ->. reflexivity.
Qed.

Lemma xor_bytes_app a b k l :
  length k = length a -> xor_bytes (a ++ b) (k ++ l) = xor_bytes a k ++ xor_bytes b l.
Proof.
  intros H. unfold xor_bytes. apply zip_with_app. done.
Qed.

Lemma xor_bytes_trunc a k l : (length a <= length k)%nat -> xor_bytes a (k ++ l) = xor_bytes a k.
Proof.
  revert k. induction a as [|x a IH]; intros [|y k] H; cbn [length] in H; cbn; [by destruct l|done|lia|].
  f_equal. apply IH. lia.
Qed.

Lemma ctr_loop_spec fuel c input :
  (length input <= fuel)%nat -> bytes_of_length 16 c ->
  ctr_loop fuel rk c input = xor_bytes input (keystream rk c (blocks (length input))).
Proof.
  revert c input. induction fuel as [|fuel IH]; intros c input Hf Hc; cbn [ctr_loop].
  { apply Nat.le_0_r, length_zero_iff_nil in Hf as ->. done. }
  destruct (Nat.ltb_spec 0 (length input)) as [Hpos|Hz].
  2: { assert (input = []) as -> by (apply length_zero_iff_nil; lia). done. }
  pose proof (counter_at_0 c Hc) as E0.
  destruct (encrypt_block_spec rk Hk c Hc) as [_ [Hel _]].
  assert (exists n, blocks (length input) = S n /\ n = blocks (length input - 16)) as (n & Hn & Hn').
  { unfold blocks. exists ((length input - 16 + 15) / 16)%nat. split; [|done].
    pose proof (Nat.div_mod_eq (length input + 15) 16). pose proof (Nat.mod_upper_bound (length input + 15) 16).
    pose proof (Nat.div_mod_eq (length input - 16 + 15) 16).
    pose proof (Nat.mod_upper_bound (length input - 16 + 15) 16). lia. }
  rewrite Hn, keystream_S, E0, increment_counter_spec by done. unfold Aes256.BLOCK_SIZE.
  destruct (Nat.ltb_spec (length input) 16).
  - rewrite firstn_all, skipn_all, xor_bytes_trunc by lia. rewrite IH by (cbn; lia || apply counter_at_ok).
    cbn. by rewrite app_nil_r.
  - rewrite IH by (rewrite ?length_skipn; lia || apply counter_at_ok). rewrite length_skipn, <- Hn'.
    rewrite <- xor_bytes_app by (rewrite length_firstn; lia). by rewrite firstn_skipn.
Qed.
End ctr.

(** Counter mode is exclusive or with the stream of encrypted counters. *)
Lemma process_spec key c input :
  bytes_of_length 32 key -> bytes_of_length 16 c ->
  process key c input = xor_bytes input (keystream (expand_key key) c (blocks (length input))) /\
  length (process key c input) = length input.
Proof.
  intros Hk Hc. destruct (expand_key_spec key Hk) as [Hks _].
  assert (process key c input = xor_bytes input (keystream (expand_key key) c (blocks (length input)))) as E.
  { unfold process. destruct (Nat.eqb_spec (length input) 0) as [H0|H0].
    - apply length_zero_iff_nil in H0 as ->. done.
    - by apply ctr_loop_spec. }
  split; [done|]. rewrite E, xor_bytes_length, keystream_length by done. unfold blocks.
  pose proof (Nat.div_mod_eq (length input + 15) 16). pose proof (Nat.mod_upper_bound (length input + 15) 16). lia.
Qed.

(** Decryption is encryption. *)
Lemma process_involutive key c input :
  bytes_of_length 32 key -> bytes_of_length 16 c -> process key c (process key c input) = input.
Proof.
  intros Hk Hc. destruct (expand_key_spec key Hk) as [Hks _].
  destruct (process_spec key c input Hk Hc) as [E Hl].
  destruct (process_spec key c (process key c input) Hk Hc) as [-> _]. rewrite Hl, E.
  apply xor_bytes_twice. rewrite keystream_length by done. unfold blocks.
  pose proof (Nat.div_mod_eq (length input + 15) 16). pose proof (Nat.mod_upper_bound (length input + 15) 16). lia.
Qed.
