(* ===== verification/Aead.v ===== *)
(** * Authenticated encryption

    [crypto/aead.cpp]: AES-256 in counter mode, then HMAC-SHA-384 over the ciphertext.
    The lemmas say what the tag covers and when [open] accepts. *)
From S2P Require Import Prelude Types Bytes Sha2 Sha2Spec Hmac Aes AesSpec.
Open Scope Z_scope.

Record AeadKeys := mkAeadKeys { enc : list Z; mac_key : list Z }.

Definition ENC_KEY_SIZE : nat := 32.
Definition MAC_KEY_SIZE : nat := 32.
Definition NONCE_SIZE : nat := 16.
Definition TAG_SIZE : nat := Sha384.DIGEST_SIZE.

Definition append_be64 (v : list Z) (value : Z) : list Z := v ++ store_be 8 value.

Definition derive_keys (master : list Z) (context : str) : AeadKeys :=
  let prk := extract (HashT := Sha384T) [] master in
  mkAeadKeys (expand_label (HashT := Sha384T) prk (context ++ lit " enc") ENC_KEY_SIZE)
             (expand_label (HashT := Sha384T) prk (context ++ lit " mac") MAC_KEY_SIZE).

Definition compute_tag (mac_key nonce aad ciphertext : list Z) : list Z :=
  let h := hmac_init (HashT := Sha384T) mac_key in
  let prefix := append_be64 [] (Z.of_nat (length aad)) in
  let h := hmac_update h prefix in
  let h := if (0 <? length aad)%nat then hmac_update h aad else h in
  let h := hmac_update h nonce in
  let h := if (0 <? length ciphertext)%nat then hmac_update h ciphertext else h in
  hmac_finish h.

Definition wrong_sizes (keys : AeadKeys) : bool :=
  negb (length (enc keys) =? ENC_KEY_SIZE)%nat || negb (length (mac_key keys) =? MAC_KEY_SIZE)%nat.

Definition seal (keys : AeadKeys) (nonce aad plaintext : list Z) : list Z :=
  if wrong_sizes keys then [] else
  let out := if (0 <? length plaintext)%nat then process (enc keys) nonce plaintext else [] in
  let tag := compute_tag (mac_key keys) nonce aad out in
  out ++ tag.

(** The verdict and [out_plaintext] after the call, [out] before it. *)
Definition open (keys : AeadKeys) (nonce aad sealed : list Z) (out : list Z) : bool * list Z :=
  if wrong_sizes keys then (false, out)
  else if (length sealed <? TAG_SIZE)%nat then (false, out)
  else
    let ct_len := (length sealed - TAG_SIZE)%nat in
    let ciphertext := firstn ct_len sealed in
    let provided_tag := skipn ct_len sealed in
    let expected := compute_tag (mac_key keys) nonce aad ciphertext in
    if negb (constant_time_equals expected provided_tag) then (false, out)
    else (true, if (0 <? ct_len)%nat then process (enc keys) nonce ciphertext else []).

(** ** The tag *)

(** What the tag is computed over. *)
Definition mac_input (nonce aad ciphertext : list Z) : list Z :=
  store_be 8 (Z.of_nat (length aad)) ++ aad ++ nonce ++ ciphertext.

Definition message_ok (nonce aad text : list Z) : Prop :=
  length nonce = 16%nat /\ Z.of_nat (length aad) < 2 ^ 58 /\ Z.of_nat (length text) < 2 ^ 58.

Lemma update_if l : concat (if (0 <? length l)%nat then [l] else []) = l :> list Z.
Proof. destruct l; [done|]. apply app_nil_r. Qed.

Lemma compute_tag_spec key nonce aad ct :
  message_ok nonce aad ct -> length key = 32%nat ->
  compute_tag key nonce aad ct = rfc2104 (HashT := Sha384T) key (mac_input nonce aad ct).
Proof.
  intros (Hn & Ha & Hc) Hk. unfold mac_input.
  pose proof (hmac_spec (HashT := Sha384T) key
    (([store_be 8 (Z.of_nat (length aad))] ++ (if (0 <? length aad)%nat then [aad] else [])) ++
     [nonce] ++ (if (0 <? length ct)%nat then [ct] else []))) as E.
  rewrite !concat_app, !update_if in E. cbn [concat] in E. rewrite !app_nil_r, <- app_assoc in E.
  rewrite <- E by (split; [lia|rewrite !length_app, store_be_length; lia]). rewrite !fold_left_app.
  unfold compute_tag, append_be64. cbn [fold_left app].
  destruct (0 <? length aad)%nat, (0 <? length ct)%nat; reflexivity.
Qed.

(** The length prefix makes the input unambiguous: the tag binds every field. *)
Lemma mac_input_inj nonce nonce' aad aad' ct ct' :
  message_ok nonce aad ct -> message_ok nonce' aad' ct' ->
  mac_input nonce aad ct = mac_input nonce' aad' ct' -> nonce = nonce' /\ aad = aad' /\ ct = ct'.
Proof.
  intros (Hn & Ha & _) (Hn' & Ha' & _) E. unfold mac_input in E.
  apply app_inj_1 in E as [Hp E]; [|by rewrite !store_be_length].
  apply store_be_inj in Hp; [|lia..]. apply app_inj_1 in E as [-> E]; [|lia].
  by apply app_inj_1 in E as [-> ->]; [|lia].
Qed.

Lemma compute_tag_length key nonce aad ct :
  message_ok nonce aad ct -> length key = 32%nat -> length (compute_tag key nonce aad ct) = 48%nat.
Proof. intros. rewrite compute_tag_spec by done. apply (rfc2104_length (HashT := Sha384T)). Qed.

(** ** Sealing and opening *)

Definition keys_ok (keys : AeadKeys) : Prop := bytes_of_length 32 (enc keys) /\ length (mac_key keys) = 32%nat.

Lemma keys_ok_sizes keys : keys_ok keys -> wrong_sizes keys = false.
Proof. intros [[He _] Hm]. unfold wrong_sizes. by rewrite He, Hm. Qed.

(** Skipping the cipher on an empty text changes nothing. *)
Lemma process_if key nonce text :
  (if (0 <? length text)%nat then process key nonce text else []) = process key nonce text.
Proof. by destruct text. Qed.

Lemma seal_spec keys nonce aad text :
  keys_ok keys -> seal keys nonce aad text =
  process (enc keys) nonce text ++ compute_tag (mac_key keys) nonce aad (process (enc keys) nonce text).
Proof. intros H. unfold seal. by rewrite keys_ok_sizes, process_if. Qed.

Section aead.
Context (keys : AeadKeys) (nonce aad : list Z) (Hk : keys_ok keys) (Hn : bytes_of_length 16 nonce).
Context (Haad : Z.of_nat (length aad) < 2 ^ 58).

Lemma message_ok_of text : Z.of_nat (length text) < 2 ^ 58 -> message_ok nonce aad text.
Proof. intros H. split; [apply Hn|done]. Qed.

Lemma seal_length text : Z.of_nat (length text) < 2 ^ 58 -> length (seal keys nonce aad text) = (length text + 48)%nat.
Proof.
  intros H. rewrite seal_spec, length_app by done. destruct Hk as [He Hm].
  destruct (process_spec (enc keys) nonce text He Hn) as [_ Hl].
  rewrite compute_tag_length; [lia|apply message_ok_of; lia|done].
Qed.

(** What was sealed opens to itself. *)
Lemma open_seal text out :
  Z.of_nat (length text) < 2 ^ 58 -> open keys nonce aad (seal keys nonce aad text) out = (true, text).
Proof.
  intros H. pose proof (seal_length text H) as Hsl. unfold open. rewrite keys_ok_sizes by done.
  unfold TAG_SIZE, Sha384.DIGEST_SIZE. rewrite Hsl, (proj2 (Nat.ltb_ge _ 48)), Nat.add_sub by lia.
  rewrite seal_spec by done. destruct Hk as [He Hm].
  destruct (process_spec (enc keys) nonce text He Hn) as [_ Hl].
  rewrite <- Hl, !take_app_length, !drop_app_length.
  rewrite (proj2 (constant_time_equals_spec _ _ eq_refl) eq_refl). cbn [negb]. f_equal.
  rewrite process_if. by apply process_involutive.
Qed.

(** And only what was sealed opens: an accepted message is the one sealing yields. *)
Lemma open_accepts sealed out text :
  Z.of_nat (length sealed) < 2 ^ 58 -> open keys nonce aad sealed out = (true, text) ->
  sealed = seal keys nonce aad text /\ length sealed = (length text + 48)%nat.
Proof.
  intros H. unfold open. rewrite keys_ok_sizes by done. unfold TAG_SIZE, Sha384.DIGEST_SIZE.
  destruct (Nat.ltb_spec (length sealed) 48) as [|Hlen]; [done|]. set (n := (length sealed - 48)%nat).
  assert (length (firstn n sealed) = n) as Hf by (rewrite length_firstn; unfold n; lia).
  destruct Hk as [He Hm]. destruct (constant_time_equals _ _) eqn:E; cbn [negb]; [|done].
  intros [= <-]. rewrite constant_time_equals_spec in E.
  2: { rewrite compute_tag_length; [rewrite length_skipn; unfold n; lia|apply message_ok_of; lia|done]. }
  assert ((if (0 <? n)%nat then process (enc keys) nonce (firstn n sealed) else []) =
          process (enc keys) nonce (firstn n sealed)) as -> by (rewrite <- Hf at 1; apply process_if).
  destruct (process_spec (enc keys) nonce (firstn n sealed) He Hn) as [_ Hl].
  split; [|rewrite Hl, Hf; unfold n; lia]. rewrite seal_spec by done.
  rewrite process_involutive, E by done. symmetry. apply firstn_skipn.
Qed.

(** A refused message leaves the output as it was. *)
Lemma open_refuses sealed out : fst (open keys nonce aad sealed out) = false -> open keys nonce aad sealed out = (false, out).
Proof. unfold open. repeat case_match; try done. Qed.
End aead.

(** ** Key derivation *)

Definition label_bytes (s : str) : list Z := map (fun c => Z.of_N (Ascii.N_of_ascii c)) s.

Lemma rfc2104_bytes `{L : HashLaws} key text : List.Forall byte_ok (rfc2104 key text).
Proof. apply digest_bytes. Qed.

Lemma rfc5869_expand_bytes `{L : HashLaws} prk info n : List.Forall byte_ok (rfc5869_expand prk info n).
Proof.
  apply Forall_take, List.Forall_concat, List.Forall_map, List.Forall_forall. intros i Hi%in_seq.
  destruct i; [lia|]. apply rfc2104_bytes.
Qed.

Lemma expand_label_spec prk label n :
  length prk = 48%nat -> Z.of_nat (length label) < 2 ^ 59 -> (n <= 255 * 48)%nat ->
  expand_label (HashT := Sha384T) prk label n = rfc5869_expand (HashT := Sha384T) prk (label_bytes label) n.
Proof.
  intros Hp Hl Hn. unfold expand_label. fold (label_bytes label).
  rewrite (expand_spec (HashT := Sha384T)).
  - by rewrite (proj2 (Nat.ltb_ge _ _)).
  - unfold mac_size_ok, label_bytes. rewrite length_app, repeat_length, length_map. lia.
Qed.

(** The two keys are the two labelled expansions, and have the sizes [seal] checks for. *)
Lemma derive_keys_spec master context :
  Z.of_nat (length master) < 2 ^ 60 -> Z.of_nat (length context) < 2 ^ 58 ->
  let prk := rfc5869_extract (HashT := Sha384T) [] master in
  let key_for suffix := rfc5869_expand (HashT := Sha384T) prk (label_bytes (context ++ suffix)) 32 in
  derive_keys master context = mkAeadKeys (key_for (lit " enc")) (key_for (lit " mac")) /\
  keys_ok (derive_keys master context).
Proof.
  intros Hm Hc prk key_for.
  assert (derive_keys master context = mkAeadKeys (key_for (lit " enc")) (key_for (lit " mac"))) as E.
  { unfold derive_keys, key_for. rewrite (extract_spec (HashT := Sha384T)) by (split; cbn; lia). fold prk.
    assert (length prk = 48%nat) as Hp by apply (rfc2104_length (HashT := Sha384T)).
    assert (length (lit " enc") = 4%nat /\ length (lit " mac") = 4%nat) as [H1 H2] by done.
    unfold ENC_KEY_SIZE, MAC_KEY_SIZE.
    by rewrite !expand_label_spec by (rewrite ?length_app, ?H1, ?H2; done || lia). }
  split; [done|]. rewrite E. split; [split|]; cbn [enc mac_key].
  - apply (rfc5869_expand_length (HashT := Sha384T)).
  - apply (rfc5869_expand_bytes (HashT := Sha384T)).
  - apply (rfc5869_expand_length (HashT := Sha384T)).
Qed.
