(* ===== verification/SealedEnvelope.v ===== *)
(** * Sealed envelopes

    [crypto/sealed_envelope.cpp], with the key pairs of [crypto/kem.cpp],
    [crypto/x25519.cpp] and [crypto/signature.cpp] it combines: a client encrypts a
    message to a one-time key pair of the server, under the secrets of two key exchanges.
    The primitives themselves are OpenSSL's, an interface here. *)
From S2P Require Import Prelude Types Bytes Sha2 Sha2Spec Hmac Aes AesSpec Aead.
Open Scope Z_scope.

(** ** OpenSSL

    The calls on an [EVP_PKEY]; [None] is a return value that reports failure. A [seed]
    is the randomness a call draws. *)
Class OpenSSL := {
  KemKey : Type;
  kem_raw_public_key : KemKey -> option (list Z);
  EVP_encapsulate : forall (public_key : list Z) (seed : Z), option (list Z * list Z);
  EVP_decapsulate : KemKey -> list Z -> option (list Z);
  EccKey : Type;
  ecc_raw_public_key : EccKey -> option (list Z);
  EVP_derive : EccKey -> list Z -> option (list Z);
  SignKey : Type;
  sign_raw_public_key : SignKey -> option (list Z);
  EVP_sign : SignKey -> list Z -> Z -> option (list Z);
  EVP_verify : forall (public_key message signature : list Z), bool }.

(** What FIPS 203, RFC 7748 and FIPS 204 promise of them: the two sides of a key exchange
    agree, and signatures verify. *)
Class OpenSSLLaws (S : OpenSSL) := {
  kem_correct : forall k pk seed ct ss, kem_raw_public_key k = Some pk ->
    EVP_encapsulate pk seed = Some (ct, ss) -> EVP_decapsulate k ct = Some ss;
  dh_agrees : forall a b pa pb, ecc_raw_public_key a = Some pa -> ecc_raw_public_key b = Some pb ->
    EVP_derive a pb = EVP_derive b pa;
  sign_correct : forall k pk message seed signature, sign_raw_public_key k = Some pk ->
    EVP_sign k message seed = Some signature -> EVP_verify pk message signature = true }.

Module mlkem768.
Definition PUBLIC_KEY_SIZE : nat := Z.to_nat 1184.
Definition CIPHERTEXT_SIZE : nat := Z.to_nat 1088.
Definition SHARED_SECRET_SIZE : nat := 32.
End mlkem768.
Module x25519.
Definition PUBLIC_KEY_SIZE : nat := 32.
Definition SHARED_SECRET_SIZE : nat := 32.
End x25519.
Module mldsa65.
Definition PUBLIC_KEY_SIZE : nat := Z.to_nat 1952.
Definition SIGNATURE_SIZE : nat := Z.to_nat 3309.
End mldsa65.

(** The buffers are resized to the size expected, and emptied when the call fails or
    reports another length. *)
Definition sized (n : nat) (r : option (list Z)) : list Z :=
  match r with
  | Some out => if (length out =? n)%nat then out else []
  | None => []
  end.

Section envelope.
Context `{S : OpenSSL}.

(** ** Key pairs: [pkey_], null when generation failed *)

Definition kem_public_key (pkey_ : option KemKey) : list Z :=
  match pkey_ with None => [] | Some k => sized mlkem768.PUBLIC_KEY_SIZE (kem_raw_public_key k) end.

Definition decapsulate (pkey_ : option KemKey) (ciphertext : list Z) : list Z :=
  match pkey_ with
  | None => []
  | Some k => if negb (length ciphertext =? mlkem768.CIPHERTEXT_SIZE)%nat then []
              else sized mlkem768.SHARED_SECRET_SIZE (EVP_decapsulate k ciphertext)
  end.

(** [KemEncapsulation]: ciphertext and secret when [ok]. *)
Definition encapsulate (public_key : list Z) (seed : Z) : option (list Z * list Z) :=
  if negb (length public_key =? mlkem768.PUBLIC_KEY_SIZE)%nat then None else
  match EVP_encapsulate public_key seed with
  | Some (ct, ss) =>
      if negb (length ct =? mlkem768.CIPHERTEXT_SIZE)%nat || negb (length ss =? mlkem768.SHARED_SECRET_SIZE)%nat
      then None else Some (ct, ss)
  | None => None
  end.

Definition ecc_public_key (pkey_ : option EccKey) : list Z :=
  match pkey_ with None => [] | Some k => sized x25519.PUBLIC_KEY_SIZE (ecc_raw_public_key k) end.

Definition derive_shared (pkey_ : option EccKey) (peer_public : list Z) : list Z :=
  match pkey_ with
  | None => []
  | Some k => if negb (length peer_public =? x25519.PUBLIC_KEY_SIZE)%nat then []
              else sized x25519.SHARED_SECRET_SIZE (EVP_derive k peer_public)
  end.

Definition sign_public_key (pkey_ : option SignKey) : list Z :=
  match pkey_ with None => [] | Some k => sized mldsa65.PUBLIC_KEY_SIZE (sign_raw_public_key k) end.

Definition sign (pkey_ : option SignKey) (message : list Z) (seed : Z) : list Z :=
  match pkey_ with None => [] | Some k => sized mldsa65.SIGNATURE_SIZE (EVP_sign k message seed) end.

Definition verify (public_key message signature : list Z) : bool :=
  if negb (length public_key =? mldsa65.PUBLIC_KEY_SIZE)%nat then false
  else if negb (length signature =? mldsa65.SIGNATURE_SIZE)%nat then false
  else EVP_verify public_key message signature.

(** ** Envelopes *)

Definition SEAL_CONTEXT : str := lit "CHESS-SEAL-1".
Definition KEY_ID_SIZE : nat := 16.
Definition IV_SIZE : nat := 16.

Record SealedEnvelope := mkSealedEnvelope {
  env_key_id : list Z; env_kem_ct : list Z; env_x25519_pk : list Z;
  env_iv : list Z; env_ct : list Z; env_tag : list Z }.

Definition empty_envelope : SealedEnvelope := mkSealedEnvelope [] [] [] [] [] [].

Record SealKeyMaterial := mkSealKeyMaterial {
  mat_key_id : list Z; kem : option KemKey; ecc : option EccKey }.

Record SealKeyOffer := mkSealKeyOffer {
  off_key_id : list Z; kem_ek : list Z; off_x25519_pk : list Z; expires_in : Z; signature : list Z }.

Definition valid (m : SealKeyMaterial) : bool := bool_decide (is_Some (kem m)) && bool_decide (is_Some (ecc m)).

Definition well_formed (e : SealedEnvelope) : bool :=
  (length (env_key_id e) =? KEY_ID_SIZE)%nat && (length (env_kem_ct e) =? mlkem768.CIPHERTEXT_SIZE)%nat &&
  (length (env_x25519_pk e) =? x25519.PUBLIC_KEY_SIZE)%nat && (length (env_iv e) =? IV_SIZE)%nat &&
  (length (env_tag e) =? TAG_SIZE)%nat.

Definition context_bytes : list Z := label_bytes SEAL_CONTEXT.

Definition signing_input (key_id kem_ek x25519_pk : list Z) (expires_in : Z) : list Z :=
  context_bytes ++ kem_ek ++ x25519_pk ++ key_id ++ store_be 4 expires_in.

Definition build_aad (key_id : list Z) : list Z := context_bytes ++ key_id.

Definition build_master (ss_pq ss_cl : list Z) : list Z :=
  let master := repeat 0 (length ss_pq + length ss_cl) in
  let master := memcpy master 0 ss_pq in
  memcpy master (length ss_pq) ss_cl.

(** [key_id], [kem] and [ecc] are what the random generator and the two key generations
    deliver, [seed] the randomness of the signature. *)
Definition mint (identity : option SignKey) (expires_in : Z)
    (key_id : list Z) (kem : option KemKey) (ecc : option EccKey) (seed : Z)
    : option (SealKeyMaterial * SealKeyOffer) :=
  if negb (bool_decide (is_Some identity)) then None else
  let material := mkSealKeyMaterial key_id kem ecc in
  if negb (valid material) then None else
  let ek := kem_public_key kem in
  let pk := ecc_public_key ecc in
  if (length ek =? 0)%nat || (length pk =? 0)%nat then None else
  let msg := signing_input key_id ek pk expires_in in
  let sig := sign identity msg seed in
  if negb (length sig =? mldsa65.SIGNATURE_SIZE)%nat then None
  else Some (material, mkSealKeyOffer key_id ek pk expires_in sig).

Definition verify_offer (identity_pk : list Z) (o : SealKeyOffer) : bool :=
  if negb (length (kem_ek o) =? mlkem768.PUBLIC_KEY_SIZE)%nat then false
  else if negb (length (off_x25519_pk o) =? x25519.PUBLIC_KEY_SIZE)%nat then false
  else if negb (length (off_key_id o) =? KEY_ID_SIZE)%nat then false
  else if negb (length (signature o) =? mldsa65.SIGNATURE_SIZE)%nat then false
  else verify identity_pk (signing_input (off_key_id o) (kem_ek o) (off_x25519_pk o) (expires_in o)) (signature o).

(** The client's side: the verdict and [out]. [ephemeral] and [iv] are drawn at random. *)
Definition seal (o : SealKeyOffer) (payload : list Z) (seed : Z) (ephemeral : option EccKey) (iv : list Z)
    : bool * SealedEnvelope :=
  if negb (length (off_key_id o) =? KEY_ID_SIZE)%nat then (false, empty_envelope) else
  match encapsulate (kem_ek o) seed with
  | None => (false, empty_envelope)
  | Some (ct, ss_pq) =>
      let ss_cl := derive_shared ephemeral (off_x25519_pk o) in
      if (length ss_cl =? 0)%nat then (false, empty_envelope) else
      let master := build_master ss_pq ss_cl in
      let keys := derive_keys master SEAL_CONTEXT in
      let aad := build_aad (off_key_id o) in
      let sealed_bytes := Aead.seal keys iv aad payload in
      let out := mkSealedEnvelope (off_key_id o) ct (ecc_public_key ephemeral) iv in
      if negb (length sealed_bytes =? length payload + TAG_SIZE)%nat then (false, out [] [])
      else (true, out (firstn (length payload) sealed_bytes) (skipn (length payload) sealed_bytes))
  end.

(** The server's side: the verdict and [out_payload]. *)
Definition open (material : SealKeyMaterial) (e : SealedEnvelope) : bool * list Z :=
  if negb (valid material) || negb (well_formed e) then (false, []) else
  if negb (bool_decide (env_key_id e = mat_key_id material)) then (false, []) else
  let ss_pq := decapsulate (kem material) (env_kem_ct e) in
  if (length ss_pq =? 0)%nat then (false, []) else
  let ss_cl := derive_shared (ecc material) (env_x25519_pk e) in
  if (length ss_cl =? 0)%nat then (false, []) else
  let master := build_master ss_pq ss_cl in
  let keys := derive_keys master SEAL_CONTEXT in
  let joined := env_ct e ++ env_tag e in
  let aad := build_aad (env_key_id e) in
  Aead.open keys (env_iv e) aad joined [].
End envelope.

(** ** What a minted key and an opened envelope mean *)

Lemma build_master_spec a b : build_master a b = a ++ b.
Proof.
  unfold build_master. rewrite memcpy_into_zeros by lia. unfold memcpy. rewrite take_app_length.
  f_equal. rewrite drop_ge; [by rewrite app_nil_r|]. rewrite length_app, repeat_length. lia.
Qed.

Lemma sized_cases n r : (exists l, r = Some l /\ length l = n /\ sized n r = l) \/ sized n r = [].
Proof.
  unfold sized. destruct r as [l|]; [|by right]. destruct (Nat.eqb_spec (length l) n); [left; eauto|by right].
Qed.

Lemma sized_ok n r : sized n r <> [] -> r = Some (sized n r) /\ length (sized n r) = n.
Proof. destruct (sized_cases n r) as [(l & -> & Hl & ->)|E]; [done|]. by intros []. Qed.

Lemma nonempty {A} (l : list A) : (length l =? 0)%nat = false -> l <> [].
Proof. intros H ->. done. Qed.

Lemma context_length : length context_bytes = 12%nat.
Proof. reflexivity. Qed.

(** The signature binds every field of an offer: all of them have fixed lengths. *)
Lemma signing_input_inj id id' ek ek' pk pk' e e' :
  length id = length id' -> length ek = length ek' -> length pk = length pk' ->
  0 <= e < 2 ^ 32 -> 0 <= e' < 2 ^ 32 ->
  signing_input id ek pk e = signing_input id' ek' pk' e' -> id = id' /\ ek = ek' /\ pk = pk' /\ e = e'.
Proof.
  intros Hid Hek Hpk He He' E. unfold signing_input in E. apply app_inv_head in E.
  apply app_inj_1 in E as [-> E]; [|done]. apply app_inj_1 in E as [-> E]; [|done].
  apply app_inj_1 in E as [-> E]; [|done]. by apply store_be_inj in E as ->.
Qed.

Section proofs.
Context `{L : OpenSSLLaws}.

(** The keys both sides derive are well sized, whatever the secrets. *)
Definition envelope_keys (ss_pq ss_cl : list Z) : AeadKeys := derive_keys (build_master ss_pq ss_cl) SEAL_CONTEXT.

Lemma envelope_keys_ok a b : length a = 32%nat -> length b = 32%nat -> keys_ok (envelope_keys a b).
Proof.
  intros Ha Hb. apply derive_keys_spec; [|done]. rewrite build_master_spec, length_app. lia.
Qed.

Lemma aad_small id : length id = 16%nat -> Z.of_nat (length (build_aad id)) < 2 ^ 58.
Proof. intros H. unfold build_aad. rewrite length_app, context_length, H. done. Qed.

Lemma valid_spec m : valid m = true <-> exists k e, kem m = Some k /\ ecc m = Some e.
Proof.
  unfold valid. rewrite andb_true_iff, !bool_decide_eq_true. unfold is_Some. split.
  - intros [[k Hk] [e He]]. eauto.
  - intros (k & e & Hk & He). eauto.
Qed.

(** Everything [mint] checks. *)
Lemma mint_spec identity exp id km ec seed material o :
  mint identity exp id km ec seed = Some (material, o) ->
  valid material = true /\ material = mkSealKeyMaterial id km ec /\
  kem_public_key km <> [] /\ ecc_public_key ec <> [] /\
  o = mkSealKeyOffer id (kem_public_key km) (ecc_public_key ec) exp
        (sign identity (signing_input id (kem_public_key km) (ecc_public_key ec) exp) seed) /\
  length (signature o) = mldsa65.SIGNATURE_SIZE /\ is_Some identity.
Proof.
  unfold mint. destruct (bool_decide (is_Some identity)) eqn:Ei; cbn [negb]; [|done].
  destruct (valid _) eqn:Ev; cbn [negb]; [|done].
  destruct (length (kem_public_key km) =? 0)%nat eqn:E1; cbn [orb]; [done|].
  destruct (length (ecc_public_key ec) =? 0)%nat eqn:E2; [done|].
  destruct (Nat.eqb_spec (length (sign identity (signing_input id (kem_public_key km) (ecc_public_key ec) exp) seed))
    mldsa65.SIGNATURE_SIZE) as [E3|]; cbn [negb]; [|done].
  intros [= <- <-]. apply bool_decide_eq_true in Ei. split_and!; try done; by apply nonempty.
Qed.

(** An offer minted is an offer its identity vouches for. *)
Lemma minted_offer_verifies identity exp id km ec seed material o :
  length id = 16%nat -> sign_public_key identity <> [] ->
  mint identity exp id km ec seed = Some (material, o) -> verify_offer (sign_public_key identity) o = true.
Proof.
  intros Hid Hpk (_ & _ & Hek & Hpub & -> & Hsig & [k Hk])%mint_spec. subst identity.
  cbn [signature] in Hsig. unfold verify_offer. cbn [kem_ek off_x25519_pk off_key_id signature expires_in].
  assert (length (kem_public_key km) = mlkem768.PUBLIC_KEY_SIZE) as ->.
  { destruct km; [|done]. by apply sized_ok. }
  assert (length (ecc_public_key ec) = x25519.PUBLIC_KEY_SIZE) as ->.
  { destruct ec; [|done]. by apply sized_ok. }
  rewrite Hid, Hsig, !Nat.eqb_refl. change (16 =? KEY_ID_SIZE)%nat with true. cbn [negb].
  unfold verify. rewrite Hsig, Nat.eqb_refl. cbn [sign_public_key sign] in *.
  destruct (sized_ok _ _ Hpk) as [Epk Hlen]. rewrite Hlen, Nat.eqb_refl. cbn [negb].
  destruct (sized_cases mldsa65.SIGNATURE_SIZE
    (EVP_sign k (signing_input id (kem_public_key km) (ecc_public_key ec) exp) seed)) as [(s & Es & _ & Hs)|E0].
  - rewrite Hs. by apply (sign_correct k _ _ seed).
  - rewrite E0 in Hsig. apply (f_equal Z.of_nat) in Hsig. unfold mldsa65.SIGNATURE_SIZE in Hsig.
    rewrite Z2Nat.id in Hsig by lia. discriminate Hsig.
Qed.

Lemma derive_shared_ok p pk : derive_shared p pk <> [] ->
  exists k, p = Some k /\ EVP_derive k pk = Some (derive_shared p pk) /\ length (derive_shared p pk) = 32%nat /\
    length pk = 32%nat.
Proof.
  unfold derive_shared. destruct p as [k|]; [|done].
  destruct (Nat.eqb_spec (length pk) x25519.PUBLIC_KEY_SIZE) as [Hl|]; cbn [negb]; [|done].
  intros H. destruct (sized_ok _ _ H). eauto.
Qed.

(** The two sides derive the same classical secret. *)
Lemma shared_secret_agrees a b :
  ecc_public_key a <> [] -> ecc_public_key b <> [] ->
  derive_shared a (ecc_public_key b) = derive_shared b (ecc_public_key a).
Proof.
  destruct a as [a|], b as [b|]; try done. cbn [ecc_public_key]. intros Ha Hb.
  destruct (sized_ok _ _ Ha) as [Ea Hla], (sized_ok _ _ Hb) as [Eb Hlb]. unfold derive_shared.
  rewrite Hla, Hlb, Nat.eqb_refl. cbn [negb]. f_equal. by apply dh_agrees.
Qed.

Lemma decapsulate_encapsulate k seed ct ss :
  kem_public_key (Some k) <> [] -> encapsulate (kem_public_key (Some k)) seed = Some (ct, ss) ->
  decapsulate (Some k) ct = ss /\ length ct = mlkem768.CIPHERTEXT_SIZE /\ length ss = 32%nat.
Proof.
  intros Hpk. destruct (sized_ok _ _ Hpk) as [Epk Hl]. unfold encapsulate. cbn [kem_public_key] in *.
  rewrite Hl, Nat.eqb_refl. cbn [negb]. destruct (EVP_encapsulate _ seed) as [[c s]|] eqn:E; [|done].
  destruct (Nat.eqb_spec (length c) mlkem768.CIPHERTEXT_SIZE) as [Hc|]; cbn [negb orb]; [|done].
  destruct (Nat.eqb_spec (length s) mlkem768.SHARED_SECRET_SIZE) as [Hs|]; cbn [negb]; [|done].
  intros [= <- <-]. unfold decapsulate. rewrite Hc, Nat.eqb_refl. cbn [negb].
  rewrite (kem_correct k _ seed c s Epk E). unfold sized. by rewrite Hs, Nat.eqb_refl.
Qed.

(** The server opens what a client sealed to its offer. *)
Lemma open_sealed identity exp id km ec seed material o payload kseed eph iv e :
  length id = 16%nat -> bytes_of_length 16 iv -> Z.of_nat (length payload) < 2 ^ 58 ->
  ecc_public_key eph <> [] ->
  mint identity exp id km ec seed = Some (material, o) ->
  seal o payload kseed eph iv = (true, e) ->
  well_formed e = true /\ open material e = (true, payload).
Proof.
  intros Hid Hiv Hp Heph (Hv & -> & Hek & Hpub & -> & _ & _)%mint_spec.
  pose proof Hv as (k & x & Ek & Ex)%valid_spec. cbn [kem ecc] in Ek, Ex. subst km ec.
  unfold seal. cbn [off_key_id kem_ek off_x25519_pk]. rewrite Hid. cbn [Nat.eqb negb KEY_ID_SIZE].
  destruct (encapsulate _ kseed) as [[ct ss]|] eqn:Ee; [|done].
  destruct (decapsulate_encapsulate k kseed ct ss Hek Ee) as (Hd & Hct & Hss).
  destruct (length (derive_shared eph (ecc_public_key (Some x))) =? 0)%nat eqn:Ed; [done|].
  pose proof (derive_shared_ok _ _ (nonempty _ Ed)) as (ke & -> & _ & Hcl & _).
  set (cl := derive_shared (Some ke) _) in *. fold (envelope_keys ss cl).
  pose proof (envelope_keys_ok ss cl Hss Hcl) as Hk. pose proof (aad_small id Hid) as Haad.
  pose proof (seal_length _ iv (build_aad id) Hk Hiv Haad payload Hp) as Hsl.
  rewrite Hsl. change TAG_SIZE with 48%nat. rewrite Nat.eqb_refl. cbn [negb]. intros [= <-].
  destruct (sized_ok _ _ Heph) as [_ Hpe].
  set (env := mkSealedEnvelope _ _ _ _ _ _). assert (well_formed env = true) as Hw.
  { unfold well_formed, env. cbn [env_key_id env_kem_ct env_x25519_pk env_iv env_tag ecc_public_key].
    rewrite Hid, Hct, Hpe, length_skipn, Hsl, Nat.add_comm, Nat.add_sub, Nat.eqb_refl. by destruct Hiv as [-> _]. }
  split; [done|]. unfold open. rewrite Hv, Hw. unfold env. cbn [negb orb env_key_id mat_key_id env_kem_ct env_x25519_pk kem ecc env_ct env_tag env_iv].
  rewrite (bool_decide_eq_true_2 (id = id)) by done. cbn [negb]. rewrite Hd, Hss. cbn [Nat.eqb].
  change (sized x25519.PUBLIC_KEY_SIZE (ecc_raw_public_key ke)) with (ecc_public_key (Some ke)).
  rewrite (shared_secret_agrees (Some x) (Some ke)) by done. fold cl. rewrite Hcl. cbn [Nat.eqb].
  rewrite firstn_skipn. by apply open_seal.
Qed.

(** An envelope that opens is the sealing of its payload, under the secrets this very key
    pair derives from it, and names that key pair. *)
Lemma open_authentic material e payload :
  Z.of_nat (length (env_ct e)) < 2 ^ 57 -> List.Forall byte_ok (env_iv e) ->
  open material e = (true, payload) ->
  well_formed e = true /\ env_key_id e = mat_key_id material /\
  env_ct e ++ env_tag e =
  Aead.seal (envelope_keys (decapsulate (kem material) (env_kem_ct e)) (derive_shared (ecc material) (env_x25519_pk e)))
    (env_iv e) (build_aad (env_key_id e)) payload.
Proof.
  intros Hct Hiv. unfold open. destruct (valid material); cbn [negb orb]; [|done].
  destruct (well_formed e) eqn:Hw; cbn [negb]; [|done].
  destruct (bool_decide (env_key_id e = mat_key_id material)) eqn:Eid; cbn [negb]; [|done].
  apply bool_decide_eq_true in Eid. set (ss := decapsulate _ _). set (cl := derive_shared _ _).
  destruct (length ss =? 0)%nat eqn:Es; [done|]. destruct (length cl =? 0)%nat eqn:Ec; [done|].
  assert (length ss = 32%nat) as Hss.
  { apply nonempty in Es. unfold ss, decapsulate in *. destruct (kem material); [|done].
    destruct (negb _); [done|]. by apply sized_ok. }
  destruct (derive_shared_ok _ _ (nonempty _ Ec)) as (_ & _ & _ & Hcl & _). fold cl in Hcl.
  pose proof Hw as Hw'. unfold well_formed in Hw'. rewrite !andb_true_iff, !Nat.eqb_eq in Hw'.
  destruct_and! Hw'. intros Ho. split; [done|]. split; [done|].
  eapply open_accepts; [by apply envelope_keys_ok| | | |exact Ho].
  - by split.
  - by apply aad_small.
  - rewrite length_app. unfold TAG_SIZE, Sha384.DIGEST_SIZE in *. lia.
Qed.

(** Refusals leave no plaintext behind. *)
Lemma open_refused material e : fst (open material e) = false -> open material e = (false, []).
Proof.
  unfold open. repeat match goal with |- fst (if ?b then _ else _) = _ -> _ => destruct b; [done|] end.
  intros H. by apply open_refuses.
Qed.
End proofs.
