(* ===== verification/KeyStore.v ===== *)
(** * The store of one-time keys

    [crypto/sealed_key_store.cpp]: key pairs offered to clients, each handed out once,
    dropped when it expires, capped per address and in total. Every critical section of
    the mutex is one operation here, so sequences of operations are the interleavings of
    the threads: [issue] takes the mutex twice and mints in between. *)
From stdpp Require Import gmap strings.
From S2P Require Import Prelude Types Zobrist.
Open Scope Z_scope.

(** [seal::KEY_ID_SIZE]. The map is keyed by the bytes of the identifier, an address is text. *)
Definition SEAL_KEY_ID_SIZE : nat := 16.
Definition id_key_of (key_id : list Z) : list Z := key_id.

Section store.
Context {Material : Type}.

Record Entry := mkEntry { material : Material; expires_at : Z; ip : str }.

Record SealedKeyStore := mkStore {
  ttl_seconds_ : Z;
  max_per_ip_ : Z;
  max_total_ : Z;
  entries_ : gmap (list Z) Entry;
  per_ip_ : gmap (list ascii) Z }.

Definition new_store (ttl per_ip total : Z) : SealedKeyStore := mkStore ttl per_ip total ∅ ∅.

Definition with_maps (s : SealedKeyStore) (entries : gmap (list Z) Entry) (per_ip : gmap (list ascii) Z) :=
  mkStore (ttl_seconds_ s) (max_per_ip_ s) (max_total_ s) entries per_ip.

(** One key less for the address; the counter is a [size_t]. *)
Definition release (client : str) (per_ip : gmap (list ascii) Z) : gmap (list ascii) Z :=
  match per_ip !! client with
  | Some n => let n := wrap64 (n - 1) in if n =? 0 then delete client per_ip else <[client := n]> per_ip
  | None => per_ip
  end.

Definition erase_locked (id_key : list Z) (s : SealedKeyStore) : SealedKeyStore :=
  match entries_ s !! id_key with
  | None => s
  | Some e => with_maps s (delete id_key (entries_ s)) (release (ip e) (per_ip_ s))
  end.

(** The loop over the entries, in the order [visit] in which the hash map yields them. *)
Definition sweep_locked (now : Z) (visit : list (list Z * Entry)) (s : SealedKeyStore) : SealedKeyStore :=
  fold_left (fun s p => if expires_at p.2 <=? now then erase_locked p.1 s else s) visit s.

Definition full (client : str) (s : SealedKeyStore) : bool :=
  (max_total_ s <=? Z.of_nat (size (entries_ s))) ||
  match per_ip_ s !! client with Some n => max_per_ip_ s <=? n | None => false end.

(** [issue], first critical section. *)
Definition issue_admit (now : Z) (visit : list (list Z * Entry)) (client : str) (s : SealedKeyStore)
    : bool * SealedKeyStore :=
  let s := sweep_locked now visit s in (negb (full client s), s).

(** [issue], second critical section, with what [mint] has made: [emplace] keeps an entry
    that is already there. *)
Definition issue_store (now : Z) (client : str) (key_id : list Z) (m : Material) (s : SealedKeyStore)
    : bool * SealedKeyStore :=
  if full client s then (false, s) else
  let entry := mkEntry m (now + ttl_seconds_ s * 1000000000) client in
  let id := id_key_of key_id in
  let entries := match entries_ s !! id with Some _ => entries_ s | None => <[id := entry]> (entries_ s) end in
  let count := default 0 (per_ip_ s !! client) in
  (true, with_maps s entries (<[client := wrap64 (count + 1)]> (per_ip_ s))).

Definition consume (now : Z) (key_id : list Z) (s : SealedKeyStore) : option Material * SealedKeyStore :=
  if negb (length key_id =? SEAL_KEY_ID_SIZE)%nat then (None, s) else
  let id_key := id_key_of key_id in
  match entries_ s !! id_key with
  | None => (None, s)
  | Some e =>
      let expired := expires_at e <=? now in
      let s := erase_locked id_key s in
      if expired then (None, s) else (Some (material e), s)
  end.

Definition outstanding_for (client : str) (s : SealedKeyStore) : Z := default 0 (per_ip_ s !! client).

(** ** Runs *)

Inductive op :=
  | Admit (now : Z) (visit : list (list Z * Entry)) (client : str)
  | Store (now : Z) (client : str) (key_id : list Z) (m : Material)
  | Consume (now : Z) (key_id : list Z)
  | Sweep (now : Z) (visit : list (list Z * Entry)).

Definition exec (o : op) (s : SealedKeyStore) : SealedKeyStore :=
  match o with
  | Admit now visit client => snd (issue_admit now visit client s)
  | Store now client id m => snd (issue_store now client id m s)
  | Consume now id => snd (consume now id s)
  | Sweep now visit => sweep_locked now visit s
  end.

(** A run in which loops visit the entries there are, and identifiers drawn at random are
    not those of keys still in the store. *)
Inductive run : SealedKeyStore -> list op -> SealedKeyStore -> Prop :=
  | run_nil s : run s [] s
  | run_cons o ops s s' :
      match o with
      | Admit _ visit _ | Sweep _ visit => Permutation visit (map_to_list (entries_ s))
      | Store _ _ id _ => entries_ s !! id_key_of id = None
      | Consume _ _ => True
      end -> run (exec o s) ops s' -> run s (o :: ops) s'.

(** ** The invariant *)

Definition of_client (client : str) (entries : gmap (list Z) Entry) : gmap (list Z) Entry :=
  base.filter (fun p => ip p.2 = client) entries.

Definition held (client : str) (s : SealedKeyStore) : Z := Z.of_nat (size (of_client client (entries_ s))).

(** The counters count, and the caps hold. *)
Record store_ok (s : SealedKeyStore) : Prop := {
  so_caps : 0 <= max_per_ip_ s < 2 ^ 64;
  so_total : Z.of_nat (size (entries_ s)) <= Z.max 0 (max_total_ s);
  so_count : forall client, per_ip_ s !! client = if held client s =? 0 then None else Some (held client s);
  so_held : forall client, held client s <= Z.max 1 (max_per_ip_ s) }.

Lemma held_delete id e client s per_ip :
  entries_ s !! id = Some e ->
  held client (with_maps s (delete id (entries_ s)) per_ip) =
  held client s - (if bool_decide (ip e = client) then 1 else 0).
Proof.
  intros H. unfold held, of_client. cbn [entries_ with_maps]. rewrite map_filter_delete.
  destruct (bool_decide_reflect (ip e = client)) as [Hip|Hip].
  - assert (base.filter (fun p => ip p.2 = client) (entries_ s) !! id = Some e) as Hf
      by (apply map_lookup_filter_Some; done).
    rewrite map_size_delete_Some by (by eexists).
    enough (size (base.filter (fun p => ip p.2 = client) (entries_ s)) <> 0%nat) by lia.
    intros Hz%map_size_empty_inv. by rewrite Hz in Hf.
  - rewrite delete_id; [lia|]. apply map_lookup_filter_None. right. intros x Hx. rewrite H in Hx.
    by injection Hx as <-.
Qed.

Lemma held_pos id e s : entries_ s !! id = Some e -> 0 < held (ip e) s.
Proof.
  intros H. pose proof (held_delete id e (ip e) s (per_ip_ s) H) as E.
  rewrite bool_decide_eq_true_2 in E by done. unfold held in *. lia.
Qed.

Lemma erase_ok id s : store_ok s -> store_ok (erase_locked id s).
Proof.
  intros [Hc Ht Hn Hh]. unfold erase_locked. destruct (entries_ s !! id) as [e|] eqn:E; [|done].
  pose proof (held_pos id e s E) as Hpos. split; cbn [max_per_ip_ max_total_ with_maps].
  - done.
  - cbn. rewrite map_size_delete_Some by (by eexists). lia.
  - intros client. rewrite (held_delete id e) by done. cbn [per_ip_ with_maps]. unfold release.
    rewrite Hn, (proj2 (Z.eqb_neq _ _)) by lia. specialize (Hh (ip e)). rewrite wrap64_id by lia.
    destruct (bool_decide_reflect (ip e = client)) as [<-|Hne].
    + destruct (Z.eqb_spec (held (ip e) s - 1) 0); [apply lookup_delete_eq|apply lookup_insert_eq].
    + rewrite Z.sub_0_r, <- Hn. destruct (Z.eqb_spec (held (ip e) s - 1) 0);
        [by apply lookup_delete_ne|by apply lookup_insert_ne].
  - intros client. rewrite (held_delete id e) by done. specialize (Hh client). destruct (bool_decide _); lia.
Qed.

Lemma sweep_ok now visit s : store_ok s -> store_ok (sweep_locked now visit s).
Proof.
  unfold sweep_locked. revert s. induction visit as [|p visit IH]; intros s Hs; cbn [fold_left]; [done|].
  apply IH. destruct (_ <=? _); [by apply erase_ok|done].
Qed.

Lemma issue_store_ok now client id m s :
  store_ok s -> entries_ s !! id_key_of id = None -> store_ok (snd (issue_store now client id m s)).
Proof.
  intros Hs Hf. unfold issue_store. destruct (full client s) eqn:E; [done|]. rewrite Hf. cbn [snd].
  destruct Hs as [Hc Ht Hn Hh]. unfold full in E. apply orb_false_iff in E as [E1 E2].
  rewrite Hn in E2. rewrite Hn. set (s' := with_maps s _ _).
  assert (forall c, held c s' = held c s + (if bool_decide (client = c) then 1 else 0)) as Hheld.
  { intros c. unfold held, of_client, s'. cbn [entries_ with_maps].
    destruct (bool_decide_reflect (client = c)) as [Hec|Hne].
    - rewrite map_filter_insert_True by done. rewrite map_size_insert_None; [lia|].
      apply map_lookup_filter_None. by left.
    - rewrite map_filter_insert_False, delete_id by done. lia. }
  assert (held client s + 1 <= Z.max 1 (max_per_ip_ s)) as Hlt
    by (destruct (Z.eqb_spec (held client s) 0); bool_hyps; lia).
  assert (0 <= held client s) by (unfold held; lia).
  split; unfold s'; cbn [max_per_ip_ max_total_ entries_ with_maps]; fold s'.
  - done.
  - rewrite map_size_insert_None by done. bool_hyps. lia.
  - intros c. rewrite Hheld. unfold s' at 1. cbn [per_ip_ with_maps]. destruct (bool_decide_reflect (client = c)) as [<-|Hne].
    + rewrite lookup_insert_eq. rewrite (proj2 (Z.eqb_neq (held client s + 1) 0)) by lia. f_equal.
      destruct (Z.eqb_spec (held client s) 0) as [->|Hz]; cbn [default]; [done|]. apply wrap64_id. lia.
    + rewrite lookup_insert_ne, Z.add_0_r by done. apply Hn.
  - intros c. rewrite Hheld. specialize (Hh c). destruct (bool_decide_reflect (client = c)) as [<-|]; lia.
Qed.

Lemma new_store_ok ttl per_ip total : 0 <= per_ip < 2 ^ 64 -> store_ok (new_store ttl per_ip total).
Proof.
  intros H. assert (forall client, held client (new_store ttl per_ip total) = 0) as Hz.
  { intros client. unfold held, of_client, new_store. cbn [entries_]. by rewrite map_filter_empty, map_size_empty. }
  split; [done| |intros client; by rewrite Hz|intros client; rewrite Hz; lia].
  cbn. rewrite map_size_empty. lia.
Qed.

Lemma store_exec_ok o s :
  store_ok s -> match o with Store _ _ id _ => entries_ s !! id_key_of id = None | _ => True end -> store_ok (exec o s).
Proof.
  intros Hs Ho. destruct o as [now visit client|now client id m|now id|now visit]; cbn [exec].
  - by apply sweep_ok.
  - by apply issue_store_ok.
  - unfold consume. destruct (negb _); [done|]. destruct (entries_ s !! _); [|done].
    destruct (_ <=? _); by apply erase_ok.
  - by apply sweep_ok.
Qed.

Lemma store_run_ok s ops s' : run s ops s' -> store_ok s -> store_ok s'.
Proof.
  induction 1 as [|o ops s s' Ho _ IH]; [done|]. intros Hs. apply IH, store_exec_ok; [done|]. by destruct o.
Qed.

(** ** Sweeping, consuming, and keys used once *)

Lemma erase_lookup id s k : entries_ (erase_locked id s) !! k = if decide (k = id) then None else entries_ s !! k.
Proof.
  unfold erase_locked. destruct (entries_ s !! id) as [e|] eqn:E; cbn [entries_ with_maps].
  - case_decide as Hk; [subst; apply lookup_delete_eq|by apply lookup_delete_ne].
  - case_decide; [by subst|done].
Qed.

(** The sweep removes the entries visited that have expired, whatever the order. *)
Lemma sweep_lookup now visit s k :
  entries_ (sweep_locked now visit s) !! k =
  if existsb (fun p => bool_decide (p.1 = k) && (expires_at p.2 <=? now)) visit then None else entries_ s !! k.
Proof.
  unfold sweep_locked. revert s. induction visit as [|p visit IH]; intros s; cbn [fold_left existsb]; [done|].
  rewrite IH. destruct (existsb _ visit); [by rewrite orb_true_r|]. rewrite orb_false_r.
  destruct (expires_at p.2 <=? now); [|by rewrite andb_false_r]. rewrite andb_true_r, erase_lookup.
  destruct (bool_decide_reflect (p.1 = k)), (decide (k = p.1)); congruence.
Qed.

Lemma sweep_spec now visit s :
  Permutation visit (map_to_list (entries_ s)) ->
  entries_ (sweep_locked now visit s) = base.filter (fun p => now < expires_at p.2) (entries_ s).
Proof.
  intros Hp. apply map_eq. intros k. rewrite sweep_lookup.
  destruct (existsb _ visit) eqn:E.
  - apply existsb_exists in E as ([i e] & Hin & He). bool_hyps. cbn in *. subst i. symmetry.
    apply map_lookup_filter_None. right. intros x Hx.
    rewrite (perm_in_iff Hp), <- list_elem_of_In, elem_of_map_to_list in Hin. rewrite Hx in Hin.
    injection Hin as ->. cbn. lia.
  - destruct (entries_ s !! k) as [e|] eqn:Ek.
    + symmetry. apply map_lookup_filter_Some. split; [done|]. cbn.
      destruct (Z.lt_ge_cases now (expires_at e)) as [|Hge]; [done|].
      enough (existsb (fun p => bool_decide (p.1 = k) && (expires_at p.2 <=? now)) visit = true) by congruence.
      apply existsb_exists. exists (k, e). split.
      * rewrite (perm_in_iff Hp), <- list_elem_of_In. by apply elem_of_map_to_list.
      * cbn. rewrite bool_decide_eq_true_2 by done. by apply Z.leb_le.
    + symmetry. apply map_lookup_filter_None. by left.
Qed.

(** What [consume] answers, and that the key is gone whatever it answers. *)
Lemma consume_spec now id s :
  fst (consume now id s) =
    (if (length id =? SEAL_KEY_ID_SIZE)%nat then
       match entries_ s !! id with
       | Some e => if expires_at e <=? now then None else Some (material e)
       | None => None
       end else None) /\
  (length id = SEAL_KEY_ID_SIZE -> entries_ (snd (consume now id s)) = delete id (entries_ s)).
Proof.
  unfold consume, id_key_of. destruct (Nat.eqb_spec (length id) SEAL_KEY_ID_SIZE) as [Hl|Hl]; cbn [negb]; [|done].
  destruct (entries_ s !! id) as [e|] eqn:E; cbn [fst snd].
  - split; [by destruct (_ <=? _)|]. intros _. unfold erase_locked. rewrite E. by destruct (_ <=? _).
  - split; [done|]. intros _. by rewrite delete_id.
Qed.

(** A key that is not there stays away until it is stored again. *)
Lemma exec_absent o s id :
  entries_ s !! id = None -> match o with Store _ _ id' _ => id' <> id | _ => True end ->
  entries_ (exec o s) !! id = None.
Proof.
  intros H Ho. destruct o as [now visit client|now client id' m|now id'|now visit]; cbn [exec].
  - cbn [issue_admit snd]. rewrite sweep_lookup. by destruct (existsb _ _).
  - unfold issue_store. destruct (full client s); [done|]. cbn [snd entries_ with_maps]. unfold id_key_of.
    destruct (entries_ s !! id'); [done|]. by rewrite lookup_insert_ne.
  - unfold consume. destruct (negb _); [done|]. destruct (entries_ s !! id_key_of id') as [e|]; [|exact H].
    destruct (_ <=? _); cbn [snd]; rewrite erase_lookup; by case_decide.
  - rewrite sweep_lookup. by destruct (existsb _ _).
Qed.

Lemma absent_run ops s id :
  entries_ s !! id = None -> List.Forall (fun o => match o with Store _ _ id' _ => id' <> id | _ => True end) ops ->
  entries_ (fold_left (fun s o => exec o s) ops s) !! id = None.
Proof.
  intros H Ho. revert s H. induction Ho as [|o ops Ho _ IH]; intros s H; cbn [fold_left]; [done|].
  apply IH. by apply exec_absent.
Qed.
End store.
Arguments Entry : clear implicits.
Arguments SealedKeyStore : clear implicits.
Arguments op : clear implicits.
