(* ===== verification/Json.v ===== *)
(** * The JSON library as the server uses it

    [nlohmann::json] is third-party code: an interface. Objects are maps from names to
    values. [json_parse] is [None] for a text that is no JSON, where the code either gets a
    discarded value or an exception whose text is [json_what]; [json_dump] is [None] for a
    value with text that is not UTF-8, where the library throws. The second part is an
    instance, at which the theorems about the gateway are evaluated. *)
From stdpp Require Import gmap strings.
From S2P Require Import Prelude Types Fen Notation.
Open Scope Z_scope.

Class Json := {
  json : Type;
  json_parse : str -> option json;
  json_what : str -> str;
  json_dump : json -> option str;
  get_object : json -> option (gmap (list ascii) json);
  get_string : json -> option str;
  of_object : gmap (list ascii) json -> json;
  of_string : str -> json;
  of_int : Z -> json
}.

(** [find] or [operator[]] on a value that may be no object. *)
Definition field `{Json} (name : str) (j : json) : option json := get_object j ≫= lookup name.

(** A string field of an object. *)
Definition string_field `{Json} (name : str) (j : json) : option str := field name j ≫= get_string.

(** Letters, digits and underscores are printed as they are. *)
Definition plain_char (c : ascii) : bool :=
  let n := N_of_ascii c in
  (((48 <=? n) && (n <=? 57)) || ((65 <=? n) && (n <=? 90)) || (n =? 95) || ((97 <=? n) && (n <=? 122)))%N.
Definition plain (s : str) : bool := forallb plain_char s.

Definition quoted (s : str) : str := quote :: s ++ [quote].

(** What RFC 8259 and the library's documentation promise. An object is printed as its
    members between braces; a member in front of printed members is a member of what is
    parsed; whatever has been parsed can be printed, also after members were removed. *)
Class JsonLaws (J : Json) := {
  get_of_object : forall m, get_object (of_object m) = Some m;
  get_of_string : forall s, get_string (of_string s) = Some s /\ get_object (of_string s) = None;
  dump_plain : forall s, plain s = true -> json_dump (of_string s) = Some (quoted s);
  dump_object : forall m text, json_dump (of_object m) = Some text ->
    exists members, text = lit "{" ++ members ++ lit "}" /\ (members = [] <-> m = ∅);
  dump_parsed : forall text j m k, json_parse text = Some j -> get_object j = Some m ->
    is_Some (json_dump (of_object (delete k m)));
  parse_member : forall k v m members tk tv,
    json_dump (of_string k) = Some tk -> json_dump v = Some tv ->
    json_dump (of_object m) = Some (lit "{" ++ members ++ lit "}") -> m !! k = None ->
    exists j, json_parse (lit "{" ++ tk ++ lit ":" ++ tv ++
                match members with [] => [] | _ => lit "," ++ members end ++ lit "}") = Some j /\
      get_object j = Some (<[k := v]> m)
}.

(** ** A JSON library that keeps the laws

    Strings and objects of RFC 8259, printed and parsed (numbers as strings): the instance of [Json] at which the
    theorems about the gateway are evaluated. *)
From stdpp Require Import gmap strings.
From S2P Require Import Prelude Types Fen Notation.
Open Scope Z_scope.

#[warnings="-register-all"]
Inductive Tree := TStr (s : list ascii) | TObj (l : list (list ascii * Tree)).

Definition backslash : ascii := "\"%char.

Definition escape (s : list ascii) : list ascii :=
  flat_map (fun c => if Ascii.eqb c quote || Ascii.eqb c backslash then [backslash; c] else [c]) s.

Definition label (k : list ascii) : list ascii := quoted (escape k) ++ lit ":".

Fixpoint show (t : Tree) : list ascii :=
  match t with
  | TStr s => quoted (escape s)
  | TObj l =>
      lit "{" ++
      (fix members l :=
         match l with
         | [] => []
         | (k, v) :: l => label k ++ show v ++ match l with [] => [] | _ => lit "," ++ members l end
         end) l ++ lit "}"
  end.

Fixpoint members (l : list (list ascii * Tree)) : list ascii :=
  match l with
  | [] => []
  | (k, v) :: l => label k ++ show v ++ match l with [] => [] | _ => lit "," ++ members l end
  end.

Lemma show_object l : show (TObj l) = lit "{" ++ members l ++ lit "}".
Proof. reflexivity. Qed.

Lemma members_cons k v l :
  members ((k, v) :: l) = label k ++ show v ++ match l with [] => [] | _ => lit "," ++ members l end.
Proof. reflexivity. Qed.

(** The rest of a string, after its opening quote. *)
Fixpoint chars (s : list ascii) : option (list ascii * list ascii) :=
  match s with
  | [] => None
  | c :: s =>
      if Ascii.eqb c quote then Some ([], s) else
      if Ascii.eqb c backslash then
        match s with
        | [] => None
        | c :: s => match chars s with Some (t, r) => Some (c :: t, r) | None => None end
        end
      else match chars s with Some (t, r) => Some (c :: t, r) | None => None end
  end.

(** A value, and the members of an object after its brace. *)
Fixpoint read_value (n : nat) (s : list ascii) : option (Tree * list ascii) :=
  match n with
  | O => None
  | S n =>
      match s with
      | c :: s =>
          if Ascii.eqb c quote then '(t, r) ← chars s; Some (TStr t, r) else
          if Ascii.eqb c "{" then '(l, r) ← read_members n s; Some (TObj l, r) else None
      | [] => None
      end
  end
with read_members (n : nat) (s : list ascii) : option (list (list ascii * Tree) * list ascii) :=
  match n with
  | O => None
  | S n =>
      match s with
      | c :: s =>
          if Ascii.eqb c "}" then Some ([], s) else
          if negb (Ascii.eqb c quote) then None else
          '(k, r) ← chars s;
          match r with
          | ":"%char :: r =>
              '(v, r) ← read_value n r;
              match r with
              | ","%char :: r => '(l, r) ← read_members n r; Some ((k, v) :: l, r)
              | "}"%char :: r => Some ([(k, v)], r)
              | _ => None
              end
          | _ => None
          end
      | [] => None
      end
  end.

Definition read (s : list ascii) : option Tree :=
  match read_value (S (length s)) s with Some (t, []) => Some t | _ => None end.

(** ** What is printed is read *)

Lemma chars_escape s rest : chars (escape s ++ quote :: rest) = Some (s, rest).
Proof.
  induction s as [|c s IH]; [reflexivity|]. unfold escape in *. cbn [flat_map].
  destruct (Ascii.eqb c quote) eqn:E1; cbn [orb].
  - apply Ascii.eqb_eq in E1 as ->. cbn. by rewrite IH.
  - destruct (Ascii.eqb c backslash) eqn:E2; cbn.
    + apply Ascii.eqb_eq in E2 as ->. by rewrite IH.
    + rewrite E1, E2. by rewrite IH.
Qed.

Lemma read_show n :
  (forall t rest, (length (show t) <= n)%nat -> read_value n (show t ++ rest) = Some (t, rest)) /\
  (forall l rest, (length (members l) < n)%nat -> read_members n (members l ++ lit "}" ++ rest) = Some (l, rest)).
Proof.
  induction n as [|n [IHv IHm]]; split.
  - intros [s|l] rest; cbn; lia.
  - intros l rest. lia.
  - intros [s|l] rest Hn.
    + cbn [show quoted app]. rewrite <- app_assoc. cbn [app read_value]. rewrite Ascii.eqb_refl. by rewrite chars_escape.
    + rewrite show_object in Hn |- *. rewrite !length_app in Hn. cbn [length lit] in Hn.
      rewrite <- !app_assoc. change (lit "{") with ["{"%char] in *. cbn [app read_value].
      rewrite IHm by (cbn in Hn; lia). reflexivity.
  - intros [|[k v] l] rest Hn; [reflexivity|]. cbn [members] in *. rewrite !length_app in Hn.
    unfold label, quoted in *. rewrite <- !app_assoc. cbn [app read_members].
    change (Ascii.eqb quote "}") with false. rewrite Ascii.eqb_refl. cbn [negb].
    rewrite <- !app_assoc. cbn [app]. rewrite chars_escape. cbn [mbind option_bind]. cbn [length] in Hn.
    rewrite length_app in Hn. cbn in Hn. change (lit ":") with [":"%char]. cbn [app].
    rewrite IHv by lia. cbn [mbind option_bind]. destruct l as [|p l]; [reflexivity|].
    change (lit ",") with [","%char]. cbn [app]. rewrite IHm; [reflexivity|].
    cbn [length] in Hn. rewrite length_app in Hn. cbn [length lit] in Hn. lia.
Qed.

Lemma read_shown t : read (show t) = Some t.
Proof.
  unfold read. rewrite <- (app_nil_r (show t)) at 2. by rewrite (proj1 (read_show _) t []) by lia.
Qed.

(** ** The instance *)

Definition text_library : Json := {|
  json := Tree; json_parse := read; json_what := fun _ => []; json_dump := fun t => Some (show t);
  get_object := fun t => match t with TObj l => Some (list_to_map l) | _ => None end;
  get_string := fun t => match t with TStr s => Some s | _ => None end;
  of_object := fun m => TObj (map_to_list m);
  of_string := TStr; of_int := fun z => TStr (to_string z)
|}.

Lemma escape_plain s : plain s = true -> escape s = s.
Proof.
  unfold plain, escape. induction s as [|c s IH]; [done|]. cbn [forallb flat_map]. intros [Hc Hs]%andb_true_iff.
  rewrite IH by done. destruct (Ascii.eqb_spec c quote) as [->|]; [discriminate Hc|].
  by destruct (Ascii.eqb_spec c backslash) as [->|]; [discriminate Hc|].
Qed.

Lemma members_nil l : members l = [] <-> l = [].
Proof. by destruct l as [|[k v] l]. Qed.

Lemma text_library_laws : JsonLaws text_library.
Proof.
  split.
  - intros m. cbn. by rewrite list_to_map_to_list.
  - done.
  - intros s Hs. cbn. by rewrite escape_plain.
  - intros m text [= <-]. exists (members (map_to_list m)). split; [done|]. by rewrite members_nil, map_to_list_empty_iff.
  - intros text j m k _ _. by eexists.
  - intros k v m ms tk tv [= <-] [= <-] Hm Hk. apply (f_equal (default [])) in Hm.
    change (lit "{" ++ members (map_to_list m) ++ lit "}" = lit "{" ++ ms ++ lit "}") in Hm.
    apply app_inv_head, app_inv_tail in Hm. subst ms.
    exists (TObj ((k, v) :: map_to_list m)). split; [|cbn; by rewrite list_to_map_to_list].
    rewrite <- (read_shown (TObj ((k, v) :: map_to_list m))). cbn [text_library json_parse]. f_equal.
    rewrite show_object, members_cons. unfold label. rewrite <- !app_assoc. do 4 f_equal.
    pose proof (members_nil (map_to_list m)) as Hn. destruct (map_to_list m) as [|p l]; [done|].
    destruct (members (p :: l)) as [|c ms] eqn:Em; [by discriminate (proj1 Hn eq_refl)|done].
Qed.
