(* ===== verification/SealedRegistry.v ===== *)
(** * The registry of sealed message types: src/src/crypto/sealed_registry.cpp

    Which message types must arrive in an envelope, the offer of a key, and what becomes of
    a message of such a type: [inspect]. The store of keys is [KeyStore]'s; [now] is its
    clock, in nanoseconds. [issue] of the store is its two critical sections with the
    minting between them. *)
From stdpp Require Import gmap strings.
From S2P Require Import Prelude Types Fen Notation Bytes Base64 Credentials Aead SealedEnvelope KeyStore Json.
Open Scope Z_scope.

(** The verdict; [Threw] when the library cannot print the rewritten message. *)
Inductive Outcome := NotSealed | Opened | Rejected | Threw.

#[export] Instance Outcome_eq : EqDecision Outcome.
Proof. solve_decision. Defined.

Definition TYPE : list ascii := lit "type".

(** [auth_type]: the types whose payload must name its type. *)
Definition AUTH_TYPES : list str :=
  [lit "login"; lit "register"; lit "google_auth"; lit "request_password_reset"; lit "reset_password";
   lit "verify_email"; lit "set_recovery_email"; lit "link_google"].
Definition auth_type (type : str) : bool := bool_decide (type ∈ AUTH_TYPES).

Section registry.
Context `{S : OpenSSL} `{J : Json}.
Notation Store := (SealedKeyStore SealKeyMaterial).

Record SealedRegistry := mkRegistry {
  identity_ : option SignKey; store_ : Store; required_ : gset (list ascii)
}.

Definition new_registry (identity : option SignKey) (store : Store) : SealedRegistry := mkRegistry identity store ∅.
Definition with_store (store : Store) (r : SealedRegistry) : SealedRegistry := mkRegistry (identity_ r) store (required_ r).

Definition require_sealed (type : str) (r : SealedRegistry) : SealedRegistry :=
  mkRegistry (identity_ r) (store_ r) ({[type]} ∪ required_ r).
Definition is_required (type : str) (r : SealedRegistry) : bool := bool_decide (type ∈ required_ r).

(** ** Offers *)

(** [SealedKeyStore::issue]: [now] at each critical section, what the generators of random
    numbers and keys deliver, the order in which the sweep visits the entries. *)
Definition issue (identity : option SignKey) (now later : Z) (visit : list (list Z * Entry SealKeyMaterial)) (client_ip : str)
    (key_id : list Z) (kem : option KemKey) (ecc : option EccKey) (seed : Z) (s : Store) : option SealKeyOffer * Store :=
  let '(admitted, s) := issue_admit now visit client_ip s in
  if negb admitted then (None, s) else
  match mint identity (ttl_seconds_ s) key_id kem ecc seed with
  | None => (None, s)
  | Some (material, offer) =>
      let '(stored, s) := issue_store later client_ip (off_key_id offer) material s in
      (if stored then Some offer else None, s)
  end.

(** A member [,"name":] and what follows the colon. *)
Definition member (name : str) (value : str) : str := lit "," ++ quoted name ++ lit ":" ++ value.
Definition b64_member (name : str) (bytes : list Z) : str := member name (quoted (encode_base64 bytes)).

(** The reply to a [seal_request], empty when the client is refused. *)
Definition handle_seal_request (now later : Z) (visit : list (list Z * Entry SealKeyMaterial)) (client_ip : str)
    (key_id : list Z) (kem : option KemKey) (ecc : option EccKey) (seed : Z) (r : SealedRegistry) : str * SealedRegistry :=
  let '(offer, s) := issue (identity_ r) now later visit client_ip key_id kem ecc seed (store_ r) in
  let r := with_store s r in
  match offer with
  | None => ([], r)
  | Some o =>
      (lit "{" ++ quoted TYPE ++ lit ":" ++ quoted (lit "seal_key") ++
       b64_member (lit "identity_pk") (sign_public_key (identity_ r)) ++
       b64_member (lit "key_id") (off_key_id o) ++ b64_member (lit "kem_ek") (kem_ek o) ++
       b64_member (lit "x25519_pk") (off_x25519_pk o) ++
       member (lit "expires_in") (to_string (expires_in o)) ++
       b64_member (lit "signature") (signature o) ++ lit "}", r)
  end.

(** ** Messages *)

Definition read_b64 (obj : json) (name : str) (expected_len : nat) : option (list Z) :=
  match string_field name obj with
  | None => None
  | Some text => decode_base64 text (Z.of_nat expected_len)
  end.

(** The envelope in the message: [None] where [inspect] rejects before it asks the store. *)
Definition read_envelope (message : str) : option SealedEnvelope :=
  root ← json_parse message;
  s ← field (lit "sealed") root;
  _ ← get_object s;
  key_id ← read_b64 s (lit "key_id") KEY_ID_SIZE;
  kem_ct ← read_b64 s (lit "kem_ct") mlkem768.CIPHERTEXT_SIZE;
  x25519_pk ← read_b64 s (lit "x25519_pk") x25519.PUBLIC_KEY_SIZE;
  iv ← read_b64 s (lit "iv") IV_SIZE;
  tag ← read_b64 s (lit "tag") TAG_SIZE;
  ct ← read_b64 s (lit "ct") 0;
  Some (mkSealedEnvelope key_id kem_ct x25519_pk iv ct tag).

(** The type inside the payload is that of the route, or missing where that is allowed. *)
Definition inner_type_ok (type : str) (body : gmap (list ascii) json) : bool :=
  match body !! TYPE with
  | None => negb (auth_type type)
  | Some v => bool_decide (get_string v = Some type)
  end.

(** The message as the route receives it: the type, then the other members. *)
Definition rewrite_message (type : str) (body : gmap (list ascii) json) : option str :=
  match json_dump (of_object (delete TYPE body)), json_dump (of_string type) with
  | Some dumped, Some type_text =>
      Some (lit "{" ++ quoted TYPE ++ lit ":" ++ type_text ++
            (if (2 <? length dumped)%nat then lit "," ++ skipn 1 dumped else lit "}"))
  | _, _ => None
  end.

(** What happens to an opened payload. *)
Definition accept_plaintext (type : str) (payload : list Z) : Outcome * str :=
  match json_parse (of_bytes payload) ≫= get_object with
  | None => (Rejected, [])
  | Some body =>
      if negb (inner_type_ok type body) then (Rejected, []) else
      match rewrite_message type body with
      | None => (Threw, [])
      | Some out => (Opened, out)
      end
  end.

Definition inspect (now : Z) (type message : str) (r : SealedRegistry) : (Outcome * str) * SealedRegistry :=
  if negb (is_required type r) then ((NotSealed, []), r) else
  match read_envelope message with
  | None => ((Rejected, []), r)
  | Some env =>
      match consume now (env_key_id env) (store_ r) with
      | (None, s) => ((Rejected, []), with_store s r)
      | (Some material, s) =>
          let r := with_store s r in
          match open material env with
          | (false, _) => ((Rejected, []), r)
          | (true, payload) => (accept_plaintext type payload, r)
          end
      end
  end.
End registry.
