(* ===== verification/IdentityExtractor.v ===== *)
(** * Who is calling: src/src/application/auth/identity_extractor.cpp

    [extract] reads the access token of a message and the player it names. [leased] is the
    answer of the pool of read connections: [None] without a pool, else whether it has a
    session. The result type is that of [application/result.h]. *)
From stdpp Require Import gmap strings.
From S2P Require Import Prelude Types Notation Storage AccountStore Token Json.
Open Scope Z_scope.

(** ** Results *)

Inductive ResultCode := Ok | Unauthorized | NotFound | Unavailable | Conflict | InvalidInput | NotYourTurn | IllegalMove | RateLimited.

#[export] Instance ResultCode_eq : EqDecision ResultCode.
Proof. solve_decision. Defined.

(** [value] is only meaningful when the code is [Ok]. *)
Record Result (T : Type) := mkResult { code : ResultCode; reason : str; value : option T }.
Arguments mkResult {T}. Arguments code {T}. Arguments reason {T}. Arguments value {T}.

Definition ok {T} (v : T) : Result T := mkResult Ok [] (Some v).
Definition err {T} (c : ResultCode) (why : str) : Result T := mkResult c why None.
Definition is_ok {T} (r : Result T) : bool := bool_decide (code r = Ok).

(** ** Identities *)

Record AuthenticatedIdentity := mkAuthenticated { id_player : Z; id_username : str; id_elo : Z }.

(** [db_] and [signer_] may be null. *)
Record IdentityExtractor := mkExtractor { db_ : bool; signer_ : option (list Z) }.

Definition fail (message : str) : Result AuthenticatedIdentity := err Unauthorized message.

Definition NOT_CONFIGURED : str := lit "Authentication is not configured on this server".
(** The em dash of the source, in UTF-8. *)
Definition DASH : str := map ascii_of_N [226; 128; 148]%N.
Definition MISSING_TOKEN : str := lit "Missing 'access_token' " ++ DASH ++ lit " please sign in".
Definition BAD_SESSION : str := lit "Session invalid or expired " ++ DASH ++ lit " please sign in again".
Definition NO_ACCOUNT : str := lit "Account no longer exists " ++ DASH ++ lit " please sign in again".
Definition RETRY : str := lit "Authentication is temporarily unavailable. Please retry; you are not signed out.".

Section extractor.
Context `{JC : ClaimsJson} `{J : Json}.

Definition extract (x : IdentityExtractor) (now : Z) (leased : option bool) (msg : json)
    : IO AccountTables (Result AuthenticatedIdentity) :=
  if negb (db_ x) then mret (fail NOT_CONFIGURED) else
  match signer_ x with
  | None => mret (fail NOT_CONFIGURED)
  | Some key =>
      match string_field (lit "access_token") msg with
      | None => mret (fail MISSING_TOKEN)
      | Some token =>
          match verify_access key token now with
          | None => mret (fail BAD_SESSION)
          | Some claims =>
              if bool_decide (leased = Some false) then mret (err Unavailable RETRY) else
              profile ← exec (select (find_player (player_id claims)));
              mret (match profile : string + list PlayerRow with
                    | inl _ => err Unavailable RETRY
                    | inr [] => fail NO_ACCOUNT
                    | inr (p :: _) =>
                        if negb (pl_epoch p =? token_epoch claims) then fail BAD_SESSION
                        else ok (mkAuthenticated (player_id claims) (pl_username p) (pl_elo p))
                    end)
          end
      end
  end.
End extractor.
