(* ===== verification/RequestPipeline.v ===== *)
(** * From a message to a route: src/src/protocol/request_pipeline.cpp

    The stages a message of a connection passes before a route sees it, the routes the
    handlers register and the wiring of main.cpp. A route function is identified by its type: that it is called
    is an outcome, [Call] or [CallRaw]. *)
From stdpp Require Import gmap strings.
From S2P Require Import Prelude Types Notation WebSocket Storage AccountStore Token SealedEnvelope KeyStore Json SealedRegistry IdentityExtractor.
Open Scope Z_scope.

(** ** Policies *)

Inductive AuthRequirement := AuthNone | AuthRequired.
Inductive SealRequirement := SealNone | SealRequired.

#[export] Instance AuthRequirement_eq : EqDecision AuthRequirement.
Proof. solve_decision. Defined.

#[export] Instance SealRequirement_eq : EqDecision SealRequirement.
Proof. solve_decision. Defined.

Record RoutePolicy := mkPolicy { policy_type : str; auth : AuthRequirement; seal : SealRequirement }.

#[export] Instance RoutePolicy_eq : EqDecision RoutePolicy.
Proof. solve_decision. Defined.

Inductive SealOutcome := SealContinue | SealRewritten | SealRejected.

#[export] Instance SealOutcome_eq : EqDecision SealOutcome.
Proof. solve_decision. Defined.

Record ConnectionHandle := mkHandle { fd : Z; generation : Z }.

(** [trace_id] stays empty. *)
Record RequestContext := mkContext {
  caller : ConnectionHandle; identity : option AuthenticatedIdentity; received_at_unix : Z
}.

(** What is read from outside while a request is served: the wall clock at arrival and at
    the check of the token, the pool of connections. *)
Record Moment := mkMoment { arrived : Z; unix_now : Z; leased : option bool }.

Section pipeline.
Context `{JC : ClaimsJson} `{J : Json} {St : Type}.

(** What the connection experiences. [Raised]: an exception leaves the handler. *)
Inductive Reaction :=
  | Silent | Reply (frame : str) | Raised
  | Call (type : str) (ctx : RequestContext) (msg : json) (request_id : str)
  | CallRaw (type message : str).

(** [SealOpenFn]: outcome and rewritten message, [None] for an exception, and the state it
    works on. *)
Definition SealOpenFn : Type := str -> str -> St -> option (SealOutcome * str) * St.

Record RequestPipeline := mkPipeline {
  identity_ : option IdentityExtractor; seal_open_ : option SealOpenFn;
  typed_entries_ : gmap (list ascii) RoutePolicy; raw_entries_ : gmap (list ascii) RoutePolicy
}.

Definition new_pipeline (identity : option IdentityExtractor) (seal_open : option SealOpenFn) : RequestPipeline :=
  mkPipeline identity seal_open ∅ ∅.
Definition register_route (policy : RoutePolicy) (p : RequestPipeline) : RequestPipeline :=
  mkPipeline (identity_ p) (seal_open_ p) (<[policy_type policy := policy]> (typed_entries_ p)) (raw_entries_ p).
Definition register_raw_route (policy : RoutePolicy) (p : RequestPipeline) : RequestPipeline :=
  mkPipeline (identity_ p) (seal_open_ p) (typed_entries_ p) (<[policy_type policy := policy]> (raw_entries_ p)).

(** ** Replies *)

Definition REQUEST_ID : str := lit "request_id".

(** [CorrelatedSink]: the identifier of the request, empty if it has none of at most 128
    characters; and the frame its [send] passes on. *)
Definition correlation (request : json) : str :=
  match string_field REQUEST_ID request with
  | Some id => if (length id <=? 128)%nat then id else []
  | None => []
  end.

Definition correlated_send (request_id frame : str) : Reaction :=
  if bool_decide (request_id = []) then Reply frame else
  match json_parse frame ≫= get_object with
  | None => Reply frame
  | Some response =>
      match json_dump (of_object (<[REQUEST_ID := of_string request_id]> response)) with
      | Some text => Reply text
      | None => Raised
      end
  end.

Definition kAuthRequiredCode : str := lit "auth_required".

(** The objects of [send_error] and [send_auth_error]; [sink] is [Reply] or a
    [correlated_send]. *)
Definition error_object (message : str) : gmap (list ascii) json :=
  <[lit "type" := of_string (lit "error")]> (<[lit "message" := of_string message]> ∅).
Definition send_object (sink : str -> Reaction) (o : gmap (list ascii) json) : Reaction :=
  match json_dump (of_object o) with Some text => sink text | None => Raised end.

Definition send_error (sink : str -> Reaction) (message : str) : Reaction := send_object sink (error_object message).
Definition send_auth_error (sink : str -> Reaction) (message : str) : Reaction :=
  send_object sink (<[lit "code" := of_string kAuthRequiredCode]> (error_object message)).

(** ** Stages *)

Section stages.
Context (p : RequestPipeline).

Definition seal_stage (type message : str) (st : St) : option (SealOutcome * str) * St :=
  match seal_open_ p with
  | None => (Some (SealContinue, []), st)
  | Some f => f type message st
  end.

(** Stage 0 of both paths: the message to go on with, or what ends the request. *)
Definition opened (type message : str) (st : St) : (Reaction + str) * St :=
  match seal_stage type message st with
  | (None, st) => (inl Raised, st)
  | (Some (SealRejected, _), st) => (inl Silent, st)
  | (Some (SealRewritten, rewritten), st) => (inr rewritten, st)
  | (Some (SealContinue, _), st) => (inr message, st)
  end.

(** Stage 2. *)
Definition authenticate (policy : RoutePolicy) (m : Moment) (msg : json)
    : IO AccountTables (Reaction + option AuthenticatedIdentity) :=
  if bool_decide (auth policy = AuthNone) then mret (inr None) else
  let sink := correlated_send (correlation msg) in
  match identity_ p with
  | None => mret (inl (send_auth_error sink NOT_CONFIGURED))
  | Some x =>
      id_res ← extract x (unix_now m) (leased m) msg;
      mret (if is_ok id_res then inr (value id_res)
            else if bool_decide (code id_res = Unavailable) then inl (send_error sink (reason id_res))
            else inl (send_auth_error sink (reason id_res)))
  end.

Definition run_typed (policy : RoutePolicy) (conn : ConnectionHandle) (m : Moment) (message : str) (st : St)
    : IO AccountTables (Reaction * St) :=
  match opened (policy_type policy) message st with
  | (inl r, st) => mret (r, st)
  | (inr effective, st) =>
      match json_parse effective with
      | None => mret (send_error Reply (lit "Invalid JSON: " ++ json_what effective), st)
      | Some msg =>
          a ← authenticate policy m msg;
          mret (match a with
                | inl r => r
                | inr id => Call (policy_type policy) (mkContext conn id (arrived m)) msg (correlation msg)
                end, st)
      end
  end.

Definition run_raw (policy : RoutePolicy) (message : str) (st : St) : Reaction * St :=
  match opened (policy_type policy) message st with
  | (inl r, st) => (r, st)
  | (inr effective, st) => (CallRaw (policy_type policy) effective, st)
  end.

(** ** The router *)

(** [install_on_router]: the types that have a handler; a raw route replaces a typed one. *)
Definition installed : gset (list ascii) := dom (typed_entries_ p) ∪ dom (raw_entries_ p).

Definition run_handler (type : str) (conn : ConnectionHandle) (m : Moment) (message : str) (st : St)
    : IO AccountTables (Reaction * St) :=
  match raw_entries_ p !! type with
  | Some policy => mret (run_raw policy message st)
  | None =>
      match typed_entries_ p !! type with
      | Some policy => run_typed policy conn m message st
      | None => mret (Silent, st)
      end
  end.

(** The default handler of main.cpp. *)
Definition UNKNOWN_TYPE : str :=
  lit "{" ++ quoted (lit "type") ++ lit ":" ++ quoted (lit "error") ++ lit "," ++
  quoted (lit "message") ++ lit ":" ++ quoted (lit "Unknown message type") ++ lit "}".

Definition on_message (conn : ConnectionHandle) (m : Moment) (message : str) (st : St)
    : IO AccountTables (Reaction * St) :=
  match route installed true message with
  | ToHandler type => run_handler type conn m message st
  | ToDefault => mret (Reply UNKNOWN_TYPE, st)
  | Dropped => mret (Silent, st)
  end.
End stages.

(** ** Routes *)

Definition typed (auth : AuthRequirement) (type : str) (p : RequestPipeline) : RequestPipeline :=
  register_route (mkPolicy type auth SealNone) p.
Definition raw (type : str) (p : RequestPipeline) : RequestPipeline := register_raw_route (mkPolicy type AuthNone SealNone) p.

(** One after the other. *)
Definition register_all (register : str -> RequestPipeline -> RequestPipeline) (types : list str)
    (p : RequestPipeline) : RequestPipeline := fold_left (fun p type => register type p) types p.

Definition register_gameplay (p : RequestPipeline) : RequestPipeline :=
  let p := register_all (typed AuthRequired)
    [lit "create_game"; lit "join_game"; lit "quick_play"; lit "play_ai"; lit "offer_draw"; lit "draw_response";
     lit "offer_rematch"; lit "rematch_response"; lit "get_pending_rematch"] p in
  let p := register_all (typed AuthNone) [lit "make_move"; lit "resign"] p in
  let p := register_all (typed AuthRequired) [lit "game_state"; lit "get_active_game"] p in
  register_all (typed AuthNone) [lit "cancel_queue"; lit "list_games"] p.

Definition register_query (p : RequestPipeline) : RequestPipeline :=
  let p := register_all (typed AuthNone)
    [lit "get_profile"; lit "get_leaderboard"; lit "get_history"; lit "get_game"; lit "list_live_games"] p in
  let p := typed AuthRequired (lit "spectate") p in
  typed AuthNone (lit "stop_spectating") p.

Definition register_analysis (p : RequestPipeline) : RequestPipeline :=
  register_all (typed AuthNone) [lit "analyze_position"; lit "analyze_game"] p.

Definition register_tournament (p : RequestPipeline) : RequestPipeline :=
  let p := register_all (typed AuthRequired)
    [lit "create_tournament"; lit "join_tournament"; lit "leave_tournament"; lit "start_tournament";
     lit "report_tournament_result"; lit "set_tournament_registration"; lit "check_in_tournament_round"] p in
  register_all (typed AuthNone) [lit "tournament_state"; lit "list_tournaments"] p.

(** [GameHandler::register_handlers] *)
Definition register_game (p : RequestPipeline) : RequestPipeline :=
  register_tournament (register_analysis (register_query (register_gameplay p))).

(** [AuthHandler::register_handlers]; [google] and [sealing] are configured or not. *)
Definition register_auth (google sealing : bool) (p : RequestPipeline) : RequestPipeline :=
  let p := if sealing then raw (lit "seal_request") p else p in
  let p := register_all raw [lit "register"; lit "login"; lit "refresh"; lit "logout"; lit "logout_all"] p in
  let p := if google then register_all raw [lit "google_auth"; lit "link_google"; lit "unlink_google"] p else p in
  register_all raw [lit "request_password_reset"; lit "reset_password"; lit "verify_email"; lit "set_recovery_email"] p.
End pipeline.

(** ** The wiring of main.cpp *)

Section wiring.
Context `{S : OpenSSL} `{JC : ClaimsJson} `{J : Json}.
Notation Registry := (option SealedRegistry).

(** The types that must be sealed, on a registry that has just been made. *)
Definition SEALED_TYPES : list str :=
  [lit "login"; lit "register"; lit "google_auth"; lit "request_password_reset"; lit "reset_password";
   lit "verify_email"; lit "set_recovery_email"; lit "link_google"].
Definition sealed_registry (identity : option SignKey) (store : SealedKeyStore SealKeyMaterial) : SealedRegistry :=
  fold_left (fun r type => require_sealed type r) SEALED_TYPES (new_registry identity store).

(** The callback, at a reading [now] of the store's clock; the pipeline is given none if there is no registry. *)
Definition seal_open (now : Z) : SealOpenFn (St := Registry) := fun type message st =>
  match st with
  | None => (Some (SealContinue, []), None)
  | Some r =>
      let '((o, out), r) := inspect now type message r in
      (match o with
       | NotSealed => Some (SealContinue, [])
       | Opened => Some (SealRewritten, out)
       | Rejected => Some (SealRejected, [])
       | Threw => None
       end, Some r)
  end.

(** [auth_enabled]: database and signer are there. *)
Definition server_pipeline (auth_enabled google : bool) (key : list Z) (now : Z) (reg : Registry) : RequestPipeline (St := Registry) :=
  let x := mkExtractor auth_enabled (if auth_enabled then Some key else None) in
  let p := new_pipeline (Some x) (match reg with Some _ => Some (seal_open now) | None => None end) in
  let p := if auth_enabled then register_auth google (bool_decide (is_Some reg)) p else p in
  register_game p.
End wiring.
