(* ===== verification/GatewaySpec.v ===== *)
(** * What gets past the gateway

    [carries] reads an envelope off a message declaratively, [unsealing] says that a sealed
    message opens under a key in the store, [admits] whose token a message bears. The lemmas
    show that [inspect] and [extract] decide exactly these. *)
From stdpp Require Import gmap strings.
From S2P Require Import Prelude Types Fen Notation Bytes Base64 Credentials Aead WebSocket Storage StorageSpec AccountStore AccountSpec Token AccountContracts SealedEnvelope KeyStore Json SealedRegistry IdentityExtractor RequestPipeline.
Open Scope Z_scope.

(** ** Envelopes *)

Section sealed.
Context `{S : OpenSSL} `{J : Json}.
Notation Registry := (SealedRegistry (S := S)).

Definition bytes_ok (e : SealedEnvelope) : Prop :=
  List.Forall byte_ok (env_key_id e) /\ List.Forall byte_ok (env_kem_ct e) /\ List.Forall byte_ok (env_x25519_pk e) /\
  List.Forall byte_ok (env_iv e) /\ List.Forall byte_ok (env_ct e) /\ List.Forall byte_ok (env_tag e).

(** The message is an object whose field [sealed] is an object with the six fields of [e] in base64. *)
Record carries (message : str) (e : SealedEnvelope) : Prop := {
  ca_formed : well_formed e = true;
  ca_bytes : bytes_ok e;
  ca_fields : exists root s, json_parse message = Some root /\ field (lit "sealed") root = Some s /\
    string_field (lit "key_id") s = Some (encode_base64 (env_key_id e)) /\
    string_field (lit "kem_ct") s = Some (encode_base64 (env_kem_ct e)) /\
    string_field (lit "x25519_pk") s = Some (encode_base64 (env_x25519_pk e)) /\
    string_field (lit "iv") s = Some (encode_base64 (env_iv e)) /\
    string_field (lit "tag") s = Some (encode_base64 (env_tag e)) /\
    string_field (lit "ct") s = Some (encode_base64 (env_ct e)) }.

Lemma read_b64_spec obj name n bytes :
  read_b64 obj name n = Some bytes <->
  string_field name obj = Some (encode_base64 bytes) /\ List.Forall byte_ok bytes /\ expected (Z.of_nat n) bytes.
Proof.
  unfold read_b64. destruct (string_field name obj) as [text|]; [|split; [done|by intros [? _]]]. split.
  - intros (-> & Hb & He)%padded_backward. done.
  - intros ([= ->] & Hb & He). by apply padded_forward.
Qed.

Lemma expected_sized n bytes : n <> 0%nat -> expected (Z.of_nat n) bytes <-> length bytes = n.
Proof. unfold expected. lia. Qed.

Lemma well_formed_spec e :
  well_formed e = true <->
  length (env_key_id e) = KEY_ID_SIZE /\ length (env_kem_ct e) = mlkem768.CIPHERTEXT_SIZE /\
  length (env_x25519_pk e) = x25519.PUBLIC_KEY_SIZE /\ length (env_iv e) = IV_SIZE /\ length (env_tag e) = TAG_SIZE.
Proof. unfold well_formed. rewrite !andb_true_iff, !Nat.eqb_eq. tauto. Qed.

Lemma ciphertext_size_nonzero : mlkem768.CIPHERTEXT_SIZE <> 0%nat.
Proof. unfold mlkem768.CIPHERTEXT_SIZE. lia. Qed.

Lemma read_envelope_spec message e : read_envelope message = Some e <-> carries message e.
Proof.
  pose proof ciphertext_size_nonzero as Hk. unfold read_envelope. split.
  - intros (root & Hr & H)%bind_Some. apply bind_Some in H as (s & Hs & H).
    apply bind_Some in H as (fields & Hf & H).
    apply bind_Some in H as (id & (Hid & Bid & Eid)%read_b64_spec & H).
    apply bind_Some in H as (ct & (Hct & Bct & Ect)%read_b64_spec & H).
    apply bind_Some in H as (pk & (Hpk & Bpk & Epk)%read_b64_spec & H).
    apply bind_Some in H as (iv & (Hiv & Biv & Eiv)%read_b64_spec & H).
    apply bind_Some in H as (tag & (Htag & Btag & Etag)%read_b64_spec & H).
    apply bind_Some in H as (c & (Hc & Bc & _)%read_b64_spec & [= <-]).
    rewrite expected_sized in Eid, Ect, Epk, Eiv, Etag by done. split; cbn.
    + by apply well_formed_spec.
    + done.
    + by exists root, s.
  - intros [(Eid & Ect & Epk & Eiv & Etag)%well_formed_spec (Bid & Bct & Bpk & Biv & Bc & Btag) (root & s & Hr & Hs & Hf)].
    destruct Hf as (F1 & F2 & F3 & F4 & F5 & F6).
    assert (is_Some (get_object s)) as [fields Hfields].
    { unfold string_field, field in F1. destruct (get_object s); [by eexists|done]. }
    apply bind_Some. exists root. split; [done|]. apply bind_Some. exists s. split; [done|].
    apply bind_Some. exists fields. split; [done|].
    apply bind_Some. exists (env_key_id e). split; [by rewrite read_b64_spec, expected_sized|].
    apply bind_Some. exists (env_kem_ct e). split; [by rewrite read_b64_spec, expected_sized|].
    apply bind_Some. exists (env_x25519_pk e). split; [by rewrite read_b64_spec, expected_sized|].
    apply bind_Some. exists (env_iv e). split; [by rewrite read_b64_spec, expected_sized|].
    apply bind_Some. exists (env_tag e). split; [by rewrite read_b64_spec, expected_sized|].
    apply bind_Some. exists (env_ct e). split; [rewrite read_b64_spec; unfold expected; auto|]. by destruct e.
Qed.

(** ** Opened messages *)

(** The message, on the way to [type], opens under a key of the store: the envelope it
    carries, the entry of that key, and the members of the payload. *)
Record unsealing (now : Z) (type message : str) (r : Registry) (e : SealedEnvelope)
    (entry : Entry SealKeyMaterial) (payload : list Z) (body : gmap (list ascii) json) : Prop := {
  un_carries : carries message e;
  un_key : entries_ (store_ r) !! env_key_id e = Some entry;
  un_alive : now < expires_at entry;
  un_open : open (material entry) e = (true, payload);
  un_body : json_parse (of_bytes payload) ≫= get_object = Some body;
  un_type : body !! TYPE ≫= get_string = Some type \/ body !! TYPE = None /\ (type ∉ AUTH_TYPES) }.

Lemma inner_type_spec type body :
  inner_type_ok type body = true <-> body !! TYPE ≫= get_string = Some type \/ body !! TYPE = None /\ (type ∉ AUTH_TYPES).
Proof.
  unfold inner_type_ok. destruct (body !! TYPE) as [v|]; cbn.
  - rewrite bool_decide_eq_true. intuition discriminate.
  - unfold auth_type. rewrite negb_true_iff, bool_decide_eq_false. intuition discriminate.
Qed.

(** An offer that is issued has been minted, and its key is in the store while it lives. *)
Lemma issue_spec identity now later visit client id km ec seed s o s' :
  issue identity now later visit client id km ec seed s = (Some o, s') ->
  entries_ (sweep_locked now visit s) !! id = None ->
  exists material, mint identity (ttl_seconds_ s) id km ec seed = Some (material, o) /\
    entries_ s' !! id = Some (mkEntry material (later + ttl_seconds_ s * 1000000000) client).
Proof.
  unfold issue, issue_admit. destruct (negb (negb _)); [done|].
  assert (ttl_seconds_ (sweep_locked now visit s) = ttl_seconds_ s) as Ettl.
  { unfold sweep_locked. revert s. induction visit as [|x visit IH]; intros s; [done|]. cbn [fold_left]. rewrite IH.
    destruct (_ <=? _); [|done]. unfold erase_locked. by destruct (entries_ s !! x.1). }
  rewrite Ettl. destruct (mint _ _ _ _ _ _) as [[material o']|] eqn:Em; [|done].
  intros Hi Hn. exists material. assert (off_key_id o' = id) as Hid by (by apply mint_spec in Em as (_ & _ & _ & _ & -> & _)).
  unfold issue_store, id_key_of in Hi. destruct (full _ _); [done|]. rewrite Hid, Hn in Hi. injection Hi as <- <-.
  split; [done|]. cbn. rewrite Ettl. apply lookup_insert_eq.
Qed.

Lemma open_authentic_id m e payload : open m e = (true, payload) -> env_key_id e = mat_key_id m.
Proof.
  unfold open. destruct (_ || _); [done|].
  destruct (bool_decide_reflect (env_key_id e = mat_key_id m)); [done|]. discriminate.
Qed.

(** The registry after a message: its key is spent. *)
Lemma inspect_required now type message r : required_ (snd (inspect now type message r)) = required_ r.
Proof.
  unfold inspect. destruct (negb _); [done|]. destruct (read_envelope message) as [e|]; [|done].
  destruct (consume now _ _) as [[m|] s]; [|done]. by destruct (open m e) as [[] ?].
Qed.

Lemma inspect_spends now type message r e :
  is_required type r = true -> carries message e ->
  entries_ (store_ (snd (inspect now type message r))) = delete (env_key_id e) (entries_ (store_ r)).
Proof.
  intros Hr He. pose proof (ca_formed _ _ He) as (Hid & _)%well_formed_spec. unfold inspect. rewrite Hr. cbn [negb].
  rewrite (proj2 (read_envelope_spec message e) He).
  destruct (consume_spec now (env_key_id e) (store_ r)) as [_ H]. specialize (H Hid).
  destruct (consume now _ _) as [[m|] s]; [|done]. cbn [fst snd] in *. by destruct (open m e) as [[] ?].
Qed.

(** Without its key a message is rejected. *)
Lemma inspect_spent now type message r e :
  is_required type r = true -> carries message e -> entries_ (store_ r) !! env_key_id e = None ->
  fst (inspect now type message r) = (Rejected, []).
Proof.
  intros Hr He Hn. unfold inspect. rewrite Hr. cbn [negb]. rewrite (proj2 (read_envelope_spec message e) He).
  destruct (consume_spec now (env_key_id e) (store_ r)) as [H _]. rewrite Hn in H.
  destruct (consume now _ _) as [[m|] s]; [|done]. cbn [fst] in H. by destruct (_ =? _)%nat.
Qed.

Lemma inspect_plain now type message r :
  is_required type r = false -> inspect now type message r = ((NotSealed, []), r).
Proof. intros Hr. unfold inspect. by rewrite Hr. Qed.

(** The verdict on a message of a required type. *)
Lemma inspect_cases now type message r :
  is_required type r = true ->
  (exists e entry payload body, unsealing now type message r e entry payload body /\
     fst (inspect now type message r) =
     match rewrite_message type body with Some out => (Opened, out) | None => (Threw, []) end) \/
  (forall e entry payload body, ~ unsealing now type message r e entry payload body) /\
  fst (inspect now type message r) = (Rejected, []).
Proof.
  intros Hr. destruct (read_envelope message) as [e|] eqn:He; cycle 1.
  { right. split.
    - intros e entry payload body [H%read_envelope_spec _ _ _ _ _]. congruence.
    - unfold inspect. by rewrite Hr, He. }
  pose proof (proj1 (read_envelope_spec _ _) He) as Hc. pose proof (ca_formed _ _ Hc) as (Hid & _)%well_formed_spec.
  assert (forall e' entry payload body, unsealing now type message r e' entry payload body -> e' = e) as Huniq.
  { intros e' entry payload body [H%read_envelope_spec _ _ _ _ _]. congruence. }
  destruct (consume_spec now (env_key_id e) (store_ r)) as [Hk _]. rewrite Hid, Nat.eqb_refl in Hk.
  unfold inspect. rewrite Hr, He. cbn [negb]. destruct (consume now _ _) as [m s]. cbn [fst] in Hk. subst m.
  destruct (entries_ (store_ r) !! env_key_id e) as [entry|] eqn:Ee; cycle 1.
  { right. split; [|done]. intros e' entry payload body H. rewrite (Huniq _ _ _ _ H) in H. destruct H. congruence. }
  destruct (Z.leb_spec (expires_at entry) now).
  { right. split; [|done]. intros e' entry' payload body Hu. rewrite (Huniq _ _ _ _ Hu) in Hu. destruct Hu.
    assert (entry' = entry) as -> by congruence. lia. }
  destruct (open (material entry) e) as [[] payload] eqn:Eo; cbn [fst]; cycle 1.
  { right. split; [|done]. intros e' entry' payload' body Hu. rewrite (Huniq _ _ _ _ Hu) in Hu. destruct Hu. congruence. }
  unfold accept_plaintext. destruct (json_parse (of_bytes payload) ≫= get_object) as [body|] eqn:Eb; cycle 1.
  { right. split; [|done]. intros e' entry' payload' body Hu. rewrite (Huniq _ _ _ _ Hu) in Hu. destruct Hu.
    assert (payload' = payload) as -> by congruence. congruence. }
  destruct (inner_type_ok type body) eqn:Et; cbn [negb].
  { apply inner_type_spec in Et. left. by exists e, entry, payload, body. }
  right. split; [|done]. intros e' entry' payload' body' Hu. rewrite (Huniq _ _ _ _ Hu) in Hu.
  destruct Hu as [_ Hk _ Ho Hb Ht%inner_type_spec]. assert (payload' = payload) as -> by congruence. congruence.
Qed.

(** A message opens in one way. *)
Lemma unsealing_unique now type message r e entry payload body e' entry' payload' body' :
  unsealing now type message r e entry payload body -> unsealing now type message r e' entry' payload' body' ->
  body' = body.
Proof.
  intros [H1%read_envelope_spec H2 _ H3 H4 _] [H1'%read_envelope_spec H2' _ H3' H4' _].
  assert (e' = e) as -> by congruence. assert (entry' = entry) as -> by congruence.
  assert (payload' = payload) as -> by congruence. congruence.
Qed.

(** The text handed on is the payload with the type of the route as its type. *)
Lemma rewrite_message_spec `{!JsonLaws J} type text body :
  plain type = true -> json_parse text ≫= get_object = Some body ->
  exists out j, rewrite_message type body = Some out /\ json_parse out = Some j /\
    get_object j = Some (<[TYPE := of_string type]> body).
Proof.
  intros Hp (j0 & Hj & Hb)%bind_Some. destruct (dump_parsed text j0 body TYPE Hj Hb) as [dumped Hd].
  unfold rewrite_message. rewrite Hd, (dump_plain type Hp).
  destruct (dump_object _ _ Hd) as (members & -> & Hm).
  destruct (parse_member TYPE (of_string type) (delete TYPE body) members (quoted TYPE) (quoted type))
    as (j & H1 & H2); [by apply dump_plain|by apply dump_plain|done|by rewrite lookup_delete_eq|].
  eexists _, j. split; [reflexivity|]. split; [|by rewrite insert_delete_eq in H2].
  rewrite <- H1. f_equal. destruct members as [|c members]; [done|].
  replace (2 <? length (lit "{" ++ (c :: members) ++ lit "}"))%nat with true; [done|].
  symmetry. apply Nat.ltb_lt. cbn. rewrite length_app. cbn. lia.
Qed.
End sealed.

(** ** Identities *)

Section identities.
Context (lower : str -> str) `{JC : ClaimsJson} `{J : Json}.

(** The message bears an access token of this account, of its current epoch. *)
Definition admits (key : list Z) (now : Z) (msg : json) (db : AccountTables) (i : AuthenticatedIdentity) : Prop :=
  exists token c p, string_field (lit "access_token") msg = Some token /\ verify_access key token now = Some c /\
    In p (people db) /\ pl_id p = player_id c /\ pl_epoch p = token_epoch c /\
    i = mkAuthenticated (pl_id p) (pl_username p) (pl_elo p).

(** What [extract] answers; it tells an identity that is refused from one it could not look up. *)
Inductive identified (key : list Z) (now : Z) (leased : option bool) (calm : bool) (msg : json) (db : AccountTables)
    : Result AuthenticatedIdentity -> Prop :=
  | Admitted_ i : admits key now msg db i -> identified key now leased calm msg db (ok i)
  | Refused_ why : (forall i, ~ admits key now msg db i) -> identified key now leased calm msg db (err Unauthorized why)
  | Unknown_ : leased = Some false \/ calm = false -> identified key now leased calm msg db (err Unavailable RETRY).

Lemma extract_contract key now leased calm msg db :
  accounts_ok lower db ->
  wp calm None (extract (mkExtractor true (Some key)) now leased msg)
    (fun r db' => db' = db /\ identified key now leased calm msg db r) db.
Proof.
  intros Hok. unfold extract. cbn [db_ signer_ negb].
  destruct (string_field (lit "access_token") msg) as [token|] eqn:Et.
  2: { apply wp_ret. split; [done|]. constructor. intros i (? & ? & ? & H & _). congruence. }
  destruct (verify_access key token now) as [c|] eqn:Ev.
  2: { apply wp_ret. split; [done|]. constructor. intros i (? & ? & ? & H & ? & _). congruence. }
  case_bool_decide; [apply wp_ret; split; [done|]; constructor; by left|].
  assert (forall i, admits key now msg db i -> exists p, In p (people db) /\ pl_id p = player_id c /\
    pl_epoch p = token_epoch c /\ i = mkAuthenticated (pl_id p) (pl_username p) (pl_elo p)) as Hinv.
  { intros i (t & c' & p & H1 & H2 & H3). assert (t = token) as -> by congruence.
    assert (c' = c) as -> by congruence. by exists p. }
  wp_step. apply wp_select; [|intros Hf e; apply wp_ret; split; [done|]; constructor; by right].
  apply wp_ret. split; [done|]. destruct (find_player (player_id c) db) as [|p ps] eqn:Ef.
  - constructor. intros i (p & Hp & Hid & _)%Hinv. rewrite <- Hid, (find_player_unique lower) in Ef by done. discriminate Ef.
  - assert (In p (find_player (player_id c) db)) as Hp by (rewrite Ef; by left).
    apply List.filter_In in Hp as [Hp Hid%Z.eqb_eq]. destruct (Z.eqb_spec (pl_epoch p) (token_epoch c)) as [E|E]; cbn [negb].
    + rewrite <- Hid. constructor. by exists token, c, p.
    + constructor. intros i (q & Hq & Hqid & Hqe & _)%Hinv. apply E. rewrite <- Hqe. f_equal.
      apply (NoDup_key pl_id (people db)); [apply Hok|done|done|congruence].
Qed.
End identities.

(** ** Routes *)

(** The routes anyone may call, those that need an identity, and those of [AuthHandler]. *)
Definition PUBLIC_ROUTES : list str :=
  [lit "make_move"; lit "resign"; lit "cancel_queue"; lit "list_games"; lit "get_profile"; lit "get_leaderboard";
   lit "get_history"; lit "get_game"; lit "list_live_games"; lit "stop_spectating"; lit "analyze_position";
   lit "analyze_game"; lit "tournament_state"; lit "list_tournaments"].
Definition IDENTIFIED_ROUTES : list str :=
  [lit "create_game"; lit "join_game"; lit "quick_play"; lit "play_ai"; lit "offer_draw"; lit "draw_response";
   lit "offer_rematch"; lit "rematch_response"; lit "get_pending_rematch"; lit "game_state"; lit "get_active_game";
   lit "spectate"; lit "create_tournament"; lit "join_tournament"; lit "leave_tournament"; lit "start_tournament";
   lit "report_tournament_result"; lit "set_tournament_registration"; lit "check_in_tournament_round"].
Definition AUTH_ROUTES : list str :=
  [lit "seal_request"; lit "register"; lit "login"; lit "refresh"; lit "logout"; lit "logout_all"; lit "google_auth";
   lit "link_google"; lit "unlink_google"; lit "request_password_reset"; lit "reset_password"; lit "verify_email";
   lit "set_recovery_email"].

Lemma routed_type registered has_default message type :
  route registered has_default message = ToHandler type -> type ∈ registered.
Proof.
  unfold route. destruct (find_str _ _ _); [|by destruct has_default]. repeat (destruct (find_from _ _ _); [|done]).
  unfold dispatch. case_bool_decide; [by intros [= <-]|by destruct has_default].
Qed.

Lemma routed_installed {St} (p : RequestPipeline (St := St)) message type :
  route (installed p) true message = ToHandler type ->
  is_Some (raw_entries_ p !! type) \/ raw_entries_ p !! type = None /\ is_Some (typed_entries_ p !! type).
Proof.
  intros Hi%routed_type. unfold installed in Hi. rewrite elem_of_union, !elem_of_dom in Hi.
  destruct (raw_entries_ p !! type); [left; by eexists|]. destruct Hi as [Hi|[? Hi]]; [by right|discriminate Hi].
Qed.

Section server.
Context `{S : OpenSSL} `{JC : ClaimsJson} `{J : Json}.
Context (auth_enabled google : bool) (key : list Z) (now : Z) (reg : option (SealedRegistry (S := S))).
Notation server := (server_pipeline auth_enabled google key now reg).

Lemma server_typed type policy :
  typed_entries_ server !! type = Some policy ->
  (type ∉ AUTH_ROUTES) /\
  (policy = mkPolicy type AuthNone SealNone /\ type ∈ PUBLIC_ROUTES \/
   policy = mkPolicy type AuthRequired SealNone /\ type ∈ IDENTIFIED_ROUTES).
Proof.
  set (P := fun type policy => (type ∉ AUTH_ROUTES) /\
    (policy = mkPolicy type AuthNone SealNone /\ type ∈ PUBLIC_ROUTES \/
     policy = mkPolicy type AuthRequired SealNone /\ type ∈ IDENTIFIED_ROUTES)).
  enough (map_Forall P (typed_entries_ server)) as H by apply H.
  apply (bool_decide_unpack _). destruct auth_enabled, google, reg; vm_compute; reflexivity.
Qed.

Lemma server_raw type policy :
  raw_entries_ server !! type = Some policy -> policy = mkPolicy type AuthNone SealNone /\ type ∈ AUTH_ROUTES.
Proof.
  set (P := fun type policy => policy = mkPolicy type AuthNone SealNone /\ type ∈ AUTH_ROUTES).
  enough (map_Forall P (raw_entries_ server)) as H by apply H.
  apply (bool_decide_unpack _). destruct auth_enabled, google, reg; vm_compute; reflexivity.
Qed.

Lemma server_opened type message :
  opened server type message reg =
  match reg with
  | None => (inr message, None)
  | Some r =>
      let '((o, out), r) := inspect now type message r in
      (match o with NotSealed => inr message | Opened => inr out | Rejected => inl Silent | Threw => inl Raised end, Some r)
  end.
Proof.
  unfold opened, seal_stage.
  assert (seal_open_ server = match reg with Some _ => Some (seal_open now) | None => None end) as ->
    by (destruct auth_enabled, google, reg; reflexivity).
  destruct reg as [r|]; [|done]. unfold seal_open. by destruct (inspect now type message r) as [[[] out] r'].
Qed.

Lemma server_identity : identity_ server = Some (mkExtractor auth_enabled (if auth_enabled then Some key else None)).
Proof. by destruct auth_enabled, google, reg. Qed.

(** The registry demands envelopes of exactly the sealed types. *)
Definition guards (r : SealedRegistry (S := S)) : Prop := forall type, is_required type r = bool_decide (type ∈ SEALED_TYPES).

Lemma inspect_guards type message r : guards r -> guards (snd (inspect now type message r)).
Proof. intros H t. unfold is_required. rewrite inspect_required. apply H. Qed.

(** A property of each type on a list is decided. *)
Lemma each_type (P : str -> Prop) `{forall t, Decision (P t)} types type :
  bool_decide (List.Forall P types) = true -> type ∈ types -> P type.
Proof. intros Hb%bool_decide_eq_true Ht. by apply (proj1 (list.Forall_forall P types) Hb). Qed.

Lemma sealed_are_raw type : type ∈ SEALED_TYPES -> type ∈ AUTH_ROUTES.
Proof. apply (each_type (fun t => t ∈ AUTH_ROUTES)). vm_compute. reflexivity. Qed.

Lemma sealed_plain type : type ∈ SEALED_TYPES -> plain type = true.
Proof. apply (each_type (fun t => plain t = true)). vm_compute. reflexivity. Qed.

Lemma routes_apart type : (type ∈ PUBLIC_ROUTES \/ type ∈ IDENTIFIED_ROUTES) -> type ∉ SEALED_TYPES.
Proof. rewrite <- elem_of_app. apply (each_type (fun t => t ∉ SEALED_TYPES)). vm_compute. reflexivity. Qed.

(** The entry a message is routed to. *)
Lemma routed_entry message type :
  route (installed server) true message = ToHandler type ->
  raw_entries_ server !! type = Some (mkPolicy type AuthNone SealNone) /\ type ∈ AUTH_ROUTES \/
  raw_entries_ server !! type = None /\ (type ∉ SEALED_TYPES) /\
  (typed_entries_ server !! type = Some (mkPolicy type AuthNone SealNone) /\ type ∈ PUBLIC_ROUTES \/
   typed_entries_ server !! type = Some (mkPolicy type AuthRequired SealNone) /\ type ∈ IDENTIFIED_ROUTES).
Proof.
  intros [[policy Er]|(Er & policy & Hp)]%routed_installed.
  { left. destruct (server_raw _ _ Er) as [-> ?]. by split. }
  right. split; [exact Er|]. destruct (server_typed _ _ Hp) as [_ [[-> H]|[-> H]]]; (split; [apply routes_apart|]); auto.
Qed.

(** *** Types that must be sealed *)

Definition raw_reaction (type message : str) (v : Outcome * str) : Reaction :=
  match v with
  | (NotSealed, _) => CallRaw type message | (Opened, out) => CallRaw type out
  | (Rejected, _) => Silent | (Threw, _) => Raised
  end.

Lemma on_raw conn m message type :
  route (installed server) true message = ToHandler type -> type ∈ AUTH_ROUTES ->
  on_message server conn m message reg =
  mret (match reg with
        | None => (CallRaw type message, None)
        | Some r => let '(v, r) := inspect now type message r in (raw_reaction type message v, Some r)
        end).
Proof.
  intros Hr Ht. unfold on_message. rewrite Hr. unfold run_handler.
  destruct (routed_entry _ _ Hr) as [[-> _]|(_ & _ & H)].
  - f_equal. unfold run_raw. cbn [policy_type]. rewrite server_opened. destruct reg as [r|]; [|done].
    by destruct (inspect now type message r) as [[[] out] r'].
  - exfalso. destruct H as [[H _]|[H _]]; by apply server_typed in H as [H _].
Qed.

(** *** Typed routes *)

(** What becomes of a request to a typed route whose text is [msg]. *)
Inductive typed_reaction (conn : ConnectionHandle) (m : Moment) (calm : bool) (db : AccountTables) (type : str) (msg : json)
    : Reaction -> Prop :=
  | PublicCall : type ∈ PUBLIC_ROUTES ->
      typed_reaction conn m calm db type msg (Call type (mkContext conn None (arrived m)) msg (correlation msg))
  | IdentifiedCall i : type ∈ IDENTIFIED_ROUTES -> auth_enabled = true -> admits key (unix_now m) msg db i ->
      typed_reaction conn m calm db type msg (Call type (mkContext conn (Some i) (arrived m)) msg (correlation msg))
  | NotIdentified why : type ∈ IDENTIFIED_ROUTES -> (auth_enabled = true -> forall i, ~ admits key (unix_now m) msg db i) ->
      typed_reaction conn m calm db type msg (send_auth_error (correlated_send (correlation msg)) why)
  | NotLookedUp : type ∈ IDENTIFIED_ROUTES -> leased m = Some false \/ calm = false ->
      typed_reaction conn m calm db type msg (send_error (correlated_send (correlation msg)) RETRY).

Lemma opened_unsealed type message :
  (forall r, reg = Some r -> guards r) -> type ∉ SEALED_TYPES -> opened server type message reg = (inr message, reg).
Proof.
  intros Hg Ht. rewrite server_opened. destruct reg as [r|]; [|done]. rewrite inspect_plain; [done|].
  rewrite (Hg r eq_refl). by apply bool_decide_eq_false.
Qed.

Lemma run_typed_contract lower calm conn m policy type message db :
  accounts_ok lower db -> (forall r, reg = Some r -> guards r) -> type ∉ SEALED_TYPES ->
  policy = mkPolicy type AuthNone SealNone /\ type ∈ PUBLIC_ROUTES \/
  policy = mkPolicy type AuthRequired SealNone /\ type ∈ IDENTIFIED_ROUTES ->
  wp calm None (run_typed server policy conn m message reg)
    (fun a db' => db' = db /\ snd a = reg /\
      match json_parse message with
      | None => fst a = send_error Reply (lit "Invalid JSON: " ++ json_what message)
      | Some msg => typed_reaction conn m calm db type msg (fst a)
      end) db.
Proof.
  intros Hok Hg Ht Hp. assert (policy_type policy = type) as Ety by (destruct Hp as [[-> _]|[-> _]]; done).
  unfold run_typed. rewrite Ety, opened_unsealed by done. destruct (json_parse message) as [msg|]; [|by apply wp_ret].
  unfold authenticate. destruct Hp as [[-> Hin]|[-> Hin]]; cbn [auth].
  { rewrite bool_decide_eq_true_2 by done. repeat wp_step. split; [done|]. split; [done|]. by constructor. }
  rewrite bool_decide_eq_false_2, server_identity by done. destruct auth_enabled eqn:Eauth.
  - apply wp_bind, wp_bind. eapply wp_mono; [by apply (extract_contract lower)|].
    intros r db' [-> Hr]. repeat wp_step. split; [done|]. split; [done|].
    destruct Hr as [i Hi|why Hi|Hl]; cbn; [by constructor|by constructor|by constructor].
  - unfold extract. cbn [db_ negb]. repeat wp_step. split; [done|]. split; [done|].
    cbn. apply NotIdentified; [done|]. congruence.
Qed.
End server.
