(* ===== verification/ChessCorrectness.v ===== *)
(** * Correctness of the rules engine

    The properties of the board, the generator, the notations and the hash, each
    with a witness at a concrete position where it has hypotheses. *)
From Stdlib Require Import Permutation.
From S2P Require Import Prelude Types BoardState Zobrist Board MoveGen Fen Rules Position MakeMove Hashing Preservation Legality FenRoundTrip Uci Notation San.

(** The board of a FEN string that is known to parse. *)
Definition board_of (fen : str) : Board :=
  match set_from_fen fen with FenOk b | FenFail b => b | FenUB => clear_board end.

Definition e2e4 : Move := flag_move Squares.E2 28 MoveFlags.DOUBLE_PAWN_PUSH.
Definition after_e4 : Board := after_move starting_position e2e4.

(** A middle game with castling on both sides, captures and promotions to come. *)
Definition kiwipete : Board :=
  board_of (lit "r3k2r/p1ppqpb1/bn2pnp1/3PN3/1p2P3/2N2Q1p/PPPBBPPP/R3K2R w KQkq - 0 1").

Lemma position_kiwipete : position_ok kiwipete.
Proof. apply position_okb_sound. by vm_compute. Qed.

Lemma start_pseudo_e2e4 : pseudo_legal starting_position e2e4.
Proof.
  apply in_generate_legal; [apply start_board|]. vm_compute. tauto.
Qed.

(** C1. The generator is the rules: on a well-formed position a move is generated
    by [generate_legal_moves] exactly when it is pseudo-legal by the declarative
    rules of movement and does not leave the mover's own king attacked; and [perft]
    counts the lines of legal play of the given length, modulo 2^64, and hands back
    the board it was given. *)
Theorem legal_moves_correct b m d :
  game_board b ->
  (In m (generate_legal_moves b) <-> legal b m) /\ perft b d = (wrap64 (count_lines b d), b).
Proof. intros Hb. split; [apply legal_spec, Hb|by apply perft_count]. Qed.

Lemma legal_moves_correct_witness :
  (In e2e4 (generate_legal_moves starting_position) <-> legal starting_position e2e4) /\
  perft starting_position 2 = (wrap64 (count_lines starting_position 2), starting_position).
Proof. exact (legal_moves_correct starting_position e2e4 2 start_board). Defined.

(** C2. Every position reachable by legal play from the starting position is well
    formed (one king each, no pawn on the last ranks, castling rights with king and
    rook at home, a sound en-passant square, the side that moved not in check), and
    its incremental Zobrist key is the key of its contents. *)
Theorem reachable_positions b :
  reachable starting_position b -> position_ok b /\ hash_ok b.
Proof. apply reachable_game_board, start_board. Qed.

Lemma reachable_positions_witness : position_ok after_e4 /\ hash_ok after_e4.
Proof.
  apply reachable_positions. apply reach_move; [apply reach_start|]. vm_compute. tauto.
Defined.

(** C3. [undo_move] restores exactly the board [make_move] was applied to, for
    every pseudo-legal move: castling, en passant and promotion included; and the Zobrist
    key that [make_move] updates incrementally is the key [compute_hash] computes from
    scratch. *)
Theorem make_undo_roundtrip b m :
  position_ok b -> pseudo_legal b m ->
  undo_move (after_move b m) m (snd (make_move b m)) = b /\
  (hash_ok b -> zobrist_key_ (after_move b m) = compute_hash (after_move b m)).
Proof. intros Hb Hm. split; [by apply undo_after_make|]. intros Hh. by apply hash_after_move. Qed.

Lemma make_undo_roundtrip_witness :
  undo_move after_e4 e2e4 (snd (make_move starting_position e2e4)) = starting_position /\
  zobrist_key_ after_e4 = compute_hash after_e4.
Proof.
  destruct (make_undo_roundtrip starting_position e2e4 (proj1 start_board) start_pseudo_e2e4) as [H1 H2].
  split; [exact H1|exact (H2 (proj2 start_board))].
Defined.

(** C4. Pseudo-legal generation is the rules of movement: pushes, captures, en
    passant, promotions, steps, slides and castling, no more and no less. Attack
    detection is too: [is_square_attacked] holds exactly when some piece of that colour
    attacks the square by the declarative rules, sliders blocked included. *)
Theorem pseudo_legal_correct b m sq c :
  side_to_move_ b <> Color.NONE -> valid_sq sq ->
  (In m (generate_pseudo_legal_moves b) <-> pseudo_legal b m) /\
  (is_square_attacked b sq c = true <-> attacked_by b c sq).
Proof. intros Hb Hs. split; [by apply in_generate_pseudo_legal|by apply is_square_attacked_iff]. Qed.

Lemma pseudo_legal_correct_witness :
  (In e2e4 (generate_pseudo_legal_moves starting_position) <-> pseudo_legal starting_position e2e4) /\
  (is_square_attacked starting_position Squares.F1 Color.WHITE = true <->
   attacked_by starting_position Color.WHITE Squares.F1).
Proof. apply pseudo_legal_correct; [by vm_compute|]. vm_compute. by split. Defined.

(** C5. [get_game_status]: fifty-move draw from a half-move clock of 100, otherwise
    checkmate, stalemate or ongoing exactly as the rules define them. *)
Theorem game_status_correct b :
  position_ok b ->
  match get_game_status b with
  | GameStatus.DRAW_FIFTY_MOVE => 100 <= halfmove_clock_ b
  | GameStatus.CHECKMATE => halfmove_clock_ b < 100 /\ checkmated b
  | GameStatus.STALEMATE => halfmove_clock_ b < 100 /\ stalemated b
  | GameStatus.ONGOING => halfmove_clock_ b < 100 /\ exists m, legal b m
  | _ => False
  end.
Proof. apply game_status_cases. Qed.

Lemma game_status_correct_witness :
  halfmove_clock_ starting_position < 100 /\ exists m, legal starting_position m.
Proof.
  pose proof (game_status_correct starting_position (proj1 start_board)) as H.
  rewrite start_ongoing in H. exact H.
Defined.

(** C6. Text round trips. Importing the exported FEN of a board gives that board back, clocks
    and Zobrist key included. Whatever string is imported, success yields a board FEN can
    express (64 real pieces or empty squares, a mask of four rights, an en-passant square
    on the board, [int] clocks in range, and a key that is the hash of the contents); the
    import writes outside the mailbox only for a placement field with more than seven
    rank separators, against which the code has no guard. Reading the UCI string of a legal
    move gives its squares, its promotion flag and its promotion piece, and two legal moves of
    a position never share a UCI string; [san_to_move] reads every legal move back from the
    SAN that [move_to_san] prints for it: the disambiguation is always sufficient. *)
Theorem text_roundtrips :
  (forall b, encodable b -> set_from_fen (to_fen b) = FenOk b) /\
  (forall s b, set_from_fen s = FenOk b -> encodable b) /\
  (forall s, set_from_fen s = FenUB ->
     exists pieces rest, read_word s = Some (pieces, rest) /\ 7 < count_slashes pieces) /\
  forall b m m', position_ok b -> In m (generate_legal_moves b) -> In m' (generate_legal_moves b) ->
    from_uci (to_uci m) =
      mkMove (from m) (to m) (if is_promotion m then MoveFlags.PROMOTION else MoveFlags.NONE) (promo_type m) /\
    (to_uci m = to_uci m' -> m = m') /\
    san_to_move b (move_to_san b m) = m.
Proof.
  split; [exact set_from_fen_to_fen|split; [exact import_encodable|split; [exact set_from_fen_ub|]]].
  intros b m m' Hok Hm Hm'. pose proof (san_to_move_san b m Hok Hm) as Hs. apply in_generate_legal in Hm as [Hp _]; [|done].
  apply in_generate_legal in Hm' as [Hp' _]; [|done].
  pose proof (pseudo_facts b m Hok Hp) as [? ? _ _ _ _ Sh].
  split; [by apply from_uci_to_uci, (shape_promo b)|]. split; [by apply (to_uci_injective b)|done].
Qed.

Lemma encodable_kiwipete : encodable kiwipete.
Proof.
  apply (import_encodable (lit "r3k2r/p1ppqpb1/bn2pnp1/3PN3/1p2P3/2N2Q1p/PPPBBPPP/R3K2R w KQkq - 0 1")).
  by vm_compute.
Qed.

(** Two white rooks on the fourth rank, either of which can go to e4. *)
Definition two_rooks : Board := board_of (lit "4k3/8/8/8/R6R/8/8/4K3 w - - 0 1").

Lemma position_two_rooks : position_ok two_rooks.
Proof. apply position_okb_sound. by vm_compute. Qed.

Lemma text_roundtrips_witness :
  (set_from_fen (to_fen kiwipete) = FenOk kiwipete /\ encodable (board_of STARTING_FEN) /\
   exists pieces rest, read_word (lit "8/8/8/8/8/8/8/8/p w - - 0 1") = Some (pieces, rest) /\
                       7 < count_slashes pieces) /\
  from_uci (to_uci (quiet_move 24 28)) = mkMove 24 28 MoveFlags.NONE PieceType.NONE /\
  (to_uci (quiet_move 24 28) = to_uci (quiet_move 31 28) -> quiet_move 24 28 = quiet_move 31 28) /\
  san_to_move two_rooks (move_to_san two_rooks (quiet_move 24 28)) = quiet_move 24 28.
Proof.
  destruct text_roundtrips as (H1 & H2 & H3 & H4). split.
  - split; [exact (H1 kiwipete encodable_kiwipete)|split; [apply (H2 STARTING_FEN)|apply H3]]; by vm_compute.
  - apply (H4 two_rooks (quiet_move 24 28) (quiet_move 31 28) position_two_rooks); vm_compute; tauto.
Defined.

(** The Zobrist keys are pairwise distinct, non-zero 64-bit numbers: 768 piece
    keys, the side key, 16 castling keys and 8 en-passant keys. *)
Lemma zobrist_keys_distinct :
  List.NoDup all_keys /\ List.Forall (fun k => 0 < k < 2 ^ 64) all_keys /\ length all_keys = 793%nat.
Proof.
  split; [apply distinct_sound; by vm_compute|].
  split; [|by vm_compute].
  apply List.Forall_forall. intros k Hk.
  assert (forallb (fun k => (0 <? k) && (k <? 2 ^ 64)) all_keys = true) as Ha by by vm_compute.
  rewrite forallb_forall in Ha. specialize (Ha k Hk). bool_hyps. done.
Qed.

(** Checkmate delivered by the hundredth half-move without capture or pawn move
    is reported as a fifty-move draw: the clock is tested before the mate. *)
Lemma mate_reported_as_draw :
  exists b, position_ok b /\ checkmated b /\ get_game_status b = GameStatus.DRAW_FIFTY_MOVE.
Proof.
  set (b := board_of (lit "R5k1/5ppp/8/8/8/8/8/6K1 b - - 100 80")).
  assert (position_ok b) as Hok by (apply position_okb_sound; by vm_compute).
  exists b. split; [done|]. split; [|by vm_compute]. split.
  - apply side_in_check_iff; [done|]. by vm_compute.
  - apply no_legal_iff; [done|]. by vm_compute.
Qed.

(** SAN and castling: [move_to_san] prints a castling move that gives check without
    "+", unlike every other move, and [san_to_move] does not match castling against the
    legal moves: in the starting position it turns "O-O" into a move that is not legal. *)
Lemma castling_san :
  (exists b m, position_ok b /\ In m (generate_legal_moves b) /\
     is_in_check (after_move b m) (opposite_color (side_to_move_ b)) = true /\
     move_to_san b m = lit "O-O-O" /\ san_check b m = lit "+") /\
  san_to_move starting_position (lit "O-O") =
    flag_move Squares.E1 Squares.G1 MoveFlags.KINGSIDE_CASTLE /\
  ~ legal starting_position (san_to_move starting_position (lit "O-O")).
Proof.
  split; [|split; [by vm_compute|]].
  - set (b := board_of (lit "3k4/8/8/8/8/8/8/R3K3 w Q - 0 1")).
    exists b, (flag_move Squares.E1 Squares.C1 MoveFlags.QUEENSIDE_CASTLE).
    split; [apply position_okb_sound; by vm_compute|]. split; [vm_compute; tauto|]. by vm_compute.
  - intros Hl. apply legal_spec in Hl; [|apply start_board].
    vm_compute in Hl. repeat destruct Hl as [Hl|Hl]; discriminate || done.
Qed.
