(* ===== verification/RoomCorrectness.v ===== *)
(** * Correctness of the game room

    The properties of [GameRoom]'s public operations: refinement of the abstract
    machine, the invariant of every reachable room, who wins, completion events, the
    contract of an accepted move, draws by agreement. *)
From S2P Require Import Prelude Types BoardState Zobrist Board MoveGen Fen Rules Position MakeMove Hashing Preservation Legality Uci Notation San RoomState GameRoom GameRoomSpec.

(** ** A concrete game *)

Definition at_time (ms : Z) : Env :=
  mkEnv (fun _ => ms_ticks ms) (ms_ticks ms) (lit "00000000-0000-4000-8000-000000000000").

Definition lobby : Room :=
  new_room 7 1 (lit "ann") 10 (mkTimeControl 600000 5000) 101 1500.

(** Ann on descriptor 10, Bob on 11, one listener. *)
Definition opening : list (Env * Op) :=
  [(at_time 0, AddListener 99); (at_time 1000, Join 2 (lit "bob") 11 102 1400)].

Definition live : Room := fst (exec_all opening lobby).

Definition fools_mate : list (Env * Op) :=
  [(at_time 3000, Submit 10 Squares.F2 21 PieceType.NONE);
   (at_time 5000, Submit 11 Squares.E7 36 PieceType.NONE);
   (at_time 6000, Submit 10 Squares.G2 30 PieceType.NONE);
   (at_time 8000, Submit 11 Squares.D8 31 PieceType.NONE)].

Lemma live_settled : settled live.
Proof. split; by vm_compute. Qed.

Lemma live_reachable : room_reachable live.
Proof. apply room_reachable_all, rr_new. Qed.

(** C7. Refinement: one call of any public method of [GameRoom] performs at most
    one step of the abstract game machine; listeners are told about a completion
    exactly when that step enters [FINISHED], with a snapshot of the final state,
    and no event stays queued. In every room the server can hold the recorded moves are
    legal, carry the right SAN and lead from the starting position to the board; a live
    game has status [ONGOING], result "*" and a position that is not over; a finished
    game's result is the one its status and board call for. Whoever resigns a live game
    loses it: White on White's connection, Black on Black's, nobody on another one. A live
    game is abandoned exactly when a player has been away for the grace time, and then the
    player who left loses, the earlier of the two if both did, and nobody if they left at
    the same instant. *)
Theorem room_refines_game env o r :
  settled r -> outcome_ok r (exec env o r) /\ (room_reachable r -> game_ok (abs r)) /\
  (state_ r = RoomState.IN_PROGRESS ->
   match o with
   | Resign fd _ =>
       abs (fst (exec env o r)) =
       if decide (connection_fd (white_ r) = fd) then ended r GameStatus.RESIGNATION (lit "0-1")
       else if decide (connection_fd (black_ r) = fd) then ended r GameStatus.RESIGNATION (lit "1-0") else abs r
   | ExpireDisconnected grace => abandoned env grace r (abs (fst (exec env o r)))
   | _ => True
   end).
Proof.
  intros Hr. split; [by apply exec_ok|]. split; [intros H; by apply room_reachable_ok|]. intros Hs.
  destruct o; try done; [by apply resign_ends|by apply expire_abandoned].
Qed.

(** Bob resigns; in another game he is gone for a minute. *)
Lemma room_refines_game_witness :
  outcome_ok live (exec (at_time 2000) (Resign 11 None) live) /\ game_ok (abs live) /\
  abs (fst (exec (at_time 2000) (Resign 11 None) live)) = ended live GameStatus.RESIGNATION (lit "1-0") /\
  let left_alone := fst (exec (at_time 3000) (OnDisconnect 11) live) in
  abs (fst (exec (at_time 64000) (ExpireDisconnected 60000) left_alone)) = ended left_alone GameStatus.ABANDONMENT (lit "1-0").
Proof.
  destruct (room_refines_game (at_time 2000) (Resign 11 None) live live_settled) as (H1 & H2 & H3).
  split; [exact H1|split; [exact (H2 live_reachable)|split; [exact (H3 ltac:(by vm_compute))|]]].
  intros left_alone. assert (settled left_alone) as Hl by (split; by vm_compute).
  destruct (room_refines_game (at_time 64000) (ExpireDisconnected 60000) left_alone Hl) as (_ & _ & H).
  assert (gone (at_time 64000) 60000 (black_ left_alone)) as Hb by (split; [by vm_compute|vm_compute; discriminate]).
  assert (~ gone (at_time 64000) 60000 (white_ left_alone)) as Hw by (intros [Hc _]; by vm_compute in Hc).
  exact (abandoned_by_black _ _ _ _ (H ltac:(by vm_compute)) Hb Hw).
Defined.

(** C8. A game ends once. Over any calls, whatever they are, a game that was not finished
    announces its completion exactly if it finishes, and then in one round of
    notifications, the same snapshot of the final state to every listener; and a result
    is final: after [FINISHED] no call changes the board, the history, the status or the
    result, and no further completion is announced. *)
Theorem completion_announced_once ops r :
  settled r ->
  let '(r', evs) := exec_all ops r in
  if bool_decide (state_ r = RoomState.FINISHED)
  then abs r' = abs r /\ completions evs = []
  else if bool_decide (state_ r' = RoomState.FINISHED)
  then exists snap ls, snapshot_of r' snap /\ completions evs = map (fun l => (l, snap)) ls
  else completions evs = [].
Proof.
  intros Hr. case_bool_decide as Hf; [|by apply completion_once].
  pose proof (finished_final ops r Hr Hf). by destruct (exec_all ops r).
Qed.

Definition mated : Room := fst (exec_all fools_mate live).

Lemma completion_announced_once_witness :
  (exists snap ls, snapshot_of (fst (exec_all fools_mate live)) snap /\
     completions (snd (exec_all fools_mate live)) = map (fun l => (l, snap)) ls) /\
  completions (snd (exec_all [(at_time 9000, Submit 10 0 1 PieceType.NONE); (at_time 9500, ExpireOnTime)] mated)) = [].
Proof.
  split.
  - pose proof (completion_announced_once fools_mate live live_settled) as H.
    assert (state_ live <> RoomState.FINISHED) as Hs by (vm_compute; discriminate).
    assert (state_ (fst (exec_all fools_mate live)) = RoomState.FINISHED) as Hf by by vm_compute.
    destruct (exec_all fools_mate live) as [r' evs]. cbn [fst snd] in *.
    rewrite bool_decide_eq_false_2, bool_decide_eq_true_2 in H by assumption. exact H.
  - assert (settled mated) as Hm by (split; by vm_compute).
    pose proof (completion_announced_once [(at_time 9000, Submit 10 0 1 PieceType.NONE); (at_time 9500, ExpireOnTime)] mated Hm) as H.
    assert (state_ mated = RoomState.FINISHED) as Hf by by vm_compute.
    destruct (exec_all _ mated) as [r' evs]. rewrite bool_decide_eq_true_2 in H by exact Hf. exact (proj2 H).
Defined.

(** C9. The contract of [submit_move]. Of an accepted move: the game was live, the caller
    owns the seat whose turn it is, its clock had not run out; the move is the legal
    one asked for, played on the board and recorded with its SAN; status, FEN and
    next legal moves describe the new position; the mover's clock loses the elapsed
    time, gains the increment and stops at zero, the other clock starts. And no legal move
    is refused: in a live game, the owner of the seat to move whose clock still runs gets
    any legal move accepted, named by its squares and its promotion piece. *)
Theorem submit_move_contract env fd r :
  room_reachable r ->
  (forall f t promo r' evs san st w bl fen moves dec,
     submit_move env fd f t promo r = (r', Accepted san st w bl fen moves dec, evs) ->
     accepted_spec env r r' fd f t promo san st w bl fen moves) /\
  (state_ r = RoomState.IN_PROGRESS -> color_of r fd = side_to_move_ (board_ r) ->
   check_flag (steady env 0) r = false ->
   forall m, In m (generate_legal_moves (board_ r)) ->
   exists st w bl fen moves dec,
     snd (fst (submit_move env fd (from m) (to m) (promo_type m) r)) =
     Accepted (move_to_san (board_ r) m) st w bl fen moves dec).
Proof.
  intros Hr. pose proof (room_reachable_ok r Hr) as [_ [[Hok _] _ _ _ _]].
  cbn [g_board abs] in Hok. split; [intros *; by apply submit_accepted, ok_side|]. intros Hs Hc Hf m Hm.
  unfold submit_move. rewrite locked_fst. cbn [snd].
  unfold submit_body. cbv zeta. change (state_ (bump r)) with (state_ r).
  change (board_ (bump r)) with (board_ r). change (color_of (bump r) fd) with (color_of r fd).
  change (check_flag (steady env 0) (bump r)) with (check_flag (steady env 0) r).
  rewrite (bool_decide_eq_true_2 _ Hs), Hc, (bool_decide_eq_true_2 (_ = _) eq_refl), Hf.
  rewrite bool_decide_eq_false_2 by by apply ok_side.
  rewrite (find_move_self (board_ r) m Hok Hm). cbn [negb]. unfold conclude_move. cbn [snd].
  by do 6 eexists.
Qed.

Lemma submit_move_contract_witness :
  let played := submit_move (at_time 3000) 10 Squares.G1 21 PieceType.NONE live in
  exists st w bl fen moves dec,
    snd (fst played) = Accepted (move_to_san (board_ live) (quiet_move Squares.G1 21)) st w bl fen moves dec /\
    accepted_spec (at_time 3000) live (fst (fst played))
      10 Squares.G1 21 PieceType.NONE (move_to_san (board_ live) (quiet_move Squares.G1 21)) st w bl fen moves.
Proof.
  intros played. destruct (submit_move_contract (at_time 3000) 10 live live_reachable) as [H1 H2].
  destruct (H2 ltac:(by vm_compute) ltac:(by vm_compute) ltac:(by vm_compute)
              (quiet_move Squares.G1 21) ltac:(vm_compute; tauto)) as (st & w & bl & fen & moves & dec & E).
  change (snd (fst played) = Accepted (move_to_san (board_ live) (quiet_move Squares.G1 21)) st w bl fen moves dec) in E.
  exists st, w, bl, fen, moves, dec. split; [exact E|].
  apply (H1 Squares.G1 21 PieceType.NONE _ (snd played) _ _ _ _ _ _ dec). rewrite <- E. unfold played.
  by destruct (submit_move (at_time 3000) 10 Squares.G1 21 PieceType.NONE live) as [[r' res] evs].
Defined.

(** C10. A draw by agreement needs both players. Over any calls that leave a game drawn by
    agreement, from a room that starts with no offer: at some point of the live human game
    the connection that owns one seat offered a draw, to an opponent who was there; the
    offer stood, as the offer of that seat, through every call up to a later one in which
    the connection that then owned the other seat accepted it; and that call ended the
    game, for good, as a draw on the board it stood on. Conversely an offer from a seat of
    a live human game is recorded as that seat's, and the answer of the other seat settles
    it: the offer is gone, a yes ends the game as a draw and a no leaves it as it was. *)
Theorem draw_needs_both_players r0 :
  settled r0 ->
  (forall ops, draw_offer_from_ r0 = None -> game_status_ r0 <> GameStatus.DRAW_AGREEMENT ->
     game_status_ (run ops r0) = GameStatus.DRAW_AGREEMENT ->
     exists before between rest e1 e2 fd1 fd2 c, draw_agreed r0 ops before between rest e1 e2 fd1 fd2 c) /\
  (state_ r0 = RoomState.IN_PROGRESS ->
     (forall env fd, is_ai_ (config r0) = false -> color_of r0 fd <> Color.NONE ->
        connected (seat r0 (opposite_color (color_of r0 fd))) = true -> draw_offer_from_ r0 = None ->
        draw_offer_from_ (fst (exec env (OfferDraw fd) r0)) = Some (color_of r0 fd)) /\
     (forall env fd accept c, draw_offer_from_ r0 = Some c -> color_of r0 fd <> Color.NONE -> color_of r0 fd <> c ->
        let r' := fst (exec env (RespondDraw fd accept) r0) in
        draw_offer_from_ r' = None /\
        abs r' = if accept then ended r0 GameStatus.DRAW_AGREEMENT (lit "1/2-1/2") else abs r0)).
Proof.
  intros Hr. split; [intros ops; by apply agreement_history|]. intros Hs.
  split; intros *; [by apply offer_recorded|by apply respond_settles].
Qed.

(** Ann offers, Bob plays no move and accepts. *)
Definition agreement : list (Env * Op) :=
  [(at_time 4000, OfferDraw 10); (at_time 4500, AddSpectator 12); (at_time 5000, RespondDraw 11 true)].

Lemma draw_needs_both_players_witness :
  (exists before between rest e1 e2 fd1 fd2 c, draw_agreed live agreement before between rest e1 e2 fd1 fd2 c) /\
  draw_offer_from_ (fst (exec (at_time 4000) (OfferDraw 10) live)) = Some Color.WHITE /\
  let offered := fst (exec (at_time 4000) (OfferDraw 10) live) in
  abs (fst (exec (at_time 5000) (RespondDraw 11 false) offered)) = abs offered.
Proof.
  destruct (draw_needs_both_players live live_settled) as [H1 H2].
  split; [apply H1; [by vm_compute|by vm_compute|by vm_compute]|]. split.
  - destruct (H2 ltac:(by vm_compute)) as [H3 _].
    exact (H3 (at_time 4000) 10 ltac:(by vm_compute) ltac:(by vm_compute) ltac:(by vm_compute) ltac:(by vm_compute)).
  - intros offered. assert (settled offered) as Ho by (split; by vm_compute).
    destruct (draw_needs_both_players offered Ho) as [_ H]. destruct (H ltac:(by vm_compute)) as [_ H3].
    exact (proj2 (H3 (at_time 5000) 11 false Color.WHITE ltac:(by vm_compute) ltac:(by vm_compute) ltac:(by vm_compute))).
Defined.

(** A flag fall seen by [submit_move] leaves time on the loser's clock: the final
    snapshot of a game lost on time still shows the full ten minutes, whereas
    [expire_on_time] sets the clock to zero. *)
Lemma timeout_keeps_clock :
  let late := at_time 700000 in
  option_map (fun s => (status s, ps_remaining_ms (snap_white s)))
    (head (map snd (completions (snd (exec late (Submit 10 Squares.E2 28 PieceType.NONE) live))))) =
    Some (GameStatus.TIMEOUT, 600000) /\
  option_map (fun s => (status s, ps_remaining_ms (snap_white s)))
    (head (map snd (completions (snd (exec late ExpireOnTime live))))) = Some (GameStatus.TIMEOUT, 0).
Proof. by vm_compute. Qed.
