(* ===== verification/EngineCorrectness.v ===== *)
(** * Correctness of the search engine, the table and the evaluation *)
From Stdlib Require Import Permutation.
From S2P Require Import Prelude Types BoardState Zobrist Board MoveGen Fen Rules Position MakeMove Hashing Preservation Legality FenRoundTrip RoomState Evaluator EvaluatorSpec TransTable Engine EngineSpec AIPlayer.

(** ** A concrete engine *)

Lemma sort_scores_perm l : Permutation (sort_scores l) l.
Proof.
  induction l as [|x l IH]; [done|]. cbn [sort_scores fold_right].
  assert (forall x l, Permutation (insert_score x l) (x :: l)) as Hins.
  { clear. intros x l. induction l as [|y l IH]; cbn [insert_score]; [done|].
    destruct (_ <? _); [|done]. rewrite IH. apply perm_swap. }
  rewrite Hins. by apply perm_skip.
Qed.

Definition small_table : TransTable := mkTT (replicate 16 empty_entry) 15 0.
Definition tick_clock : nat -> Z := fun n => Z.of_nat n * 1000000.
Definition never : nat -> bool := fun _ => false.
Definition engine0 : Engine := mkEngine starting_position small_table.

Lemma small_table_ok : table_ok small_table.
Proof. exists 4. by vm_compute. Qed.

(** C11. The engine and the AI player play by the rules. Whatever the stop flag, the clock,
    the sorting of equal scores and the contents of the transposition table, a search of a
    position that has a legal move answers with a legal move and leaves the engine's board
    as it was; [compute_move] answers with the squares and promotion of a legal move, leaves
    its engine on the board it was given, and starts a search of at least a millisecond, no
    longer than the preset of its difficulty and, on a running clock, never within 50 ms of
    flag fall unless less than that is left. *)
Theorem search_plays_legal stopped now sort e :
  (forall l, Permutation (sort l) l) ->
  (forall limit depth, game_board (eng_board e) -> generate_legal_moves (eng_board e) <> [] ->
     let '(res, e') := search stopped now sort e limit depth in
     legal (eng_board e) (sr_best_move res) /\ eng_board e' = eng_board e) /\
  (forall b d remaining_ms increment_ms, game_board b -> generate_legal_moves b <> [] ->
     let lim := move_limits d remaining_ms increment_ms in
     let '(mv, e') := compute_move stopped now sort e b d remaining_ms increment_ms in
     (exists m, legal b m /\ ai_from mv = from m /\ ai_to mv = to m /\ ai_promotion mv = promo_type m) /\
     eng_board e' = b /\
     1 <= time_ms lim <= time_ms (limits_for d) /\
     (0 <= remaining_ms -> time_ms lim <= Z.max 1 (remaining_ms - 50))).
Proof.
  intros Hsort. split.
  - intros limit depth Hb Hne. pose proof (search_spec stopped now sort Hsort e limit depth Hb Hne) as [H1 H2].
    destruct (search _ _ _ _ _ _) as [res e']. cbn [fst snd] in *. split; [|done].
    apply legal_spec; [apply Hb|done].
  - intros b d remaining_ms increment_ms Hb Hne lim.
    pose proof (compute_move_spec stopped now sort e b d remaining_ms increment_ms Hsort Hb Hne) as H.
    destruct (compute_move _ _ _ _ _ _ _ _) as [mv e']. destruct H as [Hm He].
    by destruct (move_limits_bound d remaining_ms increment_ms) as (? & _ & ?).
Qed.

Lemma search_plays_legal_witness :
  (let '(res, e') := search never tick_clock sort_scores engine0 5 1 in
   legal starting_position (sr_best_move res) /\ eng_board e' = starting_position) /\
  let lim := move_limits AIDifficulty.EASY 100 0 in
  let '(mv, e') := compute_move never tick_clock sort_scores engine0 starting_position AIDifficulty.EASY 100 0 in
  (exists m, legal starting_position m /\ ai_from mv = from m /\ ai_to mv = to m /\
             ai_promotion mv = promo_type m) /\
  eng_board e' = starting_position /\
  1 <= time_ms lim <= 200 /\ (0 <= 100 -> time_ms lim <= 50).
Proof.
  assert (generate_legal_moves starting_position <> []) as Hne by (vm_compute; discriminate).
  destruct (search_plays_legal never tick_clock sort_scores engine0 sort_scores_perm) as [Hs Ha].
  split; [exact (Hs 5 1 start_board Hne)|exact (Ha starting_position AIDifficulty.EASY 100 0 start_board Hne)].
Defined.

(** C12. The quiescence search ends by itself: from 65 minus the ply on, more fuel
    never changes its score, its board or its state, so the bound used by the model
    is never what stops it. *)
Theorem quiescence_terminates stopped now sort deadline f1 f2 ply b alpha beta st :
  64 - ply < Z.of_nat f1 -> 64 - ply < Z.of_nat f2 -> (0 < f1)%nat -> (0 < f2)%nat ->
  quiescence stopped now sort deadline f1 ply b alpha beta st =
  quiescence stopped now sort deadline f2 ply b alpha beta st.
Proof. apply quiescence_fuel. Qed.

Lemma quiescence_terminates_witness :
  quiescence never tick_clock sort_scores 100000000 (q_fuel 60) 60 starting_position (-100) 100
    (mkSearch small_table 0 0) =
  quiescence never tick_clock sort_scores 100000000 70 60 starting_position (-100) 100
    (mkSearch small_table 0 0).
Proof. apply quiescence_terminates; vm_compute; try reflexivity; lia. Defined.

(** C13. A static evaluation never looks like a mate: for every well-formed position
    its absolute value stays below the bound from which the transposition table
    treats scores as mate distances. *)
Theorem evaluation_below_mate b : position_ok b -> Z.abs (evaluate b) < TT_MATE_BOUND.
Proof. apply evaluate_bound. Qed.

Lemma evaluation_below_mate_witness : Z.abs (evaluate starting_position) < TT_MATE_BOUND.
Proof. exact (evaluation_below_mate starting_position (proj1 start_board)). Defined.

(** C14. The transposition table is sound. If every stored entry is justified for its
    key, then a store of a justified entry keeps it so, and a cutoff of [probe] hands out
    a justified entry of the probed key, deep enough, whose bound allows the cutoff: an
    exact score, a lower bound that reaches beta, or an upper bound at most alpha.
    An exact score is found again under its key, at its depth and from any ply, with its
    move, a mate score as the mate distance seen from the probing ply. [resize] allocates
    the largest power of two of 24-byte slots that fits, and the masked index of any key
    stays inside the vector. *)
Theorem tt_sound (valid : Z -> TTEntry -> Prop) t k :
  table_ok t -> table_sound valid t -> 0 <= k ->
  (forall d ply s ty m, valid k (new_entry t (entry_at t k) k d ply s ty m) ->
                        table_sound valid (store t k d ply s ty m)) /\
  (forall d ply a b s0 m0 s m, probe t k d ply a b s0 m0 = (true, s, m) ->
     exists e, valid k e /\ key e = k /\ d <= depth e /\ m = best_move e /\
       s = score_from_tt (score e) ply /\
       match node_type e with
       | TTNodeType.EXACT => True
       | TTNodeType.LOWER_BOUND => b <= s
       | TTNodeType.UPPER_BOUND => s <= a
       | TTNodeType.NONE => False
       end) /\
  (forall d p q s m a b s0 m0, 0 <= d < 128 -> 0 <= p -> 0 <= q -> from m <> to m ->
     replaces t (entry_at t k) k d TTNodeType.EXACT = true ->
     probe (store t k d p s TTNodeType.EXACT m) k d q a b s0 m0 =
     (true, if TT_MATE_BOUND <=? s then s + p - q
            else if s <=? - TT_MATE_BOUND then s - p + q else s, m)) /\
  (forall size_mb, 0 <= size_mb < 2 ^ 40 ->
     let t := resize size_mb in
     (slot t k < length (entries_ t))%nat /\
     (exists n, 0 <= n < 64 /\ Z.of_nat (length (entries_ t)) = 2 ^ n) /\
     Z.of_nat (length (entries_ t)) * entry_bytes <= Z.max 1 size_mb * 2 ^ 20
       < 2 * (Z.of_nat (length (entries_ t)) + 1) * entry_bytes).
Proof.
  intros Ht Hs Hk. split; [|split; [|split]].
  - intros d ply s ty m Hv. by apply store_sound.
  - intros d ply a b s0 m0 s m Hp.
    destruct (probe_sound valid t k d ply a b s0 m0 s m Ht Hs Hk Hp) as (e & ? & ? & _ & ? & ? & ? & Hc).
    exists e. repeat (split; [done|]). revert Hc. unfold cutoff. destruct (node_type e); by rewrite ?Z.leb_le.
  - intros. rewrite probe_after_store by done. by rewrite score_tt_shift.
  - intros size_mb Hm t'. destruct (resize_spec size_mb Hm) as (Ht' & _ & _ & Hb). fold t' in Ht', Hb.
    split; [by apply slot_bound|]. split; [|done]. destruct Ht' as (n & ? & ? & _). by exists n.
Qed.

Lemma tt_sound_witness :
  (forall d ply s ty m, 0 <= 5 -> table_sound (fun k _ => 0 <= k) (store small_table 5 d ply s ty m)) /\
  probe (store small_table 5 3 2 899990 TTNodeType.EXACT (quiet_move 1 18)) 5 3 4 (-10) 10 0 null_move =
    (true, 899988, quiet_move 1 18) /\
  (slot (resize 16) 5 < length (entries_ (resize 16)))%nat.
Proof.
  destruct (tt_sound (fun k _ => 0 <= k) small_table 5 small_table_ok) as (H & _ & Hx & Hi); [|lia|].
  - intros e He Hn. destruct Hn. change (entries_ small_table) with (repeat empty_entry 16) in He.
    by apply repeat_spec in He as ->.
  - split; [exact H|]. split; [|apply Hi; lia].
    apply (Hx 3 2 4 899990 (quiet_move 1 18) (-10) 10 0 null_move);
      vm_compute; try (split; discriminate); try discriminate; done.
Defined.

(** The port's contract for degenerate searches is not what the engine does:
    without a legal move it answers a1-a1 rather than [NO_SQUARE], and a depth or a
    time limit of zero searches no node and plays the first generated move. *)
Lemma degenerate_search stopped now sort e b limits :
  let '(choice, _) := select stopped now sort e b limits in
  (generate_legal_moves b = [] -> mc_from choice = 0 /\ mc_to choice = 0) /\
  (forall m root, generate_legal_moves b = m :: root ->
     max_depth limits = 0 \/ time_ms limits = 0 /\ now 0%nat <= now 1%nat ->
     mc_from choice = from m /\ mc_to choice = to m /\ mc_nodes choice = 0).
Proof.
  unfold select.
  pose proof (search_none stopped now sort (set_position e b) (time_ms limits) (Engine.max_depth limits)) as H1.
  pose proof (search_degenerate stopped now sort (set_position e b) (time_ms limits) (Engine.max_depth limits)) as H2.
  destruct (search _ _ _ _ _ _) as [r e']. cbn [fst snd mc_from mc_to mc_nodes set_position eng_board] in *.
  split.
  - intros E. by rewrite (H1 E).
  - intros m root E Hz. by destruct (H2 m root E Hz) as (-> & _ & ->).
Qed.

(** The piece-square tables are read upside down: on every file a white pawn
    scores 50 on its own second rank and less on the seventh, although the table is
    meant to reward advancing. *)
Lemma pawn_advance_penalised f :
  0 <= f < 8 ->
  pst_bonus PieceType.PAWN Color.WHITE (make_square 6 f) <
  pst_bonus PieceType.PAWN Color.WHITE (make_square 1 f).
Proof. intros H. destruct (pawn_table_reversed f H) as [? ->]. done. Qed.

Lemma pawn_advance_penalised_witness :
  pst_bonus PieceType.PAWN Color.WHITE (make_square 6 4) <
  pst_bonus PieceType.PAWN Color.WHITE (make_square 1 4).
Proof. apply (pawn_advance_penalised 4). lia. Defined.

