(* ===== verification/TournamentCorrectness.v ===== *)
(** * Correctness of tournaments

    Swiss pairing first, then the manager over histories of requests.

    What [pair_swiss_round] promises to a tournament: everyone sits exactly once, no
    forbidden meeting takes place, and no other round would have been cheaper. *)
From S2P Require Import Prelude Swiss SwissSpec.
From stdpp Require Import gmap.
Open Scope Z_scope.

(** C15. Everyone who is still in the tournament sits exactly once, at a board or with a
    bye, and nobody else does; meetings are between two active players whose meeting is
    not forbidden, White going to the one who has had it less often; without forbidden
    meetings there is a bye only in an odd field, and it goes to the lowest seed that
    has not had one (the lowest of all if everyone has). *)
Theorem swiss_round standings played forbidden :
  let active := active_players standings in
  let round := pair_swiss_round standings played forbidden in
  Permutation (flat_map pairing_ids round) (map player_id active) /\
  (forall p, In p round -> is_bye p = false ->
     exists a b, In a active /\ In b active /\ white_id p = player_id a /\ black_id p = player_id b /\
       whites_played a <= whites_played b /\ player_pair (player_id a) (player_id b) ∉ forbidden) /\
  (forbidden = ∅ ->
     if Nat.odd (length active)
     then exists p rest, bye_choice (isort higher_seed active) p rest /\
            List.filter is_bye round = [bye_pairing p]
     else List.filter is_bye round = []) /\
  let '(bye, pool) := carve_bye (isort higher_seed active) forbidden in
  exists r,
    round = emit_meetings pool r ++ map bye_pairing bye ++ emit_byes pool r /\
    covers pool forbidden r (seq 0 (length pool)) /\
    forall r', covers pool forbidden r' (seq 0 (length pool)) ->
      cost_le (round_cost pool played r) (round_cost pool played r').
Proof.
  cbv zeta. rewrite pair_swiss_round_eq. set (seeds := isort higher_seed (active_players standings)).
  pose proof (isort_perm higher_seed (active_players standings)) as Hseeds. fold seeds in Hseeds.
  pose proof (carve_bye_even seeds forbidden) as He. pose proof (carve_bye_perm seeds forbidden) as Hperm.
  pose proof (carve_bye_spec seeds forbidden) as Hbye.
  destruct (carve_bye seeds forbidden) as [bye pool]. cbn [fst snd] in *. cbv zeta.
  destruct (best_round_spec pool played forbidden (round_exists pool forbidden He)) as [[Hr Hm] _].
  set (r := best_round pool played forbidden) in *.
  assert (forall i, In i (flat_map seats r) -> (i < length pool)%nat) as Hlt
    by (intros i Hi; apply (Permutation_in i Hr) in Hi; apply in_seq in Hi; lia).
  split; [|split; [|split]].
  - apply everyone_listed; [done|]. by rewrite Hperm.
  - intros p Hp Hb. rewrite app_assoc in Hp.
    rewrite !in_app_iff in Hp. destruct Hp as [[Hp|Hp]|Hp].
    + destruct (emitted_meeting pool forbidden r p Hm Hlt Hp) as (_ & a & b & Ha & Hb' & Hrest).
      exists a, b. repeat split; try tauto; apply (Permutation_in _ Hseeds), (Permutation_in _ Hperm), in_app_iff; by right.
    + apply in_map_iff in Hp as (q & <- & _). discriminate.
    + apply in_flat_map in Hp as ([i j] & _ & Hp). destruct (i =? j)%nat; [|done].
      destruct Hp as [<-|[]]. discriminate.
  - intros Hf. rewrite (bool_decide_eq_true_2 _ Hf), andb_true_r, <- (Permutation_length Hseeds) in *.
    rewrite (byes_filter pool forbidden r bye Hf Hm).
    destruct (Nat.odd (length seeds)); [destruct Hbye as (p & -> & Hc)|by destruct Hbye as [-> _]].
    by exists p, pool.
  - exists r. split; [done|]. by apply best_round_spec, round_exists.
Qed.

(** ** Correctness of the tournaments

    What a tournament promises over its whole life: whatever requests arrive, in whatever
    order, and whichever statements of the database fail on the way, results are final
    and rounds are played in order; without faults the scores, the byes and the progress
    of the rounds are right as well. *)
From stdpp Require Import strings gmap.
From S2P Require Import Prelude Swiss SwissSpec Storage StorageSpec TournamentRepo TournamentManager StandingsSpec TournamentSpec TournamentSteps TournamentBalance.
Open Scope string_scope.
Open Scope list_scope.
Open Scope Z_scope.

(** ** An example

    Three players register, the first round is drawn and played. *)

Definition at_time (now : Z) : Environment :=
  mkEnvironment (fun _ => mkOutcome Works "" now) (fun _ => now).

(** The third statement is applied, but the reply is lost. *)
Definition losing_reply (now : Z) : Environment :=
  mkEnvironment (fun n => mkOutcome (if Nat.eqb n 2 then Lost else Works) "connection lost" now) (fun _ => now).

Definition first_round : list (Environment * request) :=
  [(at_time 0, Create "open" 3 1000 0 1 1000 2000 60 "swiss"); (at_time 10, Join 1 1 1200);
   (at_time 10, Join 1 2 1300); (at_time 10, Join 1 3 1300); (at_time 1950, Tick);
   (at_time 2001, Tick); (at_time 2002, Report 1 "1-0")].

Definition keep_order (A : Type) (l : list A) : list A := l.
Definition as_typed (s : string) : string := s.
Definition three_players : Tables := empty_tables [(1, "a"); (2, "b"); (3, "c")] [] 1 1.

Lemma first_round_calm er : In er first_round -> no_fault (fst er).
Proof. intros Her. repeat (destruct Her as [<-|Her]; [done|]). destruct Her. Defined.

(** C16. Tournaments only move forward. From an empty database, after any requests and
    then any more, in whatever environment (statements refused, replies lost, clocks
    arbitrary) and whatever order the scheduler takes the due tournaments in: no
    tournament, round, pairing or check-in disappears; the terms of a tournament never
    change and neither its status nor that of a round goes back; a pairing keeps its
    players, and once its result is known it stays known and is the same unless someone
    overrode it meanwhile; and once a tournament is paired nobody enters or leaves it. And
    rounds are played in order: identifiers are unique; every round belongs to a tournament
    and is under way or over only when the round before it is over; every pairing lies in a
    round, and only the first round is paired before it starts; all the results of a
    completed round are known; a tournament still open to registration has no pairings; and
    a pairing without Black is a bye, and no other pairing is. *)
Theorem tournament_moves_forward normal arrange people past n m earlier later :
  (forall A (l : list A), Permutation (arrange A l) l) ->
  let db := run_requests normal arrange earlier (empty_tables people past n m) in
  evolves (overridden later) db (run_requests normal arrange later db) /\ coherent db.
Proof.
  intros Ha. cbv zeta.
  assert (coherent (run_requests normal arrange earlier (empty_tables people past n m))) as Hdb
    by (eapply kp_coherent, (run_requests_kept _ _ Ha (overridden earlier)); [apply empty_coherent|done]).
  split; [|done]. by eapply kp_evolves, run_requests_kept.
Qed.

Lemma tournament_moves_forward_witness :
  let db := run_requests as_typed keep_order first_round three_players in
  let db' := run_requests as_typed keep_order [(losing_reply 2003, Report 1 "0-1"); (losing_reply 5000, Tick)] db in
  (exists p, In p (pairings db) /\ pr_result p = "1-0") /\
  evolves (overridden [(losing_reply 2003, Report 1 "0-1"); (losing_reply 5000, Tick)]) db db' /\ coherent db.
Proof.
  split.
  - eexists. split; [vm_compute; left; reflexivity|reflexivity].
  - apply (tournament_moves_forward as_typed keep_order). intros A l. apply Permutation_refl.
Defined.

(** C17. Without faults every reachable state is settled: besides the above, the score,
    the colours and the bye stored for every player are those of a recount of the
    results; nobody sits twice in a round, and who sits is a participant; and a round
    whose results are all known is completed, with the next round allocated unless the
    tournament is over: no tournament is stuck between two rounds. *)
Theorem tournament_settled normal arrange people past n m history :
  (forall A (l : list A), Permutation (arrange A l) l) ->
  (forall er, In er history -> no_fault (fst er)) ->
  settled (run_requests normal arrange history (empty_tables people past n m)).
Proof. intros Ha Hc. apply run_requests_settled; [done..|]. apply empty_settled. Qed.

Lemma tournament_settled_witness : settled (run_requests as_typed keep_order first_round three_players).
Proof.
  apply (tournament_settled as_typed keep_order).
  - intros A l. apply Permutation_refl.
  - exact first_round_calm.
Defined.

(** C18. A due round is paired. In a state reached without faults, when a round of a Swiss
    tournament is scheduled, its time has come and the round before it is over, then
    [start_due_round] succeeds and seats every participant who has not withdrawn exactly
    once, at a board or with a bye, and nobody else. *)
Theorem due_round_seats_everyone normal arrange people past n0 m0 history t n now env :
  (forall A (l : list A), Permutation (arrange A l) l) ->
  (forall er, In er history -> no_fault (fst er)) -> no_fault env ->
  let db := run_requests normal arrange history (empty_tables people past n0 m0) in
  In t (tournaments db) -> t_status t <> "completed" -> is_elimination t = false ->
  existsb (startable (t_id t) n now db) (rounds db) = true -> round_of (t_id t) n db = [] ->
  let active := List.filter (fun p => negb (tp_withdrawn p)) (participants_of (t_id t) db) in
  active <> [] ->
  let '(r, w) := start_due_round (t_id t) n now env (session db) in
  r = Fine /\
  Permutation (flat_map sitters (round_of (t_id t) n (tables w))) (map tp_player active).
Proof.
  intros Ha Hc He db Ht Hopen Hf Hdue Hempty active Hactive.
  assert (settled db) as Hs by (apply run_requests_settled; [done..|]; apply empty_settled).
  assert (Permutation (flat_map pairing_ids (dealt_to (t_id t) n db t)) (map tp_player active)) as Hd.
  { unfold dealt_to, dealt_pairings. rewrite Hf. cbn [andb app]. rewrite round_seats_everyone.
    unfold pairing_pool, active_players. cbn [andb]. unfold active. clear.
    rewrite <- (filter_perm _ _ _ (isort_perm player_before (participants_of (t_id t) db))).
    induction (isort player_before _) as [|p l IH]; [done|]. cbn [map List.filter to_standing withdrawn].
    destruct (tp_withdrawn p); cbn [negb map]; [done|]. by constructor. }
  pose proof (calm_start_due_round None (t_id t) n now t db Hs Ht eq_refl Hopen env (session db) eq_refl eq_refl
    ltac:(done)) as H.
  destruct (start_due_round _ _ _ _ _) as [r w]. destruct H as ((_ & H) & _).
  destruct H as [Hr Hst]; [done|done| | |].
  - intros E. apply Hactive. unfold active. by rewrite E.
  - intros E. apply Hactive. rewrite E in Hd. by apply Permutation_nil, map_eq_nil in Hd.
  - split; [done|]. by rewrite Hst.
Qed.

Definition after_first_round : Tables := Eval vm_compute in run_requests as_typed keep_order first_round three_players.

Lemma after_first_round_eq : run_requests as_typed keep_order first_round three_players = after_first_round.
Proof. vm_compute. reflexivity. Defined.

Definition open_event : StoredTournament := Eval vm_compute in
  nth 0 (tournaments after_first_round) (mkTournament 0 "" "" 0 0 0 0 "" 0 0 0 0 true None 0 None None).

Lemma due_round_seats_everyone_witness :
  let '(r, w) := start_due_round 1 2 3000 (at_time 3000) (session after_first_round) in
  r = Fine /\ Permutation (flat_map sitters (round_of 1 2 (tables w))) [1; 2; 3].
Proof.
  rewrite <- after_first_round_eq.
  apply (due_round_seats_everyone as_typed keep_order [(1, "a"); (2, "b"); (3, "c")] [] 1 1 first_round open_event).
  - intros A l. apply Permutation_refl.
  - exact first_round_calm.
  - done.
  - fold three_players. rewrite after_first_round_eq. vm_compute. left. reflexivity.
  - done.
  - reflexivity.
  - fold three_players. rewrite after_first_round_eq. vm_compute. reflexivity.
  - fold three_players. rewrite after_first_round_eq. vm_compute. reflexivity.
  - fold three_players. rewrite after_first_round_eq. vm_compute. discriminate.
Defined.

(** C19. The standings. In a state reached without faults [get_state] finds the tournament,
    and its rows are the participants, one each, with their stored scores, which are the
    sums of the points of their pairings, the Buchholz scores (the sum of the scores of
    the opponents met, a bye counting one's own), and the numbers of wins and draws. In
    a Swiss tournament they stand in the order of score, Buchholz and rating, in an
    elimination in the order of the round reached, survivors of the last round first;
    the rank of a row is one more than the number of participants placed above it, so in
    an elimination those who fell in the same round share a rank. *)
Theorem standings_table normal arrange people past n m history t env :
  (forall A (l : list A), Permutation (arrange A l) l) ->
  (forall er, In er history -> no_fault (fst er)) -> no_fault env ->
  let db := run_requests normal arrange history (empty_tables people past n m) in
  In t (tournaments db) ->
  exists s order,
    In s (snapshots (t_id t) db) /\ sn_tournament s = t /\
    fst (get_state (t_id t) env (session db)) = Some (mkState t (map (row_of s) order)
      (sn_pairings s) (sn_rounds s) (sn_usernames s) (sn_check_ins s)) /\
    Permutation order (participants_of (t_id t) db) /\
    Sorted.StronglySorted (fun p q =>
      lexb (place_of s p ++ [tp_player p]) (place_of s q ++ [tp_player q]) = true) order /\
    forall p, In p order ->
      tp_score p = sum_points (map (points pr_result (tp_player p)) (pairings_of (t_id t) db)).
Proof.
  intros Ha Hc He db Ht.
  assert (settled db) as Hs by (apply run_requests_settled; [done..|]; apply empty_settled).
  destruct (snapshot_one t db (s_coherent _ Hs) Ht) as (s & Hone & Est & Hps).
  assert (Permutation (sn_participants s) (participants_of (t_id t) db)) as Hp by (rewrite Hps; apply isort_perm).
  destruct (standings_rows s) as (order & Ho & Hsorted & Hrows).
  { apply (Permutation_NoDup (Permutation_map tp_player (Permutation_sym Hp))), participants_once, Hs. }
  exists s, order. rewrite Hone. split; [by left|]. split; [done|]. split; [|split; [by rewrite Ho|split; [done|]]].
  - pose proof (calm_snapshot (t_id t) db) as H. rewrite Hone in H. unfold get_state. cbn.
    specialize (H env (session db) eq_refl eq_refl ltac:(done)).
    change (fst (let '(a, w) := read_tournament_snapshot (t_id t) env (session db) in
      (match a with Some s => Some (mkState (sn_tournament s) (standings s) (sn_pairings s) (sn_rounds s)
        (sn_usernames s) (sn_check_ins s)) | None => None end, w)) = Some (mkState t (map (row_of s) order)
      (sn_pairings s) (sn_rounds s) (sn_usernames s) (sn_check_ins s))).
    destruct (read_tournament_snapshot _ _ _) as [a w]. destruct H as (-> & _). cbn. by rewrite Hrows, Est.
  - intros p Hin. apply (score_sum (t_id t) db p (s_totals _ Hs)). by rewrite <- Hp, <- Ho.
Qed.

Lemma standings_table_witness :
  exists s order,
    In s (snapshots 1 after_first_round) /\ sn_tournament s = open_event /\
    fst (get_state 1 (at_time 3000) (session after_first_round)) = Some (mkState open_event (map (row_of s) order)
      (sn_pairings s) (sn_rounds s) (sn_usernames s) (sn_check_ins s)) /\
    Permutation order (participants_of 1 after_first_round) /\
    Sorted.StronglySorted (fun p q =>
      lexb (place_of s p ++ [tp_player p]) (place_of s q ++ [tp_player q]) = true) order /\
    forall p, In p order ->
      tp_score p = sum_points (map (points pr_result (tp_player p)) (pairings_of 1 after_first_round)).
Proof.
  rewrite <- after_first_round_eq.
  apply (standings_table as_typed keep_order [(1, "a"); (2, "b"); (3, "c")] [] 1 1 first_round open_event).
  - intros A l. apply Permutation_refl.
  - exact first_round_calm.
  - done.
  - fold three_players. rewrite after_first_round_eq. vm_compute. left. reflexivity.
Defined.

Lemma report_known o id result db p :
  List.filter (fun q => pr_id q =? id) (pairings db) = [p] -> is_pending p = false ->
  wp false o (report_result id result) (fun r db' => db' = db /\ (r = Fine -> pr_result p = result)) db.
Proof.
  intros E Hd. unfold report_result. wp_step. wp_step; cbn [rows_of]; [rewrite E, Hd|by wp_step].
  cbn [negb].
  wp_step. split; [done|]. unfold has_result. by destruct (String.eqb_spec (pr_result p) result).
Qed.

(** C20. Reporting a result twice. Whatever the database does, a report for a pairing whose
    result is already known changes nothing, not even the round it belongs to, and it
    succeeds only if it repeats the known result. So when the statement that stores the
    last result of a round works and a later one fails, sending the result again does not
    close the round. *)
Theorem second_report_changes_nothing id result env w p :
  coherent (tables w) -> In p (pairings (tables w)) -> pr_id p = id -> is_pending p = false ->
  let '(r, w') := report_result id result env w in
  tables w' = tables w /\ (r = Fine -> pr_result p = result).
Proof.
  intros Hc Hp <- Hd.
  destruct (filter_key pr_id (pairings (tables w)) (pr_id p) (c_pairings _ Hc)) as [E|[q E]];
    (assert (In p (List.filter (fun q => pr_id q =? pr_id p) (pairings (tables w)))) as Hin
      by (apply filter_In; by rewrite Z.eqb_eq)); rewrite E in Hin; [done|].
  destruct Hin as [->|[]].
  pose proof (report_known (saved w) (pr_id p) result (tables w) p E Hd env w eq_refl eq_refl ltac:(done)) as H.
  destruct (report_result _ _ _ _) as [r w']. apply H.
Qed.

Lemma second_report_changes_nothing_witness :
  coherent after_first_round /\
  let '(r, w') := report_result 1 "0-1" (losing_reply 3000) (session after_first_round) in
  tables w' = after_first_round /\ (r = Fine -> "1-0" = "0-1").
Proof.
  assert (coherent after_first_round) as Hc.
  { rewrite <- after_first_round_eq. eapply kp_coherent, (run_requests_kept as_typed keep_order _ (fun _ => True));
      [apply empty_coherent|done]. }
  split; [exact Hc|].
  apply (second_report_changes_nothing 1 "0-1" (losing_reply 3000) (session after_first_round)
    (nth 0 (pairings after_first_round) (mkStoredPairing 0 0 0 0 None None None "" None None))); [exact Hc| | |].
  - vm_compute. left. reflexivity.
  - reflexivity.
  - reflexivity.
  Unshelve. intros A l. apply Permutation_refl.
Defined.
