(* ===== verification/LobbyCorrectness.v ===== *)
(** * Correctness of the lobby: matchmaking queue and registry of rooms

    What the two services promise to their callers, whatever the order of the calls. *)
From Stdlib Require Import Permutation Sorted.
From S2P Require Import Prelude Types BoardState Zobrist Board MoveGen Fen Uci Notation RoomState GameRoom GameRoomSpec RoomManager LobbySpec Matchmaker.
From stdpp Require Import gmap.
Open Scope Z_scope.

(** C21. After any sequence of [enqueue], [dequeue] and [try_match] the two indexes of
    the matchmaker describe one queue: [is_queued] finds exactly the connections that
    wait, each of them waits once, in the bucket of its time control, and buckets are
    ordered by rating. [enqueue] succeeds exactly for a connection that does not wait and
    adds its entry; [dequeue] succeeds exactly for one that waits and takes out its entry
    and no other. [try_match] is fair and loses nobody: every result pairs two players who
    waited for the same time control and whose ratings were no further apart than either
    accepts, at some reading of the clock (200 points, and 50 more for every full ten
    seconds waited); both sit, connected and with full clocks, in a fresh room that
    is under way, White rated no higher than Black; nobody is matched twice, those not matched
    keep waiting, matched connections have left the queue, and two neighbours of a bucket
    who are in range at every reading make some match happen. To the registry it is a
    run of its own calls. *)
Theorem matchmaker_queue mm :
  reachable mm ->
  (forall fd, is_queued fd mm = true <-> exists e, queued mm e /\ q_connection_fd e = fd) /\
  (forall e e', queued mm e -> queued mm e' -> q_connection_fd e = q_connection_fd e' -> e = e') /\
  (forall tc, StronglySorted by_elo (bucket mm tc) /\
              List.Forall (fun x => q_time_control (snd x) = tc) (bucket mm tc)) /\
  queue_size mm = wrap64 (Z.of_nat (size (fd_index_ mm))) /\
  (forall now fd pid name elo tc db_id,
     let '(ok, mm') := enqueue now fd pid name elo tc db_id mm in
     ok = negb (is_queued fd mm) /\
     forall e, queued mm' e <-> queued mm e \/ ok = true /\ e = mkQueueEntry fd pid db_id name elo tc now) /\
  (forall fd,
     let '(ok, mm') := dequeue fd mm in
     ok = is_queued fd mm /\ forall e, queued mm' e <-> queued mm e /\ q_connection_fd e <> fd) /\
  (forall now envs order rm,
     0 <= next_id_ rm -> next_id_ rm + Z.of_nat (size (fd_index_ mm)) < 2 ^ 32 ->
     (forall l, Permutation (order l) l) ->
     let sw := try_match now envs order mm rm in
     List.Forall (fair_match now mm (sw_rooms sw)) (sw_results sw) /\
     (forall e t, 0 <= t - q_enqueue_time e < 2 ^ 31 * 1000000000 ->
        acceptable_range e t = 200 + 50 * ((t - q_enqueue_time e) / 10000000000)) /\
     List.NoDup (matched (sw_results sw)) /\
     (forall e, queued (sw_queue sw) e <-> queued mm e /\ ~ In (q_connection_fd e) (matched (sw_results sw))) /\
     (size (fd_index_ (sw_queue sw)) + 2 * length (sw_results sw) = size (fd_index_ mm))%nat /\
     (forall tc, neighbours now (bucket mm tc) -> sw_results sw <> []) /\
     reachable (sw_queue sw) /\ manager_run rm (sw_rooms sw)).
Proof.
  intros H. pose proof (reachable_consistent mm H) as Hc. split; [|split; [|split; [|split; [|split; [|split]]]]].
  - intros fd. by apply queued_index.
  - intros e e' (tc & k & He) (tc' & k' & He') E. by destruct (waits_unique mm tc k e tc' k' e' Hc He He' E) as (_ & _ & ->).
  - intros tc. split; [apply (c_sorted _ Hc)|]. apply List.Forall_forall. intros [k e] Hin.
    by apply (c_entry _ Hc tc k e).
  - apply (c_size _ Hc).
  - intros *. by apply enqueue_spec.
  - intros fd. pose proof (dequeue_spec fd mm Hc) as Hd. destruct (dequeue fd mm) as [ok mm'].
    destruct Hd as (_ & Hok & _ & Hw). split; [done|]. intros e. unfold queued. setoid_rewrite Hw.
    split; [intros (tc & k & ? & ?); split; [by exists tc, k|done]|intros [(tc & k & ?) ?]; by exists tc, k].
  - intros now envs order rm Hpos Hfit Ho. cbv zeta.
    assert (Z.of_nat (size (fd_index_ mm)) < 2 ^ 32 /\ 0 <= next_id_ rm < 2 ^ 32) as [Hs Hn] by lia.
    destruct (try_match_progress mm rm now envs Hs order Hc Hn Ho) as [_ Hw Hm Hsz _ _ Hf Hr].
    split; [done|]. split; [by apply acceptable_range_spec|]. split; [done|]. split; [|split; [done|split; [|split]]].
    + intros e. unfold queued. setoid_rewrite Hw.
      split; [intros (tc & k & ? & ?); split; [by exists tc, k|done]|intros [(tc & k & ?) ?]; by exists tc, k].
    + intros tc. by apply try_match_finds.
    + by apply r_match.
    + by apply Hr.
Qed.

(** Two players at five minutes, rated 1500 and 1600, and one at ten minutes. *)
Definition five : TimeControl := mkTimeControl 300000 0.
Definition ten : TimeControl := mkTimeControl 600000 0.
Definition three_waiting : Matchmaker :=
  snd (enqueue 0 12 3 (lit "carol") 1550 ten 103
    (snd (enqueue 0 11 2 (lit "bob") 1500 five 102
      (snd (enqueue 0 10 1 (lit "alice") 1600 five 101 new_matchmaker))))).

Lemma three_reachable : reachable three_waiting.
Proof. repeat constructor. Qed.

Lemma matchmaker_queue_witness :
  reachable three_waiting /\ is_queued 11 three_waiting = true /\
  (exists e, queued three_waiting e /\ q_connection_fd e = 11) /\
  let sw := try_match (fun _ => 1000) (fun _ => mkEnv (fun _ => 1000) 0 []) (fun l => l)
              three_waiting new_manager in
  List.Forall (fair_match (fun _ => 1000) three_waiting (sw_rooms sw)) (sw_results sw) /\ sw_results sw <> [] /\
  map white_fd (sw_results sw) = [11] /\ map black_fd (sw_results sw) = [10].
Proof.
  split; [exact three_reachable|]. split; [vm_compute; reflexivity|].
  destruct (matchmaker_queue three_waiting three_reachable) as (Hq & _ & _ & _ & _ & _ & H).
  split; [apply Hq; vm_compute; reflexivity|].
  assert (0 <= next_id_ new_manager) as H1 by (vm_compute; discriminate).
  assert (next_id_ new_manager + Z.of_nat (size (fd_index_ three_waiting)) < 2 ^ 32) as H2 by (vm_compute; reflexivity).
  destruct (H (fun _ => 1000) (fun _ => mkEnv (fun _ => 1000) 0 []) (fun l => l)
    new_manager H1 H2 (fun l => Permutation_refl l)) as (Hf & _ & _ & _ & _ & Hl & _).
  split; [exact Hf|]. split; [|split; vm_compute; reflexivity].
  apply (Hl five). exists [], (1%nat, mkQueueEntry 11 2 102 (lit "bob") 1500 five 0),
    (0%nat, mkQueueEntry 10 1 101 (lit "alice") 1600 five 0), []. split; [vm_compute; reflexivity|]. intros i. split; vm_compute; discriminate.
Defined.

(** C22. The registry of rooms is sound in every state its calls and the calls on its
    rooms can lead to (identifiers not exhausted): each room is listed under its own
    identifier and was reached by the operations of [GameRoom]; a pairing leads to a
    room that is listed and reserved for it, so two pairings never share a room; asking
    again for the room of a pairing gives the same room and changes nothing; a cleanup
    drops exactly the finished rooms and counts them. *)
Theorem registry_sound rm :
  manager_run new_manager rm ->
  (forall id r, find_room id rm = Some r -> id_ (config r) = id /\ room_reachable r) /\
  (forall p id, find_room_by_pairing p rm = Some id ->
     exists r, find_room id rm = Some r /\ pairing_id_ (config r) = p /\
               is_tournament_reserved_ (config r) = true) /\
  (forall t p w wn we b bn be tc, next_id_ rm + 1 < 2 ^ 32 ->
     let '(id, rm') := create_reserved_tournament_room t p w wn we b bn be tc rm in
     find_room_by_pairing p rm' = Some id /\
     (forall q, q <> p -> find_room_by_pairing q rm' = find_room_by_pairing q rm) /\
     forall t' w' wn' we' b' bn' be' tc',
       create_reserved_tournament_room t' p w' wn' we' b' bn' be' tc' rm' = (id, rm')) /\
  (forall order, (forall l, Permutation (order l) l) ->
     let '(removed, rm') := cleanup_finished_rooms order rm in
     (forall id r, find_room id rm' = Some r <-> find_room id rm = Some r /\ is_finished r = false) /\
     removed = Z.of_nat (length (finished_in (map_to_list (rooms_ rm))))).
Proof.
  intros H. pose proof (manager_run_ok _ _ H new_manager_ok) as Hok. split; [|split; [|split]].
  - intros id r Hr. destruct (ro_room _ Hok id r Hr) as (? & _ & ?). done.
  - intros p id Hp. rewrite find_room_by_pairing_spec in Hp by done. by apply ro_pairing in Hp.
  - intros t p w wn we b bn be tc Hb. pose proof (create_reserved_ok t p w wn we b bn be tc rm Hok Hb) as Hc.
    destruct (create_reserved_tournament_room _ _ _ _ _ _ _ _ _ rm) as [id rm']. destruct Hc as (_ & Hp & Hq).
    split; [done|]. split; [done|]. intros *. unfold create_reserved_tournament_room. by rewrite Hp.
  - intros order Ho. pose proof (cleanup_ok order rm Hok Ho) as Hc.
    destruct (cleanup_finished_rooms order rm). by destruct Hc as (_ & ? & ?).
Qed.

(** A registry with an open room and the room of pairing 7. *)
Definition lobby : RoomManager :=
  snd (create_reserved_tournament_room 1 7 101 (lit "alice") 1600 102 (lit "bob") 1500 five
    (snd (create_room 3 (lit "carol") 12 ten 103 1550 new_manager))).

Lemma registry_sound_witness :
  manager_run new_manager lobby /\
  exists r, find_room 2 lobby = Some r /\ pairing_id_ (config r) = 7 /\ is_tournament_reserved_ (config r) = true.
Proof.
  assert (manager_run new_manager lobby) as H.
  { eapply mr_step; [eapply mr_step; [apply mr_refl|]|]; [apply ms_create|apply ms_create_reserved];
      vm_compute; reflexivity. }
  split; [exact H|]. apply (registry_sound lobby H). vm_compute. reflexivity.
Defined.
