(* ===== verification/TransportCorrectness.v ===== *)
(** * Correctness of the transport: base64 and WebSocket framing

    What the codecs and the read loop promise to the layers above. *)
From stdpp Require Import gmap strings.
From S2P Require Import Prelude Types BoardState Zobrist Board MoveGen Fen Uci Notation WebSocket WebSocketSpec Base64.
Open Scope Z_scope.

(** C34. Both base64 codecs are bijections between byte strings and the texts they accept.
    Decoding inverts encoding, with no expected length or with the right one; and a text
    is accepted only when it is the code of the bytes returned, so no two texts decode
    to the same bytes (no lax padding, no stray trailing bits, no foreign characters). *)
Theorem base64_bijective :
  (forall bytes n, List.Forall byte_ok bytes -> expected n bytes ->
     decode_base64 (encode_base64 bytes) n = Some bytes /\
     decode_base64url (encode_base64url bytes) n = Some bytes /\
     length (encode_base64 bytes) = (4 * ((length bytes + 2) / 3))%nat) /\
  (forall text n bytes, decode_base64 text n = Some bytes ->
     text = encode_base64 bytes /\ List.Forall byte_ok bytes /\ expected n bytes) /\
  (forall text n bytes, decode_base64url text n = Some bytes ->
     text = encode_base64url bytes /\ List.Forall byte_ok bytes /\ expected n bytes).
Proof.
  split; [|split; [apply padded_backward|apply url_backward]]. intros bytes n Hb Hn.
  split; [by apply padded_forward|]. split; [by apply url_forward|by apply encode_length].
Qed.

Lemma base64_bijective_witness :
  decode_base64 (lit "Zm9vYg==") 4 = Some [102; 111; 111; 98] /\
  encode_base64 [102; 111; 111; 98] = lit "Zm9vYg==" /\ decode_base64 (lit "Zm9vYh==") 0 = None.
Proof.
  assert (decode_base64 (lit "Zm9vYg==") 4 = Some [102; 111; 111; 98]) as H by (vm_compute; reflexivity).
  split; [exact H|]. split; [symmetry; exact (proj1 (proj1 (proj2 base64_bijective) _ _ _ H))|].
  vm_compute. reflexivity.
Defined.

(** C35. Frames come out as they went in. A frame of RFC 6455 at the head of the read
    buffer, masked or not, of any of the three length encodings, is read back exactly
    and taken off the buffer; one whose announced payload exceeds the limit is refused
    and the buffer left alone; and what [write_frame] queues is the RFC's unmasked frame.
    The read loop depends on the stream, not on its segments: when a connection is
    served on what has arrived, and on the rest [more] once that arrives, the messages
    routed, the replies queued and the final state are those of serving everything at
    once (the clock being read from [tick'] on); after a close nothing more is served.
    Reading never leaves the buffer, an incomplete frame stays in it untouched, and no
    write exceeds the write limit. *)
Theorem frames_roundtrip :
  (forall f key rest c, frame_ok f -> key_ok key -> read_buffer_ c = rfc_frame f key ++ rest ->
     read_next_frame c =
     if MAX_FRAME_PAYLOAD <? Z.of_nat (length (payload f)) then (TooLarge, c)
     else (Frame f, c <| read_buffer_ := rest |>)) /\
  (forall op data c, 0 <= op < 16 -> write_buffer_overflowed_ c = false ->
     let frame := rfc_frame (mkFrame true op data) None in
     Z.of_nat (length (write_buffer_ c) + length frame) <= MAX_WRITE_BUFFER_BYTES ->
     write_frame op data c = c <| write_buffer_ := write_buffer_ c ++ frame |>) /\
  (forall now on_message c more tick, handler_ok on_message -> List.Forall byte_ok (read_buffer_ c) ->
     let serve := serve_frames now on_message in
     let '(ms, c1, closed) := serve (length (read_buffer_ c)) tick c in
     exists tick',
       serve (length (read_buffer_ (receive more c))) tick (receive more c) =
       if closed : bool then (ms, receive more c1, true)
       else let '(ms', c2, closed') := serve (length (read_buffer_ (receive more c1))) tick' (receive more c1) in
            (ms ++ ms', c2, closed')) /\
  (forall c, List.Forall byte_ok (read_buffer_ c) ->
     (forall c', read_next_frame c <> (Crash, c')) /\ (forall c', read_next_frame c = (NeedMore, c') -> c' = c)) /\
  (forall data c, Z.of_nat (length (write_buffer_ c)) <= MAX_WRITE_BUFFER_BYTES ->
     Z.of_nat (length (write_buffer_ (append_to_write_buffer data c))) <= MAX_WRITE_BUFFER_BYTES).
Proof.
  split; [apply read_rfc|]. split; [apply write_rfc|]. split; [|split].
  - intros now on_message c more tick Hh Hb. cbv zeta.
    pose proof (serve_segments now on_message Hh _ tick c more (le_n _) Hb) as H.
    destruct (serve_frames _ _ _ _ c) as [[ms c1] closed]. destruct H as [tick' H]. exists tick'.
    apply H; change (read_buffer_ (receive more ?x)) with (read_buffer_ x ++ more); by rewrite length_app.
  - intros c Hb. split; [intros c'; by apply read_next_frame_safe|apply read_next_frame_wait].
  - intros data c. apply append_bounded.
Qed.

(** A masked text frame from a client, with a byte of the next frame behind it. *)
Definition hello : WsFrame := mkFrame true WsOpcode.TEXT [72; 101; 108; 108; 111].
Definition hello_received : Connection :=
  receive [129; 133; 55; 250; 33; 61; 127; 159; 77; 81; 88; 129] (new_connection 0).

(** A handler that answers every message with an empty one. *)
Definition echo (m : str) (c : Connection) : Connection := write_frame WsOpcode.TEXT [] c.

Lemma echo_ok : handler_ok echo.
Proof. split; intros *; unfold echo, write_frame; [apply append_receive|apply append_keeps_read]. Qed.

(** The frame is read, and in two segments it is one message, whether it is served once or
    twice. *)
Lemma frames_roundtrip_witness :
  read_next_frame hello_received = (Frame hello, hello_received <| read_buffer_ := [129] |>) /\
  let c := receive [129; 133; 55; 250] (new_connection 0) in
  let more := [33; 61; 127; 159; 77; 81; 88] in
  serve_frames (fun _ => 7) echo (length (read_buffer_ c)) 0 c = ([], c, false) /\
  (exists tick', serve_frames (fun _ => 7) echo (length (read_buffer_ (receive more c))) 0 (receive more c) =
     serve_frames (fun _ => 7) echo (length (read_buffer_ (receive more c))) tick' (receive more c)) /\
  fst (fst (serve_frames (fun _ => 7) echo 11 0 (receive more c))) = [lit "Hello"].
Proof.
  split.
  - apply (proj1 frames_roundtrip hello (Some [55; 250; 33; 61]) [129]).
    + split; [vm_compute; split; [discriminate|reflexivity]|]. split; [|vm_compute; reflexivity].
      repeat (constructor; [split; [discriminate|reflexivity]|]). constructor.
    + split; [reflexivity|]. repeat (constructor; [split; [discriminate|reflexivity]|]). constructor.
    + vm_compute. reflexivity.
  - cbv zeta. assert (List.Forall byte_ok (read_buffer_ (receive [129; 133; 55; 250] (new_connection 0)))) as Hb
      by (repeat (constructor; [split; [discriminate|reflexivity]|]); constructor).
    split; [vm_compute; reflexivity|]. split; [|vm_compute; reflexivity].
    destruct (proj1 (proj2 (proj2 frames_roundtrip)) (fun _ => 7) echo _ [33; 61; 127; 159; 77; 81; 88] 0%nat echo_ok Hb) as [tick' H].
    exists tick'. vm_compute in H |- *. exact H.
Defined.
