(* ===== verification/CryptoCorrectness.v ===== *)
(** * Correctness of the cryptography

    The hand-written hash functions, MAC, key derivation, cipher and authenticated
    encryption against their standards, and the sealed envelopes and the store of one-time
    keys built on them. *)
From stdpp Require Import gmap strings.
From S2P Require Import Prelude Types Zobrist Bytes Sha2 Sha2Spec Hmac Aes AesSpec Aead SealedEnvelope KeyStore.
Open Scope Z_scope.

(** The bytes of a text, and of a hexadecimal string. *)
Definition text (s : String.string) : list Z := label_bytes (lit s).

(** C36. Hashes and codes. However a message of less than 2^61 bytes is cut into updates,
    [finish] yields the FIPS 180-4 digest of the whole message: padded with one bit, the least
    number of zeros and its length in bits, and run through the chain of compressions;
    [rotr] is a rotation, the message schedule obeys the recurrence of the standard, and
    the digests of "abc" are the published ones. Over any hash function that keeps its laws,
    any sequence of updates yields the RFC 2104 code of their concatenation, [verify]
    accepts that code and nothing else, and extraction and expansion are those of RFC 5869,
    of the length asked for; past 255 blocks [expand] yields nothing. *)
Theorem hashes_correct segs :
  (size_ok (length (concat segs)) ->
   Sha256.finish (fold_left Sha256.update segs Sha256.reset) = sha256 (concat segs) /\
   Sha384.finish (fold_left Sha384.update segs Sha384.reset) = sha384 (concat segs) /\
   Sha512.finish (fold_left Sha512.update segs Sha512.reset) = sha512 (concat segs)) /\
  (forall V x n i, 0 <= x < 2 ^ word_bits V -> 0 <= n < word_bits V -> 0 <= i < word_bits V ->
     Z.testbit (rotr V x n) i = Z.testbit x ((i + n) mod word_bits V)) /\
  (forall V block i, V = Sha256.variant \/ V = Sha512Core.variant -> (16 <= i < length (K V))%nat ->
     let W j := nth j (schedule V block) 0 in
     W i = wrap V (small_sigma1 V (W (i - 2)%nat) + W (i - 7)%nat + small_sigma0 V (W (i - 15)%nat) + W (i - 16)%nat)) /\
  to_hex (sha256 (text "abc")) = lit "ba7816bf8f01cfea414140de5dae2223b00361a396177a9cb410ff61f20015ad" /\
  to_hex (sha384 (text "abc")) = lit "cb00753f45a35e8bb5a03d699ac65007272c32ab0eded1631a8b605a43ff5bed8086072ba1e7cc2358baeca134c825a7" /\
  to_hex (sha512 (text "abc")) = lit "ddaf35a193617abacc417349ae20413112e6fa4e89a97ea20a9eeee64b55d39a2192992a274fc1a836ba3c23a3feebbd454d4423643ce80e2a9ac94fa54ca49f" /\
  forall (HashT : Hash) (L : HashLaws HashT) key salt ikm prk info len,
    mac_size_ok key (concat segs) -> mac_size_ok salt ikm -> mac_size_ok prk (repeat 0 256 ++ info) ->
    hmac_finish (fold_left hmac_update segs (hmac_init key)) = rfc2104 key (concat segs) /\
    (forall tag, hmac_verify key (concat segs) tag = true <-> tag = rfc2104 key (concat segs)) /\
    extract salt ikm = rfc5869_extract salt ikm /\
    expand prk info len = (if (255 * DIGEST_SIZE <? len)%nat then [] else rfc5869_expand prk info len) /\
    length (rfc5869_expand prk info len) = len.
Proof.
  split; [|split; [apply rotr_rotates|split; [|do 3 (split; [vm_compute; reflexivity|])]]].
  - intros H. split; [by apply sha256_stream|]. split; [exact (hash_stream (HashLaws := Sha384_laws) segs H)|].
    exact (hash_stream (HashLaws := Sha512_laws) segs H).
  - intros V block i HV Hi. apply extend_schedule_new; rewrite length_map, length_seq; [lia|].
    destruct HV as [-> | ->]; cbn in Hi |- *; lia.
  - intros HashT L key salt ikm prk info len H1 H2 H3. split; [by apply hmac_spec|]. split.
    { intros tag. rewrite hmac_verify_spec by done. apply bool_decide_eq_true. }
    split; [by apply extract_spec|]. split; [by apply expand_spec|]. apply rfc5869_expand_length.
Qed.

(** RFC 4231, test case 1, with the text in two pieces, and RFC 5869, test case 1. *)
Lemma hashes_correct_witness :
  Sha256.finish (Sha256.update (Sha256.update Sha256.reset (text "a")) (text "bc")) = sha256 (text "abc") /\
  let pieces := [text "Hi "; text "There"] in
  hmac_finish (fold_left hmac_update pieces (hmac_init (HashT := Sha384T) (repeat 11 20))) =
    rfc2104 (HashT := Sha384T) (repeat 11 20) (concat pieces) /\
  to_hex (rfc2104 (HashT := Sha384T) (repeat 11 20) (text "Hi There")) =
    lit "afd03944d84895626b0825f4ab46907f15f9dadbe4101ec682aa034c7cebc59cfaea9ea9076ede7f4af152e8b2fa9cb6" /\
  to_hex (expand (HashT := Sha256T) (extract (HashT := Sha256T) (map Z.of_nat (seq 0 13)) (repeat 11 22))
            (map Z.of_nat (seq 240 10)) 42) =
    lit "3cb25f25faacd57a90434f64d0362f2a2d2d0a90cf1a5a4c5db02d56ecc4c5bf34007208d5b887185865".
Proof.
  split; [exact (proj1 (proj1 (hashes_correct [text "a"; text "bc"]) ltac:(vm_compute; reflexivity)))|].
  cbv zeta. split; [|split; vm_compute; reflexivity].
  assert (mac_size_ok (repeat 11 20) (concat [text "Hi "; text "There"])) as H1 by (split; vm_compute; reflexivity).
  assert (mac_size_ok [] []) as H2 by (split; vm_compute; reflexivity).
  assert (mac_size_ok [] (repeat 0 256 ++ [])) as H3 by (split; vm_compute; reflexivity).
  destruct (hashes_correct [text "Hi "; text "There"]) as (_ & _ & _ & _ & _ & _ & H).
  exact (proj1 (H Sha384T Sha384_laws _ _ _ _ _ 0%nat H1 H2 H3)).
Defined.

(** C37. AES-256 and counter mode. [encrypt_block] under the expanded key is the cipher
    of FIPS 197, defined over GF(2^8) with the S-box computed from inverses; the expanded
    key obeys the recurrence of the standard; the counter is incremented modulo 2^128;
    and [process] is exclusive or with the encrypted counters, keeps lengths and undoes
    itself. *)
Theorem aes_ctr_correct key input counter :
  bytes_of_length 32 key -> bytes_of_length 16 input -> bytes_of_length 16 counter ->
  let ks := expand_key key in
  encrypt_block ks input = Cipher (key_word ks) input /\
  (forall i, (i < 8)%nat -> key_word ks i = key_word key i) /\
  (forall i, (8 <= i < 60)%nat -> key_word ks i = xor_bytes (key_word ks (i - 8)) (key_addend i (key_word ks (i - 1)))) /\
  be_value (increment_counter counter) = (be_value counter + 1) mod 2 ^ 128 /\
  (forall data, process key counter data = xor_bytes data (keystream ks counter (blocks (length data))) /\
     length (process key counter data) = length data /\ process key counter (process key counter data) = data).
Proof.
  intros Hk Hi Hc ks. destruct (expand_key_spec key Hk) as (Hks & H1 & H2).
  split; [by apply encrypt_block_spec|]. split; [done|]. split; [done|]. split.
  - rewrite increment_counter_spec by done. unfold counter_at. by rewrite be_value_store.
  - intros data. destruct (process_spec key counter data Hk Hc) as [E Hl].
    split; [done|]. split; [done|]. by apply process_involutive.
Qed.

(** A check of concrete byte strings. *)
Lemma byte_list_ok n l :
  ((length l =? n)%nat && forallb (fun b => (0 <=? b) && (b <? 256)) l) = true -> bytes_of_length n l.
Proof.
  intros H. bool_hyps. rewrite forallb_forall in H0. split; [by apply Nat.eqb_eq|]. apply List.Forall_forall.
  intros b Hb. specialize (H0 b Hb). unfold byte_ok. lia.
Qed.

(** FIPS 197, appendix C.3. *)
Lemma aes_ctr_correct_witness :
  let key := map Z.of_nat (seq 0 32) in let input := map (fun i => Z.of_nat i * 17) (seq 0 16) in
  encrypt_block (expand_key key) input = Cipher (key_word (expand_key key)) input /\
  to_hex (encrypt_block (expand_key key) input) = lit "8ea2b7ca516745bfeafc49904b496089".
Proof.
  cbv zeta. split; [|vm_compute; reflexivity].
  assert (bytes_of_length 32 (map Z.of_nat (seq 0 32))) as Hk by (apply byte_list_ok; vm_compute; reflexivity).
  assert (bytes_of_length 16 (map (fun i => Z.of_nat i * 17) (seq 0 16))) as Hi
    by (apply byte_list_ok; vm_compute; reflexivity).
  exact (proj1 (aes_ctr_correct _ _ _ Hk Hi Hi)).
Defined.

(** C38. Authenticated encryption. A sealed text opens to itself; a message is accepted
    only when it is the sealing of the text returned; a refused one leaves the output
    untouched. The tag is HMAC-SHA-384 over an encoding from which nonce, associated
    data and ciphertext can all be read back; and the two keys are the two labelled
    expansions of the master secret. *)
Theorem aead_authentic keys nonce aad :
  keys_ok keys -> bytes_of_length 16 nonce -> Z.of_nat (length aad) < 2 ^ 58 ->
  (forall data out, Z.of_nat (length data) < 2 ^ 58 ->
     Aead.open keys nonce aad (Aead.seal keys nonce aad data) out = (true, data)) /\
  (forall sealed data out, Z.of_nat (length sealed) < 2 ^ 58 ->
     Aead.open keys nonce aad sealed out = (true, data) -> sealed = Aead.seal keys nonce aad data) /\
  (forall sealed out, fst (Aead.open keys nonce aad sealed out) = false -> Aead.open keys nonce aad sealed out = (false, out)) /\
  (forall ct, Z.of_nat (length ct) < 2 ^ 58 ->
     compute_tag (mac_key keys) nonce aad ct = rfc2104 (HashT := Sha384T) (mac_key keys) (mac_input nonce aad ct)) /\
  (forall nonce' aad' ct ct', message_ok nonce aad ct -> message_ok nonce' aad' ct' ->
     mac_input nonce aad ct = mac_input nonce' aad' ct' -> nonce = nonce' /\ aad = aad' /\ ct = ct') /\
  (forall master context, Z.of_nat (length master) < 2 ^ 60 -> Z.of_nat (length context) < 2 ^ 58 ->
     let prk := rfc5869_extract (HashT := Sha384T) [] master in
     let key_for suffix := rfc5869_expand (HashT := Sha384T) prk (label_bytes (context ++ suffix)) 32 in
     derive_keys master context = mkAeadKeys (key_for (lit " enc")) (key_for (lit " mac")) /\
     keys_ok (derive_keys master context)).
Proof.
  intros Hk Hn Ha. split; [intros; by apply open_seal|]. split; [intros; by eapply open_accepts|].
  split; [apply open_refuses|]. split; [|split].
  - intros ct Hc. apply compute_tag_spec; [by apply message_ok_of|apply Hk].
  - intros nonce' aad' ct ct'. apply mac_input_inj.
  - intros master context. apply derive_keys_spec.
Qed.

Definition sample_keys : AeadKeys := mkAeadKeys (repeat 1 32) (repeat 2 32).

Lemma aead_authentic_witness :
  Aead.open sample_keys (repeat 3 16) (text "id") (Aead.seal sample_keys (repeat 3 16) (text "id") (text "e2e4")) [] =
    (true, text "e2e4") /\
  fst (Aead.open sample_keys (repeat 3 16) (text "ie") (Aead.seal sample_keys (repeat 3 16) (text "id") (text "e2e4")) []) = false.
Proof.
  assert (keys_ok sample_keys) as Hk by (split; [by apply byte_list_ok|done]).
  split; [|vm_compute; reflexivity].
  assert (bytes_of_length 16 (repeat 3 16)) as Hn by (apply byte_list_ok; vm_compute; reflexivity).
  assert (Z.of_nat (length (text "id")) < 2 ^ 58 /\ Z.of_nat (length (text "e2e4")) < 2 ^ 58) as [H1 H2]
    by (split; vm_compute; reflexivity).
  exact (proj1 (aead_authentic sample_keys _ _ Hk Hn H1) _ [] H2).
Defined.

(** C39. Sealed envelopes, over any key exchanges and signatures that keep their laws. An
    offer minted is one its identity vouches for, what a client seals to it the server
    opens to the same payload, whatever was drawn at random; an envelope that opens names
    the key pair and is the sealing of its payload under the secrets that pair derives
    from it; a refusal yields no plaintext; and what the identity signs determines every
    field of the offer. *)
Theorem sealed_envelope_correct (S : OpenSSL) (L : OpenSSLLaws S) :
  (forall identity exp id km ec seed material o,
     length id = 16%nat -> sign_public_key identity <> [] ->
     mint identity exp id km ec seed = Some (material, o) ->
     verify_offer (sign_public_key identity) o = true /\
     (forall payload kseed eph iv e,
        bytes_of_length 16 iv -> Z.of_nat (length payload) < 2 ^ 58 -> ecc_public_key eph <> [] ->
        seal o payload kseed eph iv = (true, e) -> well_formed e = true /\ open material e = (true, payload))) /\
  (forall material e payload,
     Z.of_nat (length (env_ct e)) < 2 ^ 57 -> List.Forall byte_ok (env_iv e) -> open material e = (true, payload) ->
     well_formed e = true /\ env_key_id e = mat_key_id material /\
     let keys := envelope_keys (decapsulate (kem material) (env_kem_ct e))
                               (derive_shared (ecc material) (env_x25519_pk e)) in
     env_ct e ++ env_tag e = Aead.seal keys (env_iv e) (build_aad (env_key_id e)) payload) /\
  (forall material e, fst (open material e) = false -> open material e = (false, [])) /\
  (forall id id' ek ek' pk pk' exp exp',
     length id = length id' -> length ek = length ek' -> length pk = length pk' ->
     0 <= exp < 2 ^ 32 -> 0 <= exp' < 2 ^ 32 ->
     signing_input id ek pk exp = signing_input id' ek' pk' exp' -> id = id' /\ ek = ek' /\ pk = pk' /\ exp = exp').
Proof.
  split; [|split; [apply open_authentic|split; [apply open_refused|apply signing_input_inj]]].
  intros identity exp id km ec seed material o Hid Hpk Hm.
  split; [by eapply minted_offer_verifies|]. intros. by eapply open_sealed.
Qed.

(** An instance: keys are numbers below 256, a public key repeats its number, secrets
    are sums and products. *)
Definition toy : OpenSSL := Build_OpenSSL
  Z (fun k => Some (repeat k mlkem768.PUBLIC_KEY_SIZE))
  (fun pk seed => Some (repeat seed mlkem768.CIPHERTEXT_SIZE, repeat ((nth 0 pk 0 + seed) mod 256) 32))
  (fun k ct => Some (repeat ((k + nth 0 ct 0) mod 256) 32))
  Z (fun k => Some (repeat k 32)) (fun k peer => Some (repeat ((k * nth 0 peer 0) mod 256) 32))
  Z (fun k => Some (repeat k mldsa65.PUBLIC_KEY_SIZE))
  (fun k m seed => Some (repeat ((k + be_value m) mod 256) mldsa65.SIGNATURE_SIZE))
  (fun pk m s => nth 0 s 0 =? (nth 0 pk 0 + be_value m) mod 256).

Lemma nth_repeat_0 x n : (0 < n)%nat -> nth 0 (repeat x n) 0 = x.
Proof. destruct n; [lia|done]. Qed.

Lemma toy_laws : OpenSSLLaws toy.
Proof.
  assert (0 < mlkem768.PUBLIC_KEY_SIZE /\ 0 < mlkem768.CIPHERTEXT_SIZE /\ 0 < mldsa65.PUBLIC_KEY_SIZE /\
          0 < mldsa65.SIGNATURE_SIZE)%nat as (? & ? & ? & ?).
  { unfold mlkem768.PUBLIC_KEY_SIZE, mlkem768.CIPHERTEXT_SIZE, mldsa65.PUBLIC_KEY_SIZE, mldsa65.SIGNATURE_SIZE. lia. }
  split.
  - intros k pk seed ct ss Hp He. cbn [toy kem_raw_public_key EVP_encapsulate EVP_decapsulate] in *.
    apply (inj Some) in Hp as <-. apply (inj Some), pair_equal_spec in He as [<- <-]. by rewrite !nth_repeat_0.
  - intros a b pa pb Ha Hb. cbn [toy ecc_raw_public_key EVP_derive] in *.
    apply (inj Some) in Ha as <-. apply (inj Some) in Hb as <-. by rewrite !nth_repeat_0, Z.mul_comm by lia.
  - intros k pk m seed s Hp Hs. cbn [toy sign_raw_public_key EVP_sign EVP_verify] in *.
    apply (inj Some) in Hp as <-. apply (inj Some) in Hs as <-. rewrite !nth_repeat_0 by done. apply Z.eqb_refl.
Qed.

(** A password sealed and opened, under fixed keys and seeds. *)
Definition toy_mint : option (SealKeyMaterial (S := toy) * SealKeyOffer) :=
  mint (S := toy) (Some 7) 120 (repeat 9 16) (Some 3) (Some 5) 0.
Definition toy_seal (o : SealKeyOffer) : bool * SealedEnvelope :=
  seal (S := toy) o (text "secret") 11 (Some 13) (repeat 1 16).

Lemma toy_run : match toy_mint with Some (_, o) => fst (toy_seal o) | None => false end = true.
Proof. vm_compute. reflexivity. Qed.

Lemma sealed_envelope_correct_witness :
  exists material o e,
    toy_mint = Some (material, o) /\ toy_seal o = (true, e) /\ open (S := toy) material e = (true, text "secret").
Proof.
  pose proof toy_run as Hr. destruct toy_mint as [[material o]|] eqn:Em; [|discriminate Hr].
  destruct (toy_seal o) as [ok e] eqn:Es. cbn [fst] in Hr. subst ok. exists material, o, e.
  split; [reflexivity|]. split; [exact Es|].
  assert (bytes_of_length 16 (repeat 1 16)) as Hiv by (apply byte_list_ok; vm_compute; reflexivity).
  assert (Z.of_nat (length (text "secret")) < 2 ^ 58) as Hp by (vm_compute; reflexivity).
  assert (forall k, sign_public_key (S := toy) (Some k) <> []) as Hs.
  { intros k. unfold sign_public_key. cbn [toy sign_raw_public_key]. intros E. apply (f_equal length) in E.
    unfold sized in E. rewrite repeat_length, Nat.eqb_refl, repeat_length in E. discriminate E. }
  assert (ecc_public_key (S := toy) (Some 13) <> []) as He by discriminate.
  destruct (proj1 (sealed_envelope_correct toy toy_laws) (Some 7) 120 (repeat 9 16) (Some 3) (Some 5) 0 material o
              eq_refl (Hs 7) Em) as [_ H].
  exact (proj2 (H (text "secret") 11 (Some 13) (repeat 1 16) e Hiv Hp He Es)).
Defined.

(** C40. One-time keys. In every run of the store the per-address counters count the keys
    outstanding and the caps hold (one key is admitted under a cap of zero). A key is
    handed out only if it is stored and has not expired, it is the one stored, and after
    that its identifier is refused until another key is stored under it. A key stored expires after the store's lifetime, a sweep
    removes exactly the expired keys, in whatever order it visits them, and an issue is
    admitted exactly below the caps. *)
Theorem one_time_keys (M : Type) ttl per_ip total (ops : list (op M)) s :
  0 <= per_ip < 2 ^ 64 -> run (new_store ttl per_ip total) ops s ->
  store_ok s /\
  (forall now id m s', consume now id s = (Some m, s') ->
     (exists e, entries_ s !! id = Some e /\ material e = m /\ now < expires_at e) /\
     forall ops' now', List.Forall (fun o => match o with Store _ _ id' _ => id' <> id | _ => True end) ops' ->
       fst (consume now' id (fold_left (fun s o => exec o s) ops' s')) = None) /\
  (forall now client id m s', entries_ s !! id = None -> issue_store now client id m s = (true, s') ->
     entries_ s' !! id = Some (mkEntry m (now + ttl_seconds_ s * 1000000000) client)) /\
  (forall now visit, Permutation visit (map_to_list (entries_ s)) ->
     entries_ (sweep_locked now visit s) = base.filter (fun p => now < expires_at p.2) (entries_ s)) /\
  (forall now visit client,
     let s' := sweep_locked now visit s in
     fst (issue_admit now visit client s) = true <->
     Z.of_nat (size (entries_ s')) < max_total_ s' /\ (held client s' = 0 \/ held client s' < max_per_ip_ s')).
Proof.
  intros Hc Hr. pose proof (store_run_ok _ _ _ Hr (new_store_ok ttl per_ip total Hc)) as Hs.
  split; [done|]. split; [|split; [|split; [intros; by apply sweep_spec|]]].
  - intros now id m s' E. destruct (consume_spec now id s) as [H1 H2]. rewrite E in H1, H2. cbn [fst snd] in H1, H2.
    destruct (Nat.eqb_spec (length id) SEAL_KEY_ID_SIZE) as [Hl|]; [|done]. specialize (H2 Hl).
    destruct (entries_ s !! id) as [e|] eqn:Ee; [|done]. destruct (Z.leb_spec (expires_at e) now); [done|].
    injection H1 as ->. split; [by exists e|]. intros ops' now' Ho.
    rewrite (proj1 (consume_spec now' id _)), (absent_run ops' s' id); [by case_match|rewrite H2; apply lookup_delete_eq|done].
  - intros now client id m s' E. unfold issue_store, id_key_of. destruct (full client s); [done|]. rewrite E.
    intros [= <-]. cbn. apply lookup_insert_eq.
  - intros now visit client s'. cbn [issue_admit fst]. fold s'.
    pose proof (so_count _ (sweep_ok now visit s Hs) client) as Hn. fold s' in Hn.
    rewrite negb_true_iff. unfold full. rewrite orb_false_iff, Hn, Z.leb_gt.
    destruct (Z.eqb_spec (held client s') 0); [|rewrite Z.leb_gt]; intuition lia.
Qed.

(** A key stored under one address and consumed once. *)
Definition first_key : list Z := repeat 4 16.

Lemma one_time_keys_witness :
  let s := exec (Store 5 (lit "10.0.0.1") first_key 77) (new_store 120 8 4096) in
  fst (consume 6 first_key s) = Some 77 /\ fst (consume 7 first_key (snd (consume 6 first_key s))) = None.
Proof.
  intros s. assert (run (new_store 120 8 4096) [Store 5 (lit "10.0.0.1") first_key 77] s) as Hr
    by (apply run_cons; [reflexivity|apply run_nil]).
  split; [vm_compute; reflexivity|].
  destruct (consume 6 first_key s) as [r s'] eqn:E.
  assert (r = Some 77) as -> by (apply (f_equal fst) in E; vm_compute in E; by rewrite <- E).
  refine (proj2 (proj1 (proj2 (one_time_keys Z 120 8 4096 _ s _ Hr)) 6 first_key 77 s' E) [] 7 _).
  - split; [discriminate|reflexivity].
  - constructor.
Defined.
