(* ===== verification/AccountCorrectness.v ===== *)
(** * Correctness of accounts and sessions

    The properties of access tokens, refresh tokens, passwords, e-mailed resets and Google
    identities, each with a witness in a small concrete setting: [text_json] prints claims as
    the bits of their encoding, [plain_argon] stands for Argon2id. *)
From stdpp Require Import strings relations countable.
From S2P Require Import Prelude Types Fen Notation Bytes Base64 Sha2 Sha2Spec Hmac Storage StorageSpec Credentials Token OAuth AccountStore Sessions Accounts EmailRecovery AccountSpec SessionSpec AccountSteps AccountContracts LoginSpec.
Open Scope Z_scope.

(** ** A concrete setting *)

Fixpoint text_of_pos (p : positive) : str :=
  match p with xH => lit "1" | xO p => "0"%char :: text_of_pos p | xI p => "2"%char :: text_of_pos p end.
Fixpoint pos_of_text (s : str) : positive :=
  match s with [] => xH | c :: s => if Ascii.eqb c "0" then xO (pos_of_text s) else if Ascii.eqb c "2" then xI (pos_of_text s) else xH end.

Lemma pos_of_text_of_pos p : pos_of_text (text_of_pos p) = p.
Proof. induction p as [p IH|p IH|]; cbn; by rewrite ?IH. Qed.

Definition tuple_of (c : AccessClaims) : Z * (list N * (Z * (Z * Z))) :=
  (player_id c, (map N_of_ascii (username c), (token_epoch c, (issued_at c, expires_at c)))).

Definition fields_of (t : Z * (list N * (Z * (Z * Z)))) (name : str) : option JsonValue :=
  let '(sub, (user, (epoch, (iat, exp)))) := t in
  if bool_decide (name = lit "sub") then Some (JInteger sub) else
  if bool_decide (name = lit "username") then Some (JString (map ascii_of_N user)) else
  if bool_decide (name = lit "epoch") then Some (JInteger epoch) else
  if bool_decide (name = lit "iat") then Some (JInteger iat) else
  if bool_decide (name = lit "exp") then Some (JInteger exp) else None.

#[export] Instance text_json : ClaimsJson := {|
  dump_claims := fun c => text_of_pos (encode (tuple_of c));
  parse_object := fun s => option_map fields_of (decode (pos_of_text s))
|}.

Lemma text_json_laws : ClaimsJsonLaws text_json.
Proof.
  constructor.
  - intros c _. exists (fields_of (tuple_of c)). cbn [parse_object dump_claims text_json].
    rewrite pos_of_text_of_pos, decode_encode. split; [done|]. unfold claim_fields. cbn.
    repeat split. do 2 f_equal. rewrite map_map, (map_ext _ (fun x => x)), map_id; [done|]. apply ascii_N_embedding.
  - intros c. cbn. by destruct (encode (tuple_of c)).
Qed.

Definition plain_argon (password : str) (salt : list Z) (p : Argon2Params) (n : nat) : option (list Z) :=
  Some (firstn n (bytes_of password ++ repeat 0 n)).

Lemma plain_argon_length password salt p n hash :
  plain_argon password salt p n = Some hash -> length hash = n /\ List.Forall byte_ok hash.
Proof.
  intros [= <-]. rewrite length_firstn, length_app, repeat_length. split; [lia|].
  apply Forall_take, Forall_app. split; [apply bytes_of_ok|]. apply List.Forall_forall. by intros b ->%repeat_spec.
Qed.

Definition first_bytes (data : list Z) : list Z := firstn 32 (data ++ repeat 0 32).
Definition key0 : list Z := repeat 7 32.
Definition salt0 : list Z := repeat 1 16.
Definition random0 : list Z := repeat 5 32.
Definition url0 : str := lit "https://chess.example".
Definition alice : str := lit "Alice".
Definition secret0 : str := lit "Passw0rd!".

Definition calm_env : Environment := mkEnvironment (fun n => mkOutcome Works "" 1000) (fun n => 1000).
Definition session_on (db : AccountTables) : Session AccountTables := mkSession db None false 0 0.
Notation request := (perform to_lower_ascii key0 plain_argon first_bytes url0 []).
Definition after (r : Request) (db : AccountTables) : AccountTables := tables (snd (request r calm_env (session_on db))).
Notation step0 := (step to_lower_ascii key0 plain_argon first_bytes url0 []).

Definition with_alice : AccountTables := after (RegisterPassword alice secret0 salt0) empty_accounts.
Definition alice_online : AccountTables := after (IssueSession 1 alice 0 1000 random0 salt0) with_alice.

Lemma after_step r db : lucky r db -> step0 db (after r db).
Proof. intros H. exists r, calm_env, (session_on db). by repeat split. Defined.

Lemma alice_steps : rtc step0 empty_accounts alice_online.
Proof.
  apply rtc_l with with_alice; [by apply after_step|]. apply rtc_once, after_step.
  intros s Hs. vm_compute in Hs. destruct Hs.
Defined.

Lemma alice_ok : accounts_ok to_lower_ascii alice_online.
Proof. apply (history_good _ key0 eq_refl plain_argon first_bytes url0 [] _ _ alice_steps), empty_ok. Qed.

(** ** Access tokens *)

(** C23. Access tokens. Verifying the token issued for some claims gives those claims back,
    exactly from sixty seconds before the issue until the expiry; whatever is accepted is,
    character for character, the token of a payload under this key, HMAC-SHA-384 by RFC 2104
    over the fixed header; and the gate lets a verified token pass exactly when its epoch is
    the player's current one. A database that fails can only turn the answer into
    [RejectedUnknownUser]. *)
Theorem access_tokens `{J : ClaimsJson} (L : ClaimsJsonLaws J) lower key c now db :
  length key = 32%nat -> claims_ok c -> Z.of_nat (length (signed_text (dump_claims c))) < 2 ^ 60 ->
  accounts_ok lower db ->
  verify_access key (issue_access key c) now =
    (if bool_decide (issued_at c - 60 <= now < expires_at c) then Some c else None) /\
  (forall jwt c', Z.of_nat (length jwt) < 2 ^ 60 -> verify_access key jwt now = Some c' ->
     exists payload, jwt = token_for key payload /\ accept_payload (text_b64 payload) now = Some c') /\
  forall calm jwt,
    wp calm None (authorize_access_token key jwt now)
      (fun a db' => db' = db /\
        (a = match verify_access key jwt now with Some c => gate_answer c db | None => (RejectedBadToken, None) end \/
         calm = false /\ a = (RejectedUnknownUser, None))) db.
Proof.
  intros Hk Hc Hl Hok. split; [|split].
  - rewrite issue_token, verify_token by (try done; apply dump_nonempty).
    rewrite accept_claims by done. unfold in_time. case_bool_decide; [rewrite !(proj2 (Z.ltb_ge _ _)), !(proj2 (Z.leb_gt _ _)) by lia; done|].
    destruct (Z.ltb_spec now (issued_at c - 60)), (Z.leb_spec (expires_at c) now); done || lia.
  - intros jwt c' Hj (payload & H1 & _ & H2)%verify_inv; [|done|done]. eauto.
  - intros calm jwt. by eapply gate_contract.
Qed.

Definition alice_claims : AccessClaims := mkClaims 1 alice 0 1000 1900.

Lemma access_tokens_witness :
  verify_access key0 (issue_access key0 alice_claims) 1500 = Some alice_claims /\
  wp true None (authorize_access_token key0 (issue_access key0 alice_claims) 1500)
    (fun a db' => a = (GateOk, Some alice_claims)) alice_online.
Proof.
  destruct (access_tokens text_json_laws to_lower_ascii key0 alice_claims 1500 alice_online)
    as (H1 & _ & H3); [done|by vm_compute|by vm_compute|exact alice_ok|].
  rewrite bool_decide_eq_true_2 in H1 by (cbn; lia). split; [exact H1|].
  eapply wp_mono; [exact (H3 true _)|]. intros a db' [_ [E|[E _]]]; [|discriminate E].
  rewrite H1 in E. rewrite E. by vm_compute.
Defined.

(** ** The tables *)

(** C24. Accounts stay in order. From an empty database, after any operations on accounts and
    sessions and then any more, whatever statements are refused and whatever replies are lost:
    no two accounts share an identifier, a name in any case, an address or a Google identity;
    every account has a way to sign in; a family of refresh tokens belongs to one player and
    has at most one that can still be exchanged; every session and challenge belongs to an
    account; no account disappears or is renamed, its epoch never goes back, and an address
    once bound or verified remains so. *)
Theorem accounts_in_order `{J : ClaimsJson} lower key argon2id sha256 url dummy db db' :
  length key = 32%nat ->
  rtc (step lower key argon2id sha256 url dummy) empty_accounts db ->
  rtc (step lower key argon2id sha256 url dummy) db db' ->
  accounts_ok lower db /\ accounts_ok lower db' /\ evolves db db'.
Proof.
  intros Hk H1 H2. destruct (history_good _ _ Hk _ _ _ _ _ _ H1 (empty_ok lower)) as [Hok _].
  split; [done|]. by eapply history_good.
Qed.

(** The reply to the fourth statement of a request is lost. *)
Definition losing_env : Environment := mkEnvironment (fun n => mkOutcome (if (n =? 3)%nat then Lost else Works) "" 1000) (fun n => 1000).

Lemma accounts_in_order_witness :
  let db' := tables (snd (request (RefreshSession (mint_refresh_token random0) 1500 (repeat 6 32)) losing_env (session_on alice_online))) in
  accounts_ok to_lower_ascii alice_online /\ accounts_ok to_lower_ascii db' /\ evolves alice_online db'.
Proof.
  apply (accounts_in_order to_lower_ascii key0 plain_argon first_bytes url0 []); [reflexivity|exact alice_steps|].
  apply rtc_once. exists (RefreshSession (mint_refresh_token random0) 1500 (repeat 6 32)), losing_env, (session_on alice_online).
  split; [|by repeat split]. split; [discriminate|]. split; [by repeat constructor|].
  intros s Hs. vm_compute in Hs. destruct Hs as [<-|[]]. vm_compute. discriminate.
Defined.

(** ** Refresh tokens *)

(** C25. The exchange of a refresh token keeps to its contract: an unknown token changes
    nothing; a token presented again outside the ten seconds of grace revokes its whole
    family and nothing else; an expired one is deleted; any other yields an access token for
    the player's current name and epoch and one successor, the only live token of its family,
    and leaves the other families alone. If statements fail the answer may also be a database
    error, with the tables as they were or exactly as the contract has them, so an [Ok] is
    never reported of an exchange that was rolled back. *)
Theorem refresh_exchange `{J : ClaimsJson} lower key calm token now random db :
  length key = 32%nat -> accounts_ok lower db -> fresh_token random db ->
  wp calm None (refresh_session key token now random)
    (kept_or_failed calm (refreshes key token now random db) refresh_failed db) db.
Proof.
  intros Hk Hok Hf. eapply wp_mono; [by apply (refresh_contract lower)|].
  intros a db' [[_ H]|(Hc & -> & [->|(a' & _ & H)])]; [by left|right..]; (split; [done|]; split; [done|]); eauto.
Qed.

Lemma refresh_exchange_witness :
  wp true None (refresh_session key0 (mint_refresh_token random0) 1500 (repeat 6 32))
    (kept_or_failed true (refreshes key0 (mint_refresh_token random0) 1500 (repeat 6 32) alice_online) refresh_failed alice_online)
    alice_online /\
  fst (fst (refresh_session key0 (mint_refresh_token random0) 1500 (repeat 6 32) calm_env (session_on alice_online))) = RefreshOk.
Proof.
  split; [|by vm_compute]. apply (refresh_exchange to_lower_ascii key0); [reflexivity|exact alice_ok|].
  split; [discriminate|]. split; [by repeat constructor|].
  intros s Hs. vm_compute in Hs. destruct Hs as [<-|[]]. vm_compute. discriminate.
Defined.

(** A retry within the grace of a token that has just expired: the code supersedes the live
    successor before it looks at the expiry, and leaves the family without a live token. *)
Definition expiring : AccountTables :=
  with_logins [mkSessionRow (refresh_token_hash (lit "old")) 1 (lit "f") true (Some 1495) 1500;
               mkSessionRow (refresh_token_hash (lit "new")) 1 (lit "f") false None 5000] with_alice.

Lemma expired_retry_supersedes :
  let '(a, w) := refresh_session key0 (lit "old") 1500 (repeat 6 32) calm_env (session_on expiring) in
  a = refused /\ logins (tables w) = [mkSessionRow (refresh_token_hash (lit "new")) 1 (lit "f") true (Some 1500) 5000].
Proof. by vm_compute. Qed.

(** ** Revocation *)

(** The sessions of [p] are gone, and whatever happens from here on, no access token of the
    epoch it had, or an earlier one, passes the gate. *)
Definition revoked `{J : ClaimsJson} lower key argon2id sha256 url dummy (p : PlayerRow) (db1 : AccountTables) : Prop :=
  (forall s, In s (logins db1) -> se_player s <> pl_id p) /\
  forall db2 jwt now c calm,
    rtc (step lower key argon2id sha256 url dummy) db1 db2 ->
    verify_access key jwt now = Some c -> player_id c = pl_id p -> token_epoch c <= pl_epoch p ->
    wp calm None (authorize_access_token key jwt now) (fun a _ => fst a <> GateOk) db2.

Lemma signed_out_revoked `{J : ClaimsJson} lower key argon2id sha256 url dummy p db db1 :
  length key = 32%nat -> accounts_ok lower db1 -> evolves db db1 -> In p (people db) ->
  signed_out (pl_id p) db db1 -> revoked lower key argon2id sha256 url dummy p db1.
Proof.
  intros Hk Hok1 Hev Hp Hout. split; [apply Hout|]. intros db2 jwt now c calm Hsteps Hv Hid Hle.
  destruct (history_good lower key Hk argon2id sha256 url dummy db1 db2 Hsteps Hok1) as [Hok2 Hev2].
  eapply wp_mono; [by apply (gate_contract lower)|]. intros a db' [_ [->|[_ ->]]]; [|done]. rewrite Hv.
  by rewrite (signed_out_final lower (pl_id p) db db1 db2 c p).
Qed.

(** C26. Revocation is final. When [logout_all] reports success, or [reset_password] answers
    [Ok], every session of the player is deleted and no access token issued until then is
    accepted again, whatever operations follow: with any statement failing before, during or
    after. *)
Theorem revocation_is_final `{J : ClaimsJson} lower key argon2id sha256 url dummy db calm :
  length key = 32%nat -> accounts_ok lower db ->
  (forall p, In p (people db) ->
     wp calm None (logout_all lower (pl_id p)) (fun ok db1 =>
       ok = true -> revoked lower key argon2id sha256 url dummy p db1) db) /\
  forall token password now salt,
    wp calm None (reset_password lower sha256 argon2id token password now salt) (fun a db1 =>
      fst a = EmailOk -> exists p, In p (people db) /\ snd a = pl_username p /\
        revoked lower key argon2id sha256 url dummy p db1) db.
Proof.
  intros Hk Hok. split.
  - intros p Hp. eapply wp_mono.
    + apply wp_conj; [by apply logout_all_contract|]. by apply (logout_all_preserves lower (pl_id p) db).
    + intros b db1 [Hout Hgood] Hb. destruct (Hgood Hok). by eapply signed_out_revoked; [..|apply Hout].
  - intros token password now salt. eapply wp_mono.
    + apply wp_conj; [by apply reset_password_contract|].
      by apply (reset_preserves lower argon2id sha256 token password now salt db).
    + intros a db1 [[Ha|(_ & -> & _)] Hgood] Hs; [|done]. destruct (Hgood Hok).
      destruct (reset_ok lower sha256 argon2id token password now salt db a db1 Ha Hs) as (p & c & Hc & -> & ->). exists p.
      split; [apply Hc|]. split; [done|]. eapply (signed_out_revoked lower); try done; [apply Hc|]. apply (reset_signs_out lower); [done|apply Hc].
Qed.

Definition alice_row : PlayerRow := hd (new_player [] [] None false None None 0) (people alice_online).

Lemma alice_in : In alice_row (people alice_online).
Proof. vm_compute. by left. Qed.

Lemma revocation_is_final_witness :
  wp false None (logout_all to_lower_ascii (pl_id alice_row)) (fun ok db1 =>
    ok = true -> revoked to_lower_ascii key0 plain_argon first_bytes url0 [] alice_row db1) alice_online /\
  fst (logout_all to_lower_ascii (pl_id alice_row) calm_env (session_on alice_online)) = true.
Proof.
  split; [|by vm_compute].
  destruct (revocation_is_final to_lower_ascii key0 plain_argon first_bytes url0 [] alice_online false eq_refl alice_ok) as [H _].
  exact (H alice_row alice_in).
Defined.

(** ** Passwords *)

(** C27. Signing in with a password. The login succeeds only with a name and a password that
    open an account in the tables, and then returns that account, upgraded hash or not; when
    no statement fails it succeeds for all of those. Registration answers as the name, the
    password and the names in use call for; and an account it has created is opened, in any
    later case of its name, exactly by the passwords with the Argon2id tag of its own. *)
Theorem password_login lower argon2id name password dummy salt calm db :
  (forall password salt p n hash, argon2id password salt p n = Some hash -> length hash = n /\ List.Forall byte_ok hash) ->
  (forall name, valid_username name = true -> lower name = to_lower_ascii name) ->
  salt <> [] -> List.Forall byte_ok salt -> accounts_ok lower db ->
  let phc := hash_password argon2id password salt in
  wp calm None (authenticate_password lower argon2id name password dummy salt)
    (fun r _ => (exists p upgraded, login_of argon2id db name password = Some p /\ r = Some (login_result p upgraded)) \/
                r = None /\ (calm = true -> login_of argon2id db name password = None)) db /\
  wp calm None (register_password_user lower argon2id name password salt)
    (fun r db' =>
      (calm = true -> r_status r = register_status db name password phc) /\
      (r_status r = RegisterOk ->
         In (registered name phc db) (people db') /\ r_player r = pl_id (registered name phc db) /\
         forall name' password',
           valid_username name' = true -> to_lower_ascii name' = to_lower_ascii name -> password_length_ok password' = true ->
           let tag password := argon2id password salt (mkParams MEMCOST_KIB ITERATIONS PARALLELISM VERSION) HASH_SIZE in
           login_of argon2id db' name' password' =
           if bool_decide (tag password' = tag password) then Some (registered name phc db) else None)) db.
Proof.
  intros Hargon Hlower Hs Hb Hok phc. split; [by apply authenticate_contract|].
  eapply wp_mono; [by apply register_contract|]. intros r db' [Hst Hdone]. split; [done|].
  intros Hr. destruct (Hdone Hr) as (H1 & H2 & H3). split; [rewrite H2; apply in_or_app; right; by left|].
  split; [done|]. intros name' password' Hv Hn Hl tag. by eapply (registered_login argon2id Hargon).
Qed.

Lemma to_lower_ascii_self name : valid_username name = true -> to_lower_ascii name = to_lower_ascii name.
Proof. done. Qed.

Lemma password_login_witness :
  let bob := lit "Bob" in
  wp true None (register_password_user to_lower_ascii plain_argon bob secret0 salt0)
    (fun r db' => r_status r = RegisterOk ->
       login_of plain_argon db' (lit "BOB") secret0 =
         Some (registered bob (hash_password plain_argon secret0 salt0) alice_online) /\
       login_of plain_argon db' (lit "BOB") (lit "passw0rd!") = None) alice_online.
Proof.
  intros bob. destruct (password_login to_lower_ascii plain_argon bob secret0 [] salt0 true alice_online
    plain_argon_length to_lower_ascii_self) as [_ H]; [discriminate|by repeat constructor|exact alice_ok|].
  eapply wp_mono; [exact H|]. intros r db' [_ Hdone] Hr. destruct (Hdone Hr) as (_ & _ & Hlog).
  split; rewrite Hlog; by vm_compute.
Defined.

(** ** Resets *)

(** C28. The reset of a password is one step: the answer is what the token, the password and
    the tables call for, and either nothing has changed or the owner of the verified address
    the token was sent to, in the epoch it was sent in, has the new password, a new epoch and
    no session and no challenge left. A statement that fails can only turn this into a
    database error with the tables as before or as the step leaves them; and after the step
    the token resets nothing any more. *)
Theorem password_reset lower sha256 argon2id token password now salt calm db :
  accounts_ok lower db ->
  wp calm None (reset_password lower sha256 argon2id token password now salt)
    (kept_or_failed calm (reset_answers lower sha256 argon2id token password now salt db) (answer EmailDatabaseError) db) db /\
  forall p c, authorizes lower (email_token_hash sha256 token) now db p c ->
    forall phc now' p' c', ~ authorizes lower (email_token_hash sha256 token) now' (after_reset phc (pl_id p) db) p' c'.
Proof.
  intros Hok. split; [by apply reset_password_contract|]. intros p c Ha phc now' p' c'. by eapply reset_used_up.
Qed.

(** Bob registers by mail, confirms the address and asks for a reset. *)
Definition bob_steps : list Request :=
  [RegisterByEmail (lit "Bob") (lit "Bob@Example.com") 1000 random0 true;
   ConfirmEmail (encode_base64url random0) 1100 secret0 salt0;
   RequestReset (lit "Bob@Example.com") 1200 (repeat 9 32) true].
Definition token9 : str := encode_base64url (repeat 9 32).
Definition bob_waiting : AccountTables := fold_left (fun db r => after r db) bob_steps empty_accounts.

Lemma bob_ok : accounts_ok to_lower_ascii bob_waiting.
Proof.
  apply (history_good _ key0 eq_refl plain_argon first_bytes url0 [] empty_accounts); [|apply empty_ok].
  unfold bob_waiting, bob_steps. cbn [fold_left].
  do 2 (eapply rtc_r; [|by apply after_step]). by apply rtc_once, after_step.
Qed.

Lemma password_reset_witness :
  wp false None (reset_password to_lower_ascii first_bytes plain_argon token9 (lit "N3w-password") 1500 salt0)
    (kept_or_failed false (reset_answers to_lower_ascii first_bytes plain_argon token9 (lit "N3w-password") 1500 salt0 bob_waiting)
      (answer EmailDatabaseError) bob_waiting) bob_waiting /\
  fst (reset_password to_lower_ascii first_bytes plain_argon token9 (lit "N3w-password") 1500 salt0 calm_env (session_on bob_waiting)) =
    (EmailOk, lit "Bob").
Proof. split; [|by vm_compute]. apply (password_reset to_lower_ascii first_bytes plain_argon), bob_ok. Defined.

(** ** Google *)

(** C29. Signing in with Google. An identity the verifier accepts comes with a signature of
    the one configured algorithm over the token's own header and payload (HMAC-SHA-256 under
    the secret, or ECDSA under a key of the provider's document that is at most five minutes
    old), and every claim it is judged by passes. A sign-in with it that succeeds opens the
    account linked to that identity, or one with the same address, verified, and no identity,
    or else a new account for an address and an identity nobody has; and an account whose
    address was never verified is not opened and not touched. *)
Theorem google_identity `{J : ClaimsJson} {Key} (import_point : list Z -> option Key) ecdsa_verify v jwt now mono later fetched id v' :
  provider v <> [] -> Z.of_nat (length (secret v)) < 2 ^ 60 ->
  verify_identity import_point ecdsa_verify v jwt now mono later fetched = (Some id, v') ->
  (exists header payload sig_b64 f,
    jwt = joined (text_b64 header) (text_b64 payload) sig_b64 /\
    signature_ok import_point ecdsa_verify v v' mono later fetched header (text_b64 header) (text_b64 payload) sig_b64 /\
    parse_object payload = Some f /\ identity_claims v f now id) /\
  forall lower random db, accounts_ok lower db ->
    (forall calm, wp calm None (google_sign_in lower (Some id) random)
       (fun r db' => g_status r = GoogleOk -> opened lower id db r db') db) /\
    forall p, In p (people db) -> option_map lower (pl_email p) = Some (lower (id_email id)) ->
      pl_verified p = false -> (forall q, In q (people db) -> pl_google q <> Some (id_sub id)) ->
      wp true None (google_sign_in lower (Some id) random)
        (fun r db' => r = google_failed EmailCollision /\ db' = db) db.
Proof.
  intros Hp Hs Hv. split.
  - apply verify_identity_spec in Hv as (header & pb & sg & f & H1 & H2 & (payload & -> & H3) & H4); [|done|done].
    by exists header, payload, sg, f.
  - intros lower random db Hok. split; [intros calm; by apply sign_in_contract|].
    intros p Hin He Hu Hno. by eapply unverified_refused.
Qed.

(** A reader of one document, and a token for it. *)
Definition google_fields (name : str) : option JsonValue :=
  if bool_decide (name = lit "iss") then Some (JString (lit "https://issuer")) else
  if bool_decide (name = lit "aud") then Some (JString (lit "authenticated")) else
  if bool_decide (name = lit "sub") then Some (JString (lit "u-1")) else
  if bool_decide (name = lit "email") then Some (JString (lit "bob@example.com")) else
  if bool_decide (name = lit "email_verified") then Some (JBool true) else
  if bool_decide (name = lit "exp") then Some (JInteger 2000) else
  if bool_decide (name = lit "app_metadata") then
    Some (JObject (fun name => if bool_decide (name = lit "provider") then Some (JString (lit "google")) else None))
  else None.
Definition google_json : ClaimsJson := {| dump_claims := fun _ => lit "claims"; parse_object := fun _ => Some google_fields |}.
Definition verifier0 : SupabaseVerifier (Key := unit) := make key0 (lit "https://issuer") (lit "authenticated") (lit "google").
Definition google_jwt : str :=
  let header := text_b64 HS256_HEADER_JSON in
  let payload := text_b64 (lit "payload") in
  joined header payload (encode_base64url (sign_hs256 key0 header payload)).
Definition bob_identity : SupabaseIdentity := mkIdentity (lit "u-1") (lit "bob@example.com") true (lit "google").

Lemma google_identity_witness :
  wp false None (google_sign_in to_lower_ascii (Some bob_identity) [])
    (fun r db' => g_status r = GoogleOk -> opened to_lower_ascii bob_identity bob_waiting r db') bob_waiting /\
  fst (google_sign_in to_lower_ascii (Some bob_identity) [] calm_env (session_on bob_waiting)) =
    mkGoogle GoogleOk 1 (lit "Bob") 800 0 false.
Proof.
  split; [|by vm_compute].
  destruct (google_identity (J := google_json) (fun _ => None) (fun _ _ _ => false) verifier0 google_jwt 1500 0 0 None
    bob_identity verifier0) as [_ H]; [discriminate|by vm_compute|by vm_compute|].
  apply (H to_lower_ascii [] bob_waiting bob_ok).
Defined.

(** The gate never answers [RejectedExpired]: an expired token is [RejectedBadToken]. *)
Lemma never_rejected_expired `{J : ClaimsJson} key jwt now env w :
  fst (fst (authorize_access_token key jwt now env w)) <> RejectedExpired.
Proof.
  unfold authorize_access_token. destruct (verify_access key jwt now) as [c|]; [|done].
  change (?m ≫= ?k) with (fun env w => let '(a, w) := m env w in k a env w). cbn beta.
  destruct (current_token_epoch (player_id c) env w) as [current w']. cbn.
  destruct (current <? 0); [done|]. by destruct (current =? token_epoch c).
Qed.
