(* ===== verification/Binary64.v ===== *)
(** * Binary64

    The arithmetic of [double], rounded to nearest, as the Standard Library's [SpecFloat]
    specifies it, and what the components need of it: the results on non-negative numbers
    are canonical, comparison is that of the values, and integers are exact. *)
From Stdlib Require Import SpecFloat.
From S2P Require Import Prelude.
Open Scope Z_scope.

Notation double := spec_float.
Definition f_add : double -> double -> double := SFadd 53 1024.
Definition f_sub : double -> double -> double := SFsub 53 1024.
Definition f_mul : double -> double -> double := SFmul 53 1024.
Definition f_div : double -> double -> double := SFdiv 53 1024.
Definition f_lt : double -> double -> bool := SFltb.
(** [static_cast<double>] of an integer. *)
Definition f_of (z : Z) : double := binary_normalize 53 1024 z 0 false.

#[export] Instance double_eq : EqDecision double.
Proof. solve_decision. Defined.

(** ** Digits and shifts *)

Lemma digits_bounds m : 2 ^ (Z.pos (digits2_pos m) - 1) <= Z.pos m < 2 ^ Z.pos (digits2_pos m).
Proof.
  induction m as [m IH|m IH|]; cbn [digits2_pos]; [..|by cbn]; rewrite Pos2Z.inj_succ;
    set (d := Z.pos (digits2_pos m)) in *; assert (0 < d) by (unfold d; lia);
    (replace (Z.succ d - 1) with (Z.succ (d - 1)) by lia); rewrite !Z.pow_succ_r by lia; lia.
Qed.

Lemma digits_least m n : 0 <= n -> Z.pos m < 2 ^ n -> Z.pos (digits2_pos m) <= n.
Proof.
  intros Hn Hm. pose proof (digits_bounds m) as [H _]. apply Z.nlt_ge. intros Hlt.
  pose proof (Z.pow_le_mono_r 2 n (Z.pos (digits2_pos m) - 1) ltac:(lia) ltac:(lia)). lia.
Qed.

Lemma digits_most m n : 0 < n -> 2 ^ (n - 1) <= Z.pos m -> n <= Z.pos (digits2_pos m).
Proof.
  intros Hn Hm. pose proof (digits_bounds m) as [_ H]. apply Z.nlt_ge. intros Hlt.
  pose proof (Z.pow_le_mono_r 2 (Z.pos (digits2_pos m)) (n - 1) ltac:(lia) ltac:(lia)). lia.
Qed.

Lemma iter_xO m d : Z.pos (Pos.iter xO m d) = Z.pos m * 2 ^ Z.pos d.
Proof.
  induction d as [|d IH] using Pos.peano_ind; [cbn; lia|]. rewrite Pos.iter_succ, Pos2Z.inj_succ, Z.pow_succ_r by lia.
  rewrite Pos2Z.inj_xO, IH. lia.
Qed.

Lemma shl_align_spec m e e' :
  let '(m', x) := shl_align m e e' in
  x = Z.min e e' /\ Z.pos m' = Z.pos m * 2 ^ (e - x).
Proof.
  unfold shl_align. destruct (e' - e) as [|p|p] eqn:E.
  - split; [lia|]. rewrite Z.sub_diag, Z.pow_0_r. lia.
  - split; [lia|]. rewrite Z.sub_diag, Z.pow_0_r. lia.
  - split; [lia|]. rewrite iter_xO. do 2 f_equal. lia.
Qed.

Lemma shr_1_floor m r s : 0 <= m -> shr_m (shr_1 (Build_shr_record m r s)) = m / 2.
Proof.
  intros Hm. destruct m as [|[p|p|]|p]; cbn [shr_1 shr_m]; [done|..|lia].
  - rewrite Pos2Z.inj_xI. by rewrite Z.mul_comm, Z.div_add_l by done.
  - rewrite Pos2Z.inj_xO. by rewrite Z.mul_comm, Z.div_mul by done.
  - done.
Qed.

Lemma iter_shr_floor p : forall m, 0 <= shr_m m -> shr_m (SpecFloat.iter_pos shr_1 p m) = shr_m m / 2 ^ Z.pos p.
Proof.
  induction p as [p IH|p IH|]; intros [m r s] Hm; cbn [SpecFloat.iter_pos shr_m] in *.
  - assert (0 <= m / 2) as H2 by (apply Z.div_pos; lia).
    pose proof (shr_1_floor m r s Hm) as H1. rewrite IH, IH, H1 by (rewrite ?IH, H1 by lia; try apply Z.div_pos; lia).
    rewrite !Z.div_div by lia. f_equal. rewrite (Pos2Z.inj_xI p), Z.add_1_r, Z.pow_succ_r, Z.mul_comm by lia. 
    replace (2 * Z.pos p) with (Z.pos p + Z.pos p) by lia. rewrite Z.pow_add_r by lia. lia.
  - rewrite IH, IH by (rewrite ?IH by done; cbn [shr_m]; try apply Z.div_pos; lia). cbn [shr_m].
    rewrite Z.div_div by lia. f_equal. rewrite <- Z.pow_add_r by lia. f_equal. lia.
  - by apply shr_1_floor.
Qed.

Lemma iter_shr_exact p : forall m, 0 <= m ->
  SpecFloat.iter_pos shr_1 p (Build_shr_record (m * 2 ^ Z.pos p) false false) = Build_shr_record m false false.
Proof.
  assert (forall m, 0 <= m -> shr_1 (Build_shr_record (m * 2) false false) = Build_shr_record m false false) as H1
    by (intros [|m|m] Hm; [done|by rewrite Z.mul_comm|lia]).
  induction p as [p IH|p IH|]; intros m Hm; cbn [SpecFloat.iter_pos].
  - replace (m * 2 ^ Z.pos p~1) with (m * 2 ^ Z.pos p * 2 ^ Z.pos p * 2).
    { by rewrite H1, !IH by lia. }
    rewrite (Pos2Z.inj_xI p), Z.add_1_r, Z.pow_succ_r by lia. replace (2 * Z.pos p) with (Z.pos p + Z.pos p) by lia.
    rewrite Z.pow_add_r by lia. lia.
  - replace (m * 2 ^ Z.pos p~0) with (m * 2 ^ Z.pos p * 2 ^ Z.pos p); [by rewrite !IH by lia|].
    rewrite (Pos2Z.inj_xO p). replace (2 * Z.pos p) with (Z.pos p + Z.pos p) by lia. rewrite Z.pow_add_r by lia. lia.
  - by apply H1.
Qed.

(** ** Rounding *)

(** The exponent of the last place of a number of magnitude [2 ^ x]. *)
Definition place (x : Z) : Z := Z.max (x - 53) (-1074).

Lemma fexp_place x : fexp 53 1024 x = place x.
Proof. reflexivity. Qed.

Lemma shr_spec r e n : 0 <= shr_m r -> 0 <= n ->
  shr_m (fst (shr r e n)) = shr_m r / 2 ^ n /\ snd (shr r e n) = e + n.
Proof.
  intros Hr Hn. destruct n as [|p|p]; cbn [shr fst snd]; [|split; [by apply iter_shr_floor|done]|lia].
  rewrite Z.pow_0_r, Z.div_1_r. split; [done|lia].
Qed.

Lemma shr_stays r e n : n <= 0 -> shr r e n = (r, e).
Proof. by destruct n. Qed.

Lemma rounded_near m l : m <= round_nearest_even m l <= m + 1.
Proof. destruct l as [|[]]; cbn; [lia|destruct (Z.even m)|..]; lia. Qed.

Lemma of_loc_m m l : shr_m (shr_record_of_loc m l) = m.
Proof. by destruct l as [|[]]. Qed.

(** A non-negative number in canonical form, and that or an infinity. *)
Definition sound (t : double) : Prop :=
  match t with S754_zero _ => True | S754_finite false m e => bounded 53 1024 m e = true | _ => False end.
Definition fine (t : double) : Prop := sound t \/ t = S754_infinity false.

Lemma bounded_spec m e : bounded 53 1024 m e = true <-> place (Z.pos (digits2_pos m) + e) = e /\ e <= 971.
Proof.
  unfold bounded, canonical_mantissa. rewrite andb_true_iff, Z.eqb_eq, fexp_place. change (1024 - 53) with 971.
  by rewrite Z.leb_le.
Qed.

Lemma sound_finite m e : place (Z.pos (digits2_pos m) + e) = e ->
  fine (if e <=? 1024 - 53 then S754_finite false m e else S754_infinity false).
Proof.
  intros H. change (1024 - 53) with 971. destruct (Z.leb_spec e 971); [|by right]. left. apply bounded_spec. by split.
Qed.

Lemma round_sound m e l : 0 <= m -> e <= place (Zdigits2 m + e) -> fine (binary_round_aux 53 1024 false m e l).
Proof.
  intros Hm He. unfold binary_round_aux, shr_fexp. rewrite fexp_place. set (x := place _) in *.
  pose proof (shr_spec (shr_record_of_loc m l) e (x - e)) as H. rewrite of_loc_m in H. specialize (H Hm ltac:(lia)).
  destruct (shr _ _ _) as [r1 e1]. cbn [fst snd] in H. destruct H as [H1 ->]. replace (e + (x - e)) with x by lia.
  set (m2 := round_nearest_even _ _). pose proof (rounded_near (shr_m r1) (loc_of_shr_record r1)) as H2. fold m2 in H2.
  assert (0 <= m2 <= 2 ^ 53 /\ (x <> -1074 -> 2 ^ 52 <= m2)) as [Hm2 Hbig].
  { rewrite H1 in H2. assert (0 <= m / 2 ^ (x - e)) by (apply Z.div_pos; lia). unfold x, place in *. destruct m as [|p|p]; [| |lia].
    - rewrite Z.div_0_l in H2 by lia. split; [lia|]. cbn [Zdigits2] in *. lia.
    - cbn [Zdigits2] in *. pose proof (digits_bounds p) as [Hl Hu]. set (d := Z.pos (digits2_pos p)) in *. split.
      + split; [lia|]. assert (Z.pos p / 2 ^ (Z.max (d + e - 53) (-1074) - e) < 2 ^ 53); [|lia].
        apply Z.div_lt_upper_bound; [lia|]. rewrite <- Z.pow_add_r by lia. eapply Z.lt_le_trans; [exact Hu|].
        apply Z.pow_le_mono_r; lia.
      + intros Hx. assert (2 ^ 52 <= Z.pos p / 2 ^ (Z.max (d + e - 53) (-1074) - e)); [|lia].
        apply Z.div_le_lower_bound; [lia|]. rewrite <- Z.pow_add_r by lia. etrans; [|exact Hl].
        apply Z.pow_le_mono_r; lia. }
  clearbody m2. clear H1 H2 He. assert (-1074 <= x) as Hx by (unfold x, place; lia). clearbody x. clear r1 m e l Hm. rewrite fexp_place.
  destruct m2 as [|p|p]; [rewrite shr_stays by (cbn [Zdigits2]; unfold place; lia); by left| |lia].
  destruct (Z.eq_dec (Z.pos p) (2 ^ 53)) as [E|Hne].
  - assert (p = 9007199254740992%positive) as -> by by apply Pos2Z.inj. clear E.
    change (Zdigits2 (Z.pos _)) with 54. replace (place (54 + x) - x) with 1 by (unfold place; lia).
    change (shr (shr_record_of_loc 9007199254740992 loc_Exact) x 1) with (Build_shr_record 4503599627370496 false false, x + 1).
    cbn [shr_m]. apply sound_finite. change (Z.pos (digits2_pos _)) with 53. unfold place. lia.
  - pose proof (digits_least p 53 ltac:(lia) ltac:(lia)).
    assert (x <> -1074 -> 53 <= Z.pos (digits2_pos p)) by (intros; apply digits_most; [lia|]; change (53 - 1) with 52; auto).
    rewrite shr_stays by (cbn [Zdigits2]; unfold place; lia). cbn [shr_m shr_record_of_loc]. apply sound_finite. unfold place.
    destruct (Z.eq_dec x (-1074)); lia.
Qed.

Lemma digits_shifted m k m' : 0 <= k -> Z.pos m' = Z.pos m * 2 ^ k -> Z.pos (digits2_pos m') = Z.pos (digits2_pos m) + k.
Proof.
  intros Hk E. pose proof (digits_bounds m) as [Hl Hu]. set (d := Z.pos (digits2_pos m)) in *.
  assert (0 < d) by (unfold d; lia). assert (0 < 2 ^ k) by lia.
  apply Z.le_antisymm; [apply digits_least; [lia|]|apply digits_most; [lia|]]; rewrite E.
  - rewrite Z.pow_add_r by lia. by apply Z.mul_lt_mono_pos_r.
  - replace (d + k - 1) with ((d - 1) + k) by lia. rewrite Z.pow_add_r by lia. by apply Z.mul_le_mono_nonneg_r; [lia|].
Qed.

Lemma normalize_sound m e : 0 <= m -> fine (binary_normalize 53 1024 m e false).
Proof.
  intros Hm. destruct m as [|p|p]; [by left| |lia]. cbn [binary_normalize]. unfold binary_round. rewrite fexp_place.
  pose proof (shl_align_spec p e (place (Z.pos (digits2_pos p) + e))) as H. destruct (shl_align _ _ _) as [p' x].
  destruct H as [-> E]. apply digits_shifted in E; [|lia]. apply round_sound; [lia|]. cbn [Zdigits2]. rewrite E.
  match goal with |- _ <= place ?y => replace y with (Z.pos (digits2_pos p) + e) by lia end. lia.
Qed.

Lemma f_of_fine z : 0 <= z -> fine (f_of z).
Proof. apply normalize_sound. Qed.

(** Sums, products and quotients of canonical numbers are canonical, or overflow. *)
Lemma add_fine a b : sound a -> fine b -> fine (f_add a b).
Proof.
  intros Ha [Hb| ->]; [|destruct a as [| | |[]]; done || by right].
  destruct a as [sa|sa| |[] ma ea]; try done; destruct b as [sb|sb| |[] mb eb]; try done; try by left.
  - left. by destruct sa, sb.
  - unfold f_add, SFadd. cbn [cond_Zopp]. apply normalize_sound. lia.
Qed.

Definition above_zero (t : double) : Prop := match t with S754_finite false _ _ | S754_infinity false => True | _ => False end.

Lemma mul_fine a b : fine a -> above_zero a -> sound b -> above_zero b -> fine (f_mul a b).
Proof.
  intros [Ha| ->] Pa Hb Pb; destruct b as [|[]| |[] mb eb]; try done; [|by right].
  destruct a as [|[]| |[] ma ea]; try done. cbn in Ha, Hb. apply bounded_spec in Ha as [Ha _], Hb as [Hb _].
  unfold f_mul, SFmul. cbn [xorb]. apply round_sound; [lia|]. cbn [Zdigits2].
  pose proof (digits_bounds ma) as [La _]. pose proof (digits_bounds mb) as [Lb _].
  set (da := Z.pos (digits2_pos ma)) in *. set (db := Z.pos (digits2_pos mb)) in *.
  assert (1 <= da /\ 1 <= db) as [] by (unfold da, db; lia).
  assert (da + db - 1 <= Z.pos (digits2_pos (ma * mb))).
  { apply digits_most; [lia|]. rewrite Pos2Z.inj_mul. replace (da + db - 1 - 1) with ((da - 1) + (db - 1)) by lia.
    rewrite Z.pow_add_r by lia. apply Z.mul_le_mono_nonneg; lia. }
  unfold place in *. lia.
Qed.

Lemma div_fine a b : fine a -> sound b -> above_zero b -> fine (f_div a b).
Proof.
  intros Ha Hb Pb. destruct b as [|[]| |[] m e]; try done. cbn in Hb. destruct Ha as [Ha| ->]; [|by right]. destruct a as [s|s| |[] ma ea]; try done; [by left|].
  unfold f_div, SFdiv, SFdiv_core_binary. rewrite fexp_place. cbn [Zdigits2].
  set (x := place _). set (e' := Z.min x (ea - e)). set (s := ea - e - e').
  assert (0 <= s) as Hs by (unfold s, e'; lia).
  replace (match s with 0 => Z.pos ma | Z.pos _ => Z.shiftl (Z.pos ma) s | Z.neg _ => 0 end) with (Z.pos ma * 2 ^ s);
    [|destruct s; [lia|by rewrite Z.shiftl_mul_pow2 by lia|lia]].
  pose proof (Z.div_mod (Z.pos ma * 2 ^ s) (Z.pos m) ltac:(done)) as Hdiv.
  pose proof (Z.mod_pos_bound (Z.pos ma * 2 ^ s) (Z.pos m) ltac:(done)) as Hmod.
  unfold Z.div, Z.modulo in Hdiv, Hmod. destruct (Z.div_eucl _ _) as [q r].
  assert (0 <= q) as Hq by nia. cbn [xorb]. apply round_sound; [done|].
  pose proof (digits_bounds ma) as [La _]. pose proof (digits_bounds m) as [_ Um].
  set (da := Z.pos (digits2_pos ma)) in *. set (d := Z.pos (digits2_pos m)) in *.
  assert (1 <= da /\ 1 <= d) as [] by (unfold da, d; lia).
  assert (1 <= da + s - d -> da + s - d <= Zdigits2 q) as Hd.
  { intros H1. destruct q as [|q|q]; [|cbn [Zdigits2]; apply digits_most; [lia|]|lia].
    - exfalso. assert (Z.pos ma * 2 ^ s < 2 ^ d) as Hlt by lia.
      assert (2 ^ d <= 2 ^ (da - 1) * 2 ^ s) by (rewrite <- Z.pow_add_r by lia; apply Z.pow_le_mono_r; lia). nia.
    - assert (2 ^ (da - 1) * 2 ^ s < 2 ^ d * (Z.pos q + 1)) as Hlt by nia.
      replace (2 ^ (da - 1) * 2 ^ s) with (2 ^ d * 2 ^ (da + s - d - 1)) in Hlt
        by (rewrite <- !Z.pow_add_r by lia; f_equal; lia).
      apply Z.mul_lt_mono_pos_l in Hlt; lia. }
  assert (0 <= Zdigits2 q) by (destruct q; cbn; lia). unfold x, e', s, place in *. lia.
Qed.

(** ** Values *)

(** Of canonical numbers, in units of the smallest one, [2 ^ -1074]. *)
Definition value (t : double) : Z := match t with S754_finite false m e => Z.pos m * 2 ^ (e + 1074) | _ => 0 end.
Definition unit : Z := 2 ^ 1074.

Lemma value_nonneg t : 0 <= value t.
Proof. destruct t as [| | |[] m e]; cbn [value]; try done. apply Z.mul_nonneg_nonneg; [lia|]. apply Z.pow_nonneg. lia. Qed.

Lemma value_pos m e : -1074 <= e -> 0 < Z.pos m * 2 ^ (e + 1074).
Proof. intros He. apply Z.mul_pos_pos; [lia|]. apply Z.pow_pos_nonneg; lia. Qed.

Lemma sound_exponent m e : bounded 53 1024 m e = true ->
  -1074 <= e <= 971 /\ Z.pos m < 2 ^ 53 /\ (e <> -1074 -> 2 ^ 52 <= Z.pos m).
Proof.
  intros [H He]%bounded_spec. pose proof (digits_bounds m) as [Hl Hu]. set (d := Z.pos (digits2_pos m)) in *.
  assert (0 < d) by (unfold d; lia). unfold place in H. split; [lia|].
  split; [eapply Z.lt_le_trans; [exact Hu|apply Z.pow_le_mono_r; lia]|].
  intros Hne. etrans; [|exact Hl]. apply Z.pow_le_mono_r; lia.
Qed.

(** A greater exponent is a greater value. *)
Lemma exponent_value ma ea mb eb : bounded 53 1024 ma ea = true -> bounded 53 1024 mb eb = true -> ea < eb ->
  Z.pos ma * 2 ^ (ea + 1074) < Z.pos mb * 2 ^ (eb + 1074).
Proof.
  intros (? & Ha & _)%sound_exponent (? & _ & Hb)%sound_exponent Hlt. specialize (Hb ltac:(lia)).
  assert (0 < 2 ^ (ea + 1074)) by (apply Z.pow_pos_nonneg; lia).
  assert (2 ^ (eb + 1074) = 2 * (2 ^ (eb - ea - 1) * 2 ^ (ea + 1074))) as ->
    by (rewrite <- Z.pow_add_r, <- Z.pow_succ_r by lia; f_equal; lia).
  assert (1 <= 2 ^ (eb - ea - 1)) by (pose proof (Z.pow_pos_nonneg 2 (eb - ea - 1)); lia).
  set (A := 2 ^ (ea + 1074)) in *. set (B := 2 ^ (eb - ea - 1)) in *. clearbody A B.
  assert (2 ^ 52 <= Z.pos mb * B) by nia. replace (Z.pos mb * (2 * (B * A))) with (2 * (Z.pos mb * B) * A) by lia.
  apply Z.mul_lt_mono_pos_r; lia.
Qed.

Lemma f_lt_value a b : sound a -> sound b -> f_lt a b = (value a <? value b).
Proof.
  intros Ha Hb. destruct a as [sa|sa| |[] ma ea]; try done; destruct b as [sb|sb| |[] mb eb]; try done; unfold f_lt, SFltb; cbn in Ha, Hb |- *.
  - destruct (sound_exponent mb eb Hb) as [? _]. symmetry. apply Z.ltb_lt, value_pos. lia.
  - destruct (sound_exponent ma ea Ha) as [? _]. symmetry. apply Z.ltb_ge, Z.lt_le_incl, value_pos. lia.
  - destruct (Z.compare_spec ea eb) as [->|Hlt|Hgt].
    + change (Pos.compare_cont Eq ma mb) with (ma ?= mb)%positive. destruct (sound_exponent mb eb Hb) as [? _].
      assert (0 < 2 ^ (eb + 1074)) by (apply Z.pow_pos_nonneg; lia).
      destruct (Pos.compare_spec ma mb) as [->|Hm|Hm]; symmetry; [apply Z.ltb_irrefl|apply Z.ltb_lt|apply Z.ltb_ge]; nia.
    + symmetry. apply Z.ltb_lt. by apply exponent_value.
    + symmetry. apply Z.ltb_ge, Z.lt_le_incl. by apply exponent_value.
Qed.

(** A number whose last place is not cut off is represented exactly. *)
Lemma normalize_exact m e : 0 <= m -> -1074 <= e ->
  (m = 0 \/ place (Zdigits2 m + e) <= 971 /\ (place (Zdigits2 m + e) <= e \/ (2 ^ (place (Zdigits2 m + e) - e) | m))) ->
  sound (binary_normalize 53 1024 m e false) /\ value (binary_normalize 53 1024 m e false) = m * 2 ^ (e + 1074).
Proof.
  intros Hm He [->|[Hx Hdiv]]; [done|]. destruct m as [|p|p]; [done| |lia]. cbn [binary_normalize]. unfold binary_round.
  rewrite fexp_place. cbn [Zdigits2] in *. set (x := place _) in *.
  assert (-1074 <= x) as Hx0 by (unfold x, place; lia).
  pose proof (shl_align_spec p e x) as H. destruct (shl_align _ _ _) as [p' e']. destruct H as [-> E].
  pose proof (digits_shifted p (e - Z.min e x) p' ltac:(lia) E) as Hd. unfold binary_round_aux, shr_fexp. rewrite fexp_place. cbn [Zdigits2].
  replace (Z.pos (digits2_pos p') + Z.min e x) with (Z.pos (digits2_pos p) + e) by lia. fold x.
  assert (exists q, shr (shr_record_of_loc (Z.pos p') loc_Exact) (Z.min e x) (x - Z.min e x) = (Build_shr_record (Z.pos q) false false, x) /\
            Z.pos q * 2 ^ (x + 1074) = Z.pos p * 2 ^ (e + 1074)) as (q & -> & Eq).
  { destruct (Z.le_gt_cases x e) as [Hle|Hgt].
    - rewrite Z.min_r in * by done. exists p'. rewrite Z.sub_diag. split; [done|]. rewrite E.
      rewrite <- Z.mul_assoc, <- Z.pow_add_r by lia. do 2 f_equal. lia.
    - rewrite Z.min_l in * by lia. rewrite Z.sub_diag, Z.pow_0_r, Z.mul_1_r in E. injection E as ->.
      destruct Hdiv as [|[k Hk]]; [lia|]. assert (0 < 2 ^ (x - e)) by (apply Z.pow_pos_nonneg; lia).
      assert (0 < k) by nia. destruct k as [|k|k]; [lia| |lia]. exists k. split.
      + destruct (x - e) as [|n|n] eqn:En; [lia| |lia]. cbn [shr shr_record_of_loc]. rewrite Hk, iter_shr_exact by lia.
        f_equal. lia.
      + rewrite Hk, <- Z.mul_assoc, <- Z.pow_add_r by lia. do 2 f_equal. lia. }
  cbn [shr_m loc_of_shr_record round_nearest_even]. rewrite fexp_place. cbn [Zdigits2].
  assert (place (Z.pos (digits2_pos q) + x) = x) as Hq.
  { assert (Z.pos (digits2_pos q) + x = Z.pos (digits2_pos p) + e) as ->; [|done].
    destruct (Z.le_gt_cases x e).
    - assert (Z.pos q = Z.pos p * 2 ^ (e - x)) as E1.
      { apply (Z.mul_reg_r _ _ (2 ^ (x + 1074))); [apply Z.pow_nonzero; lia|]. rewrite Eq, <- Z.mul_assoc, <- Z.pow_add_r by lia. do 2 f_equal. lia. }
      apply digits_shifted in E1; lia.
    - assert (Z.pos p = Z.pos q * 2 ^ (x - e)) as E1.
      { apply (Z.mul_reg_r _ _ (2 ^ (e + 1074))); [apply Z.pow_nonzero; lia|]. rewrite <- Eq, <- Z.mul_assoc, <- Z.pow_add_r by lia. do 2 f_equal. lia. }
      apply digits_shifted in E1; lia. }
  rewrite Hq, shr_stays by lia. cbn [shr_m shr_record_of_loc]. change (1024 - 53) with 971.
  rewrite (proj2 (Z.leb_le x 971)) by done. split; [|exact Eq]. apply bounded_spec. by split.
Qed.

Lemma f_of_exact k : 0 <= k < 2 ^ 53 -> sound (f_of k) /\ value (f_of k) = k * unit.
Proof.
  intros Hk. destruct (normalize_exact k 0) as [H1 H2]; [lia|lia| |by split].
  destruct k as [|k|k]; [by left| |lia]. right. pose proof (digits_least k 53). cbn [Zdigits2]. unfold place. lia.
Qed.

Lemma small_exponent m e b : bounded 53 1024 m e = true -> b <= 2 ^ 53 -> Z.pos m * 2 ^ (e + 1074) < b * unit -> e <= 0.
Proof.
  intros (? & _ & Hm)%sound_exponent Hb Hv. apply Z.nlt_ge. intros He. specialize (Hm ltac:(lia)). revert Hv. apply Z.le_ngt.
  replace (e + 1074) with (1074 + (e - 1) + 1) by lia. unfold unit. rewrite !Z.pow_add_r by lia. change (2 ^ 1) with 2.
  assert (1 <= 2 ^ (e - 1)) by (pose proof (Z.pow_pos_nonneg 2 (e - 1)); lia).
  assert (0 < 2 ^ 1074) by (apply Z.pow_pos_nonneg; lia). set (u := 2 ^ 1074) in *. set (v := 2 ^ (e - 1)) in *. clearbody u v.
  assert (b <= Z.pos m * v * 2) by nia. replace (Z.pos m * (u * v * 2)) with (Z.pos m * v * 2 * u) by lia.
  apply Z.mul_le_mono_nonneg_r; lia.
Qed.

(** Whole numbers are taken away exactly. *)
Lemma f_sub_exact a k : sound a -> 0 <= k < 2 ^ 53 -> k * unit <= value a < 2 ^ 53 * unit ->
  sound (f_sub a (f_of k)) /\ value (f_sub a (f_of k)) = value a - k * unit.
Proof.
  intros Ha Hk Hv. destruct (f_of_exact k Hk) as [Hb Eb]. rewrite <- Eb in Hv |- *.
  destruct (f_of k) as [sb|sb| |[] mb eb]; try done.
  - cbn [value] in *. rewrite Z.sub_0_r. destruct a as [[]| | |[] ma ea]; try done; by destruct sb.
  - destruct (sound_exponent mb eb Hb) as [? _]. pose proof (value_pos mb eb ltac:(lia)) as Hpos.
    destruct a as [sa|sa| |[] ma ea]; cbn [value] in *; try done; [lia|].
    pose proof (small_exponent ma ea (2 ^ 53) Ha ltac:(lia) (proj2 Hv)) as Hea.
    destruct (sound_exponent ma ea Ha) as (? & Hma & _). unfold f_sub, SFsub. cbn [cond_Zopp].
    set (ez := Z.min ea eb). pose proof (shl_align_spec ma ea ez) as Sa. pose proof (shl_align_spec mb eb ez) as Sb.
    destruct (shl_align ma ea ez) as [na xa], (shl_align mb eb ez) as [nb xb]. cbn [fst].
    destruct Sa as [-> Sa], Sb as [-> Sb]. rewrite Sa, Sb. replace (Z.min ea ez) with ez by lia. replace (Z.min eb ez) with ez by lia.
    set (D := _ - _).
    assert (D * 2 ^ (ez + 1074) = Z.pos ma * 2 ^ (ea + 1074) - Z.pos mb * 2 ^ (eb + 1074)) as ED.
    { unfold D. rewrite Z.mul_sub_distr_r, <- !Z.mul_assoc, <- !Z.pow_add_r by lia. do 3 f_equal; lia. }
    assert (0 < 2 ^ (ez + 1074)) as Hz by (apply Z.pow_pos_nonneg; lia).
    assert (0 <= D) as HD by nia. rewrite <- ED. apply normalize_exact; [done|lia|].
    destruct D as [|D'|] eqn:EDe; [by left| |lia]. right. cbn [Zdigits2].
    assert (Z.pos (digits2_pos D') <= 53 + (ea - ez)) as Hd.
    { apply digits_least; [lia|]. rewrite Z.pow_add_r by lia. assert (Z.pos D' <= Z.pos ma * 2 ^ (ea - ez)) by (unfold D in EDe; lia).
      eapply Z.le_lt_trans; [done|]. apply Z.mul_lt_mono_pos_r; [|done]. apply Z.pow_pos_nonneg; lia. }
    unfold place. split; [lia|]. destruct (Z.le_gt_cases (Z.max (Z.pos (digits2_pos D') + ez - 53) (-1074)) ez) as [|Hgt]; [by left|right].
    apply (Z.divide_trans _ (2 ^ (ea - ez))).
    { exists (2 ^ (ea - Z.max (Z.pos (digits2_pos D') + ez - 53) (-1074))). rewrite <- Z.pow_add_r by lia. f_equal. lia. }
    exists (Z.pos ma - k * 2 ^ (- ea)). apply (Z.mul_reg_r _ _ (2 ^ (ez + 1074))); [lia|]. rewrite ED, Eb.
    rewrite <- Z.mul_assoc, <- Z.pow_add_r by lia. replace (ea - ez + (ez + 1074)) with (ea + 1074) by lia.
    rewrite Z.mul_sub_distr_r. f_equal. rewrite <- Z.mul_assoc, <- Z.pow_add_r by lia. unfold unit. do 2 f_equal. lia.
Qed.

(** ** Signs *)

Definition sign_is (sx : bool) (t : double) : Prop :=
  match t with S754_zero s | S754_infinity s | S754_finite s _ _ => s = sx | S754_nan => True end.

Lemma round_sign sx m e loc : sign_is sx (binary_round_aux 53 1024 sx m e loc).
Proof.
  unfold binary_round_aux. destruct (shr_fexp _ _ m e loc) as [r1 e1].
  destruct (shr_fexp _ _ _ e1 loc_Exact) as [r2 e2]. destruct (shr_m r2); [done| |done]. by destruct (_ <=? _).
Qed.

Lemma negative_sign z : z < 0 -> sign_is true (f_of z).
Proof.
  intros Hz. destruct z as [|p|p]; [lia|lia|]. unfold f_of, binary_normalize, binary_round.
  destruct (shl_align p 0 _). apply round_sign.
Qed.

Lemma div_sign t m e : sign_is true t -> sign_is true (f_div t (S754_finite false m e)).
Proof.
  destruct t as [s|s| |s mt et]; cbn; intros Hs; try (by subst); try done. subst s. unfold f_div, SFdiv.
  destruct (SFdiv_core_binary _ _ _ _ _ _) as [[q e'] l]. apply round_sign.
Qed.

Lemma not_above_zero t : sign_is true t -> f_lt (f_of 0) t = false.
Proof. destruct t as [s|s| |s m e]; cbn; intros Hs; subst; done. Qed.
