(* ===== verification/RateLimiter.v ===== *)
(** * The token bucket: src/src/auth/rate_limiter.cpp

    Tokens are [double]s of [Binary64]; time points are nanoseconds. The map of buckets is a
    finite map: the sweep erases entries whatever the order it meets them in. The second part
    shows that in every limiter that can be reached no bucket holds more than its capacity,
    and what that says of the requests made at one instant. *)
From stdpp Require Import gmap strings.
From S2P Require Import Prelude Types Binary64.
Open Scope Z_scope.

(** ** Limits *)

Record RateLimit := mkLimit { capacity : Z; refill_per_sec : double }.

Definition per (n interval : Z) : RateLimit := mkLimit n (f_div (f_of n) (f_of interval)).

Module rate_presets.
Definition login_per_ip : RateLimit := per 5 60.
Definition login_per_account : RateLimit := per 10 3600.
Definition register_per_ip : RateLimit := per 3 3600.
Definition google_auth_per_ip : RateLimit := per 10 60.
Definition seal_request_per_ip : RateLimit := per 20 60.
Definition move_per_conn : RateLimit := per 10 1.
End rate_presets.

(** ** Buckets *)

Record Bucket := mkBucket { tokens : double; last_touched : Z }.

Record RateLimiter := mkLimiter { limit_ : RateLimit; ttl_ : Z; buckets_ : gmap (list ascii) Bucket }.

(** The default [ttl] is an hour. *)
Definition new_limiter (limit : RateLimit) : RateLimiter := mkLimiter limit (3600 * 1000000000) ∅.
Definition with_buckets (b : gmap (list ascii) Bucket) (l : RateLimiter) : RateLimiter := mkLimiter (limit_ l) (ttl_ l) b.

Definition refill_locked (limit : RateLimit) (b : Bucket) (now : Z) : Bucket :=
  let elapsed := f_div (f_of (now - last_touched b)) (f_of 1000000000) in
  let t :=
    if f_lt (f_of 0) elapsed then
      let t := f_add (tokens b) (f_mul elapsed (refill_per_sec limit)) in
      if f_lt (f_of (capacity limit)) t then f_of (capacity limit) else t
    else tokens b in
  mkBucket t now.

Definition fresh (ttl now : Z) (b : Bucket) : bool := negb (ttl <? now - last_touched b).

(** The entries left, and how many went. *)
Definition sweep_locked (now : Z) (l : RateLimiter) : nat * RateLimiter :=
  let kept := base.filter (fun p => fresh (ttl_ l) now p.2 = true) (buckets_ l) in
  ((size (buckets_ l) - size kept)%nat, with_buckets kept l).

Definition try_take (now : Z) (key : list ascii) (cost : Z) (l : RateLimiter) : bool * RateLimiter :=
  let l := snd (sweep_locked now l) in
  let b :=
    match buckets_ l !! key with
    | None => mkBucket (f_of (capacity (limit_ l))) now
    | Some b => refill_locked (limit_ l) b now
    end in
  if f_lt (tokens b) (f_of cost) then (false, with_buckets (<[key := b]> (buckets_ l)) l)
  else (true, with_buckets (<[key := mkBucket (f_sub (tokens b) (f_of cost)) now]> (buckets_ l)) l).

Definition current_tokens (now : Z) (key : list ascii) (l : RateLimiter) : double * RateLimiter :=
  match buckets_ l !! key with
  | None => (f_of (-1), l)
  | Some b => let b := refill_locked (limit_ l) b now in (tokens b, with_buckets (<[key := b]> (buckets_ l)) l)
  end.

Definition sweep_expired (now : Z) (l : RateLimiter) : nat * RateLimiter := sweep_locked now l.

(** ** What a request finds and leaves *)

(** The level the request is measured against. *)
Definition level (now : Z) (key : list ascii) (l : RateLimiter) : double :=
  match buckets_ l !! key with
  | Some b => if fresh (ttl_ l) now b then tokens (refill_locked (limit_ l) b now) else f_of (capacity (limit_ l))
  | None => f_of (capacity (limit_ l))
  end.

Lemma swept_lookup now l k :
  buckets_ (snd (sweep_locked now l)) !! k = b ← buckets_ l !! k; if fresh (ttl_ l) now b then Some b else None.
Proof.
  unfold sweep_locked. cbn [snd buckets_ with_buckets]. rewrite map_lookup_filter. destruct (buckets_ l !! k) as [b|]; [|done].
  cbn. by destruct (fresh (ttl_ l) now b).
Qed.

Lemma try_take_spec now key cost l :
  let r := try_take now key cost l in
  fst r = negb (f_lt (level now key l) (f_of cost)) /\
  limit_ (snd r) = limit_ l /\ ttl_ (snd r) = ttl_ l /\
  buckets_ (snd r) !! key =
    Some (mkBucket (if fst r then f_sub (level now key l) (f_of cost) else level now key l) now) /\
  forall k, k <> key -> buckets_ (snd r) !! k = b ← buckets_ l !! k; if fresh (ttl_ l) now b then Some b else None.
Proof.
  cbv zeta. unfold try_take.
  set (b := match buckets_ (snd (sweep_locked now l)) !! key with None => _ | Some b => _ end).
  assert (b = mkBucket (level now key l) now) as ->.
  { unfold b, level. rewrite swept_lookup. cbn [limit_ sweep_locked snd with_buckets].
    destruct (buckets_ l !! key) as [b0|]; cbn; [|done]. by destruct (fresh (ttl_ l) now b0). }
  cbn [tokens]. destruct (f_lt (level now key l) (f_of cost)); cbn [fst snd negb limit_ ttl_ buckets_ with_buckets];
    (split; [done|]); (split; [done|]); (split; [done|]); rewrite lookup_insert_eq; (split; [done|]);
    intros k Hk; rewrite lookup_insert_ne by done; apply swept_lookup.
Qed.

(** ** The clock *)

(** Nothing is refilled within an instant, nor when the clock goes back. *)
Lemma no_time_no_refill limit b now : now <= last_touched b -> tokens (refill_locked limit b now) = tokens b.
Proof.
  intros H. unfold refill_locked. cbn [tokens].
  assert (f_lt (f_of 0) (f_div (f_of (now - last_touched b)) (f_of 1000000000)) = false) as ->; [|done].
  destruct (decide (now = last_touched b)) as [->|Hn]; [by rewrite Z.sub_diag|].
  apply not_above_zero. eapply div_sign, negative_sign. lia.
Qed.

(** ** Limiters that can be reached *)

(** A limit of a burst that [double] counts exactly, and of some sustained rate. *)
Definition limit_ok (limit : RateLimit) : Prop :=
  0 <= capacity limit < 2 ^ 53 /\ sound (refill_per_sec limit) /\ above_zero (refill_per_sec limit).

(** Any calls, at any times, the clock going back included. *)
Inductive reached (limit : RateLimit) : RateLimiter -> Prop :=
| re_new ttl : 0 <= ttl -> reached limit (mkLimiter limit ttl ∅)
| re_take now key cost l : 0 <= cost < 2 ^ 53 -> reached limit l -> reached limit (snd (try_take now key cost l))
| re_read now key l : reached limit l -> reached limit (snd (current_tokens now key l))
| re_sweep now l : reached limit l -> reached limit (snd (sweep_expired now l)).

(** Between nothing and the capacity. *)
Definition holdable (limit : RateLimit) (t : double) : Prop := sound t /\ value t <= capacity limit * unit.

Record limiter_ok (limit : RateLimit) (l : RateLimiter) : Prop := {
  lo_limit : limit_ l = limit; lo_ttl : 0 <= ttl_ l;
  lo_buckets : forall k b, buckets_ l !! k = Some b -> holdable limit (tokens b)
}.

Lemma full_holdable limit : limit_ok limit -> holdable limit (f_of (capacity limit)).
Proof. intros (Hc & _). destruct (f_of_exact _ Hc) as [H E]. split; [done|]. by rewrite E. Qed.

Lemma elapsed_fine z : f_lt (f_of 0) (f_div (f_of z) (f_of 1000000000)) = true ->
  fine (f_div (f_of z) (f_of 1000000000)) /\ above_zero (f_div (f_of z) (f_of 1000000000)).
Proof.
  intros H. destruct (Z.lt_ge_cases z 0) as [Hz|Hz].
  - rewrite not_above_zero in H; [done|]. by eapply div_sign, negative_sign.
  - assert (fine (f_div (f_of z) (f_of 1000000000))) as Hf
      by (apply div_fine; [by apply f_of_fine|by vm_compute|by vm_compute]).
    split; [done|]. by destruct (f_div _ _) as [|[]| |[]], Hf.
Qed.

(** The clamp: no refill exceeds the capacity. *)
Lemma refill_holdable limit b now : limit_ok limit -> holdable limit (tokens b) -> holdable limit (tokens (refill_locked limit b now)).
Proof.
  intros Hl Hb. pose proof (full_holdable limit Hl) as [Hcap Ecap]. destruct Hl as (Hc & Hr & Hp). destruct (f_of_exact _ Hc) as [_ Vcap].
  unfold refill_locked. cbn [tokens]. destruct (f_lt (f_of 0) _) eqn:E; [|done]. apply elapsed_fine in E as [Hf Ha].
  pose proof (add_fine (tokens b) _ (proj1 Hb) (mul_fine _ _ Hf Ha Hr Hp)) as Ht.
  destruct (f_lt (f_of (capacity limit)) _) eqn:El; [by split|]. destruct Ht as [Ht|Ht].
  - split; [done|]. rewrite f_lt_value in El by done. rewrite <- Vcap. by apply Z.ltb_ge.
  - rewrite Ht in El. revert El Hcap. by destruct (f_of (capacity limit)).
Qed.

Lemma level_holdable limit l now key : limit_ok limit -> limiter_ok limit l -> holdable limit (level now key l).
Proof.
  intros Hl [<- _ Hb]. unfold level. destruct (buckets_ l !! key) as [b|] eqn:E; [|by apply full_holdable].
  destruct (fresh _ _ _); [|by apply full_holdable]. apply refill_holdable; [done|by eapply Hb].
Qed.

(** The whole tokens of a key. *)
Definition quota (now : Z) (key : list ascii) (l : RateLimiter) : Z := value (level now key l) / unit.

Lemma unit_pos : 0 < unit.
Proof. reflexivity. Qed.

Lemma quota_bounds limit l now key : limit_ok limit -> limiter_ok limit l -> 0 <= quota now key l <= capacity limit.
Proof.
  intros Hl Hk. pose proof (level_holdable limit l now key Hl Hk) as [_ H]. pose proof unit_pos. unfold quota. split.
  - apply Z.div_pos; [apply value_nonneg|done].
  - apply Z.div_le_upper_bound; [done|]. by rewrite Z.mul_comm.
Qed.

(** A key without a bucket has the full burst. *)
Lemma quota_full limit l now key : limit_ok limit -> limit_ l = limit -> buckets_ l !! key = None -> quota now key l = capacity limit.
Proof.
  intros [Hc _] <- E. unfold quota, level. rewrite E. destruct (f_of_exact _ Hc) as [_ ->]. by apply Z.div_mul.
Qed.

(** Granted exactly if covered, and the cost taken exactly. *)
Lemma granted_quota limit l now key cost : limit_ok limit -> limiter_ok limit l -> 0 <= cost < 2 ^ 53 ->
  negb (f_lt (level now key l) (f_of cost)) = (cost <=? quota now key l) /\
  (cost <= quota now key l -> holdable limit (f_sub (level now key l) (f_of cost)) /\
     value (f_sub (level now key l) (f_of cost)) / unit = quota now key l - cost).
Proof.
  intros Hl Hk Hc. pose proof (level_holdable limit l now key Hl Hk) as [Hs Hv]. destruct (f_of_exact cost Hc) as [Hsc Ec].
  pose proof unit_pos as Hu. assert (cost <= quota now key l <-> cost * unit <= value (level now key l)) as Hq.
  { unfold quota. pose proof (Z.div_mod (value (level now key l)) unit ltac:(lia)).
    pose proof (Z.mod_pos_bound (value (level now key l)) unit Hu). set (q := _ / _) in *. split; intros; nia. }
  split.
  - rewrite f_lt_value, Ec by done. apply eq_true_iff_eq. rewrite negb_true_iff, Z.ltb_ge, Z.leb_le. by rewrite Hq.
  - intros Hle%Hq. destruct (f_sub_exact (level now key l) cost) as [H1 H2]; [done|done| |].
    { split; [done|]. destruct Hl as [Hcap _]. eapply Z.le_lt_trans; [exact Hv|]. apply Z.mul_lt_mono_pos_r; [exact Hu|apply Hcap]. }
    split; [split; [done|]|]; rewrite H2.
    + assert (0 <= cost * unit) by (apply Z.mul_nonneg_nonneg; lia). lia.
    + unfold quota. replace (value (level now key l) - cost * unit) with (value (level now key l) + (- cost) * unit) by lia.
      rewrite Z.div_add by lia. lia.
Qed.

Lemma swept_ok limit now l : limiter_ok limit l -> limiter_ok limit (snd (sweep_locked now l)).
Proof.
  intros [H1 H2 H3]. split; [done|done|]. intros k b H. rewrite swept_lookup in H. destruct (buckets_ l !! k) as [b0|] eqn:E; [|done].
  cbn in H. destruct (fresh _ _ _); [|done]. injection H as <-. by eapply H3.
Qed.

Lemma reached_ok limit l : limit_ok limit -> reached limit l -> limiter_ok limit l.
Proof.
  intros Hl. induction 1 as [ttl|now key cost l Hc _ IH|now key l _ IH|now l _ IH]; [by split| | |by apply swept_ok].
  - pose proof (try_take_spec now key cost l) as H. cbv zeta in H. destruct H as (H1 & H2 & H3 & H4 & H5). destruct (granted_quota limit l now key cost Hl IH Hc) as [G1 G2].
    destruct IH as [I1 I2 I3]. split; [by rewrite H2|by rewrite H3|]. intros k b Hb. destruct (decide (k = key)) as [->|Hk].
    + rewrite H4 in Hb. injection Hb as <-. cbn [tokens]. rewrite H1, G1. destruct (Z.leb_spec cost (quota now key l)); [by apply G2|].
      by apply level_holdable.
    + rewrite (H5 k Hk) in Hb. destruct (buckets_ l !! k) as [b0|] eqn:E; [|done]. cbn in Hb. destruct (fresh _ _ _); [|done].
      injection Hb as <-. by eapply I3.
  - unfold current_tokens. destruct (buckets_ l !! key) as [b|] eqn:E; [|done]. destruct IH as [I1 I2 I3]. split; [done|done|].
    cbn [buckets_ with_buckets snd]. intros k b' Hb. destruct (decide (key = k)) as [<-|Hk].
    + rewrite lookup_insert_eq in Hb. injection Hb as <-. rewrite I1. apply refill_holdable; [done|by eapply I3].
    + rewrite lookup_insert_ne in Hb by done. by eapply I3.
Qed.

(** A request leaves the other keys alone. *)
Lemma try_take_others now k k' cost l : k' <> k -> level now k' (snd (try_take now k cost l)) = level now k' l.
Proof.
  intros Hk. pose proof (try_take_spec now k cost l) as H. cbv zeta in H. destruct H as (_ & H2 & H3 & _ & H5).
  unfold level. rewrite H2, H3, (H5 k' Hk). destruct (buckets_ l !! k') as [b|]; [|done]. cbn.
  destruct (fresh (ttl_ l) now b) eqn:E; [|done]. by rewrite E.
Qed.

Lemma try_take_limits now k cost l : limit_ (snd (try_take now k cost l)) = limit_ l /\ ttl_ (snd (try_take now k cost l)) = ttl_ l.
Proof. destruct (try_take_spec now k cost l) as (_ & H2 & H3 & _). by split. Qed.

(** ** Requests within an instant *)

(** Requests for one token each, at the same time. *)
Fixpoint serve (now : Z) (keys : list (list ascii)) (l : RateLimiter) : list bool * RateLimiter :=
  match keys with
  | [] => ([], l)
  | k :: keys =>
      let '(granted, l) := try_take now k 1 l in
      let '(rest, l) := serve now keys l in (granted :: rest, l)
  end.

(** How often [k] has been asked for. *)
Definition asked (k : list ascii) (keys : list (list ascii)) : nat := length (List.filter (fun k' => bool_decide (k' = k)) keys).

(** Every key is granted its first [cap] requests. *)
Fixpoint first_come (cap : list ascii -> Z) (earlier keys : list (list ascii)) : list bool :=
  match keys with
  | [] => []
  | k :: keys => (Z.of_nat (asked k earlier) <? cap k) :: first_come cap (k :: earlier) keys
  end.

(** What is left of [cap] tokens after [n] requests. *)
Definition left_of (cap : Z) (n : nat) : Z := Z.max 0 (cap - Z.of_nat n).

Lemma take_quota limit now k l : limit_ok limit -> limiter_ok limit l ->
  let r := try_take now k 1 l in
  fst r = (1 <=? quota now k l) /\ quota now k (snd r) = Z.max 0 (quota now k l - 1) /\
  forall k', k' <> k -> quota now k' (snd r) = quota now k' l.
Proof.
  intros Hl Hk. pose proof (try_take_spec now k 1 l) as H. cbv zeta in H |- *. destruct H as (H1 & H2 & H3 & H4 & _).
  destruct (granted_quota limit l now k 1 Hl Hk ltac:(lia)) as [G1 G2]. pose proof (quota_bounds limit l now k Hl Hk).
  pose proof (lo_ttl _ _ Hk) as Ht.
  assert (fst (try_take now k 1 l) = (1 <=? quota now k l)) as Hf by by rewrite H1, G1.
  split; [done|]. split; [|intros k' Hne; unfold quota; by rewrite try_take_others].
  unfold quota at 1, level. rewrite H2, H3, H4, Hf. unfold fresh. cbn [last_touched]. rewrite Z.sub_diag, (proj2 (Z.ltb_ge _ _)) by done.
  cbn [negb]. rewrite no_time_no_refill by done. cbn [tokens]. destruct (Z.leb_spec 1 (quota now k l)) as [Hq|Hq].
  - rewrite (proj2 (G2 Hq)). lia.
  - change (quota now k l = Z.max 0 (quota now k l - 1)). lia.
Qed.

Lemma asked_cons k k' earlier : asked k (k' :: earlier) = ((if decide (k' = k) then 1 else 0) + asked k earlier)%nat.
Proof. unfold asked. cbn. by case_bool_decide; destruct (decide _). Qed.

Lemma serve_reached limit now keys : forall l, reached limit l -> reached limit (snd (serve now keys l)).
Proof.
  induction keys as [|k keys IH]; intros l Hr; [done|]. cbn [serve].
  pose proof (re_take limit now k 1 l ltac:(lia) Hr) as H. destruct (try_take now k 1 l) as [g l']. cbn [snd] in H.
  specialize (IH l' H). by destruct (serve now keys l').
Qed.

Lemma serve_first_come limit now cap keys : limit_ok limit -> forall earlier l, reached limit l ->
  (forall k, quota now k l = left_of (cap k) (asked k earlier)) ->
  fst (serve now keys l) = first_come cap earlier keys.
Proof.
  intros Hl. induction keys as [|k keys IH]; intros earlier l Hr Hq; [done|]. cbn [serve first_come].
  destruct (take_quota limit now k l Hl (reached_ok limit l Hl Hr)) as (H1 & H2 & H3).
  pose proof (re_take limit now k 1 l ltac:(lia) Hr) as Hr'.
  destruct (try_take now k 1 l) as [g l']. cbn [fst snd] in *. specialize (IH (k :: earlier) l' Hr').
  destruct (serve now keys l') as [rest l'']. cbn [fst] in *. f_equal.
  - rewrite H1, Hq. unfold left_of. destruct (Z.leb_spec 1 (Z.max 0 (cap k - Z.of_nat (asked k earlier)))), (Z.ltb_spec (Z.of_nat (asked k earlier)) (cap k)); (done || lia).
  - apply IH. intros k'. rewrite asked_cons. destruct (decide (k = k')) as [<-|Hne].
    + rewrite H2, Hq. unfold left_of. lia.
    + rewrite H3 by congruence. apply Hq.
Qed.
