(* ===== verification/AuthHandler.v ===== *)
(** * The routes of authentication: src/src/auth/auth_handler.cpp

    Each handler is the function of the same name: from the text of a request and the
    address it comes from to the one frame it sends, [None] where the JSON library would
    throw instead; to the limiters, and, where mail is sent, the mails. [auth_route] finds the
    handler of a type. [Readings] holds what a handler reads of the clocks; random bytes are
    arguments. Every limiter is a bucket map of [RateLimiter]. The second part shows what a
    login does, how many guesses the limiters let through, and that every route keeps the
    accounts in order. *)
From stdpp Require Import gmap strings.
From S2P Require Import Prelude Types Fen Notation Bytes Base64 Credentials Token OAuth Storage StorageSpec AccountStore AccountSpec Sessions Accounts EmailRecovery AccountSteps SessionSpec LoginSpec SealedEnvelope KeyStore Json SealedRegistry RateLimiter.
Open Scope Z_scope.

(** ** Limiters *)

Inductive Surface := EmailIp | EmailAddress | LoginIp | LoginAccount | RegisterIp | GoogleIp | SealIp.

#[export] Instance Surface_eq : EqDecision Surface.
Proof. solve_decision. Defined.

#[export] Instance EmailStatus_eq : EqDecision EmailStatus.
Proof. solve_decision. Defined.

Definition limit_of (s : Surface) : RateLimit :=
  match s with
  | EmailIp => per 5 60 | EmailAddress => per 3 3600
  | LoginIp => rate_presets.login_per_ip | LoginAccount => rate_presets.login_per_account
  | RegisterIp => rate_presets.register_per_ip | GoogleIp => rate_presets.google_auth_per_ip
  | SealIp => rate_presets.seal_request_per_ip
  end.

Definition Limiters : Type := Surface -> RateLimiter.
Definition new_limiters : Limiters := fun s => new_limiter (limit_of s).

Definition take (s : Surface) (now : Z) (k : str) (l : Limiters) : bool * Limiters :=
  let '(allowed, r) := try_take now k 1 (l s) in
  (allowed, fun s' => if decide (s' = s) then r else l s').

(** The clock of the limiters at the first and at the second one asked, and the wall clock
    at its first and second reading. *)
Record Readings := mkReadings { tick : Z; tick2 : Z; now_seconds : Z; now_seconds2 : Z }.

Section handlers.
Context `{S : OpenSSL} `{JC : ClaimsJson} `{J : Json}.

(** ** Frames *)

(** [extra] is an object, in the order of its keys. *)
Fixpoint members_text (extra : list (str * json)) : option str :=
  match extra with
  | [] => Some []
  | (k, v) :: extra =>
      k ← json_dump (of_string k); v ← json_dump v; rest ← members_text extra;
      Some (lit "," ++ k ++ lit ":" ++ v ++ rest)
  end.

Definition serialize_type_first (type : str) (extra : list (str * json)) : option str :=
  type ← json_dump (of_string type); rest ← members_text extra;
  Some (lit "{" ++ quoted TYPE ++ lit ":" ++ type ++ rest ++ lit "}").

Definition auth_error (code : str) : option str := serialize_type_first (lit "auth_error") [(lit "code", of_string code)].

Definition build_auth_ok (name : str) (elo : Z) (t : SessionTokens) : option str :=
  serialize_type_first (lit "auth_ok")
    [(lit "access_expires_in", of_int (access_expires_in t)); (lit "access_token", of_string (access_token t));
     (lit "elo", of_int elo); (lit "refresh_token", of_string (refresh_token t)); (lit "username", of_string name)].

(** [parse_or_fail] *)
Definition parse_request (message : str) : option json :=
  j ← json_parse message; _ ← get_object j; Some j.

(** ** Handlers *)

Context (lower : str -> str) (key : list Z) (argon2id : str -> list Z -> Argon2Params -> nat -> option (list Z)) (dummy : str).
Context (sha256 : list Z -> list Z) (public_url : str).

Definition Response : Type := option str * Limiters.
Definition respond {A} (frame : option str) (a : A) : IO AccountTables (option str * A) := mret (frame, a).

Definition INVALID_REQUEST : str := lit "invalid_request".
Definition RATE_LIMITED : str := lit "rate_limited".
Definition INVALID_CREDENTIALS : str := lit "invalid_credentials".
Definition INTERNAL : str := lit "internal".
Definition UNAUTHORIZED : str := lit "unauthorized".
Definition EMAIL_UNAVAILABLE : str := lit "email_unavailable".


Definition handle_login (client_ip message : str) (c : Readings) (salt random uuid : list Z) (l : Limiters) : IO AccountTables Response :=
  let '(allowed, l) := take LoginIp (tick c) client_ip l in
  if negb allowed then respond (auth_error RATE_LIMITED) l else
  match parse_request message with
  | None => respond (auth_error INVALID_REQUEST) l
  | Some j =>
      match string_field (lit "username") j, string_field (lit "password") j with
      | Some name, Some password =>
          let '(allowed, l) := take LoginAccount (tick2 c) (to_lower_ascii name) l in
          if negb allowed then respond (auth_error INVALID_CREDENTIALS) l else
          r ← authenticate_password lower argon2id name password dummy salt;
          match r : option LoginResult with
          | None => respond (auth_error INVALID_CREDENTIALS) l
          | Some r =>
              tokens ← issue_session key (l_player r) (l_username r) (l_epoch r) (now_seconds c) random uuid;
              respond (if negb (tokens_ok tokens) then auth_error INTERNAL else build_auth_ok (l_username r) (l_elo r) tokens) l
          end
      | _, _ => respond (auth_error INVALID_REQUEST) l
      end
  end.

(** The status of a failed e-mail operation, as each handler reports it. *)
Definition register_code (s : EmailStatus) : str :=
  match s with
  | InvalidEmail => lit "invalid_email" | InvalidUsername => lit "invalid_username" | NameTaken => lit "username_taken"
  | EmailTaken => lit "email_taken" | RateLimited => RATE_LIMITED | WeakPassword => lit "weak_password"
  | Unavailable => EMAIL_UNAVAILABLE | _ => INTERNAL
  end.
Definition email_code (s : EmailStatus) : str :=
  match s with
  | InvalidEmail => lit "invalid_email" | WeakPassword => lit "weak_password" | InvalidToken => lit "invalid_email_token"
  | Unauthorized => INVALID_CREDENTIALS | Conflict => lit "email_conflict" | Unavailable => EMAIL_UNAVAILABLE
  | _ => INTERNAL
  end.

(** [email] says whether e-mail is configured ([Some]) and its sender enabled. *)
Definition mail_enabled (email : option bool) : bool := bool_decide (email = Some true).

(** A limiter per address, asked only for well-formed ones. *)
Definition take_address (address : str) (now : Z) (l : Limiters) : bool * Limiters :=
  if bool_decide (address = []) then (true, l) else take EmailAddress now address l.

Definition email_sent : option str := serialize_type_first (lit "email_sent") [].

Definition handle_register (email : option bool) (client_ip message : str) (c : Readings) (random : list Z) (sent : bool)
    (l : Limiters) : IO AccountTables (option str * list Mail * Limiters) :=
  let '(allowed, l) := take RegisterIp (tick c) client_ip l in
  if negb allowed then mret (auth_error RATE_LIMITED, [], l) else
  match parse_request message with
  | None => mret (auth_error INVALID_REQUEST, [], l)
  | Some j =>
      match string_field (lit "username") j, string_field (lit "email") j with
      | Some name, Some address =>
          if negb (mail_enabled email) then mret (auth_error EMAIL_UNAVAILABLE, [], l) else
          let '(allowed, l) := take_address (canonical_email address) (tick2 c) l in
          if negb allowed then mret (auth_error RATE_LIMITED, [], l) else
          r ← register_user lower sha256 true public_url name address (now_seconds c) random sent;
          mret (if bool_decide (fst r = EmailOk) then email_sent else auth_error (register_code (fst r)), snd r, l)
      | _, _ => mret (auth_error INVALID_REQUEST, [], l)
      end
  end.

(** The last lines of [handle_email]. *)
Definition email_reply (type : str) (a : Answer) : option str :=
  if bool_decide (fst a = EmailOk) then
    serialize_type_first
      (if bool_decide (type = lit "reset_password") || bool_decide (type = lit "verify_email") then lit "auth_action_ok" else lit "email_sent")
      (if bool_decide (snd a = []) then [] else [(lit "username", of_string (snd a))])
  else auth_error (email_code (fst a)).

Definition handle_email (email : option bool) (client_ip message type : str) (c : Readings) (salt random : list Z) (sent : bool)
    (l : Limiters) : IO AccountTables (option str * list Mail * Limiters) :=
  let '(allowed, l) := take EmailIp (tick c) client_ip l in
  if negb allowed then mret (auth_error RATE_LIMITED, [], l) else
  match parse_request message with
  | None => mret (auth_error INVALID_REQUEST, [], l)
  | Some j =>
      if negb (mail_enabled email) then mret (auth_error EMAIL_UNAVAILABLE, [], l) else
      let invalid := mret (auth_error INVALID_REQUEST, [], l) in
      if bool_decide (type = lit "reset_password") then
        match string_field (lit "email_token") j, string_field (lit "password") j with
        | Some token, Some password =>
            a ← reset_password lower sha256 argon2id token password (now_seconds c) salt;
            mret (email_reply type a, [], l)
        | _, _ => invalid
        end
      else if bool_decide (type = lit "verify_email") then
        match string_field (lit "email_token") j with
        | Some token =>
            match field (lit "password") j, string_field (lit "password") j with
            | Some _, None => invalid
            | _, password =>
                a ← confirm_email lower sha256 argon2id token (now_seconds c) (default [] password) salt;
                mret (email_reply type a, [], l)
            end
        | None => invalid
        end
      else
        match string_field (lit "email") j with
        | None => invalid
        | Some raw =>
            let address := canonical_email raw in
            if bool_decide (type = lit "set_recovery_email") then
              match string_field (lit "access_token") j, string_field (lit "password") j with
              | Some access, Some password =>
                  g ← authorize_access_token key access (now_seconds c);
                  match g : GateOutcome * option AccessClaims with
                  | (GateOk, Some claims) =>
                      let '(allowed, l) := take_address address (tick2 c) l in
                      if negb allowed then mret (email_sent, [], l) else
                      r ← request_recovery_email lower sha256 argon2id true public_url (player_id claims) raw password
                            (now_seconds2 c) random sent;
                      mret (email_reply type (fst r, []), snd r, l)
                  | _ => mret (auth_error UNAUTHORIZED, [], l)
                  end
              | _, _ => invalid
              end
            else
              let '(allowed, l) := take_address address (tick2 c) l in
              if negb allowed then mret (email_sent, [], l) else
              r ← request_reset lower sha256 true public_url raw (now_seconds c) random sent;
              mret (email_reply type (fst r, []), snd r, l)
        end
  end.

Definition handle_refresh (message : str) (c : Readings) (random : list Z) : IO AccountTables (option str) :=
  match parse_request message ≫= string_field (lit "refresh_token") with
  | None => mret (auth_error INVALID_REQUEST)
  | Some token =>
      r ← refresh_session key token (now_seconds c) random;
      let '(outcome, tokens) := r : Refreshed in
      if negb (bool_decide (outcome = RefreshOk)) || negb (tokens_ok tokens) then
        mret (auth_error (if bool_decide (outcome = RefreshDatabaseError) then INTERNAL else lit "invalid_refresh"))
      else
        match verify_access key (access_token tokens) (now_seconds2 c) with
        | None => mret (auth_error INTERNAL)
        | Some claims =>
            qr ← Storage.exec (select (find_player (player_id claims)));
            let elo := match qr : string + list PlayerRow with inr (p :: _) => pl_elo p | _ => 0 end in
            mret (build_auth_ok (username claims) elo tokens)
        end
  end.

Definition handle_logout (message : str) : IO AccountTables (option str) :=
  match parse_request message ≫= string_field (lit "refresh_token") with
  | None => mret (auth_error INVALID_REQUEST)
  | Some token => _ ← logout token; mret (serialize_type_first (lit "logout_ok") [])
  end.

Definition handle_logout_all (message : str) (c : Readings) : IO AccountTables (option str) :=
  match parse_request message ≫= string_field (lit "access_token") with
  | None => mret (auth_error INVALID_REQUEST)
  | Some access =>
      g ← authorize_access_token key access (now_seconds c);
      match g : GateOutcome * option AccessClaims with
      | (GateOk, Some claims) =>
          done ← logout_all lower (player_id claims);
          mret (if (done : bool) then serialize_type_first (lit "logout_ok") [] else auth_error INTERNAL)
      | _ => mret (auth_error UNAUTHORIZED)
      end
  end.

(** [check] is the verifier: the identity in a token, [None] if it is not accepted. *)
Definition handle_google_auth (check : str -> option SupabaseIdentity) (client_ip message : str) (c : Readings)
    (suffixes : list (Z * Z)) (random uuid : list Z) (l : Limiters) : IO AccountTables Response :=
  let '(allowed, l) := take GoogleIp (tick c) client_ip l in
  if negb allowed then respond (auth_error RATE_LIMITED) l else
  match parse_request message ≫= string_field (lit "supabase_jwt") with
  | None => respond (auth_error INVALID_REQUEST) l
  | Some jwt =>
      r ← google_sign_in lower (check jwt) suffixes;
      match g_status r with
      | GoogleInvalidToken => respond (auth_error (lit "invalid_google")) l
      | EmailCollision => respond (auth_error (lit "email_collision")) l
      | GoogleDatabaseError | GoogleInternalError => respond (auth_error INTERNAL) l
      | GoogleOk =>
          tokens ← issue_session key (g_player r) (g_username r) (g_epoch r) (now_seconds2 c) random uuid;
          respond (if negb (tokens_ok tokens) then auth_error INTERNAL else build_auth_ok (g_username r) (g_elo r) tokens) l
      end
  end.

Definition handle_link_google (check : str -> option SupabaseIdentity) (message : str) (c : Readings) : IO AccountTables (option str) :=
  match parse_request message with
  | None => mret (auth_error INVALID_REQUEST)
  | Some j =>
      match string_field (lit "access_token") j, string_field (lit "supabase_jwt") j with
      | Some access, Some jwt =>
          g ← authorize_access_token key access (now_seconds c);
          match g : GateOutcome * option AccessClaims with
          | (GateOk, Some claims) =>
              ls ← link_google lower (check jwt) (player_id claims);
              mret (match ls with
                    | LinkInvalidToken => auth_error (lit "invalid_google")
                    | AlreadyLinkedElsewhere => auth_error (lit "already_linked_elsewhere")
                    | AlreadyHasGoogle => auth_error (lit "already_has_google")
                    | LinkDatabaseError => auth_error INTERNAL
                    | LinkOk => serialize_type_first (lit "link_ok") []
                    end)
          | _ => mret (auth_error UNAUTHORIZED)
          end
      | _, _ => mret (auth_error INVALID_REQUEST)
      end
  end.

Definition handle_unlink_google (message : str) (c : Readings) : IO AccountTables (option str) :=
  match parse_request message ≫= string_field (lit "access_token") with
  | None => mret (auth_error INVALID_REQUEST)
  | Some access =>
      g ← authorize_access_token key access (now_seconds c);
      match g : GateOutcome * option AccessClaims with
      | (GateOk, Some claims) =>
          us ← unlink_google lower (player_id claims);
          mret (match us with
                | LastLoginMethod => auth_error (lit "last_login_method")
                | NotLinked => auth_error (lit "not_linked")
                | UnlinkDatabaseError => auth_error INTERNAL
                | UnlinkOk => serialize_type_first (lit "link_ok") []
                end)
      | _ => mret (auth_error UNAUTHORIZED)
      end
  end.

Definition handle_seal_request (client_ip : str) (c : Readings) (now later : Z) (visit : list (list Z * Entry SealKeyMaterial))
    (key_id : list Z) (kem : option KemKey) (ecc : option EccKey) (seed : Z) (r : SealedRegistry) (l : Limiters)
    : option str * SealedRegistry * Limiters :=
  let '(allowed, l) := take SealIp (tick c) client_ip l in
  if negb allowed then (auth_error RATE_LIMITED, r, l) else
  let '(reply, r) := SealedRegistry.handle_seal_request now later visit client_ip key_id kem ecc seed r in
  (if bool_decide (reply = []) then auth_error RATE_LIMITED else Some reply, r, l).
(** What a request finds in its environment: whether e-mail is configured and its sender
    enabled, the Google verifier, random bytes, and whether the mail goes out. *)
Record Surroundings := mkSurroundings {
  mailer : option bool; google : option (str -> option SupabaseIdentity);
  salt : list Z; random : list Z; uuid : list Z; suffixes : list (Z * Z); sent : bool
}.

Definition EMAIL_ROUTES : list str := map lit ["request_password_reset"; "reset_password"; "verify_email"; "set_recovery_email"]%string.

(** The handlers on the accounts, as [AuthHandler::register_handlers] installs them: the frame
    sent, and the limiters. [None] for a type it installs no handler for. *)
Definition auth_route (type client_ip message : str) (c : Readings) (e : Surroundings) (l : Limiters) : option (IO AccountTables Response) :=
  let unlimited (m : IO AccountTables (option str)) := Some (f ← m; mret (f, l)) in
  let mailing (m : IO AccountTables (option str * list Mail * Limiters)) := Some (a ← m; mret (fst (fst a), snd a)) in
  if bool_decide (type = lit "register") then mailing (handle_register (mailer e) client_ip message c (random e) (sent e) l) else
  if bool_decide (type = lit "login") then Some (handle_login client_ip message c (salt e) (random e) (uuid e) l) else
  if bool_decide (type = lit "refresh") then unlimited (handle_refresh message c (random e)) else
  if bool_decide (type = lit "logout") then unlimited (handle_logout message) else
  if bool_decide (type = lit "logout_all") then unlimited (handle_logout_all message c) else
  if bool_decide (type ∈ EMAIL_ROUTES) then mailing (handle_email (mailer e) client_ip message type c (salt e) (random e) (sent e) l) else
  match google e with
  | None => None
  | Some check =>
      if bool_decide (type = lit "google_auth") then
        Some (handle_google_auth check client_ip message c (suffixes e) (random e) (uuid e) l)
      else if bool_decide (type = lit "link_google") then unlimited (handle_link_google check message c)
      else if bool_decide (type = lit "unlink_google") then unlimited (handle_unlink_google message c) else None
  end.
End handlers.

(** ** Logins, and what the limiters let through *)

Inductive Verdict := Stopped (code : str) | Guess (name password : str).

(** What becomes of a login request before the tables are asked. *)
Definition login_guard `{J : Json} (client_ip message : str) (c : Readings) (l : Limiters) : Verdict * Limiters :=
  let '(allowed, l) := take LoginIp (tick c) client_ip l in
  if negb allowed then (Stopped RATE_LIMITED, l) else
  match parse_request message with
  | None => (Stopped INVALID_REQUEST, l)
  | Some j =>
      match string_field (lit "username") j, string_field (lit "password") j with
      | Some name, Some password =>
          let '(allowed, l) := take LoginAccount (tick2 c) (to_lower_ascii name) l in
          (if negb allowed then Stopped INVALID_CREDENTIALS else Guess name password, l)
      | _, _ => (Stopped INVALID_REQUEST, l)
      end
  end.

(** The address and the account of every guess among some requests at one instant. *)
Fixpoint guesses `{J : Json} (now : Z) (requests : list (str * str)) (l : Limiters) : list (str * str) :=
  match requests with
  | [] => []
  | (client_ip, message) :: requests =>
      let '(v, l) := login_guard client_ip message (mkReadings now now 0 0) l in
      match v with
      | Guess name _ => (client_ip, to_lower_ascii name) :: guesses now requests l
      | Stopped _ => guesses now requests l
      end
  end.

Lemma take_same s now k l : fst (take s now k l) = fst (try_take now k 1 (l s)) /\ snd (take s now k l) s = snd (try_take now k 1 (l s)).
Proof. unfold take. destruct (try_take now k 1 (l s)). cbn. by rewrite decide_True. Qed.

Lemma take_other s s' now k l : s' <> s -> snd (take s now k l) s' = l s'.
Proof. intros H. unfold take. destruct (try_take now k 1 (l s)). cbn. by rewrite decide_False. Qed.

(** Every limiter is as calls on it have left it, at any times. *)
Definition limiters_ok (l : Limiters) : Prop := forall s, reached (limit_of s) (l s).

Lemma limit_of_ok s : limit_ok (limit_of s).
Proof. destruct s; (split; [by split; vm_compute|split; by vm_compute]). Qed.

Lemma new_limiters_ok : limiters_ok new_limiters.
Proof. intros s. by apply re_new. Qed.

Lemma take_limiters s now k l : limiters_ok l -> limiters_ok (snd (take s now k l)).
Proof.
  intros Hl s'. destruct (decide (s' = s)) as [->|Hs]; [|by rewrite take_other].
  rewrite (proj2 (take_same s now k l)). by apply re_take.
Qed.

(** How many of the guesses have [k] for [f]. *)
Definition counted {A} (f : A -> str) (k : str) (gs : list A) : Z := Z.of_nat (length (List.filter (fun g => bool_decide (f g = k)) gs)).

Lemma counted_cons {A} (f : A -> str) k g gs : counted f k (g :: gs) = (if decide (f g = k) then 1 else 0) + counted f k gs.
Proof. unfold counted. cbn. case_bool_decide; destruct (decide _); cbn [length]; (done || lia). Qed.

(** [k]'s bucket at [s] has at most [n] whole tokens. *)
Definition holds (now : Z) (s : Surface) (k : str) (n : Z) (l : Limiters) : Prop :=
  limiters_ok l /\ quota now k (l s) <= n.

Lemma holds_nonneg now s k n l : holds now s k n l -> 0 <= n.
Proof.
  intros [Hl Hn]. pose proof (quota_bounds _ _ now k (limit_of_ok s) (reached_ok _ _ (limit_of_ok s) (Hl s))). lia.
Qed.

Lemma holds_take now s k k' n l : holds now s k n l ->
  let r := take s now k' l in
  exists n', holds now s k n' (snd r) /\ n' <= n /\ (k' = k -> fst r = true -> n' <= n - 1).
Proof.
  intros [Hl Hn] r. destruct (take_same s now k' l) as [E1 E2].
  destruct (take_quota _ now k' (l s) (limit_of_ok s) (reached_ok _ _ (limit_of_ok s) (Hl s))) as (H1 & H2 & H3).
  pose proof (quota_bounds _ _ now k (limit_of_ok s) (reached_ok _ _ (limit_of_ok s) (Hl s))) as Hq.
  exists (quota now k (snd r s)). split; [split; [by apply take_limiters|done]|]. unfold r. rewrite E2, E1, H1.
  destruct (decide (k = k')) as [<-|Hk]; [rewrite H2|rewrite H3 by done; split; [done|congruence]].
  split; [lia|]. intros _ H%Z.leb_le. lia.
Qed.

Lemma holds_other now s s' k k' n l : s <> s' -> holds now s k n l -> holds now s k n (snd (take s' now k' l)).
Proof. intros Hs [Hl Hn]. split; [by apply take_limiters|]. by rewrite take_other. Qed.

Lemma holds_guard `{J : Json} now s k n ip message l :
  s = LoginIp \/ s = LoginAccount -> holds now s k n l ->
  let r := login_guard ip message (mkReadings now now 0 0) l in
  exists n', holds now s k n' (snd r) /\ n' <= n /\
    match fst r with Guess name _ => (if decide (s = LoginIp) then ip else to_lower_ascii name) = k -> n' <= n - 1 | Stopped _ => True end.
Proof.
  intros Hs Hn r. unfold r, login_guard. cbn [tick tick2].
  assert (exists n1, holds now s k n1 (snd (take LoginIp now ip l)) /\ n1 <= n /\
    (s = LoginIp -> ip = k -> fst (take LoginIp now ip l) = true -> n1 <= n - 1)) as (n1 & H1 & Hle & Hip).
  { destruct Hs as [-> | ->].
    - destruct (holds_take now LoginIp k ip n l Hn) as (n' & ? & ? & ?). exists n'. auto.
    - exists n. split; [by apply holds_other|]. split; [lia|done]. }
  destruct (take LoginIp now ip l) as [a l1]. cbn [fst snd] in *. destruct a; cbn [negb]; [|by exists n1].
  destruct (parse_request message) as [j|]; [|by exists n1].
  destruct (string_field (lit "username") j) as [name|]; [|by exists n1].
  destruct (string_field (lit "password") j) as [password|]; [|by exists n1].
  assert (exists n2, holds now s k n2 (snd (take LoginAccount now (to_lower_ascii name) l1)) /\ n2 <= n1 /\
    (s = LoginAccount -> to_lower_ascii name = k -> fst (take LoginAccount now (to_lower_ascii name) l1) = true -> n2 <= n1 - 1))
    as (n2 & H2 & Hle2 & Hname).
  { destruct Hs as [-> | ->].
    - exists n1. split; [by apply holds_other|]. split; [lia|done].
    - destruct (holds_take now LoginAccount k (to_lower_ascii name) n1 l1 H1) as (n' & ? & ? & ?). exists n'. auto. }
  destruct (take LoginAccount now (to_lower_ascii name) l1) as [b l2]. cbn [fst snd] in *.
  exists n2. split; [done|]. split; [lia|]. destruct b; cbn [negb fst snd]; [|done].
  destruct Hs as [-> | ->]; cbn [decide]; intros E.
  - specialize (Hip eq_refl E eq_refl). lia.
  - specialize (Hname eq_refl E eq_refl). lia.
Qed.

Lemma guesses_bounded `{J : Json} now s k requests : s = LoginIp \/ s = LoginAccount -> forall n l, holds now s k n l ->
  counted (fun g => if decide (s = LoginIp) then fst g else snd g) k (guesses now requests l) <= n.
Proof.
  intros Hs. induction requests as [|[ip message] requests IH]; intros n l Hn.
  - apply holds_nonneg in Hn. unfold counted. cbn. lia.
  - cbn [guesses]. destruct (holds_guard now s k n ip message l Hs Hn) as (n' & H & Hle & Hg).
    destruct (login_guard ip message _ l) as [[code|name password] l']; cbn [fst snd] in *; [specialize (IH n' l' H); lia|].
    rewrite counted_cons. specialize (IH n' l' H). cbn [fst snd]. destruct (decide (s = LoginIp)); destruct (decide (_ = k)); subst; try lia;
      specialize (Hg eq_refl); lia.
Qed.

(** At most as many guesses as a full bucket holds. *)
Lemma guesses_capped `{J : Json} now s k requests l : s = LoginIp \/ s = LoginAccount -> limiters_ok l ->
  counted (fun g => if decide (s = LoginIp) then fst g else snd g) k (guesses now requests l) <= capacity (limit_of s).
Proof.
  intros Hs Hl. apply guesses_bounded; [done|]. split; [done|].
  apply (quota_bounds _ _ now k (limit_of_ok s) (reached_ok _ _ (limit_of_ok s) (Hl s))).
Qed.

Section login.
Context `{S : OpenSSL} `{JC : ClaimsJson} `{J : Json}.
Context (lower : str -> str) (key : list Z) (argon2id : str -> list Z -> Argon2Params -> nat -> option (list Z)) (dummy : str).
Notation on_login := (handle_login lower key argon2id dummy).

(** A request the guard stops asks nothing of the tables. *)
Lemma login_stopped client_ip message c salt random uuid l code l' :
  login_guard client_ip message c l = (Stopped code, l') ->
  on_login client_ip message c salt random uuid l = mret (auth_error code, l').
Proof.
  unfold login_guard, handle_login, respond. destruct (take LoginIp _ _ l) as [[] l1]; cbn [negb]; [|by intros [= <- <-]].
  destruct (parse_request message) as [j|]; [|by intros [= <- <-]].
  destruct (string_field (lit "username") j) as [name|]; [|by intros [= <- <-]].
  destruct (string_field (lit "password") j) as [password|]; [|by intros [= <- <-]].
  destruct (take LoginAccount _ _ l1) as [[] l2]; cbn [negb]; [done|by intros [= <- <-]].
Qed.

Lemma login_guessed client_ip message c salt random uuid l name password l' :
  login_guard client_ip message c l = (Guess name password, l') ->
  on_login client_ip message c salt random uuid l =
  (r ← authenticate_password lower argon2id name password dummy salt;
   match r : option LoginResult with
   | None => respond (auth_error INVALID_CREDENTIALS) l'
   | Some r =>
       tokens ← issue_session key (l_player r) (l_username r) (l_epoch r) (now_seconds c) random uuid;
       respond (if negb (tokens_ok tokens) then auth_error INTERNAL else build_auth_ok (l_username r) (l_elo r) tokens) l'
   end).
Proof.
  unfold login_guard, handle_login. destruct (take LoginIp _ _ l) as [[] l1]; cbn [negb]; [|done].
  destruct (parse_request message) as [j|]; [|done].
  destruct (string_field (lit "username") j) as [n|]; [|done].
  destruct (string_field (lit "password") j) as [p|]; [|done].
  destruct (take LoginAccount _ _ l1) as [[] l2]; cbn [negb]; [|done]. by intros [= <- <- <-].
Qed.

(** Programs that leave the sessions alone. *)
Definition keeps_logins {A} (m : IO AccountTables A) : Prop :=
  forall db, wp false None m (fun _ db' => logins db' = logins db) db.

Lemma keeps_bind {A B} (m : IO AccountTables A) (k : A -> IO AccountTables B) :
  keeps_logins m -> (forall a, keeps_logins (k a)) -> keeps_logins (m ≫= k).
Proof.
  intros Hm Hk db. apply wp_bind. eapply wp_mono; [apply Hm|]. intros a db1 <-. eapply wp_mono; [apply Hk|]. done.
Qed.

Lemma keeps_update id hit set : keeps_logins (exec_checked (fun now => update_player lower id hit (set now))).
Proof.
  intros db. apply wp_exec_checked; [done|done|]. intros now db' n E.
  unfold update_player in E. destruct (List.filter _ _); [by injection E as <- <-|].
  destruct (player_violation _ _ _); [done|]. by injection E as <- <-.
Qed.

Lemma keeps_ret {A} (a : A) : keeps_logins (mret a).
Proof. intros db. by apply wp_ret. Qed.

Lemma authenticate_keeps name password salt : keeps_logins (authenticate_password lower argon2id name password dummy salt).
Proof.
  unfold authenticate_password, touch_last_login. destruct (negb _); [apply keeps_ret|]. destruct (negb _); [apply keeps_ret|].
  apply keeps_bind; [by intros db; apply wp_select|]. intros a.
  destruct (match a with inr (p :: _) => _ | _ => None end) as [[p phc]|]; [|apply keeps_ret].
  destruct (negb _); [apply keeps_ret|].
  apply keeps_bind; [apply keeps_bind; [apply keeps_update|intros b; apply keeps_ret]|]. intros [].
  destruct (bool_decide _); [apply keeps_ret|].
  apply keeps_bind; [apply (keeps_update _ _ (fun _ => _))|intros b; apply keeps_ret].
Qed.

Lemma login_of_in db name password p : login_of argon2id db name password = Some p -> In p (people db).
Proof.
  unfold login_of. destruct (_ || _); [done|]. destruct (find_username_ci _ db) as [|q rest] eqn:E; [done|].
  destruct (pl_password q) as [phc|]; [|done]. destruct (verify_password _ _ _); [|done]. intros [= <-].
  unfold find_username_ci in E. by apply first_of_filter in E as [H _].
Qed.

(** The tokens a login is answered with. *)
Definition tokens_for (p : PlayerRow) (now : Z) (random : list Z) : SessionTokens :=
  build_pair key (pl_id p) (pl_username p) (pl_epoch p) now random.

(** What keeps the tokens from being issued when no statement fails. *)
Definition unlucky (t : SessionTokens) (db : AccountTables) : Prop :=
  half_empty t = true \/ exists s, In s (logins db) /\ se_hash s = refresh_token_hash (refresh_token t).

Lemma issue_contract p now random uuid calm db :
  known (people db) (pl_id p) ->
  wp calm None (issue_session key (pl_id p) (pl_username p) (pl_epoch p) now random uuid)
    (fun t db' =>
      t = succeed (tokens_for p now random) /\
      (exists s, In s (logins db') /\ se_hash s = refresh_token_hash (refresh_token t) /\ se_player s = pl_id p) \/
      tokens_ok t = false /\ (calm = true -> unlucky (tokens_for p now random) db)) db.
Proof.
  intros (q & Hq & Hid). unfold issue_session. fold (tokens_for p now random). set (t := tokens_for p now random).
  destruct (half_empty t) eqn:Hh; [apply wp_ret; right; split; [done|by left]|].
  apply wp_bind, wp_exec.
  - intros Hc e. apply wp_ret. right. split; [done|congruence].
  - intros now' E. split; [done|]. intros e. apply wp_ret. right. split; [done|]. intros _. right. unfold insert_login in E. cbn [se_player se_hash] in E.
    rewrite (proj2 (existsb_exists _ _)) in E by (exists q; split; [done|by apply Z.eqb_eq]). cbn [andb] in E.
    destruct (existsb _ (logins db)) eqn:Hex; [|done]. apply existsb_exists in Hex as (s & Hs & H%bool_decide_eq_true). eauto.
  - intros now' db' [] E. unfold insert_login in E. destruct (_ && _); [|done]. injection E as <-.
    split; [|intros Hc e; apply wp_ret; right; split; [done|congruence]].
    apply wp_ret. left. split; [done|]. eexists. split; [apply in_or_app; right; by left|done].
Qed.

Lemma login_contract client_ip message c salt random uuid l name password l' calm db :
  accounts_ok lower db -> login_guard client_ip message c l = (Guess name password, l') ->
  wp calm None (on_login client_ip message c salt random uuid l)
    (fun a db' => snd a = l' /\
      match login_of argon2id db name password with
      | Some p =>
          let t := tokens_for p (now_seconds c) random in
          fst a = build_auth_ok (pl_username p) (pl_elo p) (succeed t) /\
          (exists s, In s (logins db') /\ se_hash s = refresh_token_hash (refresh_token t) /\ se_player s = pl_id p) \/
          fst a = auth_error INTERNAL /\ (calm = true -> unlucky t db) \/
          calm = false /\ fst a = auth_error INVALID_CREDENTIALS /\ logins db' = logins db
      | None => fst a = auth_error INVALID_CREDENTIALS /\ logins db' = logins db
      end) db.
Proof.
  intros Hok Hg. rewrite (login_guessed _ _ _ _ _ _ _ _ _ _ Hg). apply wp_bind.
  eapply wp_mono; [apply wp_conj; [apply authenticate_contract|apply wp_conj; [by apply (authenticate_preserves lower argon2id)|apply authenticate_keeps]]|].
  cbn beta. intros r db1 ([(p & upgraded & E & ->)|[-> Hnone]] & Hgood & Hlog).
  - rewrite E. cbn [login_result l_player l_username l_epoch l_elo]. destruct (Hgood Hok) as [_ Hev].
    apply wp_bind. eapply wp_mono; [apply issue_contract; eapply evolves_known; [done|]; exists p; split; [by eapply login_of_in|done]|].
    cbn beta. intros t db2 [[-> Hs]|[Ht Hun]]; apply wp_ret; (split; [done|]).
    + left. split; [done|exact Hs].
    + right. left. rewrite Ht. split; [done|]. unfold unlucky in *. by rewrite <- Hlog.
  - apply wp_ret. split; [done|]. destruct (login_of argon2id db name password) as [p|]; [|done].
    right. right. destruct calm; [by discriminate Hnone|done].
Qed.
End login.

(** ** The other routes keep the accounts in order *)

Section routes.
Context `{S : OpenSSL} `{JC : ClaimsJson} `{J : Json}.
Context (lower : str -> str) (key : list Z) (argon2id : str -> list Z -> Argon2Params -> nat -> option (list Z)).
Context (sha256 : list Z -> list Z) (public_url : str).
Notation preserves := (preserves lower).

Lemma authorize_preserves access now : preserves (authorize_access_token key access now).
Proof. unfold authorize_access_token, current_token_epoch. repeat keep_step. Qed.

Ltac route_step := first
  [ apply register_user_preserves | apply request_reset_preserves | apply request_recovery_preserves | apply confirm_preserves
  | apply reset_preserves | apply logout_preserves | apply logout_all_preserves | apply link_preserves | apply unlink_preserves
  | apply authorize_preserves | keep_step ].

Lemma handle_register_preserves email ip message c random sent l :
  preserves (handle_register lower sha256 public_url email ip message c random sent l).
Proof. unfold handle_register. repeat route_step. Qed.

Lemma handle_email_preserves email ip message type c salt random sent l :
  preserves (handle_email lower key argon2id sha256 public_url email ip message type c salt random sent l).
Proof. unfold handle_email. repeat route_step. Qed.

Lemma handle_logout_preserves message : preserves (handle_logout message).
Proof. unfold handle_logout. repeat route_step. Qed.

Lemma handle_logout_all_preserves message c : preserves (handle_logout_all lower key message c).
Proof. unfold handle_logout_all. repeat route_step. Qed.

Lemma handle_link_preserves check message c : preserves (handle_link_google lower key check message c).
Proof. unfold handle_link_google. repeat route_step. Qed.

Lemma handle_unlink_preserves message c : preserves (handle_unlink_google lower key message c).
Proof. unfold handle_unlink_google. repeat route_step. Qed.

Lemma logins_kept_good {A} (m : IO AccountTables A) db :
  preserves m -> keeps_logins m ->
  wp false None m (fun _ db' => good_step lower db db' /\ logins db' = logins db) db.
Proof. intros Hp Hk. apply wp_conj; [by apply Hp|apply Hk]. Qed.

Lemma new_family_kept uuid db db' : logins db' = logins db -> new_family uuid db -> new_family uuid db'.
Proof. unfold new_family. by intros ->. Qed.

Lemma keeps_insert row : keeps_logins (exec_checked (fun _ => insert_player lower row)).
Proof.
  intros db. apply wp_exec_checked; [done|done|]. intros now db' p E. unfold insert_player in E.
  destruct (player_violation _ _ _); [done|]. by injection E as <- <-.
Qed.

Lemma reads_keep {A} (m : IO AccountTables A) : reads m -> keeps_logins m.
Proof. intros H db. eapply wp_mono; [apply H|]. by intros a db' ->. Qed.

Lemma sign_in_keeps identity suffixes : keeps_logins (google_sign_in lower identity suffixes).
Proof.
  unfold google_sign_in, attach_identity, create_google_account, touch_last_login.
  destruct identity as [id|]; [|apply keeps_ret]. apply keeps_bind; [by intros db; apply wp_select|].
  intros [e|[|p rest]]; [apply keeps_ret| |].
  - apply keeps_bind; [by intros db; apply wp_select|]. intros [e|[|p rest]]; [apply keeps_ret| |].
    + apply keeps_bind; [apply reads_keep, choose_reads|]. intros name. destruct (bool_decide _); [apply keeps_ret|].
      apply keeps_bind; [apply keeps_insert|intros b; apply keeps_ret].
    + destruct (_ || _); [apply keeps_ret|]. apply keeps_bind; [apply keeps_update|intros b; apply keeps_ret].
  - apply keeps_bind; [apply keeps_bind; [apply keeps_update|intros b; apply keeps_ret]|intros b; apply keeps_ret].
Qed.

Lemma issue_after {A} (m : IO AccountTables A) (k : A -> IO AccountTables Response) uuid db :
  preserves m -> keeps_logins m ->
  (forall a, (exists player name epoch now random answer,
     k a = (t ← issue_session key player name epoch now random uuid; answer t) /\ forall t, reads (answer t)) \/ reads (k a)) ->
  new_family uuid db ->
  wp false None (m ≫= k) (fun _ db' => good_step lower db db') db.
Proof.
  intros Hp Hk Hm Hnew. apply wp_bind. eapply wp_mono; [by apply logins_kept_good|]. intros a db1 [Hgood Hlog].
  destruct (Hm a) as [(player & name & epoch & now & random & answer & -> & Ha)|Hr].
  - apply wp_bind. eapply wp_mono; [by apply (issue_session_good lower), (new_family_kept _ db)|].
    intros t db2 H2. eapply wp_mono; [apply Ha|]. intros b db3 ->. by etrans.
  - eapply wp_mono; [apply Hr|]. by intros b db2 ->.
Qed.

Context (Hkey : length key = 32%nat) (dummy : str).

Lemma handle_login_good client_ip message c salt random uuid l db :
  new_family uuid db ->
  wp false None (handle_login lower key argon2id dummy client_ip message c salt random uuid l) (fun _ db' => good_step lower db db') db.
Proof.
  intros Hnew. destruct (login_guard client_ip message c l) as [[code|name password] l'] eqn:E.
  - rewrite (login_stopped _ _ _ _ _ _ _ _ _ _ _ _ _ E). by apply wp_ret.
  - rewrite (login_guessed _ _ _ _ _ _ _ _ _ _ _ _ _ _ E). apply (issue_after _ _ uuid); [|apply authenticate_keeps| |done].
    + by apply (authenticate_preserves lower argon2id).
    + intros [r|]; [|right; apply reads_ret].
      left. do 6 eexists. split; [reflexivity|]. intros t. apply reads_ret.
Qed.

Lemma handle_google_good check client_ip message c suffixes random uuid l db :
  new_family uuid db ->
  wp false None (handle_google_auth lower key check client_ip message c suffixes random uuid l) (fun _ db' => good_step lower db db') db.
Proof.
  intros Hnew. unfold handle_google_auth. destruct (take GoogleIp _ _ l) as [[] l1]; cbn [negb]; [|by apply wp_ret].
  destruct (parse_request message ≫= _) as [jwt|]; [|by apply wp_ret].
  apply (issue_after _ _ uuid); [apply sign_in_preserves|apply sign_in_keeps| |done].
  intros r. destruct (g_status r); try (right; apply reads_ret).
  left. do 6 eexists. split; [reflexivity|]. intros t. apply reads_ret.
Qed.

Lemma handle_refresh_good message c random db :
  accounts_ok lower db -> fresh_token random db ->
  wp false None (handle_refresh key message c random) (fun _ db' => good_step lower db db') db.
Proof.
  intros Hok Hf. unfold handle_refresh. destruct (parse_request message ≫= _) as [token|]; [|by apply wp_ret].
  apply wp_bind. eapply wp_mono; [by apply (refresh_contract lower)|].
  intros [outcome tokens] db1 H. assert (good_step lower db db1) as Hg by (destruct H as [[H _]|(_ & _ & [->|(a' & H & _)])]; done).
  destruct (negb _ || _); [by apply wp_ret|]. destruct (verify_access _ _ _); [|by apply wp_ret].
  apply wp_bind, wp_select; [by apply wp_ret|]. intros _ e. by apply wp_ret.
Qed.

Lemma auth_route_good type client_ip message c e l m db :
  auth_route lower key argon2id dummy sha256 public_url type client_ip message c e l = Some m ->
  accounts_ok lower db -> new_family (uuid e) db -> fresh_token (random e) db ->
  wp false None m (fun _ db' => good_step lower db db') db.
Proof.
  intros E Hok Hnew Hf. unfold auth_route in E.
  assert (forall m0 : IO AccountTables (option str), wp false None m0 (fun _ db' => good_step lower db db') db ->
    wp false None (f ← m0; mret (f, l)) (fun _ db' => good_step lower db db') db) as Hu.
  { intros m0 H. apply wp_bind. eapply wp_mono; [exact H|]. intros a db' H'. by apply wp_ret. }
  assert (forall m0 : IO AccountTables (option str * list Mail * Limiters), preserves m0 ->
    wp false None (a ← m0; mret (fst (fst a), snd a)) (fun _ db' => good_step lower db db') db) as Hm.
  { intros m0 H. apply wp_bind. eapply wp_mono; [by apply H|]. intros a db' H'. by apply wp_ret. }
  repeat case_bool_decide; destruct (google e); try done; injection E as <-;
    first [ apply Hm, handle_register_preserves | apply Hm, handle_email_preserves
          | by apply handle_login_good | by apply handle_google_good
          | apply Hu; first [ by apply handle_refresh_good | by apply handle_logout_preserves | by apply handle_logout_all_preserves
                            | by apply handle_link_preserves | by apply handle_unlink_preserves ] ].
Qed.
End routes.

(** ** Every route leaves the limiters in order *)

(** What holds of the answer, whatever statements fail. *)
Definition answers {A} (P : A -> Prop) (m : IO AccountTables A) : Prop := forall env w, P (fst (m env w)).

Lemma answers_ret {A} (P : A -> Prop) a : P a -> answers P (mret a).
Proof. by intros H env w. Qed.

Lemma answers_bind {A B} (P : B -> Prop) (m : IO AccountTables A) (k : A -> IO AccountTables B) :
  (forall a, answers P (k a)) -> answers P (m ≫= k).
Proof.
  intros H env w. change ((m ≫= k) env w) with (let '(a, w) := m env w in k a env w). destruct (m env w) as [a w']. apply H.
Qed.

Lemma answers_then {A B} (Q : A -> Prop) (P : B -> Prop) (m : IO AccountTables A) (k : A -> IO AccountTables B) :
  answers Q m -> (forall a, Q a -> answers P (k a)) -> answers P (m ≫= k).
Proof.
  intros Hm H env w. change ((m ≫= k) env w) with (let '(a, w) := m env w in k a env w). specialize (Hm env w).
  destruct (m env w) as [a w']. by apply H.
Qed.

Lemma take_address_limiters address now l : limiters_ok l -> limiters_ok (snd (take_address address now l)).
Proof. intros H. unfold take_address. destruct (bool_decide _); [done|]. by apply take_limiters. Qed.

Section limited.
Context `{JC : ClaimsJson} `{J : Json}.
Context (lower : str -> str) (key : list Z) (argon2id : str -> list Z -> Argon2Params -> nat -> option (list Z)) (dummy : str).
Context (sha256 : list Z -> list Z) (public_url : str).

Ltac limited :=
  match goal with
  | H : limiters_ok ?l |- context [take ?s ?now ?k ?l] =>
      let H' := fresh in pose proof (take_limiters s now k l H) as H'; destruct (take s now k l) as [? ?]; cbn [snd] in H'
  | H : limiters_ok ?l |- context [take_address ?a ?now ?l] =>
      let H' := fresh in pose proof (take_address_limiters a now l H) as H'; destruct (take_address a now l) as [? ?]; cbn [snd] in H'
  | |- answers _ (mret _) => by apply answers_ret
  | |- answers _ (respond _ _) => by apply answers_ret
  | |- answers _ (_ ≫= _) => apply answers_bind; intros ?
  | |- answers _ (if ?b then _ else _) => destruct b
  | |- answers _ (match ?x with _ => _ end) => destruct x
  end; cbn beta iota zeta.

Lemma auth_route_limiters type client_ip message c e l m :
  auth_route lower key argon2id dummy sha256 public_url type client_ip message c e l = Some m ->
  limiters_ok l -> answers (fun a => limiters_ok (snd a)) m.
Proof.
  intros E Hl. unfold auth_route in E.
  assert (forall m0 : IO AccountTables (option str), answers (fun a => limiters_ok (snd a)) (f ← m0; mret (f, l))) as Hu
    by (intros m0; by repeat limited).
  assert (forall m0 : IO AccountTables (option str * list Mail * Limiters), answers (fun a => limiters_ok (snd a)) m0 ->
    answers (fun a => limiters_ok (snd a)) (a ← m0; mret (fst (fst a), snd a))) as Hm
    by (intros m0 H; eapply answers_then; [exact H|]; intros a Ha; by apply answers_ret).
  repeat case_bool_decide; destruct (google e); try done; injection E as <-;
    first [ apply Hu | apply Hm | idtac ].
  all: unfold handle_register, handle_email, handle_login, handle_google_auth; cbn zeta; repeat limited.
Qed.
End limited.
