(* ===== verification/GatewayCorrectness.v ===== *)
(** * Correctness of the gateway

    What a message must be for a route to be called: sealed where the type asks for it,
    authenticated where the policy does. The witnesses run the pipeline of the server on
    whole messages, with [text_library] for JSON. *)
From stdpp Require Import gmap strings.
From S2P Require Import Prelude Types Binary64 RateLimiter AuthHandler Fen Notation Bytes Base64 Sha2 Hmac Aes AesSpec Aead Credentials WebSocket Storage StorageSpec AccountStore AccountSpec Token Sessions SessionSpec AccountSteps LoginSpec SealedEnvelope KeyStore Json SealedRegistry IdentityExtractor RequestPipeline GatewaySpec CryptoCorrectness AccountCorrectness.
Open Scope Z_scope.

(** ** Sealed types *)

(** C30. Sealed requests. A message of a type that must be sealed reaches its route exactly
    when it carries an envelope, in base64, that opens under an unexpired one-time key of the
    store and whose payload is an object of that type; the route then gets the payload under
    the route's type, and nothing of what was outside the envelope. The envelope is the
    authenticated encryption of that payload under secrets the key pair derives. Any other
    message is dropped without an answer. In either case the key named by the envelope is
    spent: until a key is stored under its identifier again, no message with it gets through.
    And whatever a client seals to an offer issued to it gets through while the offer lives. *)
Theorem sealed_requests `{S : OpenSSL} `{L : !OpenSSLLaws S} `{JC : ClaimsJson} `{J : Json} `{JL : !JsonLaws J}
    google key now (r : SealedRegistry) conn m message type :
  let server := server_pipeline true google key now (Some r) in
  guards r -> route (installed server) true message = ToHandler type -> type ∈ SEALED_TYPES ->
  exists reaction r',
    on_message server conn m message (Some r) = mret (reaction, Some r') /\ guards r' /\
    ((exists e entry payload body out j,
        unsealing now type message r e entry payload body /\ reaction = CallRaw type out /\
        json_parse out = Some j /\ get_object j = Some (<[TYPE := of_string type]> body) /\
        (Z.of_nat (length (env_ct e)) < 2 ^ 57 ->
         env_ct e ++ env_tag e =
         Aead.seal (envelope_keys (decapsulate (kem (material entry)) (env_kem_ct e))
                                  (derive_shared (ecc (material entry)) (env_x25519_pk e)))
           (env_iv e) (build_aad (env_key_id e)) payload)) \/
     reaction = Silent /\ forall e entry payload body, ~ unsealing now type message r e entry payload body) /\
    (forall e, carries message e ->
       entries_ (store_ r') = delete (env_key_id e) (entries_ (store_ r)) /\
       forall ops later type' message' e',
         List.Forall (fun o => match o with Store _ _ id _ => id <> env_key_id e | _ => True end) ops ->
         type' ∈ SEALED_TYPES -> carries message' e' -> env_key_id e' = env_key_id e ->
         fst (inspect later type' message' (with_store (fold_left (fun s o => KeyStore.exec o s) ops (store_ r')) r'))
           = (Rejected, [])) /\
    (forall identity t0 t1 visit client id km ec seed s0 o s1 payload kseed eph iv e body,
       length id = 16%nat -> bytes_of_length 16 iv -> Z.of_nat (length payload) < 2 ^ 58 -> ecc_public_key eph <> [] ->
       issue identity t0 t1 visit client id km ec seed s0 = (Some o, s1) ->
       entries_ (sweep_locked t0 visit s0) !! id = None ->
       entries_ (store_ r) !! id = entries_ s1 !! id -> now < t1 + ttl_seconds_ s0 * 1000000000 ->
       SealedEnvelope.seal o payload kseed eph iv = (true, e) -> carries message e ->
       json_parse (of_bytes payload) ≫= get_object = Some body -> body !! TYPE ≫= get_string = Some type ->
       exists entry, unsealing now type message r e entry payload body).
Proof.
  cbv zeta. intros Hg Hr Ht. pose proof (sealed_plain type Ht) as Hp.
  assert (is_required type r = true) as Hreq by (rewrite Hg; by apply bool_decide_eq_true).
  exists (raw_reaction type message (fst (inspect now type message r))), (snd (inspect now type message r)).
  split; [|split; [by apply inspect_guards|split; [|split]]].
  - rewrite (on_raw true google key now (Some r) conn m message type Hr (sealed_are_raw _ Ht)).
    by destruct (inspect now type message r).
  - destruct (inspect_cases now type message r Hreq) as [(e & entry & payload & body & Hu & ->)|[Hn ->]]; [left|by right].
    destruct (rewrite_message_spec type (of_bytes payload) body Hp (un_body _ _ _ _ _ _ _ _ Hu)) as (out & j & -> & Hj & Hb).
    exists e, entry, payload, body, out, j. split_and!; try done. intros Hl.
    destruct Hu as [Hc _ _ Ho _ _]. pose proof (ca_bytes _ _ Hc) as (_ & _ & _ & Hiv & _ & _).
    by apply open_authentic.
  - intros e He. pose proof (inspect_spends now type message r e Hreq He) as Hs. split; [done|].
    intros ops later type' message' e' Hops Ht' He' Hid. eapply inspect_spent; [|done|].
    + unfold is_required. cbn [required_ with_store]. rewrite inspect_required. change (is_required type' r = true).
      rewrite Hg. by apply bool_decide_eq_true.
    + cbn [store_ with_store]. rewrite Hid. apply absent_run; [|done]. rewrite Hs. apply lookup_delete_eq.
  - intros identity t0 t1 visit client id km ec seed s0 o s1 payload kseed eph iv e body Hid Hiv Hlen Heph Hi Hfresh Hk Hlive Hseal Hc Hb Hty.
    destruct (issue_spec _ _ _ _ _ _ _ _ _ _ _ _ Hi Hfresh) as (material & Hm & He).
    destruct (open_sealed _ _ _ _ _ _ _ _ _ _ _ _ _ Hid Hiv Hlen Heph Hm Hseal) as [_ Ho].
    apply mint_spec in Hm as (_ & -> & _). pose proof (open_authentic_id _ _ _ Ho) as Hkid. cbn in Hkid.
    eexists. split; try done.
    + by rewrite Hkid, Hk.
    + exact Hlive.
    + exact Ho.
    + by left.
Qed.

(** A login sealed to an offer of the server, as a browser sends it. *)
#[local] Existing Instances toy toy_laws text_library text_library_laws.

Definition key_id0 : list Z := repeat 9 16.
Definition material0 : SealKeyMaterial := mkSealKeyMaterial key_id0 (Some 3) (Some 5).
Definition offer0 : SealKeyOffer :=
  match toy_mint with Some (_, o) => o | None => mkSealKeyOffer [] [] [] 0 [] end.
Definition body0 : gmap (list ascii) Tree :=
  list_to_map [(lit "password", TStr secret0); (TYPE, TStr (lit "login")); (lit "username", TStr alice)].
Definition payload0 : list Z := bytes_of (show (TObj (map_to_list body0))).
Definition sealed0 : bool * SealedEnvelope := SealedEnvelope.seal offer0 payload0 11 (Some 13) (repeat 1 16).
Definition envelope0 : SealedEnvelope := snd sealed0.

Definition b64_text (bytes : list Z) : Tree := TStr (encode_base64 bytes).
Definition sealed_message (type : str) (e : SealedEnvelope) : str :=
  show (TObj [(TYPE, TStr type);
    (lit "sealed", TObj [(lit "key_id", b64_text (env_key_id e)); (lit "kem_ct", b64_text (env_kem_ct e));
      (lit "x25519_pk", b64_text (env_x25519_pk e)); (lit "iv", b64_text (env_iv e));
      (lit "ct", b64_text (env_ct e)); (lit "tag", b64_text (env_tag e))])]).
Definition login0 : str := sealed_message (lit "login") envelope0.

Definition keys0 : SealedKeyStore SealKeyMaterial :=
  KeyStore.exec (Store 5 (lit "10.0.0.1") key_id0 material0) (new_store 120 8 4096).
Definition registry0 : SealedRegistry := sealed_registry (Some 7) keys0.

Lemma registry0_guards : guards registry0.
Proof.
  intros type. unfold is_required. apply bool_decide_ext. unfold registry0, sealed_registry, SEALED_TYPES.
  cbn [fold_left require_sealed required_ new_registry]. set_solver.
Qed.

Lemma minted0 : mint (Some 7) 120 key_id0 (Some 3) (Some 5) 0 = Some (material0, offer0).
Proof.
  change (toy_mint = Some (material0, offer0)). pose proof toy_run as Hr. unfold offer0.
  destruct toy_mint as [[material o]|] eqn:Em; [|discriminate Hr]. by apply mint_spec in Em as (_ & -> & _).
Qed.

Lemma issued0 :
  issue (Some 7) 4 5 [] (lit "10.0.0.1") key_id0 (Some 3) (Some 5) 0 (new_store 120 8 4096) = (Some offer0, keys0).
Proof.
  unfold issue. set (s := new_store 120 8 4096).
  assert (issue_admit 4 [] (lit "10.0.0.1") s = (true, s)) as -> by reflexivity.
  cbn [negb]. change (ttl_seconds_ s) with 120. rewrite minted0.
  assert (off_key_id offer0 = key_id0) as -> by (pose proof minted0 as Hm; by apply mint_spec in Hm as (_ & _ & _ & _ & -> & _)).
  reflexivity.
Qed.

Lemma sealed0_ok : SealedEnvelope.seal offer0 payload0 11 (Some 13) (repeat 1 16) = (true, envelope0).
Proof.
  unfold envelope0, sealed0. set (x := SealedEnvelope.seal _ _ _ _ _).
  assert (fst x = true) as H by (vm_compute; reflexivity). clearbody x. by destruct x as [[] e].
Qed.

Lemma login0_carries : carries login0 envelope0.
Proof. apply read_envelope_spec. vm_compute. reflexivity. Qed.

Lemma payload0_body : json_parse (of_bytes payload0) ≫= get_object = Some body0.
Proof. vm_compute. reflexivity. Qed.

Lemma typed_body0 : <[TYPE := of_string (lit "login")]> body0 = body0.
Proof. apply insert_id. vm_compute. reflexivity. Qed.

Lemma small0 : bytes_of_length 16 (repeat 1 16) /\ Z.of_nat (length payload0) < 2 ^ 58 /\ ecc_public_key (Some 13) <> [].
Proof. split; [apply byte_list_ok; vm_compute; reflexivity|]. split; vm_compute; [reflexivity|discriminate]. Qed.

Lemma login0_routed google : route (installed (server_pipeline true google key0 6 (Some registry0))) true login0 = ToHandler (lit "login").
Proof. destruct google; vm_compute; reflexivity. Qed.

Lemma sealed_requests_witness :
  exists out j r',
    on_message (server_pipeline true false key0 6 (Some registry0)) (mkHandle 4 1) (mkMoment 1500 1500 None) login0 (Some registry0)
      = mret (CallRaw (lit "login") out, Some r') /\
    json_parse out = Some j /\ get_object j = Some body0 /\
    fst (inspect 7 (lit "login") login0 r') = (Rejected, []).
Proof.
  assert (lit "login" ∈ SEALED_TYPES) as Ht by left.
  destruct (sealed_requests false key0 6 registry0 (mkHandle 4 1) (mkMoment 1500 1500 None) login0 (lit "login")
    registry0_guards (login0_routed false) Ht) as (reaction & r' & Hrun & _ & Hreact & Hspent & Hclient).
  destruct small0 as (Hiv & Hp & He).
  destruct (Hclient (Some 7) 4 5 [] (lit "10.0.0.1") key_id0 (Some 3) (Some 5) 0 (new_store 120 8 4096) offer0 keys0
    payload0 11 (Some 13) (repeat 1 16) envelope0 body0 eq_refl Hiv Hp He issued0 eq_refl eq_refl eq_refl sealed0_ok
    login0_carries payload0_body eq_refl) as [entry0 Hu].
  destruct Hreact as [(e & entry & payload & body & out & j & Hu' & -> & Hj & Hb & _)|[_ Hn]]; [|destruct (Hn _ _ _ _ Hu)].
  exists out, j, r'. split; [exact Hrun|]. split; [exact Hj|]. split.
  - rewrite Hb, (unsealing_unique _ _ _ _ _ _ _ _ _ _ _ _ Hu Hu'). exact (f_equal Some typed_body0).
  - destruct (Hspent envelope0 login0_carries) as [_ H].
    specialize (H [] 7 (lit "login") login0 envelope0 (List.Forall_nil _) Ht login0_carries eq_refl).
    destruct r'. exact H.
Defined.

(** ** Identified routes *)

(** C31. Authenticated requests. A message that is not of a sealed type leaves the keys alone.
    A public route is called with no identity. A route that requires one is called exactly
    when the message bears an access token that verifies now and whose epoch is the current
    one of an account, and it is called with the identity of that account; a request refused
    for its token is answered [auth_required], and a database that fails is told apart from
    it: the answer then has no code, and nothing is called. The tables do not change. Which
    route is which is the table of the handlers. *)
Theorem authenticated_requests `{S : OpenSSL} `{JC : ClaimsJson} `{J : Json} lower
    auth_enabled google key now (reg : option SealedRegistry) conn m message calm db :
  let server := server_pipeline auth_enabled google key now reg in
  accounts_ok lower db -> (forall r, reg = Some r -> guards r) ->
  wp calm None (on_message server conn m message reg)
    (fun a db' => db' = db /\
      match route (installed server) true message with
      | ToHandler type =>
          type ∈ AUTH_ROUTES /\ (fst a = Silent \/ fst a = Raised \/ exists text, fst a = CallRaw type text) \/
          (type ∉ AUTH_ROUTES) /\ snd a = reg /\
          match json_parse message with
          | None => fst a = send_error Reply (lit "Invalid JSON: " ++ json_what message)
          | Some msg => typed_reaction auth_enabled key conn m calm db type msg (fst a)
          end
      | ToDefault => a = (Reply UNKNOWN_TYPE, reg)
      | Dropped => a = (Silent, reg)
      end) db.
Proof.
  cbv zeta. set (server := server_pipeline auth_enabled google key now reg). intros Hok Hg.
  destruct (route (installed server) true message) as [type| |] eqn:Hr;
    [|by unfold on_message; rewrite Hr; apply wp_ret|by unfold on_message; rewrite Hr; apply wp_ret].
  pose proof (routed_entry auth_enabled google key now reg message type Hr) as [[Hraw Ht]|(Hraw & Hs & Htyped)].
  - unfold server. rewrite (on_raw auth_enabled google key now reg conn m message type Hr Ht).
    apply wp_ret. split; [done|]. left. split; [done|]. destruct reg as [r|]; [|right; right; by eexists].
    destruct (inspect now type message r) as [[[] out] r']; cbn; eauto.
  - unfold on_message. rewrite Hr. unfold run_handler. fold server in Hraw. rewrite Hraw.
    assert (exists policy, typed_entries_ server !! type = Some policy /\
      (policy = mkPolicy type AuthNone SealNone /\ type ∈ PUBLIC_ROUTES \/
       policy = mkPolicy type AuthRequired SealNone /\ type ∈ IDENTIFIED_ROUTES)) as (policy & Hp & Hcase)
      by (destruct Htyped as [[? ?]|[? ?]]; eauto).
    rewrite Hp. eapply wp_mono; [by eapply run_typed_contract|]. intros a db' (-> & Hsnd & Hfst).
    split; [done|]. right. split; [by eapply server_typed|by split].
Qed.

(** A request to open a game by a player who has signed in. *)
Definition token0 : str := issue_access key0 alice_claims.
Definition create0 : str :=
  show (TObj [(lit "type", TStr (lit "create_game")); (lit "access_token", TStr token0)]).
Definition request0 : Tree :=
  TObj [(lit "type", TStr (lit "create_game")); (lit "access_token", TStr token0)].

Lemma create0_read : json_parse create0 = Some request0.
Proof. apply read_shown. Qed.

Lemma alice_admitted i : admits key0 1500 request0 alice_online i <-> i = mkAuthenticated 1 alice 800.
Proof.
  assert (verify_access key0 token0 1500 = Some alice_claims) as Hv by (vm_compute; reflexivity).
  split.
  - intros (token & c & p & Ht & Hc & Hp & _ & _ & ->). injection Ht as <-.
    assert (p = hd p (people alice_online)) as ->.
    { revert Hp. vm_compute people. cbn. by intros [<-|[]]. }
    vm_compute. reflexivity.
  - intros ->. eexists _, alice_claims, _. split; [reflexivity|]. split; [exact Hv|].
    split; [vm_compute; left; reflexivity|]. split; [|split]; vm_compute; reflexivity.
Qed.

Lemma authenticated_requests_witness :
  wp true None
    (on_message (server_pipeline (S := toy) true true key0 6 None) (mkHandle 4 1) (mkMoment 1500 1500 None) create0 None)
    (fun a db' => a = (Call (lit "create_game") (mkContext (mkHandle 4 1) (Some (mkAuthenticated 1 alice 800)) 1500) request0 [], None))
    alice_online.
Proof.
  eapply wp_mono; [apply (authenticated_requests (S := toy) to_lower_ascii true true key0 6 None (mkHandle 4 1)
    (mkMoment 1500 1500 None) create0 true alice_online alice_ok); discriminate|].
  intros [reaction st] db' [_ H].
  assert (route (installed (server_pipeline (S := toy) true true key0 6 None)) true create0 = ToHandler (lit "create_game"))
    as Hr by (vm_compute; reflexivity).
  rewrite Hr, create0_read in H.
  assert ((lit "create_game" ∉ AUTH_ROUTES) /\ (lit "create_game" ∉ PUBLIC_ROUTES)) as [Ha Hp]
    by (apply (bool_decide_unpack _); vm_compute; reflexivity).
  destruct H as [[Ht _]|(_ & E & H)]; [destruct (Ha Ht)|]. cbn [fst snd] in E, H. subst st. f_equal.
  destruct H as [Ht|i _ _ Hi|why _ Hn|_ [Hl|Hl]]; [destruct (Hp Ht)| | |discriminate Hl|discriminate Hl].
  - apply alice_admitted in Hi as ->. reflexivity.
  - destruct (Hn eq_refl _ (proj2 (alice_admitted _) eq_refl)).
Defined.

(** ** Rate limits *)

(** C32. Token buckets. In every limiter that calls can lead to, at whatever times they are
    made, no bucket is worth more than the capacity; a request is granted exactly if the whole
    tokens of its key, its quota, cover the cost, it then takes exactly that, and a refused one
    takes nothing. So of the requests made within an instant every key is granted its first
    ones, as many as its quota, at most the capacity, whatever the other keys ask for in
    between; and a key without a bucket has the full quota. The other keys' levels
    stay; nothing is refilled until the clock has advanced past the request; every entry left
    was touched within [ttl]. At five logins a minute an emptied bucket earns its first token
    after 12 seconds, its second after 24, its fifth after a minute, and no more. Only a clock that is set back and then forward again refills for
    the same time twice: five logins a minute become ten. *)
Theorem rate_limits limit now l :
  limit_ok limit -> reached limit l ->
  (forall keys, fst (serve now keys l) = first_come (fun k => quota now k l) [] keys) /\
  (forall key, 0 <= quota now key l <= capacity limit /\
     (buckets_ l !! key = None -> quota now key l = capacity limit)) /\
  (forall key cost, 0 <= cost < 2 ^ 53 ->
     let r := try_take now key cost l in
     fst r = (cost <=? quota now key l) /\
     (forall now', now' <= now ->
        quota now' key (snd r) = if fst r then quota now key l - cost else quota now key l) /\
     (forall k, k <> key -> level now k (snd r) = level now k l) /\
     forall k b, buckets_ (snd r) !! k = Some b -> now - last_touched b <= ttl_ l) /\
  let minute := 60 * 1000000000 in
  let logins now l := serve now (repeat (lit "203.0.113.7") 6) l in
  let a := logins minute (new_limiter rate_presets.login_per_ip) in
  let b := logins 0 (snd a) in
  let c := logins minute (snd b) in
  map (fun s => quota (minute + s * 1000000000) (lit "203.0.113.7") (snd a)) [0; 11; 13; 25; 61; 3600] = [0; 0; 1; 2; 5; 5] /\
  fst a = [true; true; true; true; true; false] /\ fst b = repeat false 6 /\ fst c = fst a.
Proof.
  intros Hlim Hr. pose proof (reached_ok limit l Hlim Hr) as Hk. split; [|split; [|split; [|vm_compute; by split_and!]]].
  - intros keys. apply (serve_first_come limit); [done|done|]. intros k. pose proof (quota_bounds limit l now k Hlim Hk).
    unfold left_of, asked. cbn. lia.
  - intros key. split; [by apply (quota_bounds limit)|]. apply (quota_full limit); [done|apply Hk].
  - intros key cost Hc r. pose proof (try_take_spec now key cost l) as H. cbv zeta in H. fold r in H.
    destruct H as (H1 & H2 & H3 & H4 & H5). destruct (granted_quota limit l now key cost Hlim Hk Hc) as [G1 G2].
    rewrite G1 in H1. split; [done|]. split; [|split].
    + intros now' Hle. unfold quota at 1, level at 1. rewrite H2, H3, H4. unfold fresh. cbn [last_touched].
      rewrite (proj2 (Z.ltb_ge _ _)) by (pose proof (lo_ttl _ _ Hk); lia). cbn [negb].
      rewrite no_time_no_refill by done. cbn [tokens]. rewrite H1. destruct (Z.leb_spec cost (quota now key l)); [by apply G2|done].
    + intros k Hne. by apply try_take_others.
    + intros k b Hb. destruct (decide (k = key)) as [->|Hne].
      * rewrite H4 in Hb. injection Hb as <-. cbn. pose proof (lo_ttl _ _ Hk). lia.
      * rewrite (H5 k Hne) in Hb. destruct (buckets_ l !! k) as [b0|]; [|done]. cbn in Hb.
        destruct (fresh (ttl_ l) now b0) eqn:Hf; [|done]. injection Hb as ->. unfold fresh in Hf. by bool_hyps.
Qed.

(** Half an hour after a burst that emptied a bucket, the next burst is no longer. *)
Lemma rate_limits_witness :
  let limit := rate_presets.login_per_ip in
  let a := lit "198.51.100.4" in
  let emptied := snd (serve 0 (repeat a 5) (new_limiter limit)) in
  let later := 1800 * 1000000000 in
  quota 0 a emptied = 0 /\ quota later a emptied = 5 /\
  fst (serve later [a; lit "198.51.100.5"; a; a; a; a; a; a] emptied) = [true; true; true; true; true; true; false; false].
Proof.
  intros limit a emptied later.
  assert (limit_ok limit) as Hl by (split; [by split; vm_compute|by split; vm_compute]).
  assert (reached limit emptied) as Hr by by apply serve_reached, re_new.
  split; [vm_compute; reflexivity|]. split; [vm_compute; reflexivity|].
  destruct (rate_limits limit later emptied Hl Hr) as [H _]. rewrite H. vm_compute. reflexivity.
Defined.

(** ** Signing in *)

(** C33. The routes of the accounts. Every handler keeps the accounts in order, whatever the
    message and whatever statements fail. A login request that its limiters refuse, or that
    is no login, is answered without a question to the tables; any other is answered with
    tokens exactly for the account its credentials open, and a session for its refresh token
    is then stored. Without faults a login that is right is refused only if the random token
    is in use. Whatever calls have been made on the limiters before, at any times, they let at
    most five guesses through from an address at one instant, and at most ten for a name, in
    whatever cases it is written; and every route leaves the limiters in such a state. *)
Theorem auth_routes `{JC : ClaimsJson} `{J : Json} lower key argon2id dummy sha256 url
    type client_ip message c e l calm db :
  length key = 32%nat -> accounts_ok lower db ->
  (forall m, auth_route lower key argon2id dummy sha256 url type client_ip message c e l = Some m ->
     new_family (AuthHandler.uuid e) db -> fresh_token (AuthHandler.random e) db ->
     wp false None m (fun _ db' => accounts_ok lower db' /\ evolves db db') db) /\
  (forall salt random uuid,
     let login := handle_login lower key argon2id dummy client_ip message c salt random uuid l in
     match login_guard client_ip message c l with
     | (Stopped code, l') => login = mret (auth_error code, l')
     | (Guess name password, l') =>
         wp calm None login
           (fun a db' => snd a = l' /\
             match login_of argon2id db name password with
             | Some p =>
                 let t := tokens_for key p (now_seconds c) random in
                 fst a = build_auth_ok (pl_username p) (pl_elo p) (succeed t) /\
                 (exists s, In s (logins db') /\ se_hash s = refresh_token_hash (refresh_token t) /\ se_player s = pl_id p) \/
                 fst a = auth_error INTERNAL /\ (calm = true -> unlucky t db) \/
                 calm = false /\ fst a = auth_error INVALID_CREDENTIALS /\ logins db' = logins db
             | None => fst a = auth_error INVALID_CREDENTIALS /\ logins db' = logins db
             end) db
     end) /\
  (limiters_ok new_limiters /\ (limiters_ok l ->
     (forall m, auth_route lower key argon2id dummy sha256 url type client_ip message c e l = Some m ->
        forall env w, limiters_ok (snd (fst (m env w)))) /\
     forall now requests k,
       counted fst k (guesses now requests l) <= 5 /\ counted snd k (guesses now requests l) <= 10)).
Proof.
  intros Hkey Hok. split; [|split; [|split]].
  - intros m Hm Hnew Hf. eapply wp_mono; [by eapply auth_route_good|]. intros a db' H. by apply H.
  - intros salt random uuid login. destruct (login_guard client_ip message c l) as [[code|name password] l'] eqn:E.
    + by apply login_stopped.
    + by apply login_contract.
  - exact new_limiters_ok.
  - intros Hl. split; [intros m Hm; by eapply auth_route_limiters|]. intros now requests k. split.
    + exact (guesses_capped now LoginIp k requests l (or_introl eq_refl) Hl).
    + exact (guesses_capped now LoginAccount k requests l (or_intror eq_refl) Hl).
Qed.

Definition login_text (password : str) : str :=
  show (TObj [(lit "username", TStr (lit "ALICE")); (lit "password", TStr password)]).

#[local] Arguments login_guard : simpl never.

Definition surroundings0 : Surroundings := mkSurroundings None None [] [] [] [] false.

Lemma lucky0 : ~ unlucky (tokens_for key0 alice_row 2000 (repeat 8 32)) alice_online.
Proof.
  intros [H|(s & Hs & H)]; [vm_compute in H; discriminate H|]. revert Hs H. vm_compute logins. intros [<-|[]]. vm_compute. discriminate.
Qed.

(** Alice signs in by her name in capitals; a wrong password opens nothing. *)
Lemma auth_routes_witness :
  let login password := handle_login to_lower_ascii key0 plain_argon [] (lit "10.0.0.1") (login_text password)
    (mkReadings 0 0 2000 2000) salt0 (repeat 8 32) (repeat 4 16) new_limiters in
  wp true None (login secret0)
    (fun a _ => fst a = build_auth_ok alice 800 (succeed (tokens_for key0 alice_row 2000 (repeat 8 32)))) alice_online /\
  wp true None (login (lit "passw0rd!")) (fun a _ => fst a = auth_error INVALID_CREDENTIALS) alice_online.
Proof.
  intros login.
  assert (forall password, fst (login_guard (lit "10.0.0.1") (login_text password) (mkReadings 0 0 2000 2000) new_limiters) =
    Guess (lit "ALICE") password -> forall Q,
    (forall a : Response, match login_of plain_argon alice_online (lit "ALICE") password with
      | Some p => fst a = build_auth_ok (pl_username p) (pl_elo p) (succeed (tokens_for key0 p 2000 (repeat 8 32))) \/
                  unlucky (tokens_for key0 p 2000 (repeat 8 32)) alice_online
      | None => fst a = auth_error INVALID_CREDENTIALS end -> Q (fst a)) ->
    wp true None (login password) (fun a _ => Q (fst a)) alice_online) as Hlogin.
  { intros password Hg Q HQ.
    destruct (auth_routes to_lower_ascii key0 plain_argon [] first_bytes url0 (lit "login") (lit "10.0.0.1")
      (login_text password) (mkReadings 0 0 2000 2000) surroundings0 new_limiters true alice_online eq_refl alice_ok) as (_ & H & _).
    specialize (H salt0 (repeat 8 32) (repeat 4 16)). cbv zeta in H. revert H.
    destruct (login_guard (lit "10.0.0.1") (login_text password) _ _) as [v l'] eqn:E. cbn [fst] in Hg. subst v.
    intros H. eapply wp_mono; [exact H|]. cbn beta. intros a db' [_ Ha]. apply HQ. cbn [now_seconds] in Ha.
    destruct (login_of plain_argon alice_online (lit "ALICE") password) as [p|]; [|exact (proj1 Ha)].
    destruct Ha as [[Ha _]|[[_ Hu]|[Hc _]]]; [left; exact Ha|right; exact (Hu eq_refl)|discriminate Hc]. }
  split.
  - apply (Hlogin secret0 ltac:(vm_compute; reflexivity)
      (fun f => f = build_auth_ok alice 800 (succeed (tokens_for key0 alice_row 2000 (repeat 8 32))))). intros a.
    assert (login_of plain_argon alice_online (lit "ALICE") secret0 = Some alice_row) as -> by (vm_compute; reflexivity).
    intros [Ha|Hu]; [exact Ha|destruct (lucky0 Hu)].
  - apply (Hlogin (lit "passw0rd!") ltac:(vm_compute; reflexivity) (fun f => f = auth_error INVALID_CREDENTIALS)). intros a.
    assert (login_of plain_argon alice_online (lit "ALICE") (lit "passw0rd!") = None) as -> by (vm_compute; reflexivity).
    intros Ha; exact Ha.
Defined.
